(* ===== verification/_CoqProject ===== *)
-Q . S2P
Prelude.v
ContainerHeap.v
MinHeapSpec.v
MinHeap.v
Float64.v
TopkSpec.v
HeavyKeeper.v
HeavyKeeperCounts.v
Policy.v
Paths.v
CacheKey.v
Inotify.v
System.v
Partial.v
Watcher.v
Cache.v
Scan.v
Lease.v
Checkpoint.v
Cleanup.v
Eviction.v
CleanupDemo.v
Watching.v
RunLoop.v
Options.v
RunSafety.v
Runs.v
Metrics.v
Logging.v
Process.v
Daemon.v
Restart.v
Fallbacks.v
Launch.v
