(* ===== verification/Prelude.v ===== *)
(** * Hoshino: a node-local manager of Bazel's disk cache

    Hoshino watches the directory of a Bazel disk cache with inotify, keeps a sketch
    of its hottest entries, and deletes the coldest ones when the disk or the cache
    grows past a threshold.  It must never delete anything but a cache entry it has
    just inspected, never while a build uses the cache, and never before its picture
    of what is hot is good.  This development models the program, from the command line
    and the exit status to the bytes of the kernel's event buffer, and proves what
    makes those rules hold in every run and at every moment of the process.

    ** The program and where it is modelled

    Each file below is one component; a definition has the name of the Go function it
    translates, a helper that stands for part of one says which.

    - [src/eviction/internal/minheap/minheap.go]: MinHeap.v, the keyed min-heap on an
      explicit store of nodes, so that the pointers shared by the slice and the map
      are visible; container/heap of the standard library is ContainerHeap.v, over
      an interface of which [minheap.Nodes] is an instance.  MinHeapSpec.v is what the
      heap promises to its client, a finite map with a capacity.
    - [src/eviction/internal/heavykeeper]: HeavyKeeper.v, the sketch, against
      MinHeapSpec.v; HeavyKeeperCounts.v, what its counts mean over whole sequences
      of operations.  TopkSpec.v (topk.go) is the interface [Topk] and what the sketch
      promises to package [eviction]; everything below uses the sketch through it.
    - [src/eviction/policy.go]: Policy.v, the thresholds, [Validate] and
      [nextEvicting]; percentages are the binary64 numbers of Float64.v.
    - [src/diskutil]: CacheKey.v ([ParseKey], [KeyForPath], and [watchPathAllowed] of
      notify.go) on the lexical path functions of Paths.v; Cache.v ([NewCache],
      [Snapshot], [GetEntries], [Delete] with its descriptor protocol in
      delete_linux.go, [GetDiskUsage], [fileIdentity]); Scan.v, what a scan finds.
    - [src/eviction/lease.go]: Lease.v, the activity lock.
    - [src/eviction/internal/inotify]: Inotify.v, masks, events and the layout of the
      kernel's buffer; Watcher.v, the watch tables and the reader goroutine.
    - [src/eviction/checkpoint.go]: Checkpoint.v, loading, validation, and the
      write-sync-rename protocol.
    - [src/eviction/notify.go]: Cleanup.v ([cleanup], [selectVictims]; Eviction.v, what a
      pass leaves behind), Watching.v
      ([addDirectoryWatches], [seedExistingEntries], [handleEvent] and
      [handleReconciliationEvent]) and RunLoop.v ([New], [Run], [reconcile] and the
      functions they call; [Config] of notify_config.go).
    - [src/main.go]: Options.v, the defaults, [parseOptions] after the flags are
      parsed, [gibToBytes] and [evictionConfig]; Process.v, [run] and [main] as the
      steps of a process, over an interface of the manager; Launch.v, the manager of
      notify.go as an instance of it.
    - [src/prometheus.go] and [src/eviction/observer.go]: Metrics.v, the collectors, their
      registration and the observers; Logging.v, the log formatter.
    - [notify_other.go], [delete_other.go] and [identity_other.go]: Fallbacks.v, the stubs
      of other systems, the second instance of the manager's interface.

    ** How the code is translated

    The state of a component is a record; an operation is a function that returns the
    new state.  A run-time panic is [None] of the option type in the pure components
    and [Panic] in programs; errors are constructors that carry what the message
    prints, in [result] or as [option] where Go returns only an error.  Machine
    integers are [Z] with the wrap-around written out (below); times and durations are
    nanoseconds in [Z], without wrap-around: they stay in range for the centuries
    around now.

    A function that makes system calls, sends on a channel, reads the clock or reports
    to the observer is a [prog] (System.v): a tree whose nodes are the calls and whose
    branches are the answers.  [holds p Q] says that no execution of [p] panics and all
    satisfy [Q], whatever is answered: files may change between any two calls, timers
    and events may come in any order, and every call may fail.  What relies on a
    contract of the kernel says so in its statement ([holds_if], [fds_fresh]).

    - The [select] of [Run] is a call answered by the case that was ready.
    - A loop without end asks the environment ([CTurns]) how many turns it makes, so
      its executions are the finite parts of its life; a run that has not returned is
      [Running].
    - The two goroutines of [scanEntriesWhileDraining] are interleaved call by call
      by [par]; the reader goroutine of the watcher is a program of its own, and the
      state it shares with the daemon is what answers its calls.
    - The goroutines of [run] are a step relation (Process.v): the manager makes one call
      at a time while the main goroutine waits, signals arrive and servers answer or
      fail.  The end of [main] cuts the manager off anywhere; Partial.v carries what
      holds of whole executions over to such parts.
    - [n.ready.Store] is a call of its own ([CStoreReady]), because the servers read the
      variable from other goroutines: between a store and the announcement to the
      observer that follows it, probe and gauge may differ, and Partial.v says by how
      much.
    - A name in a directory has a list of possible contents after a crash: a rename adds
      one, and only the sync of the directory drops the others ([files], Checkpoint.v).
    - [filepath.WalkDir] learns what it will meet from one call ([CWalk]), an
      arbitrary tree, and says with [CReadDir] when it lists each directory, so the
      order of watching and listing is visible.
    - Fuel is only used where Go loops on a measure: one unit per comparison and one
      level per step in container/heap, one per node in [drop_zeros], one per header
      that fits in the bytes that were read in [events_loop], eight hexadecimal digits
      of a [uint32] in [hex_loop].  Running out is a panic, and the theorems show that
      none panics.

    ** What is shown

    - The process (Process.v, Launch.v, Fallbacks.v): the guards of deletion at every
      moment of its life; a daemon with default options deletes no file of the cache
      (its own temporary checkpoint file is all it removes); what the exit status says
      of the errors [run] received, and the probes of the readiness that was stored;
      that a signal ends it (without waiting for the manager); and that it refuses to
      run on other systems.
    - Whole runs (RunSafety.v, Runs.v, Daemon.v): deletion only while ready, warm,
      locked and not in shadow mode; every checkpoint that is written has valid
      content; when a run ends and with which error, and that a loss of the watcher
      does not end it while recovery succeeds; what [New] accepts and builds.
      RunSafety.v proves, operation by operation, that the run keeps to a monitor of
      what an observer of its calls knows: a loss of the watcher is read off the answer
      of the select, not off what the program reports.  Runs.v composes them.
    - One cycle (Cleanup.v): its gates, which entries are chosen and in which order,
      the protected budget of the action cache, that eviction only ends on a
      measurement or when nothing more may go (Eviction.v), and that a projection,
      which only observes, takes no more than it must.  What is removed, projected and
      measured is read off the trace and the entries.
    - Deletion and scans (Cache.v, Scan.v): what is unlinked is the file that was
      recorded, reached without following links; a scan reports exactly the entries
      that the walks met and that were inspected.
    - Watches (Watching.v, Watcher.v): the walk leaves no gap over the root and the two
      stores, with the events that must be seen named one by one; each event has the
      effect it should, the watching and seeding of a new directory included; the reader delivers every event of a buffer, the tables of
      the watcher stay inverse to each other.
    - Checkpoints (Checkpoint.v): replaced atomically, and durably once the directory is
      synced; exactly the valid ones are accepted.  The heat they carry survives a
      restart and a crash (Restart.v) while [minCount] is at most 1 and the encoded
      checkpoint fits in the 64 MiB that are read back: the next process has the same
      hot keys, counts and order.
    - The sketch (HeavyKeeperCounts.v): counts never too high, exact and complete
      without collisions and with [minCount] at most 1 (an example shows what goes wrong
      with 5), a round trip through [List] and [Restore], a refinement of
      its specification, no panic.  The heap (MinHeap.v): the index invariant and the
      meaning of each operation on the map.
    - Names and numbers (CacheKey.v, Policy.v, Options.v, Metrics.v, Logging.v): keys and
      paths, the accepted policies and their hysteresis, options converted without
      truncation and safe by default, collectors that can be registered, a truthful
      readiness gauge, default log fields that hide nothing.

    The witnesses evaluate these claims at concrete inputs; CleanupDemo.v, Daemon.v and
    Launch.v run a cycle, whole runs and a process against a toy system, with the
    sketch on the heap.

    ** What is not modelled

    The hash functions, [math.Pow], the seeded random stream, the sorting algorithm,
    the flag parser, the Prometheus client, the quoting of a name by [%q] and the wrapped
    log formatter are parameters, with documented laws where something relies on them.
    What encoding/json makes of the first 64 MiB of a checkpoint ([readLimit]) is an
    answer of the system.  Left out, because they are
    calls into libraries: how net/http reads a request and what promhttp and pprof
    answer, and the fields of a log line at each call.  The ten seconds after which
    [Shutdown] gives up are not measured: it may answer an error at any time. *)

From stdpp Require Export base tactics numbers list strings gmap sorting fin_maps.
From Stdlib Require Export ZArith Lia.

(** ** Machine integers of Go

    A [w]-bit integer is a [Z]; every operation that can leave the width is
    followed by the wrap-around the language prescribes. *)

Definition u32 (x : Z) : Z := (x mod 2 ^ 32)%Z.
Definition u64 (x : Z) : Z := (x mod 2 ^ 64)%Z.
Definition i64 (x : Z) : Z := ((x + 2 ^ 63) mod 2 ^ 64 - 2 ^ 63)%Z.

Definition in_u32 (x : Z) : Prop := (0 <= x < 2 ^ 32)%Z.
Definition in_u64 (x : Z) : Prop := (0 <= x < 2 ^ 64)%Z.
Definition in_i64 (x : Z) : Prop := (- 2 ^ 63 <= x < 2 ^ 63)%Z.

(** ** Panics

    A Go function that may panic is modelled with result type [option A]:
    [None] is the run-time panic (index out of range, nil dereference, division
    by zero).  Sequencing is stdpp's [x ← e; k]. *)

Definition nth_int {A} (l : list A) (i : Z) : option A :=
  if decide (0 <= i)%Z then l !! Z.to_nat i else None.

(** Two positions of a slice exchanged, [l[i], l[j] = l[j], l[i]]. *)
Definition list_swap {A} (i j : nat) (l : list A) : option (list A) :=
  a ← l !! i; b ← l !! j; Some (<[j:=a]> (<[i:=b]> l)).

(** The position that position [k] is filled from when [i] and [j] are exchanged. *)
Definition transp (i j k : nat) : nat :=
  if decide (k = i) then j else if decide (k = j) then i else k.

(** ** Order contract of the comparison functions passed to sort and heap

    Go's [sort] and [container/heap] document that [Less] must be a strict weak
    ordering: irreflexive, transitive, with transitive incomparability. *)
Class StrictWeakOrder {A} (lt : A → A → bool) : Prop := {
  swo_irrefl a : lt a a = false;
  swo_trans a b c : lt a b = true → lt b c = true → lt a c = true;
  swo_cotrans a b c : lt a c = true → lt a b = true ∨ lt b c = true
}.

(** [not_after lt a b]: [a] may stand before [b] in an order that sorts by [lt]. *)
Definition not_after {A} (lt : A → A → bool) (a b : A) : Prop := lt b a = false.

(** ** The contract of [sort.Sort] and [sort.Slice]

    Both are documented to produce a permutation sorted by [less], and not to be
    stable: which of the sorted permutations is produced is the library's choice,
    so a development takes the sorting function as a parameter of this class. *)
Class Sorter := go_sort : ∀ {A : Type}, (A → A → bool) → list A → list A.
Class SorterLaws `{Sorter} : Prop := {
  go_sort_perm {A} (lt : A → A → bool) l : go_sort lt l ≡ₚ l;
  go_sort_sorted {A} (lt : A → A → bool) `{!StrictWeakOrder lt} l :
    StronglySorted (not_after lt) (go_sort lt l)
}.

(** ** Hint databases and tactics *)

Create HintDb hoshino discriminated.
#[export] Hint Constants Transparent : hoshino.
#[export] Hint Variables Transparent : hoshino.

(** Solve a goal about a machine integer by unfolding the width predicates. *)
Ltac width := unfold in_u32, in_u64, in_i64, u32, u64, i64 in *; lia.

(** Break the boolean tests of the code in the context and goal. *)
Ltac case_bool :=
  repeat match goal with
  | |- context [if bool_decide ?P then _ else _] => case_bool_decide
  | H : context [if bool_decide ?P then _ else _] |- _ => case_bool_decide
  | |- context [if decide ?P then _ else _] => case_decide
  | H : context [if decide ?P then _ else _] |- _ => case_decide
  end.

(** Decompose a successful run of the panic monad. *)
Ltac inv_run :=
  repeat match goal with
  | H : mbind _ _ = Some _ |- _ => apply bind_Some in H as (?&?&?)
  | _ => progress simplify_eq
  end.

(** ** Machine integers: lemmas *)

Lemma u32_id x : in_u32 x → u32 x = x.
Proof. intros H. unfold u32, in_u32 in *. by rewrite Z.mod_small. Qed.

Lemma u64_id x : in_u64 x → u64 x = x.
Proof. intros H. unfold u64, in_u64 in *. by rewrite Z.mod_small. Qed.

Lemma i64_id x : in_i64 x → i64 x = x.
Proof. intros H. unfold i64, in_i64 in *. rewrite Z.mod_small; lia. Qed.

Lemma u32_range x : in_u32 (u32 x).
Proof. unfold in_u32, u32. apply Z.mod_pos_bound. lia. Qed.

Lemma u64_range x : in_u64 (u64 x).
Proof. unfold in_u64, u64. apply Z.mod_pos_bound. lia. Qed.

(** An intermediate wrap does not show. *)
Lemma i64_add x y : i64 (i64 x + y) = i64 (x + y).
Proof.
  unfold i64. f_equal. replace ((x + 2 ^ 63) mod 2 ^ 64 - 2 ^ 63 + y + 2 ^ 63)%Z
    with ((x + 2 ^ 63) mod 2 ^ 64 + y)%Z by lia.
  rewrite Zplus_mod_idemp_l. f_equal. lia.
Qed.

Lemma i64_range x : in_i64 (i64 x).
Proof.
  unfold in_i64, i64.
  pose proof (Z.mod_pos_bound (x + 2 ^ 63) (2 ^ 64)). lia.
Qed.

Lemma shiftr1_div x : Z.shiftr x 1 = (x / 2)%Z.
Proof. by rewrite Z.shiftr_div_pow2. Qed.

Lemma in_u32_shiftr x : in_u32 x → in_u32 (Z.shiftr x 1).
Proof.
  rewrite shiftr1_div. unfold in_u32. intros Hx.
  pose proof (Z.div_mod x 2). pose proof (Z.mod_pos_bound x 2). lia.
Qed.

#[export] Hint Resolve u32_range u64_range i64_range in_u32_shiftr : hoshino.

(** ** Slices: lemmas *)

Lemma nth_int_of_nat {A} (l : list A) (i : nat) : nth_int l (Z.of_nat i) = l !! i.
Proof. unfold nth_int. rewrite decide_True by lia. by rewrite Nat2Z.id. Qed.

Lemma nth_int_Some {A} (l : list A) i x :
  nth_int l i = Some x ↔ (0 <= i)%Z ∧ l !! Z.to_nat i = Some x.
Proof. unfold nth_int. case_decide; naive_solver. Qed.

Lemma transp_l i j : transp i j i = j.
Proof. unfold transp. by case_decide. Qed.

Lemma transp_r i j : transp i j j = i.
Proof. unfold transp. case_decide; [done|]. by case_decide. Qed.

Lemma transp_ne i j k : k ≠ i → k ≠ j → transp i j k = k.
Proof. intros. unfold transp. by do 2 (case_decide; [done|]). Qed.

Lemma transp_involutive i j k : transp i j (transp i j k) = k.
Proof. unfold transp. repeat case_decide; congruence. Qed.

Lemma transp_lt i j k n : i < n → j < n → k < n → transp i j k < n.
Proof. unfold transp. repeat case_decide; lia. Qed.

Section list_swap.
Context {A : Type}.
Implicit Types l : list A.

Lemma list_swap_is_Some l i j :
  i < length l → j < length l → is_Some (list_swap i j l).
Proof.
  intros [a Ha]%lookup_lt_is_Some [b Hb]%lookup_lt_is_Some.
  unfold list_swap. rewrite Ha, Hb. simpl. eauto.
Qed.

Lemma list_swap_length l i j l' : list_swap i j l = Some l' → length l' = length l.
Proof. unfold list_swap. intros. inv_run. by rewrite !length_insert. Qed.

Lemma list_swap_lookup l i j l' k :
  list_swap i j l = Some l' → l' !! k = l !! transp i j k.
Proof.
  unfold list_swap. intros. inv_run.
  match goal with Hi : l !! i = Some _, Hj : l !! j = Some _ |- _ =>
    pose proof (lookup_lt_Some _ _ _ Hi); pose proof (lookup_lt_Some _ _ _ Hj) end.
  unfold transp. case_decide; subst.
  - destruct (decide (i = j)); subst.
    + rewrite list_lookup_insert_eq by (rewrite length_insert; lia). congruence.
    + rewrite list_lookup_insert_ne by done. by rewrite list_lookup_insert_eq by lia.
  - case_decide; subst.
    + by rewrite list_lookup_insert_eq by (rewrite length_insert; lia).
    + by rewrite !list_lookup_insert_ne by done.
Qed.

Lemma list_swap_range l i j l' :
  list_swap i j l = Some l' → i < length l ∧ j < length l.
Proof.
  unfold list_swap. intros. inv_run.
  split; eapply lookup_lt_Some; eassumption.
Qed.

Lemma list_swap_perm l i j l' : list_swap i j l = Some l' → l' ≡ₚ l.
Proof.
  unfold list_swap. intros. inv_run.
  destruct (decide (i = j)) as [->|Hne].
  - simplify_eq. rewrite list_insert_insert_eq. by rewrite list_insert_id.
  - by apply Permutation_insert_swap.
Qed.
End list_swap.

Lemma list_swap_fmap {A B} (f : A → B) (l : list A) i j :
  list_swap i j (f <$> l) = (λ k : list A, f <$> k) <$> list_swap i j l.
Proof.
  unfold list_swap. rewrite !list_lookup_fmap.
  destruct (l !! i), (l !! j); simpl; [|done..].
  by rewrite !list_fmap_insert.
Qed.

(** ** The preorder "may stand before" *)

Section not_after.
Context {A : Type} (lt : A → A → bool) `{!StrictWeakOrder lt}.

Lemma not_after_refl a : not_after lt a a.
Proof. apply swo_irrefl. Qed.

Lemma not_after_trans a b c : not_after lt a b → not_after lt b c → not_after lt a c.
Proof.
  unfold not_after. intros Hba Hcb. destruct (lt c a) eqn:Hca; [|done].
  apply (swo_cotrans c b a) in Hca as [|]; congruence.
Qed.

Lemma lt_not_after a b : lt a b = true → not_after lt a b.
Proof.
  unfold not_after. intros Hab. destruct (lt b a) eqn:Hba; [|done].
  pose proof (swo_trans _ _ _ Hab Hba). by rewrite swo_irrefl in *.
Qed.

#[global] Instance not_after_preorder : PreOrder (not_after lt).
Proof. split; [exact not_after_refl | exact not_after_trans]. Qed.
End not_after.

Lemma filter_all {A} (P : A → Prop) `{∀ x, Decision (P x)} l : Forall P l → filter P l = l.
Proof. induction 1; [done|]. rewrite filter_cons_True by done. by f_equal. Qed.

(** ** Sorted lists *)

(** A sorted list whose keys are distinct is sorted by any stricter relation
    that holds between distinct keys. *)
Lemma StronglySorted_distinct {A K} (R S : relation A) (key : A → K) l :
  StronglySorted R l → NoDup (key <$> l) →
  (∀ a b, R a b → key a ≠ key b → S a b) → StronglySorted S l.
Proof.
  intros Hs Hnd HRS. induction Hs as [|a l Hs IH Hall]; constructor.
  - apply IH. by apply NoDup_cons in Hnd as [_ ?].
  - apply NoDup_cons in Hnd as [Ha _]. rewrite Forall_forall in *.
    intros b Hb. apply HRS; [by apply Hall|]. intros Heq. apply Ha. rewrite Heq.
    by apply list_elem_of_fmap_2.
Qed.

(** A ranking by an irreflexive transitive relation is determined by its elements. *)
Lemma StronglySorted_strict_unique {A} (R : relation A) l1 l2 :
  (∀ a b, R a b → ¬ R b a) → StronglySorted R l1 → StronglySorted R l2 → l1 ≡ₚ l2 → l1 = l2.
Proof.
  intros Hasym Hs1 Hs2 Hp. apply (StronglySorted_unique_strong R); try done.
  intros a b _ _ Hab Hba. by destruct (Hasym _ _ Hab).
Qed.

Lemma StronglySorted_sublist {A} (R : relation A) l1 l2 :
  l1 `sublist_of` l2 → StronglySorted R l2 → StronglySorted R l1.
Proof.
  induction 1 as [|a l1 l2 Hl IH|a l1 l2 _ IH]; [done| |].
  - intros [Hs Hall]%StronglySorted_inv. constructor; [by apply IH|].
    rewrite Forall_forall in *. intros b Hb. apply Hall. by eapply elem_of_sublist.
  - intros [Hs _]%StronglySorted_inv. by apply IH.
Qed.

Lemma sublist_fmap {A B} (f : A → B) l1 l2 :
  l1 `sublist_of` l2 → (f <$> l1) `sublist_of` (f <$> l2).
Proof. induction 1; cbn; by constructor. Qed.

(** A sorter that meets the contract: stdpp's merge sort. *)
#[export] Instance not_after_dec {A} (lt : A → A → bool) : RelDecision (not_after lt).
Proof. intros a b. apply bool_eq_dec. Defined.

Definition merge_sorter : Sorter := λ A lt l, merge_sort (not_after lt) l.

#[export] Instance not_after_total {A} (lt : A → A → bool) `{!StrictWeakOrder lt} :
  Total (not_after lt).
Proof.
  intros a b. destruct (lt b a) eqn:Hba; [right; by apply lt_not_after|by left].
Qed.

Lemma merge_sorter_laws : @SorterLaws merge_sorter.
Proof.
  split.
  - intros A lt l. apply merge_sort_Permutation.
  - intros A lt Hlt l. apply (StronglySorted_merge_sort (not_after lt)).
Qed.
