(* ===== verification/ContainerHeap.v ===== *)
(** * The standard library's [container/heap]

    [heap.Init], [Push], [Pop], [Remove] and [Fix] over an arbitrary
    implementation of [heap.Interface], as the library documents and writes them.
    The interface is the class [HeapInterface]; what the library asks of an
    implementation is the class [HeapModel]: the collection stands for a list of
    elements, [Less] compares them by a strict weak order and [Swap], [Push] and
    [Pop] act on that list.  The theorems are proved once, against the class;
    MinHeap.v discharges it for [minheap.Nodes]. *)

From S2P Require Import Prelude.

(** ** The interface and the five entry points *)

Class HeapInterface (H E : Type) := {
  h_len : H → nat;
  h_less : H → nat → nat → option bool;
  h_swap : H → nat → nat → option H;
  h_push : H → E → option H;
  h_pop : H → option (E * H)
}.

Definition parent (c : nat) : nat := Nat.div2 (c - 1).

Section operations.
Context {H E : Type} `{!HeapInterface H E}.

(** [up(h, j)]: one unit of fuel per comparison. *)
Fixpoint up_loop (fuel : nat) (h : H) (j : nat) : option H :=
  match fuel with
  | O => None
  | S fuel =>
    let i := parent j in
    if decide (i = j) then Some h
    else
      less ← h_less h j i;
      if less : bool then h' ← h_swap h i j; up_loop fuel h' i else Some h
  end.
Definition up (h : H) (j : nat) : option H := up_loop (S j) h j.

(** [down(h, i0, n)]: the final position of the loop and the heap. *)
Fixpoint down_loop (fuel : nat) (h : H) (i n : nat) : option (nat * H) :=
  match fuel with
  | O => None
  | S fuel =>
    let j1 := 2 * i + 1 in
    if decide (n <= j1) then Some (i, h)
    else
      let j2 := j1 + 1 in
      right ← (if decide (j2 < n) then h_less h j2 j1 else Some false);
      let j := if right : bool then j2 else j1 in
      less ← h_less h j i;
      if less : bool then h' ← h_swap h i j; down_loop fuel h' j n
      else Some (i, h)
  end.
Definition down (h : H) (i0 n : nat) : option (bool * H) :=
  '(i, h') ← down_loop (S n) h i0 n; Some (bool_decide (i0 < i), h').

(** [for i := n/2 - 1; i >= 0; i-- { down(h, i, n) }] *)
Fixpoint init_loop (k : nat) (h : H) (n : nat) : option H :=
  match k with
  | O => Some h
  | S i => '(_, h') ← down h i n; init_loop i h' n
  end.
Definition heap_Init (h : H) : option H :=
  let n := h_len h in init_loop (Nat.div2 n) h n.

Definition heap_Push (h : H) (x : E) : option H :=
  h1 ← h_push h x; up h1 (h_len h1 - 1).

(** On an empty collection [n] is [-1] and [h.Swap(0, n)] panics. *)
Definition heap_Pop (h : H) : option (E * H) :=
  match h_len h with
  | O => None
  | S n => h1 ← h_swap h 0 n; '(_, h2) ← down h1 0 n; h_pop h2
  end.

Definition heap_Remove (h : H) (i : nat) : option (E * H) :=
  match h_len h with
  | O => None
  | S n =>
    if decide (n = i) then h_pop h
    else
      h1 ← h_swap h i n;
      '(moved, h2) ← down h1 i n;
      h3 ← (if moved : bool then Some h2 else up h2 i);
      h_pop h3
  end.

Definition heap_Fix (h : H) (i : nat) : option H :=
  '(moved, h1) ← down h i (h_len h);
  if moved : bool then Some h1 else up h1 i.
End operations.

(** ** What an implementation promises *)

Class HeapModel (H E A : Type) `{!HeapInterface H E} (lt : A → A → bool) := {
  (** the elements, in slice order *)
  hview : H → list A;
  (** the representation invariant *)
  hok : H → Prop;
  (** [h'] differs from [h] only inside the collection *)
  hframe : H → H → Prop;
  (** element [e] of the collection's type stands for the value [a] in [h] *)
  helem : H → E → A → Prop;
  hframe_refl h : hframe h h;
  hframe_trans h1 h2 h3 : hframe h1 h2 → hframe h2 h3 → hframe h1 h3;
  hlen_view h : hok h → h_len h = length (hview h);
  hless_view h i j a b : hok h → hview h !! i = Some a → hview h !! j = Some b →
    h_less h i j = Some (lt a b);
  hswap_view h i j : hok h → i < length (hview h) → j < length (hview h) →
    ∃ h', h_swap h i j = Some h' ∧ hok h' ∧ hframe h h' ∧
          list_swap i j (hview h) = Some (hview h');
  hpop_view h l a : hok h → hview h = l ++ [a] →
    ∃ e h', h_pop h = Some (e, h') ∧ hok h' ∧ hframe h h' ∧
            hview h' = l ∧ helem h' e a
}.

(** ** Heap order on a list

    [edge lt l c]: position [c] does not sort before its parent.
    [heap_from lt k n l]: every edge below position [n] whose upper end is at or
    below [k]; at [k = 0], the heap order of the first [n] positions. *)
Section order.
Context {A : Type} (lt : A → A → bool).
Implicit Types l : list A.

Definition edge2 l (p c : nat) : Prop :=
  ∀ a b, l !! p = Some a → l !! c = Some b → not_after lt a b.
Definition edge l (c : nat) : Prop := edge2 l (parent c) c.
Definition heap_from (k n : nat) l : Prop :=
  ∀ c, 0 < c < n → k <= parent c → edge l c.
Definition heap_order l : Prop := heap_from 0 (length l) l.

(** Every edge but those at [i], and the children of [i] against its parent. *)
Definition heap_but (k n i : nat) l : Prop :=
  (∀ c, 0 < c < n → k <= parent c → parent c ≠ i → c ≠ i → edge l c) ∧
  (0 < i → k <= parent i → ∀ c, 0 < c < n → parent c = i → edge2 l (parent i) c).
End order.

Lemma parent_lt c : 0 < c → parent c < c.
Proof.
  unfold parent. intros. rewrite Nat.div2_div.
  pose proof (Nat.div_mod_eq (c - 1) 2). lia.
Qed.

Lemma parent_children c i : 0 < c → parent c = i ↔ c = 2 * i + 1 ∨ c = 2 * i + 2.
Proof.
  intros. unfold parent. rewrite Nat.div2_div.
  pose proof (Nat.div_mod_eq (c - 1) 2). pose proof (Nat.mod_upper_bound (c - 1) 2).
  lia.
Qed.

Lemma parent_left i : parent (2 * i + 1) = i.
Proof. apply parent_children; lia. Qed.
Lemma parent_right i : parent (2 * i + 2) = i.
Proof. apply parent_children; lia. Qed.
Lemma parent_0 : parent 0 = 0.
Proof. done. Qed.

(** ** Edges under an exchange *)

Section edges.
Context {A : Type} (lt : A → A → bool) `{!StrictWeakOrder lt}.
Implicit Types l : list A.

Lemma edge2_swap l l' i j p c :
  list_swap i j l = Some l' →
  edge2 lt l' p c ↔ edge2 lt l (transp i j p) (transp i j c).
Proof. intros Hs. unfold edge2. by rewrite !(list_swap_lookup _ _ _ _ _ Hs). Qed.

Lemma edge2_refl l p : edge2 lt l p p.
Proof. intros a b ??. simplify_eq. by apply not_after_refl. Qed.

Lemma edge2_trans l p m c :
  m < length l → edge2 lt l p m → edge2 lt l m c → edge2 lt l p c.
Proof.
  intros [x Hx]%lookup_lt_is_Some Hpm Hmc a b Ha Hb.
  eapply not_after_trans; eauto.
Qed.

Lemma edge2_lt l i j a b :
  l !! i = Some a → l !! j = Some b → lt a b = true → edge2 lt l i j.
Proof. intros ?????. simplify_eq. intros. simplify_eq. by apply lt_not_after. Qed.

Lemma edge2_not_lt l i j a b :
  l !! i = Some a → l !! j = Some b → lt b a = false → edge2 lt l i j.
Proof. intros ?????. simplify_eq. intros. by simplify_eq. Qed.

(** Rewrite the positions of an edge through an exchange of [i] and [j]. *)
Ltac transp_at i j :=
  repeat first [rewrite (transp_l i j) | rewrite (transp_r i j)
               | rewrite (transp_ne i j) by (congruence || lia)].

(** One step of [down]: the smaller child [j] of [i] goes up. *)
Lemma sift_down_step l l' i j k n :
  list_swap i j l = Some l' → n <= length l → 0 < j < n → parent j = i →
  heap_but lt k n i l → edge2 lt l j i →
  (∀ c, 0 < c < n → parent c = i → edge2 lt l j c) →
  heap_but lt k n j l' ∧ edge lt l' j.
Proof.
  intros Hs Hn Hj Hp [Hedge Hskip] Hji Hmin.
  pose proof (parent_lt j). split; [split|].
  - intros c Hc Hk Hcj Hcj'. unfold edge. rewrite (edge2_swap _ _ _ _ _ _ Hs).
    destruct (decide (c = i)) as [->|Hci].
    { pose proof (parent_lt i). transp_at i j. apply Hskip; lia. }
    destruct (decide (parent c = i)) as [Hpc|Hpc].
    + rewrite Hpc. transp_at i j. by apply Hmin.
    + transp_at i j. by apply Hedge.
  - intros _ Hk c Hc Hpc. rewrite (edge2_swap _ _ _ _ _ _ Hs).
    pose proof (parent_lt c). rewrite Hp. transp_at i j.
    rewrite <-Hpc at 1. apply Hedge; lia.
  - unfold edge. rewrite (edge2_swap _ _ _ _ _ _ Hs), Hp. by transp_at i j.
Qed.

(** What holds while [up] is at [j]: every edge but the one above [j]. *)
Definition up_inv (n j : nat) l : Prop :=
  (∀ c, 0 < c < n → c ≠ j → edge lt l c) ∧
  (0 < j → ∀ c, 0 < c < n → parent c = j → edge2 lt l (parent j) c).

Lemma sift_up_step l l' i j n :
  list_swap i j l = Some l' → n <= length l → 0 < j < n → parent j = i →
  up_inv n j l → edge2 lt l j i → up_inv n i l'.
Proof.
  intros Hs Hn Hj Hp [Hedge Hskip] Hji.
  pose proof (parent_lt j). split.
  - intros c Hc Hci. unfold edge. rewrite (edge2_swap _ _ _ _ _ _ Hs).
    destruct (decide (c = j)) as [->|Hcj].
    { rewrite Hp. by transp_at i j. }
    destruct (decide (parent c = i)) as [Hpc|Hpc].
    { rewrite Hpc. transp_at i j. apply (edge2_trans _ _ i); [lia|done|].
      rewrite <-Hpc at 1. by apply Hedge. }
    destruct (decide (parent c = j)) as [Hpj|Hpj].
    + rewrite Hpj. transp_at i j. rewrite <-Hp. apply Hskip; lia.
    + transp_at i j. by apply Hedge.
  - intros Hi c Hc Hpc. rewrite (edge2_swap _ _ _ _ _ _ Hs).
    pose proof (parent_lt i). rewrite (transp_ne i j (parent i)) by lia.
    destruct (decide (c = j)) as [->|Hcj].
    + rewrite transp_r. apply Hedge; lia.
    + pose proof (parent_lt c). rewrite (transp_ne i j c) by lia.
      apply (edge2_trans _ _ i); [lia| |].
      * apply Hedge; lia.
      * rewrite <-Hpc. apply Hedge; lia.
Qed.

Lemma heap_from_weaken k k' n l : k <= k' → heap_from lt k n l → heap_from lt k' n l.
Proof. unfold heap_from. intros Hk Hh c ??. apply Hh; lia. Qed.

Lemma heap_from_shorter k n n' l : n' <= n → heap_from lt k n l → heap_from lt k n' l.
Proof. unfold heap_from. intros Hk Hh c ??. apply Hh; lia. Qed.

Lemma heap_from_prefix k n l l' :
  (∀ c, c < n → l' !! c = l !! c) → heap_from lt k n l → heap_from lt k n l'.
Proof.
  intros Heq Hh c Hc Hk a b. pose proof (parent_lt c).
  rewrite !Heq by lia. by apply Hh.
Qed.

(** The root of a heap is minimal. *)
Lemma heap_from_root n l c :
  heap_from lt 0 n l → n <= length l → c < n → edge2 lt l 0 c.
Proof.
  intros Hh Hn. induction (lt_wf c) as [c _ IH]. intros Hc.
  destruct (decide (c = 0)) as [->|Hc0]; [apply edge2_refl|].
  pose proof (parent_lt c). apply (edge2_trans _ _ (parent c)); [lia| |].
  - apply IH; lia.
  - apply Hh; lia.
Qed.

Lemma heap_order_nil : heap_order lt [].
Proof. intros c. simpl. lia. Qed.

(** The elements may be replaced by others that compare the same way. *)
Lemma heap_but_update k n i l x :
  heap_from lt k n l → n <= length l → heap_but lt k n i (<[i:=x]> l).
Proof.
  intros Hh Hn. split.
  - intros c Hc Hk Hp Hci a b. rewrite !list_lookup_insert_ne by congruence.
    by apply Hh.
  - intros Hi Hk c Hc Hp a b. pose proof (parent_lt i). pose proof (parent_lt c).
    rewrite !list_lookup_insert_ne by lia. intros Ha Hb.
    eapply (edge2_trans l (parent i) i c); eauto; [lia| |].
    + apply Hh; lia.
    + rewrite <-Hp. apply Hh; lia.
Qed.
End edges.

(** ** The loops terminate without panicking and restore the order *)

Section laws.
Context {H E A : Type} `{!HeapInterface H E} (lt : A → A → bool).
Context `{!HeapModel H E A lt} `{!StrictWeakOrder lt}.
Implicit Types h : H.

(** [h'] is [h] rearranged: same elements, nothing else touched. *)
Definition rearranged h h' : Prop :=
  hok h' ∧ hframe h h' ∧ hview h' ≡ₚ hview h.

Lemma rearranged_refl h : hok h → rearranged h h.
Proof. repeat split; [done|apply hframe_refl|done]. Qed.

Lemma rearranged_trans h1 h2 h3 :
  rearranged h1 h2 → rearranged h2 h3 → rearranged h1 h3.
Proof.
  intros (?&?&Hp1) (?&?&Hp2). repeat split; [done|by eapply hframe_trans|].
  by rewrite Hp2, Hp1.
Qed.

Lemma rearranged_length h h' : rearranged h h' → length (hview h') = length (hview h).
Proof. intros (_&_&Hp). by apply Permutation_length. Qed.

Lemma h_less_run h i j : hok h → i < length (hview h) → j < length (hview h) →
  ∃ a b, hview h !! i = Some a ∧ hview h !! j = Some b ∧ h_less h i j = Some (lt a b).
Proof.
  intros Hok [a Ha]%lookup_lt_is_Some [b Hb]%lookup_lt_is_Some.
  exists a, b. split_and!; [done..|]. by eapply hless_view.
Qed.

Lemma h_swap_run h i j : hok h → i < length (hview h) → j < length (hview h) →
  ∃ h', h_swap h i j = Some h' ∧ rearranged h h' ∧
        list_swap i j (hview h) = Some (hview h').
Proof.
  intros Hok Hi Hj. destruct (hswap_view h i j Hok Hi Hj) as (h'&?&?&?&Hs).
  exists h'. repeat split; try done. by eapply list_swap_perm.
Qed.

(** The child that [down] compares with its parent. *)
Lemma down_choice h i n : hok h → n <= length (hview h) → 2 * i + 1 < n →
  ∃ right, (if decide (2 * i + 1 + 1 < n) then h_less h (2 * i + 1 + 1) (2 * i + 1)
            else Some false) = Some right ∧
    let j := if right : bool then 2 * i + 1 + 1 else 2 * i + 1 in
    0 < j < n ∧ parent j = i ∧
    ∀ c, 0 < c < n → parent c = i → edge2 lt (hview h) j c.
Proof.
  intros Hok Hn Hi. case_decide.
  - destruct (h_less_run h (2 * i + 1 + 1) (2 * i + 1)) as (a&b&Ha&Hb&->); [done|lia..|].
    exists (lt a b). split; [done|]. cbv zeta.
    destruct (lt a b) eqn:Hlt; (split; [lia|]; split; [apply parent_children; lia|]);
      intros c Hc Hp; apply parent_children in Hp as [->| ->]; try lia.
    + by eapply edge2_lt.
    + replace (2 * i + 2) with (2 * i + 1 + 1) by lia. apply edge2_refl, _.
    + apply edge2_refl, _.
    + replace (2 * i + 2) with (2 * i + 1 + 1) by lia. by eapply edge2_not_lt.
  - exists false. split; [done|]. cbv zeta.
    split; [lia|]. split; [apply parent_children; lia|].
    intros c Hc Hp. apply parent_children in Hp as [->| ->]; try lia.
    apply edge2_refl, _.
Qed.


Lemma down_loop_spec fuel h i n k :
  hok h → n <= length (hview h) → 0 < fuel → n <= fuel + i →
  heap_but lt k n i (hview h) →
  ∃ i' h', down_loop fuel h i n = Some (i', h') ∧ rearranged h h' ∧ i <= i' ∧
    (i' = i → h' = h) ∧ (∀ c, n <= c → hview h' !! c = hview h !! c) ∧
    ∀ c, 0 < c < n → k <= parent c → c ≠ i ∨ i < i' → edge lt (hview h') c.
Proof.
  revert h i. induction fuel as [|fuel IH]; intros h i Hok Hn Hf0 Hf Hbut; [lia|].
  cbn [down_loop]. cbv zeta. case_decide as Hstop.
  { exists i, h. repeat split; auto using rearranged_refl.
    1: apply hframe_refl. intros c Hc Hk [Hci|]; [|lia].
    apply Hbut; try lia. intros Hp%parent_children; lia. }
  destruct (down_choice h i n) as (right&->&Hj&Hp&Hmin); [done|lia..|].
  cbn [mbind option_bind].
  set (j := if right then _ else _) in *. clearbody j.
  pose proof (parent_lt j).
  destruct (h_less_run h j i) as (a&b&Ha&Hb&->); [done|lia..|].
  cbn [mbind option_bind]. destruct (lt a b) eqn:Hlt; last first.
  { exists i, h. repeat split; auto using rearranged_refl.
    1: apply hframe_refl. intros c Hc Hk [Hci|]; [|lia].
    destruct (decide (parent c = i)) as [Hpc|]; [|by apply Hbut].
    unfold edge. rewrite Hpc. apply (edge2_trans _ _ _ j); [lia| |by apply Hmin].
    by eapply edge2_not_lt. }
  destruct (h_swap_run h i j) as (h1&->&Hre&Hs); [done|lia..|].
  cbn [mbind option_bind].
  destruct (sift_down_step lt (hview h) (hview h1) i j k n) as [Hbut1 Hedge1];
    try done. { by eapply edge2_lt. }
  pose proof (rearranged_length _ _ Hre).
  destruct (IH h1 j) as (i'&h'&->&Hre'&Hle&Hstay&Hbeyond&Hedges); try lia; [apply Hre|done|].
  exists i', h'. split; [done|]. split; [by eapply rearranged_trans|].
  split; [lia|]. split; [lia|]. split.
  - intros c Hc. rewrite Hbeyond by done.
    rewrite (list_swap_lookup _ _ _ _ _ Hs). by rewrite transp_ne by lia.
  - intros c Hc Hk _. destruct (decide (c = j)) as [->|Hcj]; [|apply Hedges; auto].
    destruct (decide (j < i')); [apply Hedges; auto|].
    rewrite Hstay by lia. done.
Qed.

Lemma up_loop_spec fuel h j n :
  hok h → n <= length (hview h) → j < n → j < fuel → up_inv lt n j (hview h) →
  ∃ h', up_loop fuel h j = Some h' ∧ rearranged h h' ∧
    (∀ c, n <= c → hview h' !! c = hview h !! c) ∧ heap_from lt 0 n (hview h').
Proof.
  revert h j. induction fuel as [|fuel IH]; intros h j Hok Hn Hj Hf Hinv; [lia|].
  cbn [up_loop]. cbv zeta. destruct (decide (parent j = j)) as [Hroot|Hroot].
  { exists h. repeat split; auto using rearranged_refl; [apply hframe_refl|].
    intros c Hc _. pose proof (parent_lt j). apply Hinv; lia. }
  assert (0 < j) as Hj0 by (destruct j; [by rewrite parent_0 in Hroot|lia]).
  pose proof (parent_lt j Hj0).
  destruct (h_less_run h j (parent j)) as (a&b&Ha&Hb&->); [done|lia..|].
  cbn [mbind option_bind]. destruct (lt a b) eqn:Hlt; last first.
  { exists h. repeat split; auto using rearranged_refl; [apply hframe_refl|].
    intros c Hc _. destruct (decide (c = j)) as [->|]; [|by apply Hinv].
    by eapply edge2_not_lt. }
  destruct (h_swap_run h (parent j) j) as (h1&->&Hre&Hs); [done|lia..|].
  cbn [mbind option_bind]. pose proof (rearranged_length _ _ Hre).
  destruct (IH h1 (parent j)) as (h'&->&Hre'&Hbeyond&Hh); try lia; [apply Hre| |].
  { eapply sift_up_step; try done. by eapply edge2_lt. }
  exists h'. split; [done|]. split; [by eapply rearranged_trans|]. split; [|done].
  intros c Hc. rewrite Hbeyond by done.
  rewrite (list_swap_lookup _ _ _ _ _ Hs). by rewrite transp_ne by lia.
Qed.

Lemma down_spec h i n k :
  hok h → n <= length (hview h) → heap_but lt k n i (hview h) →
  ∃ moved h', down h i n = Some (moved, h') ∧ rearranged h h' ∧
    (moved = false → h' = h) ∧ (∀ c, n <= c → hview h' !! c = hview h !! c) ∧
    ∀ c, 0 < c < n → k <= parent c → c ≠ i ∨ moved = true → edge lt (hview h') c.
Proof.
  intros Hok Hn Hbut. unfold down.
  destruct (down_loop_spec (S n) h i n k) as (i'&h'&->&Hre&Hle&Hstay&Hbeyond&Hedges);
    try done; [lia..|].
  exists (bool_decide (i < i')), h'. simpl. repeat (split; [done|]). split.
  { intros ?%bool_decide_eq_false_1. apply Hstay. lia. }
  split; [done|]. intros c Hc Hk [?|?%bool_decide_eq_true_1]; apply Hedges; auto.
Qed.

(** [down] followed by [up] when [down] did not move: the repair that
    [Fix] and [Remove] perform at a position [i] whose element changed. *)
Lemma sift_spec h i n :
  hok h → n <= length (hview h) → i < n → heap_but lt 0 n i (hview h) →
  ∃ moved h1 h2, down h i n = Some (moved, h1) ∧
    (if moved then Some h1 else up h1 i) = Some h2 ∧ rearranged h h2 ∧
    (∀ c, n <= c → hview h2 !! c = hview h !! c) ∧ heap_from lt 0 n (hview h2).
Proof.
  intros Hok Hn Hi Hbut.
  destruct (down_spec h i n 0) as (moved&h1&->&Hre&Hstay&Hbeyond&Hedges); try done.
  destruct moved.
  { exists true, h1, h1. do 4 (split; [done|]). intros c ??. apply Hedges; auto. }
  rewrite Hstay in * by done.
  destruct (up_loop_spec (S i) h i n) as (h2&Hup&Hre2&Hbeyond2&Hh); try done; [lia| |].
  { split; [intros c ??; apply Hedges; auto; lia|].
    intros ? c Hc Hp. apply Hbut; lia. }
  by exists false, h, h2.
Qed.

Theorem heap_Fix_spec h i :
  hok h → i < length (hview h) → heap_but lt 0 (length (hview h)) i (hview h) →
  ∃ h', heap_Fix h i = Some h' ∧ rearranged h h' ∧ heap_order lt (hview h').
Proof.
  intros Hok Hi Hbut. unfold heap_Fix. rewrite hlen_view by done.
  destruct (sift_spec h i (length (hview h))) as (moved&h1&h2&->&Hrun&Hre&_&Hh); try done.
  exists h2. split; [done|]. split; [done|]. unfold heap_order.
  by rewrite (rearranged_length _ _ Hre).
Qed.

Lemma init_loop_spec k h n :
  hok h → n = length (hview h) → heap_from lt k n (hview h) →
  ∃ h', init_loop k h n = Some h' ∧ rearranged h h' ∧ heap_order lt (hview h').
Proof.
  revert h. induction k as [|k IH]; intros h Hok -> Hh.
  { by exists h; auto using rearranged_refl. }
  cbn [init_loop].
  destruct (down_spec h k (length (hview h)) k) as (moved&h1&->&Hre&_&_&Hedges); try done.
  { pose proof (parent_lt k). split; [|lia]. intros c Hc Hk Hp _. apply Hh; lia. }
  pose proof (rearranged_length _ _ Hre) as Hlen.
  destruct (IH h1) as (h'&Hrun&Hre'&Hord); [apply Hre|done| |].
  { intros c Hc Hk. apply Hedges; [lia..|]. left. intros ->.
    pose proof (parent_lt k). lia. }
  exists h'. split; [done|]. split; [by eapply rearranged_trans|done].
Qed.

Theorem heap_Init_spec h :
  hok h → ∃ h', heap_Init h = Some h' ∧ rearranged h h' ∧ heap_order lt (hview h').
Proof.
  intros Hok. unfold heap_Init. rewrite hlen_view by done.
  apply init_loop_spec; [done..|]. intros c Hc Hk. exfalso.
  rewrite Nat.div2_div in Hk. unfold parent in Hk. rewrite Nat.div2_div in Hk.
  pose proof (Nat.div_mod_eq (length (hview h)) 2).
  pose proof (Nat.mod_upper_bound (length (hview h)) 2).
  pose proof (Nat.div_mod_eq (c - 1) 2). lia.
Qed.

(** [Push] needs only that the implementation's own [Push] appended [a]. *)
Theorem heap_Push_spec h x h1 a :
  h_push h x = Some h1 → hok h1 → hview h1 = hview h ++ [a] → heap_order lt (hview h) →
  ∃ h', heap_Push h x = Some h' ∧ rearranged h1 h' ∧ heap_order lt (hview h').
Proof.
  intros Hpush Hok Hview Hh. unfold heap_Push. rewrite Hpush. cbn [mbind option_bind].
  rewrite hlen_view by done.
  assert (length (hview h1) = S (length (hview h))) as Hlen
    by (rewrite Hview, length_app; simpl; lia).
  destruct (up_loop_spec (S (length (hview h1) - 1)) h1 (length (hview h1) - 1)
    (length (hview h1))) as (h'&Hup&Hre&_&Hh'); try done; try lia.
  { split.
    - intros c Hc Hcn a' b'. pose proof (parent_lt c). rewrite Hview.
      rewrite !lookup_app_l by lia. apply Hh; lia.
    - intros _ c Hc Hp. pose proof (parent_lt c). lia. }
  exists h'. split; [done|]. split; [done|]. unfold heap_order.
  by rewrite (rearranged_length _ _ Hre).
Qed.

(** After the exchange with the last position and the repair, the removed
    element [a] is last and the first [n] positions are a heap. *)
Lemma pop_last h n a :
  hok h → length (hview h) = S n → hview h !! n = Some a → heap_from lt 0 n (hview h) →
  ∃ e h', h_pop h = Some (e, h') ∧ hok h' ∧ hframe h h' ∧ helem h' e a ∧
    a :: hview h' ≡ₚ hview h ∧ heap_order lt (hview h').
Proof.
  intros Hok Hlen Ha Hh.
  assert (hview h = take n (hview h) ++ [a]) as Hview.
  { rewrite <-(take_drop n (hview h)) at 1. f_equal.
    rewrite (drop_S _ a) by done. by rewrite drop_ge by lia. }
  destruct (hpop_view h _ _ Hok Hview) as (e&h'&Hpop&Hok'&Hfr&Hview'&He).
  exists e, h'. do 4 (split; [done|]). split.
  { rewrite Hview, Hview'. by rewrite Permutation_app_comm. }
  unfold heap_order. rewrite Hview', length_take_le by lia.
  eapply heap_from_prefix; [|done]. intros c ?. by rewrite lookup_take_lt.
Qed.

Theorem heap_Pop_spec h :
  hok h → heap_order lt (hview h) → hview h ≠ [] →
  ∃ e a h', heap_Pop h = Some (e, h') ∧ hok h' ∧ hframe h h' ∧ helem h' e a ∧
    hview h !! 0 = Some a ∧ a :: hview h' ≡ₚ hview h ∧ heap_order lt (hview h').
Proof.
  intros Hok Hh Hne. unfold heap_Pop. rewrite hlen_view by done.
  destruct (length (hview h)) as [|n] eqn:Hlen; [by apply nil_length_inv in Hlen|].
  destruct (lookup_lt_is_Some_2 (hview h) 0) as [a Ha]; [lia|].
  destruct (h_swap_run h 0 n) as (h1&->&Hre1&Hs); [done|lia..|]. cbn [mbind option_bind].
  pose proof (rearranged_length _ _ Hre1).
  destruct (down_spec h1 0 n 0) as (moved&h2&->&Hre2&_&Hbeyond&Hedges); [apply Hre1|lia| |].
  { split; [|lia]. intros c Hc _ Hp _. pose proof (parent_lt c). unfold edge.
    rewrite (edge2_swap lt _ _ _ _ _ _ Hs), !transp_ne by lia.
    apply Hh; lia. }
  cbn [mbind option_bind]. pose proof (rearranged_length _ _ Hre2).
  destruct (rearranged_trans _ _ _ Hre1 Hre2) as (_&Hfr&Hperm).
  destruct (pop_last h2 n a) as (e&h'&->&Hok'&Hfr'&He&Hperm'&Hord); [apply Hre2|lia|..].
  { rewrite Hbeyond by lia. rewrite (list_swap_lookup _ _ _ _ _ Hs).
    by rewrite transp_r. }
  { intros c Hc _. apply Hedges; lia. }
  exists e, a, h'. do 2 (split; [done|]). split; [by eapply hframe_trans|].
  do 2 (split; [done|]). split; [|done]. by rewrite Hperm'.
Qed.

Theorem heap_Remove_spec h i a :
  hok h → heap_order lt (hview h) → hview h !! i = Some a →
  ∃ e h', heap_Remove h i = Some (e, h') ∧ hok h' ∧ hframe h h' ∧ helem h' e a ∧
    a :: hview h' ≡ₚ hview h ∧ heap_order lt (hview h').
Proof.
  intros Hok Hh Ha. pose proof (lookup_lt_Some _ _ _ Ha) as Hi.
  unfold heap_Remove. rewrite hlen_view by done.
  destruct (length (hview h)) as [|n] eqn:Hlen; [lia|].
  case_decide as Hlast.
  { subst n. apply pop_last with (n := i); try done.
    eapply heap_from_shorter; [|exact Hh]. lia. }
  destruct (h_swap_run h i n) as (h1&->&Hre1&Hs); [done|lia..|]. cbn [mbind option_bind].
  pose proof (rearranged_length _ _ Hre1).
  destruct (sift_spec h1 i n) as (moved&h2&h3&->&Hrun&Hre2&Hbeyond&Hh3); [apply Hre1|lia..| |].
  { split.
    - intros c Hc _ Hp Hci. pose proof (parent_lt c). unfold edge.
      rewrite (edge2_swap lt _ _ _ _ _ _ Hs), !transp_ne by lia. apply Hh; lia.
    - intros Hi0 _ c Hc Hp. pose proof (parent_lt c). pose proof (parent_lt i).
      rewrite (edge2_swap lt _ _ _ _ _ _ Hs), !transp_ne by lia.
      apply (edge2_trans lt _ _ i); [lia| |].
      + apply Hh; lia.
      + rewrite <-Hp. apply Hh; lia. }
  cbn [mbind option_bind]. rewrite Hrun. cbn [mbind option_bind].
  pose proof (rearranged_length _ _ Hre2).
  destruct (rearranged_trans _ _ _ Hre1 Hre2) as (_&Hfr&Hperm).
  destruct (pop_last h3 n a) as (e&h'&->&Hok'&Hfr'&He&Hperm'&Hord); [apply Hre2|lia|..|done|].
  { rewrite Hbeyond by lia. rewrite (list_swap_lookup _ _ _ _ _ Hs).
    by rewrite transp_r. }
  exists e, h'. do 2 (split; [done|]). split; [by eapply hframe_trans|].
  split; [done|]. split; [|done]. by rewrite Hperm'.
Qed.
End laws.
