(* ===== verification/MinHeapSpec.v ===== *)
(** * What package [minheap] promises to package [heavykeeper]

    The keyed min-heap as its client sees it: a finite map from keys to counts
    with a capacity, of which the least entry is the one to expel.  [KeyedHeap]
    lists the operations the client calls, [KeyedHeapLaws] what they do to the
    map.  MinHeap.v gives the instance for [minheap.Heap]; HeavyKeeper.v is
    proved against the class. *)

From S2P Require Import Prelude.
Local Open Scope Z_scope.

(** ** The rank of an entry

    [Nodes.Less]: by count, ties broken by the {e larger} key, so that the entry
    expelled among equals is the last one in key order. *)
Definition item_lt (p q : string * Z) : bool :=
  (p.2 <? q.2) || ((p.2 =? q.2) && String.ltb q.1 p.1).

(** [k], with count [c], is the entry of [m] that ranks below every other. *)
Definition least (m : gmap string Z) (k : string) (c : Z) : Prop :=
  m !! k = Some c ∧
  ∀ k' c', m !! k' = Some c' → k' ≠ k → item_lt (k, c) (k', c') = true.

(** What [Upsert(k, c)] does to a map of capacity [cap]: the key of the node it
    returns, if any, and the new map. *)
Inductive upsert_spec (cap : Z) (m : gmap string Z) (k : string) (c : Z) :
    option string → gmap string Z → Prop :=
| upsert_update c0 : m !! k = Some c0 → upsert_spec cap m k c None (<[k:=c]> m)
| upsert_no_room : m !! k = None → cap = 0 → upsert_spec cap m k c (Some k) m
| upsert_insert : m !! k = None → Z.of_nat (size m) < cap →
    upsert_spec cap m k c None (<[k:=c]> m)
| upsert_replace k0 c0 : m !! k = None → 0 < cap → Z.of_nat (size m) = cap →
    least m k0 c0 → c0 < c → upsert_spec cap m k c (Some k0) (<[k:=c]> (delete k0 m))
| upsert_reject k0 c0 : m !! k = None → 0 < cap → Z.of_nat (size m) = cap →
    least m k0 c0 → c <= c0 → upsert_spec cap m k c None m.

(** [ScaleDown]: every count halved, the entries that reach zero dropped. *)
Definition halve (c : Z) : option Z :=
  let c' := Z.shiftr c 1 in if c' =? 0 then None else Some c'.

Class KeyedHeap (T N : Type) := {
  kh_new : Z → T;
  kh_len : T → Z;
  kh_min : T → option Z;
  kh_find : T → string → option (Z * bool);
  kh_fix : T → Z → Z → option T;
  kh_upsert : T → string → Z → option (option N * T);
  kh_node_key : T → N → option string;
  kh_contains : T → string → bool;
  kh_remove : T → string → option (bool * T);
  kh_scale_down : T → option T;
  kh_sorted : T → option (list (string * Z))
}.

Class KeyedHeapLaws (T N : Type) `{!KeyedHeap T N} := {
  kh_inv : T → Prop;
  kh_contents : T → gmap string Z;
  kh_cap : T → Z;
  kh_new_spec k : in_u32 k →
    kh_inv (kh_new k) ∧ kh_contents (kh_new k) = ∅ ∧ kh_cap (kh_new k) = k;
  kh_inv_cap t : kh_inv t → in_u32 (kh_cap t);
  kh_inv_size t : kh_inv t → Z.of_nat (size (kh_contents t)) <= kh_cap t;
  kh_inv_count t k c : kh_inv t → kh_contents t !! k = Some c → in_u32 c;
  kh_len_spec t : kh_inv t → kh_len t = Z.of_nat (size (kh_contents t));
  (** the least count, zero when there is none *)
  kh_min_spec t : kh_inv t → ∃ c, kh_min t = Some c ∧
    ((kh_contents t = ∅ ∧ c = 0) ∨ ∃ k, least (kh_contents t) k c);
  kh_find_spec t k : kh_inv t → ∃ i, kh_find t k = Some (i, bool_decide (is_Some (kh_contents t !! k)));
  (** [Fix] at the position [Find] returns sets the count of that key *)
  kh_fix_spec t k i c : kh_inv t → in_u32 c → kh_find t k = Some (i, true) →
    ∃ t', kh_fix t i c = Some t' ∧ kh_inv t' ∧ kh_cap t' = kh_cap t ∧
          kh_contents t' = <[k:=c]> (kh_contents t);
  kh_upsert_spec t k c : kh_inv t → in_u32 c →
    ∃ r t' rk, kh_upsert t k c = Some (r, t') ∧ kh_inv t' ∧ kh_cap t' = kh_cap t ∧
      kh_node_key t' <$> r = Some <$> rk ∧
      upsert_spec (kh_cap t) (kh_contents t) k c rk (kh_contents t');
  kh_contains_spec t k : kh_inv t →
    kh_contains t k = bool_decide (is_Some (kh_contents t !! k));
  kh_remove_spec t k : kh_inv t →
    ∃ t', kh_remove t k = Some (bool_decide (is_Some (kh_contents t !! k)), t') ∧
      kh_inv t' ∧ kh_cap t' = kh_cap t ∧ kh_contents t' = delete k (kh_contents t);
  kh_scale_down_spec t : kh_inv t →
    ∃ t', kh_scale_down t = Some t' ∧ kh_inv t' ∧ kh_cap t' = kh_cap t ∧
          kh_contents t' = omap halve (kh_contents t);
  (** descending by rank, each entry once *)
  kh_sorted_spec t : kh_inv t →
    ∃ l, kh_sorted t = Some l ∧ l ≡ₚ map_to_list (kh_contents t) ∧
         StronglySorted (λ p q, item_lt q p = true) l
}.

(** ** The rank is a strict total order on distinct keys *)

Lemma string_ltb_leb a b : String.ltb a b = negb (String.leb b a).
Proof.
  unfold String.ltb, String.leb. rewrite (String.compare_antisym b a).
  by destruct (String.compare a b).
Qed.

Lemma string_ltb_iff a b : String.ltb a b = true ↔ ¬ String.le b a.
Proof.
  unfold String.le. rewrite string_ltb_leb, negb_true_iff.
  by destruct (String.leb b a); naive_solver.
Qed.

Lemma string_ltb_irrefl a : String.ltb a a = false.
Proof. rewrite string_ltb_leb. apply negb_false_iff, Is_true_true. apply (reflexivity (R:=String.le)). Qed.

Lemma string_ltb_trans a b c :
  String.ltb a b = true → String.ltb b c = true → String.ltb a c = true.
Proof.
  rewrite !string_ltb_iff. intros Hab Hbc Hca.
  destruct (total String.le a b) as [H|H]; [|done].
  apply Hbc. by transitivity a.
Qed.

Lemma string_ltb_total a b : a ≠ b → String.ltb a b = true ∨ String.ltb b a = true.
Proof.
  intros Hne. rewrite !string_ltb_iff.
  destruct (decide (String.le b a)) as [Hba|]; [|by left].
  right. intros Hab. by apply Hne, (anti_symm String.le).
Qed.

Lemma item_lt_iff p q :
  item_lt p q = true ↔ p.2 < q.2 ∨ (p.2 = q.2 ∧ String.ltb q.1 p.1 = true).
Proof. unfold item_lt. rewrite orb_true_iff, andb_true_iff, Z.ltb_lt, Z.eqb_eq. done. Qed.

#[export] Instance item_lt_order : StrictWeakOrder item_lt.
Proof.
  split.
  - intros [k c]. apply not_true_iff_false. rewrite item_lt_iff. simpl.
    rewrite string_ltb_irrefl. naive_solver lia.
  - intros [k1 c1] [k2 c2] [k3 c3]. rewrite !item_lt_iff. simpl.
    intros [?|[-> ?]] [?|[-> ?]]; [left; lia..|]. right. eauto using string_ltb_trans.
  - intros [k1 c1] [k2 c2] [k3 c3]. rewrite !item_lt_iff. simpl.
    destruct (Z.lt_trichotomy c1 c2) as [?|[->|?]]; [naive_solver| |].
    + intros [?|[-> Hlt]]; [naive_solver|].
      destruct (decide (k1 = k2)) as [->|Hne]; [naive_solver|].
      destruct (string_ltb_total k1 k2 Hne) as [H|H]; [|naive_solver].
      right. right. eauto using string_ltb_trans.
    + right. left. destruct H0 as [|[]]; lia.
Qed.

Lemma item_lt_total p q : p.1 ≠ q.1 → item_lt p q = true ∨ item_lt q p = true.
Proof.
  intros Hne. rewrite !item_lt_iff.
  destruct (Z.lt_trichotomy p.2 q.2) as [?|[->|?]]; [auto| |auto].
  destruct (string_ltb_total p.1 q.1 Hne); auto.
Qed.

Lemma item_lt_le p q : item_lt p q = true → p.2 <= q.2.
Proof. rewrite item_lt_iff. lia. Qed.

(** The least entry has the least count. *)
Lemma least_le m k0 c0 k c : least m k0 c0 → m !! k = Some c → c0 <= c.
Proof.
  intros [Hk0 Hleast] Hk. destruct (decide (k = k0)) as [->|Hne]; [simplify_eq; lia|].
  exact (item_lt_le _ _ (Hleast k c Hk Hne)).
Qed.

(** The least entry is unique. *)
Lemma least_unique m k c k' c' : least m k c → least m k' c' → k = k' ∧ c = c'.
Proof.
  intros [Hk Hmin] [Hk' Hmin']. destruct (decide (k = k')) as [->|Hne].
  { split; congruence. }
  pose proof (Hmin _ _ Hk' (not_eq_sym Hne)) as H1.
  pose proof (Hmin' _ _ Hk Hne) as H2.
  pose proof (swo_trans _ _ _ H1 H2) as H3. by rewrite swo_irrefl in H3.
Qed.

Lemma halve_Some c c' : halve c = Some c' ↔ c' = c / 2 ∧ c / 2 ≠ 0.
Proof. unfold halve. rewrite shiftr1_div. case Z.eqb_spec; naive_solver. Qed.
