(* ===== verification/MinHeap.v ===== *)
(** * Package [minheap]: the keyed min-heap of the hot set

    [Heap] holds a slice of {e pointers} to nodes and a map from keys to the same
    pointers; [Fix] writes through one of them and [Find] reads the position back
    through the other.  The model therefore keeps the node store [mem] explicit:
    [Nodes] and [byKey] hold locations, and the aliasing between the two is the
    invariant [wf].  The client's view is the map [contents]; the last part is
    the instance of [KeyedHeapLaws] that HeavyKeeper.v is proved against. *)

From S2P Require Import Prelude ContainerHeap MinHeapSpec.
Local Open Scope Z_scope.

(** ** Data *)

Record Node := mkNode { Key : string; Count : Z; index : Z }.

#[export] Instance Node_inhabited : Inhabited Node := populate (mkNode EmptyString 0 0).

Definition with_count (c : Z) (n : Node) : Node := mkNode (Key n) c (index n).
Definition with_index (i : Z) (n : Node) : Node := mkNode (Key n) (Count n) i.

(** Addresses of nodes, and the memory they live in. *)
Abbreviation loc := positive.
Abbreviation memory := (gmap loc Node).

(** [*p] read, and a field of [*p] written; a nil or dangling pointer panics. *)
Definition load (m : memory) (p : loc) : option Node := m !! p.
Definition store (m : memory) (p : loc) (f : Node → Node) : option memory :=
  n ← m !! p; Some (<[p:=f n]> m).
(** [&Node{...}] *)
Definition alloc (m : memory) (n : Node) : loc * memory :=
  let p := fresh (dom m) in (p, <[p:=n]> m).

(** ** [Nodes]: the implementation of [heap.Interface] *)

Definition node_less (x y : Node) : bool :=
  (Count x <? Count y) || ((Count x =? Count y) && String.ltb (Key y) (Key x)).

(** The receiver [*Nodes], with the memory its elements point into. *)
Definition nodes_state : Type := memory * list loc.

Definition Nodes_Len (s : nodes_state) : nat := length s.2.

Definition Less (s : nodes_state) (i j : nat) : option bool :=
  p ← s.2 !! i; q ← s.2 !! j;
  x ← load s.1 p; y ← load s.1 q;
  Some (node_less x y).

Definition Swap (s : nodes_state) (i j : nat) : option nodes_state :=
  ns ← list_swap i j s.2;
  p ← ns !! i; m1 ← store s.1 p (with_index (Z.of_nat i));
  q ← ns !! j; m2 ← store m1 q (with_index (Z.of_nat j));
  Some (m2, ns).

Definition Nodes_Push (s : nodes_state) (val : loc) : option nodes_state :=
  m ← store s.1 val (with_index (Z.of_nat (length s.2)));
  Some (m, s.2 ++ [val]).

Definition Nodes_Pop (s : nodes_state) : option (loc * nodes_state) :=
  match length s.2 with
  | O => None
  | S last =>
    val ← s.2 !! last;
    m ← store s.1 val (with_index (-1));
    Some (val, (m, take last s.2))
  end.

#[export] Instance Nodes_Interface : HeapInterface nodes_state loc := {
  h_len := Nodes_Len; h_less := Less; h_swap := Swap;
  h_push := Nodes_Push; h_pop := Nodes_Pop
}.

(** ** [Heap] *)

Record Heap := mkHeap {
  mem : memory;
  Nodes : list loc;
  K : Z;
  byKey : gmap string loc
}.

(** The receiver of the [heap] calls, [&h.Nodes], and the heap after one. *)
Definition nodes_of (h : Heap) : nodes_state := (mem h, Nodes h).
Definition set_nodes (h : Heap) (s : nodes_state) : Heap :=
  mkHeap s.1 s.2 (K h) (byKey h).
Definition set_mem (h : Heap) (m : memory) : Heap := mkHeap m (Nodes h) (K h) (byKey h).
Definition set_byKey (h : Heap) (b : gmap string loc) : Heap :=
  mkHeap (mem h) (Nodes h) (K h) b.

Definition NewHeap (k : Z) : Heap := mkHeap ∅ [] k ∅.

Definition Fix (h : Heap) (idx : Z) (count : Z) : option Heap :=
  p ← nth_int (Nodes h) idx;
  m ← store (mem h) p (with_count count);
  s ← heap_Fix (m, Nodes h) (Z.to_nat idx);
  Some (set_nodes h s).

(** [if candidate == nil { candidate = &Node{Key: key, Count: count} }] *)
Definition ensure_candidate (h : Heap) (key : string) (count : Z) (candidate : option loc) :
    loc * Heap :=
  match candidate with
  | Some p => (p, h)
  | None => let '(p, m) := alloc (mem h) (mkNode key count 0) in (p, set_mem h m)
  end.

(** [heap.Push(&h.Nodes, candidate); h.byKey[key] = candidate] *)
Definition push_candidate (h : Heap) (key : string) (p : loc) : option Heap :=
  s ← heap_Push (nodes_of h) p;
  Some (set_byKey (set_nodes h s) (<[key:=p]> (byKey h))).

(** [Pop]: also the first half of the replacement in [upsert]. *)
Definition Pop (h : Heap) : option (loc * Heap) :=
  '(expelled, s) ← heap_Pop (nodes_of h);
  node ← load s.1 expelled;
  Some (expelled, set_byKey (set_nodes h s) (delete (Key node) (byKey h))).

Definition upsert (h : Heap) (key : string) (count : Z) (candidate : option loc) :
    option (option loc * Heap) :=
  match byKey h !! key with
  | Some existing =>
    node ← load (mem h) existing;
    h' ← Fix h (index node) count;
    Some (None, h')
  | None =>
    if K h =? 0 then
      let '(p, h1) := ensure_candidate h key count candidate in Some (Some p, h1)
    else if u32 (Z.of_nat (length (Nodes h))) <? K h then
      let '(p, h1) := ensure_candidate h key count candidate in
      h2 ← push_candidate h1 key p;
      Some (None, h2)
    else
      root ← Nodes h !! 0%nat;
      node ← load (mem h) root;
      if Count node <? count then
        '(expelled, h1) ← Pop h;
        let '(p, h2) := ensure_candidate h1 key count candidate in
        h3 ← push_candidate h2 key p;
        Some (Some expelled, h3)
      else Some (None, h)
  end.

Definition Add (h : Heap) (val : loc) : option (option loc * Heap) :=
  node ← load (mem h) val; upsert h (Key node) (Count node) (Some val).

Definition Upsert (h : Heap) (key : string) (count : Z) : option (option loc * Heap) :=
  upsert h key count None.

Definition Min (h : Heap) : option Z :=
  match Nodes h with
  | [] => Some 0
  | root :: _ => node ← load (mem h) root; Some (Count node)
  end.

Definition Len (h : Heap) : Z := Z.of_nat (length (Nodes h)).

Definition Contains (h : Heap) (key : string) : bool := bool_decide (is_Some (byKey h !! key)).

Definition Remove (h : Heap) (key : string) : option (bool * Heap) :=
  match byKey h !! key with
  | None => Some (false, h)
  | Some p =>
    node ← load (mem h) p;
    (* heap.Remove at a negative position panics in Swap *)
    if index node <? 0 then None
    else
      '(_, s) ← heap_Remove (nodes_of h) (Z.to_nat (index node));
      Some (true, set_byKey (set_nodes h s) (delete key (byKey h)))
  end.

(** [node.Count >>= 1], for every node of the slice *)
Definition halve_count (n : Node) : Node := with_count (Z.shiftr (Count n) 1) n.
Fixpoint scale_loop (ns : list loc) (m : memory) : option memory :=
  match ns with
  | [] => Some m
  | p :: ns => m' ← store m p halve_count; scale_loop ns m'
  end.

(** [for len(h.Nodes) > 0 && h.Nodes[0].Count == 0 { h.Pop() }] *)
Fixpoint drop_zeros (fuel : nat) (h : Heap) : option Heap :=
  match fuel with
  | O => None
  | S fuel =>
    match Nodes h with
    | [] => Some h
    | root :: _ =>
      node ← load (mem h) root;
      if Count node =? 0 then '(_, h') ← Pop h; drop_zeros fuel h' else Some h
    end
  end.

Definition ScaleDown (h : Heap) : option Heap :=
  m ← scale_loop (Nodes h) (mem h);
  s ← heap_Init (m, Nodes h);
  drop_zeros (S (length (Nodes h))) (set_nodes h s).

Definition Find (h : Heap) (key : string) : option (Z * bool) :=
  match byKey h !! key with
  | None => Some (0, false)
  | Some p => node ← load (mem h) p; Some (index node, true)
  end.

(** The copies carry their position as index before and after the sort, whose
    [Swap] keeps it so; [sort.Reverse] exchanges the arguments of [Less]. *)
Definition Sorted `{Sorter} (h : Heap) : option (list Node) :=
  nodes ← mapM (load (mem h)) (Nodes h);
  Some (imap (λ i n, with_index (Z.of_nat i) n) (go_sort (λ x y, node_less y x) nodes)).

(** ** The client's view *)

(** The map from keys to counts that the heap stands for. *)
Definition contents (h : Heap) : gmap string Z :=
  omap (λ p, Count <$> mem h !! p) (byKey h).

(** An element of the slice: its address, key and count. *)
Definition payload (n : Node) : string * Z := (Key n, Count n).
Definition elem : Type := loc * (string * Z).
Definition elem_lt (a b : elem) : bool := item_lt a.2 b.2.
Definition view (s : nodes_state) : list elem := (λ p, (p, payload (s.1 !!! p))) <$> s.2.

(** Every slice element points to a node that knows its position. *)
Definition indexed (s : nodes_state) : Prop :=
  ∀ i p, s.2 !! i = Some p → ∃ n, s.1 !! p = Some n ∧ index n = Z.of_nat i.

(** [s'] moved some elements of [s] and dropped others: nothing outside the slice
    is written, and no key or count anywhere. *)
Definition same_nodes (s s' : nodes_state) : Prop :=
  s'.2 ⊆ s.2 ∧
  (∀ p, p ∉ s.2 → s'.1 !! p = s.1 !! p) ∧
  (∀ p, payload <$> s'.1 !! p = payload <$> s.1 !! p).

(** [e] was popped: it is outside the slice, with index -1. *)
Definition popped (s : nodes_state) (e : loc) (a : elem) : Prop :=
  ∃ n, s.1 !! e = Some n ∧ index n = -1 ∧ a = (e, payload n).

(** The representation invariant of [Heap]: [byKey] holds exactly the slice's
    pointers under their keys, and the slice is in heap order. *)
Record linked (h : Heap) : Prop := {
  wf_indexed : indexed (nodes_of h);
  wf_byKey k p : byKey h !! k = Some p ↔
    p ∈ Nodes h ∧ ∃ n, mem h !! p = Some n ∧ Key n = k;
  wf_len : Z.of_nat (length (Nodes h)) <= K h;
  wf_K : in_u32 (K h);
  wf_counts p n : p ∈ Nodes h → mem h !! p = Some n → in_u32 (Count n)
}.
Record wf (h : Heap) : Prop := {
  wf_linked : linked h;
  wf_order : heap_order elem_lt (view (nodes_of h))
}.

(** ** Memory *)

Lemma store_Some m p f m' :
  store m p f = Some m' ↔ ∃ n, m !! p = Some n ∧ m' = <[p:=f n]> m.
Proof. unfold store. destruct (m !! p); naive_solver. Qed.

Lemma store_run m p n f : m !! p = Some n → store m p f = Some (<[p:=f n]> m).
Proof. intros H. unfold store. by rewrite H. Qed.

Lemma payload_with_index i n : payload (with_index i n) = payload n.
Proof. done. Qed.

Lemma store_index_payload m p i m' q :
  store m p (with_index i) = Some m' → payload <$> m' !! q = payload <$> m !! q.
Proof.
  intros (n&Hn&->)%store_Some.
  destruct (decide (p = q)) as [<-|]; [|by rewrite lookup_insert_ne].
  by rewrite lookup_insert_eq, Hn.
Qed.

Lemma payload_total (m m' : memory) p :
  payload <$> m' !! p = payload <$> m !! p → payload (m' !!! p) = payload (m !!! p).
Proof.
  rewrite !lookup_total_alt.
  destruct (m !! p), (m' !! p); simpl; congruence.
Qed.

Lemma indexed_inj s i j p :
  indexed s → s.2 !! i = Some p → s.2 !! j = Some p → i = j.
Proof.
  intros Hix (n&Hn&Hi)%Hix (n'&Hn'&Hj)%Hix. simplify_eq. lia.
Qed.

Lemma indexed_NoDup s : indexed s → NoDup s.2.
Proof. intros Hix. apply NoDup_alt. intros i j p. by apply indexed_inj. Qed.

Lemma indexed_elem s p : indexed s → p ∈ s.2 → is_Some (s.1 !! p).
Proof. intros Hix [i Hi]%list_elem_of_lookup. destruct (Hix _ _ Hi) as (n&?&_). eauto. Qed.

Lemma view_length s : length (view s) = length s.2.
Proof. apply length_fmap. Qed.

Lemma view_fst s : fst <$> view s = s.2.
Proof. unfold view. rewrite <-list_fmap_compose. by rewrite list_fmap_id. Qed.

Lemma view_lookup s i a :
  indexed s → view s !! i = Some a ↔
  ∃ p n, s.2 !! i = Some p ∧ s.1 !! p = Some n ∧ a = (p, payload n).
Proof.
  intros Hix. unfold view. rewrite list_lookup_fmap_Some. split.
  - intros (p&->&Hp). destruct (Hix _ _ Hp) as (n&Hn&_).
    exists p, n. by rewrite (lookup_total_correct _ _ _ Hn).
  - intros (p&n&Hp&Hn&->). exists p. by rewrite (lookup_total_correct _ _ _ Hn).
Qed.

Lemma view_elem s a :
  indexed s → a ∈ view s ↔ ∃ p n, p ∈ s.2 ∧ s.1 !! p = Some n ∧ a = (p, payload n).
Proof.
  intros Hix. rewrite list_elem_of_lookup. setoid_rewrite view_lookup; [|done].
  setoid_rewrite list_elem_of_lookup. naive_solver.
Qed.

Lemma view_payload (m m' : memory) (ns : list loc) :
  (∀ p, payload <$> m' !! p = payload <$> m !! p) → view (m', ns) = view (m, ns).
Proof.
  intros Hpay. unfold view. apply list_fmap_ext. intros i p _. simpl.
  by rewrite (payload_total m m').
Qed.

Lemma node_less_item x y : node_less x y = item_lt (payload x) (payload y).
Proof. done. Qed.

#[export] Instance elem_lt_order : StrictWeakOrder elem_lt.
Proof.
  split; intros; unfold elem_lt in *; [apply swo_irrefl|by eapply swo_trans|by apply swo_cotrans].
Qed.

(** ** [Nodes] implements [heap.Interface] *)

Lemma Less_view s i j a b :
  indexed s → view s !! i = Some a → view s !! j = Some b → Less s i j = Some (elem_lt a b).
Proof.
  intros Hix (p&n&Hp&Hn&->)%view_lookup (q&n'&Hq&Hn'&->)%view_lookup; try done.
  unfold Less, load. rewrite Hp, Hq. simpl. rewrite Hn, Hn'. done.
Qed.

(** The two writes of an exchange *)
Lemma swap_stores (m : memory) p q i j np nq : m !! p = Some np → m !! q = Some nq →
  ∃ m1 m2, store m p (with_index i) = Some m1 ∧ store m1 q (with_index j) = Some m2 ∧
    (∀ k, payload <$> m2 !! k = payload <$> m !! k) ∧
    (∀ k, k ≠ p → k ≠ q → m2 !! k = m !! k) ∧
    (p ≠ q → index <$> m2 !! p = Some i) ∧ index <$> m2 !! q = Some j.
Proof.
  intros Hnp Hnq. set (m1 := <[p:=with_index i np]> m).
  assert (∃ nq', m1 !! q = Some nq') as [nq' Hq'].
  { unfold m1. destruct (decide (q = p)) as [->|Hne]; [rewrite lookup_insert_eq|
      rewrite lookup_insert_ne by done]; eauto. }
  assert (store m p (with_index i) = Some m1) as H1 by by apply store_run.
  pose proof (store_run m1 q nq' (with_index j) Hq') as H2.
  exists m1, (<[q:=with_index j nq']> m1). split; [done|]. split; [done|]. split; [|split; [|split]].
  - intros k. rewrite (store_index_payload _ _ _ _ k H2). by apply (store_index_payload _ _ _ _ k H1).
  - intros k ??. unfold m1. by rewrite !lookup_insert_ne.
  - intros Hne. unfold m1. by rewrite lookup_insert_ne, lookup_insert_eq.
  - by rewrite lookup_insert_eq.
Qed.

Lemma Swap_view s i j :
  indexed s → (i < length (view s))%nat → (j < length (view s))%nat →
  ∃ s', Swap s i j = Some s' ∧ indexed s' ∧ same_nodes s s' ∧
        list_swap i j (view s) = Some (view s').
Proof.
  destruct s as [m ns]. rewrite view_length. simpl. intros Hix Hi Hj.
  destruct (list_swap_is_Some ns i j Hi Hj) as [ns' Hs].
  pose proof (list_swap_lookup _ _ _ _ i Hs) as Hp. rewrite transp_l in Hp.
  pose proof (list_swap_lookup _ _ _ _ j Hs) as Hq. rewrite transp_r in Hq.
  destruct (lookup_lt_is_Some_2 ns j Hj) as [p Hpj]. rewrite Hpj in Hp.
  destruct (lookup_lt_is_Some_2 ns i Hi) as [q Hqi]. rewrite Hqi in Hq.
  destruct (Hix _ _ Hpj) as (np&Hnp&Hip). destruct (Hix _ _ Hqi) as (nq&Hnq&Hiq). simpl in *.
  destruct (swap_stores m p q (Z.of_nat i) (Z.of_nat j) np nq Hnp Hnq)
    as (m1&m2&H1&H2&Hpay&Hother&Hmp&Hmq).
  exists (m2, ns'). split; [|split; [|split]].
  - unfold Swap. simpl. rewrite Hs. simpl. rewrite Hp. simpl. rewrite H1. simpl.
    rewrite Hq. simpl. by rewrite H2.
  - intros k r Hr. simpl in *.
    assert (∃ n, m2 !! r = Some n) as [n Hn].
    { rewrite (list_swap_lookup _ _ _ _ _ Hs) in Hr. destruct (Hix _ _ Hr) as (n&Hn&_).
      specialize (Hpay r). simpl in Hn. rewrite Hn in Hpay.
      destruct (m2 !! r); naive_solver. }
    exists n. split; [done|].
    destruct (decide (k = j)) as [->|Hkj].
    { simplify_eq. rewrite Hn in Hmq. by simplify_eq/=. }
    destruct (decide (k = i)) as [->|Hki].
    { assert (p ≠ q) as Hpq.
      { intros ->. by apply Hkj, (indexed_inj (m, ns) i j q Hix). }
      specialize (Hmp Hpq). simplify_eq. rewrite Hn in Hmp. by simplify_eq/=. }
    rewrite (list_swap_lookup _ _ _ _ _ Hs), transp_ne in Hr by done.
    destruct (Hix _ _ Hr) as (n'&Hn'&<-). simpl in Hn'.
    rewrite Hother in Hn; [by simplify_eq|..]; intros ->.
    + apply Hkj, (indexed_inj (m, ns) k j p Hix); done.
    + apply Hki, (indexed_inj (m, ns) k i q Hix); done.
  - split; [|split]; simpl; [|intros k Hk; apply Hother|done].
    + apply list_swap_perm in Hs. intros k. by rewrite Hs.
    + intros ->. apply Hk, list_elem_of_lookup; eauto.
    + intros ->. apply Hk, list_elem_of_lookup; eauto.
  - rewrite (view_payload m m2) by done. unfold view. simpl.
    rewrite list_swap_fmap, Hs. done.
Qed.

Lemma Pop_view s l a :
  indexed s → view s = l ++ [a] →
  ∃ e s', Nodes_Pop s = Some (e, s') ∧ indexed s' ∧ same_nodes s s' ∧
          view s' = l ∧ popped s' e a.
Proof.
  destruct s as [m ns]. intros Hix Hview.
  assert (length ns = S (length l)) as Hlen.
  { pose proof (view_length (m, ns)) as Hl. rewrite Hview, length_app in Hl. simpl in *. lia. }
  assert (view (m, ns) !! length l = Some a) as Ha.
  { rewrite Hview, lookup_app_r, Nat.sub_diag by done. done. }
  apply view_lookup in Ha as (e&n&He&Hn&->); [|done]. simpl in *.
  pose proof (store_run m e n (with_index (-1)) Hn) as Hst.
  eexists e, (_, take (length l) ns). split; [|split; [|split; [|split]]].
  - unfold Nodes_Pop. simpl. rewrite Hlen, He. simpl. rewrite Hst. done.
  - intros k r [Hr Hk]%lookup_take_Some. simpl in *.
    destruct (Hix _ _ Hr) as (n'&Hn'&Hi). simpl in *. exists n'. split; [|done].
    rewrite lookup_insert_ne; [done|]. intros ->.
    pose proof (indexed_inj (m, ns) _ _ _ Hix He Hr). lia.
  - split; [|split]; simpl.
    + intros k (?&?&?)%elem_of_take. by eapply list_elem_of_lookup_2.
    + intros k Hk. rewrite lookup_insert_ne; [done|]. intros ->.
      apply Hk. by eapply list_elem_of_lookup_2.
    + intros k. by eapply store_index_payload.
  - rewrite (view_payload m) by (intros; by eapply store_index_payload).
    unfold view in *. simpl in *. rewrite fmap_take, Hview.
    by rewrite take_app_length.
  - exists (with_index (-1) n). simpl. by rewrite lookup_insert_eq.
Qed.

Lemma same_nodes_trans s1 s2 s3 : same_nodes s1 s2 → same_nodes s2 s3 → same_nodes s1 s3.
Proof.
  intros (Hsub&Hout&Hpay) (Hsub'&Hout'&Hpay'). split; [|split].
  - by transitivity s2.2.
  - intros p Hp. rewrite Hout'; [by apply Hout|]. intros ?. by apply Hp, Hsub.
  - intros p. by rewrite Hpay'.
Qed.

Lemma same_nodes_refl s : same_nodes s s.
Proof. by split. Qed.

Lemma Len_view s : indexed s → Nodes_Len s = length (view s).
Proof. by rewrite view_length. Qed.

#[export] Instance Nodes_Model : HeapModel nodes_state loc elem elem_lt := {
  hview := view; hok := indexed; hframe := same_nodes; helem := popped;
  hframe_refl := same_nodes_refl; hframe_trans := same_nodes_trans;
  hlen_view := Len_view; hless_view := Less_view;
  hswap_view := Swap_view; hpop_view := Pop_view
}.

(** ** The client's view of a linked heap *)

Lemma contents_Some h k c : linked h →
  contents h !! k = Some c ↔ ∃ p, (p, (k, c)) ∈ view (nodes_of h).
Proof.
  intros Hl. setoid_rewrite view_elem; [|apply Hl]. unfold contents. rewrite lookup_omap_Some.
  split.
  - intros (p&Hc&Hp). apply (wf_byKey _ Hl) in Hp as (Hin&n&Hn&<-).
    rewrite Hn in Hc. simplify_eq/=. by exists p, p, n.
  - intros (p&p'&n&Hin&Hn&[= <- -> ->]). exists p. simpl in *. split; [by rewrite Hn|].
    apply (wf_byKey _ Hl). eauto.
Qed.

Lemma contents_node h p n : linked h → p ∈ Nodes h → mem h !! p = Some n →
  contents h !! Key n = Some (Count n).
Proof. intros Hl Hp Hn. apply contents_Some; [done|]. exists p. apply view_elem; [apply Hl|]. eauto. Qed.

Lemma byKey_contents h k : linked h → is_Some (byKey h !! k) ↔ is_Some (contents h !! k).
Proof.
  intros Hl. unfold contents. rewrite lookup_omap. split.
  - intros [p Hp]. rewrite Hp. simpl. apply (wf_byKey _ Hl) in Hp as (_&n&->&_). eauto.
  - destruct (byKey h !! k); [eauto|]. by intros [? [=]].
Qed.

Lemma view_keys_inj h a b : linked h →
  a ∈ view (nodes_of h) → b ∈ view (nodes_of h) → a.2.1 = b.2.1 → a = b.
Proof.
  intros Hl (p&n&Hp&Hn&->)%view_elem (q&n'&Hq&Hn'&->)%view_elem Hk; try apply Hl.
  simpl in *. assert (byKey h !! Key n = Some p) as H1 by (apply (wf_byKey _ Hl); eauto).
  assert (byKey h !! Key n' = Some q) as H2 by (apply (wf_byKey _ Hl); eauto).
  rewrite Hk in H1. by simplify_eq.
Qed.

Lemma view_NoDup h : linked h → NoDup (snd <$> view (nodes_of h)).
Proof.
  intros Hl. apply NoDup_fmap_2_strong.
  - intros a b Ha Hb Heq. eapply view_keys_inj; try done. congruence.
  - apply (NoDup_fmap_1 fst). rewrite view_fst. apply indexed_NoDup, Hl.
Qed.

Lemma contents_list h : linked h → map_to_list (contents h) ≡ₚ snd <$> view (nodes_of h).
Proof.
  intros Hl. apply NoDup_Permutation; [apply NoDup_map_to_list|by apply view_NoDup|].
  intros [k c]. rewrite elem_of_map_to_list, (contents_Some _ _ _ Hl), list_elem_of_fmap.
  split; [intros [p Hp]; by exists (p, (k, c))|].
  intros ([p kc]&Heq&Hp). simpl in *. subst. eauto.
Qed.

Lemma contents_size h : linked h → size (contents h) = length (Nodes h).
Proof.
  intros Hl. rewrite <-length_map_to_list, (contents_list h Hl), length_fmap.
  apply view_length.
Qed.

(** The root is the least entry. *)
Lemma root_least h p n : wf h → Nodes h !! 0%nat = Some p → mem h !! p = Some n →
  least (contents h) (Key n) (Count n).
Proof.
  intros [Hl Hord] Hp Hn. pose proof (list_elem_of_lookup_2 _ _ _ Hp) as Hin.
  split; [by eapply contents_node|].
  intros k c Hc Hne. apply contents_Some in Hc as [q Hq]; [|done].
  apply list_elem_of_lookup in Hq as [i Hi].
  assert (view (nodes_of h) !! 0%nat = Some (p, payload n)) as H0
    by (apply view_lookup; [apply Hl|eauto]).
  pose proof (heap_from_root elem_lt _ _ i Hord (le_n _)) as Hroot.
  specialize (Hroot (lookup_lt_Some _ _ _ Hi) _ _ H0 Hi).
  unfold not_after, elem_lt in Hroot. simpl in Hroot.
  destruct (item_lt_total (k, c) (payload n)) as [|H]; [done|congruence|done].
Qed.

(** ** Rearranging and removing keep the heap linked *)

Lemma rearranged_elem s s' p : rearranged elem_lt s s' → p ∈ s'.2 ↔ p ∈ s.2.
Proof.
  intros (_&_&Hperm). apply (fmap_Permutation fst) in Hperm. simpl in Hperm.
  rewrite !view_fst in Hperm. by rewrite Hperm.
Qed.

Lemma payload_lookup (m m' : memory) p n :
  payload <$> m' !! p = payload <$> m !! p → m' !! p = Some n →
  ∃ n0, m !! p = Some n0 ∧ Key n0 = Key n ∧ Count n0 = Count n.
Proof. intros Hpay Hn. rewrite Hn in Hpay. destruct (m !! p); [injection Hpay; eauto|done]. Qed.

Lemma count_payload (m m' : memory) p :
  payload <$> m' !! p = payload <$> m !! p → Count <$> m' !! p = Count <$> m !! p.
Proof. destruct (m' !! p), (m !! p); intros [=]; simpl; congruence. Qed.

Lemma contents_ext h m' ns : (∀ p, payload <$> m' !! p = payload <$> mem h !! p) →
  contents (mkHeap m' ns (K h) (byKey h)) = contents h.
Proof.
  intros Hpay. apply map_eq. intros k. unfold contents. rewrite !lookup_omap. simpl.
  destruct (byKey h !! k) as [p|]; [|done]. simpl. by apply count_payload.
Qed.

Lemma linked_rearranged h s' : linked h → rearranged elem_lt (nodes_of h) s' →
  linked (set_nodes h s') ∧ contents (set_nodes h s') = contents h.
Proof.
  intros Hl Hre. pose proof Hre as (Hix&(_&_&Hpay)&_).
  pose proof (rearranged_length _ _ _ Hre) as Hlen. simpl in Hlen.
  rewrite !view_length in Hlen. simpl in Hlen.
  split; [|by apply contents_ext]. split; simpl.
  - by destruct s'.
  - intros k p. rewrite (wf_byKey _ Hl), (rearranged_elem _ _ _ Hre). simpl.
    apply and_iff_compat_l. specialize (Hpay p). simpl in Hpay.
    split; intros (n&Hn&<-); [symmetry in Hpay|].
    all: eapply payload_lookup in Hn as (n0&?&?&?); [|done]; eauto.
  - rewrite Hlen. apply Hl.
  - apply Hl.
  - intros p n Hp Hn. apply (rearranged_elem _ _ _ Hre) in Hp.
    eapply payload_lookup in Hn as (n0&Hn0&_&<-); [|apply Hpay].
    by eapply (wf_counts _ Hl).
Qed.

(** [e], with entry [(k, c)], has left the slice for good. *)
Lemma linked_removed h s' e k c : linked h → indexed s' → same_nodes (nodes_of h) s' →
  (e, (k, c)) :: view s' ≡ₚ view (nodes_of h) →
  let h' := set_byKey (set_nodes h s') (delete k (byKey h)) in
  linked h' ∧ contents h' = delete k (contents h) ∧ contents h !! k = Some c.
Proof.
  intros Hl Hix (Hsub&_&Hpay) Hperm h'.
  assert (∀ a, a ∈ view (nodes_of h) ↔ a = (e, (k, c)) ∨ a ∈ view s') as Hview.
  { intros a. rewrite <-Hperm. by rewrite elem_of_cons. }
  assert (∀ p n, p ∈ Nodes h → mem h !! p = Some n → Key n = k → p = e) as Hek.
  { intros p n Hp Hn Hk.
    assert ((p, payload n) = (e, (k, c))) as [=]; [|done].
    apply (view_keys_inj h); [done|apply view_elem; [apply Hl|eauto]|apply Hview; auto|done]. }
  assert (∀ p, p ∈ s'.2 ↔ p ∈ Nodes h ∧ p ≠ e) as Helem.
  { pose proof (fmap_Permutation fst _ _ Hperm) as Hp1. simpl in Hp1.
    rewrite !view_fst in Hp1. simpl in Hp1.
    assert (NoDup (e :: s'.2)) as [Hne _]%NoDup_cons.
    { rewrite Hp1. apply (indexed_NoDup (nodes_of h)), Hl. }
    intros p. rewrite <-Hp1, elem_of_cons. naive_solver. }
  assert (linked h') as Hl'.
  { split; simpl.
    - by destruct s'.
    - intros k' p. rewrite lookup_delete_Some, (wf_byKey _ Hl), Helem.
      specialize (Hpay p). simpl in Hpay. split.
      + intros (Hne&Hp&n&Hn&<-). split; [split; [done|intros ->]|].
        * assert ((e, payload n) = (e, (k, c))) as [=]; [|done].
          assert ((e, payload n) ∈ view (nodes_of h)) as Hv by (apply view_elem; [apply Hl|eauto]).
          apply Hview in Hv as [|Hv]; [done|].
          apply view_elem in Hv as (p&?&Hp'&_&[= <- _]); [|done].
          by apply Helem in Hp' as [].
        * symmetry in Hpay. eapply payload_lookup in Hn as (n0&?&?&?); [|done]. eauto.
      + intros ([Hp Hpe]&n&Hn&<-). eapply payload_lookup in Hn as (n0&Hn0&Hk0&?); [|done].
        split; [|eauto]. intros ->. by eapply Hpe, Hek.
    - pose proof (Permutation_length Hperm) as Hlen. simpl in Hlen.
      rewrite !view_length in Hlen. simpl in Hlen. pose proof (wf_len _ Hl). lia.
    - apply Hl.
    - intros p n [Hp _]%Helem Hn. eapply payload_lookup in Hn as (n0&Hn0&_&<-); [|apply Hpay].
      by eapply (wf_counts _ Hl). }
  split; [done|]. split.
  - apply map_eq. intros k'. apply option_eq. intros c'.
    rewrite lookup_delete_Some, !contents_Some by done. unfold nodes_of, h' at 1. simpl.
    rewrite <-surjective_pairing. setoid_rewrite Hview. split.
    + intros [p Hp]. split; [|eauto]. intros <-.
      assert ((p, (k, c')) = (e, (k, c))) as [= -> _].
      { eapply (view_keys_inj h); [done| | |done]; apply Hview; auto. }
      apply view_elem in Hp as (p&?&Hp'&_&[= <- _]); [|done]. by apply Helem in Hp' as [].
    + intros (Hne&p&[[=]|Hp]); [congruence|eauto].
  - apply contents_Some; [done|]. exists e. apply Hview. auto.
Qed.

(** ** [Fix] *)

(** Writing counts only keeps the links. *)
Lemma linked_set_counts h m' : linked h →
  (∀ q, index <$> m' !! q = index <$> mem h !! q ∧ Key <$> m' !! q = Key <$> mem h !! q) →
  (∀ p n, p ∈ Nodes h → m' !! p = Some n → in_u32 (Count n)) →
  linked (set_mem h m').
Proof.
  intros Hl Hsame Hcounts. split; [| |apply Hl|apply Hl|exact Hcounts].
  - intros i q Hq. destruct (wf_indexed _ Hl i q Hq) as (nq&Hnq&Hi). simpl in *.
    destruct (Hsame q) as [Hix _]. rewrite Hnq in Hix.
    apply fmap_Some in Hix as (n'&Hn'&?). exists n'. split; [done|congruence].
  - intros k q. change (byKey (set_mem h m')) with (byKey h). rewrite (wf_byKey _ Hl).
    apply and_iff_compat_l. simpl. destruct (Hsame q) as [_ Hk].
    split; intros (n'&Hn'&<-); [|symmetry in Hk];
      (rewrite Hn' in Hk); apply fmap_Some in Hk as (n''&?&?); eauto.
Qed.

Lemma linked_with_count h p n c : linked h → p ∈ Nodes h → mem h !! p = Some n → in_u32 c →
  let h' := set_mem h (<[p:=with_count c n]> (mem h)) in
  linked h' ∧ contents h' = <[Key n:=c]> (contents h).
Proof.
  intros Hl Hp Hn Hc h'.
  assert (byKey h !! Key n = Some p) as Hkp by (apply (wf_byKey _ Hl); eauto).
  split.
  - apply linked_set_counts; [done| |].
    + intros q. destruct (decide (p = q)) as [<-|];
        [by rewrite lookup_insert_eq, Hn|by rewrite lookup_insert_ne].
    + intros q n' Hq. destruct (decide (p = q)) as [<-|].
      * rewrite lookup_insert_eq. by intros [= <-].
      * rewrite lookup_insert_ne by done. by apply (wf_counts _ Hl).
  - apply map_eq. intros k. unfold contents. rewrite lookup_omap. simpl.
    destruct (decide (k = Key n)) as [->|Hne].
    + by rewrite Hkp, lookup_insert_eq; simpl; rewrite lookup_insert_eq.
    + rewrite lookup_insert_ne by done. rewrite lookup_omap.
      destruct (byKey h !! k) as [q|] eqn:Hq; [|done]. simpl.
      rewrite lookup_insert_ne; [done|]. intros <-.
      apply (wf_byKey _ Hl) in Hq as (_&n'&?&<-). by simplify_eq.
Qed.

Lemma Fix_run h p n c : wf h → p ∈ Nodes h → mem h !! p = Some n → in_u32 c →
  ∃ h', Fix h (index n) c = Some h' ∧ wf h' ∧ K h' = K h ∧
        contents h' = <[Key n:=c]> (contents h).
Proof.
  intros [Hl Hord] Hp Hn Hc.
  apply list_elem_of_lookup in Hp as [i Hi].
  destruct (wf_indexed _ Hl i p Hi) as (n'&Hn'&Hidx). simpl in Hn'.
  assert (n' = n) as -> by congruence.
  destruct (linked_with_count h p n c) as [Hl' Hcont]; [done|by eapply list_elem_of_lookup_2|done..|].
  set (h1 := set_mem _ _) in *.
  assert (view (nodes_of h1) = <[i:=(p, (Key n, c))]> (view (nodes_of h))) as Hview.
  { apply list_eq. intros j. apply option_eq. intros a.
    assert (∀ j q, Nodes h !! j = Some q → j ≠ i → q ≠ p) as Hne.
    { intros j' q Hq Hji ->. by apply Hji, (indexed_inj (nodes_of h) j' i p), Hi; [apply Hl|]. }
    destruct (decide (i = j)) as [<-|Hij].
    - rewrite list_lookup_insert_eq by (rewrite view_length; by eapply lookup_lt_Some).
      rewrite view_lookup by apply Hl'. simpl. rewrite Hi. setoid_rewrite lookup_insert.
      split; [intros (?&?&[= <-]&?&->)|intros [= <-]; exists p, (with_count c n)];
        case_decide; naive_solver.
    - rewrite list_lookup_insert_ne by done. rewrite !view_lookup by (apply Hl || apply Hl').
      simpl. apply exist_proper; intros q. apply exist_proper; intros m.
      split; intros (Hq&Hm&->); (split; [done|split; [|done]]).
      + rewrite lookup_insert_ne in Hm by (symmetry; eauto). done.
      + rewrite lookup_insert_ne by (symmetry; eauto). done. }
  destruct (heap_Fix_spec elem_lt (nodes_of h1) i) as (s'&Hrun&Hre&Hord').
  { apply Hl'. }
  { simpl. rewrite view_length. by eapply lookup_lt_Some. }
  { change (hview (nodes_of h1)) with (view (nodes_of h1)). rewrite Hview, length_insert.
    apply heap_but_update; [apply _|exact Hord|done]. }
  destruct (linked_rearranged _ _ Hl' Hre) as [Hl'' Hcont'].
  exists (set_nodes h1 s'). split; [|split; [|split; [done|by rewrite Hcont', Hcont]]].
  - unfold Fix. rewrite Hidx, nth_int_of_nat, Hi. simpl. rewrite (store_run _ _ _ _ Hn). simpl.
    rewrite Nat2Z.id. change (heap_Fix _ i) with (heap_Fix (nodes_of h1) i). by rewrite Hrun.
  - split; [done|]. by destruct s'.
Qed.

(** ** [heap.Push] of a new node, [heap.Pop] of the least *)

Lemma linked_pushed h key p n m1 : linked h → contents h !! key = None →
  mem h !! p = Some n → Key n = key → in_u32 (Count n) →
  Z.of_nat (length (Nodes h)) < K h →
  store (mem h) p (with_index (Z.of_nat (length (Nodes h)))) = Some m1 →
  let h1 := mkHeap m1 (Nodes h ++ [p]) (K h) (<[key:=p]> (byKey h)) in
  linked h1 ∧ contents h1 = <[key:=Count n]> (contents h) ∧
  view (nodes_of h1) = view (nodes_of h) ++ [(p, payload n)].
Proof.
  intros Hl Hfresh Hn Hkey Hc Hlen Hst h1.
  assert (byKey h !! key = None) as Hk.
  { apply eq_None_not_Some. intros Hs%(byKey_contents _ _ Hl). rewrite Hfresh in Hs. by inversion Hs. }
  assert (p ∉ Nodes h) as Hp.
  { intros Hp. assert (byKey h !! key = Some p) by (apply (wf_byKey _ Hl); eauto). congruence. }
  pose proof (λ q, store_index_payload _ _ _ _ q Hst) as Hpay.
  apply store_Some in Hst as (n'&Hn'&->). assert (n' = n) as -> by congruence.
  set (m1 := <[p:=_]> _) in *.
  assert (linked h1) as Hl1.
  { split; simpl.
    - intros i q [Hq|[Hi Hq]]%lookup_app_Some.
      + destruct (wf_indexed _ Hl i q Hq) as (nq&Hnq&Hi). exists nq. split; [|done].
        simpl in *. unfold m1. rewrite lookup_insert_ne; [done|]. intros ->.
        by apply Hp, list_elem_of_lookup_2 with i.
      + apply list_lookup_singleton_Some in Hq as [Hi0 <-].
        exists (with_index (Z.of_nat (length (Nodes h))) n). simpl in Hi. simpl.
        unfold m1. rewrite lookup_insert_eq. split; [done|]. simpl. lia.
    - intros k q. rewrite elem_of_app, list_elem_of_singleton, lookup_insert_Some, (wf_byKey _ Hl).
      specialize (Hpay q). simpl in Hpay. split.
      + intros [[<- <-]|(Hne&Hq&nq&Hnq&<-)]; [|symmetry in Hpay].
        * split; [auto|]. symmetry in Hpay. eapply payload_lookup in Hn as (n0&?&?&?); [|done].
          exists n0. split; congruence.
        * split; [auto|]. eapply payload_lookup in Hnq as (n0&?&?&?); [|done]. eauto.
      + intros [[Hq| ->] (nq&Hnq&<-)]; eapply payload_lookup in Hnq as (n0&Hn0&Hk0&?); try done.
        * right. rewrite <-Hk0. split; [intros Heq|eauto].
          assert (byKey h !! key = Some q); [apply (wf_byKey _ Hl); eauto|congruence].
        * left. split; congruence.
    - rewrite length_app. simpl. lia.
    - apply Hl.
    - intros q nq [Hq|Hq%list_elem_of_singleton]%elem_of_app Hnq;
        eapply payload_lookup in Hnq as (n0&Hn0&?&<-); try apply Hpay.
      + by eapply (wf_counts _ Hl).
      + by simplify_eq. }
  split; [done|]. split.
  - apply map_eq. intros k. unfold contents at 1. rewrite lookup_omap. simpl.
    destruct (decide (k = key)) as [->|Hne].
    + rewrite !lookup_insert_eq. simpl. rewrite (count_payload _ _ _ (Hpay p)), Hn. done.
    + rewrite !lookup_insert_ne by done. unfold contents. rewrite lookup_omap.
      destruct (byKey h !! k); [|done]. by apply count_payload.
  - unfold nodes_of, h1. simpl. unfold view. simpl. rewrite fmap_app. simpl. f_equal.
    + exact (view_payload (mem h) m1 (Nodes h) Hpay).
    + by rewrite (payload_total _ _ _ (Hpay p)), (lookup_total_correct _ _ _ Hn).
Qed.

Lemma push_candidate_run h key p n : wf h → contents h !! key = None →
  mem h !! p = Some n → Key n = key → in_u32 (Count n) →
  Z.of_nat (length (Nodes h)) < K h →
  ∃ h', push_candidate h key p = Some h' ∧ wf h' ∧ K h' = K h ∧
    contents h' = <[key:=Count n]> (contents h) ∧
    ∀ q, payload <$> mem h' !! q = payload <$> mem h !! q.
Proof.
  intros [Hl Hord] Hfresh Hn Hkey Hc Hlen.
  pose proof (store_run _ _ _ (with_index (Z.of_nat (length (Nodes h)))) Hn) as Hst.
  destruct (linked_pushed h key p n _ Hl Hfresh Hn Hkey Hc Hlen Hst) as (Hl1&Hcont&Hview).
  set (h1 := mkHeap _ _ _ _) in *.
  destruct (heap_Push_spec elem_lt (nodes_of h) p (nodes_of h1) (p, payload n))
    as (s'&Hrun&Hre&Hord'); try done.
  { simpl. unfold Nodes_Push. simpl. by rewrite Hst. }
  { apply Hl1. }
  destruct (linked_rearranged _ _ Hl1 Hre) as [Hl' Hcont'].
  exists (set_nodes h1 s'). split; [|split; [|split; [done|split]]].
  - unfold push_candidate. by rewrite Hrun.
  - split; [done|]. by destruct s'.
  - by rewrite Hcont'.
  - intros q. destruct Hre as (_&(_&_&Hpay)&_). transitivity (payload <$> mem h1 !! q).
    + apply Hpay.
    + by eapply store_index_payload.
Qed.

Lemma Pop_run h : wf h → Nodes h ≠ [] →
  ∃ e n h', Pop h = Some (e, h') ∧ wf h' ∧ K h' = K h ∧ mem h' !! e = Some n ∧
    index n = -1 ∧ least (contents h) (Key n) (Count n) ∧
    contents h' = delete (Key n) (contents h) ∧ S (length (Nodes h')) = length (Nodes h) ∧
    ∀ q, payload <$> mem h' !! q = payload <$> mem h !! q.
Proof.
  intros Hwf Hne. pose proof Hwf as [Hl Hord].
  destruct (heap_Pop_spec elem_lt (nodes_of h)) as (e&a&s'&Hrun&Hix&Hsame&Hpop&H0&Hperm&Hord').
  { apply Hl. }
  { exact Hord. }
  { simpl. intros Hv. apply Hne, nil_length_inv.
    pose proof (view_length (nodes_of h)) as Hlen. by rewrite Hv in Hlen. }
  destruct Hpop as (n&Hn&Hidx&->).
  destruct (linked_removed h s' e (Key n) (Count n)) as (Hl'&Hcont&Hkc); try done.
  exists e, n, (set_byKey (set_nodes h s') (delete (Key n) (byKey h))).
  split; [|split; [|split; [done|split; [exact Hn|split; [done|split; [|split]]]]]].
  - unfold Pop. rewrite Hrun. simpl. unfold load. by rewrite Hn.
  - split; [exact Hl'|]. by destruct s'.
  - apply view_lookup in H0 as (p&n0&Hp&Hn0&[= <- Hk Hc]); [|apply Hl].
    pose proof (root_least _ _ _ Hwf Hp Hn0) as Hleast. by rewrite <-Hk, <-Hc in Hleast.
  - done.
  - apply Permutation_length in Hperm. simpl in Hperm. rewrite !view_length in Hperm.
    split; [done|]. apply Hsame.
Qed.

(** A node allocated for the candidate touches neither slice nor index. *)
Lemma alloc_fresh h n : linked h → mem h !! (alloc (mem h) n).1 = None.
Proof. intros _. apply not_elem_of_dom, is_fresh. Qed.

Lemma linked_alloc h n : linked h →
  let h' := set_mem h (alloc (mem h) n).2 in
  linked h' ∧ contents h' = contents h ∧ view (nodes_of h') = view (nodes_of h).
Proof.
  intros Hl h'. pose proof (alloc_fresh h n Hl) as Hf. simpl in Hf.
  set (p := fresh _) in *.
  assert (∀ q, is_Some (mem h !! q) → mem h' !! q = mem h !! q) as Hold.
  { intros q [x Hq]. simpl. rewrite lookup_insert_ne; [done|]. intros Heq.
    change (fresh (dom (mem h))) with p in Heq. congruence. }
  assert (∀ q, q ∈ Nodes h → mem h' !! q = mem h !! q) as Hin.
  { intros q Hq. apply Hold, (indexed_elem (nodes_of h)); [apply Hl|done]. }
  split; [|split].
  - split; try apply Hl.
    + intros i q Hq. simpl in Hq. destruct (wf_indexed _ Hl i q Hq) as (nq&Hnq&?).
      exists nq. split; [|done]. change (mem h' !! q = Some nq).
      by rewrite Hin by (by eapply list_elem_of_lookup_2).
    + intros k q. change (byKey h') with (byKey h). rewrite (wf_byKey _ Hl).
      split; intros (Hq&nq&Hnq&<-); (split; [done|]); exists nq; (split; [|done]).
      * by rewrite <-(Hin q Hq) in Hnq.
      * by rewrite <-(Hin q Hq).
    + intros q nq Hq Hnq. rewrite (Hin q Hq) in Hnq. by eapply (wf_counts _ Hl).
  - apply map_eq. intros k. unfold contents. change (byKey h') with (byKey h).
    rewrite !lookup_omap. destruct (byKey h !! k) as [q|] eqn:Hq; [|done].
    apply (wf_byKey _ Hl) in Hq as [Hq _]. simpl. by rewrite <-(Hin q Hq).
  - apply list_fmap_ext. intros i q Hq. rewrite !lookup_total_alt.
    f_equal. f_equal. f_equal. apply Hin. by eapply list_elem_of_lookup_2.
Qed.

(** ** [Upsert] and [Add] *)

Definition valid_candidate (m : memory) (candidate : option loc) (key : string) (count : Z) : Prop :=
  match candidate with
  | None => True
  | Some p => payload <$> m !! p = Some (key, count)
  end.

Lemma ensure_candidate_run h key c cand : wf h → valid_candidate (mem h) cand key c →
  ∃ p h1, ensure_candidate h key c cand = (p, h1) ∧ wf h1 ∧ K h1 = K h ∧ Nodes h1 = Nodes h ∧
    contents h1 = contents h ∧ payload <$> mem h1 !! p = Some (key, c) ∧
    ∀ q, is_Some (mem h !! q) → mem h1 !! q = mem h !! q.
Proof.
  intros [Hl Hord] Hv. destruct cand as [p|]; simpl in Hv.
  { exists p, h. by split_and!. }
  destruct (linked_alloc h (mkNode key c 0) Hl) as (Hl'&Hcont&Hview).
  pose proof (alloc_fresh h (mkNode key c 0) Hl) as Hf.
  exists (alloc (mem h) (mkNode key c 0)).1, (set_mem h (alloc (mem h) (mkNode key c 0)).2).
  split; [done|]. split; [split; [exact Hl'|by rewrite Hview]|]. do 2 (split; [done|]). split; [done|].
  split.
  - simpl. by rewrite lookup_insert_eq.
  - intros q [x Hq]. simpl in *. rewrite lookup_insert_ne; [done|]. congruence.
Qed.

Lemma upsert_insert_run h key c cand : wf h → valid_candidate (mem h) cand key c →
  contents h !! key = None → in_u32 c → Z.of_nat (length (Nodes h)) < K h →
  ∃ p h1 h2, ensure_candidate h key c cand = (p, h1) ∧ push_candidate h1 key p = Some h2 ∧
    wf h2 ∧ K h2 = K h ∧ contents h2 = <[key:=c]> (contents h) ∧
    ∀ q, is_Some (mem h !! q) → payload <$> mem h2 !! q = payload <$> mem h !! q.
Proof.
  intros Hwf Hv Hk Hc Hlen.
  destruct (ensure_candidate_run h key c cand Hwf Hv) as (p&h1&He&Hwf1&HK&Hnodes&Hcont&Hp&Hold).
  apply fmap_Some in Hp as (n&Hn&[= -> ->]).
  destruct (push_candidate_run h1 (Key n) p n) as (h2&Hrun&Hwf2&HK2&Hcont2&Hpay); try done.
  { by rewrite Hcont. } { by rewrite Hnodes, HK. }
  exists p, h1, h2. split_and!; try done; [congruence|by rewrite Hcont2, Hcont|].
  intros q Hq. rewrite (Hpay q). by rewrite Hold.
Qed.

Lemma wf_size h : wf h → Z.of_nat (size (contents h)) <= K h.
Proof. intros [Hl _]. rewrite contents_size by done. apply Hl. Qed.

Theorem upsert_run h key c cand : wf h → valid_candidate (mem h) cand key c → in_u32 c →
  ∃ r h' rk, upsert h key c cand = Some (r, h') ∧ wf h' ∧ K h' = K h ∧
    (λ p, Key <$> load (mem h') p) <$> r = Some <$> rk ∧
    upsert_spec (K h) (contents h) key c rk (contents h').
Proof.
  intros Hwf Hv Hc. pose proof Hwf as [Hl Hord]. unfold upsert.
  pose proof (wf_K _ Hl) as HK. pose proof (wf_len _ Hl) as Hlen.
  pose proof (contents_size h Hl) as Hsize.
  destruct (byKey h !! key) as [p|] eqn:Hp.
  { apply (wf_byKey _ Hl) in Hp as (Hp&n&Hn&<-). unfold load. rewrite Hn. simpl.
    destruct (Fix_run h p n c) as (h'&->&Hwf'&HK'&Hcont); try done.
    exists None, h', None. split_and!; try done. rewrite Hcont.
    eapply upsert_update. by eapply contents_node. }
  assert (contents h !! key = None) as Hk.
  { apply eq_None_not_Some. rewrite <-byKey_contents, Hp by done. apply is_Some_None. }
  case (Z.eqb_spec (K h) 0) as [HK0|HK0].
  { destruct (ensure_candidate_run h key c cand) as (p&h1&->&Hwf1&HK1&_&Hcont&Hpay&_); try done.
    exists (Some p), h1, (Some key). split_and!; try done.
    - apply fmap_Some in Hpay as (n&Hn&[= -> ->]). cbn. unfold load. by rewrite Hn.
    - rewrite Hcont. by apply upsert_no_room. }
  rewrite u32_id by width. case (Z.ltb_spec (Z.of_nat (length (Nodes h))) (K h)) as [Hroom|Hfull].
  { destruct (upsert_insert_run h key c cand) as (p&h1&h2&->&->&Hwf2&HK2&Hcont&_); try done.
    exists None, h2, None. split_and!; try done. rewrite Hcont. apply upsert_insert; [done|lia]. }
  destruct (Nodes h) as [|root rest] eqn:Hnodes.
  { unfold in_u32 in HK. simpl in Hfull. lia. }
  assert (Nodes h !! 0%nat = Some root) as H0 by (by rewrite Hnodes).
  destruct (wf_indexed _ Hl 0%nat root H0) as (n&Hn&_). simpl in Hn.
  simpl. unfold load. rewrite Hn. simpl.
  pose proof (root_least h root n Hwf H0 Hn) as Hleast. rewrite <-Hnodes in *.
  case (Z.ltb_spec (Count n) c) as [Hlt|Hge]; last first.
  { exists None, h, None. split_and!; try done. eapply upsert_reject; try done; width || lia. }
  destruct (Pop_run h Hwf) as (e&n'&h1&->&Hwf1&HK1&Hn'&_&Hleast'&Hcont1&Hlen1&Hpay1).
  { by rewrite Hnodes. }
  destruct (least_unique _ _ _ _ _ Hleast Hleast') as [Hkey Hcount].
  simpl. destruct (upsert_insert_run h1 key c cand) as (p&h2&h3&->&Hpush&Hwf3&HK3&Hcont3&Hpay3);
    try done; [| |lia|].
  { destruct cand as [p|]; [|done]. simpl in *. by rewrite Hpay1. }
  { rewrite Hcont1. by apply lookup_delete_None; right. }
  cbn [mbind option_bind]. rewrite Hpush.
  exists (Some e), h3, (Some (Key n)). split_and!; try done; [congruence| |].
  - specialize (Hpay3 e). rewrite Hn' in Hpay3. specialize (Hpay3 (mk_is_Some _ _ eq_refl)).
    apply fmap_Some in Hpay3 as (n3&Hn3&[= ? ?]). cbn. unfold load. rewrite Hn3. cbn. congruence.
  - rewrite Hcont3, Hcont1, <-Hkey. eapply upsert_replace; try done; width || lia.
Qed.

(** ** The remaining operations *)

Lemma NewHeap_wf k : in_u32 k → wf (NewHeap k).
Proof.
  intros Hk. split; [|apply heap_order_nil]. split; simpl.
  - by intros i p [=].
  - intros k' p. rewrite lookup_empty, elem_of_nil. naive_solver.
  - unfold in_u32 in Hk. lia.
  - done.
  - intros p n. by rewrite elem_of_nil.
Qed.

Lemma Min_run h : wf h → ∃ c, Min h = Some c ∧
  ((contents h = ∅ ∧ c = 0) ∨ ∃ k, least (contents h) k c).
Proof.
  intros Hwf. pose proof Hwf as [Hl _]. unfold Min.
  destruct (Nodes h) as [|p rest] eqn:Hnodes.
  - exists 0. split; [done|]. left. split; [|done]. apply map_size_empty_inv.
    by rewrite contents_size, Hnodes.
  - assert (Nodes h !! 0%nat = Some p) as H0 by (by rewrite Hnodes).
    destruct (wf_indexed _ Hl 0%nat p H0) as (n&Hn&_). simpl in Hn.
    unfold load. rewrite Hn. exists (Count n). split; [done|]. right.
    exists (Key n). by eapply root_least.
Qed.

Lemma Find_Some h k i : linked h → Find h k = Some (i, true) →
  ∃ p n, p ∈ Nodes h ∧ mem h !! p = Some n ∧ Key n = k ∧ index n = i.
Proof.
  unfold Find. intros Hl. destruct (byKey h !! k) as [p|] eqn:Hp; [|done].
  apply (wf_byKey _ Hl) in Hp as (Hp&n&Hn&<-). unfold load. rewrite Hn.
  intros [= <-]. eauto 6.
Qed.

Lemma Find_run h k : wf h →
  ∃ i, Find h k = Some (i, bool_decide (is_Some (contents h !! k))).
Proof.
  intros [Hl _]. unfold Find. destruct (byKey h !! k) as [p|] eqn:Hp.
  - apply (wf_byKey _ Hl) in Hp as Hp'. destruct Hp' as (_&n&Hn&<-).
    unfold load. rewrite Hn. exists (index n). rewrite bool_decide_eq_true_2; [done|].
    rewrite <-byKey_contents, Hp by done. eauto.
  - exists 0. rewrite bool_decide_eq_false_2; [done|].
    rewrite <-byKey_contents, Hp by done. apply is_Some_None.
Qed.

Lemma Remove_run h k : wf h →
  ∃ h', Remove h k = Some (bool_decide (is_Some (contents h !! k)), h') ∧ wf h' ∧
        K h' = K h ∧ contents h' = delete k (contents h).
Proof.
  intros Hwf. pose proof Hwf as [Hl Hord]. unfold Remove.
  destruct (byKey h !! k) as [p|] eqn:Hp; last first.
  { assert (¬ is_Some (contents h !! k)) as Hk.
    { rewrite <-byKey_contents, Hp by done. apply is_Some_None. }
    exists h. rewrite bool_decide_eq_false_2 by done. split_and!; try done.
    symmetry. apply delete_id. by apply eq_None_not_Some. }
  rewrite bool_decide_eq_true_2 by (rewrite <-byKey_contents, Hp by done; eauto).
  apply (wf_byKey _ Hl) in Hp as (Hp&n&Hn&<-). unfold load. rewrite Hn. cbn [mbind option_bind].
  apply list_elem_of_lookup in Hp as [i Hi].
  destruct (wf_indexed _ Hl i p Hi) as (n'&Hn'&Hidx). simpl in Hn'.
  assert (n' = n) as -> by congruence. rewrite Hidx.
  case (Z.ltb_spec (Z.of_nat i) 0); [lia|intros _]. rewrite Nat2Z.id.
  assert (view (nodes_of h) !! i = Some (p, payload n)) as Hv.
  { apply view_lookup; [apply Hl|]. eauto. }
  destruct (heap_Remove_spec elem_lt (nodes_of h) i (p, payload n))
    as (e&s'&Hrun&Hix&Hsame&Hpop&Hperm&Hord'); [apply Hl|exact Hord|done|].
  destruct Hpop as (n2&Hn2&_&[= <- Hk2 Hc2]).
  destruct (linked_removed h s' p (Key n) (Count n)) as (Hl'&Hcont&_); try done.
  exists (set_byKey (set_nodes h s') (delete (Key n) (byKey h))).
  rewrite Hrun. split; [done|]. split; [split; [exact Hl'|by destruct s']|done].
Qed.

Lemma scale_loop_run ns m : NoDup ns → (∀ p, p ∈ ns → is_Some (m !! p)) →
  ∃ m', scale_loop ns m = Some m' ∧
    (∀ p, p ∈ ns → m' !! p = halve_count <$> m !! p) ∧
    (∀ p, p ∉ ns → m' !! p = m !! p).
Proof.
  revert m. induction ns as [|q ns IH]; intros m Hnd Hall.
  { exists m. split; [done|]. split; [|done]. intros p Hp. by apply elem_of_nil in Hp. }
  apply NoDup_cons in Hnd as [Hq Hnd]. cbn [scale_loop].
  destruct (Hall q) as [n Hn]; [apply elem_of_cons; auto|].
  rewrite (store_run _ _ _ _ Hn). cbn [mbind option_bind].
  destruct (IH (<[q:=halve_count n]> m)) as (m'&->&Hin&Hout); [done| |].
  { intros p Hp. apply lookup_insert_is_Some'. right. apply Hall, elem_of_cons. auto. }
  exists m'. split; [done|]. split.
  - intros p [->|Hp]%elem_of_cons.
    + by rewrite Hout, lookup_insert_eq, Hn by done.
    + rewrite Hin by done. rewrite lookup_insert_ne; [done|congruence].
  - intros p [Hpq Hp]%not_elem_of_cons. rewrite Hout by done. by rewrite lookup_insert_ne.
Qed.

Lemma drop_zeros_run fuel h : wf h → (length (Nodes h) < fuel)%nat →
  ∃ h', drop_zeros fuel h = Some h' ∧ wf h' ∧ K h' = K h ∧
        contents h' = filter (λ kc, kc.2 ≠ 0) (contents h).
Proof.
  revert h. induction fuel as [|fuel IH]; intros h Hwf Hf; [lia|].
  pose proof Hwf as [Hl _]. cbn [drop_zeros].
  destruct (Nodes h) as [|p rest] eqn:Hnodes.
  { exists h. split_and!; try done.
    assert (contents h = ∅) as ->; [|by rewrite map_filter_empty].
    apply map_size_empty_inv. by rewrite contents_size, Hnodes. }
  assert (Nodes h !! 0%nat = Some p) as H0 by (by rewrite Hnodes).
  destruct (wf_indexed _ Hl 0%nat p H0) as (n&Hn&_). simpl in Hn.
  pose proof (root_least h p n Hwf H0 Hn) as Hleast.
  unfold load. rewrite Hn. cbn [mbind option_bind].
  case (Z.eqb_spec (Count n) 0) as [Hz|Hz].
  - destruct (Pop_run h Hwf) as (e&n'&h1&->&Hwf1&HK1&_&_&Hleast'&Hcont1&Hlen1&_).
    { by rewrite Hnodes. }
    destruct (least_unique _ _ _ _ _ Hleast Hleast') as [Hkey _].
    cbn [mbind option_bind].
    destruct (IH h1 Hwf1) as (h'&->&Hwf'&HK'&Hcont'); [rewrite Hnodes in *; simpl in *; lia|].
    exists h'. split_and!; try done; [congruence|].
    rewrite Hcont', Hcont1, <-Hkey. apply map_eq. intros k. apply option_eq. intros c.
    rewrite !map_lookup_filter_Some, lookup_delete_Some. simpl.
    split; [naive_solver|]. intros [Hc Hc0]. split_and!; try done.
    intros <-. destruct Hleast as [Hc' _]. congruence.
  - exists h. split_and!; try done. symmetry. apply map_filter_id. intros k c Hc. simpl.
    destruct Hleast as [Hkn Hmin]. destruct (decide (k = Key n)) as [->|Hne]; [congruence|].
    pose proof (item_lt_le _ _ (Hmin _ _ Hc Hne)) as Hle. simpl in Hle.
    assert (in_u32 (Count n)) as Hu.
    { eapply wf_counts; [done| |done]. by eapply list_elem_of_lookup_2. }
    unfold in_u32 in Hu. lia.
Qed.

Theorem ScaleDown_run h : wf h →
  ∃ h', ScaleDown h = Some h' ∧ wf h' ∧ K h' = K h ∧ contents h' = omap halve (contents h).
Proof.
  intros [Hl _]. unfold ScaleDown.
  destruct (scale_loop_run (Nodes h) (mem h)) as (m&->&Hin&Hout).
  { apply (indexed_NoDup (nodes_of h)), Hl. }
  { intros p. apply (indexed_elem (nodes_of h)), Hl. }
  cbn [mbind option_bind].
  assert (linked (set_mem h m)) as Hl1.
  { apply linked_set_counts; [done| |].
    - intros q. destruct (decide (q ∈ Nodes h)) as [Hq|Hq]; [|by rewrite Hout].
      rewrite Hin by done. by destruct (mem h !! q).
    - intros p n Hp Hn. rewrite Hin in Hn by done. apply fmap_Some in Hn as (n0&Hn0&->).
      apply in_u32_shiftr. by eapply wf_counts. }
  assert (contents (set_mem h m) = (λ c, Z.shiftr c 1) <$> contents h) as Hcont1.
  { apply map_eq. intros k. rewrite lookup_fmap. unfold contents.
    change (byKey (set_mem h m)) with (byKey h). rewrite !lookup_omap.
    destruct (byKey h !! k) as [p|] eqn:Hp; [|done]. simpl.
    apply (wf_byKey _ Hl) in Hp as [Hp _]. rewrite Hin by done. by destruct (mem h !! p). }
  destruct (heap_Init_spec elem_lt (nodes_of (set_mem h m))) as (s&Hrun&Hre&Hord); [apply Hl1|].
  destruct (linked_rearranged _ _ Hl1 Hre) as [Hl2 Hcont2].
  change (heap_Init (m, Nodes h)) with (heap_Init (nodes_of (set_mem h m))).
  rewrite Hrun. cbn [mbind option_bind].
  change (set_nodes h s) with (set_nodes (set_mem h m) s).
  destruct (drop_zeros_run (S (length (Nodes h))) (set_nodes (set_mem h m) s))
    as (h'&->&Hwf'&HK'&Hcont').
  { split; [done|]. by destruct s. }
  { apply rearranged_length in Hre. simpl in *. rewrite !view_length in Hre. simpl in Hre. lia. }
  exists h'. split_and!; try done. rewrite Hcont', Hcont2, Hcont1.
  apply map_eq. intros k. apply option_eq. intros c.
  rewrite map_lookup_filter_Some, lookup_fmap, lookup_omap, fmap_Some.
  unfold halve. destruct (contents h !! k) as [c0|]; simpl; [|naive_solver].
  case Z.eqb_spec; naive_solver.
Qed.





(** ** [Sorted] *)

#[export] Instance node_rank_order : StrictWeakOrder (λ x y, node_less y x).
Proof.
  split; intros *; rewrite !node_less_item.
  - apply swo_irrefl.
  - intros ??. by eapply swo_trans.
  - intros [|]%(swo_cotrans _ (payload b)); auto.
Qed.

Lemma load_all h : linked h → ∃ ns, mapM (load (mem h)) (Nodes h) = Some ns ∧
  payload <$> ns = snd <$> view (nodes_of h).
Proof.
  intros Hl. assert (∀ p, p ∈ Nodes h → is_Some (mem h !! p)) as Hall.
  { intros p. apply (indexed_elem (nodes_of h)), Hl. }
  unfold nodes_of, view. simpl. clear Hl. induction (Nodes h) as [|p ns IH].
  { by exists []. }
  destruct (Hall p) as [n Hn]; [apply elem_of_cons; auto|].
  destruct IH as (l&Hrun&Hpay); [intros q Hq; apply Hall, elem_of_cons; auto|].
  exists (n :: l). cbn [mapM]. rewrite Hrun. unfold load. rewrite Hn. split; [done|].
  by rewrite !fmap_cons, (lookup_total_correct _ _ _ Hn), Hpay.
Qed.

Theorem Sorted_run `{SorterLaws} h : wf h →
  ∃ l, Sorted h = Some l ∧ payload <$> l ≡ₚ map_to_list (contents h) ∧
    StronglySorted (λ p q, item_lt q p = true) (payload <$> l) ∧
    ∀ i n, l !! i = Some n → index n = Z.of_nat i.
Proof.
  intros [Hl _]. destruct (load_all h Hl) as (ns&Hrun&Hpay). unfold Sorted. rewrite Hrun.
  cbn [mbind option_bind]. set (less := λ x y, node_less y x).
  eexists. split; [done|].
  assert (payload <$> imap (λ i n, with_index (Z.of_nat i) n) (go_sort less ns)
          = payload <$> go_sort less ns) as ->.
  { rewrite fmap_imap. apply list_eq. intros i. rewrite list_lookup_imap, list_lookup_fmap.
    by destruct (_ !! i). }
  assert (payload <$> go_sort less ns ≡ₚ map_to_list (contents h)) as Hperm.
  { rewrite go_sort_perm, Hpay. symmetry. by apply contents_list. }
  split; [done|]. split.
  - apply (StronglySorted_fmap payload (λ x y, item_lt (payload y) (payload x) = true)); [done|].
    apply StronglySorted_distinct with (R := not_after less) (key := Key).
    + exact (go_sort_sorted (λ x y, node_less y x) ns).
    + change (NoDup (fst ∘ payload <$> go_sort less ns)). rewrite list_fmap_compose, Hperm.
      apply NoDup_fst_map_to_list.
    + intros x y Hxy Hne. unfold not_after, less in Hxy. rewrite node_less_item in Hxy.
      destruct (item_lt_total (payload x) (payload y) Hne); congruence.
  - intros i n. rewrite list_lookup_imap. intros (x&_&->)%fmap_Some. done.
Qed.

(** ** The instance *)

#[export] Instance Heap_KeyedHeap `{Sorter} : KeyedHeap Heap loc := {
  kh_new := NewHeap; kh_len := Len; kh_min := Min; kh_find := Find; kh_fix := Fix;
  kh_upsert := Upsert; kh_node_key := λ h p, Key <$> load (mem h) p;
  kh_contains := Contains; kh_remove := Remove; kh_scale_down := ScaleDown;
  kh_sorted := λ h, (λ l : list Node, payload <$> l) <$> Sorted h
}.

Lemma NewHeap_spec k : in_u32 k →
  wf (NewHeap k) ∧ contents (NewHeap k) = ∅ ∧ K (NewHeap k) = k.
Proof. intros Hk. split_and!; [by apply NewHeap_wf|done|done]. Qed.

Lemma wf_cap h : wf h → in_u32 (K h).
Proof. intros [Hl _]. apply Hl. Qed.

Lemma wf_contents_count h k c : wf h → contents h !! k = Some c → in_u32 c.
Proof.
  intros [Hl _] Hc. apply contents_Some in Hc as [p Hp]; [|done].
  apply view_elem in Hp as (q&n&Hq&Hn&[= -> -> ->]); [|apply Hl].
  by eapply wf_counts.
Qed.

Lemma Len_run h : wf h → Len h = Z.of_nat (size (contents h)).
Proof. intros [Hl _]. unfold Len. by rewrite contents_size. Qed.

Lemma Fix_found h k i c : wf h → in_u32 c → Find h k = Some (i, true) →
  ∃ h', Fix h i c = Some h' ∧ wf h' ∧ K h' = K h ∧ contents h' = <[k:=c]> (contents h).
Proof.
  intros Hwf Hc Hf. pose proof Hwf as [Hl _].
  destruct (Find_Some _ _ _ Hl Hf) as (p&n&Hp&Hn&<-&<-). by eapply Fix_run.
Qed.

Lemma Upsert_run h k c : wf h → in_u32 c →
  ∃ r h' rk, Upsert h k c = Some (r, h') ∧ wf h' ∧ K h' = K h ∧
    (λ p, Key <$> load (mem h') p) <$> r = Some <$> rk ∧
    upsert_spec (K h) (contents h) k c rk (contents h').
Proof. intros. by apply upsert_run. Qed.

Lemma Contains_run h k : wf h → Contains h k = bool_decide (is_Some (contents h !! k)).
Proof. intros [Hl _]. apply bool_decide_ext. by apply byKey_contents. Qed.

Lemma Sorted_payload_run `{SorterLaws} h : wf h →
  ∃ l, (λ l : list Node, payload <$> l) <$> Sorted h = Some l ∧ l ≡ₚ map_to_list (contents h) ∧
       StronglySorted (λ p q, item_lt q p = true) l.
Proof.
  intros Hwf. destruct (Sorted_run h Hwf) as (l&->&Hp&Hs&_). by exists (payload <$> l).
Qed.

#[export] Instance Heap_KeyedHeapLaws `{SorterLaws} : KeyedHeapLaws Heap loc := {
  kh_inv := wf; kh_contents := contents; kh_cap := K;
  kh_new_spec := NewHeap_spec; kh_inv_cap := wf_cap; kh_inv_size := wf_size;
  kh_inv_count := wf_contents_count; kh_len_spec := Len_run; kh_min_spec := Min_run;
  kh_find_spec := λ h k, Find_run h k; kh_fix_spec := Fix_found;
  kh_upsert_spec := Upsert_run; kh_contains_spec := Contains_run;
  kh_remove_spec := λ h k, Remove_run h k; kh_scale_down_spec := ScaleDown_run;
  kh_sorted_spec := Sorted_payload_run
}.

(** ** Every reachable heap

    The states a client can bring a heap into: any sequence of the exported
    operations, and of node allocations of its own, that does not panic. *)
Inductive heap_step : Heap → Heap → Prop :=
| step_node h n : heap_step h (set_mem h (alloc (mem h) n).2)
| step_Add h val n r h' : load (mem h) val = Some n → in_u32 (Count n) →
    Add h val = Some (r, h') → heap_step h h'
| step_Upsert h key c r h' : in_u32 c → Upsert h key c = Some (r, h') → heap_step h h'
| step_Pop h p h' : Pop h = Some (p, h') → heap_step h h'
| step_Fix h i c h' : in_u32 c → Fix h i c = Some h' → heap_step h h'
| step_Remove h key b h' : Remove h key = Some (b, h') → heap_step h h'
| step_ScaleDown h h' : ScaleDown h = Some h' → heap_step h h'.

Definition reachable (k : Z) (h : Heap) : Prop := rtc heap_step (NewHeap k) h.

Lemma Pop_empty h : Nodes h = [] → Pop h = None.
Proof. intros Hn. unfold Pop, heap_Pop, nodes_of. simpl. unfold Nodes_Len. simpl. by rewrite Hn. Qed.

Lemma Fix_inv h i c h' : linked h → Fix h i c = Some h' →
  ∃ p n, p ∈ Nodes h ∧ mem h !! p = Some n ∧ index n = i.
Proof.
  intros Hl Hf. unfold Fix in Hf. apply bind_Some in Hf as (p&[Hi Hp]%nth_int_Some&_).
  destruct (wf_indexed _ Hl _ _ Hp) as (n&Hn&Hidx). exists p, n.
  split; [by eapply list_elem_of_lookup_2|]. split; [done|]. rewrite Hidx. lia.
Qed.

Lemma heap_step_wf h h' : heap_step h h' → wf h → wf h' ∧ K h' = K h.
Proof.
  intros Hstep Hwf. pose proof Hwf as [Hl Hord]. destruct Hstep as
    [h n|h val n r h' Hn Hc Hrun|h key c r h' Hc Hrun|h p h' Hrun|h i c h' Hc Hrun
    |h key b h' Hrun|h h' Hrun].
  - destruct (linked_alloc h n Hl) as (Hl'&_&Hview). split; [|done]. split; [done|].
    by rewrite Hview.
  - unfold Add in Hrun. rewrite Hn in Hrun. simpl in Hrun.
    destruct (upsert_run h (Key n) (Count n) (Some val)) as (r'&h''&rk&Hrun'&Hwf'&HK&_);
      [done| |done|].
    { simpl. unfold load in Hn. by rewrite Hn. }
    rewrite Hrun in Hrun'. by simplify_eq.
  - destruct (Upsert_run h key c) as (r'&h''&rk&Hrun'&Hwf'&HK&_); [done..|].
    rewrite Hrun in Hrun'. by simplify_eq.
  - destruct (Nodes h) eqn:Hnodes; [by rewrite Pop_empty in Hrun|].
    destruct (Pop_run h Hwf) as (e&n&h''&Hrun'&Hwf'&HK&_); [by rewrite Hnodes|].
    rewrite Hrun in Hrun'. by simplify_eq.
  - destruct (Fix_inv _ _ _ _ Hl Hrun) as (p&n&Hp&Hn&<-).
    destruct (Fix_run h p n c) as (h''&Hrun'&Hwf'&HK&_); [done..|].
    rewrite Hrun in Hrun'. by simplify_eq.
  - destruct (Remove_run h key Hwf) as (h''&Hrun'&Hwf'&HK&_).
    rewrite Hrun in Hrun'. by simplify_eq.
  - destruct (ScaleDown_run h Hwf) as (h''&Hrun'&Hwf'&HK&_).
    rewrite Hrun in Hrun'. by simplify_eq.
Qed.

Lemma reachable_wf k h : in_u32 k → reachable k h → wf h ∧ K h = k.
Proof.
  intros Hk Hr. unfold reachable in Hr. apply (rtc_ind_r (λ h, wf h ∧ K h = k) (NewHeap k)) in Hr;
    [done|by split; [apply NewHeap_wf|]|].
  intros h1 h2 _ Hstep [Hwf HK]. destruct (heap_step_wf _ _ Hstep Hwf). split; congruence.
Qed.

Lemma byKey_size h : linked h → size (byKey h) = length (Nodes h).
Proof.
  intros Hl. rewrite <-(contents_size h Hl), <-!size_dom. f_equal.
  apply set_eq. intros k. rewrite !elem_of_dom. by apply byKey_contents.
Qed.

(** A run of several upserts, for concrete heaps. *)
Fixpoint upserts (l : list (string * Z)) (h : Heap) : option Heap :=
  match l with
  | [] => Some h
  | (key, c) :: l => '(_, h') ← Upsert h key c; upserts l h'
  end.

Lemma upserts_reachable l k h h' : Forall (λ kc, in_u32 kc.2) l → reachable k h →
  upserts l h = Some h' → reachable k h'.
Proof.
  revert h. induction l as [|[key c] l IH]; intros h Hall Hr Hrun; [by simplify_eq/=|].
  apply Forall_cons in Hall as [Hc Hall]. simpl in Hrun.
  destruct (Upsert h key c) as [[r h1]|] eqn:Hu; [|done]. simpl in Hrun.
  apply (IH h1); [done| |done]. eapply rtc_r; [done|]. by eapply step_Upsert.
Qed.

(** ** Properties *)

(** C28. Index invariant.  In every reachable heap the key index and the slice
    have the same size, at most [K]; each slice element knows its own position
    and is the very node the index holds for its key; and no node sorts before
    its parent. *)
Theorem heap_index_invariant k h : in_u32 k → reachable k h →
  size (byKey h) = length (Nodes h) ∧ Z.of_nat (length (Nodes h)) <= k ∧
  (∀ i p, Nodes h !! i = Some p → ∃ n, mem h !! p = Some n ∧
     index n = Z.of_nat i ∧ byKey h !! Key n = Some p) ∧
  (∀ c p q x y, (0 < c)%nat → Nodes h !! parent c = Some p → Nodes h !! c = Some q →
     mem h !! p = Some x → mem h !! q = Some y → node_less y x = false).
Proof.
  intros Hk Hr. destruct (reachable_wf k h Hk Hr) as [[Hl Hord] <-].
  split; [by apply byKey_size|]. split; [apply Hl|]. split.
  - intros i p Hp. destruct (wf_indexed _ Hl i p Hp) as (n&Hn&Hi). simpl in Hn.
    exists n. split_and!; [done..|]. apply (wf_byKey _ Hl).
    split; [by eapply list_elem_of_lookup_2|eauto].
  - intros c p q x y Hc Hp Hq Hx Hy.
    assert (∀ i r z, Nodes h !! i = Some r → mem h !! r = Some z →
      view (nodes_of h) !! i = Some (r, payload z)) as Hv.
    { intros. apply view_lookup; [apply Hl|eauto]. }
    pose proof (Hv _ _ _ Hq Hy) as Hvq. pose proof (lookup_lt_Some _ _ _ Hvq) as Hlt.
    exact (Hord c (conj Hc Hlt) (Nat.le_0_l _) _ _ (Hv _ _ _ Hp Hx) Hvq).
Qed.

(** C29. [Upsert] never panics on a reachable heap and does to the map of contents
    exactly what the contract says: update in place, insert while there is room,
    replace the least entry when the new count is greater, reject otherwise; the
    node it returns carries the expelled key. *)
Theorem Upsert_refines k h key c : in_u32 k → reachable k h → in_u32 c →
  ∃ r h' rk, Upsert h key c = Some (r, h') ∧
    (λ p, Key <$> load (mem h') p) <$> r = Some <$> rk ∧
    upsert_spec k (contents h) key c rk (contents h').
Proof.
  intros Hk Hr Hc. destruct (reachable_wf k h Hk Hr) as [Hwf <-].
  destruct (Upsert_run h key c Hwf Hc) as (r&h'&rk&?&_&_&?&?). eauto 8.
Qed.

(** [Pop] panics exactly on the empty heap; otherwise it returns the node of
    the least entry (smallest count, largest key among equals) and removes that
    entry and no other. *)
Theorem Pop_expels_least k h : in_u32 k → reachable k h →
  match Nodes h with
  | [] => Pop h = None
  | _ => ∃ p n h', Pop h = Some (p, h') ∧ mem h' !! p = Some n ∧
           least (contents h) (Key n) (Count n) ∧ contents h' = delete (Key n) (contents h)
  end.
Proof.
  intros Hk Hr. destruct (reachable_wf k h Hk Hr) as [Hwf _].
  destruct (Nodes h) as [|root rest] eqn:Hnodes; [by apply Pop_empty|].
  destruct (Pop_run h Hwf) as (p&n&h'&?&_&_&?&_&?&?&_); [by rewrite Hnodes|].
  by exists p, n, h'.
Qed.

(** C32. [ScaleDown] halves every count, rounding down, and removes exactly the
    entries whose count becomes zero. *)
Theorem ScaleDown_halves k h : in_u32 k → reachable k h →
  ∃ h', ScaleDown h = Some h' ∧ reachable k h' ∧
    ∀ key c', contents h' !! key = Some c' ↔
      ∃ c, contents h !! key = Some c ∧ c' = c / 2 ∧ 0 < c'.
Proof.
  intros Hk Hr. destruct (reachable_wf k h Hk Hr) as [Hwf _].
  destruct (ScaleDown_run h Hwf) as (h'&Hrun&Hwf'&_&Hcont). exists h'. split; [done|].
  split; [eapply rtc_r; [done|by apply step_ScaleDown]|].
  intros key c'. rewrite Hcont, lookup_omap_Some. setoid_rewrite halve_Some. split.
  - intros (c&[-> Hnz]&Hc). exists c. split_and!; try done.
    pose proof (wf_contents_count _ _ _ Hwf Hc) as Hu. unfold in_u32 in Hu.
    pose proof (Z.div_pos c 2). lia.
  - intros (c&Hc&->&?). exists c. split; [|done]. split; [done|lia].
Qed.

(** [Sorted] lists each entry once, by descending count and ascending key; the
    list does not depend on the sorting algorithm, and the copies carry their
    rank as index. *)
Theorem Sorted_is_ranking `{SorterLaws} k h : in_u32 k → reachable k h →
  ∃ l, Sorted h = Some l ∧
    (∀ i n, l !! i = Some n → index n = Z.of_nat i) ∧
    ∀ ranking, payload <$> l = ranking ↔
      ranking ≡ₚ map_to_list (contents h) ∧
      StronglySorted (λ p q, item_lt q p = true) ranking.
Proof.
  intros Hk Hr. destruct (reachable_wf k h Hk Hr) as [Hwf _].
  destruct (Sorted_run h Hwf) as (l&Hrun&Hp&Hs&Hix). exists l. do 2 (split; [done|]).
  intros ranking. split; [by intros <-|]. intros [Hp' Hs'].
  eapply StronglySorted_strict_unique; [|done..|by rewrite Hp'].
  intros a b Hab Hba. pose proof (swo_trans _ _ _ Hab Hba) as Hc.
  by rewrite swo_irrefl in Hc.
Qed.

(** [Remove] reports whether the key was present, never panics and leaves the
    other entries as they were. *)
Theorem Remove_deletes k h key : in_u32 k → reachable k h →
  ∃ h', Remove h key = Some (bool_decide (is_Some (contents h !! key)), h') ∧
        contents h' = delete key (contents h).
Proof.
  intros Hk Hr. destruct (reachable_wf k h Hk Hr) as [Hwf _].
  destruct (Remove_run h key Hwf) as (h'&?&_&_&?). eauto.
Qed.

(** ** Witnesses: a heap of capacity two after four upserts *)

Definition demo_heap : Heap :=
  default (NewHeap 2) (upserts [("a", 3); ("b", 1); ("c", 2); ("a", 5)]%string (NewHeap 2)).

Lemma demo_reachable : reachable 2 demo_heap.
Proof.
  apply (upserts_reachable [("a", 3); ("b", 1); ("c", 2); ("a", 5)]%string 2 (NewHeap 2)).
  - repeat (apply Forall_cons; split; [done|]). constructor.
  - apply rtc_refl.
  - vm_compute. reflexivity.
Qed.

Lemma heap_index_invariant_witness :
  in_u32 2 ∧ reachable 2 demo_heap ∧ size (byKey demo_heap) = length (Nodes demo_heap).
Proof.
  split; [done|]. split; [exact demo_reachable|].
  apply (heap_index_invariant 2 demo_heap); [done|exact demo_reachable].
Defined.

Lemma Upsert_refines_witness : ∃ r h' rk,
  Upsert demo_heap "d" 4 = Some (r, h') ∧
  (λ p, Key <$> load (mem h') p) <$> r = Some <$> rk ∧
  upsert_spec 2 (contents demo_heap) "d" 4 rk (contents h').
Proof. apply (Upsert_refines 2 demo_heap "d" 4); [done|exact demo_reachable|done]. Defined.

Lemma Pop_expels_least_witness :
  match Nodes demo_heap with
  | [] => Pop demo_heap = None
  | _ => ∃ p n h', Pop demo_heap = Some (p, h') ∧ mem h' !! p = Some n ∧
           least (contents demo_heap) (Key n) (Count n) ∧
           contents h' = delete (Key n) (contents demo_heap)
  end.
Proof. apply (Pop_expels_least 2 demo_heap); [done|exact demo_reachable]. Defined.

Lemma ScaleDown_halves_witness : ∃ h', ScaleDown demo_heap = Some h' ∧ reachable 2 h' ∧
  ∀ key c', contents h' !! key = Some c' ↔
    ∃ c, contents demo_heap !! key = Some c ∧ c' = c / 2 ∧ 0 < c'.
Proof. apply (ScaleDown_halves 2 demo_heap); [done|exact demo_reachable]. Defined.

Lemma Sorted_is_ranking_witness : ∃ l, @Sorted merge_sorter demo_heap = Some l ∧
  (∀ i n, l !! i = Some n → index n = Z.of_nat i) ∧
  ∀ ranking, payload <$> l = ranking ↔
    ranking ≡ₚ map_to_list (contents demo_heap) ∧
    StronglySorted (λ p q, item_lt q p = true) ranking.
Proof.
  apply (@Sorted_is_ranking merge_sorter merge_sorter_laws 2 demo_heap);
    [done|exact demo_reachable].
Defined.

Lemma Remove_deletes_witness : ∃ h',
  Remove demo_heap "c" = Some (bool_decide (is_Some (contents demo_heap !! "c"%string)), h') ∧
  contents h' = delete "c"%string (contents demo_heap).
Proof. apply (Remove_deletes 2 demo_heap "c"); [done|exact demo_reachable]. Defined.

(** The heap the tests of the package build: concrete runs. *)
Example demo_contents : contents demo_heap = {[ "a" := 5; "c" := 2 ]}%string.
Proof. vm_compute. reflexivity. Qed.

Example demo_expelled : ∃ h', Upsert demo_heap "d" 4 = Some (Some 3%positive, h') ∧
  Key <$> mem h' !! 3%positive = Some "c"%string ∧ contents h' = {[ "a" := 5; "d" := 4 ]}%string.
Proof. eexists. vm_compute. split_and!; reflexivity. Qed.
