(* ===== verification/Float64.v ===== *)
(** * Go's [float64]

    Values are IEEE-754 binary64 numbers, as the standard library specifies them
    in [SpecFloat] (one NaN, no payload).  The operations the program uses are
    comparison, conversion from an unsigned integer, division and multiplication;
    the lemmas are the order facts its watermarks rely on. *)

From S2P Require Import Prelude.
From Stdlib Require Export SpecFloat.
Local Open Scope Z_scope.

Abbreviation float64 := spec_float.

Definition f_lt (x y : float64) : bool := SFltb x y.
Definition f_le (x y : float64) : bool := SFleb x y.
Definition f_mul (x y : float64) : float64 := SFmul 53 1024 x y.
Definition f_div (x y : float64) : float64 := SFdiv 53 1024 x y.
(** [float64(n)], rounded to nearest even *)
Definition f_of_Z (n : Z) : float64 := binary_normalize 53 1024 n 0 false.
(** [math.IsNaN], [math.IsInf(f, 0)] *)
Definition f_is_nan (x : float64) : bool :=
  match x with S754_nan => true | _ => false end.
Definition f_is_inf (x : float64) : bool :=
  match x with S754_infinity _ => true | _ => false end.

Definition f_zero : float64 := S754_zero false.

(** ** The order of the numbers, as a lexicographic key *)

Definition f_key (x : float64) : option (Z * Z * Z) :=
  match x with
  | S754_nan => None
  | S754_infinity s => Some (if s then -2 else 2, 0, 0)
  | S754_zero _ => Some (0, 0, 0)
  | S754_finite true m e => Some (-1, - e, Zneg m)
  | S754_finite false m e => Some (1, e, Zpos m)
  end.

Definition key_lt (a b : Z * Z * Z) : Prop :=
  a.1.1 < b.1.1 ∨ (a.1.1 = b.1.1 ∧
    (a.1.2 < b.1.2 ∨ (a.1.2 = b.1.2 ∧ a.2 < b.2))).

Ltac f_cases :=
  repeat match goal with x : float64 |- _ => destruct x as [[]|[]| |[]] end.

Lemma f_compare_key x y a b : f_key x = Some a → f_key y = Some b →
  match SFcompare x y with
  | Some Lt => key_lt a b
  | Some Eq => a = b
  | Some Gt => key_lt b a
  | None => False
  end.
Proof.
  unfold key_lt. f_cases; simpl; intros [= <-] [= <-]; simpl; try lia; try done;
    match goal with |- context [?e ?= ?e'] => destruct (Z.compare_spec e e') end;
    simpl; try lia;
    match goal with |- context [Pos.compare_cont Eq ?m ?m'] =>
      change (Pos.compare_cont Eq m m') with (Pos.compare m m');
      destruct (Pos.compare_spec m m') end; simpl; subst; try lia; done.
Qed.

Lemma f_compare_nan x y : f_key x = None ∨ f_key y = None → SFcompare x y = None.
Proof. intros [H|H]; f_cases; simpl in *; done. Qed.

Lemma f_lt_key x y : f_lt x y = true ↔
  ∃ a b, f_key x = Some a ∧ f_key y = Some b ∧ key_lt a b.
Proof.
  unfold f_lt, SFltb. destruct (f_key x) as [a|] eqn:Hx, (f_key y) as [b|] eqn:Hy.
  - pose proof (f_compare_key _ _ _ _ Hx Hy) as Hc. unfold key_lt in *.
    destruct (SFcompare x y) as [[]|]; try done; (split; [|intros (?&?&[= <-]&[= <-]&?)]);
      subst; try done; try lia; eauto.
  - rewrite f_compare_nan by auto. naive_solver.
  - rewrite f_compare_nan by auto. naive_solver.
  - rewrite f_compare_nan by auto. naive_solver.
Qed.

Lemma f_le_key x y : f_le x y = true ↔
  ∃ a b, f_key x = Some a ∧ f_key y = Some b ∧ ¬ key_lt b a.
Proof.
  unfold f_le, SFleb. destruct (f_key x) as [a|] eqn:Hx, (f_key y) as [b|] eqn:Hy.
  - pose proof (f_compare_key _ _ _ _ Hx Hy) as Hc. unfold key_lt in *.
    destruct (SFcompare x y) as [[]|]; try done; (split; [|intros (?&?&[= <-]&[= <-]&?)]);
      subst; try done; try lia; intros _; exists a, b || exists b, b; split_and!; try done; lia.
  - rewrite f_compare_nan by auto. naive_solver.
  - rewrite f_compare_nan by auto. naive_solver.
  - rewrite f_compare_nan by auto. naive_solver.
Qed.

Lemma f_lt_trans x y z : f_lt x y = true → f_lt y z = true → f_lt x z = true.
Proof.
  rewrite !f_lt_key. intros (a&b&?&?&?) (b'&c&?&?&?). simplify_eq.
  exists a, c. split_and!; try done. unfold key_lt in *. lia.
Qed.

Lemma f_le_lt_trans x y z : f_le x y = true → f_lt y z = true → f_lt x z = true.
Proof.
  rewrite f_le_key, !f_lt_key. intros (a&b&?&?&?) (b'&c&?&?&?). simplify_eq.
  exists a, c. split_and!; try done. unfold key_lt in *. lia.
Qed.

Lemma f_lt_le_trans x y z : f_lt x y = true → f_le y z = true → f_lt x z = true.
Proof.
  rewrite f_le_key, !f_lt_key. intros (a&b&?&?&?) (b'&c&?&?&?). simplify_eq.
  exists a, c. split_and!; try done. unfold key_lt in *. lia.
Qed.

(** Between two numbers exactly one of [x < y] and [y <= x] holds. *)
Lemma f_not_lt x y : f_is_nan x = false → f_is_nan y = false →
  f_lt x y = false ↔ f_le y x = true.
Proof.
  intros Hx Hy.
  assert (∀ z, f_is_nan z = false → ∃ a, f_key z = Some a) as Hkey.
  { intros z. f_cases; simpl; eauto; done. }
  destruct (Hkey x Hx) as [a Ha], (Hkey y Hy) as [b Hb].
  rewrite <-not_true_iff_false, f_lt_key, f_le_key. rewrite Ha, Hb. split.
  - intros Hn. exists b, a. split_and!; try done. intros ?. apply Hn. eauto.
  - intros (?&?&[= <-]&[= <-]&Hn) (?&?&[= <-]&[= <-]&?). done.
Qed.

Lemma f_lt_not_nan x y : f_lt x y = true → f_is_nan x = false ∧ f_is_nan y = false.
Proof. rewrite f_lt_key. intros (a&b&Ha&Hb&_). f_cases; done. Qed.
