(* ===== verification/TopkSpec.v ===== *)
(** * What package [heavykeeper] promises to package [eviction]

    The interface [Topk] of topk.go as a class of operations over a sketch type,
    and the contract its client relies on: a set of at most [k] tracked keys,
    that [Add] extends by at most the added key, [Remove] and [Reset] shrink, and
    [List] enumerates from the hottest to the coldest.  HeavyKeeper.v gives the
    instance; the run loop of the eviction manager is proved against the class. *)

From S2P Require Import Prelude MinHeapSpec.
Local Open Scope Z_scope.

(** [Item] *)
Record Item := mkItem { Item_Key : string; Item_Count : Z }.

Definition item_pair (it : Item) : string * Z := (Item_Key it, Item_Count it).

(** [it] is listed before [it']: the larger count first, then the smaller key. *)
Definition hotter (it it' : Item) : Prop := item_lt (item_pair it') (item_pair it) = true.

(** interface [Topk] *)
Class Topk (S : Type) := {
  Topk_Add : S → string → Z → option ((string * bool) * S);
  Topk_List : S → option (list Item);
  Topk_Len : S → Z;
  Topk_Contains : S → string → bool;
  Topk_Remove : S → string → option S;
  Topk_Fading : S → option S;
  Topk_Reset : S → option S;
  Topk_Restore : S → list Item → option S
}.

Class TopkLaws (S : Type) `{!Topk S} := {
  topk_inv : S → Prop;
  topk_hot : S → gmap string Z;
  topk_cap : S → Z;
  topk_size s : topk_inv s → Z.of_nat (size (topk_hot s)) <= topk_cap s;
  topk_count s key c : topk_inv s → topk_hot s !! key = Some c → 0 < c < 2 ^ 32;
  topk_add_spec s key incr : topk_inv s → in_u32 incr → ∃ r s',
    Topk_Add s key incr = Some (r, s') ∧ topk_inv s' ∧ topk_cap s' = topk_cap s ∧
    (∀ k, is_Some (topk_hot s' !! k) → is_Some (topk_hot s !! k) ∨ k = key);
  topk_list_spec s : topk_inv s → ∃ l,
    Topk_List s = Some l ∧ item_pair <$> l ≡ₚ map_to_list (topk_hot s) ∧
    StronglySorted hotter l;
  topk_len_spec s : topk_inv s → Topk_Len s = Z.of_nat (size (topk_hot s));
  topk_contains_spec s key : topk_inv s →
    Topk_Contains s key = bool_decide (is_Some (topk_hot s !! key));
  topk_remove_spec s key : topk_inv s → ∃ s',
    Topk_Remove s key = Some s' ∧ topk_inv s' ∧ topk_cap s' = topk_cap s ∧
    topk_hot s' = delete key (topk_hot s);
  topk_fading_spec s : topk_inv s → ∃ s',
    Topk_Fading s = Some s' ∧ topk_inv s' ∧ topk_cap s' = topk_cap s ∧
    topk_hot s' = omap halve (topk_hot s);
  topk_reset_spec s : topk_inv s → ∃ s',
    Topk_Reset s = Some s' ∧ topk_inv s' ∧ topk_cap s' = topk_cap s ∧ topk_hot s' = ∅;
  topk_restore_spec s items : topk_inv s → Forall (λ it, in_u32 (Item_Count it)) items →
    ∃ s', Topk_Restore s items = Some s' ∧ topk_inv s' ∧ topk_cap s' = topk_cap s ∧
    (∀ k, is_Some (topk_hot s' !! k) → k ∈ Item_Key <$> items)
}.
