(* ===== verification/HeavyKeeper.v ===== *)
(** * Package [heavykeeper]: the top-k sketch (heavykeeper.go)

    [depth] rows of [width] buckets, each a fingerprint with a count, in front of
    a keyed min-heap of the [k] hottest keys.  The heap is any implementation of
    MinHeapSpec.v's interface; the hash functions (package murmur3), [math.Pow]
    and the random stream [rand.New(rand.NewSource(0))] are parameters, the class
    [Env].  Every operation runs under the sketch's mutex, so a run of the program
    is a sequence of the operations below.

    This file holds the operations and what each does to the sketch; the claims
    about the counts over whole runs are in HeavyKeeperCounts.v. *)

From S2P Require Import Prelude MinHeapSpec TopkSpec Float64.
Local Open Scope Z_scope.

(** The code of other packages the sketch calls. [rand_Float64 n] is the [n]-th
    value drawn from the generator of seed 0. *)
Class Env := {
  murmur3_Sum32 : string → Z;
  murmur3_SeedSum32 : Z → string → Z;
  math_Pow : float64 → float64 → float64;
  rand_Float64 : nat → float64
}.

Definition LOOKUP_TABLE : Z := 256.

(** ** Buckets *)

Record bucket := mkBucket { fingerprint : Z; count : Z }.

Definition bucket_Get (b : bucket) : Z * Z := (fingerprint b, count b).
Definition bucket_Set (b : bucket) (fp c : Z) : bucket := mkBucket fp c.
Definition bucket_Inc (b : bucket) (val : Z) : Z * bucket :=
  let c := u32 (count b + val) in (c, mkBucket (fingerprint b) c).

Definition max (x y : Z) : Z := if x >? y then x else y.

(** ** The sketch *)

Record HeavyKeeper (T : Type) := mkHeavyKeeper {
  k : Z;
  width : Z;
  depth : Z;
  decay : float64;
  lookupTable : list float64;
  minCount : Z;
  r : nat;                       (* values drawn so far *)
  buckets : list (list bucket);
  minHeap : T;
  total : Z
}.
Arguments mkHeavyKeeper {T}.
Arguments k {T}. Arguments width {T}. Arguments depth {T}. Arguments decay {T}.
Arguments lookupTable {T}. Arguments minCount {T}. Arguments r {T}.
Arguments buckets {T}. Arguments minHeap {T}. Arguments total {T}.

Section code.
Context {T N : Type} `{!KeyedHeap T N} `{!Env}.
Implicit Types t : HeavyKeeper T.

Definition set_minHeap t (h : T) : HeavyKeeper T :=
  mkHeavyKeeper (k t) (width t) (depth t) (decay t) (lookupTable t) (minCount t)
    (r t) (buckets t) h (total t).
Definition set_sketch t (rows : list (list bucket)) (rnd : nat) (tot : Z) : HeavyKeeper T :=
  mkHeavyKeeper (k t) (width t) (depth t) (decay t) (lookupTable t) (minCount t)
    rnd rows (minHeap t) tot.

(** [make([]bucket, width)], zeroed *)
Definition zero_row (w : Z) : list bucket := replicate (Z.to_nat w) (mkBucket 0 0).

Definition NewHeavyKeeper (k width depth : Z) (decay : float64) (min : Z) : HeavyKeeper T :=
  let arrays := replicate (Z.to_nat depth) (zero_row width) in
  let table := (λ i, math_Pow decay (f_of_Z (Z.of_nat i))) <$> seq 0 (Z.to_nat LOOKUP_TABLE) in
  mkHeavyKeeper k width depth decay table min 0%nat arrays (kh_new (N:=N) k) 0.

(** [for localIncr := incr; localIncr > 0; localIncr--]: the collision branch of
    [add] on bucket [b]. *)
Fixpoint decay_loop (table : list float64) (itemFingerprint : Z) (localIncr : nat)
    (b : bucket) (rnd : nat) (maxCount : Z) : option (bucket * nat * Z) :=
  match localIncr with
  | O => Some (b, rnd, maxCount)
  | S n =>
      let curCount := count b in
      decay ← (if curCount <? LOOKUP_TABLE then nth_int table curCount
               else nth_int table (LOOKUP_TABLE - 1));
      if f_lt (rand_Float64 rnd) decay then
        let b1 := mkBucket (fingerprint b) (u32 (count b - 1)) in
        if count b1 =? 0 then
          Some (mkBucket itemFingerprint (Z.of_nat localIncr), S rnd,
                max maxCount (Z.of_nat localIncr))
        else decay_loop table itemFingerprint n b1 (S rnd) maxCount
      else decay_loop table itemFingerprint n b (S rnd) maxCount
  end.

(** The body of [for i, row := range topk.buckets]: [None] is the division by a
    zero width or an index out of range. *)
Definition row_step (w : Z) (table : list float64) (key : string) (itemFingerprint incr : Z)
    (i : nat) (row : list bucket) (rnd : nat) (maxCount : Z) :
    option (list bucket * nat * Z) :=
  if w =? 0 then None else
  let bucketNumber := murmur3_SeedSum32 (u32 (Z.of_nat i)) key mod w in
  b ← nth_int row bucketNumber;
  if count b =? 0 then
    Some (<[Z.to_nat bucketNumber:=mkBucket itemFingerprint incr]> row, rnd, max maxCount incr)
  else if fingerprint b =? itemFingerprint then
    let c := u32 (count b + incr) in
    Some (<[Z.to_nat bucketNumber:=mkBucket (fingerprint b) c]> row, rnd, max maxCount c)
  else
    '(b', rnd', m') ← decay_loop table itemFingerprint (Z.to_nat incr) b rnd maxCount;
    Some (<[Z.to_nat bucketNumber:=b']> row, rnd', m').

Fixpoint rows_loop (w : Z) (table : list float64) (key : string) (itemFingerprint incr : Z)
    (i : nat) (rows : list (list bucket)) (rnd : nat) (maxCount : Z) :
    option (list (list bucket) * nat * Z) :=
  match rows with
  | [] => Some ([], rnd, maxCount)
  | row :: rows =>
      '(row', rnd', m') ← row_step w table key itemFingerprint incr i row rnd maxCount;
      '(rows', rnd'', m'') ← rows_loop w table key itemFingerprint incr (S i) rows rnd' m';
      Some (row' :: rows', rnd'', m'')
  end.

(** The part of [add] after the rows, on the sketch with the new [total]. *)
Definition add_heap t (key : string) (maxCount : Z) : option ((string * bool) * HeavyKeeper T) :=
  if maxCount <? minCount t then Some ((EmptyString, false), t) else
  min ← kh_min (N:=N) (minHeap t);
  if (kh_len (N:=N) (minHeap t) =? k t) && (maxCount <? min) then Some ((EmptyString, false), t) else
  '(itemHeapIdx, itemHeapExist) ← kh_find (N:=N) (minHeap t) key;
  if (itemHeapExist : bool) then
    h ← kh_fix (N:=N) (minHeap t) itemHeapIdx maxCount;
    Some ((EmptyString, true), set_minHeap t h)
  else
    '(expelled, h) ← kh_upsert (minHeap t) key maxCount;
    exp ← match expelled with Some n => kh_node_key h n | None => Some EmptyString end;
    Some ((exp, true), set_minHeap t h).

Definition add t (key : string) (incr : Z) : option ((string * bool) * HeavyKeeper T) :=
  let itemFingerprint := murmur3_Sum32 key in
  '(rows, rnd, maxCount) ←
    rows_loop (width t) (lookupTable t) key itemFingerprint incr 0 (buckets t) (r t) 0;
  add_heap (set_sketch t rows rnd (u64 (total t + incr))) key maxCount.

Definition Add t (key : string) (incr : Z) := add t key incr.

Definition List t : option (list Item) :=
  items ← kh_sorted (N:=N) (minHeap t);
  Some ((λ it : string * Z, mkItem it.1 it.2) <$> (items : list (string * Z))).

Definition Len t : Z := kh_len (N:=N) (minHeap t).
Definition Contains t (key : string) : bool := kh_contains (N:=N) (minHeap t) key.
Definition Remove t (key : string) : option (HeavyKeeper T) :=
  '(_, h) ← kh_remove (N:=N) (minHeap t) key; Some (set_minHeap t h).

Definition halve_bucket (b : bucket) : bucket :=
  mkBucket (fingerprint b) (Z.shiftr (count b) 1).
Definition Fading t : option (HeavyKeeper T) :=
  h ← kh_scale_down (N:=N) (minHeap t);
  Some (set_minHeap
    (set_sketch t ((λ row : list bucket, halve_bucket <$> row) <$> buckets t)
       (r t) (Z.shiftr (total t) 1)) h).

Definition Total t : Z := total t.

(** [clear(row)] zeroes every bucket of the row. *)
Definition clear_row (row : list bucket) : list bucket := (λ _, mkBucket 0 0) <$> row.
Definition reset t : HeavyKeeper T :=
  set_minHeap (set_sketch t (clear_row <$> buckets t) 0%nat 0) (kh_new (N:=N) (k t)).
Definition Reset_ t : HeavyKeeper T := reset t.

(** The items [Restore] skips *)
Definition restorable (it : Item) : bool :=
  negb (String.eqb (Item_Key it) EmptyString || (Item_Count it =? 0)).
Fixpoint restore_loop (items : list Item) t : option (HeavyKeeper T) :=
  match items with
  | [] => Some t
  | it :: items =>
      if restorable it then
        '(_, t') ← add t (Item_Key it) (Item_Count it); restore_loop items t'
      else restore_loop items t
  end.
Definition Restore_ t (items : list Item) : option (HeavyKeeper T) :=
  restore_loop items (reset t).

#[export] Instance HeavyKeeper_Topk : Topk (HeavyKeeper T) := {
  Topk_Add := Add; Topk_List := List; Topk_Len := Len; Topk_Contains := Contains;
  Topk_Remove := Remove; Topk_Fading := Fading; Topk_Reset := λ t, Some (Reset_ t);
  Topk_Restore := Restore_
}.
End code.

(** ** What the operations maintain *)

Section spec.
Context {T N : Type} `{!KeyedHeap T N} `{!KeyedHeapLaws T N} `{!Env}.
Implicit Types t : HeavyKeeper T.

Abbreviation kinv := (kh_inv (T:=T) (N:=N)).
Abbreviation kcontents := (kh_contents (T:=T) (N:=N)).
Abbreviation kcap := (kh_cap (T:=T) (N:=N)).

(** The tracked keys with their counts *)
Definition hot t : gmap string Z := kcontents (minHeap t).

(** The table of decay probabilities of a sketch *)
Definition decay_table (d : float64) : list float64 :=
  (λ i, math_Pow d (f_of_Z (Z.of_nat i))) <$> seq 0 (Z.to_nat LOOKUP_TABLE).

Definition row_wf (w : Z) (row : list bucket) : Prop :=
  length row = Z.to_nat w ∧ Forall (λ b, in_u32 (count b)) row.

Record wf t : Prop := {
  wf_k : in_u32 (k t);
  wf_width : 0 < width t;
  wf_rows : length (buckets t) = Z.to_nat (depth t);
  wf_row : Forall (row_wf (width t)) (buckets t);
  wf_table : lookupTable t = decay_table (decay t);
  wf_heap : kinv (minHeap t);
  wf_cap : kcap (minHeap t) = k t;
  wf_total : in_u64 (total t)
}.

(** The parameters of a sketch never change. *)
Definition same_params t t' : Prop :=
  k t' = k t ∧ width t' = width t ∧ depth t' = depth t ∧ decay t' = decay t ∧
  minCount t' = minCount t.

(** ** The rows *)

(** The bucket of [key] in row [i] *)
Definition slot (w : Z) (i : nat) (key : string) : nat :=
  Z.to_nat (murmur3_SeedSum32 (u32 (Z.of_nat i)) key mod w).

(** What the rows say about [key]: the largest count among its own buckets. *)
Definition row_estimate (w : Z) (key : string) (i : nat) (row : list bucket) : Z :=
  match row !! slot w i key with
  | Some b => if fingerprint b =? murmur3_Sum32 key then count b else 0
  | None => 0
  end.
Fixpoint estimate (w : Z) (key : string) (i : nat) (rows : list (list bucket)) : Z :=
  match rows with
  | [] => 0
  | row :: rows => Z.max (row_estimate w key i row) (estimate w key (S i) rows)
  end.

(** What an observation of fingerprint [fp], [incr] times, does to a bucket: it
    counts, or it decays the bucket of another key, which it takes over only once
    that key's count has been brought down to zero. *)
Inductive bucket_step (fp incr : Z) (b : bucket) : bucket → Prop :=
| bucket_empty : count b = 0 → bucket_step fp incr b (mkBucket fp incr)
| bucket_own : count b ≠ 0 → fingerprint b = fp →
    bucket_step fp incr b (mkBucket fp (u32 (count b + incr)))
| bucket_decay s : count b ≠ 0 → fingerprint b ≠ fp → 0 <= s <= incr → s < count b →
    bucket_step fp incr b (mkBucket (fingerprint b) (count b - s))
| bucket_take n : count b ≠ 0 → fingerprint b ≠ fp → 1 <= n → count b + n <= incr + 1 →
    bucket_step fp incr b (mkBucket fp n).

Definition row_stepped (w : Z) (key : string) (incr : Z) (i : nat)
    (row row' : list bucket) : Prop :=
  ∃ b b', row !! slot w i key = Some b ∧ row' = <[slot w i key:=b']> row ∧
          bucket_step (murmur3_Sum32 key) incr b b'.

(** Every row is stepped, and the loop's [maxCount] is the estimate of the new rows. *)
Definition rows_stepped (w : Z) (key : string) (incr : Z) (i : nat)
    (rows rows' : list (list bucket)) : Prop :=
  length rows' = length rows ∧
  ∀ j row row', rows !! j = Some row → rows' !! j = Some row' →
    row_stepped w key incr (i + j) row row'.

(** What the heap does with the estimate of the key just added. *)
Inductive add_heap_spec (cap min : Z) (m : gmap string Z) (key : string) (est : Z) :
    string * bool → gmap string Z → Prop :=
| heap_below : est < min → add_heap_spec cap min m key est (EmptyString, false) m
| heap_cold k0 c0 : min <= est → Z.of_nat (size m) = cap → least m k0 c0 → est < c0 →
    add_heap_spec cap min m key est (EmptyString, false) m
| heap_enter rk m' : min <= est →
    (Z.of_nat (size m) < cap ∨ ∀ k0 c0, least m k0 c0 → c0 <= est) →
    upsert_spec cap m key est rk m' →
    add_heap_spec cap min m key est (default EmptyString rk, true) m'.

(** When the estimate [est] of a key reaches [minCount] and the heap has room for the
    key, or an entry of strictly lower count to expel. *)
Definition enters_heap (cap min : Z) (m : gmap string Z) (est : Z) : Prop :=
  min <= est ∧
  (Z.of_nat (size m) < cap ∨ 0 < cap ∧ ∃ k0 c0, least m k0 c0 ∧ c0 < est).

(** When [Add] says the key entered: an equal count is enough for that. *)
Definition said_to_enter (cap min : Z) (m : gmap string Z) (est : Z) : Prop :=
  min <= est ∧
  (Z.of_nat (size m) < cap ∨ ∀ k0 c0, least m k0 c0 → c0 <= est).

Definition items_ok (items : list Item) : Prop := Forall (λ it, in_u32 (Item_Count it)) items.

(** ** The rows: lemmas *)

Lemma max_max x y : max x y = Z.max x y.
Proof. unfold max. destruct (Z.gtb_spec x y); lia. Qed.

Lemma table_lookup d i : 0 <= i < LOOKUP_TABLE → is_Some (nth_int (decay_table d) i).
Proof.
  unfold LOOKUP_TABLE, nth_int, decay_table. intros Hi. rewrite decide_True by lia.
  apply lookup_lt_is_Some. rewrite length_fmap, length_seq. unfold LOOKUP_TABLE. lia.
Qed.

(** The decay loop cannot index outside the table or below zero; it either takes
    [s] off the bucket, or frees it and claims it with what is left of [incr]. *)
Lemma decay_loop_run d fp n b rnd m : in_u32 (count b) → count b ≠ 0 → 0 <= m →
  ∃ b' rnd' m', decay_loop (decay_table d) fp n b rnd m = Some (b', rnd', m') ∧
    ((∃ s, 0 <= s <= Z.of_nat n ∧ s < count b ∧
        b' = mkBucket (fingerprint b) (count b - s) ∧ m' = m) ∨
     (∃ c, 1 <= c ∧ count b + c <= Z.of_nat n + 1 ∧ b' = mkBucket fp c ∧ m' = Z.max m c)).
Proof.
  revert b rnd m. induction n as [|n IH]; intros b rnd m Hb Hb0 Hm; cbn [decay_loop].
  { exists b, rnd, m. split; [done|]. left. exists 0.
    destruct b as [f c]. cbn [count fingerprint] in *. rewrite Z.sub_0_r. split_and!; width || done. }
  assert (is_Some (if count b <? LOOKUP_TABLE then nth_int (decay_table d) (count b)
                   else nth_int (decay_table d) (LOOKUP_TABLE - 1))) as [p ->].
  { destruct (Z.ltb_spec (count b) LOOKUP_TABLE); apply table_lookup;
      unfold LOOKUP_TABLE, in_u32 in *; lia. }
  cbn [mbind option_bind]. destruct (f_lt _ _).
  - rewrite (u32_id (count b - 1)) by width. cbn [count].
    destruct (Z.eqb_spec (count b - 1) 0) as [H1|H1].
    + eexists _, _, _. split; [done|]. right. exists (Z.of_nat (S n)). rewrite max_max.
      split_and!; lia || done.
    + destruct (IH (mkBucket (fingerprint b) (count b - 1)) (S rnd) m) as
        (b' & rnd' & m' & Hrun & Hcase); cbn [count] in *; [width|done|done|].
      exists b', rnd', m'. split; [done|].
      destruct Hcase as [(s & ? & ? & -> & ->)|(c & ? & ? & -> & ->)].
      * left. exists (s + 1). cbn [fingerprint count].
        split_and!; try lia. f_equal. lia.
      * right. exists c. split_and!; lia || done.
  - destruct (IH b (S rnd) m) as (b' & rnd' & m' & Hrun & Hcase); try done.
    exists b', rnd', m'. split; [done|].
    destruct Hcase as [(s & ? & ? & -> & ->)|(c & ? & ? & -> & ->)];
      [left; exists s|right; exists c]; split_and!; lia || done.
Qed.

Lemma slot_lt w i key (row : list bucket) : 0 < w → length row = Z.to_nat w →
  ∃ b, nth_int row (murmur3_SeedSum32 (u32 (Z.of_nat i)) key mod w) = Some b ∧
       row !! slot w i key = Some b.
Proof.
  intros Hw Hlen. unfold slot, nth_int.
  pose proof (Z.mod_pos_bound (murmur3_SeedSum32 (u32 (Z.of_nat i)) key) w Hw).
  rewrite decide_True by lia.
  destruct (lookup_lt_is_Some_2 row
    (Z.to_nat (murmur3_SeedSum32 (u32 (Z.of_nat i)) key mod w))) as [b Hb]; [lia|]. eauto.
Qed.

Lemma row_estimate_insert w key i row b b' : row !! slot w i key = Some b →
  row_estimate w key i (<[slot w i key:=b']> row) =
    if fingerprint b' =? murmur3_Sum32 key then count b' else 0.
Proof.
  intros Hb. unfold row_estimate.
  by rewrite list_lookup_insert_eq by (by eapply lookup_lt_Some).
Qed.

Lemma row_step_run w d key incr i row rnd m :
  0 < w → in_u32 incr → 0 <= m → row_wf w row →
  ∃ row' rnd' m',
    row_step w (decay_table d) key (murmur3_Sum32 key) incr i row rnd m = Some (row', rnd', m') ∧
    row_stepped w key incr i row row' ∧ m' = Z.max m (row_estimate w key i row').
Proof.
  intros Hw Hincr Hm [Hlen Hcounts]. unfold row_step.
  rewrite (proj2 (Z.eqb_neq w 0)) by lia. cbn zeta.
  destruct (slot_lt w i key row Hw Hlen) as (b & -> & Hb). cbn [mbind option_bind].
  assert (in_u32 (count b)) as Hcb
    by (eapply (Forall_lookup_1 (λ b, in_u32 (count b))); eassumption).
  fold (slot w i key). destruct (Z.eqb_spec (count b) 0) as [Hz|Hz].
  { eexists _, _, _. split; [done|]. split.
    - eexists b, _. split_and!; [done|done|]. by constructor.
    - rewrite (row_estimate_insert _ _ _ _ _ _ Hb). cbn. rewrite Z.eqb_refl. apply max_max. }
  destruct (Z.eqb_spec (fingerprint b) (murmur3_Sum32 key)) as [Hfp|Hfp].
  { eexists _, _, _. split; [done|]. split.
    - eexists b, _. split_and!; [done|done|]. rewrite Hfp. by constructor.
    - rewrite (row_estimate_insert _ _ _ _ _ _ Hb). cbn. rewrite Hfp, Z.eqb_refl. apply max_max. }
  destruct (decay_loop_run d (murmur3_Sum32 key) (Z.to_nat incr) b rnd m Hcb Hz Hm)
    as (b' & rnd' & m' & -> & Hcase). cbn [mbind option_bind].
  rewrite Z2Nat.id in Hcase by width.
  eexists _, _, _. split; [done|]. split.
  - exists b, b'. split_and!; [done|done|].
    destruct Hcase as [(s & ? & ? & -> & _)|(c & ? & ? & -> & _)]; by constructor.
  - rewrite (row_estimate_insert _ _ _ _ _ _ Hb).
    destruct Hcase as [(s & ? & ? & -> & ->)|(c & ? & ? & -> & ->)]; cbn [fingerprint count].
    + rewrite (proj2 (Z.eqb_neq _ _) Hfp). lia.
    + by rewrite Z.eqb_refl.
Qed.

Lemma bucket_step_range fp incr b b' : in_u32 incr → in_u32 (count b) →
  bucket_step fp incr b b' → in_u32 (count b').
Proof. intros Hi Hb []; cbn [count]; [done|apply u32_range|width..]. Qed.

Lemma row_stepped_wf w key incr i row row' : in_u32 incr → row_wf w row →
  row_stepped w key incr i row row' → row_wf w row'.
Proof.
  intros Hi [Hlen Hc] (b & b' & Hb & -> & Hstep). split; [by rewrite length_insert|].
  apply Forall_insert; [done|]. eapply bucket_step_range; [done| |done].
  eapply (Forall_lookup_1 (λ b, in_u32 (count b))); eassumption.
Qed.

Lemma row_estimate_range w key i row : row_wf w row → in_u32 (row_estimate w key i row).
Proof.
  intros [_ Hc]. unfold row_estimate. destruct (row !! _) as [b|] eqn:Hb; [|width].
  case_match; [|width]. eapply (Forall_lookup_1 (λ b, in_u32 (count b))); eassumption.
Qed.

Lemma estimate_range w key i rows : Forall (row_wf w) rows → in_u32 (estimate w key i rows).
Proof.
  intros Hrows. revert i. induction Hrows as [|row rows Hrow _ IH]; intros i; cbn [estimate].
  - width.
  - pose proof (row_estimate_range w key i row Hrow). pose proof (IH (S i)). width.
Qed.

Lemma rows_loop_run w d key incr i rows rnd m :
  0 < w → in_u32 incr → 0 <= m → Forall (row_wf w) rows →
  ∃ rows' rnd',
    rows_loop w (decay_table d) key (murmur3_Sum32 key) incr i rows rnd m =
      Some (rows', rnd', Z.max m (estimate w key i rows')) ∧
    rows_stepped w key incr i rows rows' ∧ Forall (row_wf w) rows'.
Proof.
  intros Hw Hincr Hm Hrows. revert i rnd m Hm.
  induction Hrows as [|row rows Hrow _ IH]; intros i rnd m Hm; cbn [rows_loop].
  { exists [], rnd. cbn [estimate]. rewrite Z.max_l by done. split_and!; [done| |constructor].
    by split. }
  destruct (row_step_run w d key incr i row rnd m) as (row' & rnd' & m' & -> & Hstep & ->);
    try done. cbn [mbind option_bind].
  destruct (IH (S i) rnd' (Z.max m (row_estimate w key i row'))) as
    (rows' & rnd'' & -> & [Hlen Hall] & Hwf); [lia|]. cbn [mbind option_bind].
  exists (row' :: rows'), rnd''. split; [cbn [estimate]; by rewrite Z.max_assoc|]. split.
  - split; [by cbn; rewrite Hlen|]. intros [|j] r0 r0'; cbn; intros; simplify_eq.
    + by rewrite Nat.add_0_r.
    + rewrite <-Nat.add_succ_comm. by eapply Hall.
  - constructor; [|done]. by eapply row_stepped_wf.
Qed.

(** ** The heap of the hottest keys: lemmas *)

Lemma wf_hot_size t : wf t → Z.of_nat (size (hot t)) <= k t.
Proof. intros Hwf. rewrite <-(wf_cap t Hwf). apply kh_inv_size, Hwf. Qed.

Lemma wf_hot_count t key c : wf t → hot t !! key = Some c → in_u32 c.
Proof. intros Hwf. apply kh_inv_count, Hwf. Qed.

Lemma set_minHeap_wf t h : wf t → kinv h → kcap h = k t → wf (set_minHeap t h).
Proof. intros [] ? ?. by split. Qed.

Lemma add_heap_run t key est : wf t → in_u32 est →
  ∃ res h, add_heap t key est = Some (res, set_minHeap t h) ∧ wf (set_minHeap t h) ∧
    add_heap_spec (k t) (minCount t) (hot t) key est res (kcontents h).
Proof.
  intros Hwf Hest. pose proof (wf_heap t Hwf) as Hinv. unfold add_heap.
  assert (set_minHeap t (minHeap t) = t) as Hid by (by destruct t).
  destruct (Z.ltb_spec est (minCount t)) as [Hmin|Hmin].
  { exists (EmptyString, false), (minHeap t). rewrite Hid.
    split_and!; [done|done|by constructor]. }
  destruct (kh_min_spec (N:=N) (minHeap t) Hinv) as (c & -> & Hc). cbn [mbind option_bind].
  rewrite (kh_len_spec (N:=N)) by done. fold (hot t) in *.
  destruct ((Z.of_nat (size (hot t)) =? k t) && (est <? c)) eqn:Hcold.
  { apply andb_true_iff in Hcold as [Hfull%Z.eqb_eq Hlt%Z.ltb_lt].
    exists (EmptyString, false), (minHeap t). rewrite Hid. split_and!; [done|done|].
    destruct Hc as [[_ ->]|[k0 Hk0]]; [width|]. by eapply heap_cold. }
  assert (Z.of_nat (size (hot t)) < k t ∨ ∀ k0 c0, least (hot t) k0 c0 → c0 <= est) as Hroom.
  { pose proof (wf_hot_size t Hwf). apply andb_false_iff in Hcold as [Hne%Z.eqb_neq|Hge%Z.ltb_ge].
    - left. lia.
    - right. intros k0 c0 Hl. destruct Hc as [[Hm _]|[k1 Hk1]].
      + destruct Hl as [Hk0 _]. by rewrite Hm, lookup_empty in Hk0.
      + by destruct (least_unique _ _ _ _ _ Hl Hk1) as [_ ->]. }
  destruct (kh_find_spec (N:=N) (minHeap t) key Hinv) as [i Hf]. rewrite Hf.
  cbn [mbind option_bind]. fold (hot t) in *. case_bool_decide as Hex.
  - destruct Hex as [c0 Hc0].
    destruct (kh_fix_spec (N:=N) (minHeap t) key i est Hinv Hest Hf) as (h & -> & Hh & Hcap & Hcont).
    cbn [mbind option_bind]. eexists _, h. split_and!; [done| |].
    + apply set_minHeap_wf; [done|done|]. rewrite Hcap. apply Hwf.
    + rewrite Hcont. apply (heap_enter _ _ _ _ _ None); [done|done|]. by eapply upsert_update.
  - destruct (kh_upsert_spec (minHeap t) key est Hinv Hest) as
      (e & h & rk & -> & Hh & Hcap & Hrk & Hspec).
    cbn [mbind option_bind]. rewrite (wf_cap t Hwf) in Hcap, Hspec.
    exists (default EmptyString rk, true), h. split_and!.
    + destruct e as [n|], rk as [k'|]; try done. injection Hrk as ->. done.
    + by apply set_minHeap_wf.
    + by apply heap_enter.
Qed.

(** ** What each operation does *)

Lemma set_sketch_wf t rows rnd tot : wf t → length rows = length (buckets t) →
  Forall (row_wf (width t)) rows → in_u64 tot → wf (set_sketch t rows rnd tot).
Proof. intros [] ? ? ?. split; cbn; try done. congruence. Qed.

Lemma add_run t key incr : wf t → in_u32 incr → ∃ res t',
  add t key incr = Some (res, t') ∧ wf t' ∧ same_params t t' ∧
  rows_stepped (width t) key incr 0 (buckets t) (buckets t') ∧
  total t' = u64 (total t + incr) ∧
  add_heap_spec (k t) (minCount t) (hot t) key (estimate (width t) key 0 (buckets t'))
    res (hot t').
Proof.
  intros Hwf Hincr. unfold add. cbn zeta. rewrite (wf_table t Hwf).
  destruct (rows_loop_run (width t) (decay t) key incr 0 (buckets t) (r t) 0)
    as (rows & rnd & -> & Hstep & Hrows); [apply Hwf|done|done|apply Hwf|].
  cbn [mbind option_bind].
  pose proof (estimate_range (width t) key 0 rows Hrows) as Hest.
  rewrite Z.max_r by width.
  destruct (add_heap_run (set_sketch t rows rnd (u64 (total t + incr))) key
    (estimate (width t) key 0 rows)) as (res & h & -> & Hwf' & Hspec); [|done|].
  { apply set_sketch_wf; [done|apply Hstep|done|apply u64_range]. }
  eexists res, _. split; [done|]. split; [done|]. by split_and!.
Qed.

Lemma NewHeavyKeeper_wf k0 w d dec min : in_u32 k0 → 0 < w → 0 <= d →
  wf (NewHeavyKeeper (N:=N) k0 w d dec min) ∧
  hot (NewHeavyKeeper (N:=N) k0 w d dec min) = ∅.
Proof.
  intros Hk Hw Hd. destruct (kh_new_spec (T:=T) (N:=N) k0 Hk) as (Hinv & Hcont & Hcap).
  split; [|done]. split; cbn; try done.
  - by rewrite length_replicate.
  - apply Forall_replicate. split; [apply length_replicate|].
    apply Forall_replicate. done.
Qed.

Lemma List_run t : wf t → ∃ l, List (N:=N) t = Some l ∧
  item_pair <$> l ≡ₚ map_to_list (hot t) ∧ StronglySorted hotter l.
Proof.
  intros Hwf. destruct (kh_sorted_spec (N:=N) (minHeap t) (wf_heap t Hwf)) as (l & Hl & Hp & Hs).
  unfold List. rewrite Hl. eexists. split; [done|]. split.
  - rewrite <-Hp, <-list_fmap_compose. apply reflexive_eq. clear.
    induction l as [|[key c] l IH]; [done|]. rewrite fmap_cons. by f_equal.
  - clear Hl Hp. induction Hs as [|[key c] l Hs IH Hall]; [constructor|].
    rewrite fmap_cons. constructor; [done|]. apply Forall_fmap. eapply Forall_impl; [done|]. by intros [].
Qed.

Lemma sketch_Len_run t : wf t → Len (N:=N) t = Z.of_nat (size (hot t)).
Proof. intros Hwf. apply kh_len_spec, Hwf. Qed.

Lemma sketch_Contains_run t key : wf t →
  Contains (N:=N) t key = bool_decide (is_Some (hot t !! key)).
Proof. intros Hwf. apply kh_contains_spec, Hwf. Qed.

Lemma sketch_Remove_run t key : wf t → ∃ t', Remove (N:=N) t key = Some t' ∧ wf t' ∧
  same_params t t' ∧ buckets t' = buckets t ∧ total t' = total t ∧
  hot t' = delete key (hot t).
Proof.
  intros Hwf. unfold Remove.
  destruct (kh_remove_spec (N:=N) (minHeap t) key (wf_heap t Hwf)) as (h & -> & Hh & Hcap & Hc).
  cbn [mbind option_bind]. eexists. split; [done|]. split; [|by split_and!].
  apply set_minHeap_wf; [done|done|]. rewrite Hcap. apply Hwf.
Qed.

Lemma Fading_run t : wf t → ∃ t', Fading (N:=N) t = Some t' ∧ wf t' ∧ same_params t t' ∧
  buckets t' = (λ row : list bucket, halve_bucket <$> row) <$> buckets t ∧
  total t' = Z.shiftr (total t) 1 ∧ hot t' = omap halve (hot t).
Proof.
  intros Hwf. unfold Fading.
  destruct (kh_scale_down_spec (N:=N) (minHeap t) (wf_heap t Hwf)) as (h & -> & Hh & Hcap & Hc).
  cbn [mbind option_bind]. eexists. split; [done|]. split; [|by split_and!].
  apply set_minHeap_wf; [|done|rewrite Hcap; apply Hwf].
  apply set_sketch_wf; [done|by rewrite length_fmap| |].
  - apply Forall_fmap. eapply Forall_impl; [apply Hwf|]. intros row [Hlen Hcounts]. split.
    + by rewrite length_fmap.
    + apply Forall_fmap. eapply Forall_impl; [exact Hcounts|].
      intros b Hb. by apply in_u32_shiftr.
  - pose proof (wf_total t Hwf). rewrite shiftr1_div.
    pose proof (Z.div_mod (total t) 2). pose proof (Z.mod_pos_bound (total t) 2). width.
Qed.

Lemma clear_rows rows w : Forall (row_wf w) rows →
  clear_row <$> rows = replicate (length rows) (zero_row w).
Proof.
  induction 1 as [|row rows [Hlen _] _ IH]; [done|]. cbn. rewrite IH. f_equal.
  unfold clear_row, zero_row. rewrite <-Hlen. clear Hlen. induction row as [|b row IHr]; [done|].
  cbn. by rewrite IHr.
Qed.

Lemma reset_run t : wf t →
  reset (N:=N) t = NewHeavyKeeper (N:=N) (k t) (width t) (depth t) (decay t) (minCount t).
Proof.
  intros Hwf. unfold reset, NewHeavyKeeper, set_minHeap, set_sketch. cbn.
  rewrite (clear_rows _ _ (wf_row t Hwf)), (wf_rows t Hwf), (wf_table t Hwf). done.
Qed.

Lemma wf_depth_irrelevant t : wf t → Z.to_nat (depth t) = length (buckets t).
Proof. intros Hwf. by rewrite (wf_rows t Hwf). Qed.

Lemma reset_wf t : wf t → wf (reset (N:=N) t) ∧ same_params t (reset (N:=N) t) ∧
  hot (reset (N:=N) t) = ∅.
Proof.
  intros Hwf. destruct (kh_new_spec (T:=T) (N:=N) (k t) (wf_k t Hwf)) as (Hinv & Hcont & Hcap).
  split; [|by split_and!]. apply set_minHeap_wf; [|done|done].
  apply set_sketch_wf; [done|by rewrite length_fmap| |done].
  rewrite (clear_rows _ _ (wf_row t Hwf)). apply Forall_replicate.
  split; [apply length_replicate|]. by apply Forall_replicate.
Qed.

Lemma same_params_trans t1 t2 t3 : same_params t1 t2 → same_params t2 t3 → same_params t1 t3.
Proof. intros (?&?&?&?&?) (?&?&?&?&?). repeat split; congruence. Qed.

Lemma upsert_spec_keys cap m key c rk m' key' : upsert_spec cap m key c rk m' →
  is_Some (m' !! key') → is_Some (m !! key') ∨ key' = key.
Proof.
  destruct (decide (key' = key)) as [->|Hne]; [by right|]. intros [] Hs; left; try done.
  - by rewrite lookup_insert_ne in Hs.
  - by rewrite lookup_insert_ne in Hs.
  - rewrite lookup_insert_ne in Hs by done. destruct Hs as [c1 Hs].
    apply lookup_delete_Some in Hs as [_ Hs]. eauto.
Qed.

Lemma add_heap_spec_keys cap min m key est res m' key' :
  add_heap_spec cap min m key est res m' →
  is_Some (m' !! key') → is_Some (m !! key') ∨ key' = key.
Proof. intros []; [auto..|]. by eapply upsert_spec_keys. Qed.

Lemma restore_loop_run items t : items_ok items → wf t →
  ∃ t', restore_loop items t = Some t' ∧ wf t' ∧ same_params t t' ∧
    ∀ key, is_Some (hot t' !! key) → is_Some (hot t !! key) ∨ key ∈ Item_Key <$> items.
Proof.
  intros Hok. revert t. induction Hok as [|it items Hit _ IH]; intros t Hwf; cbn [restore_loop].
  { exists t. split_and!; try done. by auto. }
  destruct (restorable it).
  - destruct (add_run t (Item_Key it) (Item_Count it) Hwf Hit) as
      (res & t1 & -> & Hwf1 & Hp1 & _ & _ & Hspec). cbn [mbind option_bind].
    destruct (IH t1 Hwf1) as (t2 & -> & Hwf2 & Hp2 & Hkeys).
    exists t2. split_and!; [done|done|by eapply same_params_trans|].
    intros key [Hs|Hin]%Hkeys; [|by right; right].
    destruct (add_heap_spec_keys _ _ _ _ _ _ _ _ Hspec Hs) as [?| ->]; [by left|].
    right. by left.
  - destruct (IH t Hwf) as (t2 & -> & Hwf2 & Hp2 & Hkeys).
    exists t2. split_and!; try done.
    intros key [Hs|Hin]%Hkeys; [by left|right; by right].
Qed.

Lemma Restore_run t items : wf t → items_ok items →
  ∃ t', Restore_ (N:=N) t items = Some t' ∧ wf t' ∧ same_params t t' ∧
    ∀ key, is_Some (hot t' !! key) → key ∈ Item_Key <$> items.
Proof.
  intros Hwf Hok. destruct (reset_wf t Hwf) as (Hwf0 & Hp0 & Hh0). unfold Restore_.
  destruct (restore_loop_run items (reset (N:=N) t) Hok Hwf0) as (t' & -> & Hwf' & Hp & Hkeys).
  exists t'. split_and!; [done|done|by eapply same_params_trans|].
  intros key [Hs|]%Hkeys; [|done]. rewrite Hh0, lookup_empty in Hs. by destruct Hs.
Qed.

(** ** The contract of interface [Topk]

    A configured sketch admits no key below a positive [minCount], so that every count
    it lists is positive. *)

Record sound t : Prop := {
  sound_wf : wf t;
  sound_min : 0 < minCount t;
  sound_pos : map_Forall (λ _ c, 0 < c) (hot t)
}.

Lemma upsert_spec_positive cap m key c rk m' : upsert_spec cap m key c rk m' → 0 < c →
  map_Forall (λ _ c, 0 < c) m → map_Forall (λ _ c, 0 < c) m'.
Proof.
  intros [] Hc Hm; try done; try by apply map_Forall_insert_2.
  apply map_Forall_insert_2; [done|]. by apply map_Forall_delete.
Qed.

Lemma add_sound t key incr res t' : sound t → in_u32 incr → add t key incr = Some (res, t') →
  sound t'.
Proof.
  intros [Hwf Hmin Hpos] Hi Hadd.
  destruct (add_run t key incr Hwf Hi) as (res' & t1 & Hrun & Hwf' & (_ & _ & _ & _ & Hm) & _ & _ & Hs).
  rewrite Hrun in Hadd. injection Hadd as <- <-. split; [done|by rewrite Hm|].
  destruct Hs; [done|done|]. eapply upsert_spec_positive; [done|lia|done].
Qed.

Lemma reset_sound t : sound t → sound (reset (N:=N) t).
Proof.
  intros [Hwf Hmin _]. destruct (reset_wf t Hwf) as (Hwf' & (_ & _ & _ & _ & Hm) & Hhot).
  split; [done|by rewrite Hm|]. rewrite Hhot. apply map_Forall_empty.
Qed.

Lemma restore_loop_sound items t t' : items_ok items → sound t →
  restore_loop items t = Some t' → sound t'.
Proof.
  intros Hok. revert t. induction Hok as [|it items Hit _ IH]; intros t Ht; cbn [restore_loop].
  { by intros [= <-]. }
  destruct (restorable it); [|by apply IH].
  destruct (add_run t (Item_Key it) (Item_Count it) (sound_wf t Ht) Hit) as (res & t1 & Hadd & _).
  rewrite Hadd. cbn [mbind option_bind]. apply IH. by eapply add_sound.
Qed.

Lemma NewHeavyKeeper_sound k0 w d dec min : in_u32 k0 → 0 < w → 0 <= d → 0 < min →
  sound (NewHeavyKeeper (N:=N) k0 w d dec min).
Proof.
  intros Hk Hw Hd Hm. destruct (NewHeavyKeeper_wf k0 w d dec min Hk Hw Hd) as [Hwf Hhot].
  split; [done|done|]. rewrite Hhot. apply map_Forall_empty.
Qed.

Lemma sound_size t : sound t → Z.of_nat (size (hot t)) <= k t.
Proof. intros []. by apply wf_hot_size. Qed.

Lemma sound_count t key c : sound t → hot t !! key = Some c → 0 < c < 2 ^ 32.
Proof.
  intros [Hwf _ Hpos] Hc. pose proof (wf_hot_count t key c Hwf Hc). pose proof (Hpos key c Hc).
  unfold in_u32 in *. lia.
Qed.

Lemma Add_contract t key incr : sound t → in_u32 incr → ∃ res t',
  Add (N:=N) t key incr = Some (res, t') ∧ sound t' ∧ k t' = k t ∧
  (∀ key', is_Some (hot t' !! key') → is_Some (hot t !! key') ∨ key' = key).
Proof.
  intros Ht Hi. destruct (add_run t key incr (sound_wf t Ht) Hi) as (res & t' & Hrun & _ & Hp & _ & _ & Hs).
  exists res, t'. split_and!; [done|by eapply add_sound|apply Hp|].
  intros key'. by eapply add_heap_spec_keys.
Qed.

Lemma Remove_contract t key : sound t → ∃ t',
  Remove (N:=N) t key = Some t' ∧ sound t' ∧ k t' = k t ∧ hot t' = delete key (hot t).
Proof.
  intros [Hwf Hmin Hpos].
  destruct (sketch_Remove_run t key Hwf) as (t' & ? & ? & (? & _ & _ & _ & Hm) & _ & _ & Hhot).
  exists t'. split_and!; try done. split; [done|by rewrite Hm|].
  rewrite Hhot. by apply map_Forall_delete.
Qed.

Lemma Fading_contract t : sound t → ∃ t',
  Fading (N:=N) t = Some t' ∧ sound t' ∧ k t' = k t ∧ hot t' = omap halve (hot t).
Proof.
  intros [Hwf Hmin Hpos]. destruct (Fading_run t Hwf) as (t' & ? & ? & (? & _ & _ & _ & Hm) & _ & _ & Hhot).
  exists t'. split_and!; try done. split; [done|by rewrite Hm|].
  rewrite Hhot. intros key c Hc. apply lookup_omap_Some in Hc as (c0 & Hhalf & Hc0).
  assert (0 < c0) as Hpos0 by exact (Hpos key c0 Hc0). unfold halve in Hhalf.
  rewrite shiftr1_div in Hhalf. destruct (Z.eqb_spec (c0 / 2) 0); [done|]. injection Hhalf as <-.
  assert (0 <= c0 / 2) by (apply Z.div_pos; lia). lia.
Qed.

Lemma Reset_contract t : sound t → ∃ t',
  Some (Reset_ (N:=N) t) = Some t' ∧ sound t' ∧ k t' = k t ∧ hot t' = ∅.
Proof.
  intros Ht. destruct (reset_wf t (sound_wf t Ht)) as (? & [? _] & ?).
  exists (reset (N:=N) t). split_and!; try done. by apply reset_sound.
Qed.

Lemma Restore_contract t items : sound t → Forall (λ it, in_u32 (Item_Count it)) items → ∃ t',
  Restore_ (N:=N) t items = Some t' ∧ sound t' ∧ k t' = k t ∧
  (∀ key, is_Some (hot t' !! key) → key ∈ Item_Key <$> items).
Proof.
  intros Ht Hok. destruct (Restore_run t items (sound_wf t Ht) Hok) as (t' & Hrun & ? & [? _] & ?).
  exists t'. split_and!; try done. eapply restore_loop_sound; [done|by apply reset_sound|done].
Qed.

Lemma List_contract t : sound t → ∃ l, List (N:=N) t = Some l ∧
  item_pair <$> l ≡ₚ map_to_list (hot t) ∧ StronglySorted hotter l.
Proof. intros []. by apply List_run. Qed.

Lemma Len_contract t : sound t → Len (N:=N) t = Z.of_nat (size (hot t)).
Proof. intros []. by apply sketch_Len_run. Qed.

Lemma Contains_contract t key : sound t →
  Contains (N:=N) t key = bool_decide (is_Some (hot t !! key)).
Proof. intros []. by apply sketch_Contains_run. Qed.

#[export] Instance HeavyKeeper_TopkLaws : TopkLaws (HeavyKeeper T) := {
  topk_inv := sound; topk_hot := hot; topk_cap := k; topk_size := sound_size;
  topk_count := sound_count;
  topk_add_spec := Add_contract; topk_list_spec := List_contract; topk_len_spec := Len_contract;
  topk_contains_spec := Contains_contract; topk_remove_spec := Remove_contract;
  topk_fading_spec := Fading_contract; topk_reset_spec := Reset_contract;
  topk_restore_spec := Restore_contract
}.
End spec.
