(* ===== verification/HeavyKeeperCounts.v ===== *)
(** * The counts a sketch reports, over whole runs

    Sequences of the exported operations of package [heavykeeper], the exact
    number of observations each key really had, and how the sketch's counts
    relate to it: never above it, up to keys that share a fingerprint, and equal
    to it when one row keeps the keys apart.  The sketch is proved against the
    heap's contract (MinHeapSpec.v); the witnesses run it on MinHeap.v's heap. *)

From S2P Require Import Prelude MinHeapSpec TopkSpec Float64 HeavyKeeper.
From S2P Require MinHeap.
Local Open Scope Z_scope.

(** ** Runs *)

Inductive op :=
| OAdd (key : string) (incr : Z)
| ORemove (key : string)
| OFading
| OReset
| ORestore (items : list Item).

(** What a run amounts to: observations, forgotten keys, halvings, clearings. *)
Inductive event :=
| Seen (key : string) (n : Z)
| Forgot (key : string)
| Faded
| Cleared.

Definition seen_item (it : Item) : event := Seen (Item_Key it) (Item_Count it).
Definition op_events (o : op) : list event :=
  match o with
  | OAdd key incr => [Seen key incr]
  | ORemove key => [Forgot key]
  | OFading => [Faded]
  | OReset => [Cleared]
  | ORestore items => Cleared :: (seen_item <$> filter (λ it, restorable it = true) items)
  end.
Definition history (ops : list op) : list event := ops ≫= op_events.

(** The increments are [uint32] values. *)
Definition event_ok (ev : event) : Prop :=
  match ev with Seen _ n => in_u32 n | _ => True end.
Definition event_key (ev : event) : list string :=
  match ev with Seen key _ => [key] | _ => [] end.
Definition keys_of (evs : list event) : list string := evs ≫= event_key.
(** The sum of the increments *)
Fixpoint weight (evs : list event) : Z :=
  match evs with
  | [] => 0
  | Seen _ n :: evs => n + weight evs
  | _ :: evs => weight evs
  end.

(** The number of observations of the keys that [h] sends to [a], halved with
    every [Fading]. *)
Definition tally1 {A} `{!EqDecision A} (h : string → A) (e : A → Z) (ev : event) : A → Z :=
  match ev with
  | Seen key n => λ a, if decide (h key = a) then e a + n else e a
  | Forgot _ => e
  | Faded => λ a, e a / 2
  | Cleared => λ _, 0
  end.
Definition tally {A} `{!EqDecision A} (h : string → A) (evs : list event) : A → Z :=
  foldl (tally1 h) (λ _, 0) evs.

(** The exact count of a key *)
Definition exact (ops : list op) : string → Z := tally id (history ops).

Section runs.
Context {T N : Type} `{!KeyedHeap T N} `{!Env}.

Definition op_step (t : HeavyKeeper T) (o : op) : option (HeavyKeeper T) :=
  match o with
  | OAdd key incr => '(_, t') ← Add (N:=N) t key incr; Some t'
  | ORemove key => Remove (N:=N) t key
  | OFading => Fading (N:=N) t
  | OReset => Some (Reset_ (N:=N) t)
  | ORestore items => Restore_ (N:=N) t items
  end.
Fixpoint run (t : HeavyKeeper T) (ops : list op) : option (HeavyKeeper T) :=
  match ops with
  | [] => Some t
  | o :: ops => t' ← op_step t o; run t' ops
  end.

Definition play1 (t : HeavyKeeper T) (ev : event) : option (HeavyKeeper T) :=
  match ev with
  | Seen key n => '(_, t') ← add (N:=N) t key n; Some t'
  | Forgot key => Remove (N:=N) t key
  | Faded => Fading (N:=N) t
  | Cleared => Some (reset (N:=N) t)
  end.
Fixpoint play (t : HeavyKeeper T) (evs : list event) : option (HeavyKeeper T) :=
  match evs with
  | [] => Some t
  | ev :: evs => t' ← play1 t ev; play t' evs
  end.

(** The count of the observations that carry [key]'s fingerprint *)
Definition print_count (ops : list op) (key : string) : Z :=
  tally murmur3_Sum32 (history ops) (murmur3_Sum32 key).

(** Row [j] keeps the keys of [U] in buckets of their own, and no two of them
    share a fingerprint. *)
Definition separated (w : Z) (j : nat) (U : list string) : Prop :=
  ∀ key1 key2, key1 ∈ U → key2 ∈ U →
    slot w j key1 = slot w j key2 ∨ murmur3_Sum32 key1 = murmur3_Sum32 key2 → key1 = key2.

(** The sketches a run from a new one can reach *)
Definition sketch_of (k0 w d : Z) (dec : float64) (min : Z) (ops : list op)
    (t : HeavyKeeper T) : Prop :=
  run (NewHeavyKeeper (N:=N) k0 w d dec min) ops = Some t.
End runs.

Section proofs.
Context {T N : Type} `{!KeyedHeap T N} `{!KeyedHeapLaws T N} `{!Env}.
Implicit Types t : HeavyKeeper T.
Abbreviation wf := (HeavyKeeper.wf (T:=T) (N:=N)).
Abbreviation hot := (HeavyKeeper.hot (T:=T) (N:=N)).
Abbreviation play := (play (T:=T) (N:=N)).
Abbreviation run := (run (T:=T) (N:=N)).

(** ** A run is the play of its events *)

Lemma play_app t evs1 evs2 : play t (evs1 ++ evs2) = t' ← play t evs1; play t' evs2.
Proof.
  revert t. induction evs1 as [|ev evs1 IH]; intros t; [done|]. cbn.
  destruct (play1 t ev); [apply IH|done].
Qed.

Lemma play_one t ev : play t [ev] = play1 (N:=N) t ev.
Proof. cbn. by destruct (play1 t ev). Qed.

Lemma restore_loop_play items t : restore_loop (N:=N) items t =
  play t (seen_item <$> filter (λ it, restorable it = true) items).
Proof.
  revert t. induction items as [|it items IH]; intros t; cbn [restore_loop]; [done|].
  rewrite filter_cons. case_decide as Hr; [|rewrite (not_true_is_false _ Hr); apply IH].
  rewrite Hr. cbn. by destruct (add t (Item_Key it) (Item_Count it)) as [[res t']|]; [apply IH|].
Qed.

Lemma op_step_play t o : op_step (N:=N) t o = play t (op_events o).
Proof.
  destruct o; cbn [op_events]; rewrite ?play_one; try done.
  cbn. by rewrite <-restore_loop_play.
Qed.

Lemma run_play ops t : run t ops = play t (history ops).
Proof.
  revert t. induction ops as [|o ops IH]; intros t; [done|]. cbn.
  rewrite op_step_play, play_app. by destruct (play t (op_events o)); [apply IH|].
Qed.

(** ** A run never panics, whatever the hashes and the random draws *)

Lemma play1_total t ev : wf t → event_ok ev →
  ∃ t', play1 (N:=N) t ev = Some t' ∧ wf t' ∧ same_params t t'.
Proof.
  intros Hwf Hok. destruct ev as [key n|key| |]; cbn.
  - destruct (add_run t key n Hwf Hok) as (res & t' & -> & ? & ? & _). eauto.
  - destruct (sketch_Remove_run t key Hwf) as (t' & ? & ? & ? & _). eauto.
  - destruct (Fading_run t Hwf) as (t' & ? & ? & ? & _). eauto.
  - destruct (reset_wf t Hwf) as (? & ? & _). eauto.
Qed.

(** An invariant of the sketch and the events so far, carried through a run. *)
Lemma play_invariant (evs : list event) (I : HeavyKeeper T → list event → Prop) t0 :
  wf t0 → Forall event_ok evs → I t0 [] →
  (∀ t t' pre ev post, evs = pre ++ ev :: post → event_ok ev → wf t → same_params t0 t →
     play1 (N:=N) t ev = Some t' → I t pre → I t' (pre ++ [ev])) →
  ∃ t', play t0 evs = Some t' ∧ wf t' ∧ same_params t0 t' ∧ I t' evs.
Proof.
  intros Hwf Hoks HI Hstep.
  cut (∀ post pre t, evs = pre ++ post → wf t → same_params t0 t → I t pre →
    ∃ t', play t post = Some t' ∧ wf t' ∧ same_params t0 t' ∧ I t' evs).
  { intros Hall. by apply (Hall evs [] t0). }
  intros post. induction post as [|ev post IH]; intros pre t Hevs Hwft Hpt HIt.
  { exists t. rewrite app_nil_r in Hevs. subst. by split_and!. }
  assert (event_ok ev) as Hev.
  { rewrite Hevs in Hoks. apply Forall_app in Hoks as [_ Hoks]. by apply Forall_cons in Hoks as [? _]. }
  destruct (play1_total t ev Hwft Hev) as (t1 & H1 & Hwf1 & Hp1).
  destruct (IH (pre ++ [ev]) t1) as (t2 & Hplay & ? & ? & ?).
  - by rewrite <-app_assoc.
  - done.
  - by eapply same_params_trans.
  - by apply (Hstep t t1 pre ev post).
  - exists t2. split_and!; try done. cbn. by rewrite H1.
Qed.

Lemma play_total evs t : wf t → Forall event_ok evs →
  ∃ t', play t evs = Some t' ∧ wf t' ∧ same_params t t'.
Proof.
  intros Hwf Hoks.
  destruct (play_invariant evs (λ _ _, True) t Hwf Hoks) as (t' & ? & ? & ? & _); eauto.
Qed.

(** ** Tallies *)

Lemma tally_snoc {A} `{!EqDecision A} (h : string → A) pre ev :
  tally h (pre ++ [ev]) = tally1 h (tally h pre) ev.
Proof. unfold tally. by rewrite foldl_app. Qed.

Lemma weight_app evs1 evs2 : weight (evs1 ++ evs2) = weight evs1 + weight evs2.
Proof. induction evs1 as [|[] evs1 IH]; cbn; lia. Qed.

Lemma weight_nonneg evs : Forall event_ok evs → 0 <= weight evs.
Proof. induction 1 as [|[] evs Hev _ IH]; cbn in *; width. Qed.

Lemma tally_nonneg {A} `{!EqDecision A} (h : string → A) evs a :
  Forall event_ok evs → 0 <= tally h evs a.
Proof.
  revert a. induction evs as [|ev evs IH] using rev_ind; intros a; [done|].
  intros [Hevs [Hev _]%Forall_cons]%Forall_app. rewrite tally_snoc. specialize (IH a Hevs).
  destruct ev; cbn in *; [case_decide; width|done|by apply Z.div_pos|done].
Qed.

Lemma tally_weight {A} `{!EqDecision A} (h : string → A) evs a :
  Forall event_ok evs → tally h evs a <= weight evs.
Proof.
  revert a. induction evs as [|ev evs IH] using rev_ind; intros a; [done|].
  intros [Hevs Hev]%Forall_app. pose proof (tally_nonneg h evs a Hevs) as Hpos.
  pose proof (weight_nonneg _ Hevs) as Hw. apply Forall_cons in Hev as [Hev _].
  rewrite tally_snoc, weight_app. specialize (IH a Hevs).
  destruct ev; cbn in *; [case_decide; width|lia| |lia].
  pose proof (Z.div_le_upper_bound (tally h evs a) 2 (tally h evs a)). lia.
Qed.

(** Where no two keys share a fingerprint, counting fingerprints is counting keys. *)
Lemma tally_link {A} `{!EqDecision A} (h : string → A) U evs key :
  (∀ key1 key2, key1 ∈ U → key2 ∈ U → h key1 = h key2 → key1 = key2) →
  key ∈ U → keys_of evs ⊆ U → tally h evs (h key) = tally id evs key.
Proof.
  intros Hinj HU. induction evs as [|ev evs IH] using rev_ind; [done|].
  unfold keys_of. rewrite bind_app. intros Hsub. rewrite !tally_snoc.
  specialize (IH ltac:(set_solver)). destruct ev as [key' n|key'| |]; cbn; rewrite ?IH; try done.
  assert (key' ∈ U) by (apply Hsub; set_solver).
  repeat case_decide; try done; [|congruence]. exfalso. naive_solver.
Qed.

(** ** Counts never exceed the observations *)

Definition below (E : Z → Z) (b : bucket) : Prop := count b <= E (fingerprint b).

Record over_inv t (E : Z → Z) : Prop := {
  over_nonneg f : 0 <= E f;
  over_rows : Forall (Forall (below E)) (buckets t);
  over_hot key c : hot t !! key = Some c → c <= E (murmur3_Sum32 key)
}.

Lemma bucket_step_below fp n E b b' : 0 <= n → in_u32 (count b) → (∀ f, 0 <= E f) →
  below E b → bucket_step fp n b b' →
  below (λ a, if decide (fp = a) then E a + n else E a) b'.
Proof.
  unfold below. intros Hn Hc HE Hb [Hz|Hz Hf|s Hz Hf Hs|c Hz Hf Hc1 Hc2]; cbn [count fingerprint].
  - rewrite decide_True by done. specialize (HE fp). lia.
  - rewrite decide_True by done. rewrite Hf in Hb.
    pose proof (Z.mod_le (count b + n) (2 ^ 32)). width.
  - rewrite decide_False by congruence. lia.
  - rewrite decide_True by done. specialize (HE fp). width.
Qed.

Lemma rows_stepped_below w key n i E rows rows' : 0 <= n → (∀ f, 0 <= E f) →
  Forall (row_wf w) rows → Forall (Forall (below E)) rows →
  rows_stepped w key n i rows rows' →
  Forall (Forall (below (tally1 murmur3_Sum32 E (Seen key n)))) rows'.
Proof.
  intros Hn HE Hwf Hrows [Hlen Hstep]. apply Forall_lookup. intros j row' Hrow'.
  destruct (lookup_lt_is_Some_2 rows j) as [row Hrow].
  { rewrite <-Hlen. by eapply lookup_lt_Some. }
  destruct (Hstep j row row' Hrow Hrow') as (b & b' & Hb & -> & Hbs).
  pose proof (Forall_lookup_1 _ _ _ _ Hrows Hrow) as Hbelow.
  destruct (Forall_lookup_1 _ _ _ _ Hwf Hrow) as [_ Hcounts].
  apply Forall_insert.
  - eapply Forall_impl; [exact Hbelow|]. intros b0. unfold below, tally1.
    destruct (decide _); lia.
  - eapply bucket_step_below; try done.
    + by apply (Forall_lookup_1 (λ b, in_u32 (count b)) _ _ _ Hcounts Hb).
    + by apply (Forall_lookup_1 _ _ _ _ Hbelow Hb).
Qed.

Lemma estimate_below w key i E rows : (∀ f, 0 <= E f) → Forall (Forall (below E)) rows →
  estimate w key i rows <= E (murmur3_Sum32 key).
Proof.
  intros HE Hrows. revert i. induction Hrows as [|row rows Hrow _ IH]; intros i; cbn [estimate].
  - apply HE.
  - specialize (IH (S i)). apply Z.max_lub; [|done]. unfold row_estimate.
    destruct (row !! _) as [b|] eqn:Hb; [|apply HE].
    case (Z.eqb_spec (fingerprint b) (murmur3_Sum32 key)) as [<-|]; [|apply HE].
    by apply (Forall_lookup_1 _ _ _ _ Hrow Hb).
Qed.

(** An entry of the heap after an [add] is the key with its estimate, or was there. *)
Lemma upsert_spec_lookup cap m key est rk m' key' c :
  upsert_spec cap m key est rk m' → m' !! key' = Some c →
  (key' = key ∧ c = est) ∨ (key' ≠ key ∧ m !! key' = Some c).
Proof.
  destruct (decide (key' = key)) as [->|Hne]; intros [] Hl;
    rewrite ?lookup_insert_eq in Hl; simplify_eq; try (by left); right; split; try done.
  - by rewrite lookup_insert_ne in Hl.
  - by rewrite lookup_insert_ne in Hl.
  - rewrite lookup_insert_ne in Hl by done. by apply lookup_delete_Some in Hl as [_ ?].
Qed.

Lemma add_heap_spec_lookup cap min m key est res m' key' c :
  add_heap_spec cap min m key est res m' → m' !! key' = Some c →
  (key' = key ∧ c = est) ∨ m !! key' = Some c.
Proof.
  intros [] Hl; [by right..|]. edestruct upsert_spec_lookup as [?|[]]; eauto.
Qed.

Lemma over_step t t' E ev : wf t → event_ok ev → over_inv t E →
  play1 (N:=N) t ev = Some t' → over_inv t' (tally1 murmur3_Sum32 E ev).
Proof.
  intros Hwf Hok [HE Hrows Hhot] Hplay. destruct ev as [key n|key| |]; cbn [play1 event_ok] in *.
  - destruct (add_run t key n Hwf Hok) as (res & t1 & Hrun & _ & _ & Hst & _ & Hspec).
    rewrite Hrun in Hplay. injection Hplay as <-.
    assert (∀ f, 0 <= tally1 murmur3_Sum32 E (Seen key n) f) as HE'.
    { intros f. specialize (HE f). unfold tally1. destruct (decide _); width. }
    assert (Forall (Forall (below (tally1 murmur3_Sum32 E (Seen key n)))) (buckets t1)) as Hrows'.
    { eapply (rows_stepped_below (width t) key n 0 E (buckets t)); try done; [width|apply Hwf]. }
    split; [done|done|]. intros key' c Hl.
    destruct (add_heap_spec_lookup _ _ _ _ _ _ _ _ _ Hspec Hl) as [[-> ->]|Hold].
    + by apply estimate_below.
    + specialize (Hhot key' c Hold). unfold tally1. destruct (decide _); width.
  - destruct (sketch_Remove_run t key Hwf) as (t1 & Hrun & _ & _ & Hb & _ & Hh).
    assert (t' = t1) as -> by congruence.
    split; [done|by rewrite Hb|]. intros key' c. rewrite Hh. intros [_ Hl]%lookup_delete_Some.
    by apply Hhot.
  - destruct (Fading_run t Hwf) as (t1 & Hrun & _ & _ & Hb & _ & Hh).
    assert (t' = t1) as -> by congruence. split.
    + intros f. apply Z.div_pos; [apply HE|lia].
    + rewrite Hb. apply Forall_fmap. eapply Forall_impl; [exact Hrows|]. intros row Hrow.
      apply Forall_fmap. eapply Forall_impl; [exact Hrow|]. intros b Hbelow.
      unfold below, compose, halve_bucket in *. cbn [count fingerprint].
      rewrite shiftr1_div. by apply Z.div_le_mono.
    + intros key' c. rewrite Hh, lookup_omap. intros (c0 & Hc0 & Hc)%bind_Some.
      apply halve_Some in Hc as [-> _]. apply Z.div_le_mono; [lia|]. by apply Hhot.
  - injection Hplay as <-. destruct (reset_wf t Hwf) as (Hwf0 & _ & Hh).
    split; [done| |].
    + rewrite (reset_run (N:=N) t Hwf). cbn. apply Forall_replicate. by apply Forall_replicate.
    + intros key' c. by rewrite Hh, lookup_empty.
Qed.

Lemma over_run evs t : wf t → Forall event_ok evs → over_inv t (λ _, 0) →
  ∃ t', play t evs = Some t' ∧ wf t' ∧ same_params t t' ∧ over_inv t' (tally murmur3_Sum32 evs).
Proof.
  intros Hwf Hoks HI.
  apply (play_invariant evs (λ t pre, over_inv t (tally murmur3_Sum32 pre))); try done.
  intros t0 t1 pre ev post _ ? ? _ ? ?. rewrite tally_snoc. by apply (over_step t0).
Qed.

Lemma over_new k0 w d dec min : in_u32 k0 →
  over_inv (NewHeavyKeeper (N:=N) k0 w d dec min) (λ _, 0).
Proof.
  intros Hk. split; [done| |].
  - cbn. apply Forall_replicate, Forall_replicate. unfold below. cbn. lia.
  - intros key c. unfold HeavyKeeper.hot. cbn.
    destruct (kh_new_spec (T:=T) (N:=N) k0 Hk) as (_ & -> & _). by rewrite lookup_empty.
Qed.

(** ** Counts are exact where a row keeps the keys apart *)

(** Row [j] holds the exact count of every key of [U], and so does the heap. *)
Record exact_inv (U : list string) (j : nat) t (X : string → Z) : Prop := {
  exact_row row key : buckets t !! j = Some row → key ∈ U →
    ∃ b, row !! slot (width t) j key = Some b ∧ count b = X key ∧
         (X key ≠ 0 → fingerprint b = murmur3_Sum32 key);
  exact_hot key c : hot t !! key = Some c → key ∈ U ∧ c = X key
}.

Lemma estimate_row w key i j rows row : Forall (row_wf w) rows → rows !! j = Some row →
  row_estimate w key (i + j) row <= estimate w key i rows.
Proof.
  intros Hwf. revert i j. induction Hwf as [|row0 rows Hrow Hwf IH]; intros i [|j] Hj;
    cbn in *; simplify_eq.
  - rewrite Nat.add_0_r. lia.
  - rewrite <-Nat.add_succ_comm. specialize (IH (S i) j Hj). lia.
Qed.

Lemma bucket_step_exact fp n b b' c : bucket_step fp n b b' → in_u32 (c + n) → 0 <= c →
  count b = c → (c ≠ 0 → fingerprint b = fp) → count b' = c + n ∧ (c + n ≠ 0 → fingerprint b' = fp).
Proof.
  intros [Hz|Hz Hf|s Hz Hf _ _|m Hz Hf _ _] Hr Hc <- Hfp; cbn [count fingerprint];
    try (by destruct Hf; apply Hfp).
  - rewrite Hz. split; [lia|done].
  - rewrite u32_id by done. done.
Qed.

Lemma exact_rows_step U j t t' key n X : separated (width t) j U → key ∈ U →
  rows_stepped (width t) key n 0 (buckets t) (buckets t') → width t' = width t →
  (∀ k0, 0 <= X k0) → in_u32 (X key + n) → exact_inv U j t X →
  ∀ row key', buckets t' !! j = Some row → key' ∈ U →
    ∃ b, row !! slot (width t') j key' = Some b ∧ count b = tally1 id X (Seen key n) key' ∧
         (tally1 id X (Seen key n) key' ≠ 0 → fingerprint b = murmur3_Sum32 key').
Proof.
  intros Hsep HU [Hlen Hstep] Hw HX Hr [Hrows _] row' key' Hrow' HU'.
  destruct (lookup_lt_is_Some_2 (buckets t) j) as [row Hrow].
  { rewrite <-Hlen. by eapply lookup_lt_Some. }
  destruct (Hstep j row row' Hrow Hrow') as (b & b' & Hb & -> & Hbs). cbn [plus] in *.
  rewrite Hw. unfold tally1. cbn. case_decide as Heq.
  - subst key'. exists b'. rewrite list_lookup_insert_eq by (by eapply lookup_lt_Some).
    split; [done|]. destruct (Hrows row key Hrow HU) as (b0 & Hb0 & Hc & Hfp).
    assert (b0 = b) as -> by congruence. by eapply bucket_step_exact.
  - rewrite list_lookup_insert_ne; [by apply Hrows|].
    intros Hs. apply Heq. apply (Hsep key key' HU HU'). by left.
Qed.

(** The estimate of an added key is its exact count. *)
Lemma estimate_exact (U : list string) j t X E key : wf t → (j < length (buckets t))%nat → key ∈ U →
  over_inv t E → E (murmur3_Sum32 key) = X key → 0 <= X key →
  (∀ row key', buckets t !! j = Some row → key' ∈ U →
    ∃ b, row !! slot (width t) j key' = Some b ∧ count b = X key' ∧
         (X key' ≠ 0 → fingerprint b = murmur3_Sum32 key')) →
  estimate (width t) key 0 (buckets t) = X key.
Proof.
  intros Hwf [row Hrow]%lookup_lt_is_Some HU Hover HE HX Hrows.
  pose proof (estimate_below (width t) key 0 E (buckets t) (over_nonneg _ _ Hover)
    (over_rows _ _ Hover)) as Hle.
  pose proof (estimate_row (width t) key 0 j _ row (wf_row t Hwf) Hrow) as Hge. cbn [plus] in Hge.
  pose proof (estimate_range (width t) key 0 _ (wf_row t Hwf)) as Hr.
  destruct (Hrows row key Hrow HU) as (b & Hb & Hc & Hfp).
  destruct (decide (X key = 0)) as [|Hne]; [width|].
  unfold row_estimate in Hge. rewrite Hb, Hfp, Z.eqb_refl in Hge by done. lia.
Qed.

(** A tracked key is one whose count is at most its estimate after [add]; the heap
    then holds the estimate. *)
Lemma add_heap_spec_exact cap min m key est res m' X' : min <= 1 → 0 <= est →
  add_heap_spec cap min m key est res m' →
  (∀ c, m !! key = Some c → 0 <= c <= est) →
  est = X' key → (∀ key' c, m !! key' = Some c → key' ≠ key → c = X' key') →
  ∀ key' c, m' !! key' = Some c → c = X' key'.
Proof.
  intros Hmin Hpos Hspec Hkey HX Hold key' c Hl.
  destruct (decide (key' = key)) as [->|Hne]; last first.
  { destruct (add_heap_spec_lookup _ _ _ _ _ _ _ _ _ Hspec Hl) as [[? _]|?]; [done|eauto]. }
  destruct Hspec as [Hlt|k0 c0 _ _ [Hk0 Hleast] Hlt|rk m' _ _ Hups].
  - specialize (Hkey c Hl). lia.
  - specialize (Hkey c Hl). exfalso. destruct (decide (key = k0)) as [->|Hne].
    + assert (c = c0) as -> by congruence. lia.
    + pose proof (item_lt_le _ _ (Hleast key c Hl Hne)). cbn in *. lia.
  - by destruct (upsert_spec_lookup _ _ _ _ _ _ _ _ Hups Hl) as [[_ ->]|[]].
Qed.

Section exact_runs.
Context (U : list string) (j : nat) (evs : list event) (t0 : HeavyKeeper T).
Hypothesis Hwf0 : wf t0.
Hypothesis Hoks : Forall event_ok evs.
Hypothesis Hsep : separated (width t0) j U.
Hypothesis Hj : Z.of_nat j < depth t0.
Hypothesis Hmin : minCount t0 <= 1.
Hypothesis HU : keys_of evs ⊆ U.
Hypothesis Hweight : weight evs < 2 ^ 32.

Definition exact_state t (pre : list event) : Prop :=
  over_inv t (tally murmur3_Sum32 pre) ∧ exact_inv U j t (tally id pre).

Lemma prefix_facts pre ev post : evs = pre ++ ev :: post →
  Forall event_ok pre ∧ Forall event_ok (pre ++ [ev]) ∧
  keys_of (pre ++ [ev]) ⊆ U ∧ weight (pre ++ [ev]) < 2 ^ 32.
Proof.
  intros Hevs. assert (evs = (pre ++ [ev]) ++ post) as Hevs'.
  { by rewrite <-app_assoc. }
  pose proof Hoks as Hok. rewrite Hevs' in Hok. apply Forall_app in Hok as [Hpre Hpost].
  split_and!; [by apply Forall_app in Hpre as [? _]|done| |].
  - transitivity (keys_of evs); [|done]. rewrite Hevs'. unfold keys_of.
    rewrite (bind_app _ (pre ++ [ev])). set_solver.
  - rewrite Hevs', weight_app in Hweight. pose proof (weight_nonneg _ Hpost). lia.
Qed.

Lemma sum_link evs' key : key ∈ U → keys_of evs' ⊆ U →
  tally murmur3_Sum32 evs' (murmur3_Sum32 key) = tally id evs' key.
Proof. intros HU' Hsub. apply (tally_link _ U); [|done|done]. intros ?????. apply Hsep; auto. Qed.

Lemma seen_exact t (x : string * bool * HeavyKeeper T) pre key n post : evs = pre ++ Seen key n :: post →
  wf t → same_params t0 t → exact_state t pre → add (N:=N) t key n = Some x →
  key ∈ U ∧ wf x.2 ∧ same_params t x.2 ∧ exact_state x.2 (pre ++ [Seen key n]) ∧
  add_heap_spec (k t) (minCount t) (hot t) key (tally id (pre ++ [Seen key n]) key)
    x.1 (hot x.2) ∧ tally id (pre ++ [Seen key n]) key = tally id pre key + n.
Proof.
  intros Hevs Hwf (Hpk & Hpw & Hpd & _ & Hpm) [Hover Hex] Hrun.
  destruct (prefix_facts pre _ post Hevs) as (Hpre & Hpre' & Hkeys & Hw).
  assert (in_u32 n) as Hn.
  { by apply Forall_app in Hpre' as [_ [? _]%Forall_cons]. }
  assert (key ∈ U) as HkU.
  { apply Hkeys. unfold keys_of. rewrite bind_app. set_solver. }
  assert (over_inv x.2 (tally murmur3_Sum32 (pre ++ [Seen key n]))) as Hover'.
  { rewrite tally_snoc. apply (over_step t); [done|done|done|]. cbn. rewrite Hrun. by destruct x. }
  destruct (add_run t key n Hwf Hn) as (res & t1 & Hrun' & Hwf1 & Hp1 & Hst & _ & Hspec).
  assert (x = (res, t1)) as -> by congruence. cbn [fst snd] in *.
  pose proof (tally_nonneg id _ key Hpre) as HX0.
  assert (tally id (pre ++ [Seen key n]) key = tally id pre key + n) as HX.
  { rewrite tally_snoc. unfold tally1, id. by rewrite decide_True. }
  pose proof (tally_weight id _ key Hpre') as HXw.
  assert (∀ row key', buckets t1 !! j = Some row → key' ∈ U →
    ∃ b, row !! slot (width t1) j key' = Some b ∧
      count b = tally id (pre ++ [Seen key n]) key' ∧
      (tally id (pre ++ [Seen key n]) key' ≠ 0 → fingerprint b = murmur3_Sum32 key')) as Hrows1.
  { rewrite tally_snoc. apply (exact_rows_step U j t); try done.
    - by rewrite Hpw.
    - apply Hp1.
    - intros key'. by apply tally_nonneg.
    - width. }
  assert (estimate (width t) key 0 (buckets t1) = tally id (pre ++ [Seen key n]) key) as Hest.
  { replace (width t) with (width t1) by apply Hp1.
    apply (estimate_exact U j _ _ (tally murmur3_Sum32 (pre ++ [Seen key n]))); try done.
    - rewrite (wf_rows t1 Hwf1). destruct Hp1 as (_ & _ & -> & _). lia.
    - by apply sum_link.
    - by apply tally_nonneg. }
  rewrite Hest in Hspec. split_and!; try done. split; [done|]. split; [done|].
  intros key' c Hl. split.
  - destruct (add_heap_spec_lookup _ _ _ _ _ _ _ _ _ Hspec Hl) as [[-> _]|Hold]; [done|].
    by apply (exact_hot _ _ _ _ Hex key' c).
  - assert (minCount t <= 1) as Hm1 by lia.
    assert (0 <= tally id (pre ++ [Seen key n]) key) as Hpos by width.
    refine (add_heap_spec_exact _ _ _ _ _ _ _ (tally id (pre ++ [Seen key n]))
      Hm1 Hpos Hspec _ eq_refl _ key' c Hl).
    + intros c0 Hc0. destruct (exact_hot _ _ _ _ Hex _ _ Hc0) as [_ ->]. width.
    + intros key0 c0 Hc0 Hne. destruct (exact_hot _ _ _ _ Hex _ _ Hc0) as [_ ->].
      rewrite tally_snoc. unfold tally1, id. by rewrite decide_False by done.
Qed.

Lemma exact_step t t' pre ev post : evs = pre ++ ev :: post → event_ok ev → wf t →
  same_params t0 t → play1 (N:=N) t ev = Some t' → exact_state t pre →
  exact_state t' (pre ++ [ev]).
Proof.
  intros Hevs Hok Hwf Hp Hplay Hst. pose proof Hst as [Hover Hex].
  destruct ev as [key n|key| |].
  - cbn in Hplay. destruct (add t key n) as [x|] eqn:Hx; [|done].
    destruct (seen_exact t x pre key n post) as (_ & _ & _ & Hs & _); try done.
    destruct x. by simplify_eq/=.
  - split; rewrite tally_snoc; [by apply (over_step t)|].
    destruct (sketch_Remove_run t key Hwf) as (t1 & Hrun & _ & (_ & Hw & _) & Hb & _ & Hh).
    assert (t' = t1) as -> by (cbn in *; congruence). split.
    + rewrite Hb, Hw. apply Hex.
    + intros key' c. rewrite Hh. intros [_ Hl]%lookup_delete_Some. by apply (exact_hot _ _ _ _ Hex).
  - split; rewrite tally_snoc; [by apply (over_step t)|].
    destruct (Fading_run t Hwf) as (t1 & Hrun & _ & (_ & Hw & _) & Hb & _ & Hh).
    assert (t' = t1) as -> by (cbn in *; congruence). unfold tally1. split.
    + intros row' key. rewrite Hb, Hw, list_lookup_fmap. intros (row & Hrow & ->)%fmap_Some HkU.
      destruct (exact_row _ _ _ _ Hex row key Hrow HkU) as (b & Hb0 & Hc & Hfp).
      exists (halve_bucket b). rewrite list_lookup_fmap, Hb0. split_and!; [done| |].
      * cbn. by rewrite shiftr1_div, Hc.
      * intros Hne. apply Hfp. intros H0. by rewrite H0 in Hne.
    + intros key c. rewrite Hh, lookup_omap. intros (c0 & Hc0 & Hc)%bind_Some.
      apply halve_Some in Hc as [-> _]. destruct (exact_hot _ _ _ _ Hex _ _ Hc0) as [? ->]. done.
  - split; rewrite tally_snoc; [by apply (over_step t)|].
    injection Hplay as <-. destruct (reset_wf t Hwf) as (Hwf1 & _ & Hh). split.
    + rewrite (reset_run (N:=N) t Hwf). cbn. intros row key [-> _]%lookup_replicate HkU.
      exists (mkBucket 0 0). split; [|done]. unfold zero_row. apply lookup_replicate.
      split; [done|]. unfold slot. pose proof (wf_width t Hwf).
      pose proof (Z.mod_pos_bound (murmur3_SeedSum32 (u32 (Z.of_nat j)) key) (width t)). lia.
    + intros key c. by rewrite Hh, lookup_empty.
Qed.

Lemma exact_run : exact_state t0 [] →
  ∃ t', play t0 evs = Some t' ∧ wf t' ∧ same_params t0 t' ∧ exact_state t' evs.
Proof. intros H0. by apply play_invariant; [..|intros; by eapply exact_step]. Qed.

(** *** No hotter key is left out *)

(** A key that is not tracked is no hotter than any that is, and has not been
    seen at all while there is room. *)
Definition top (cap : Z) (m : gmap string Z) (X : string → Z) : Prop :=
  ∀ key, m !! key = None →
    (∀ key' c, m !! key' = Some c → X key <= c) ∧ (Z.of_nat (size m) < cap → X key = 0).

(** An entry of the heap changed its count, or none did: what [Upsert] leaves is still
    complete. *)
Lemma top_upserted cap m key est rk m' X X' :
  0 <= est → (∀ k0, 0 <= X k0) → X key <= est → (∀ key', key' ≠ key → X' key' = X key') →
  X' key = est → (∀ key' c, m !! key' = Some c → c = X key') → Z.of_nat (size m) <= cap →
  upsert_spec cap m key est rk m' → top cap m X → top cap m' X'.
Proof.
  intros Hpos HX Hle Hother HX' Hex Hcap Hups Htop.
  destruct Hups as [c0 Hc0|Hn Hz|Hn Hs|k0 c0 Hn _ Hs Hleast Hlt|k0 c0 Hn _ Hs Hleast Hge].
  - intros key0 Hn0. apply lookup_insert_None in Hn0 as [Hn0 Hne]. destruct (Htop key0 Hn0) as [H1 H2].
    rewrite Hother by done. split.
    + intros key' c [[<- <-]|[_ Hl]]%lookup_insert_Some; [|by eapply H1].
      specialize (H1 _ _ Hc0). rewrite (Hex _ _ Hc0) in H1. lia.
    + rewrite map_size_insert_Some by eauto. done.
  - intros key0 Hn0. split; [|lia]. intros key' c Hl.
    rewrite (map_size_empty_inv m) in Hl by lia. done.
  - intros key0 Hn0. apply lookup_insert_None in Hn0 as [Hn0 Hne].
    destruct (Htop key0 Hn0) as [_ H2]. rewrite Hother, (H2 Hs) by done. split; [|done].
    intros key' c [[<- <-]|[_ Hl]]%lookup_insert_Some; [done|].
    rewrite (Hex _ _ Hl). apply HX.
  - pose proof (proj1 Hleast) as Hk0.
    intros key0 Hn0. apply lookup_insert_None in Hn0 as [Hn0 Hne]. rewrite Hother by done.
    assert (X key0 <= c0) as Hle0.
    { apply lookup_delete_None in Hn0 as [->|Hn0]; [by rewrite (Hex _ _ Hk0)|].
      by apply (Htop key0 Hn0) in Hk0. }
    split.
    + intros key' c [[<- <-]|[_ Hl]]%lookup_insert_Some; [lia|].
      apply lookup_delete_Some in Hl as [_ Hl]. pose proof (least_le _ _ _ _ _ Hleast Hl). lia.
    + rewrite map_size_insert_None by (by apply lookup_delete_None; right).
      rewrite map_size_delete_Some by eauto.
      assert (size m ≠ 0%nat); [|lia]. intros H0%map_size_empty_inv. by rewrite H0 in Hk0.
  - intros key0 Hn0. destruct (Htop key0 Hn0) as [H1 _]. split; [|lia].
    intros key' c Hl. destruct (decide (key0 = key)) as [->|Hne].
    + pose proof (least_le _ _ _ _ _ Hleast Hl). lia.
    + rewrite Hother by done. by eapply H1.
Qed.

Lemma top_seen cap min m key est res m' X X' :
  min <= 1 → 0 <= est → (∀ k0, 0 <= X k0) → add_heap_spec cap min m key est res m' →
  est = X' key → X key <= est → (∀ key', key' ≠ key → X' key' = X key') →
  (∀ key' c, m !! key' = Some c → c = X key') → Z.of_nat (size m) <= cap →
  top cap m X → top cap m' X'.
Proof.
  intros Hm1 Hpos HX Hspec HX' Hle Hother Hex Hcap Htop.
  assert (∀ P : Z → Prop, P est → ∀ key', (key' ≠ key → P (X key')) → P (X' key')) as Hcase.
  { intros P Hkey key' Hk. destruct (decide (key' = key)) as [->|Hne]; [congruence|].
    rewrite Hother by done. by apply Hk. }
  destruct Hspec as [Hlt|k0 c0 _ Hfull Hleast Hlt|rk m' _ Hroom Hups].
  - intros key0 Hn. destruct (Htop key0 Hn) as [H1 H2].
    split.
    + intros key' c Hl. apply (Hcase (λ x, x <= c)); [|by intros; eapply H1].
      rewrite (Hex _ _ Hl). specialize (HX key'). lia.
    + intros Hs. apply (Hcase (λ x, x = 0)); [lia|]. intros _. by apply H2.
  - intros key0 Hn. destruct (Htop key0 Hn) as [H1 _]. split; [|lia].
    intros key' c Hl. apply (Hcase (λ x, x <= c)); [|by intros; eapply H1].
    pose proof (least_le _ _ _ _ _ Hleast Hl). lia.
  - by eapply top_upserted.
Qed.

Lemma halve_size (m : gmap string Z) : (size (omap halve m) < size m)%nat →
  ∃ key c, m !! key = Some c ∧ c / 2 = 0.
Proof.
  intros Hlt. destruct (decide (map_Forall (λ _ c, c / 2 ≠ 0) m)) as [Hall|Hn].
  - assert (dom (omap halve m) = dom m) as Hdom.
    { apply set_eq. intros key. rewrite !elem_of_dom, lookup_omap.
      destruct (m !! key) as [c|] eqn:Hl; [|done]. cbn. split; [eauto|].
      intros _. exists (c / 2). apply halve_Some. split; [done|]. by eapply Hall. }
    rewrite <-!size_dom, Hdom in Hlt. lia.
  - apply map_not_Forall in Hn as (key & c & Hl & Hc); [|apply _]. exists key, c. split; [done|]. lia.
Qed.

Lemma top_faded cap m X : Z.of_nat (size m) <= cap → (∀ k0, 0 <= X k0) →
  (∀ key c, m !! key = Some c → c = X key) → top cap m X →
  top cap (omap halve m) (λ key, X key / 2).
Proof.
  intros Hcap HX Hex Htop key. rewrite lookup_omap. intros Hn.
  assert (m !! key = None ∨ X key / 2 = 0) as Hkey.
  { destruct (m !! key) as [c|] eqn:Hl; [right|by left]. cbn in Hn.
    destruct (decide (c / 2 = 0)) as [H0|Hne]; [by rewrite <-(Hex _ _ Hl)|].
    by rewrite (proj2 (halve_Some c (c / 2))) in Hn. }
  split.
  - intros key' c. rewrite lookup_omap. intros (c0 & Hc0 & [-> _]%halve_Some)%bind_Some.
    destruct Hkey as [Hk|Hk].
    + apply Z.div_le_mono; [lia|]. by eapply (proj1 (Htop key Hk)).
    + rewrite Hk. apply Z.div_pos; [|lia]. by rewrite (Hex _ _ Hc0).
  - intros Hs. destruct Hkey as [Hk|Hk]; [|done]. destruct (Htop key Hk) as [H1 H2].
    destruct (decide (Z.of_nat (size m) < cap)) as [Hroom|Hfull]; [by rewrite H2|].
    destruct (halve_size m) as (key' & c & Hl & Hc); [lia|]. specialize (H1 _ _ Hl).
    specialize (HX key). apply Z.div_small.
    pose proof (Z.div_mod c 2). pose proof (Z.mod_pos_bound c 2). lia.
Qed.

Lemma exact_values t pre : exact_state t pre →
  ∀ key c, hot t !! key = Some c → c = tally id pre key.
Proof. intros [_ Hex] key c Hl. by apply (exact_hot _ _ _ _ Hex). Qed.

Lemma top_step t t' pre ev post : evs = pre ++ ev :: post → event_ok ev → wf t →
  same_params t0 t → play1 (N:=N) t ev = Some t' → exact_state t pre →
  (∀ key, ev ≠ Forgot key) → top (k t) (hot t) (tally id pre) →
  top (k t') (hot t') (tally id (pre ++ [ev])).
Proof.
  intros Hevs Hok Hwf Hp Hplay Hst Hnf Htop.
  destruct (prefix_facts pre ev post Hevs) as (Hpre & Hpre' & _ & _).
  pose proof (exact_values t pre Hst) as Hex. pose proof (wf_hot_size t Hwf) as Hcap.
  assert (∀ key, 0 <= tally id pre key) as HX by (intros; by apply tally_nonneg).
  destruct ev as [key n|key| |]; [|by destruct (Hnf key)| |].
  - cbn in Hplay. destruct (add t key n) as [x|] eqn:Hx; [|done].
    destruct (seen_exact t x pre key n post) as (_ & _ & (Hk & _) & _ & Hspec & HX'); try done.
    destruct x as [res t1]. simplify_eq/=. rewrite Hk.
    refine (top_seen (k t) _ _ _ _ _ _ (tally id pre) _ _ _ HX Hspec eq_refl _ _ Hex Hcap Htop).
    + destruct Hp as (_ & _ & _ & _ & ->). done.
    + by apply tally_nonneg.
    + cbn in Hok. width.
    + intros key' Hne. rewrite tally_snoc. unfold tally1, id. by rewrite decide_False by done.
  - destruct (Fading_run t Hwf) as (t1 & Hrun & _ & (Hk & _) & _ & _ & Hh).
    assert (t' = t1) as -> by (cbn in *; congruence). rewrite Hk, Hh, tally_snoc.
    by apply top_faded.
  - injection Hplay as <-. destruct (reset_wf t Hwf) as (_ & _ & Hh). rewrite Hh, tally_snoc.
    intros key' _. split; [|done]. intros key c. by rewrite lookup_empty.
Qed.

Lemma top_run : (∀ key, Forgot key ∉ evs) → exact_state t0 [] → hot t0 = ∅ →
  ∃ t', play t0 evs = Some t' ∧ wf t' ∧ same_params t0 t' ∧ exact_state t' evs ∧
    top (k t') (hot t') (tally id evs).
Proof.
  intros Hnf Hst0 Hh0.
  apply (play_invariant evs (λ t pre, exact_state t pre ∧ top (k t) (hot t) (tally id pre)));
    [done|done| |].
  - split; [done|]. intros key _. split; [|done]. intros key' c. by rewrite Hh0, lookup_empty.
  - intros t t' pre ev post Hevs Hok Hwf Hp Hplay [Hst Htop].
    split; [by apply (exact_step t t' pre ev post)|].
    apply (top_step t t' pre ev post); try done. intros key ->. apply (Hnf key).
    rewrite Hevs. set_solver.
Qed.
End exact_runs.

Lemma exact_state_empty U j t : wf t → hot t = ∅ → (t = reset (N:=N) t) →
  exact_state U j t [].
Proof.
  intros Hwf Hh Ht. rewrite Ht, (reset_run (N:=N) t Hwf). split.
  - apply over_new, Hwf.
  - split.
    + cbn. intros row key [-> _]%lookup_replicate HkU.
      exists (mkBucket 0 0). split; [|done]. unfold zero_row. apply lookup_replicate.
      split; [done|]. unfold slot. pose proof (wf_width t Hwf).
      pose proof (Z.mod_pos_bound (murmur3_SeedSum32 (u32 (Z.of_nat j)) key) (width t)). lia.
    + intros key c. rewrite <-(reset_run (N:=N) t Hwf), <-Ht, Hh. by rewrite lookup_empty.
Qed.

Lemma NewHeavyKeeper_reset k0 w d dec min : in_u32 k0 → 0 < w → 0 <= d →
  NewHeavyKeeper (N:=N) k0 w d dec min = reset (N:=N) (NewHeavyKeeper (N:=N) k0 w d dec min).
Proof.
  intros. rewrite reset_run; [done|]. by apply NewHeavyKeeper_wf.
Qed.

Lemma reset_reset t : wf t → reset (N:=N) t = reset (N:=N) (reset (N:=N) t).
Proof.
  intros Hwf. rewrite (reset_run (N:=N) (reset (N:=N) t)) by (by apply reset_wf).
  by rewrite (reset_run (N:=N) t Hwf).
Qed.

(** ** The list of a sketch *)

Lemma List_elem t l it : wf t → List (N:=N) t = Some l →
  it ∈ l ↔ hot t !! Item_Key it = Some (Item_Count it).
Proof.
  intros Hwf Hl. destruct (List_run t Hwf) as (l' & Hl' & Hp & _).
  assert (l' = l) as -> by congruence. rewrite <-elem_of_map_to_list, <-Hp.
  rewrite list_elem_of_fmap. split.
  - intros Hin. by exists it.
  - intros ([key c] & [= ? ?] & Hin). destruct it as [key' c']. cbn in *. by subst.
Qed.

Lemma List_NoDup t l : wf t → List (N:=N) t = Some l → NoDup (Item_Key <$> l).
Proof.
  intros Hwf Hl. destruct (List_run t Hwf) as (l' & Hl' & Hp & _).
  assert (l' = l) as -> by congruence.
  replace (Item_Key <$> l) with ((item_pair <$> l).*1) by by rewrite <-list_fmap_compose.
  rewrite Hp. apply NoDup_fst_map_to_list.
Qed.

Lemma List_length t l : wf t → List (N:=N) t = Some l → length l = size (hot t).
Proof.
  intros Hwf Hl. destruct (List_run t Hwf) as (l' & Hl' & Hp & _).
  assert (l' = l) as -> by congruence.
  by rewrite <-(length_fmap item_pair l), Hp, length_map_to_list.
Qed.

Lemma hotter_asym it it' : hotter it it' → ¬ hotter it' it.
Proof.
  unfold hotter. intros H1 H2. pose proof (swo_trans _ _ _ H1 H2) as H3.
  by rewrite swo_irrefl in H3.
Qed.

(** The list is determined by the tracked keys and their counts. *)
Lemma List_hot t t' l l' : wf t → wf t' → hot t' = hot t →
  List (N:=N) t = Some l → List (N:=N) t' = Some l' → l' = l.
Proof.
  intros Hwf Hwf' Hh Hl Hl'.
  destruct (List_run t Hwf) as (l0 & Hl0 & Hp & Hs). assert (l0 = l) as -> by congruence.
  destruct (List_run t' Hwf') as (l1 & Hl1 & Hp' & Hs'). assert (l1 = l') as -> by congruence.
  apply (StronglySorted_strict_unique hotter); try done; [apply hotter_asym|].
  apply NoDup_Permutation;
    [by apply (NoDup_fmap_1 Item_Key), (List_NoDup t')|by apply (NoDup_fmap_1 Item_Key), (List_NoDup t)|].
  intros it. by rewrite (List_elem t'), (List_elem t), Hh by done.
Qed.

(** What a list of distinct keys adds up to *)
Lemma tally_items l key : NoDup (Item_Key <$> l) →
  (∀ it, it ∈ l → Item_Key it = key → tally id (seen_item <$> l) key = Item_Count it) ∧
  (key ∉ Item_Key <$> l → tally id (seen_item <$> l) key = 0).
Proof.
  induction l as [|it l IH] using rev_ind; [by split; [intros ? ?%elem_of_nil|]|].
  rewrite !fmap_app. intros (Hl & Hd & _)%NoDup_app. destruct (IH Hl) as [H1 H2].
  change (seen_item <$> [it]) with [Seen (Item_Key it) (Item_Count it)].
  rewrite tally_snoc. unfold tally1. change (id (Item_Key it)) with (Item_Key it). split.
  - intros it' [Hin|Hin%list_elem_of_singleton]%elem_of_app Hk.
    + rewrite decide_False; [by apply H1|]. intros Heq.
      apply (Hd (Item_Key it')); [by apply list_elem_of_fmap_2|]. rewrite Hk, <-Heq. set_solver.
    + subst. rewrite decide_True by done.
      rewrite H2; [lia|]. intros Hin. apply (Hd _ Hin). set_solver.
  - intros Hn. rewrite decide_False by set_solver. apply H2. set_solver.
Qed.

(** ** The claims *)

Lemma sketch_wf k0 w d dec min ops t : in_u32 k0 → 0 < w → 0 <= d →
  Forall event_ok (history ops) → sketch_of (N:=N) k0 w d dec min ops t →
  wf t ∧ same_params (NewHeavyKeeper (N:=N) k0 w d dec min) t.
Proof.
  unfold sketch_of. rewrite run_play. intros Hk Hw Hd Hok Hrun.
  destruct (play_total (history ops) (NewHeavyKeeper (N:=N) k0 w d dec min)) as (t' & ? & ? & ?);
    [by apply NewHeavyKeeper_wf|done|].
  assert (t' = t) as -> by congruence. done.
Qed.

Lemma sketch_run k0 w d dec min ops (P : HeavyKeeper T → Prop) :
  (∃ t, play (NewHeavyKeeper (N:=N) k0 w d dec min) (history ops) = Some t ∧ wf t ∧ P t) →
  ∃ t l, sketch_of (N:=N) k0 w d dec min ops t ∧ List (N:=N) t = Some l ∧ wf t ∧ P t.
Proof.
  intros (t & Hrun & Hwf & HP). destruct (List_run t Hwf) as (l & Hl & _).
  exists t, l. split_and!; try done. unfold sketch_of. by rewrite run_play.
Qed.

(** C27. No sequence of sketch operations panics or diverges, whatever the hash
    values and the random draws are, on any sketch of positive width; the list of
    hot keys it then reports has at most [k] entries, distinct, hottest first. *)
Theorem sketch_never_panics k0 w d dec min ops :
  in_u32 k0 → 0 < w → 0 <= d → Forall event_ok (history ops) →
  ∃ t l, sketch_of (N:=N) k0 w d dec min ops t ∧ List (N:=N) t = Some l ∧
    Z.of_nat (length l) <= k0 ∧ Len (N:=N) t = Z.of_nat (length l) ∧
    NoDup (Item_Key <$> l) ∧ StronglySorted hotter l ∧
    ∀ key, Contains (N:=N) t key = bool_decide (key ∈ Item_Key <$> l).
Proof.
  intros Hk Hw Hd Hok. destruct (NewHeavyKeeper_wf (N:=N) k0 w d dec min Hk Hw Hd) as [Hwf0 _].
  destruct (sketch_run k0 w d dec min ops (λ t, k t = k0)) as (t & l & Ht & Hl & Hwf & Hkt).
  { destruct (play_total _ _ Hwf0 Hok) as (t & ? & ? & [? _]). eauto. }
  exists t, l. pose proof (wf_hot_size t Hwf) as Hsize. rewrite Hkt in Hsize.
  rewrite (List_length t l), (sketch_Len_run t) by done. split_and!; try done.
  - by eapply List_NoDup.
  - destruct (List_run t Hwf) as (l' & ? & _ & ?). by simplify_eq.
  - intros key. rewrite (sketch_Contains_run t) by done. apply bool_decide_ext. split.
    + intros [c Hc]. apply (list_elem_of_fmap_2 Item_Key l (mkItem key c)).
      by apply (List_elem t l).
    + intros (it & -> & Hin)%list_elem_of_fmap. apply (List_elem t l) in Hin; [by eexists|done..].
Qed.

Lemma least_count m k1 c1 k2 c2 : least m k1 c1 → least m k2 c2 → c1 = c2.
Proof.
  intros [H1 L1] [H2 L2]. destruct (decide (k1 = k2)) as [->|Hne]; [by simplify_eq|].
  specialize (L1 _ _ H2 (not_eq_sym Hne)). specialize (L2 _ _ H1 Hne).
  unfold item_lt in *. cbn in *. lia.
Qed.

Lemma add_heap_spec_tracked cap min m key est res m' :
  add_heap_spec cap min m key est res m' →
  (is_Some (m' !! key) ↔ is_Some (m !! key) ∨ enters_heap cap min m est).
Proof.
  unfold enters_heap. intros [Hlt|k0 c0 Hle Hs Hl Hc|rk m1 Hle Hroom Hup].
  - split; [by left|intros [?|[? _]]; [done|lia]].
  - split; [by left|]. intros [?|(_ & [?|(_ & k1 & c1 & Hl1 & ?)])]; [done|lia|].
    rewrite (least_count _ _ _ _ _ Hl1 Hl) in *. lia.
  - destruct Hup as [c0 Hm|Hm ->|Hm Hs|k0 c0 Hm H0 Hs Hl Hc|k0 c0 Hm H0 Hs Hl Hc].
    + rewrite lookup_insert_eq, Hm. naive_solver.
    + split; [by left|]. intros [?|(_ & [?|[? _]])]; [done|lia..].
    + rewrite lookup_insert_eq. naive_solver.
    + rewrite lookup_insert_eq. naive_solver.
    + split; [by left|]. intros [?|(_ & [?|(_ & k1 & c1 & Hl1 & ?)])]; [done|lia|].
      rewrite (least_count _ _ _ _ _ Hl1 Hl) in *. lia.
Qed.

Lemma add_heap_spec_said cap min m key est res m' :
  add_heap_spec cap min m key est res m' → (res.2 = true ↔ said_to_enter cap min m est).
Proof.
  unfold said_to_enter. intros [Hlt|k0 c0 Hle Hs Hl Hc|rk m1 Hle Hroom Hup]; [| |done].
  - split; [done|intros [? _]; lia].
  - split; [done|]. intros (_ & [?|Hall]); [lia|]. specialize (Hall _ _ Hl). lia.
Qed.

(** C26. [Add] implements its specification on every reachable sketch.  Each row's
    bucket of the key either counts the increment (wrapping at 32 bits), or, when
    another key owns it, is decayed by at most the increment and taken over only
    after that key's count has reached zero.  The key's estimate is the largest
    count of its own buckets.  The heap afterwards tracks the key exactly when it
    tracked it before, or the estimate reaches [minCount] and the heap has room or a
    least entry of {e strictly} lower count, which is expelled and returned; no other
    key enters or leaves.  [Add] answers [true] also on a tie with the least entry of
    a full heap, although the key did not enter then. *)
Theorem Add_refines k0 w d dec min ops t key incr :
  in_u32 k0 → 0 < w → 0 <= d → Forall event_ok (history ops) → in_u32 incr →
  sketch_of (N:=N) k0 w d dec min ops t →
  ∃ res t', Add (N:=N) t key incr = Some (res, t') ∧
    rows_stepped w key incr 0 (buckets t) (buckets t') ∧
    let est := estimate w key 0 (buckets t') in
    add_heap_spec k0 min (hot t) key est res (hot t') ∧
    (is_Some (hot t' !! key) ↔ is_Some (hot t !! key) ∨ enters_heap k0 min (hot t) est) ∧
    (res.2 = true ↔ said_to_enter k0 min (hot t) est) ∧
    Total t' = u64 (Total t + incr).
Proof.
  intros Hk Hw Hd Hok Hi Ht. destruct (sketch_wf _ _ _ _ _ _ _ Hk Hw Hd Hok Ht) as [Hwf Hp].
  destruct Hp as (Hpk & Hpw & _ & _ & Hpm). cbn in Hpk, Hpw, Hpm.
  destruct (add_run t key incr Hwf Hi) as (res & t' & Hrun & _ & _ & Hst & Htot & Hspec).
  rewrite Hpk, Hpw, Hpm in *. exists res, t'. cbv zeta. split_and!; try done.
  - by eapply add_heap_spec_tracked.
  - by eapply add_heap_spec_said.
Qed.

(** C20. The count the sketch reports for a key never exceeds the number of
    observations of the keys with its fingerprint (halved with every [Fading]),
    whatever collisions, decays, wrap-arounds, removals and restores happened. *)
Theorem counts_never_overestimate k0 w d dec min ops :
  in_u32 k0 → 0 < w → 0 <= d → Forall event_ok (history ops) →
  ∃ t l, sketch_of (N:=N) k0 w d dec min ops t ∧ List (N:=N) t = Some l ∧
    ∀ it, it ∈ l → 0 <= Item_Count it <= print_count ops (Item_Key it).
Proof.
  intros Hk Hw Hd Hok. destruct (NewHeavyKeeper_wf (N:=N) k0 w d dec min Hk Hw Hd) as [Hwf0 _].
  destruct (sketch_run k0 w d dec min ops
    (λ t, over_inv t (tally murmur3_Sum32 (history ops)))) as (t & l & Ht & Hl & Hwf & Hover).
  { destruct (over_run _ _ Hwf0 Hok (over_new _ _ _ _ _ Hk)) as (t & ? & ? & _ & ?). eauto. }
  exists t, l. split_and!; [done|done|]. intros it Hin.
  apply (List_elem t l) in Hin; [|done..]. split; [by apply (wf_hot_count t _ _ Hwf Hin)|].
  by apply (over_hot _ _ Hover).
Qed.

Lemma exact_new U j k0 w d dec min : in_u32 k0 → 0 < w → 0 <= d →
  exact_state U j (NewHeavyKeeper (N:=N) k0 w d dec min) [].
Proof.
  intros Hk Hw Hd. apply exact_state_empty; [by apply NewHeavyKeeper_wf..|].
  by apply NewHeavyKeeper_reset.
Qed.

(** C21. With [minCount] at most 1, its default, and where one row gives each key a
    bucket of its own and no two keys share a fingerprint, every count the sketch
    reports is the exact number of observations of that key (halved with every
    [Fading]), provided they total less than 2^32.  With a larger [minCount] a key
    keeps a stale count while its estimate is below it: [demo_stale_count]. *)
Theorem counts_exact k0 w d dec min j ops :
  in_u32 k0 → 0 < w → Z.of_nat j < d → min <= 1 → Forall event_ok (history ops) →
  weight (history ops) < 2 ^ 32 → separated w j (keys_of (history ops)) →
  ∃ t l, sketch_of (N:=N) k0 w d dec min ops t ∧ List (N:=N) t = Some l ∧
    ∀ it, it ∈ l → Item_Count it = exact ops (Item_Key it).
Proof.
  intros Hk Hw Hj Hmin Hok Hweight Hsep. assert (0 <= d) as Hd by lia.
  destruct (NewHeavyKeeper_wf (N:=N) k0 w d dec min Hk Hw Hd) as [Hwf0 _].
  destruct (sketch_run k0 w d dec min ops
    (λ t, exact_state (keys_of (history ops)) j t (history ops)))
    as (t & l & Ht & Hl & Hwf & Hst).
  { destruct (exact_run (keys_of (history ops)) j (history ops) _ Hwf0 Hok Hsep Hj Hmin
      (reflexivity _) Hweight (exact_new _ _ _ _ _ _ _ Hk Hw Hd)) as (t & ? & ? & _ & ?). eauto. }
  exists t, l. split_and!; [done|done|]. intros it Hin.
  apply (List_elem t l) in Hin; [|done..]. by apply (exact_values _ _ t _ Hst).
Qed.

(** C19. With [minCount] at most 1, its default, where one row gives each key a
    bucket of its own and no two keys share a fingerprint, while the observations
    total less than 2^32 and nothing is removed, the list is the true top [k]: it holds exact counts in rank order, no key outside it has
    been seen more often than a key in it, and a key outside it has not been seen
    at all unless the list is full. *)
Theorem top_k_complete k0 w d dec min j ops :
  in_u32 k0 → 0 < w → Z.of_nat j < d → min <= 1 → Forall event_ok (history ops) →
  weight (history ops) < 2 ^ 32 → separated w j (keys_of (history ops)) →
  (∀ key, ORemove key ∉ ops) →
  ∃ t l, sketch_of (N:=N) k0 w d dec min ops t ∧ List (N:=N) t = Some l ∧
    StronglySorted hotter l ∧ (∀ it, it ∈ l → Item_Count it = exact ops (Item_Key it)) ∧
    ∀ key, key ∉ Item_Key <$> l →
      (∀ it, it ∈ l → exact ops key <= Item_Count it) ∧
      (Z.of_nat (length l) < k0 → exact ops key = 0).
Proof.
  intros Hk Hw Hj Hmin Hok Hweight Hsep Hnr. assert (0 <= d) as Hd by lia.
  destruct (NewHeavyKeeper_wf (N:=N) k0 w d dec min Hk Hw Hd) as [Hwf0 Hh0].
  assert (∀ key, Forgot key ∉ history ops) as Hnf.
  { intros key (o & Ho & Hin)%list_elem_of_bind. destruct o as [| | | |items]; cbn in Ho.
    1,3,4: set_solver.
    - apply list_elem_of_singleton in Ho as [= ->]. by apply (Hnr key0).
    - apply elem_of_cons in Ho as [[=]|Ho]. by apply list_elem_of_fmap in Ho as (it & [=] & _). }
  destruct (sketch_run k0 w d dec min ops (λ t, k t = k0 ∧
      exact_state (keys_of (history ops)) j t (history ops) ∧
      top (k t) (hot t) (exact ops))) as (t & l & Ht & Hl & Hwf & Hkt & Hst & Htop).
  { destruct (top_run (keys_of (history ops)) j (history ops) _ Hwf0 Hok Hsep Hj Hmin
      (reflexivity _) Hweight Hnf (exact_new _ _ _ _ _ _ _ Hk Hw Hd) Hh0)
      as (t & ? & ? & [? _] & ? & ?). exists t. by split_and!. }
  exists t, l. split_and!; [done|done| | |].
  - destruct (List_run t Hwf) as (l' & ? & _ & ?). by simplify_eq.
  - intros it Hin. apply (List_elem t l) in Hin; [|done..]. by apply (exact_values _ _ t _ Hst).
  - intros key Hn. destruct (Htop key) as [H1 H2].
    { apply eq_None_not_Some. intros [c Hc]. apply Hn.
      apply (list_elem_of_fmap_2 Item_Key l (mkItem key c)). by apply (List_elem t l). }
    rewrite Hkt, <-(List_length t l) in H2 by done. split; [|done].
    intros it Hin. apply (List_elem t l) in Hin; [|done..]. by eapply H1.
Qed.

Lemma keys_of_seen l : keys_of (seen_item <$> l) = Item_Key <$> l.
Proof. induction l as [|it l IH]; [done|]. cbn. by f_equal. Qed.

(** What an empty sketch tracks once the items of a list, of distinct keys that it
    has room for, have been added to it: exactly these items. *)
Lemma restored_hot t l j : wf t → NoDup (Item_Key <$> l) → Z.of_nat (length l) <= k t →
  Forall (λ it, restorable it = true) l →
  exact_state (Item_Key <$> l) j t (seen_item <$> l) →
  top (k t) (hot t) (tally id (seen_item <$> l)) →
  ∀ it, hot t !! Item_Key it = Some (Item_Count it) ↔ it ∈ l.
Proof.
  intros Hwf Hnd Hlen Hres Hst Htop.
  assert (∀ it, it ∈ l → tally id (seen_item <$> l) (Item_Key it) = Item_Count it) as Hval.
  { intros it Hin. by apply (proj1 (tally_items l (Item_Key it) Hnd)). }
  assert (∀ key c, hot t !! key = Some c → mkItem key c ∈ l) as Hsub.
  { intros key c Hc. destruct Hst as [_ Hex]. destruct (exact_hot _ _ _ _ Hex _ _ Hc) as [Hin ->].
    apply list_elem_of_fmap in Hin as (it & -> & Hin). rewrite (Hval it Hin). by destruct it. }
  intros [key c]. cbn. split; [apply Hsub|]. intros Hin. pose proof (Hval _ Hin) as Hc. cbn in Hc.
  destruct (hot t !! key) as [c0|] eqn:Hkey.
  { f_equal. rewrite <-Hc. by apply (exact_values _ _ t _ Hst). }
  exfalso. destruct (Htop key Hkey) as [_ H2].
  rewrite Forall_forall in Hres. specialize (Hres _ Hin).
  apply negb_true_iff, orb_false_iff in Hres as [_ Hne%Z.eqb_neq]. cbn in Hne.
  apply Hne. rewrite <-Hc. apply H2.
  cut (size (hot t) < length l)%nat; [lia|].
  rewrite <-(length_fmap Item_Key l), <-(size_list_to_set (C:=gset string) _ Hnd), <-size_dom.
  apply subset_size. split.
  - intros key' [c' Hc']%elem_of_dom. apply elem_of_list_to_set, list_elem_of_fmap.
    exists (mkItem key' c'). split; [done|by apply Hsub].
  - intros Hall. specialize (Hall key). rewrite elem_of_dom, Hkey in Hall.
    destruct Hall as [? ?]; [|done]. apply elem_of_list_to_set, list_elem_of_fmap.
    by exists (mkItem key c).
Qed.

(** [Restore] of a list in rank order that the sketch has room for: the list is what
    [List] then returns. *)
Lemma Restore_exact t l j : wf t → Z.of_nat j < depth t → minCount t <= 1 →
  StronglySorted hotter l → NoDup (Item_Key <$> l) → Z.of_nat (length l) <= k t →
  Forall (λ it, restorable it = true ∧ in_u32 (Item_Count it)) l →
  weight (seen_item <$> l) < 2 ^ 32 → separated (width t) j (Item_Key <$> l) →
  ∃ t', Restore_ (N:=N) t l = Some t' ∧ List (N:=N) t' = Some l.
Proof.
  intros Hwf Hj Hmin Hsort Hnd Hlen [Hres Hu32]%Forall_and Hweight Hsep.
  destruct (reset_wf t Hwf) as (Hwf0 & (Hk0 & _) & Hh0).
  destruct (top_run (Item_Key <$> l) j (seen_item <$> l) (reset (N:=N) t) Hwf0)
    as (t' & Hrun & Hwf' & (Hk' & _) & Hst & Htop); try done.
  { by apply Forall_fmap. }
  { by rewrite keys_of_seen. }
  { intros key (it & [=] & _)%list_elem_of_fmap. }
  { apply exact_state_empty; [done|done|by apply reset_reset]. }
  exists t'. split; [unfold Restore_; by rewrite restore_loop_play, (filter_all _ _ Hres)|].
  destruct (List_run t' Hwf') as (l' & Hl' & _ & Hsort'). rewrite Hl'. f_equal.
  apply (StronglySorted_strict_unique hotter); [apply hotter_asym|done|done|].
  apply NoDup_Permutation;
    [by apply (NoDup_fmap_1 Item_Key), (List_NoDup t')|by apply (NoDup_fmap_1 Item_Key)|].
  intros it. rewrite (List_elem t') by done. apply (restored_hot t' l j); try done. by rewrite Hk', Hk0.
Qed.

(** What [List] returns is in rank order, of distinct keys, and fits. *)
Lemma List_sound t l : wf t → List (N:=N) t = Some l →
  StronglySorted hotter l ∧ NoDup (Item_Key <$> l) ∧ Z.of_nat (length l) <= k t ∧
  Forall (λ it, in_u32 (Item_Count it)) l.
Proof.
  intros Hwf Hl. split_and!.
  - destruct (List_run t Hwf) as (l' & Hl' & _ & Hs). by assert (l' = l) as <- by congruence.
  - by apply (List_NoDup t).
  - rewrite (List_length t) by done. by apply wf_hot_size.
  - apply Forall_forall. intros it Hin. apply (wf_hot_count t (Item_Key it)); [done|].
    by apply (List_elem t l).
Qed.

(** A hot set written by [List] and read by [Restore], into the sketch of
    another process with the same parameters and any past, is reproduced exactly:
    the same keys, counts and order. *)
Theorem Restore_List_roundtrip k0 w d dec min j ops ops' t t' l :
  in_u32 k0 → 0 < w → Z.of_nat j < d → min <= 1 →
  Forall event_ok (history ops) → Forall event_ok (history ops') →
  sketch_of (N:=N) k0 w d dec min ops t → List (N:=N) t = Some l →
  sketch_of (N:=N) k0 w d dec min ops' t' →
  Forall (λ it, restorable it = true) l → weight (seen_item <$> l) < 2 ^ 32 →
  separated w j (Item_Key <$> l) →
  ∃ t'', Restore_ (N:=N) t' l = Some t'' ∧ List (N:=N) t'' = Some l.
Proof.
  intros Hk Hw Hj Hmin Hok Hok' Ht Hl Ht' Hres Hweight Hsep. assert (0 <= d) as Hd by lia.
  destruct (sketch_wf _ _ _ _ _ _ _ Hk Hw Hd Hok Ht) as [Hwf (Hpk & _)].
  destruct (sketch_wf _ _ _ _ _ _ _ Hk Hw Hd Hok' Ht') as [Hwf' (Hpk' & Hpw' & Hpd' & _ & Hpm')].
  cbn in Hpk, Hpk', Hpw', Hpd', Hpm'. destruct (List_sound t l Hwf Hl) as (Hs & Hnd & Hlen & Hu32).
  apply (Restore_exact t' l j); try done; try congruence; try lia.
  - by apply Forall_and.
  - by rewrite Hpw'.
Qed.

(** [Reset] brings any reachable sketch back to exactly the state
    [NewHeavyKeeper] creates with its parameters, random stream included. *)
Theorem Reset_is_fresh k0 w d dec min ops t :
  in_u32 k0 → 0 < w → 0 <= d → Forall event_ok (history ops) →
  sketch_of (N:=N) k0 w d dec min ops t →
  Reset_ (N:=N) t = NewHeavyKeeper (N:=N) k0 w d dec min.
Proof.
  intros Hk Hw Hd Hok Ht. destruct (sketch_wf _ _ _ _ _ _ _ Hk Hw Hd Hok Ht) as [Hwf Hp].
  destruct Hp as (Hpk & Hpw & Hpd & Hpdec & Hpm). cbn in *.
  unfold Reset_. by rewrite (reset_run (N:=N) t Hwf), Hpk, Hpw, Hpd, Hpdec, Hpm.
Qed.

Lemma estimate_halved w w' key i rows : Forall (row_wf w') rows →
  estimate w key i ((λ row : list bucket, halve_bucket <$> row) <$> rows) =
  estimate w key i rows / 2.
Proof.
  intros Hrows. revert i. induction Hrows as [|row rows [_ Hc] _ IH]; intros i; [done|].
  rewrite fmap_cons. cbn [estimate]. rewrite IH.
  assert (row_estimate w key i (halve_bucket <$> row) = row_estimate w key i row / 2) as ->.
  { unfold row_estimate. rewrite list_lookup_fmap. destruct (row !! _) as [b|]; [|done].
    cbn. rewrite shiftr1_div. by destruct (fingerprint b =? murmur3_Sum32 key). }
  Z.to_euclidean_division_equations. lia.
Qed.

(** [Fading] halves what the sketch knows: the estimate of every key, the
    total, and the count of every hot key; a hot key whose count becomes zero is
    forgotten, and no other is. *)
Theorem Fading_halves k0 w d dec min ops t :
  in_u32 k0 → 0 < w → 0 <= d → Forall event_ok (history ops) →
  sketch_of (N:=N) k0 w d dec min ops t →
  ∃ t', Fading (N:=N) t = Some t' ∧ Total t' = Total t / 2 ∧
    (∀ key, estimate w key 0 (buckets t') = estimate w key 0 (buckets t) / 2) ∧
    ∀ key, Contains (N:=N) t' key = true ↔ ∃ c, hot t !! key = Some c ∧ 2 <= c ∧
      hot t' !! key = Some (c / 2).
Proof.
  intros Hk Hw Hd Hok Ht. destruct (sketch_wf _ _ _ _ _ _ _ Hk Hw Hd Hok Ht) as [Hwf Hp].
  destruct (Fading_run t Hwf) as (t' & Hrun & Hwf' & _ & Hb & Htot & Hh).
  exists t'. split_and!; [done|unfold Total; by rewrite Htot, shiftr1_div| |].
  - intros key. rewrite Hb. eapply estimate_halved, Hwf.
  - intros key. rewrite (sketch_Contains_run t') by done. rewrite bool_decide_eq_true, Hh, lookup_omap.
    destruct (hot t !! key) as [c|] eqn:Hc; cbn; [|split; [by intros []|naive_solver]].
    pose proof (wf_hot_count t key c Hwf Hc) as Hr.
    pose proof (Z.div_mod c 2). pose proof (Z.mod_pos_bound c 2). split.
    + intros [c' Hc']. rewrite Hc'. apply halve_Some in Hc' as [-> Hne]. exists c.
      split_and!; [done|width|done].
    + intros (c0 & [= <-] & _ & Hh'). by eexists.
Qed.
End proofs.

(** ** The sketch on the heap of package [minheap], run on a small example *)

#[local] Existing Instances merge_sorter merge_sorter_laws
  MinHeap.Heap_KeyedHeap MinHeap.Heap_KeyedHeapLaws.

(** A stand-in for the packages the sketch calls: a polynomial hash, and draws that
    always decay. *)
Definition demo_hash (s : string) : Z :=
  foldl (λ h c, (31 * h + Z.of_N (Ascii.N_of_ascii c)) mod 2 ^ 32) 7 (String.list_ascii_of_string s).
#[local] Instance demo_env : Env := {
  murmur3_Sum32 := demo_hash;
  murmur3_SeedSum32 seed s := (demo_hash s + 13 * seed) mod 2 ^ 32;
  math_Pow _ _ := f_of_Z 1;
  rand_Float64 _ := f_zero
}.

Abbreviation demo_k := 2.
Abbreviation demo_w := 16.
Abbreviation demo_d := 2.
Definition demo_ops : list op :=
  [OAdd "a" 3; OAdd "b" 5; OAdd "a" 1; OAdd "c" 2; OFading; OAdd "c" 4]%string.
Definition demo_new : HeavyKeeper MinHeap.Heap :=
  NewHeavyKeeper (N:=MinHeap.loc) demo_k demo_w demo_d f_zero 1.
Definition demo_sketch : HeavyKeeper MinHeap.Heap :=
  default demo_new (run (N:=MinHeap.loc) demo_new demo_ops).
Definition demo_list : list Item := [mkItem "c" 5; mkItem "a" 2]%string.

Example demo_hot : List (N:=MinHeap.loc) demo_sketch = Some demo_list.
Proof. vm_compute. reflexivity. Qed.

Lemma demo_run : sketch_of (N:=MinHeap.loc) demo_k demo_w demo_d f_zero 1 demo_ops demo_sketch.
Proof.
  unfold sketch_of, demo_sketch. fold demo_new.
  assert (match run (N:=MinHeap.loc) demo_new demo_ops with Some _ => true | None => false end = true)
    as Hrun by (vm_compute; reflexivity).
  by destruct (run (N:=MinHeap.loc) demo_new demo_ops).
Qed.

(** Why C19 and C21 ask for a [minCount] of at most 1: with 5, a key that fell to 2 in
    a [Fading] is counted once more but its list entry is not brought up to date, and
    a key seen four times is left out of a list that has room for it. *)
Definition demo_new5 : HeavyKeeper MinHeap.Heap :=
  NewHeavyKeeper (N:=MinHeap.loc) demo_k demo_w demo_d f_zero 5.
Definition demo_stale : list op := [OAdd "a" 5; OFading; OAdd "a" 1; OAdd "b" 4]%string.

Example demo_stale_count :
  run (N:=MinHeap.loc) demo_new5 demo_stale ≫= List (N:=MinHeap.loc) =
    Some [mkItem "a" 2]%string ∧
  exact demo_stale "a" = 3 ∧ exact demo_stale "b" = 4.
Proof. vm_compute. done. Qed.

Lemma demo_ok : Forall event_ok (history demo_ops).
Proof.
  assert (history demo_ops = [Seen "a" 3; Seen "b" 5; Seen "a" 1; Seen "c" 2; Faded; Seen "c" 4]%string)
    as -> by done.
  rewrite !Forall_cons, Forall_nil. cbn [event_ok]. split_and!; done || width.
Qed.

Lemma demo_separated : separated demo_w 0 (keys_of (history demo_ops)).
Proof.
  assert (keys_of (history demo_ops) = ["a"; "b"; "a"; "c"; "c"]%string) as -> by done.
  intros key1 key2. rewrite !elem_of_cons, !elem_of_nil. intros H1 H2 H3.
  destruct_or!; subst; try done; vm_compute in H3; discriminate.
Qed.

Lemma demo_list_separated : separated demo_w 0 (Item_Key <$> demo_list).
Proof.
  assert (Item_Key <$> demo_list = ["c"; "a"]%string) as -> by done.
  intros key1 key2. rewrite !elem_of_cons, !elem_of_nil. intros H1 H2 H3.
  destruct_or!; subst; try done; vm_compute in H3; discriminate.
Qed.

Abbreviation demo_sketch_of := (sketch_of (N:=MinHeap.loc) demo_k demo_w demo_d f_zero 1).

Lemma sketch_never_panics_witness : ∃ t l,
  demo_sketch_of demo_ops t ∧ List (N:=MinHeap.loc) t = Some l ∧
  Z.of_nat (length l) <= demo_k ∧ Len (N:=MinHeap.loc) t = Z.of_nat (length l) ∧
  NoDup (Item_Key <$> l) ∧ StronglySorted hotter l ∧
  ∀ key, Contains (N:=MinHeap.loc) t key = bool_decide (key ∈ Item_Key <$> l).
Proof.
  apply (sketch_never_panics demo_k demo_w demo_d f_zero 1 demo_ops); [done|lia|lia|exact demo_ok].
Defined.

Lemma Add_refines_witness : ∃ res t',
  Add (N:=MinHeap.loc) demo_sketch "d" 9 = Some (res, t') ∧
  rows_stepped demo_w "d" 9 0 (buckets demo_sketch) (buckets t') ∧
  let est := estimate demo_w "d" 0 (buckets t') in
  add_heap_spec demo_k 1 (hot (N:=MinHeap.loc) demo_sketch) "d" est res
    (hot (N:=MinHeap.loc) t') ∧
  (is_Some (hot (N:=MinHeap.loc) t' !! "d"%string) ↔
    is_Some (hot (N:=MinHeap.loc) demo_sketch !! "d"%string) ∨
    enters_heap demo_k 1 (hot (N:=MinHeap.loc) demo_sketch) est) ∧
  (res.2 = true ↔ said_to_enter demo_k 1 (hot (N:=MinHeap.loc) demo_sketch) est) ∧
  Total t' = u64 (Total demo_sketch + 9).
Proof.
  apply (Add_refines demo_k demo_w demo_d f_zero 1 demo_ops demo_sketch "d" 9);
    [done|lia|lia|exact demo_ok|done|exact demo_run].
Defined.

Lemma counts_never_overestimate_witness : ∃ t l,
  demo_sketch_of demo_ops t ∧ List (N:=MinHeap.loc) t = Some l ∧
  ∀ it, it ∈ l → 0 <= Item_Count it <= print_count demo_ops (Item_Key it).
Proof.
  apply (counts_never_overestimate demo_k demo_w demo_d f_zero 1 demo_ops);
    [done|lia|lia|exact demo_ok].
Defined.

Lemma counts_exact_witness : ∃ t l,
  demo_sketch_of demo_ops t ∧ List (N:=MinHeap.loc) t = Some l ∧
  ∀ it, it ∈ l → Item_Count it = exact demo_ops (Item_Key it).
Proof.
  apply (counts_exact demo_k demo_w demo_d f_zero 1 0 demo_ops);
    [done|lia|lia|lia|exact demo_ok|done|exact demo_separated].
Defined.

Lemma top_k_complete_witness : ∃ t l,
  demo_sketch_of demo_ops t ∧ List (N:=MinHeap.loc) t = Some l ∧
  StronglySorted hotter l ∧ (∀ it, it ∈ l → Item_Count it = exact demo_ops (Item_Key it)) ∧
  ∀ key, key ∉ Item_Key <$> l →
    (∀ it, it ∈ l → exact demo_ops key <= Item_Count it) ∧
    (Z.of_nat (length l) < demo_k → exact demo_ops key = 0).
Proof.
  apply (top_k_complete demo_k demo_w demo_d f_zero 1 0 demo_ops);
    [done|lia|lia|lia|exact demo_ok|done|exact demo_separated|].
  intros key. unfold demo_ops. rewrite !elem_of_cons, elem_of_nil. naive_solver.
Defined.

Lemma Restore_List_roundtrip_witness : ∃ t'',
  Restore_ (N:=MinHeap.loc) demo_new demo_list = Some t'' ∧
  List (N:=MinHeap.loc) t'' = Some demo_list.
Proof.
  apply (Restore_List_roundtrip demo_k demo_w demo_d f_zero 1 0 demo_ops [] demo_sketch
    demo_new demo_list);
    [done|lia|lia|lia|exact demo_ok|by constructor|exact demo_run|exact demo_hot|done|
     |done|exact demo_list_separated].
  repeat constructor.
Defined.

Lemma Reset_is_fresh_witness : Reset_ (N:=MinHeap.loc) demo_sketch = demo_new.
Proof.
  apply (Reset_is_fresh demo_k demo_w demo_d f_zero 1 demo_ops demo_sketch);
    [done|lia|lia|exact demo_ok|exact demo_run].
Defined.

Lemma Fading_halves_witness : ∃ t',
  Fading (N:=MinHeap.loc) demo_sketch = Some t' ∧ Total t' = Total demo_sketch / 2 ∧
  (∀ key, estimate demo_w key 0 (buckets t') = estimate demo_w key 0 (buckets demo_sketch) / 2) ∧
  ∀ key, Contains (N:=MinHeap.loc) t' key = true ↔
    ∃ c, hot (N:=MinHeap.loc) demo_sketch !! key = Some c ∧ 2 <= c ∧
      hot (N:=MinHeap.loc) t' !! key = Some (c / 2).
Proof.
  apply (Fading_halves demo_k demo_w demo_d f_zero 1 demo_ops demo_sketch);
    [done|lia|lia|exact demo_ok|exact demo_run].
Defined.

(** The doc comment of [Add], "return if item had been add into minheap", does not
    describe it: a key that ties with the minimum of a full heap is rejected by
    [Upsert] and reported as added. *)
Theorem Add_reports_rejected_key : ∃ t',
  Add (N:=MinHeap.loc) demo_sketch "d" 2 = Some ((EmptyString, true), t') ∧
  Contains (N:=MinHeap.loc) t' "d" = false.
Proof.
  assert (match Add (N:=MinHeap.loc) demo_sketch "d" 2 with
          | Some ((EmptyString, true), t') => Contains (N:=MinHeap.loc) t' "d" = false
          | _ => False end) as H by (vm_compute; reflexivity).
  destruct (Add demo_sketch "d" 2) as [[[[|] []] t']|]; try done. by exists t'.
Qed.
