(* ===== verification/Policy.v ===== *)
(** * The eviction policy (policy.go)

    The thresholds an operator configures, their validation, and the decision to
    start, continue or stop evicting.  Durations are [int64] nanoseconds, byte
    counts [int64], percentages [float64].  Each error [Validate] can return is a
    constructor carrying what the message prints. *)

From S2P Require Import Prelude Float64.
Local Open Scope Z_scope.

(** ** Data *)

Record EvictionPolicy := mkPolicy {
  DiskCheckInterval : Z;
  CheckpointInterval : Z;
  TopKDecayInterval : Z;
  MinimumResidence : Z;
  WarmupDuration : Z;
  MinPercentBlocksFree : float64;
  EvictUntilPercentBlocksFree : float64;
  MaxCacheBytes : Z;
  TargetCacheBytes : Z;
  MinActionCacheBytes : Z;
  CleanupBatchSize : Z;
  TopKCapacity : Z;
  TopKWidth : Z;
  TopKDepth : Z;
  TopKDecay : float64;
  TopKMinCount : Z;
  Shadow : bool
}.

Record pressureSnapshot := mkPressure { percentBlocksFree : float64; cacheBytes : Z }.

Inductive PolicyError :=
| ErrDiskCheckInterval (d : Z)
| ErrCheckpointInterval (d : Z)
| ErrTopKDecayInterval (d : Z)
| ErrNegativeDurations
| ErrPercent (name : string) (value : float64)
| ErrFreeThresholds (minimum target : float64)
| ErrCacheTarget (target maximum : Z)
| ErrMinActionCache (bytes : Z)
| ErrCleanupBatch (n : Z)
| ErrTopKSizes
| ErrTopKDecay (d : float64).

(** ** Operations *)

Definition f_100 : float64 := f_of_Z 100.
Definition f_1 : float64 := f_of_Z 1.

Definition validatePercent (name : string) (value : float64) : option PolicyError :=
  if f_is_nan value || f_is_inf value || f_lt value f_zero || f_lt f_100 value
  then Some (ErrPercent name value) else None.

(** [None] is the nil error. *)
Definition Validate (p : EvictionPolicy) : option PolicyError :=
  if DiskCheckInterval p <=? 0 then Some (ErrDiskCheckInterval (DiskCheckInterval p)) else
  if CheckpointInterval p <=? 0 then Some (ErrCheckpointInterval (CheckpointInterval p)) else
  if TopKDecayInterval p <=? 0 then Some (ErrTopKDecayInterval (TopKDecayInterval p)) else
  if (MinimumResidence p <? 0) || (WarmupDuration p <? 0) then Some ErrNegativeDurations else
  match validatePercent "minimum free blocks" (MinPercentBlocksFree p) with
  | Some err => Some err
  | None =>
  match validatePercent "eviction target" (EvictUntilPercentBlocksFree p) with
  | Some err => Some err
  | None =>
  if f_le (EvictUntilPercentBlocksFree p) (MinPercentBlocksFree p)
  then Some (ErrFreeThresholds (MinPercentBlocksFree p) (EvictUntilPercentBlocksFree p)) else
  if (MaxCacheBytes p <=? 0) || (TargetCacheBytes p <? 0) || (MaxCacheBytes p <=? TargetCacheBytes p)
  then Some (ErrCacheTarget (TargetCacheBytes p) (MaxCacheBytes p)) else
  if (MinActionCacheBytes p <? 0) || (TargetCacheBytes p <? MinActionCacheBytes p)
  then Some (ErrMinActionCache (MinActionCacheBytes p)) else
  if CleanupBatchSize p <=? 0 then Some (ErrCleanupBatch (CleanupBatchSize p)) else
  if (TopKCapacity p =? 0) || (TopKWidth p =? 0) || (TopKDepth p =? 0) || (TopKMinCount p =? 0)
  then Some ErrTopKSizes else
  if f_is_nan (TopKDecay p) || f_is_inf (TopKDecay p) || f_le (TopKDecay p) f_zero ||
     f_le f_1 (TopKDecay p)
  then Some (ErrTopKDecay (TopKDecay p)) else None
  end end.

Definition nextEvicting (p : EvictionPolicy) (current : bool) (snapshot : pressureSnapshot) : bool :=
  if negb current then
    f_le (percentBlocksFree snapshot) (MinPercentBlocksFree p) ||
    (MaxCacheBytes p <=? cacheBytes snapshot)
  else
    f_lt (percentBlocksFree snapshot) (EvictUntilPercentBlocksFree p) ||
    (TargetCacheBytes p <? cacheBytes snapshot).

(** ** Specification *)

(** A percentage is a number between 0 and 100. *)
Definition percent (x : float64) : Prop := f_le f_zero x = true ∧ f_le x f_100 = true.

Record valid (p : EvictionPolicy) : Prop := {
  valid_intervals : 0 < DiskCheckInterval p ∧ 0 < CheckpointInterval p ∧ 0 < TopKDecayInterval p;
  valid_durations : 0 <= MinimumResidence p ∧ 0 <= WarmupDuration p;
  valid_percents : percent (MinPercentBlocksFree p) ∧ percent (EvictUntilPercentBlocksFree p);
  valid_free : f_lt (MinPercentBlocksFree p) (EvictUntilPercentBlocksFree p) = true;
  valid_bytes : 0 <= MinActionCacheBytes p <= TargetCacheBytes p ∧
                TargetCacheBytes p < MaxCacheBytes p;
  valid_batch : 0 < CleanupBatchSize p;
  valid_topk : TopKCapacity p ≠ 0 ∧ TopKWidth p ≠ 0 ∧ TopKDepth p ≠ 0 ∧ TopKMinCount p ≠ 0;
  valid_decay : f_lt f_zero (TopKDecay p) = true ∧ f_lt (TopKDecay p) f_1 = true
}.

(** The sizes of the sketch are [uint32]. *)
Record topk_u32 (p : EvictionPolicy) : Prop := {
  capacity_u32 : in_u32 (TopKCapacity p);
  width_u32 : in_u32 (TopKWidth p);
  depth_u32 : in_u32 (TopKDepth p);
  minCount_u32 : in_u32 (TopKMinCount p)
}.

(** ** Lemmas *)

Lemma f_le_not_nan x y : f_le x y = true → f_is_nan x = false ∧ f_is_nan y = false.
Proof. rewrite f_le_key. intros (a & b & Ha & Hb & _). by destruct x, y. Qed.

Lemma f_lt_inf x y : f_lt x y = true → f_is_inf y = false →
  f_lt f_zero x = true → f_is_inf x = false.
Proof.
  intros Hxy Hy Hx. destruct x as [|[]| |]; try done. by destruct y as [|[]| |].
Qed.

Lemma validatePercent_None name x : validatePercent name x = None ↔ percent x.
Proof.
  unfold validatePercent, percent.
  destruct (f_is_nan x) eqn:Hn; cbn [orb].
  { split; [done|]. intros [H _]. apply f_le_not_nan in H. naive_solver congruence. }
  rewrite <-!f_not_lt by done. destruct (f_is_inf x) eqn:Hi; cbn [orb].
  { split; [done|]. destruct x as [|[]| |]; try done; by intros [? ?]. }
  destruct (f_lt x f_zero), (f_lt f_100 x); cbn [orb]; intuition congruence.
Qed.

Lemma orb_none {A} (b : bool) (e : A) (r : option A) :
  (if b then Some e else r) = None ↔ b = false ∧ r = None.
Proof. destruct b; naive_solver. Qed.

(** C35. [Validate] accepts exactly the policies that make sense: positive
    intervals, non-negative residence and warm-up, both watermarks percentages
    with the start strictly below the target, 0 <= action-cache floor <= target <
    maximum, a positive batch, a non-empty sketch and a decay strictly between 0
    and 1 (no NaN or infinity anywhere). *)
Theorem Validate_accepts p : Validate p = None ↔ valid p.
Proof.
  unfold Validate. rewrite !orb_none, !orb_false_iff, !Z.leb_gt, !Z.ltb_ge.
  destruct (validatePercent "minimum free blocks" _) as [e1|] eqn:H1.
  { split; [naive_solver|]. intros []. destruct valid_percents0 as [Hp _].
    apply (validatePercent_None "minimum free blocks") in Hp. congruence. }
  destruct (validatePercent "eviction target" _) as [e2|] eqn:H2.
  { split; [naive_solver|]. intros []. destruct valid_percents0 as [_ Hp].
    apply (validatePercent_None "eviction target") in Hp. congruence. }
  apply validatePercent_None in H1, H2.
  rewrite !orb_none, !orb_false_iff, !Z.leb_gt, !Z.ltb_ge, !Z.eqb_neq.
  assert (f_le (EvictUntilPercentBlocksFree p) (MinPercentBlocksFree p) = false ↔
    f_lt (MinPercentBlocksFree p) (EvictUntilPercentBlocksFree p) = true) as ->.
  { destruct H1 as [H1 _], H2 as [H2 _]. apply f_le_not_nan in H1 as [_ H1], H2 as [_ H2].
    pose proof (f_not_lt _ _ H1 H2). destruct (f_lt _ _), (f_le _ _); naive_solver. }
  assert (((f_is_nan (TopKDecay p) = false ∧ f_is_inf (TopKDecay p) = false) ∧
      f_le (TopKDecay p) f_zero = false) ∧ f_le f_1 (TopKDecay p) = false ↔
    f_lt f_zero (TopKDecay p) = true ∧ f_lt (TopKDecay p) f_1 = true) as Hdecay.
  { pose proof (f_not_lt f_zero (TopKDecay p)) as E1. pose proof (f_not_lt (TopKDecay p) f_1) as E2.
    split.
    - intros [[[Hn _] Hz] Ho]. specialize (E1 eq_refl Hn). specialize (E2 Hn eq_refl).
      rewrite Hz in E1. rewrite Ho in E2.
      split; apply not_false_iff_true; intros E; [apply E1 in E|apply E2 in E]; done.
    - intros [Hz Ho]. pose proof (f_lt_not_nan _ _ Ho) as [Hn _].
      specialize (E1 eq_refl Hn). specialize (E2 Hn eq_refl).
      pose proof (f_lt_inf _ _ Ho eq_refl Hz).
      split_and!; try done; apply not_true_iff_false; naive_solver congruence. }
  split.
  - intros (?&?&?&[??]&?&[[??]?]&[??]&?&[[[??]?]?]&Hd&_).
    apply Hdecay in Hd. split; try done; lia.
  - intros [? [? ?] _ ? ? ? ? Hd]. apply Hdecay in Hd. split_and!; try done; lia || naive_solver.
Qed.

(** C36. A valid policy has hysteresis.  Eviction starts exactly when the free percentage
    is down at [MinPercentBlocksFree] or the cache is up at [MaxCacheBytes]; it stops
    exactly when the free percentage is up at [EvictUntilPercentBlocksFree] and the
    cache down at [TargetCacheBytes].  A snapshot that starts eviction also keeps it
    going, so eviction never stops at the pressure that started it; and between a
    snapshot that stops eviction and one that starts it again, either the free
    percentage has fallen across both watermarks, from the target down to the minimum
    strictly below it, or the cache has grown by at least the distance between its two
    limits, which is positive. *)
Theorem nextEvicting_hysteresis p : valid p →
  (∀ s, nextEvicting p false s = true ↔
     f_le (percentBlocksFree s) (MinPercentBlocksFree p) = true ∨ MaxCacheBytes p <= cacheBytes s) ∧
  (∀ s, f_is_nan (percentBlocksFree s) = false → nextEvicting p true s = false ↔
     f_le (EvictUntilPercentBlocksFree p) (percentBlocksFree s) = true ∧
     cacheBytes s <= TargetCacheBytes p) ∧
  (∀ s, nextEvicting p false s = true → nextEvicting p true s = true) ∧
  ∀ stop start, f_is_nan (percentBlocksFree stop) = false →
    nextEvicting p true stop = false → nextEvicting p false start = true →
    (f_le (percentBlocksFree start) (MinPercentBlocksFree p) = true ∧
     f_lt (MinPercentBlocksFree p) (EvictUntilPercentBlocksFree p) = true ∧
     f_le (EvictUntilPercentBlocksFree p) (percentBlocksFree stop) = true) ∨
    0 < MaxCacheBytes p - TargetCacheBytes p <= cacheBytes start - cacheBytes stop.
Proof.
  intros Hv. pose proof (valid_free p Hv) as Hfree. destruct (valid_bytes p Hv) as [_ Hbytes].
  pose proof (f_lt_not_nan _ _ Hfree) as [_ Htarget].
  assert (∀ s, nextEvicting p false s = true ↔
    f_le (percentBlocksFree s) (MinPercentBlocksFree p) = true ∨ MaxCacheBytes p <= cacheBytes s) as Hstarts.
  { intros s. unfold nextEvicting. cbn [negb]. by rewrite orb_true_iff, Z.leb_le. }
  assert (∀ s, f_is_nan (percentBlocksFree s) = false → nextEvicting p true s = false ↔
    f_le (EvictUntilPercentBlocksFree p) (percentBlocksFree s) = true ∧ cacheBytes s <= TargetCacheBytes p) as Hstops.
  { intros s Hn. unfold nextEvicting. cbn [negb]. by rewrite orb_false_iff, Z.ltb_ge, f_not_lt. }
  split; [done|]. split; [done|]. split.
  - intros s [Hs|Hs]%Hstarts; unfold nextEvicting; cbn [negb]; apply orb_true_iff.
    + left. by eapply f_le_lt_trans.
    + right. apply Z.ltb_lt. lia.
  - intros stop start Hn [Hstop Hstop2]%Hstops [Hs|Hs]%Hstarts; [by left|right; lia|done].
Qed.

(** A policy in the shape of the defaults of main.go, in bytes and nanoseconds. *)
Definition demo_policy : EvictionPolicy :=
  mkPolicy (60 * 10^9) (300 * 10^9) (3600 * 10^9) (3600 * 10^9) (1800 * 10^9)
    (f_of_Z 30) (f_of_Z 35) (400 * 2^30) (320 * 2^30) (4 * 2^30) 100 100000 (2^17) 4
    (f_div (f_of_Z 9) (f_of_Z 10)) 1 true.

Example demo_policy_Validate : Validate demo_policy = None.
Proof. vm_compute. reflexivity. Qed.

Lemma nextEvicting_hysteresis_witness :
  (∀ s, nextEvicting demo_policy false s = true ↔
     f_le (percentBlocksFree s) (MinPercentBlocksFree demo_policy) = true ∨ MaxCacheBytes demo_policy <= cacheBytes s) ∧
  (∀ s, f_is_nan (percentBlocksFree s) = false → nextEvicting demo_policy true s = false ↔
     f_le (EvictUntilPercentBlocksFree demo_policy) (percentBlocksFree s) = true ∧
     cacheBytes s <= TargetCacheBytes demo_policy) ∧
  (∀ s, nextEvicting demo_policy false s = true → nextEvicting demo_policy true s = true) ∧
  ∀ stop start, f_is_nan (percentBlocksFree stop) = false →
    nextEvicting demo_policy true stop = false → nextEvicting demo_policy false start = true →
    (f_le (percentBlocksFree start) (MinPercentBlocksFree demo_policy) = true ∧
     f_lt (MinPercentBlocksFree demo_policy) (EvictUntilPercentBlocksFree demo_policy) = true ∧
     f_le (EvictUntilPercentBlocksFree demo_policy) (percentBlocksFree stop) = true) ∨
    0 < MaxCacheBytes demo_policy - TargetCacheBytes demo_policy <= cacheBytes start - cacheBytes stop.
Proof.
  apply (nextEvicting_hysteresis demo_policy). split; try (vm_compute; intuition congruence).
Defined.
