(* ===== verification/Paths.v ===== *)
(** * Package path/filepath, as the program uses it on Unix

    The lexical functions: [strings.Split] on slashes, [Clean], [IsAbs], [Join],
    [Abs] and [Rel].  A path is a Go string, a sequence of bytes; on Unix [ToSlash]
    and [FromSlash] are the identity.  The lemmas say that a cleaned absolute path
    is a list of proper names, and that [Rel] undoes [Join] below a root. *)

From S2P Require Import Prelude.
From Stdlib Require Import Ascii.
Local Open Scope string_scope.

(** ** Results that may be an error *)

Inductive result (E A : Type) : Type :=
| Ok (a : A)
| Err (e : E).
Arguments Ok {E A}. Arguments Err {E A}.

Definition result_bind {E A B} (x : result E A) (f : A → result E B) : result E B :=
  match x with Ok a => f a | Err e => Err e end.

(** ** Strings *)

Definition sep : ascii := "/".

(** [strings.Split(s, "/")] *)
Fixpoint split (s : string) : list string :=
  match s with
  | EmptyString => [EmptyString]
  | String c s =>
      if Ascii.eqb c sep then EmptyString :: split s
      else match split s with
           | [] => [String c EmptyString]
           | w :: ws => String c w :: ws
           end
  end.

(** [strings.Join(ws, "/")] *)
Fixpoint join (ws : list string) : string :=
  match ws with
  | [] => EmptyString
  | [w] => w
  | w :: ws => w ++ String sep (join ws)
  end.

Definition IsAbs (path : string) : bool :=
  match path with String c _ => Ascii.eqb c sep | EmptyString => false end.

(** ** [Clean] *)

(** One element of the path, on the elements kept so far (last first). *)
Definition clean_step (rooted : bool) (out : list string) (w : string) : list string :=
  if String.eqb w EmptyString || String.eqb w "." then out
  else if String.eqb w ".." then
    match out with
    | x :: out' => if String.eqb x ".." then w :: out else out'
    | [] => if rooted then [] else [w]
    end
  else w :: out.

Definition clean_comps (rooted : bool) (ws : list string) : list string :=
  reverse (foldl (clean_step rooted) [] ws).

Definition render (rooted : bool) (ws : list string) : string :=
  if rooted then String sep (join ws)
  else match ws with [] => "." | _ => join ws end.

Definition Clean (path : string) : string :=
  render (IsAbs path) (clean_comps (IsAbs path) (split path)).

(** ** [Join], [Abs], [Rel] *)

Definition Join (elems : list string) : string :=
  match filter (λ e, e ≠ EmptyString) elems with
  | [] => EmptyString
  | elems => Clean (join elems)
  end.

(** [Dir]: all but the last element, cleaned *)
Definition Dir (path : string) : string :=
  Clean (join (removelast (split path) ++ [EmptyString])).

(** The working directory is what [os.Getwd] answers; the program never changes it. *)
Definition Abs {E} (getwd : result E string) (path : string) : result E string :=
  if IsAbs path then Ok (Clean path)
  else result_bind getwd (λ wd, Ok (Join [wd; path])).

Definition path_comps (path : string) : list string :=
  filter (λ w, w ≠ EmptyString) (split path).

(** [None]: the target cannot be made relative to the base. *)
Fixpoint rel_loop (base targ : list string) : option string :=
  match base, targ with
  | x :: base', y :: targ' =>
      if String.eqb x y then rel_loop base' targ'
      else if String.eqb x ".." then None
      else Some (join (((λ _, "..") <$> base) ++ targ)%list)
  | _, _ => Some (join (((λ _, "..") <$> base) ++ targ)%list)
  end.

Definition Rel (basepath targpath : string) : option string :=
  let base := Clean basepath in
  let targ := Clean targpath in
  if String.eqb targ base then Some "." else
  let base := if String.eqb base "." then EmptyString else base in
  if negb (Bool.eqb (IsAbs base) (IsAbs targ)) then None
  else rel_loop (path_comps base) (path_comps targ).

(** ** Specification: proper names *)

Fixpoint no_sep (s : string) : Prop :=
  match s with EmptyString => True | String c s => c ≠ sep ∧ no_sep s end.

(** A proper name of a directory entry *)
Definition name (w : string) : Prop :=
  w ≠ EmptyString ∧ w ≠ "." ∧ w ≠ ".." ∧ no_sep w.

(** A cleaned absolute path *)
Definition abs_path (path : string) (ws : list string) : Prop :=
  path = render true ws ∧ Forall name ws.

(** ** Lemmas *)

Lemma split_nonempty s : split s ≠ [].
Proof. destruct s as [|c s]; [done|]. cbn. case_match; [done|]. by case_match. Qed.

Lemma join_cons w ws : ws ≠ [] → join (w :: ws) = w ++ String sep (join ws).
Proof. by destruct ws. Qed.

Lemma string_app_cons c s t : String c s ++ t = String c (s ++ t).
Proof. done. Qed.

Lemma join_split s : join (split s) = s.
Proof.
  induction s as [|c s IH]; [done|]. cbn. case (Ascii.eqb_spec c sep) as [->|Hne].
  - rewrite join_cons by apply split_nonempty. by rewrite IH.
  - destruct (split s) as [|w ws] eqn:Hs; [by destruct (split_nonempty s)|].
    destruct ws as [|w' ws]; cbn in *; by rewrite <-IH.
Qed.

Lemma split_no_sep s : Forall no_sep (split s).
Proof.
  induction s as [|c s IH]; [by repeat constructor|]. cbn.
  case (Ascii.eqb_spec c sep) as [->|Hne]; [by constructor|].
  destruct (split s) as [|w ws]; [by repeat constructor|].
  apply Forall_cons in IH as [Hw Hws]. by constructor.
Qed.

Lemma split_word w s : no_sep w → split (w ++ String sep s) = w :: split s.
Proof.
  induction w as [|c w IH]; [done|]. intros [Hc Hw]. rewrite string_app_cons. cbn [split].
  destruct (Ascii.eqb_spec c sep) as [|_]; [done|]. by rewrite IH.
Qed.

Lemma split_single w : no_sep w → split w = [w].
Proof.
  induction w as [|c w IH]; [done|]. intros [Hc Hw]. cbn.
  destruct (Ascii.eqb_spec c sep) as [|_]; [done|]. by rewrite IH.
Qed.

Lemma split_join ws : ws ≠ [] → Forall no_sep ws → split (join ws) = ws.
Proof.
  intros Hne Hall. induction Hall as [|w ws Hw Hws IH]; [done|].
  destruct ws as [|w' ws]; [by apply split_single|].
  rewrite join_cons by done. rewrite split_word by done. by rewrite IH.
Qed.

Lemma name_no_sep w : name w → no_sep w.
Proof. by intros (_ & _ & _ & ?). Qed.

Lemma names_no_sep ws : Forall name ws → Forall no_sep ws.
Proof. intros H. eapply Forall_impl; [exact H|]. apply name_no_sep. Qed.

Lemma clean_step_name rooted out w : name w → clean_step rooted out w = w :: out.
Proof.
  intros (H1 & H2 & H3 & _). unfold clean_step.
  by repeat match goal with |- context [String.eqb ?a ?b] =>
    destruct (String.eqb_spec a b); [done|] end.
Qed.

Lemma clean_names rooted out ws : Forall name ws →
  foldl (clean_step rooted) out ws = (reverse ws ++ out)%list.
Proof.
  intros Hall. revert out. induction Hall as [|w ws Hw _ IH]; intros out; [done|]. cbn [foldl].
  rewrite clean_step_name, IH by done. rewrite reverse_cons. by rewrite <-app_assoc.
Qed.

Lemma clean_comps_names rooted ws : Forall name ws → clean_comps rooted ws = ws.
Proof. intros. unfold clean_comps. by rewrite clean_names, app_nil_r, reverse_involutive. Qed.

Lemma clean_step_rooted out w : no_sep w → Forall name out → Forall name (clean_step true out w).
Proof.
  intros Hw Hout. unfold clean_step.
  destruct (String.eqb_spec w EmptyString), (String.eqb_spec w "."); cbn; try done.
  destruct (String.eqb_spec w "..") as [->|Hne].
  - destruct Hout as [|x out Hx Hout]; [done|]. destruct Hx as (?&?&?&?).
    by destruct (String.eqb_spec x "..").
  - by constructor.
Qed.

Lemma clean_comps_rooted ws : Forall no_sep ws → Forall name (clean_comps true ws).
Proof.
  intros Hws. unfold clean_comps. apply Forall_reverse.
  cut (∀ out, Forall name out → Forall name (foldl (clean_step true) out ws)).
  { intros H. by apply H. }
  induction Hws as [|w ws Hw _ IH]; intros out Hout; [done|]. cbn.
  by apply IH, clean_step_rooted.
Qed.

(** Cleaning an absolute path leaves a list of proper names below the root. *)
Lemma Clean_abs p : IsAbs p = true →
  abs_path (Clean p) (clean_comps true (split p)).
Proof.
  intros Hp. split; [unfold Clean; by rewrite Hp|]. apply clean_comps_rooted, split_no_sep.
Qed.

Lemma split_rooted ws : split (render true ws) = EmptyString :: split (join ws).
Proof. done. Qed.

Lemma path_comps_abs p ws : abs_path p ws → path_comps p = ws.
Proof.
  intros [-> Hws]. unfold path_comps. rewrite split_rooted, filter_cons_False by naive_solver.
  destruct (decide (ws = [])) as [->|Hne]; [done|].
  rewrite split_join by (done || by apply names_no_sep). apply filter_all.
  eapply Forall_impl; [exact Hws|]. by intros w [? _].
Qed.

Lemma Clean_abs_path p ws : abs_path p ws → Clean p = p.
Proof.
  intros [-> Hws]. unfold Clean. cbn [IsAbs render]. rewrite Ascii.eqb_refl.
  change (String sep (join ws)) with (render true ws). rewrite split_rooted. f_equal.
  unfold clean_comps. cbn [foldl clean_step String.eqb orb].
  destruct (decide (ws = [])) as [->|Hne]; [done|].
  rewrite split_join by (done || by apply names_no_sep). by apply clean_comps_names.
Qed.

Lemma abs_path_IsAbs p ws : abs_path p ws → IsAbs p = true.
Proof. by intros [-> _]. Qed.

Lemma abs_path_inj p p' ws : abs_path p ws → abs_path p' ws → p = p'.
Proof. intros [-> _] [-> _]. done. Qed.

(** ** A path below a root *)

Lemma split_app a b : split (a ++ String sep b) = (split a ++ split b)%list.
Proof.
  induction a as [|c a IH]; [done|]. rewrite string_app_cons. cbn [split].
  destruct (Ascii.eqb c sep); [by rewrite IH|]. rewrite IH.
  by destruct (split a) as [|w ws] eqn:Hs; [destruct (split_nonempty a)|].
Qed.

Lemma clean_comps_app rooted ws ws' :
  clean_comps rooted (ws ++ ws') =
  reverse (foldl (clean_step rooted) (reverse (clean_comps rooted ws)) ws').
Proof. unfold clean_comps. by rewrite foldl_app, reverse_involutive. Qed.

Lemma clean_comps_abs p ws : abs_path p ws → clean_comps true (split p) = ws.
Proof.
  intros Hp. pose proof (path_comps_abs p ws Hp) as Hc. destruct Hp as [-> Hws].
  rewrite split_rooted. unfold clean_comps. cbn [foldl clean_step String.eqb orb].
  destruct (decide (ws = [])) as [->|Hne]; [done|].
  rewrite split_join by (done || by apply names_no_sep). by apply clean_comps_names.
Qed.

(** [Join] puts a relative path of proper names below a root. *)
Lemma Join_below root ws rel : abs_path root ws → Forall name rel → rel ≠ [] →
  abs_path (Join [root; join rel]) (ws ++ rel).
Proof.
  intros Hroot Hrel Hne. pose proof Hroot as [Hr Hws].
  split; [|by apply Forall_app].
  assert (join rel ≠ EmptyString) as Hj.
  { intros Hj. apply (f_equal split) in Hj. rewrite split_join in Hj; [|done|by apply names_no_sep].
    subst rel. apply Forall_cons in Hrel as [[? _] _]. done. }
  unfold Join. rewrite filter_all by (repeat constructor; [by rewrite Hr|done]).
  unfold Clean. change (join [root; join rel]) with (root ++ String sep (join rel)).
  assert (IsAbs (root ++ String sep (join rel)) = true) as -> by (by rewrite Hr).
  rewrite split_app, clean_comps_app, (clean_comps_abs root ws Hroot).
  rewrite split_join by (done || by apply names_no_sep).
  rewrite clean_names by done. by rewrite reverse_app, !reverse_involutive.
Qed.

Lemma rel_loop_below ws rel : rel_loop ws (ws ++ rel) = Some (join rel).
Proof. induction ws as [|w ws IH]; [by destruct rel|]. cbn. by rewrite String.eqb_refl. Qed.

Lemma rel_loop_outside ws ps : Forall name ws → ¬ ws `prefix_of` ps →
  ∃ rest, rel_loop ws ps = Some (join (".." :: rest)).
Proof.
  intros Hws. revert ps. induction Hws as [|w ws Hw _ IH]; intros ps Hnp.
  { destruct Hnp. apply prefix_nil. }
  destruct ps as [|p ps]; [by eexists|]. cbn.
  destruct (String.eqb_spec w p) as [->|Hne].
  - apply IH. intros Hp. by apply Hnp, prefix_cons.
  - destruct Hw as (_ & _ & Hdd & _). destruct (String.eqb_spec w ".."); [done|]. by eexists.
Qed.

(** [Rel] on cleaned absolute paths: the names below the root, or a path that
    leaves it. *)
Lemma Rel_abs root p ws ps : abs_path root ws → abs_path p ps →
  (∃ rel, ps = (ws ++ rel)%list ∧ Rel root p = Some (match rel with [] => "." | _ => join rel end)) ∨
  (¬ ws `prefix_of` ps ∧ ∃ rest, Rel root p = Some (join (".." :: rest))).
Proof.
  intros Hroot Hp. unfold Rel. rewrite (Clean_abs_path _ _ Hroot), (Clean_abs_path _ _ Hp).
  destruct (String.eqb_spec p root) as [Heq|Hne].
  { left. exists []. split; [|done]. rewrite app_nil_r.
    rewrite <-(path_comps_abs p ps Hp), <-(path_comps_abs root ws Hroot). by rewrite Heq. }
  destruct (String.eqb_spec root ".") as [Hdot|_].
  { by rewrite Hdot in Hroot; destruct Hroot. }
  rewrite (abs_path_IsAbs _ _ Hroot), (abs_path_IsAbs _ _ Hp). cbn [Bool.eqb negb].
  rewrite (path_comps_abs _ _ Hroot), (path_comps_abs _ _ Hp).
  destruct (decide (ws `prefix_of` ps)) as [[rel ->]|Hnp].
  - left. exists rel. split; [done|]. rewrite rel_loop_below.
    destruct rel as [|]; [|done]. exfalso. apply Hne.
    rewrite app_nil_r in Hp. by apply (abs_path_inj _ _ ws).
  - right. split; [done|]. apply rel_loop_outside; [apply Hroot|done].
Qed.

(** The parent of a path below the root *)
Lemma Dir_abs p ws w : abs_path p (ws ++ [w]) → abs_path (Dir p) ws.
Proof.
  intros [-> [Hws Hw]%Forall_app]. split; [|done]. unfold Dir.
  assert (split (render true (ws ++ [w])) = EmptyString :: ws ++ [w])%list as ->.
  { rewrite split_rooted, split_join; [done|by destruct ws|].
    apply names_no_sep, Forall_app. by split. }
  change (EmptyString :: ws ++ [w])%list with ((EmptyString :: ws) ++ [w])%list.
  rewrite removelast_last. unfold Clean.
  assert (IsAbs (join ((EmptyString :: ws) ++ [EmptyString])) = true) as -> by (by destruct ws).
  rewrite split_join; [|done|].
  - unfold clean_comps. rewrite foldl_app. cbn [foldl clean_step String.eqb orb].
    change (foldl (clean_step true) [] ws) with (foldl (clean_step true) [] ws).
    f_equal. by apply clean_comps_names.
  - apply Forall_app. split; [constructor; [done|by apply names_no_sep]|by repeat constructor].
Qed.
