(* ===== verification/CacheKey.v ===== *)
(** * Cache keys (cache.go: ParseKey, isLowerHex, KeyForPath; notify.go: watchPathAllowed)

    Which names of Bazel's disk cache the daemon recognises, and how a path is
    turned into a key.  Errors are constructors carrying what the message prints. *)

From S2P Require Import Prelude Paths.
From Stdlib Require Import Ascii.
Local Open Scope string_scope.

(** ** Data *)

Inductive EntryKind := ActionCache | ContentCAS.
#[export] Instance EntryKind_eq_dec : EqDecision EntryKind.
Proof. solve_decision. Defined.

(** The underlying string of an [EntryKind] *)
Definition kind_string (k : EntryKind) : string :=
  match k with ActionCache => "ac" | ContentCAS => "cas" end.

(** The errors wrapping [ErrInvalidCacheEntry], the others of cache.go, and the
    errors of the operating system, which keep their number. *)
Inductive InvalidEntry :=
| NonCanonicalKey (key : string)
| PathShape (key : string)
| UnsupportedStore (store : string)
| ShaPath (key : string)
| NotLowerHex
| NotRegular
| NoIdentity
| EmptyKey
| SnapshotKeyChanged.
Inductive CacheError :=
| ErrInvalidCacheEntry (why : InvalidEntry)
| ErrEntryChanged
| ErrNotRelative
| ErrErrno (errno : Z).

Definition ENOENT : Z := 2.
(** [errors.Is(err, fs.ErrNotExist)] *)
Definition is_not_exist (e : CacheError) : bool :=
  match e with ErrErrno n => Z.eqb n ENOENT | _ => false end.
(** [errors.Is(err, ErrInvalidCacheEntry)] *)
Definition is_invalid (e : CacheError) : bool :=
  match e with ErrInvalidCacheEntry _ => true | _ => false end.

(** ** Operations *)

(** [r >= '0' && r <= '9' || r >= 'a' && r <= 'f'].  The loop ranges over runes; a
    byte outside ASCII belongs to a rune that is no digit either, so testing the
    bytes gives the same answer. *)
Definition hex_digit (c : ascii) : bool :=
  let r := N_of_ascii c in
  ((48 <=? r) && (r <=? 57) || (97 <=? r) && (r <=? 102))%N.
Fixpoint isLowerHex (value : string) : bool :=
  match value with
  | EmptyString => true
  | String r value => hex_digit r && isLowerHex value
  end.

Definition ParseKey (key : string) : result CacheError EntryKind :=
  let clean := Clean key in
  if negb (String.eqb clean key) || IsAbs key
  then Err (ErrInvalidCacheEntry (NonCanonicalKey key)) else
  match split clean with
  | [p0; p1; p2] =>
      if negb (String.eqb p0 "ac") && negb (String.eqb p0 "cas")
      then Err (ErrInvalidCacheEntry (UnsupportedStore p0)) else
      if negb (String.length p1 =? 2)%nat || negb (String.length p2 =? 64)%nat ||
         negb (String.eqb p1 (String.substring 0 2 p2))
      then Err (ErrInvalidCacheEntry (ShaPath key)) else
      if negb (isLowerHex p1) || negb (isLowerHex p2)
      then Err (ErrInvalidCacheEntry NotLowerHex) else
      Ok (if String.eqb p0 "ac" then ActionCache else ContentCAS)
  | _ => Err (ErrInvalidCacheEntry (PathShape key))
  end.

Section key_for_path.
Context (getwd : result CacheError string).

Definition KeyForPath (diskRoot path : string) : result CacheError (string * EntryKind) :=
  match Abs getwd (Clean path) with
  | Err e => Err e
  | Ok absPath =>
      match Rel diskRoot absPath with
      | None => Err ErrNotRelative
      | Some key =>
          match ParseKey key with Err e => Err e | Ok kind => Ok (key, kind) end
      end
  end.
End key_for_path.

(** The part of [watchPathAllowed] and of the callback of [addDirectoryWatches] that
    rejects a relative path leaving the root, and the test of its first element. *)
Definition escapes (relative : string) : bool :=
  String.eqb relative ".." || String.prefix "../" relative || IsAbs relative.
Definition first_allowed (relative : string) : bool :=
  match split relative with
  | first :: _ => String.eqb first "ac" || String.eqb first "cas"
  | [] => false
  end.

Definition watchPathAllowed (diskRoot path : string) : bool :=
  match Rel diskRoot (Clean path) with
  | None => false
  | Some relative =>
      if escapes relative then false
      else if String.eqb relative "." then true
      else first_allowed relative
  end.

(** ** Specification *)

(** The key of a completed SHA-256 entry *)
Definition entry_key (kind : EntryKind) (digest : string) : list string :=
  [kind_string kind; String.substring 0 2 digest; digest].
Definition digest_ok (digest : string) : Prop :=
  String.length digest = 64%nat ∧ isLowerHex digest = true.

(** ** Lemmas *)

Lemma hex_not_special c : hex_digit c = true → c ≠ sep ∧ c ≠ "."%char.
Proof. intros H. split; intros ->; by vm_compute in H. Qed.

Lemma hex_no_sep s : isLowerHex s = true → no_sep s.
Proof.
  induction s as [|c s IH]; [done|]. cbn [isLowerHex]. intros [Hc Hs]%andb_true_iff.
  split; [by apply hex_not_special|by apply IH].
Qed.

Lemma hex_name s : isLowerHex s = true → s ≠ EmptyString → name s.
Proof.
  intros Hs Hne. destruct s as [|c s]; [done|]. pose proof (hex_no_sep _ Hs).
  cbn [isLowerHex] in Hs. apply andb_true_iff in Hs as [Hc _].
  apply hex_not_special in Hc as [_ Hc]. split_and!; [done|congruence..|done].
Qed.

Lemma substring_hex n s : isLowerHex s = true → isLowerHex (String.substring 0 n s) = true.
Proof.
  revert n. induction s as [|c s IH]; intros n; [by destruct n|].
  cbn [isLowerHex]. intros [Hc Hs]%andb_true_iff. destruct n; [done|].
  cbn [String.substring isLowerHex]. by rewrite Hc, IH.
Qed.

Lemma substring_length n s : n <= String.length s → String.length (String.substring 0 n s) = n.
Proof.
  revert n. induction s as [|c s IH]; intros [|n] Hn; cbn in *; try done; [lia|].
  f_equal. apply IH. lia.
Qed.

Lemma kind_name k : name (kind_string k).
Proof. by destruct k; repeat split. Qed.

Lemma entry_key_names kind d : digest_ok d → Forall name (entry_key kind d).
Proof.
  intros [Hl Hh]. assert (String.length (String.substring 0 2 d) = 2%nat) as H2
    by (apply substring_length; lia).
  unfold entry_key. rewrite !Forall_cons, Forall_nil. split_and!; [| | |done].
  - apply kind_name.
  - apply hex_name; [by apply substring_hex|]. intros He. by rewrite He in H2.
  - apply hex_name; [done|]. by intros ->.
Qed.

(** A relative path of proper names is clean. *)
Lemma Clean_rel ws : Forall name ws → ws ≠ [] →
  Clean (join ws) = join ws ∧ IsAbs (join ws) = false.
Proof.
  intros Hws Hne. assert (IsAbs (join ws) = false) as Habs.
  { destruct Hws as [|w ws (Hw & _ & _ & Hs) _]; [done|]. destruct w as [|c w]; [done|].
    destruct Hs as [Hc _]. destruct ws; cbn; by apply Ascii.eqb_neq. }
  split; [|done]. unfold Clean. rewrite Habs.
  rewrite split_join by (done || by apply names_no_sep).
  rewrite clean_comps_names by done. by destruct ws.
Qed.

Lemma ParseKey_entry_key kind d : digest_ok d → ParseKey (join (entry_key kind d)) = Ok kind.
Proof.
  intros Hd. pose proof (entry_key_names kind d Hd) as Hn.
  destruct (Clean_rel _ Hn) as [Hc Ha]; [done|]. unfold ParseKey.
  rewrite Hc, Ha, String.eqb_refl. cbn [negb orb].
  rewrite split_join by (done || by apply names_no_sep). cbn [entry_key].
  destruct Hd as [Hl Hh].
  rewrite (substring_length 2 d) by lia. rewrite Hl, String.eqb_refl, substring_hex, Hh by done.
  by destruct kind.
Qed.

Lemma ParseKey_Ok key kind : ParseKey key = Ok kind →
  ∃ d, digest_ok d ∧ key = join (entry_key kind d).
Proof.
  unfold ParseKey. destruct (String.eqb_spec (Clean key) key) as [Hc|]; [|done].
  destruct (IsAbs key); [done|]. cbn [negb orb]. rewrite Hc.
  destruct (split key) as [|p0 [|p1 [|p2 [|]]]] eqn:Hs; try done.
  pose proof (join_split key) as Hj. rewrite Hs in Hj.
  destruct (negb (String.eqb p0 "ac") && negb (String.eqb p0 "cas")) eqn:H0; [done|].
  destruct (negb _ || negb _ || negb _) eqn:H1; [done|].
  destruct (negb (isLowerHex p1) || negb (isLowerHex p2)) eqn:H2; [done|].
  intros [= <-]. exists p2.
  apply orb_false_iff in H1 as [[_ H64%negb_false_iff]%orb_false_iff Hp1%negb_false_iff].
  apply orb_false_iff in H2 as [_ Hhex%negb_false_iff].
  apply Nat.eqb_eq in H64. apply String.eqb_eq in Hp1. subst p1.
  split; [done|]. rewrite <-Hj. unfold entry_key. do 2 f_equal.
  destruct (String.eqb_spec p0 "ac") as [->|]; [done|]. by destruct (String.eqb_spec p0 "cas").
Qed.

Lemma Abs_abs getwd path abs : (∀ wd, getwd = Ok wd → IsAbs wd = true) →
  Abs (E:=CacheError) getwd path = Ok abs → ∃ ws, abs_path abs ws.
Proof.
  intros Hwd. unfold Abs. destruct (IsAbs path) eqn:Hp.
  - intros [= <-]. eexists. by apply Clean_abs.
  - destruct getwd as [wd|e]; [|done]. cbn. intros [= <-]. specialize (Hwd wd eq_refl).
    destruct wd as [|c wd]; [done|]. unfold Join.
    rewrite filter_cons_True by done. destruct (decide (path = EmptyString)) as [->|Hne].
    + eexists. by apply Clean_abs.
    + rewrite filter_cons_True by done. eexists. by apply Clean_abs.
Qed.

Lemma Rel_below root p ws rel : abs_path root ws → abs_path p (ws ++ rel) → rel ≠ [] →
  Rel root p = Some (join rel).
Proof.
  intros Hr Hp Hne. destruct (Rel_abs root p ws _ Hr Hp) as [(rel' & Heq & ->)|[Hn _]].
  - apply app_inv_head in Heq as <-. by destruct rel.
  - destruct Hn. by exists rel.
Qed.

Lemma split_dots rest : split (join (".." :: rest)) = ".." :: match rest with [] => [] | _ => split (join rest) end.
Proof.
  destruct rest as [|w rest]; [done|]. rewrite join_cons by done.
  apply split_word. repeat split; discriminate.
Qed.

Lemma split_prefix_dots s : String.prefix "../" s = true → ∃ ws, split s = ".." :: ws.
Proof.
  destruct s as [|c1 [|c2 [|c3 s]]]; cbn [String.prefix]; repeat case_match; try done.
  all: subst; try (intros _; eexists; reflexivity). all: done.
Qed.

Lemma escapes_dots rest : escapes (join (".." :: rest)) = true.
Proof.
  unfold escapes. destruct rest as [|w rest]; [done|]. rewrite join_cons by done.
  change (".." ++ String sep (join (w :: rest)))
    with (String "." (String "." (String sep (join (w :: rest))))).
  apply orb_true_iff. left. apply orb_true_iff. right. by destruct (join (w :: rest)).
Qed.

Lemma escapes_names rel : Forall name rel → rel ≠ [] → escapes (join rel) = false.
Proof.
  intros Hrel Hne. destruct (Clean_rel rel Hrel Hne) as [_ Habs]. unfold escapes. rewrite Habs.
  assert (split (join rel) = rel) as Hs by (apply split_join; [done|by apply names_no_sep]).
  assert (∀ ws, rel ≠ ".." :: ws) as Hdots.
  { intros ws ->. apply Forall_cons in Hrel as [(_ & _ & ? & _) _]. done. }
  apply orb_false_iff. split; [|done]. apply orb_false_iff. split.
  - apply String.eqb_neq. intros Hj. rewrite Hj in Hs. by destruct (Hdots []).
  - apply not_true_iff_false. intros [ws Hws]%split_prefix_dots. destruct (Hdots ws). congruence.
Qed.

(** Cleaning keeps a relative path relative. *)
Lemma clean_step_words out w :
  Forall (λ w, no_sep w ∧ w ≠ EmptyString) out → no_sep w →
  Forall (λ w, no_sep w ∧ w ≠ EmptyString) (clean_step false out w).
Proof.
  intros Hout Hw. unfold clean_step.
  destruct (String.eqb_spec w EmptyString), (String.eqb_spec w "."); cbn; try done.
  destruct (String.eqb_spec w "..") as [->|]; [|by constructor].
  destruct Hout as [|y out Hy Hout]; [by constructor|].
  destruct (String.eqb y ".."); [|done]. by do 2 constructor.
Qed.

Lemma Clean_relative x : IsAbs x = false → IsAbs (Clean x) = false.
Proof.
  intros Hx. unfold Clean. rewrite Hx. cbn [render].
  assert (Forall (λ w, no_sep w ∧ w ≠ EmptyString) (clean_comps false (split x))) as Hall.
  { unfold clean_comps. apply Forall_reverse. pose proof (split_no_sep x) as Hs.
    cut (∀ out, Forall (λ w, no_sep w ∧ w ≠ EmptyString) out →
      Forall (λ w, no_sep w ∧ w ≠ EmptyString) (foldl (clean_step false) out (split x))).
    { intros H. apply H. constructor. }
    induction Hs as [|w l Hw _ IH]; intros out Hout; [done|]. cbn. by apply IH, clean_step_words. }
  destruct (clean_comps false (split x)) as [|w l]; [done|].
  apply Forall_cons in Hall as [[Hw Hne] _]. destruct w as [|c w]; [done|].
  destruct Hw as [Hc _]. by destruct l; apply Ascii.eqb_neq.
Qed.

(** ** The claims *)

(** C33. [ParseKey] accepts exactly the names of completed SHA-256 entries,
    [ac/xx/d] and [cas/xx/d] with [d] 64 lowercase hexadecimal digits and [xx] its
    first two, and returns the store they belong to; everything else (temporary
    files, other layouts, absolute or uncleaned paths) is an error. *)
Theorem ParseKey_accepts key kind :
  ParseKey key = Ok kind ↔ ∃ digest, digest_ok digest ∧ key = join (entry_key kind digest).
Proof.
  split; [apply ParseKey_Ok|]. intros (d & Hd & ->). by apply ParseKey_entry_key.
Qed.

(** C34. [KeyForPath] never takes a path outside the cache for an entry: the key it
    returns is a valid key, and the path, made absolute and cleaned, is the root
    joined with that key; conversely the path of every valid key gives that key
    back. *)
Theorem KeyForPath_roundtrip getwd root ws :
  abs_path root ws → (∀ wd, getwd = Ok wd → IsAbs wd = true) →
  (∀ path key kind, KeyForPath getwd root path = Ok (key, kind) →
     ParseKey key = Ok kind ∧ Abs getwd (Clean path) = Ok (Join [root; key])) ∧
  (∀ key kind, ParseKey key = Ok kind →
     KeyForPath getwd root (Join [root; key]) = Ok (key, kind)).
Proof.
  intros Hroot Hwd. unfold KeyForPath. split.
  - intros path key kind. destruct (Abs getwd (Clean path)) as [abs|e] eqn:Ha; [|done].
    destruct (Abs_abs _ _ _ Hwd Ha) as [ps Hps]. destruct (Rel root abs) as [r|] eqn:Hr; [|done].
    destruct (ParseKey r) as [k|e] eqn:Hk; [|done]. intros [= <- <-]. split; [done|]. f_equal.
    pose proof (ParseKey_Ok _ _ Hk) as (d & Hd & Hkey).
    pose proof (entry_key_names k d Hd) as Hn.
    destruct (Rel_abs root abs ws ps Hroot Hps) as [(rel & -> & Hr')|(_ & rest & Hr')];
      rewrite Hr in Hr'; injection Hr' as Hr'.
    + destruct Hps as [Habs Hall]. apply Forall_app in Hall as [_ Hrel].
      destruct rel as [|w rel]; [by rewrite Hr' in Hk|].
      apply (abs_path_inj _ _ (ws ++ (w :: rel))); [by split; [|apply Forall_app; split; [apply Hroot|]]|].
      rewrite Hr'. by apply Join_below.
    + assert (split (join (entry_key k d)) = split (join (".." :: rest))) as Hs
        by (by rewrite <-Hkey, Hr'). rewrite split_dots in Hs. clear Hr'. rename Hs into Hr'.
      rewrite split_join in Hr' by (done || by apply names_no_sep). by destruct k.
  - intros key kind Hk. pose proof (ParseKey_Ok _ _ Hk) as (d & Hd & Hkey).
    pose proof (entry_key_names kind d Hd) as Hn.
    pose proof (Join_below root ws (entry_key kind d) Hroot Hn ltac:(done)) as Hj.
    rewrite <-Hkey in Hj. unfold Abs. rewrite (Clean_abs_path _ _ Hj).
    rewrite (abs_path_IsAbs _ _ Hj), (Clean_abs_path _ _ Hj).
    rewrite (Rel_below root _ ws _ Hroot Hj) by done. by rewrite <-Hkey, Hk.
Qed.

(** A directory may be watched exactly when it is the cache root or lies in one
    of the two stores below it; in particular no path outside the root passes,
    whatever [..] elements it holds, and no relative path does. *)
Theorem watchPathAllowed_spec root ws path : abs_path root ws →
  watchPathAllowed root path = true ↔
    IsAbs path = true ∧ ∃ rel, clean_comps true (split path) = (ws ++ rel)%list ∧
      (rel = [] ∨ ∃ kind rel', rel = kind_string kind :: rel').
Proof.
  intros Hroot. unfold watchPathAllowed. destruct (IsAbs path) eqn:Hp; last first.
  { split; [|naive_solver]. unfold Rel.
    rewrite (Clean_abs_path _ _ Hroot).
    pose proof (abs_path_IsAbs _ _ Hroot) as Hra.
    pose proof (Clean_relative _ (Clean_relative _ Hp)) as Hc.
    destruct (String.eqb_spec (Clean (Clean path)) root) as [He|_].
    { exfalso. rewrite He in Hc. congruence. }
    destruct (String.eqb_spec root ".") as [->|_]; [done|]. by rewrite Hra, Hc. }
  pose proof (Clean_abs path Hp) as Hc. set (ps := clean_comps true (split path)) in *.
  destruct (Rel_abs root (Clean path) ws ps Hroot Hc) as [(rel & -> & ->)|(Hn & rest & ->)].
  - destruct Hc as [_ Hrel]. apply Forall_app in Hrel as [_ Hrel].
    assert (∀ rel', (ws ++ rel = ws ++ rel')%list → rel' = rel) as Hinj
      by (by intros rel' ?%app_inv_head).
    destruct rel as [|w rel]; [cbn; naive_solver|].
    rewrite escapes_names by done.
    assert (String.eqb (join (w :: rel)) "." = false) as ->.
    { apply String.eqb_neq. intros Hj. apply (f_equal split) in Hj.
      rewrite split_join in Hj by (done || by apply names_no_sep). injection Hj as -> ->.
      by apply Forall_cons in Hrel as [(_ & ? & _) _]. }
    unfold first_allowed. rewrite split_join by (done || by apply names_no_sep).
    rewrite orb_true_iff, !String.eqb_eq. split.
    + intros [->| ->]; (split; [done|]); eexists; (split; [done|]); right;
        [by exists ActionCache, rel|by exists ContentCAS, rel].
    + intros [_ (rel' & Heq%Hinj & [->|(k & rel'' & ->)])]; [done|].
      injection Heq as <- _. destruct k; auto.
  - rewrite escapes_dots. split; [done|]. intros [_ (rel & -> & _)].
    destruct Hn. by exists rel.
Qed.

(** ** Examples *)

Definition demo_digest : string :=
  "0123456789abcdef0123456789abcdef0123456789abcdef0123456789abcdef".
Definition demo_root : string := "/var/cache".

Lemma demo_root_abs : abs_path demo_root ["var"; "cache"].
Proof.
  split; [done|]. rewrite !Forall_cons, Forall_nil.
  split_and!; try done; repeat split; discriminate.
Qed.

Lemma KeyForPath_roundtrip_witness :
  (∀ path key kind, KeyForPath (Ok "/home") demo_root path = Ok (key, kind) →
     ParseKey key = Ok kind ∧ Abs (E:=CacheError) (Ok "/home") (Clean path) = Ok (Join [demo_root; key])) ∧
  (∀ key kind, ParseKey key = Ok kind →
     KeyForPath (Ok "/home") demo_root (Join [demo_root; key]) = Ok (key, kind)).
Proof.
  apply (KeyForPath_roundtrip (Ok "/home") demo_root ["var"; "cache"] demo_root_abs).
  intros wd [= <-]. reflexivity.
Defined.

Lemma watchPathAllowed_spec_witness :
  watchPathAllowed demo_root "/var/cache/x/../ac" = true ↔
    IsAbs "/var/cache/x/../ac" = true ∧ ∃ rel,
      clean_comps true (split "/var/cache/x/../ac") = (["var"; "cache"] ++ rel)%list ∧
      (rel = [] ∨ ∃ kind rel', rel = kind_string kind :: rel').
Proof. apply (watchPathAllowed_spec demo_root ["var"; "cache"] _ demo_root_abs). Defined.

Example demo_key : KeyForPath (Err ErrNotRelative) demo_root
  ("/var/cache/cas//01/./" ++ demo_digest) = Ok ("cas/01/" ++ demo_digest, ContentCAS).
Proof. vm_compute. reflexivity. Qed.

Example demo_outside : watchPathAllowed demo_root "/var/cache/ac/../../etc" = false.
Proof. vm_compute. reflexivity. Qed.
