(* ===== verification/Inotify.v ===== *)
(** * Package [inotify], its data (inotify.go, inotify_linux.go)

    Event masks, [Event] and [HasEvent], what [String] prints, and the
    layout of the kernel's event buffer: a header of four 32-bit fields, little
    endian as on the machines Linux runs the daemon on, then a name field padded
    with NULs. *)

From S2P Require Import Prelude Paths.
From Stdlib Require Import Ascii.
Local Open Scope Z_scope.

(** ** Masks *)

Definition InAccess : Z := 1.              (* 0x1 *)
Definition InModify : Z := 2.              (* 0x2 *)
Definition InAttrib : Z := 4.              (* 0x4 *)
Definition InCloseWrite : Z := 8.          (* 0x8 *)
Definition InCloseNowrite : Z := 16.       (* 0x10 *)
Definition InClose : Z := 24.              (* IN_CLOSE_WRITE|IN_CLOSE_NOWRITE *)
Definition InOpen : Z := 32.               (* 0x20 *)
Definition InMovedFrom : Z := 64.          (* 0x40 *)
Definition InMovedTo : Z := 128.           (* 0x80 *)
Definition InMove : Z := 192.              (* IN_MOVED_FROM|IN_MOVED_TO *)
Definition InCreate : Z := 256.            (* 0x100 *)
Definition InDelete : Z := 512.            (* 0x200 *)
Definition InDeleteSelf : Z := 1024.       (* 0x400 *)
Definition InMoveSelf : Z := 2048.         (* 0x800 *)
Definition InAllEvents : Z := 4095.        (* 0xfff *)
Definition InUnmount : Z := 8192.          (* 0x2000 *)
Definition InQOverflow : Z := 16384.       (* 0x4000 *)
Definition InIgnored : Z := 32768.         (* 0x8000 *)
Definition InOnlydir : Z := 16777216.      (* 0x1000000 *)
Definition InDontFollow : Z := 33554432.   (* 0x2000000 *)
Definition IN_MASK_ADD : Z := 536870912.   (* 0x20000000 *)
Definition InIsdir : Z := 1073741824.      (* 0x40000000 *)
Definition InOneshot : Z := 2147483648.    (* 0x80000000 *)

Record Event := mkEvent { Mask : Z; Cookie : Z; Name : string }.

Definition HasEvent (e : Event) (h : Z) : bool := Z.land (Mask e) h =? h.

(** What is sent on channel [Error]. *)
Inductive WatcherError :=
| ErrEventOverflow
| ErrRead (e : Z)
| ErrShortRead
| ErrPoll (e : Z).

(** ** [String] *)

Definition eventBits : list (Z * string) :=
  [(InAccess, "IN_ACCESS"); (InAttrib, "IN_ATTRIB"); (InClose, "IN_CLOSE");
   (InCloseNowrite, "IN_CLOSE_NOWRITE"); (InCloseWrite, "IN_CLOSE_WRITE");
   (InCreate, "IN_CREATE"); (InDelete, "IN_DELETE"); (InDeleteSelf, "IN_DELETE_SELF");
   (InModify, "IN_MODIFY"); (InMove, "IN_MOVE"); (InMovedFrom, "IN_MOVED_FROM");
   (InMovedTo, "IN_MOVED_TO"); (InMoveSelf, "IN_MOVE_SELF"); (InOpen, "IN_OPEN");
   (InIsdir, "IN_ISDIR"); (InIgnored, "IN_IGNORED"); (InQOverflow, "IN_Q_OVERFLOW");
   (InUnmount, "IN_UNMOUNT")].

(** The loop over [eventBits]: the flags it takes, and what is left of [m]. *)
Fixpoint flags_loop (bits : list (Z * string)) (m : Z) : list (Z * string) * Z :=
  match bits with
  | [] => ([], m)
  | (v, nm) :: bits =>
      if Z.land m v =? v then
        let '(fs, m') := flags_loop bits (Z.ldiff m v) in ((v, nm) :: fs, m')
      else flags_loop bits m
  end.

(** [%x]; the fuel is the number of digits of a [uint32]. *)
Definition hex_char (d : Z) : ascii :=
  ascii_of_N (Z.to_N (if d <? 10 then 48 + d else 87 + d)).
Fixpoint hex_loop (fuel : nat) (m : Z) (acc : string) : string :=
  match fuel with
  | O => acc
  | S fuel =>
      let acc := String (hex_char (m mod 16)) acc in
      if m / 16 =? 0 then acc else hex_loop fuel (m / 16) acc
  end.
Definition hex_alt (m : Z) : string := ("0x" ++ hex_loop 8 m EmptyString)%string.

(** The variable [events] when it is printed. *)
Definition event_flags (mask : Z) : string :=
  let '(fs, m) := flags_loop eventBits mask in
  let names := ((snd <$> fs) ++ (if m =? 0 then [] else [hex_alt m]))%list in
  match names with
  | [] => EmptyString
  | n :: ns => (" == " ++ n ++ foldr (λ x acc, "|" ++ x ++ acc) EmptyString ns)%string
  end.

(** [String]; [quote] is the verb [%q] of package fmt. *)
Definition Event_String (quote : string → string) (e : Event) : string :=
  (quote (Name e) ++ ": " ++ hex_alt (Mask e) ++ event_flags (Mask e))%string.

(** ** The event buffer *)

Definition SizeofInotifyEvent : nat := 16.
Definition PathMax : Z := 4096.
Definition buf_size : nat := Z.to_nat 65536.     (* SizeofInotifyEvent * 4096 *)

Definition byte_val (c : ascii) : Z := Z.of_N (N_of_ascii c).
Definition slice {A} (l : list A) (off len : nat) : list A := take len (drop off l).
Definition le_val (bs : list ascii) : Z := foldr (λ c acc, byte_val c + 256 * acc) 0 bs.

(** The 32-bit field at [&buf[off]] *)
Definition field32 (buf : list ascii) (off : nat) : Z := le_val (slice buf off 4).
(** conversion to [int32] *)
Definition i32 (x : Z) : Z := (x + 2 ^ 31) mod 2 ^ 32 - 2 ^ 31.

(** [strings.TrimRight(s, "\000")] *)
Fixpoint trim_nuls (bs : list ascii) : list ascii :=
  match bs with
  | [] => []
  | c :: bs =>
      match trim_nuls bs with
      | [] => if Ascii.eqb c zero then [] else [c]
      | bs' => c :: bs'
      end
  end.

(** A struct [inotify_event] and its bytes: the contract of [read(2)] on an inotify
    descriptor. *)
Record raw_event := mkRaw { r_wd : Z; r_mask : Z; r_cookie : Z; r_name : list ascii }.

Definition enc32 (x : Z) : list ascii :=
  (λ i, ascii_of_N (Z.to_N (x / 256 ^ i mod 256))) <$> [0; 1; 2; 3].
Definition raw_bytes (r : raw_event) : list ascii :=
  (enc32 (u32 (r_wd r)) ++ enc32 (r_mask r) ++ enc32 (r_cookie r) ++
   enc32 (Z.of_nat (length (r_name r))) ++ r_name r)%list.
Definition buffer_bytes (rs : list raw_event) : list ascii := concat (raw_bytes <$> rs).

Definition raw_ok (r : raw_event) : Prop :=
  - 2 ^ 31 <= r_wd r < 2 ^ 31 ∧ in_u32 (r_mask r) ∧ in_u32 (r_cookie r) ∧
  Z.of_nat (length (r_name r)) <= PathMax.

(** The [Name] of the event of [r] for a watch on [path]. *)
Definition event_name (path : string) (name : list ascii) : string :=
  match name with
  | [] => path
  | _ => (path ++ "/" ++ String.string_of_list_ascii (trim_nuls name))%string
  end.

(** ** Lemmas *)

Lemma lor_ldiff_sub m v : Z.land m v = v → Z.lor v (Z.ldiff m v) = m.
Proof.
  intros H. apply Z.bits_inj'. intros i Hi. rewrite Z.lor_spec, Z.ldiff_spec.
  assert (Z.testbit (Z.land m v) i = Z.testbit v i) as Hb by (by rewrite H).
  rewrite Z.land_spec in Hb. by destruct (Z.testbit m i), (Z.testbit v i).
Qed.

(** [sub m' m]: the bits of [m'] are bits of [m]. *)
Definition sub (m' m : Z) : Prop := Z.land m' m = m'.

Lemma sub_bits m' m : sub m' m ↔ ∀ i, 0 <= i → Z.testbit m' i = true → Z.testbit m i = true.
Proof.
  unfold sub. split.
  - intros H i _ Hi. rewrite <-H, Z.land_spec in Hi. by apply andb_true_iff in Hi as [].
  - intros H. apply Z.bits_inj'. intros i Hi. rewrite Z.land_spec.
    destruct (Z.testbit m' i) eqn:E; [|done]. by rewrite (H i Hi E).
Qed.

Lemma sub_trans a b c : sub a b → sub b c → sub a c.
Proof. rewrite !sub_bits. eauto. Qed.

Lemma sub_ldiff m v : sub (Z.ldiff m v) m.
Proof. apply sub_bits. intros i _. rewrite Z.ldiff_spec. by intros [? _]%andb_true_iff. Qed.

Lemma sub_land v m : Z.land m v = v ↔ sub v m.
Proof. unfold sub. by rewrite Z.land_comm. Qed.

Lemma ldiff_disjoint m v x : sub x (Z.ldiff m v) → Z.land v x = 0.
Proof.
  intros H. apply Z.bits_inj'. intros i Hi. rewrite Z.land_spec, Z.bits_0.
  destruct (Z.testbit x i) eqn:E; [|by rewrite andb_false_r].
  apply (proj1 (sub_bits _ _) H i Hi) in E. rewrite Z.ldiff_spec in E.
  by destruct (Z.testbit v i), (Z.testbit m i).
Qed.

(** What the loop takes and leaves covers the mask, without overlap. *)
Lemma flags_loop_spec bits m fs rest : flags_loop bits m = (fs, rest) →
  foldr Z.lor rest (fst <$> fs) = m ∧ sub rest m ∧ Forall (λ f, sub f m) (fst <$> fs) ∧
  ForallOrdPairs (λ a b, Z.land a b = 0) (fst <$> fs) ∧
  Forall (λ f, Z.land f rest = 0) (fst <$> fs) ∧
  Forall (λ b, b.1 ≠ 0 → Z.land rest b.1 ≠ b.1) bits.
Proof.
  revert m fs. induction bits as [|[v nm] bits IH]; intros m fs; cbn [flags_loop].
  { intros [= <- <-]. cbn. split_and!; try constructor. apply Z.land_diag. }
  destruct (Z.eqb_spec (Z.land m v) v) as [Hv|Hv].
  - destruct (flags_loop bits (Z.ldiff m v)) as [fs' m'] eqn:E. intros [= <- ->].
    destruct (IH _ _ E) as (H1 & H2 & H3 & H4 & H5 & H6). cbn.
    assert (∀ x, sub x (Z.ldiff m v) → sub x m) as Hsub by (intros x Hx; by eapply sub_trans, sub_ldiff).
    split_and!.
    + rewrite H1. by apply lor_ldiff_sub.
    + by apply Hsub.
    + constructor; [by apply sub_land|]. eapply Forall_impl; [exact H3|exact Hsub].
    + constructor; [|done]. eapply Forall_impl; [exact H3|]. intros x. apply ldiff_disjoint.
    + constructor; [by eapply ldiff_disjoint|done].
    + constructor; [|done]. intros Hne. cbn.
      rewrite Z.land_comm, (ldiff_disjoint m v rest H2). by intros <-.
  - intros E. destruct (IH _ _ E) as (H1 & H2 & H3 & H4 & H5 & H6). split_and!; try done.
    constructor; [|done]. intros _ Hr%sub_land. apply Hv, sub_land. by eapply sub_trans.
Qed.

Lemma HasEvent_bits e h : HasEvent e h = true ↔ sub h (Mask e).
Proof. unfold HasEvent. rewrite Z.eqb_eq. apply sub_land. Qed.

(** ** The layout of the buffer *)

Lemma slice_app {A} (a b c : list A) off len : off = length a → len = length b →
  slice (a ++ b ++ c) off len = b.
Proof.
  intros -> ->. unfold slice. by rewrite drop_app_length, take_app_length.
Qed.

Lemma byte_val_of z : 0 <= z < 256 → byte_val (ascii_of_N (Z.to_N z)) = z.
Proof. intros H. unfold byte_val. rewrite N_ascii_embedding by lia. lia. Qed.

Lemma enc32_length x : length (enc32 x) = 4%nat.
Proof. done. Qed.

Lemma le_val_enc32 x : in_u32 x → le_val (enc32 x) = x.
Proof.
  intros Hx. unfold in_u32 in Hx. unfold enc32, le_val. cbn [fmap list_fmap foldr].
  rewrite !byte_val_of by (apply Z.mod_pos_bound; lia).
  rewrite Z.pow_0_r, Z.div_1_r. change (256 ^ 1) with 256. change (256 ^ 2) with (256 * 256).
  change (256 ^ 3) with (256 * 256 * 256). rewrite <-!Z.div_div by lia.
  pose proof (Z.div_mod x 256 ltac:(lia)). pose proof (Z.div_mod (x / 256) 256 ltac:(lia)).
  pose proof (Z.div_mod (x / 256 / 256) 256 ltac:(lia)).
  rewrite (Z.mod_small (x / 256 / 256 / 256)).
  2:{ split; [repeat (apply Z.div_pos; [|lia]); lia|]. repeat (apply Z.div_lt_upper_bound; [lia|]). lia. }
  lia.
Qed.

Lemma i32_u32 x : - 2 ^ 31 <= x < 2 ^ 31 → i32 (u32 x) = x.
Proof.
  intros H. unfold i32, u32. rewrite Zplus_mod_idemp_l, Z.mod_small by lia. lia.
Qed.

Lemma raw_length r : length (raw_bytes r) = (16 + length (r_name r))%nat.
Proof. unfold raw_bytes. by rewrite !length_app, !enc32_length. Qed.

(** The four fields and the name of an event, read where the reader reads them. *)
Record reads_raw (buf : list ascii) (off : nat) (r : raw_event) : Prop := {
  raw_wd : i32 (field32 buf off) = r_wd r;
  raw_mask : field32 buf (off + 4) = r_mask r;
  raw_cookie : field32 buf (off + 8) = r_cookie r;
  raw_len : field32 buf (off + 12) = Z.of_nat (length (r_name r));
  raw_name : slice buf (off + 16) (length (r_name r)) = r_name r
}.

Lemma raw_bytes_read pre r post : raw_ok r → reads_raw (pre ++ raw_bytes r ++ post) (length pre) r.
Proof.
  intros (Hwd & Hmask & Hcookie & Hlen). unfold PathMax in Hlen.
  assert (∀ a b c x, in_u32 x → a = length pre + b →
    (∃ p q, raw_bytes r = p ++ enc32 x ++ q ∧ length p = b)%list →
    c = pre ++ raw_bytes r ++ post → field32 c a = x)%nat as Hfield.
  { intros a b c x Hx -> (p & q & Hr & <-) ->. unfold field32. rewrite Hr.
    rewrite <-!app_assoc, (app_assoc pre). rewrite slice_app; [by apply le_val_enc32| |done].
    by rewrite length_app. }
  unfold raw_bytes in *. split.
  - rewrite (Hfield _ 0%nat _ (u32 (r_wd r))); [by apply i32_u32|apply u32_range|lia| |done].
    by eexists [], _.
  - eapply (Hfield _ 4%nat); [done|lia| |done]. eexists (enc32 _), _. split; [done|done].
  - eapply (Hfield _ 8%nat); [done|lia| |done]. eexists (enc32 _ ++ enc32 _)%list, _.
    split; [by rewrite <-app_assoc|done].
  - eapply (Hfield _ 12%nat); [unfold in_u32; lia|lia| |done].
    eexists (enc32 _ ++ enc32 _ ++ enc32 _)%list, _. split; [by rewrite <-!app_assoc|done].
  - set (h := (enc32 (u32 (r_wd r)) ++ enc32 (r_mask r) ++ enc32 (r_cookie r) ++
      enc32 (Z.of_nat (length (r_name r))))%list).
    replace (pre ++ _ ++ post)%list with ((pre ++ h) ++ r_name r ++ post)%list
      by (unfold h; by rewrite <-!app_assoc).
    apply slice_app; [by rewrite length_app|done].
Qed.

Lemma trim_nuls_pad name pad : Forall (λ c, c ≠ zero) name → Forall (λ c, c = zero) pad →
  trim_nuls (name ++ pad) = name.
Proof.
  intros Hn Hp. assert (trim_nuls pad = []) as Hpad.
  { induction Hp as [|c pad -> _ IH]; [done|]. cbn. by rewrite IH. }
  induction Hn as [|c name Hc _ IH]; [done|]. cbn. rewrite IH.
  destruct name; [|done]. by destruct (Ascii.eqb_spec c zero).
Qed.

(** ** The claim about [String] *)

(** The flags [Event.String] prints account for the mask exactly: together with
    the remainder it prints in hexadecimal they make up the mask, no bit is printed
    twice, and the remainder contains no flag that has a name. *)
Theorem event_flags_exact mask fs rest : flags_loop eventBits mask = (fs, rest) →
  foldr Z.lor rest (fst <$> fs) = mask ∧
  ForallOrdPairs (λ a b, Z.land a b = 0) (fst <$> fs) ∧
  Forall (λ f, Z.land f rest = 0) (fst <$> fs) ∧
  ∀ v nm, (v, nm) ∈ eventBits → Z.land rest v ≠ v.
Proof.
  intros H. destruct (flags_loop_spec _ _ _ _ H) as (H1 & _ & _ & H4 & H5 & H6).
  split_and!; try done. intros v nm Hin. rewrite Forall_forall in H6. apply (H6 _ Hin).
  clear -Hin. repeat (apply elem_of_cons in Hin as [[= -> ->]|Hin]; [done|]). by apply elem_of_nil in Hin.
Qed.

Lemma event_flags_exact_witness : ∃ fs rest,
  flags_loop eventBits (InIsdir + InClose + 4096) = (fs, rest) ∧
  fst <$> fs = [InClose; InIsdir] ∧ rest = 4096 ∧
  foldr Z.lor rest (fst <$> fs) = InIsdir + InClose + 4096.
Proof.
  eexists _, _. split; [reflexivity|]. split_and!; [reflexivity|reflexivity|].
  apply (event_flags_exact (InIsdir + InClose + 4096) _ 4096). reflexivity.
Defined.

Example event_flags_close : event_flags (InIsdir + InClose + 4096) =
  " == IN_CLOSE|IN_ISDIR|0x1000"%string.
Proof. reflexivity. Qed.

(** The comment above [String] shows one equals sign. *)
Example Event_String_create : Event_String (λ s, s) (mkEvent InCreate 0 "a") =
  "a: 0x100 == IN_CREATE"%string.
Proof. reflexivity. Qed.
