(* ===== verification/System.v ===== *)
(** * The operating system as the daemon sees it

    A function of the program that makes system calls, or reports to its observer,
    is a [prog]: a finite tree whose nodes are the calls it makes and whose
    branches are the answers it may get.  Nothing is assumed of the answers: other
    processes may change the file system between any two calls.

    [exec p tr a] says that [p] can return [a] having made exactly the calls of
    [tr], with the answers recorded there; [holds p Q] says that [p] cannot panic
    and that every execution satisfies [Q].  [interp] runs a program against a
    concrete system. *)

From S2P Require Import Prelude TopkSpec Paths CacheKey Inotify.
Local Open Scope Z_scope.

(** ** Data exchanged with the kernel *)

Definition errno := Z.
Definition fd := Z.
Definition EAGAIN : errno := 11.
Definition EWOULDBLOCK : errno := 11.

(** [stat(2)]; [st_mtim] is the instant in nanoseconds since the epoch. *)
Record Stat := mkStat {
  st_dev : Z; st_ino : Z; st_mode : Z; st_size : Z; st_mtim : Z
}.
Definition S_IFMT : Z := 61440.    (* 0o170000 *)
Definition S_IFREG : Z := 32768.   (* 0o100000 *)
Definition S_IFDIR : Z := 16384.   (* 0o040000 *)
Definition S_IFLNK : Z := 40960.   (* 0o120000 *)
Definition mode_is (m : Z) (s : Stat) : bool := Z.land (st_mode s) S_IFMT =? m.

(** [statfs(2)]: counts are [uint64], [f_bsize] is [int64]. *)
Record Statfs := mkStatfs { f_blocks : Z; f_bavail : Z; f_bsize : Z }.

(** What a walk of a directory tree meets: an entry, and for a directory what
    [ReadDir] answered, the entries it could read and the error it met, if any. *)
Record dirent := mkDirent { d_isdir : bool; d_symlink : bool }.
Inductive tree := Tree (d : dirent) (children : list (string * tree)) (err : option errno).

(** The methods of interface [Observer] *)
Inductive observation :=
| SetDisk (bytesFree bytesUsed : Z)
| SetCacheBytes (bytes : Z)
| SetReady (ready : bool)
| RecordAccess (kind : EntryKind)
| RecordClose (kind : EntryKind)
| RecordProjected (bytes : Z)
| RecordDeleted (kind : EntryKind) (bytes : Z)
| RecordSkippedActive
| RecordFrozen (reason : string)
| RecordReconciliation.

(** The struct [checkpoint] of checkpoint.go; [SavedAt] in nanoseconds since the
    epoch. *)
Record checkpoint := mkCheckpoint { Version : Z; SavedAt : Z; Items : list Item }.
(** A value of that type that was decoded: its counts are [uint32]. *)
Definition counts_u32 (c : checkpoint) : bool :=
  forallb (λ it, (0 <=? Item_Count it) && (Item_Count it <? 2 ^ 32)) (Items c).
Record decoded := mkDecoded {
  decoded_value : checkpoint; decoded_ok : counts_u32 decoded_value = true
}.

(** What the [select] of [drainReconciliationEvents] receives when it is not stopped:
    an event, which may be a nil pointer, an error, or the end of a channel. *)
Inductive watcher_message :=
| MsgEvent (e : option Event)
| MsgError (e : WatcherError)
| MsgEventsClosed
| MsgErrorsClosed.

(** The cases of the [select] of [Run]. *)
Inductive run_choice :=
| RunDone
| RunWatcher (m : watcher_message)
| RunCleanup
| RunCheckpoint
| RunDecay.

(** ** Calls and answers *)

Inductive call :=
| CLstat (path : string)
| COpenDir (path : string)                  (* O_RDONLY|O_DIRECTORY|O_CLOEXEC|O_NOFOLLOW *)
| COpenDirAt (dir : fd) (name : string)     (* the same flags *)
| CFstat (f : fd)
| CFstatat (dir : fd) (name : string)       (* AT_SYMLINK_NOFOLLOW *)
| CUnlinkat (dir : fd) (name : string)
| CClose (f : fd)
| CStatfs (path : string)
| CEvalSymlinks (path : string)
| CWalk (root : string)                     (* what a WalkDir will meet *)
| CReadDir (path : string)                  (* the walk lists [path] now *)
| COpenLock (path : string)                 (* O_CREATE|O_RDWR, 0o660 *)
| CFlockExclusive (f : fd)                  (* LOCK_EX|LOCK_NB *)
| CFlockUnlock (f : fd)                     (* LOCK_UN *)
| CObserve (o : observation)
| CStoreReady (ready : bool)                 (* n.ready.Store *)
| CLogError (what : string)
| CNow                                      (* time.Now *)
| CTurns                                    (* turns an endless loop still makes *)
| CSched                                    (* which of two goroutines runs *)
(* the inotify watcher *)
| CInotifyInit                              (* IN_CLOEXEC|IN_NONBLOCK *)
| CInotifyAddWatch (f : fd) (path : string) (flags : Z)
| CInotifyRmWatch (f : fd) (wd : Z)
| CStopReader (f : fd)                      (* close(w.done) *)
| CDone (f : fd)                            (* is w.done closed? *)
| CPoll (f : fd)                            (* POLLIN, 100 ms: revents *)
| CRead (f : fd)
| CWatchedPath (f : fd) (wd : Z)            (* w.paths[wd] under w.mu *)
| CSendEvent (f : fd) (e : Event)           (* sent, or w.done closed *)
| CTrySendError (f : fd) (e : WatcherError) (* sent, or the channel is full *)
| CCloseErrors (f : fd)
| CCloseEvents (f : fd)
| CSelect (f : fd)                          (* the select of Run *)
| CReceive (f : fd)                         (* the select of the drain *)
| CStopped                                  (* the drain receives from stop *)
(* the checkpoint file *)
| COpenFile (path : string)                 (* os.Open *)
| CDecode (f : fd) (limit : Z)              (* the first JSON value of so many bytes *)
| CDecodeEOF (f : fd)                       (* is there nothing after it? *)
| CMkdirAll (path : string)                 (* 0o750 *)
| CCreateTemp (dir : string)                (* .hot-set-*.tmp *)
| CChmod (f : fd)                           (* 0o640 *)
| CEncode (f : fd) (c : checkpoint)
| CFsync (f : fd)
| CRename (oldpath newpath : string)
| CRemove (path : string).

Definition answer (c : call) : Type :=
  match c with
  | CLstat _ | CFstat _ | CFstatat _ _ => result errno Stat
  | COpenDir _ | COpenDirAt _ _ | COpenLock _ | COpenFile _ | CInotifyInit => result errno fd
  | CUnlinkat _ _ | CFlockExclusive _ | CFlockUnlock _ | CClose _ | CInotifyRmWatch _ _
  | CMkdirAll _ | CChmod _ | CEncode _ _ | CFsync _ | CRename _ _ | CRemove _ =>
      result errno unit
  | CStatfs _ => result errno Statfs
  | CEvalSymlinks _ => result errno string
  | CWalk _ => result errno tree
  | CReadDir _ | CObserve _ | CStoreReady _ | CLogError _ | CStopReader _ | CCloseErrors _ | CCloseEvents _
  | CStopped => unit
  | CNow => Z
  | CTurns => nat
  | CSched | CDone _ | CSendEvent _ _ | CTrySendError _ _ | CDecodeEOF _ => bool
  | CInotifyAddWatch _ _ _ | CPoll _ => result errno Z
  | CRead _ => result errno (list Ascii.ascii)
  | CWatchedPath _ _ => option string
  | CSelect _ => run_choice
  | CReceive _ => watcher_message
  | CDecode _ _ => option decoded
  | CCreateTemp _ => result errno (fd * string)
  end.

Definition event : Type := { c : call & answer c }.
Definition ev (c : call) (r : answer c) : event := existT c r.
Definition trace : Type := list event.

(** ** Programs *)

Inductive prog (A : Type) : Type :=
| Ret (a : A)
| Panic
| Call (c : call) (k : answer c → prog A).
Arguments Ret {A}. Arguments Panic {A}. Arguments Call {A}.

Fixpoint prog_bind {A B} (p : prog A) (f : A → prog B) : prog B :=
  match p with
  | Ret a => f a
  | Panic => Panic
  | Call c k => Call c (λ r, prog_bind (k r) f)
  end.

Definition do_call (c : call) : prog (answer c) := Call c Ret.
(** A step of the panic monad *)
Definition lift {A} (x : option A) : prog A :=
  match x with Some a => Ret a | None => Panic end.

#[export] Instance prog_ret : MRet prog := λ A, Ret.
#[export] Instance prog_mbind : MBind prog := λ A B f p, prog_bind p f.

Definition observe (o : observation) : prog unit := do_call (CObserve o).
Definition store_ready (r : bool) : prog unit := do_call (CStoreReady r).
Definition log_error (what : string) : prog unit := do_call (CLogError what).

(** Two goroutines that run until both have returned.  Between two calls the scheduler
    chooses which of them goes on; the second waits in a receive from [stop] until
    the first has returned. *)
Definition waits (c : call) : bool := match c with CStopped => true | _ => false end.

Fixpoint par {A B} (p : prog A) : prog B → prog (A * B) :=
  fix par_right (q : prog B) : prog (A * B) :=
    match p, q with
    | Panic, _ | _, Panic => Panic
    | Ret a, Ret b => Ret (a, b)
    | Ret a, Call d l => Call d (λ r, par_right (l r))
    | Call c k, Ret b => Call c (λ r, par (k r) (Ret b))
    | Call c k, Call d l =>
        if waits d then Call c (λ r, par (k r) (Call d l))
        else Call CSched (λ left : bool,
          if left then Call c (λ r, par (k r) (Call d l))
          else Call d (λ r, par_right (l r)))
    end.

(** ** Executions *)

Fixpoint exec {A} (p : prog A) (tr : trace) (a : A) : Prop :=
  match p with
  | Ret b => tr = [] ∧ b = a
  | Panic => False
  | Call c k => ∃ r tr', tr = ev c r :: tr' ∧ exec (k r) tr' a
  end.

(** Every execution of [p], after the calls of [pre], returns and satisfies [Q]. *)
Fixpoint holds_from {A} (pre : trace) (p : prog A) (Q : trace → A → Prop) : Prop :=
  match p with
  | Ret a => Q pre a
  | Panic => False
  | Call c k => ∀ r, holds_from (pre ++ [ev c r]) (k r) Q
  end.
Definition holds {A} (p : prog A) (Q : trace → A → Prop) : Prop := holds_from [] p Q.

(** The same for the executions whose every answer satisfies [ok]: what is proved of
    a program that relies on a contract of the kernel. *)
Fixpoint holds_if {A} (ok : event → Prop) (p : prog A) (Q : trace → A → Prop) : Prop :=
  match p with
  | Ret a => Q [] a
  | Panic => False
  | Call c k => ∀ r, ok (ev c r) → holds_if ok (k r) (λ tr a, Q (ev c r :: tr) a)
  end.

(** What the text of a program shows without running it: it makes only calls in [P],
    and whatever it returns satisfies [Q]. *)
Fixpoint tame {A} (P : call → Prop) (Q : A → Prop) (p : prog A) : Prop :=
  match p with
  | Ret a => Q a
  | Panic => True
  | Call c k => P c ∧ ∀ r, tame P Q (k r)
  end.

Fixpoint interp {S A} (h : ∀ c, S → answer c * S) (p : prog A) (s : S) : option A * trace * S :=
  match p with
  | Ret a => (Some a, [], s)
  | Panic => (None, [], s)
  | Call c k =>
      let '(r, s') := h c s in
      let '(a, tr, s'') := interp h (k r) s' in (a, ev c r :: tr, s'')
  end.

(** An answer to each call, for concrete systems that do not expect it *)
Definition unused_answer (c : call) : answer c :=
  match c with
  | CReadDir _ | CObserve _ | CStoreReady _ | CLogError _ | CStopReader _ | CCloseErrors _ | CCloseEvents _
  | CStopped => tt
  | CNow => 0
  | CTurns => 0%nat
  | CSched | CDone _ | CSendEvent _ _ | CTrySendError _ _ => true
  | CDecodeEOF _ => false
  | CSelect _ => RunDone
  | CReceive _ => MsgEventsClosed
  | CWatchedPath _ _ | CDecode _ _ => None
  | _ => Err CacheKey.ENOENT
  end.

(** ** What a trace did *)

(** The files a trace unlinked by [unlinkat], as the deletion of cache entries does.  The
    other call that removes a file, os.Remove, goes by a path: [own_files] (Checkpoint.v)
    and [not_by_path] (RunSafety.v) say of which files it is used. *)
Definition unlinked (e : event) : option (fd * string) :=
  match e with
  | existT c r =>
      match c return answer c → option (fd * string) with
      | CUnlinkat d name => λ r, match r with Ok _ => Some (d, name) | Err _ => None end
      | _ => λ _, None
      end r
  end.
Definition unlinks (tr : trace) : list (fd * string) := omap unlinked tr.

(** The descriptors it opened and closed.  That of an inotify instance is not
    listed: the goroutine that reads from it closes it. *)
Definition opened (e : event) : option fd :=
  match e with
  | existT c r =>
      match c return answer c → option fd with
      | COpenDir _ | COpenDirAt _ _ | COpenLock _ | COpenFile _ =>
          λ r, match r with Ok f => Some f | Err _ => None end
      | CCreateTemp _ => λ r, match r with Ok (f, _) => Some f | Err _ => None end
      | _ => λ _, None
      end r
  end.
(** What the file system answered about its size *)
Definition statfs_answer (e : event) : option Statfs :=
  match e with
  | existT c r =>
      match c return answer c → option Statfs with
      | CStatfs _ => λ r, match r with Ok st => Some st | Err _ => None end
      | _ => λ _, None
      end r
  end.
Definition closed (e : event) : option fd :=
  match e with existT (CClose f) _ => Some f | _ => None end.
Definition opens (tr : trace) : list fd := omap opened tr.
Definition closes (tr : trace) : list fd := omap closed tr.

(** The descriptors whose [flock] the process holds: an exclusive lock is given up
    by unlocking or by closing its descriptor. *)
Definition lock_step (held : list fd) (e : event) : list fd :=
  match e with
  | existT c r =>
      match c return answer c → list fd with
      | CFlockExclusive f => λ r, match r with Ok _ => f :: held | Err _ => held end
      | CFlockUnlock f => λ r,
          match r with Ok _ => filter (λ g, g ≠ f) held | Err _ => held end
      | CClose f => λ _, filter (λ g, g ≠ f) held
      | _ => λ _, held
      end r
  end.
Definition locks (held : list fd) (tr : trace) : list fd := foldl lock_step held tr.

(** Every file the trace unlinks, it unlinks with a lock held. *)
Fixpoint unlinks_locked (held : list fd) (tr : trace) : Prop :=
  match tr with
  | [] => True
  | e :: tr => (is_Some (unlinked e) → held ≠ []) ∧ unlinks_locked (lock_step held e) tr
  end.

(** The kernel never answers an open with a descriptor that is open. *)
Definition open_step (open : list fd) (e : event) : list fd :=
  match opened e, closed e with
  | Some f, _ => f :: open
  | None, Some f => filter (λ g, g ≠ f) open
  | None, None => open
  end.
Definition opens_after (open : list fd) (tr : trace) : list fd := foldl open_step open tr.
Fixpoint fds_fresh (open : list fd) (tr : trace) : Prop :=
  match tr with
  | [] => True
  | e :: tr => (∀ f, opened e = Some f → f ∉ open) ∧ fds_fresh (open_step open e) tr
  end.

(** A trace that keeps whatever lock is held, and so unlinks under it. *)
Definition tidy (tr : trace) : Prop :=
  ∀ open f, f ∈ open → fds_fresh open tr →
    locks [f] tr = [f] ∧ unlinks_locked [f] tr ∧ f ∈ opens_after open tr.

(** What the observer was told *)
Definition observed (e : event) : option observation :=
  match e with existT (CObserve o) _ => Some o | _ => None end.
Definition observations (tr : trace) : list observation := omap observed tr.

(** ** Lemmas *)

Lemma observations_app tr1 tr2 : observations (tr1 ++ tr2) = observations tr1 ++ observations tr2.
Proof. apply omap_app. Qed.

Lemma locks_app held tr1 tr2 : locks held (tr1 ++ tr2) = locks (locks held tr1) tr2.
Proof. apply foldl_app. Qed.

Lemma unlinks_locked_app held tr1 tr2 :
  unlinks_locked held (tr1 ++ tr2) ↔ unlinks_locked held tr1 ∧ unlinks_locked (locks held tr1) tr2.
Proof.
  revert held. induction tr1 as [|e tr1 IH]; intros held; cbn; [naive_solver|].
  rewrite IH. unfold locks. cbn. naive_solver.
Qed.

Lemma fds_fresh_app open tr1 tr2 :
  fds_fresh open (tr1 ++ tr2) ↔ fds_fresh open tr1 ∧ fds_fresh (opens_after open tr1) tr2.
Proof.
  revert open. induction tr1 as [|e tr1 IH]; intros open; cbn; [naive_solver|].
  rewrite IH. unfold opens_after. cbn. naive_solver.
Qed.

Lemma opens_after_app open tr1 tr2 :
  opens_after open (tr1 ++ tr2) = opens_after (opens_after open tr1) tr2.
Proof. apply foldl_app. Qed.

Lemma tidy_nil : tidy [].
Proof. by intros open f Hf _. Qed.

Lemma tidy_app tr1 tr2 : tidy tr1 → tidy tr2 → tidy (tr1 ++ tr2).
Proof.
  intros H1 H2 open f Hf [Hf1 Hf2]%fds_fresh_app. destruct (H1 open f Hf Hf1) as (Hl & Hu & Ho).
  destruct (H2 _ f Ho Hf2) as (Hl2 & Hu2 & Ho2).
  rewrite locks_app, unlinks_locked_app, opens_after_app, Hl. by split_and!.
Qed.

(** A directory opened, used and closed *)
Lemma tidy_bracket e f tr r : opened e = Some f → closed e = None → unlinked e = None →
  (∀ held, lock_step held e = held) → tidy tr → tidy (e :: tr ++ [ev (CClose f) r]).
Proof.
  intros Ho Hc Hu Hl Htr open g Hg [Hfresh Hrest]. specialize (Hfresh f Ho).
  assert (open_step open e = f :: open) as Hopen by (unfold open_step; by rewrite Ho).
  rewrite Hopen in Hrest. apply fds_fresh_app in Hrest as [Hrest _].
  destruct (Htr (f :: open) g) as (Hl2 & Hu2 & Ho2); [by right|done|].
  assert (g ≠ f) as Hne by (intros ->; done).
  change (e :: tr ++ [ev (CClose f) r]) with ([e] ++ tr ++ [ev (CClose f) r]).
  rewrite !locks_app, !unlinks_locked_app, !opens_after_app.
  assert (locks [g] [e] = [g]) as -> by (unfold locks; cbn; apply Hl).
  assert (opens_after open [e] = f :: open) as -> by done.
  rewrite Hl2. split; [|split].
  - apply (filter_all (λ h, h ≠ f)). by constructor.
  - split; [|split; [done|]].
    + split; [|done]. rewrite Hu. by intros [].
    + split; [|done]. by intros [].
  - apply (list_elem_of_filter (λ h, h ≠ f)). by split.
Qed.

(** An event that concerns no descriptor *)
Definition neutral (e : event) : Prop :=
  opened e = None ∧ closed e = None ∧ unlinked e = None ∧ ∀ held, lock_step held e = held.

Lemma tidy_neutral tr : Forall neutral tr → tidy tr.
Proof.
  induction 1 as [|e tr (Ho & Hc & Hu & Hl) _ IH]; [apply tidy_nil|].
  change (e :: tr) with ([e] ++ tr). apply tidy_app; [|done].
  intros open f Hf _. unfold locks, opens_after. cbn. unfold open_step.
  rewrite Hl, Hu, Ho, Hc. split_and!; try done.
Qed.

(** An event that concerns neither a descriptor nor the observer *)
Definition silent (e : event) : Prop := neutral e ∧ observed e = None.

Lemma silent_facts tr : Forall silent tr →
  tidy tr ∧ unlinks tr = [] ∧ observations tr = [] ∧ ∀ held, locks held tr = held.
Proof.
  intros Htr. split.
  { apply tidy_neutral. eapply Forall_impl; [exact Htr|]. by intros e []. }
  unfold unlinks, observations, locks.
  induction Htr as [|e tr [(_ & _ & Hu & Hl) Ho] _ (IH1 & IH2 & IH3)]; [done|].
  cbn [omap list_omap foldl]. rewrite Hu, Ho. split_and!; [done|done|].
  intros held. by rewrite Hl.
Qed.

Lemma unlinks_app tr1 tr2 : unlinks (tr1 ++ tr2) = unlinks tr1 ++ unlinks tr2.
Proof. apply omap_app. Qed.

Lemma opens_app tr1 tr2 : opens (tr1 ++ tr2) = opens tr1 ++ opens tr2.
Proof. apply omap_app. Qed.

Lemma closes_app tr1 tr2 : closes (tr1 ++ tr2) = closes tr1 ++ closes tr2.
Proof. apply omap_app. Qed.

Lemma holds_from_impl {A} (p : prog A) pre (Q Q' : trace → A → Prop) :
  (∀ tr a, Q tr a → Q' tr a) → holds_from pre p Q → holds_from pre p Q'.
Proof.
  intros HQ. revert pre. induction p as [a| |c k IH]; intros pre; cbn; [apply HQ|done|].
  intros H r. by apply IH.
Qed.

Lemma holds_from_bind {A B} (p : prog A) (f : A → prog B) pre Q :
  holds_from pre (p ≫= f) Q ↔ holds_from pre p (λ tr a, holds_from tr (f a) Q).
Proof.
  unfold mbind, prog_mbind. revert pre.
  induction p as [a| |c k IH]; intros pre; cbn; [done|done|].
  split; intros H r; by apply IH.
Qed.

(** The calls already made do not influence a program. *)
Lemma holds_from_pre {A} (p : prog A) pre Q :
  holds_from pre p Q ↔ holds p (λ tr a, Q (pre ++ tr) a).
Proof.
  unfold holds. cut (∀ pre', holds_from (pre ++ pre') p Q ↔
    holds_from pre' p (λ tr a, Q (pre ++ tr) a)).
  { intros H. rewrite <-(H []). by rewrite app_nil_r. }
  induction p as [a| |c k IH]; intros pre'; cbn; [done|done|].
  split; intros H r; specialize (H r); [rewrite <-app_assoc in H|rewrite <-app_assoc]; by apply IH.
Qed.

Lemma holds_impl {A} (p : prog A) (Q Q' : trace → A → Prop) :
  (∀ tr a, Q tr a → Q' tr a) → holds p Q → holds p Q'.
Proof. apply holds_from_impl. Qed.

Lemma holds_bind {A B} (p : prog A) (f : A → prog B) Q :
  holds p (λ tr a, holds (f a) (λ tr' b, Q (tr ++ tr') b)) → holds (p ≫= f) Q.
Proof.
  unfold holds at 1 3. rewrite holds_from_bind. apply holds_from_impl. intros tr a.
  by rewrite holds_from_pre.
Qed.

Lemma holds_call {A} c (k : answer c → prog A) Q :
  (∀ r, holds (k r) (λ tr a, Q (ev c r :: tr) a)) → holds (Call c k) Q.
Proof. intros H r. cbn. rewrite holds_from_pre. apply H. Qed.

Lemma holds_ret {A} (a : A) (Q : trace → A → Prop) : Q [] a → holds (Ret a) Q.
Proof. done. Qed.

Lemma holds_and {A} (p : prog A) (Q Q' : trace → A → Prop) :
  holds p Q → holds p Q' → holds p (λ tr a, Q tr a ∧ Q' tr a).
Proof.
  unfold holds. generalize ([] : trace). induction p as [a| |c k IH]; intros pre; cbn; [done|done|].
  intros H1 H2 r. by apply IH.
Qed.

Lemma holds_if_impl {A} ok (p : prog A) (Q Q' : trace → A → Prop) :
  (∀ tr a, Q tr a → Q' tr a) → holds_if ok p Q → holds_if ok p Q'.
Proof.
  revert Q Q'. induction p as [a| |c k IH]; intros Q Q' HQ; cbn; [apply HQ|done|].
  intros H r Hr. eapply IH; [|by apply H]. intros tr a. apply HQ.
Qed.

Lemma holds_if_bind {A B} ok (p : prog A) (f : A → prog B) Q :
  holds_if ok p (λ tr a, holds_if ok (f a) (λ tr' b, Q (tr ++ tr') b)) → holds_if ok (p ≫= f) Q.
Proof.
  unfold mbind, prog_mbind. revert Q. induction p as [a| |c k IH]; intros Q; cbn; [done|done|].
  intros H r Hr. apply IH. by apply H.
Qed.

Lemma holds_if_holds {A} ok (p : prog A) Q : holds p Q → holds_if ok p Q.
Proof.
  revert Q. induction p as [a| |c k IH]; intros Q; [done|done|].
  intros H r _. apply IH. specialize (H r). by apply holds_from_pre in H.
Qed.

Lemma holds_if_exec {A} ok (p : prog A) Q : holds_if ok p Q → ∀ tr a, exec p tr a →
  Forall ok tr → Q tr a.
Proof.
  revert Q. induction p as [b| |c k IH]; intros Q; cbn; [|done|].
  - by intros H tr a [-> ->] _.
  - intros H tr a (r & tr' & -> & Hx) [Hr Htr]%Forall_cons. by apply (IH r _ (H r Hr) tr').
Qed.

(** What [holds] means: no execution panics, and each satisfies [Q]. *)
Lemma holds_exec {A} (p : prog A) Q : holds p Q → ∀ tr a, exec p tr a → Q tr a.
Proof.
  unfold holds. cut (∀ pre, holds_from pre p Q → ∀ tr a, exec p tr a → Q (pre ++ tr) a).
  { intros H ? tr a ?. by apply (H []). }
  induction p as [a| |c k IH]; intros pre; cbn; [|done|].
  - intros H tr b [-> ->]. by rewrite app_nil_r.
  - intros H tr b (r & tr' & -> & Hx). specialize (IH r _ (H r) tr' b Hx).
    by rewrite <-app_assoc in IH.
Qed.

(** The trace of an execution is one the program makes. *)
Lemma holds_self {A} (p : prog A) Q : holds p Q → holds p (λ tr a, exec p tr a ∧ Q tr a).
Proof.
  revert Q. induction p as [b| |c k IH]; intros Q; [by intros H|done|].
  intros H. apply holds_call. intros r. specialize (H r). apply holds_from_pre in H.
  eapply holds_impl; [|exact (IH r _ H)]. intros tr a [Hx HQ]. split; [|exact HQ].
  by exists r, tr.
Qed.

Lemma exec_bind {A B} (p : prog A) (f : A → prog B) tr b :
  exec (p ≫= f) tr b ↔ ∃ tr1 tr2 a, tr = tr1 ++ tr2 ∧ exec p tr1 a ∧ exec (f a) tr2 b.
Proof.
  unfold mbind, prog_mbind. revert tr. induction p as [a| |c k IH]; intros tr; cbn; split.
  - intros Hx. by exists [], tr, a.
  - by intros (tr1 & tr2 & a' & -> & [-> ->] & Hx).
  - done.
  - by intros (tr1 & tr2 & a' & _ & [] & _).
  - intros (r & tr' & -> & (tr1 & tr2 & a & -> & H1 & H2)%IH).
    exists (ev c r :: tr1), tr2, a. split; [done|]. split; [|done]. by exists r, tr1.
  - intros (tr1 & tr2 & a & -> & (r & tr' & -> & H1) & H2). exists r, (tr' ++ tr2)%list. split; [done|].
    apply IH. by exists tr', tr2, a.
Qed.

Lemma interp_exec {S A} (h : ∀ c, S → answer c * S) (p : prog A) s a tr s' :
  interp h p s = (Some a, tr, s') → exec p tr a.
Proof.
  revert s tr. induction p as [b| |c k IH]; intros s tr; cbn; [by intros [= -> <- _]|done|].
  destruct (h c s) as [r s1]. destruct (interp h (k r) s1) as [[a' tr'] s2] eqn:Hi.
  intros [= -> <- ->]. exists r, tr'. split; [done|]. by eapply IH.
Qed.

Lemma tame_bind {A B} P (R : A → Prop) (Q : B → Prop) (p : prog A) (f : A → prog B) :
  tame P R p → (∀ a, R a → tame P Q (f a)) → tame P Q (p ≫= f).
Proof.
  unfold mbind, prog_mbind. intros Hp Hf. induction p as [a| |c k IH]; cbn in *; [by apply Hf|done|].
  destruct Hp as [Hc Hk]. split; [done|]. intros r. by apply IH.
Qed.

Lemma tame_impl {A} (P P' : call → Prop) (Q Q' : A → Prop) p :
  (∀ c, P c → P' c) → (∀ a, Q a → Q' a) → tame P Q p → tame P' Q' p.
Proof.
  intros HP HQ. induction p as [a| |c k IH]; cbn; [apply HQ|done|].
  intros [Hc Hk]. split; [by apply HP|]. intros r. by apply IH.
Qed.

Lemma tame_lift {A} P (Q : A → Prop) (x : option A) : (∀ a, x = Some a → Q a) → tame P Q (lift x).
Proof. destruct x; cbn; auto. Qed.

Lemma holds_tame {A} (p : prog A) H P Q : holds p H → tame P Q p →
  holds p (λ tr a, H tr a ∧ Forall (λ e, P (projT1 e)) tr ∧ Q a).
Proof.
  revert H. induction p as [a| |c k IH]; intros H Hp Ht; [|done|].
  - split_and!; [exact Hp|constructor|exact Ht].
  - destruct Ht as [Hc Hk]. apply holds_call. intros r. specialize (Hp r).
    apply holds_from_pre in Hp. eapply holds_impl; [|exact (IH r _ Hp (Hk r))].
    intros tr a (? & ? & ?). split_and!; [done|by constructor|done].
Qed.

(** The trace of two goroutines: their calls interleaved, and the scheduler's. *)
Inductive interleaved : trace → trace → trace → Prop :=
| interleaved_nil : interleaved [] [] []
| interleaved_left e tr1 tr2 tr : interleaved tr1 tr2 tr → interleaved (e :: tr1) tr2 (e :: tr)
| interleaved_right e tr1 tr2 tr : interleaved tr1 tr2 tr → interleaved tr1 (e :: tr2) (e :: tr)
| interleaved_sched b tr1 tr2 tr : interleaved tr1 tr2 tr →
    interleaved tr1 tr2 (ev CSched b :: tr).

Lemma interleaved_Forall (P : event → Prop) tr1 tr2 tr : (∀ b, P (ev CSched b)) →
  interleaved tr1 tr2 tr → Forall P tr1 → Forall P tr2 → Forall P tr.
Proof.
  intros HP. induction 1 as [|e tr1 tr2 tr _ IH|e tr1 tr2 tr _ IH|b tr1 tr2 tr _ IH]; [done|..].
  - intros [? ?]%Forall_cons ?. constructor; auto.
  - intros ? [? ?]%Forall_cons. constructor; auto.
  - intros ? ?. constructor; auto.
Qed.

Lemma interleaved_sublist tr1 tr2 tr : interleaved tr1 tr2 tr → sublist tr1 tr ∧ sublist tr2 tr.
Proof. induction 1; [by split|..]; destruct IHinterleaved; split; by constructor. Qed.

Lemma holds_par {A B} (p : prog A) (q : prog B) P Q : holds p P → holds q Q →
  holds (par p q) (λ tr r, ∃ tr1 tr2, interleaved tr1 tr2 tr ∧ P tr1 r.1 ∧ Q tr2 r.2).
Proof.
  revert q P Q. induction p as [a| |c k IH]; intros q P Q; [|done|].
  - intros Ha. revert Q. induction q as [b| |d l IHq]; intros Q Hq; [|done|].
    + exists [], []. split_and!; [constructor|done|done].
    + apply holds_call. intros r. specialize (Hq r). apply holds_from_pre in Hq.
      eapply holds_impl; [|by apply (IHq r (λ tr b, Q (ev d r :: tr) b))].
      intros tr [a' b'] (tr1 & tr2 & ? & ? & ?). exists tr1, (ev d r :: tr2).
      split_and!; [by constructor|done|done].
  - intros Hp. assert (∀ q', holds q' Q → ∀ r, holds (par (k r) q') (λ tr x, ∃ tr1 tr2,
      interleaved tr1 tr2 (ev c r :: tr) ∧ P tr1 x.1 ∧ Q tr2 x.2)) as Hleft.
    { intros q' Hq' r. specialize (Hp r). apply holds_from_pre in Hp.
      eapply holds_impl; [|apply (IH r q' _ Q Hp Hq')].
      intros tr x (tr1 & tr2 & ? & ? & ?). exists (ev c r :: tr1), tr2. split_and!; [by constructor|done|done]. }
    revert Q Hleft. induction q as [b| |d l IHq]; intros Q Hleft Hq; [|done|].
    + apply holds_call. intros r. by apply Hleft.
    + assert (holds (Call c (λ r, par (k r) (Call d l))) (λ tr x, ∃ tr1 tr2,
        interleaved tr1 tr2 tr ∧ P tr1 x.1 ∧ Q tr2 x.2)) as Hl.
      { apply holds_call. intros r. by apply Hleft. }
      cbn [par]. destruct (waits d); [exact Hl|].
      apply holds_call. intros [].
      * eapply holds_impl; [|exact Hl]. intros tr x (tr1 & tr2 & ? & ? & ?).
        exists tr1, tr2. split_and!; [by constructor|done|done].
      * apply holds_call. intros r. pose proof (Hq r) as Hqr. apply holds_from_pre in Hqr.
        eapply holds_impl; [|apply (IHq r (λ tr b, Q (ev d r :: tr) b)); [|exact Hqr]].
        -- intros tr x (tr1 & tr2 & ? & ? & ?). exists tr1, (ev d r :: tr2).
           split_and!; [by do 2 constructor|done|done].
        -- intros q' Hq' r'. specialize (Hp r'). apply holds_from_pre in Hp.
           eapply holds_impl; [|apply (IH r' q' _ _ Hp Hq')].
           intros tr x (tr1 & tr2 & ? & ? & ?). exists (ev c r' :: tr1), tr2.
           split_and!; [by constructor|done|done].
Qed.

(** Step through a program: one call, one return, one sequencing. *)
Ltac go_prog :=
  repeat (cbn [lift];
    match goal with
    | |- holds (Ret _) _ => apply holds_ret
    | |- holds (Call _ _) _ => apply holds_call; intros ?
    | |- holds (_ ≫= _) _ => apply holds_bind
    | |- holds (do_call _) _ => unfold do_call
    | |- holds (observe _) _ => unfold observe, do_call
    | |- holds (store_ready _) _ => unfold store_ready, do_call
    | |- holds (log_error _) _ => unfold log_error, do_call
    end).

(** Read a program whose tests and answers do not matter. *)
Ltac go_tame :=
  repeat (cbn [tame lift];
    match goal with
    | |- tame _ _ (do_call _) => unfold do_call
    | |- tame _ _ (observe _) => unfold observe, do_call
    | |- tame _ _ (store_ready _) => unfold store_ready, do_call
    | |- tame _ _ (log_error _) => unfold log_error, do_call
    | |- tame _ _ (lift _) => apply tame_lift; intros ? _
    | |- tame _ _ (_ ≫= _) => apply (tame_bind _ (λ _, True)); [|intros ? _]
    | |- tame _ _ (match ?x with _ => _ end) => destruct x
    | |- _ ∧ _ => split
    | |- ∀ _, _ => intros ?
    end); try done.

(** The same under a contract of the kernel *)
Ltac go_if :=
  repeat (cbn [lift];
    match goal with
    | |- holds_if _ (Ret _) _ => cbn [holds_if]
    | |- holds_if _ (Call _ _) _ => cbn [holds_if]; intros ? ?
    | |- holds_if _ (_ ≫= _) _ => apply holds_if_bind
    | |- holds_if _ (do_call _) _ => unfold do_call
    end).

(** Run a program to its end by cases on every answer and test. *)
Ltac run_prog :=
  repeat (go_prog; cbn [app] in *;
    match goal with
    | |- holds (match ?r with Ok _ => _ | Err _ => _ end) _ => destruct r eqn:?
    | |- holds (match ?r with Some _ => _ | None => _ end) _ => destruct r eqn:?
    | |- holds (if ?b then _ else _) _ => destruct b eqn:?
    | |- holds (let '(_, _) := ?r in _) _ => destruct r eqn:?
    end); go_prog; cbn [app] in *.
