(* ===== verification/Partial.v ===== *)
(** * Executions that are cut short

    A goroutine may be stopped anywhere when its process ends.  [ran p tr q] says that
    [p] has made the calls of [tr] and that [q] is what it has left to do; the lemmas
    carry what is proved of whole executions over to these parts.  They complete a
    part with the answers of [unused_answer], which open and unlink nothing. *)

From S2P Require Import Prelude TopkSpec Paths CacheKey Inotify System.

Inductive ran {A} (p : prog A) : trace → prog A → Prop :=
| ran_nil : ran p [] p
| ran_call tr c k r : ran p tr (Call c k) → ran p (tr ++ [ev c r]) (k r).

(** An event that only completes an execution *)
Definition idle (e : event) : Prop := ∃ c, e = ev c (unused_answer c).

(** A property of traces that a part keeps when the whole has it *)
Definition cuttable (P : trace → Prop) : Prop :=
  ∀ tr tr', Forall idle tr' → P (tr ++ tr') → P tr.

Lemma idle_facts e : idle e → opened e = None ∧ unlinked e = None.
Proof. intros [c ->]. by destruct c. Qed.

Lemma idle_unlinks tr : Forall idle tr → unlinks tr = [].
Proof.
  unfold unlinks. induction 1 as [|e tr [_ Hu]%idle_facts _ IH]; [done|]. cbn. by rewrite Hu.
Qed.

Lemma idle_fresh open tr : Forall idle tr → fds_fresh open tr.
Proof.
  intros Htr. revert open. induction Htr as [|e tr [Ho _]%idle_facts _ IH]; intros open; [done|].
  split; [|apply IH]. by rewrite Ho.
Qed.

Section ran.
Context {A : Type}.
Implicit Types p q : prog A.

Lemma ran_exec p tr q : ran p tr q → ∀ tr' a, exec q tr' a → exec p (tr ++ tr') a.
Proof.
  induction 1 as [|tr c k r _ IH]; intros tr' a Hx; [done|].
  rewrite <-app_assoc. apply IH. by exists r, tr'.
Qed.

Lemma exec_ran p tr a : exec p tr a → ran p tr (Ret a).
Proof.
  cut (∀ q tr0, ran p tr0 q → exec q tr a → ran p (tr0 ++ tr) (Ret a)).
  { intros H Hx. by apply (H p []); [constructor|]. }
  revert p. intros p q. revert tr. induction q as [b| |c k IH]; intros tr tr0 Hr; [|done|].
  - intros [-> ->]. by rewrite app_nil_r.
  - intros (r & tr' & -> & Hx). assert (tr0 ++ ev c r :: tr' = (tr0 ++ [ev c r]) ++ tr')%list as ->
      by by rewrite <-app_assoc.
    apply (IH r); [by constructor|done].
Qed.

Lemma holds_ran p Q tr q : holds p Q → ran p tr q → holds q (λ tr' a, Q (tr ++ tr') a).
Proof.
  intros Hp. induction 1 as [|tr c k r _ IH]; [done|]. specialize (IH r).
  apply holds_from_pre in IH. eapply holds_impl; [|exact IH]. intros tr' a. by rewrite <-app_assoc.
Qed.

(** A program that holds anything is not stuck: it can be completed. *)
Lemma holds_completes q Q : holds q Q → ∃ tr a, Forall idle tr ∧ Q tr a.
Proof.
  revert Q. induction q as [b| |c k IH]; intros Q Hq; [by exists [], b|done|].
  specialize (Hq (unused_answer c)). apply holds_from_pre in Hq.
  destruct (IH _ _ Hq) as (tr & a & Htr & HQ). exists (ev c (unused_answer c) :: tr), a.
  split; [|done]. constructor; [by exists c|done].
Qed.

Lemma ran_keeps p (P : trace → Prop) tr q : cuttable P → holds p (λ tr _, P tr) →
  ran p tr q → P tr.
Proof.
  intros Hcut Hp Hr. destruct (holds_completes _ _ (holds_ran _ _ _ _ Hp Hr)) as (tr' & a & Htr' & HP).
  by eapply Hcut.
Qed.

Lemma ran_returned p Q tr a : holds p Q → ran p tr (Ret a) → Q tr a.
Proof. intros Hp Hr. pose proof (holds_ran _ _ _ _ Hp Hr) as H. cbn in H. by rewrite app_nil_r in H. Qed.

Lemma ran_no_panic p Q tr : holds p Q → ¬ ran p tr Panic.
Proof. intros Hp Hr. by pose proof (holds_ran _ _ _ _ Hp Hr). Qed.
End ran.

(** ** Properties that survive the cut *)

Lemma cuttable_and P Q : cuttable P → cuttable Q → cuttable (λ tr, P tr ∧ Q tr).
Proof. intros HP HQ tr tr' Hi [? ?]. split; [by eapply HP|by eapply HQ]. Qed.

Lemma cuttable_Forall (P : event → Prop) : cuttable (Forall P).
Proof. by intros tr tr' _ [? _]%Forall_app. Qed.

Lemma cuttable_unlinks C : cuttable (λ tr, unlinks tr ≠ [] → C).
Proof. intros tr tr' Hi H Hne. apply H. by rewrite unlinks_app, (idle_unlinks tr'), app_nil_r. Qed.

Lemma cuttable_locked : cuttable (λ tr, fds_fresh [] tr → unlinks_locked [] tr).
Proof.
  intros tr tr' Hi H Hf. apply (unlinks_locked_app [] tr tr'). apply H.
  apply fds_fresh_app. split; [done|by apply idle_fresh].
Qed.

#[export] Hint Resolve cuttable_and cuttable_Forall cuttable_unlinks cuttable_locked : hoshino.

(** ** Readiness

    The daemon stores its readiness, which [Ready] reads, and announces it to the
    observer, which exports it: two calls, and another goroutine may look between them. *)
Definition stored (e : event) : option bool :=
  match e with existT (CStoreReady b) _ => Some b | _ => None end.
Definition ready_said (b : bool) (o : observation) : bool :=
  match o with SetReady r => r | _ => b end.
Definition readiness (b : bool) (e : event) : bool := default b (stored e).

(** What was stored, and what was announced, last *)
Definition ready_stored (tr : trace) : bool := foldl readiness false tr.
Definition announced (tr : trace) : bool := foldl ready_said false (observations tr).

(** A trace announces what it stores, nothing else, and at once: [pending] is a store
    that is to be announced by the next call. *)
Definition announces_step (pending : option bool) (e : event) : Prop :=
  match e with
  | existT (CObserve (SetReady b)) _ => pending = Some b
  | _ => pending = None
  end.
Fixpoint announces (pending : option bool) (tr : trace) : Prop :=
  match tr with
  | [] => True
  | e :: tr => announces_step pending e ∧ announces (stored e) tr
  end.
Definition pending_after (pending : option bool) (tr : trace) : option bool :=
  foldl (λ _, stored) pending tr.

Lemma announces_app pending tr1 tr2 : announces pending (tr1 ++ tr2) ↔
  announces pending tr1 ∧ announces (pending_after pending tr1) tr2.
Proof.
  revert pending. induction tr1 as [|e tr1 IH]; intros pending; cbn; [naive_solver|]. rewrite IH.
  unfold pending_after. cbn. tauto.
Qed.

Lemma announced_snoc tr e : announced (tr ++ [e]) =
  match observed e with Some o => ready_said (announced tr) o | None => announced tr end.
Proof.
  unfold announced. rewrite observations_app, foldl_app. unfold observations at 2. cbn.
  by destruct (observed e).
Qed.

Lemma ready_stored_snoc tr e : ready_stored (tr ++ [e]) = readiness (ready_stored tr) e.
Proof. unfold ready_stored. by rewrite foldl_app. Qed.

(** An event stores readiness, announces it, or has nothing to do with it. *)
Lemma readiness_cases e : (∃ b r, e = ev (CStoreReady b) r) ∨ (∃ b r, e = ev (CObserve (SetReady b)) r) ∨
  (∀ pending, announces_step pending e = (pending = None)) ∧ stored e = None ∧
  ∀ tr, announced (tr ++ [e]) = announced tr.
Proof.
  destruct e as [c r]. destruct c.
  all: try (right; right; split_and!; [done|done|intros tr; by rewrite announced_snoc]).
  - destruct o; try (right; right; split_and!; [done|done|intros tr; by rewrite announced_snoc]).
    right; left. by eexists _, _.
  - left. by eexists _, _.
Qed.

(** So the two agree, but between a store and its announcement. *)
Lemma announces_agree tr : announces None tr →
  match pending_after None tr with
  | None => ready_stored tr = announced tr
  | Some b => ∃ tr' r, tr = tr' ++ [ev (CStoreReady b) r] ∧ ready_stored tr' = announced tr'
  end.
Proof.
  induction tr as [|e tr IH] using rev_ind; [done|]. intros [Htr [He _]]%announces_app.
  specialize (IH Htr). unfold pending_after in *. rewrite foldl_app. cbn.
  destruct (readiness_cases e) as [(b & r & ->)|[(b & r & ->)|(Hstep & Hs & Ha)]]; [| |rewrite Hs].
  - cbn in He. rewrite He in IH. by exists tr, r.
  - cbn in He. rewrite He in IH. destruct IH as (tr' & r' & -> & _).
    by rewrite announced_snoc, !ready_stored_snoc.
  - rewrite Hstep in He. rewrite He in IH. rewrite Ha, ready_stored_snoc. unfold readiness. by rewrite Hs.
Qed.

(** Complete ones *)
Definition paired (tr : trace) : Prop := announces None tr ∧ pending_after None tr = None.

Lemma paired_app tr1 tr2 : paired tr1 → paired tr2 → paired (tr1 ++ tr2).
Proof.
  intros [H1 P1] [H2 P2]. split; [rewrite announces_app, P1; by split|].
  unfold pending_after in *. by rewrite foldl_app, P1.
Qed.

(** Calls that are neither *)
Definition not_ready_call (c : call) : Prop :=
  match c with CStoreReady _ | CObserve (SetReady _) => False | _ => True end.

Lemma paired_step e : not_ready_call (projT1 e) → paired [e].
Proof. destruct e as [c r]. destruct c; try destruct o; by try intros []. Qed.

Lemma paired_Forall tr : Forall (λ e, not_ready_call (projT1 e)) tr → paired tr.
Proof.
  induction 1 as [|e tr He _ IH]; [done|]. apply (paired_app [e]); [by apply paired_step|done].
Qed.

Lemma cuttable_announces : cuttable (announces None).
Proof. intros tr tr' _. by intros [? _]%announces_app. Qed.
#[export] Hint Resolve cuttable_announces : hoshino.
