(* ===== verification/Watcher.v ===== *)
(** * Package [inotify], its operations (inotify_linux.go)

    The watch tables with [AddWatch] and [RemoveWatch], and the goroutine that reads
    the kernel's event buffer.  The mutable state the goroutine shares with the rest
    of the program (the table of paths, the channels, [done]) is what answers its
    calls, so nothing is assumed of when the program changes it.

    A loop without end makes a number of turns that the environment chooses before
    it starts, so every finite part of its life is an execution of the model. *)

From S2P Require Import Prelude Paths Inotify TopkSpec CacheKey System.
From Stdlib Require Import Ascii.
Local Open Scope Z_scope.

(** ** Data *)

Record watch := mkWatch { wd : Z; flags : Z }.

(** [w_fd] stands for the channels [Event], [Error] and [done] too; [done] is closed
    when [isClosed] is set. *)
Record Watcher := mkWatcher {
  w_fd : fd; watches : gmap string watch; paths : gmap Z string; isClosed : bool
}.

Inductive WatchError :=
| ErrInstanceClosed
| ErrAddWatch (path : string) (e : errno)
| ErrNoWatch (path : string)
| ErrRmWatch (e : errno).

Definition EINTR : errno := 4.
Definition EINVAL : errno := 22.
Definition POLLIN : Z := 1.
Definition POLLERR : Z := 8.
Definition POLLHUP : Z := 16.
Definition POLLNVAL : Z := 32.

(** ** The watch tables *)

Definition NewWatcher : prog (result errno Watcher) :=
  r ← do_call CInotifyInit;
  match r with
  | Err e => Ret (Err e)
  | Ok f => Ret (Ok (mkWatcher f ∅ ∅ false))
  end.

Definition Close (w : Watcher) : prog Watcher :=
  if isClosed w then Ret w else
  _ ← do_call (CStopReader (w_fd w));
  Ret (mkWatcher (w_fd w) (watches w) (paths w) true).

Definition AddWatch (w : Watcher) (path : string) (fl : Z) : prog (option WatchError * Watcher) :=
  if isClosed w then Ret (Some ErrInstanceClosed, w) else
  match watches w !! path with
  | Some watchEntry =>
      let w := mkWatcher (w_fd w)
        (<[path:=mkWatch (wd watchEntry) (Z.lor (flags watchEntry) fl)]> (watches w))
        (paths w) (isClosed w) in
      r ← do_call (CInotifyAddWatch (w_fd w) path (Z.lor fl IN_MASK_ADD));
      match r with Err e => Ret (Some (ErrAddWatch path e), w) | Ok _ => Ret (None, w) end
  | None =>
      r ← do_call (CInotifyAddWatch (w_fd w) path fl);
      match r with
      | Err e => Ret (Some (ErrAddWatch path e), w)
      | Ok d =>
          Ret (None, mkWatcher (w_fd w) (<[path:=mkWatch (u32 d) fl]> (watches w))
                       (<[d:=path]> (paths w)) (isClosed w))
      end
  end.

Definition Watch (w : Watcher) (path : string) := AddWatch w path InAllEvents.

Definition RemoveWatch (w : Watcher) (path : string) : prog (option WatchError * Watcher) :=
  match watches w !! path with
  | None => Ret (Some (ErrNoWatch path), w)
  | Some watch =>
      r ← do_call (CInotifyRmWatch (w_fd w) (wd watch));
      let removed := mkWatcher (w_fd w) (delete path (watches w)) (delete (wd watch) (paths w))
                       (isClosed w) in
      match r with
      | Ok _ => Ret (None, removed)
      | Err e => if e =? EINVAL then Ret (None, removed) else Ret (Some (ErrRmWatch e), w)
      end
  end.

(** ** The reader *)

(** The event is sent, or [done] is closed. *)
Definition sendEvent (f : fd) (e : Event) : prog bool := do_call (CSendEvent f e).

(** The error is sent, or the channel is full and it is dropped. *)
Definition reportError (f : fd) (e : WatcherError) : prog unit :=
  _ ← do_call (CTrySendError f e); Ret tt.

Definition reportOverflow (f : fd) (mask : Z) : prog bool :=
  if Z.land mask InQOverflow =? 0 then Ret false
  else _ ← reportError f ErrEventOverflow; Ret true.

(** The loop over the [n] bytes read: [false] when the reader must return.  Each
    event is at least a header long; running out of fuel, or leaving the buffer, is
    a [Panic]. *)
Fixpoint events_loop (fuel : nat) (f : fd) (buf : list ascii) (n offset : Z) : prog bool :=
  match fuel with
  | O => Panic
  | S fuel =>
      if negb (offset <=? u32 (n - Z.of_nat SizeofInotifyEvent)) then Ret true else
      let off := Z.to_nat offset in
      let mask := field32 buf (off + 4) in
      let nameLen := field32 buf (off + 12) in
      let next := u32 (offset + u32 (Z.of_nat SizeofInotifyEvent + nameLen)) in
      overflow ← reportOverflow f mask;
      if (overflow : bool) then events_loop fuel f buf n next else
      name ← do_call (CWatchedPath f (i32 (field32 buf off)));
      match name with
      | None => events_loop fuel f buf n next
      | Some path =>
          if (PathMax <? nameLen) ||
             (Z.of_nat buf_size <? offset + Z.of_nat SizeofInotifyEvent + nameLen) then Panic else
          sent ← sendEvent f (mkEvent mask (field32 buf (off + 8))
            (event_name path (slice buf (off + SizeofInotifyEvent) (Z.to_nat nameLen))));
          if (sent : bool) then events_loop fuel f buf n next else Ret false
      end
  end.

(** [None]: still waiting. *)
Fixpoint wait_loop (turns : nat) (f : fd) : prog (option bool) :=
  match turns with
  | O => Ret None
  | S turns =>
      stopped ← do_call (CDone f);
      if (stopped : bool) then Ret (Some false) else
      r ← do_call (CPoll f);
      match r with
      | Err e =>
          if e =? EINTR then wait_loop turns f
          else _ ← reportError f (ErrPoll e); Ret (Some false)
      | Ok revents =>
          if negb (Z.land revents POLLIN =? 0) then Ret (Some true)
          else if negb (Z.land revents (Z.lor POLLERR (Z.lor POLLHUP POLLNVAL)) =? 0)
          then Ret (Some false)
          else wait_loop turns f
      end
  end.
Definition waitReadable (f : fd) : prog (option bool) :=
  turns ← do_call CTurns; wait_loop turns f.

(** One turn of [readEvents]: go on with this buffer, return, or still be in it. *)
Inductive turn_end := TurnNext (buf : list ascii) | TurnReturn | TurnRunning.

(** The buffer after a read of [bytes] *)
Definition overwrite (buf bytes : list ascii) : list ascii := bytes ++ drop (length bytes) buf.

Definition reader_turn (f : fd) (buf : list ascii) : prog turn_end :=
  readable ← waitReadable f;
  match readable with
  | None => Ret TurnRunning
  | Some false => Ret TurnReturn
  | Some true =>
      r ← do_call (CRead f);
      stopped ← do_call (CDone f);
      if (stopped : bool) then Ret TurnReturn else
      match (r : result errno (list ascii)) with
      | Ok [] => Ret TurnReturn
      | Err e =>
          if (e =? EAGAIN) || (e =? EINTR) then Ret (TurnNext buf)
          else _ ← reportError f (ErrRead e); Ret (TurnNext buf)
      | Ok bytes =>
          let buf := overwrite buf bytes in
          let n := Z.of_nat (length bytes) in
          if n <? Z.of_nat SizeofInotifyEvent
          then _ ← reportError f ErrShortRead; Ret (TurnNext buf)
          else
            go ← events_loop (S (Z.to_nat (n / 16))) f buf n 0;
            Ret (if (go : bool) then TurnNext buf else TurnReturn)
      end
  end.

Fixpoint reader_loop (turns : nat) (f : fd) (buf : list ascii) : prog bool :=
  match turns with
  | O => Ret false
  | S turns =>
      t ← reader_turn f buf;
      match t with
      | TurnNext buf => reader_loop turns f buf
      | TurnReturn => Ret true
      | TurnRunning => Ret false
      end
  end.

(** [true] when the reader has returned, its deferred calls done. *)
Definition readEvents (f : fd) : prog bool :=
  turns ← do_call CTurns;
  returned ← reader_loop turns f (replicate buf_size zero);
  if (returned : bool) then
    _ ← do_call (CCloseErrors f);
    _ ← do_call (CCloseEvents f);
    _ ← do_call (CClose f);
    Ret true
  else Ret false.

(** ** The contract of the watch tables *)

(** A path has a watch with descriptor [d] exactly when [d] leads back to it. *)
Definition tables_agree (w : Watcher) : Prop :=
  ∀ path d, (wd <$> watches w !! path = Some d) ↔ paths w !! d = Some path.

(** The kernel answers a new path with a descriptor that is not in use. *)
Definition fresh_wd (w : Watcher) (e : event) : Prop :=
  match e with
  | existT c r =>
      match c return answer c → Prop with
      | CInotifyAddWatch _ path _ => λ r,
          match r with
          | Ok d => 0 <= d < 2 ^ 31 ∧ (watches w !! path = None → paths w !! d = None)
          | Err _ => True
          end
      | _ => λ _, True
      end r
  end.

Lemma tables_agree_flags w path x fl : watches w !! path = Some x → tables_agree w →
  tables_agree (mkWatcher (w_fd w) (<[path:=mkWatch (wd x) fl]> (watches w)) (paths w) (isClosed w)).
Proof.
  intros Hx Hw q d. cbn. rewrite <-(Hw q d). destruct (decide (q = path)) as [->|Hne].
  - rewrite lookup_insert_eq, Hx. done.
  - by rewrite lookup_insert_ne.
Qed.

Lemma tables_agree_insert w path d fl : watches w !! path = None → paths w !! d = None →
  0 <= d < 2 ^ 31 → tables_agree w →
  tables_agree (mkWatcher (w_fd w) (<[path:=mkWatch (u32 d) fl]> (watches w))
    (<[d:=path]> (paths w)) (isClosed w)).
Proof.
  intros Hp Hd Hr Hw q d'. cbn. rewrite (u32_id d) by width.
  destruct (decide (q = path)) as [->|Hq], (decide (d' = d)) as [->|Hne].
  - by rewrite !lookup_insert_eq.
  - rewrite lookup_insert_eq, lookup_insert_ne by done. cbn. rewrite <-(Hw path d'), Hp. naive_solver.
  - rewrite lookup_insert_ne, lookup_insert_eq, (Hw q d), Hd by done. naive_solver.
  - by rewrite !lookup_insert_ne.
Qed.

Lemma tables_agree_delete w path x : watches w !! path = Some x → tables_agree w →
  tables_agree (mkWatcher (w_fd w) (delete path (watches w)) (delete (wd x) (paths w)) (isClosed w)).
Proof.
  intros Hx Hw q d. cbn.
  assert (paths w !! wd x = Some path) as Hp by (apply Hw; by rewrite Hx).
  destruct (decide (q = path)) as [->|Hq].
  - rewrite lookup_delete_eq. destruct (decide (d = wd x)) as [->|Hne].
    + by rewrite lookup_delete_eq.
    + rewrite lookup_delete_ne, <-(Hw path d), Hx by done. naive_solver.
  - rewrite lookup_delete_ne by done. destruct (decide (d = wd x)) as [->|Hne].
    + rewrite lookup_delete_eq, (Hw q), Hp. naive_solver.
    + rewrite lookup_delete_ne by done. apply Hw.
Qed.

(** What a successful [AddWatch] did: the path is watched for the flags asked for,
    and every other path as before. *)
Definition watched (path : string) (fl : Z) (w w' : Watcher) : Prop :=
  (∃ x, watches w' !! path = Some x ∧ sub fl (flags x)) ∧
  (∀ q, q ≠ path → watches w' !! q = watches w !! q) ∧
  isClosed w' = isClosed w ∧ w_fd w' = w_fd w.

(** The call of [AddWatch]: a path that is known has its flags extended. *)
Definition add_call (w : Watcher) (path : string) (fl : Z) : call :=
  CInotifyAddWatch (w_fd w) path
    (match watches w !! path with Some _ => Z.lor fl IN_MASK_ADD | None => fl end).

Lemma sub_lor a b : sub b (Z.lor a b).
Proof. apply sub_bits. intros i _ H. by rewrite Z.lor_spec, H, orb_true_r. Qed.

Lemma AddWatch_run w path fl :
  holds_if (fresh_wd w) (AddWatch w path fl) (λ tr res,
    (tables_agree w → tables_agree res.2) ∧
    match res.1 with
    | None => ∃ d, tr = [existT (add_call w path fl) (Ok d)] ∧ watched path fl w res.2
    | Some _ => paths res.2 = paths w
    end).
Proof.
  unfold AddWatch, add_call, watched. destruct (isClosed w) eqn:Hc; [done|].
  destruct (watches w !! path) as [x|] eqn:Hx; go_if; destruct r as [d|e]; go_if; cbn.
  - split; [by apply tables_agree_flags|]. eexists. split; [done|].
    split_and!; [|intros; by rewrite lookup_insert_ne|done|done].
    eexists. rewrite lookup_insert_eq. split; [done|]. apply sub_lor.
  - split; [by apply tables_agree_flags|done].
  - destruct H as [Hd Hn]. split; [intros Hw; apply tables_agree_insert; auto|].
    eexists. split; [done|]. split_and!; [|intros; by rewrite lookup_insert_ne|done|done].
    eexists. rewrite lookup_insert_eq. split; [done|]. apply Z.land_diag.
  - done.
Qed.

(** The same without the contract: what the caller of [AddWatch] relies on. *)
Lemma AddWatch_watches w path fl : holds (AddWatch w path fl) (λ tr res,
  match res.1 with
  | None => ∃ d, tr = [existT (add_call w path fl) (Ok d)] ∧ watched path fl w res.2
  | Some _ => (tr = [] ∨ ∃ e, tr = [existT (add_call w path fl) (Err e)]) ∧ w_fd res.2 = w_fd w ∧
      isClosed res.2 = isClosed w ∧
      ∀ q x, watches w !! q = Some x → ∃ x', watches res.2 !! q = Some x' ∧ sub (flags x) (flags x')
  end).
Proof.
  unfold AddWatch, add_call, watched. destruct (isClosed w) eqn:Hc.
  { apply holds_ret. split_and!; [by left|done|done|]. intros q x Hq. exists x.
    split; [done|apply Z.land_diag]. }
  destruct (watches w !! path) as [x|] eqn:Hx; run_prog; cbn.
  - eexists. split; [done|]. split_and!; [|intros; by rewrite lookup_insert_ne|done|done].
    eexists. rewrite lookup_insert_eq. split; [done|]. apply sub_lor.
  - split_and!; [by eauto|done|done|]. intros q y Hq. destruct (decide (q = path)) as [->|Hne].
    + rewrite lookup_insert_eq. eexists. split; [done|]. rewrite Hx in Hq. injection Hq as ->.
      cbn. rewrite Z.lor_comm. apply sub_lor.
    + rewrite lookup_insert_ne by done. exists y. split; [done|apply Z.land_diag].
  - eexists. split; [done|]. split_and!; [|intros; by rewrite lookup_insert_ne|done|done].
    eexists. rewrite lookup_insert_eq. split; [done|]. apply Z.land_diag.
  - split_and!; [by eauto|done|done|]. intros q y Hq. exists y. split; [done|apply Z.land_diag].
Qed.

(** C31. The two tables of a watcher stay inverse to each other: as long as the kernel
    names a new watch by a descriptor that is not in use, [AddWatch] and
    [RemoveWatch] keep them so on every path, errors included; after a successful
    [AddWatch] the path is watched for at least the flags asked for and no other
    path is affected; after a successful [RemoveWatch] it is unknown. *)
Theorem watch_tables_agree w path fl : tables_agree w →
  holds_if (fresh_wd w) (AddWatch w path fl) (λ tr res,
    tables_agree res.2 ∧ (res.1 = None → watched path fl w res.2)) ∧
  holds (RemoveWatch w path) (λ tr res,
    tables_agree res.2 ∧ (res.1 = None → watches res.2 !! path = None)).
Proof.
  intros Hw. split.
  - eapply holds_if_impl; [|apply AddWatch_run]. intros tr [err w'] [H1 H2]. split; [auto|].
    cbn in *. intros ->. by destruct H2 as (d & _ & ?).
  - unfold RemoveWatch. destruct (watches w !! path) as [x|] eqn:Hx; [|done].
    run_prog; (split; [first [by apply tables_agree_delete|done]|]);
      intros; try done; cbn; by rewrite lookup_delete_eq.
Qed.

Lemma watch_tables_agree_witness :
  let w := mkWatcher 3 {["/c" := mkWatch 1 InOpen]} {[1 := "/c"]} false in
  tables_agree w ∧ holds_if (fresh_wd w) (AddWatch w "/c/ac" InOpen) (λ tr res,
    tables_agree res.2 ∧ (res.1 = None → watched "/c/ac" InOpen w res.2)).
Proof.
  assert (tables_agree (mkWatcher 3 {["/c" := mkWatch 1 InOpen]} {[1 := "/c"]} false)) as H.
  { intros q d. cbn. rewrite fmap_Some. setoid_rewrite lookup_singleton_Some. naive_solver. }
  split; [exact H|]. apply (watch_tables_agree _ "/c/ac" InOpen H).
Defined.

(** The contract matters: a known path that answers with another descriptor, as a
    directory that was replaced does, is recorded under the old one, and the events of
    the new one have no path. *)
Example stale_watch :
  let w := mkWatcher 3 {["/c" := mkWatch 1 InOpen]} {[1 := "/c"]} false in
  let '(r, _, _) := interp (λ c s, (match c return answer c with
    | CInotifyAddWatch _ _ _ => Ok 2 | c => unused_answer c end, s)) (AddWatch w "/c" InOpen) tt in
  match r with Some (None, w') => paths w' !! 2 = None | _ => False end.
Proof. vm_compute. reflexivity. Qed.

(** ** The contract of the reader *)

(** The kernel fills the buffer with whole, well-formed events. *)
Definition kernel_ok (e : event) : Prop :=
  match e with
  | existT c r =>
      match c return answer c → Prop with
      | CRead _ => λ r,
          match r with
          | Ok bytes => ∃ rs, bytes = buffer_bytes rs ∧ Forall raw_ok rs ∧
                              (length bytes <= buf_size)%nat
          | Err _ => True
          end
      | _ => λ _, True
      end r
  end.

(** IN_Q_OVERFLOW, bit 14 *)
Definition overflowed (r : raw_event) : bool := Z.testbit (r_mask r) 14.

Lemma overflowed_mask r : (Z.land (r_mask r) InQOverflow =? 0) = negb (overflowed r).
Proof.
  unfold overflowed, InQOverflow. change 16384 with (2 ^ 14).
  destruct (Z.eqb_spec (Z.land (r_mask r) (2 ^ 14)) 0) as [Hz|Hz]; destruct (Z.testbit _ 14) eqn:Hb; try done.
  - apply (f_equal (λ x, Z.testbit x 14)) in Hz. rewrite Z.land_spec, Hb in Hz. discriminate.
  - destruct Hz. apply Z.bits_inj'. intros i Hi. rewrite Z.land_spec, Z.bits_0, Z.pow2_bits_eqb by lia.
    destruct (Z.eqb_spec 14 i) as [<-|]; [by rewrite Hb|apply andb_false_r].
Qed.

(** The events of a batch, in order: an overflow is reported, an event of an unknown
    watch is dropped, any other is sent under the path its watch has when it is
    processed; [false] when [done] was closed instead of the channel receiving. *)
Inductive delivered (f : fd) : list raw_event → trace → bool → Prop :=
| delivered_nil : delivered f [] [] true
| delivered_overflow r rs s tr b : overflowed r = true → delivered f rs tr b →
    delivered f (r :: rs) (ev (CTrySendError f ErrEventOverflow) s :: tr) b
| delivered_unknown r rs tr b : overflowed r = false → delivered f rs tr b →
    delivered f (r :: rs) (ev (CWatchedPath f (r_wd r)) None :: tr) b
| delivered_sent r rs path tr b : overflowed r = false → delivered f rs tr b →
    delivered f (r :: rs)
      (ev (CWatchedPath f (r_wd r)) (Some path) ::
       ev (CSendEvent f (mkEvent (r_mask r) (r_cookie r) (event_name path (r_name r)))) true :: tr) b
| delivered_refused r rs path : overflowed r = false →
    delivered f (r :: rs)
      [ev (CWatchedPath f (r_wd r)) (Some path);
       ev (CSendEvent f (mkEvent (r_mask r) (r_cookie r) (event_name path (r_name r)))) false] false.

Lemma buffer_cons r rs : buffer_bytes (r :: rs) = (raw_bytes r ++ buffer_bytes rs)%list.
Proof. done. Qed.

Lemma buffer_length rs : (16 * length rs <= length (buffer_bytes rs))%nat.
Proof.
  induction rs as [|r rs IH]; [done|]. rewrite buffer_cons, length_app, raw_length. cbn [length]. lia.
Qed.

Lemma events_loop_delivers f fuel pre rs tail : Forall raw_ok rs → (length rs < fuel)%nat →
  (16 <= length (pre ++ buffer_bytes rs) <= buf_size)%nat →
  holds (events_loop fuel f (pre ++ buffer_bytes rs ++ tail)
           (Z.of_nat (length (pre ++ buffer_bytes rs))) (Z.of_nat (length pre)))
    (λ tr go, delivered f rs tr go).
Proof.
  assert (Z.of_nat buf_size = 65536) as Hsize by done.
  intros Hrs. revert fuel pre. induction Hrs as [|r rs Hr Hrs IH]; intros fuel pre Hfuel Hlen.
  all: destruct fuel as [|fuel]; [cbn [length] in Hfuel; lia|].
  - cbn [events_loop]. rewrite (u32_id (_ - _)) by (unfold in_u32, SizeofInotifyEvent; lia).
    destruct (Z.leb_spec (Z.of_nat (length pre))
      (Z.of_nat (length (pre ++ buffer_bytes [])) - Z.of_nat SizeofInotifyEvent)) as [H|_].
    { rewrite app_nil_r in H. unfold SizeofInotifyEvent in H. lia. }
    apply holds_ret. constructor.
  - rewrite buffer_cons in *. cbn [length] in Hfuel.
    assert (length (pre ++ raw_bytes r ++ buffer_bytes rs) =
      length pre + (16 + length (r_name r)) + length (buffer_bytes rs))%nat as Hn.
    { rewrite !length_app, raw_length. lia. }
    destruct (raw_bytes_read pre r (buffer_bytes rs ++ tail) Hr) as [Rwd Rmask Rcookie Rlen Rname].
    rewrite <-app_assoc. cbn [events_loop].
    rewrite (u32_id (_ - _)) by (unfold in_u32, SizeofInotifyEvent; lia).
    destruct (Z.leb_spec (Z.of_nat (length pre))
      (Z.of_nat (length (pre ++ raw_bytes r ++ buffer_bytes rs)) - Z.of_nat SizeofInotifyEvent))
      as [_|H]; [|unfold SizeofInotifyEvent in H; lia]. cbn [negb].
    rewrite Nat2Z.id, Rlen, Rwd, Rmask, Rcookie, Nat2Z.id. unfold SizeofInotifyEvent.
    rewrite Rname, (u32_id (_ + Z.of_nat (length (r_name r)))) by width.
    rewrite (u32_id (Z.of_nat (length pre) + _)) by width.
    assert (holds (events_loop fuel f (pre ++ raw_bytes r ++ buffer_bytes rs ++ tail)
      (Z.of_nat (length (pre ++ raw_bytes r ++ buffer_bytes rs)))
      (Z.of_nat (length pre) + (Z.of_nat 16 + Z.of_nat (length (r_name r)))))
      (λ tr go, delivered f rs tr go)) as Hrest.
    { specialize (IH fuel (pre ++ raw_bytes r)%list). rewrite <-!app_assoc in IH.
      rewrite (length_app pre (raw_bytes r)), raw_length, !Nat2Z.inj_add in IH. apply IH; lia. }
    unfold reportOverflow, reportError, sendEvent. rewrite overflowed_mask.
    destruct (overflowed r) eqn:Hover; cbn [negb].
    { go_prog. eapply holds_impl; [|exact Hrest]. intros tr go. by constructor. }
    go_prog. destruct r0 as [path|].
    2:{ eapply holds_impl; [|exact Hrest]. intros tr go. by constructor. }
    destruct (_ || _) eqn:Hbound.
    { destruct Hr as (_ & _ & _ & Hl). apply orb_true_iff in Hbound as [H%Z.ltb_lt|H%Z.ltb_lt]; lia. }
    go_prog. destruct r0.
    + eapply holds_impl; [|exact Hrest]. intros tr go. by constructor.
    + go_prog. by constructor.
Qed.

(** A step of the reader that does nothing to the events, and goes on. *)
Inductive quiet (f : fd) : trace → Prop :=
| quiet_turns n : quiet f [ev CTurns n]
| quiet_running : quiet f [ev (CDone f) false]
| quiet_poll r : quiet f [ev (CPoll f) r]
| quiet_retry e : quiet f [ev (CRead f) (Err e); ev (CDone f) false]
| quiet_error e s : quiet f [ev (CTrySendError f (ErrRead e)) s].

(** The end of the reader: [done] is closed, polling failed, or end of file. *)
Inductive final (f : fd) : trace → Prop :=
| final_done : final f [ev (CDone f) true]
| final_dropped r : final f [ev (CRead f) r; ev (CDone f) true]
| final_eof : final f [ev (CRead f) (Ok []); ev (CDone f) false]
| final_poll e s : e ≠ EINTR → final f [ev (CPoll f) (Err e); ev (CTrySendError f (ErrPoll e)) s]
| final_revents r : Z.land r POLLIN = 0 →
    Z.land r (Z.lor POLLERR (Z.lor POLLHUP POLLNVAL)) ≠ 0 → final f [ev (CPoll f) (Ok r)].

(** The life of the reader up to its deferred calls; [true] when it has ended. *)
Inductive session (f : fd) : trace → bool → Prop :=
| session_running : session f [] false
| session_final tr : final f tr → session f tr true
| session_quiet tr tr' b : quiet f tr → session f tr' b → session f (tr ++ tr') b
| session_batch rs tr tr' b : rs ≠ [] → delivered f rs tr true → session f tr' b →
    session f (ev (CRead f) (Ok (buffer_bytes rs)) :: ev (CDone f) false :: tr ++ tr') b
| session_refused rs tr : delivered f rs tr false →
    session f (ev (CRead f) (Ok (buffer_bytes rs)) :: ev (CDone f) false :: tr) true.

(** What a part of the reader did, said by how any continuation extends it. *)
Definition goes_on (f : fd) (tr : trace) : Prop := ∀ tr' b, session f tr' b → session f (tr ++ tr') b.

Lemma goes_on_nil f : goes_on f [].
Proof. by intros tr b. Qed.

Lemma goes_on_quiet f tr : quiet f tr → goes_on f tr.
Proof. intros H tr' b. by constructor. Qed.

Lemma goes_on_app f tr1 tr2 : goes_on f tr1 → goes_on f tr2 → goes_on f (tr1 ++ tr2).
Proof. intros H1 H2 tr' b H. rewrite <-app_assoc. auto. Qed.

Lemma goes_on_cons f e tr : quiet f [e] → goes_on f tr → goes_on f (e :: tr).
Proof. intros H. apply (goes_on_app f [e]). by apply goes_on_quiet. Qed.

Lemma session_cons f e tr b : quiet f [e] → session f tr b → session f (e :: tr) b.
Proof. intros H. by apply (session_quiet f [e]). Qed.

Lemma session_goes_on f tr : goes_on f tr → session f tr false.
Proof. intros H. rewrite <-(app_nil_r tr). apply H. constructor. Qed.

Ltac waited := repeat first
  [done|apply session_cons; [constructor|]|apply goes_on_cons; [constructor|]|apply goes_on_nil].

Lemma wait_loop_run turns f : holds (wait_loop turns f) (λ tr res,
  match res with
  | Some true | None => goes_on f tr
  | Some false => session f tr true
  end).
Proof.
  induction turns as [|turns IH]; cbn [wait_loop]; [apply goes_on_nil|]. unfold reportError.
  go_prog. destruct r; go_prog; [by do 2 constructor|].
  destruct r as [revents|e].
  - destruct (Z.eqb_spec (Z.land revents POLLIN) 0) as [Hin|Hin]; cbn [negb]; last first.
    { go_prog. cbn [app]. apply goes_on_cons; [constructor|]. apply goes_on_cons; [constructor|apply goes_on_nil]. }
    destruct (Z.eqb_spec (Z.land revents (Z.lor POLLERR (Z.lor POLLHUP POLLNVAL))) 0); cbn [negb]; last first.
    { go_prog. apply session_cons; [constructor|]. by do 2 constructor. }
    eapply holds_impl; [|exact IH]. intros tr [[]|] H; cbn [app]; waited.
  - destruct (Z.eqb_spec e EINTR) as [->|Hne].
    + eapply holds_impl; [|exact IH]. intros tr [[]|] H; cbn [app]; waited.
    + go_prog. apply session_cons; [constructor|]. by do 2 constructor.
Qed.

Lemma reader_turn_run f buf : holds_if kernel_ok (reader_turn f buf) (λ tr res,
  match res with
  | TurnNext _ | TurnRunning => goes_on f tr
  | TurnReturn => session f tr true
  end).
Proof.
  unfold reader_turn, waitReadable, reportError. go_if.
  eapply holds_if_impl; [|apply holds_if_holds, wait_loop_run].
  intros tr [[]|] Hwait; go_if; cbn [app]; change (tr ++ []) with (tr ++ [])%list; rewrite ?app_nil_r; try waited.
  apply (goes_on_cons f (ev CTurns r)) in Hwait; [|constructor].
  assert (∀ tr' b, session f tr' b → session f (ev CTurns r :: tr ++ tr') b) as Hw by exact Hwait.
  destruct r1; go_if; [apply Hw; by do 2 constructor|].
  destruct r0 as [bytes|e]; last first.
  { destruct (_ || _); go_if; [apply (goes_on_app f (_ :: _)); [done|]|].
    - intros tr' b. apply (session_quiet f [_; _]). constructor.
    - apply (goes_on_app f (_ :: _) [_; _; _]); [done|]. apply (goes_on_app f [_; _] [_]);
      apply goes_on_quiet; constructor. }
  destruct H0 as (rs & -> & Hrs & Hlen). pose proof (buffer_length rs) as H16.
  destruct rs as [|r1 rs]; [apply Hw; by do 2 constructor|].
  set (batch := r1 :: rs) in *. assert (1 <= length batch)%nat as Hone by (cbn; lia).
  assert (buffer_bytes batch ≠ []) as Hne by (intros E; rewrite E in H16; cbn [length] in H16; lia).
  destruct (buffer_bytes batch) as [|c bytes] eqn:Hbytes; [done|]. rewrite <-Hbytes in *.
  destruct (Z.ltb_spec (Z.of_nat (length (buffer_bytes batch))) (Z.of_nat SizeofInotifyEvent)) as [Hs|Hs].
  { unfold SizeofInotifyEvent in Hs. lia. }
  go_if. eapply holds_if_impl; [|apply holds_if_holds,
    (events_loop_delivers f _ [] batch (drop (length (buffer_bytes batch)) buf) Hrs)].
  - intros tr1 go Hd. go_if. rewrite app_nil_r. cbn [app]. destruct (go : bool).
    + intros tr2 b Hs2. pose proof (Hw _ _ (session_batch f batch tr1 tr2 b ltac:(done) Hd Hs2)) as Hb.
      revert Hb. cbn. by rewrite <-app_assoc.
    + apply Hw. by apply session_refused.
  - rewrite Nat2Z.id || idtac. apply Nat.lt_succ_r. rewrite <-(Nat2Z.id (length batch)).
    apply Z2Nat.inj_le; [lia|apply Z.div_pos; lia|]. apply Z.div_le_lower_bound; lia.
  - cbn [app]. unfold SizeofInotifyEvent in Hs. lia.
Qed.

Lemma reader_loop_run turns f buf : holds_if kernel_ok (reader_loop turns f buf) (λ tr res,
  session f tr res).
Proof.
  revert buf. induction turns as [|turns IH]; intros buf; cbn [reader_loop]; [constructor|].
  apply holds_if_bind. eapply holds_if_impl; [|apply reader_turn_run].
  intros tr [buf'| |] Ht; cbn [holds_if]; rewrite ?app_nil_r; [|done|by apply session_goes_on].
  eapply holds_if_impl; [|apply IH]. intros tr' b Hs. by apply Ht.
Qed.

(** C9. The reader delivers what the kernel reports.  As long as the kernel fills the
    buffer with whole events, the goroutine never leaves the buffer nor loops in it;
    every batch it reads is sent in order, each event once, under the path its watch
    has at that moment, an overflow being reported and an event without a watch
    dropped; it stops only when [done] is closed, polling fails or the stream ends;
    and it closes the two channels and then the descriptor exactly when it stops. *)
Theorem reader_delivers f : holds_if kernel_ok (readEvents f) (λ tr returned,
  ∃ turns body closing, session f body returned ∧ tr = ev CTurns turns :: body ++ closing ∧
    if returned then ∃ r, closing = [ev (CCloseErrors f) tt; ev (CCloseEvents f) tt; ev (CClose f) r]
    else closing = []).
Proof.
  unfold readEvents. go_if. eapply holds_if_impl; [|apply reader_loop_run].
  intros tr [] Hs; go_if; exists r, tr; eexists; (split; [exact Hs|]); (split; [done|]); [|done].
  match goal with r1 : answer (CCloseErrors f), r2 : answer (CCloseEvents f) |- _ =>
    destruct r1, r2 end. by eexists.
Qed.

(** A turn on a buffer with an event of an unknown watch, an overflow and a file
    opened in a watched directory. *)
Definition demo_raws : list raw_event :=
  [mkRaw 9 InOpen 0 []; mkRaw (-1) InQOverflow 0 [];
   mkRaw 1 InOpen 0 (String.list_ascii_of_string "ab" ++ replicate 14 zero)].
Definition demo_kernel (c : call) (reads : nat) : answer c * nat :=
  match c return answer c * nat with
  | CTurns => (2%nat, reads)
  | CDone _ => (bool_decide (1 < reads)%nat, reads)
  | CPoll _ => (Ok POLLIN, reads)
  | CRead _ => (if (reads =? 0)%nat then Ok (buffer_bytes demo_raws) else Err EAGAIN, S reads)
  | CWatchedPath _ d => (if d =? 1 then Some "/c"%string else None, reads)
  | CSendEvent _ _ | CTrySendError _ _ => (true, reads)
  | CClose _ => (Ok tt, reads)
  | CCloseErrors _ | CCloseEvents _ => (tt, reads)
  | c => (unused_answer c, reads)
  end.

Definition is_sent (e : event) : option (WatcherError + Event) :=
  match e with
  | existT (CSendEvent _ e) true => Some (inr e)
  | existT (CTrySendError _ e) true => Some (inl e)
  | _ => None
  end.

Example reader_sends : omap is_sent (interp demo_kernel (readEvents 3) 0%nat).1.2 =
  [inl ErrEventOverflow; inr (mkEvent InOpen 0 "/c/ab")].
Proof. vm_compute. reflexivity. Qed.

Definition demo_run : option bool * trace * nat := interp demo_kernel (readEvents 3) 0%nat.

Lemma demo_run_ok : Forall kernel_ok demo_run.1.2.
Proof.
  assert (demo_run.1.2 =
    [ev CTurns 2%nat; ev CTurns 2%nat; ev (CDone 3) false; ev (CPoll 3) (Ok POLLIN);
     ev (CRead 3) (Ok (buffer_bytes demo_raws)); ev (CDone 3) false;
     ev (CWatchedPath 3 9) None; ev (CTrySendError 3 ErrEventOverflow) true;
     ev (CWatchedPath 3 1) (Some "/c"%string); ev (CSendEvent 3 (mkEvent InOpen 0 "/c/ab")) true;
     ev CTurns 2%nat; ev (CDone 3) false; ev (CPoll 3) (Ok POLLIN);
     ev (CRead 3) (Err EAGAIN); ev (CDone 3) true;
     ev (CCloseErrors 3) tt; ev (CCloseEvents 3) tt; ev (CClose 3) (Ok tt)]) as -> by
    (vm_compute; reflexivity).
  repeat (apply Forall_cons; split); try exact I; [|constructor].
  exists demo_raws. split; [done|]. split; [|apply Nat.leb_le; vm_compute; reflexivity].
  repeat (apply Forall_cons; split); [| | |constructor].
  all: repeat split; vm_compute; first [done|discriminate].
Qed.

Lemma reader_delivers_witness : Forall kernel_ok demo_run.1.2 ∧ demo_run.1.1 = Some true ∧
  ∃ turns body closing, session 3 body true ∧ demo_run.1.2 = ev CTurns turns :: body ++ closing ∧
    ∃ r, closing = [ev (CCloseErrors 3) tt; ev (CCloseEvents 3) tt; ev (CClose 3) r].
Proof.
  split; [exact demo_run_ok|]. split; [vm_compute; reflexivity|].
  apply (holds_if_exec kernel_ok _ _ (reader_delivers 3) demo_run.1.2 true); [|exact demo_run_ok].
  apply (interp_exec demo_kernel _ 0%nat _ _ 2%nat). vm_compute. reflexivity.
Defined.
