(* ===== verification/Cache.v ===== *)
(** * Package [diskutil]: the disk cache (cache.go, delete_linux.go, diskutil.go)

    A cache is a root directory pinned by its device and inode.  [Snapshot] and
    [GetEntries] record what is there; [Delete] removes an entry only if, on
    directories reached without following a symbolic link, it still is the file
    that was recorded; [GetDiskUsage] reads the file system's block counts. *)

From S2P Require Import Prelude Float64 Paths CacheKey System.
Local Open Scope Z_scope.

(** ** Data *)

Record EntryInfo := mkEntry {
  Key : string; Path : string; Kind : EntryKind; Size : Z; ModTime : Z;
  Device : Z; Inode : Z
}.

Record Cache := mkCache { diskRoot : string; rootDevice : Z; rootInode : Z }.

(** identity_unix.go: [info.Sys()] of a file of the operating system always is the
    [Stat_t] it was made from. *)
Definition fileIdentity (info : Stat) : option (Z * Z) :=
  Some (u64 (st_dev info), u64 (st_ino info)).

Inductive NewCacheError :=
| ErrResolveRoot (e : CacheError)
| ErrResolveSymlinks (e : errno)
| ErrInspectRoot (e : errno)
| ErrRootNotDirectory (root : string)
| ErrRootIdentity (root : string).

Inductive DiskUsageError := ErrStatfs (e : errno) | ErrZeroBlocks (path : string).

(** ** filepath.WalkDir *)

(** What the callback returns: nil, [filepath.SkipDir] or another error. *)
Inductive walk_status (E : Type) := WNil | WSkipDir | WErr (e : E).
Arguments WNil {E}. Arguments WSkipDir {E}. Arguments WErr {E}.

Definition skip_in_dir {E} (d : dirent) (st : walk_status E) : walk_status E :=
  match st with WSkipDir => if d_isdir d then WNil else st | _ => st end.

Section walk.
Context {S E : Type}.
(** the callback: path, entry, error, on the state [S] it captures *)
Context (fn : string → option dirent → option errno → S → prog (S * walk_status E)).

(** The tree [t] is what the walk will meet; each directory is listed when the call
    [CReadDir] says so. *)
Fixpoint walk_dir (path : string) (t : tree) (s : S) : prog (S * walk_status E) :=
  match t with
  | Tree d children err =>
      '(s, st) ← fn path (Some d) None s;
      match st with
      | WNil =>
          if d_isdir d then
            _ ← do_call (CReadDir path);
            '(s, st) ← match err with
                       | Some e => fn path (Some d) (Some e) s
                       | None => Ret (s, WNil)
                       end;
            match st with
            | WNil =>
                (fix walk_children cs s :=
                   match cs with
                   | [] => Ret (s, WNil)
                   | (name, t1) :: cs =>
                       '(s, st) ← walk_dir (Join [path; name]) t1 s;
                       match st with
                       | WNil => walk_children cs s
                       | WSkipDir => Ret (s, WNil)
                       | WErr e => Ret (s, WErr e)
                       end
                   end) children s
            | st => Ret (s, skip_in_dir d st)
            end
          else Ret (s, WNil)
      | st => Ret (s, skip_in_dir d st)
      end
  end.

(** [WalkDir(root, fn)]; [None] is the nil error. *)
Definition WalkDir (root : string) (s : S) : prog (S * option E) :=
  r ← do_call (CWalk root);
  '(s, st) ← match r with
             | Err e => fn root None (Some e) s
             | Ok t => walk_dir root t s
             end;
  Ret (s, match st with WErr e => Some e | _ => None end).
End walk.

(** ** Operations *)

Section ops.
Context (getwd : result CacheError string).

Definition NewCache (root : string) : prog (result NewCacheError Cache) :=
  match Abs getwd (Clean root) with
  | Err e => Ret (Err (ErrResolveRoot e))
  | Ok root =>
      r ← do_call (CEvalSymlinks root);
      match r with
      | Err e => Ret (Err (ErrResolveSymlinks e))
      | Ok root =>
          info ← do_call (CLstat root);
          match info with
          | Err e => Ret (Err (ErrInspectRoot e))
          | Ok info =>
              if negb (mode_is S_IFDIR info) || mode_is S_IFLNK info
              then Ret (Err (ErrRootNotDirectory root)) else
              match fileIdentity info with
              | None => Ret (Err (ErrRootIdentity root))
              | Some (device, inode) => Ret (Ok (mkCache root device inode))
              end
          end
      end
  end.

Definition Snapshot (c : Cache) (key : string) : prog (result CacheError EntryInfo) :=
  match ParseKey key with
  | Err e => Ret (Err e)
  | Ok kind =>
      let path := Join [diskRoot c; key] in
      info ← do_call (CLstat path);
      match info with
      | Err e => Ret (Err (ErrErrno e))
      | Ok info =>
          if negb (mode_is S_IFREG info) || mode_is S_IFLNK info
          then Ret (Err (ErrInvalidCacheEntry NotRegular)) else
          match fileIdentity info with
          | None => Ret (Err (ErrInvalidCacheEntry NoIdentity))
          | Some (device, inode) =>
              Ret (Ok (mkEntry key path kind (st_size info) (st_mtim info) device inode))
          end
      end
  end.

(** The callback of [GetEntries]; the state is the slice being built. *)
Definition entries_fn (c : Cache) (path : string) (entry : option dirent) (walkErr : option errno)
    (entries : list EntryInfo) : prog (list EntryInfo * walk_status CacheError) :=
  match walkErr, entry with
  | Some e, _ => if e =? ENOENT then Ret (entries, WNil) else Ret (entries, WErr (ErrErrno e))
  | None, None => Panic
  | None, Some entry =>
      if d_symlink entry then Ret (entries, if d_isdir entry then WSkipDir else WNil)
      else if d_isdir entry then Ret (entries, WNil)
      else match KeyForPath getwd (diskRoot c) path with
           | Err _ => Ret (entries, WNil)
           | Ok (key, _) =>
               snapshot ← Snapshot c key;
               match snapshot with
               | Err e =>
                   if is_not_exist e || is_invalid e then Ret (entries, WNil)
                   else Ret (entries, WErr e)
               | Ok snapshot => Ret ((entries ++ [snapshot])%list, WNil)
               end
           end
  end.

Fixpoint entries_loop (c : Cache) (kinds : list EntryKind) (entries : list EntryInfo) :
    prog (result CacheError (list EntryInfo)) :=
  match kinds with
  | [] => Ret (Ok entries)
  | kind :: kinds =>
      '(entries, err) ←
        WalkDir (entries_fn c) (Join [diskRoot c; kind_string kind]) entries;
      match err with
      | Some e => if is_not_exist e then entries_loop c kinds entries else Ret (Err e)
      | None => entries_loop c kinds entries
      end
  end.
Definition GetEntries (c : Cache) : prog (result CacheError (list EntryInfo)) :=
  entries_loop c [ActionCache; ContentCAS] [].

(** The file at [stat] is the one the snapshot was taken of. *)
Definition same_file (stat : Stat) (snapshot : EntryInfo) : bool :=
  mode_is S_IFREG stat && (u64 (st_dev stat) =? Device snapshot) &&
  (st_ino stat =? Inode snapshot) && (st_size stat =? Size snapshot) &&
  (i64 (st_mtim stat) =? i64 (ModTime snapshot)).

(** Each nested block ends with the deferred [Close] of the directory it opened. *)
Definition delete_in_shard (snapshot : EntryInfo) (shardFD : fd) (file : string) :
    prog (option CacheError) :=
  stat ← do_call (CFstatat shardFD file);
  match stat with
  | Err e => Ret (Some (ErrErrno e))
  | Ok stat =>
      if negb (same_file stat snapshot) then Ret (Some ErrEntryChanged) else
      r ← do_call (CUnlinkat shardFD file);
      match r with Err e => Ret (Some (ErrErrno e)) | Ok _ => Ret None end
  end.

(** Open a directory, run the block on it, close it. *)
Definition with_dir (opened : prog (result errno fd)) (body : fd → prog (option CacheError)) :
    prog (option CacheError) :=
  r ← opened;
  match r with
  | Err e => Ret (Some (ErrErrno e))
  | Ok f => res ← body f; _ ← do_call (CClose f); Ret res
  end.

Definition deleteSnapshot (c : Cache) (snapshot : EntryInfo) : prog (option CacheError) :=
  match ParseKey (Key snapshot) with
  | Err _ => Ret (Some (ErrInvalidCacheEntry SnapshotKeyChanged))
  | Ok kind =>
      if negb (bool_decide (kind = Kind snapshot))
      then Ret (Some (ErrInvalidCacheEntry SnapshotKeyChanged)) else
      match split (Key snapshot) with
      | p0 :: p1 :: p2 :: _ =>
          with_dir (do_call (COpenDir (diskRoot c))) (λ rootFD,
            rootStat ← do_call (CFstat rootFD);
            match rootStat with
            | Err e => Ret (Some (ErrErrno e))
            | Ok rootStat =>
                if negb (u64 (st_dev rootStat) =? rootDevice c) ||
                   negb (st_ino rootStat =? rootInode c)
                then Ret (Some ErrEntryChanged) else
                with_dir (do_call (COpenDirAt rootFD p0)) (λ storeFD,
                  with_dir (do_call (COpenDirAt storeFD p1)) (λ shardFD,
                    delete_in_shard snapshot shardFD p2))
            end)
      | _ => Panic
      end
  end.

Definition Delete (c : Cache) (snapshot : EntryInfo) : prog (option CacheError) :=
  if String.eqb (Key snapshot) EmptyString then Ret (Some (ErrInvalidCacheEntry EmptyKey))
  else deleteSnapshot c snapshot.
End ops.

(** [GetDiskUsage]: the percentage of blocks free, the bytes free and used. *)
Definition disk_percent (stat : Statfs) : float64 :=
  f_mul (f_div (f_of_Z (f_bavail stat)) (f_of_Z (f_blocks stat))) (f_of_Z 100).
Definition disk_free (stat : Statfs) : Z := u64 (f_bavail stat * u64 (f_bsize stat)).
Definition disk_used (stat : Statfs) : Z :=
  u64 (u64 (f_blocks stat - f_bavail stat) * u64 (f_bsize stat)).

Definition GetDiskUsage (path : string) : prog (result DiskUsageError (float64 * Z * Z)) :=
  stat ← do_call (CStatfs path);
  match stat with
  | Err e => Ret (Err (ErrStatfs e))
  | Ok stat =>
      if f_blocks stat =? 0 then Ret (Err (ErrZeroBlocks path))
      else Ret (Ok (disk_percent stat, disk_free stat, disk_used stat))
  end.

(** [pct] is the free percentage of some answer of the trace. *)
Definition measured (c : Cache) (tr : trace) (pct : float64) : Prop :=
  ∃ stat, ev (CStatfs (diskRoot c)) (Ok stat) ∈ tr ∧ pct = disk_percent stat.

(** ** Specification of a deletion *)

(** The file the snapshot recorded: a regular file on the same device, with the same
    inode, size and modification time ([UnixNano] wraps at 64 bits). *)
Record recorded_file (snapshot : EntryInfo) (stat : Stat) : Prop := {
  recorded_regular : mode_is S_IFREG stat = true;
  recorded_device : u64 (st_dev stat) = Device snapshot;
  recorded_inode : st_ino stat = Inode snapshot;
  recorded_size : st_size stat = Size snapshot;
  recorded_mtime : i64 (st_mtim stat) = i64 (ModTime snapshot)
}.

Lemma same_file_recorded stat snapshot : same_file stat snapshot = true ↔ recorded_file snapshot stat.
Proof.
  unfold same_file. rewrite !andb_true_iff, !Z.eqb_eq. split; [|by intros []].
  intros [[[[] ?] ?] ?]. by split.
Qed.

(** The calls of a successful [Delete]: the root is opened and is the directory the
    cache was made on, the store and the shard are opened below it one name at a
    time, the entry still is the recorded regular file, it is unlinked from that
    very shard, and the three directories are closed. *)
Inductive checked_deletion (c : Cache) (snapshot : EntryInfo) : trace → Prop :=
| checked_deletion_intro store shard file rootFD rootStat storeFD shardFD stat r1 r2 r3 :
    split (Key snapshot) = [store; shard; file] →
    ParseKey (Key snapshot) = Ok (Kind snapshot) →
    u64 (st_dev rootStat) = rootDevice c → st_ino rootStat = rootInode c →
    recorded_file snapshot stat →
    checked_deletion c snapshot
      [ev (COpenDir (diskRoot c)) (Ok rootFD); ev (CFstat rootFD) (Ok rootStat);
       ev (COpenDirAt rootFD store) (Ok storeFD); ev (COpenDirAt storeFD shard) (Ok shardFD);
       ev (CFstatat shardFD file) (Ok stat); ev (CUnlinkat shardFD file) (Ok tt);
       ev (CClose shardFD) r1; ev (CClose storeFD) r2; ev (CClose rootFD) r3].

Lemma ParseKey_split key kind : ParseKey key = Ok kind →
  ∃ p0 p1 p2, split key = [p0; p1; p2].
Proof.
  intros (d & Hd & ->)%ParseKey_Ok. eexists _, _, _.
  apply split_join; [done|]. by apply names_no_sep, entry_key_names.
Qed.

Lemma ParseKey_nonempty kind : ParseKey EmptyString ≠ Ok kind.
Proof. by vm_compute. Qed.

Lemma Delete_run c snapshot :
  holds (Delete c snapshot) (λ tr res,
    match res with
    | None => checked_deletion c snapshot tr
    | Some _ => unlinks tr = []
    end ∧ closes tr = reverse (opens tr)).
Proof.
  unfold Delete, deleteSnapshot.
  destruct (String.eqb (Key snapshot) EmptyString); [done|].
  destruct (ParseKey (Key snapshot)) as [kind|] eqn:Hk; [|done].
  destruct (ParseKey_split _ _ Hk) as (p0 & p1 & p2 & Hs). rewrite Hs.
  case_bool_decide as Hkind; cbn [negb]; [|done]. subst kind.
  unfold with_dir, delete_in_shard. run_prog; try done.
  split; [|done].
  match goal with H : negb _ || negb _ = false |- _ =>
    apply orb_false_iff in H as [?%negb_false_iff%Z.eqb_eq ?%negb_false_iff%Z.eqb_eq] end.
  match goal with H : negb _ = false |- _ => apply negb_false_iff, same_file_recorded in H end.
  match goal with |- context [ev (CUnlinkat _ _) (Ok ?u)] => destruct u end.
  by econstructor.
Qed.

(** C4. [Delete] unlinks nothing but the file that was recorded.  If it succeeds it
    made exactly the calls of a checked deletion; if it returns an error, whatever
    the kernel answered and whatever other processes did in between, it unlinked
    nothing at all.  Either way it closed every directory it opened, in reverse
    order. *)
Theorem Delete_checked c snapshot :
  holds (Delete c snapshot) (λ tr res,
    match res with
    | None => checked_deletion c snapshot tr
    | Some _ => unlinks tr = []
    end ∧ closes tr = reverse (opens tr)).
Proof. apply Delete_run. Qed.

Lemma Snapshot_run c key :
  holds (Snapshot c key) (λ tr res,
    ∀ e, res = Ok e → ∃ st,
      tr = [ev (CLstat (Path e)) (Ok st)] ∧ mode_is S_IFREG st = true ∧
      ParseKey key = Ok (Kind e) ∧
      e = mkEntry key (Join [diskRoot c; key]) (Kind e) (st_size st) (st_mtim st)
            (u64 (st_dev st)) (u64 (st_ino st))).
Proof.
  unfold Snapshot, fileIdentity. destruct (ParseKey key) as [kind|]; run_prog; try done.
  intros e [= <-].
  match goal with H : negb _ || _ = false |- _ =>
    apply orb_false_iff in H as [?%negb_false_iff _] end.
  by eexists.
Qed.

(** [Snapshot] records a file faithfully: it succeeds only on a valid key whose
    path below the root was found, by a single [lstat], to be a regular file, and
    then every field is what that call answered. *)
Theorem Snapshot_faithful c key :
  holds (Snapshot c key) (λ tr res,
    ∀ e, res = Ok e → ∃ st,
      tr = [ev (CLstat (Path e)) (Ok st)] ∧ mode_is S_IFREG st = true ∧
      ParseKey key = Ok (Kind e) ∧
      e = mkEntry key (Join [diskRoot c; key]) (Kind e) (st_size st) (st_mtim st)
            (u64 (st_dev st)) (u64 (st_ino st))).
Proof. apply Snapshot_run. Qed.


(** ** Walks *)

Fixpoint tree_rect_nested (P : tree → Prop)
    (H : ∀ d children err, Forall (λ nt : string * tree, P nt.2) children → P (Tree d children err))
    (t : tree) : P t :=
  match t with
  | Tree d children err =>
      H d children err
        ((fix all (cs : list (string * tree)) : Forall (λ nt : string * tree, P nt.2) cs :=
            match cs with
            | [] => Forall_nil_2 _
            | nt :: cs => Forall_cons_2 _ nt cs (tree_rect_nested P H nt.2) (all cs)
            end) children)
  end.

Section walk_invariant.
Context {S E : Type} (fn : string → option dirent → option errno → S → prog (S * walk_status E)).
Context (I : trace → S → Prop).
Hypothesis listed_ok : ∀ path tr s, I tr s → I (tr ++ [ev (CReadDir path) tt]) s.
Hypothesis fn_ok : ∀ path entry err tr s, (entry = None → err ≠ None) → I tr s →
  holds (fn path entry err s) (λ tr' r, I (tr ++ tr') r.1).

Lemma walk_dir_ok t : ∀ path tr s, I tr s →
  holds (walk_dir fn path t s) (λ tr' r, I (tr ++ tr') r.1).
Proof.
  induction t as [d children err IH] using tree_rect_nested. intros path tr s HI.
  cbn [walk_dir]. apply holds_bind. eapply holds_impl; [|by apply (fn_ok path (Some d) None tr)].
  intros tr1 [s1 st1] H1. cbn [fst] in H1.
  destruct st1; try (apply holds_ret; by rewrite app_nil_r).
  destruct (d_isdir d); [|apply holds_ret; by rewrite app_nil_r].
  apply holds_bind, holds_call. intros []. apply holds_ret. cbn [app].
  apply (listed_ok path) in H1. rewrite <-app_assoc in H1.
  apply (holds_impl _ (λ tr' r, I ((tr ++ (tr1 ++ [ev (CReadDir path) tt])) ++ tr') r.1)).
  { intros tr' r. by rewrite <-!app_assoc. }
  revert H1. generalize (tr1 ++ [ev (CReadDir path) tt]). clear tr1. intros tr1 H1.
  apply holds_bind.
  assert (holds (match err with Some e => fn path (Some d) (Some e) s1 | None => Ret (s1, WNil) end)
    (λ tr' r, I ((tr ++ tr1) ++ tr') r.1)) as H2.
  { destruct err as [e|]; [by apply fn_ok|]. apply holds_ret. by rewrite app_nil_r. }
  eapply holds_impl; [|exact H2]. intros tr2 [s2 st2]. cbn [fst].
  intros H12. apply (holds_impl _ (λ tr' r, I (((tr ++ tr1) ++ tr2) ++ tr') r.1)).
  { intros tr' r. by rewrite <-!app_assoc. }
  revert H12. generalize ((tr ++ tr1) ++ tr2). clear H1 H2 HI tr tr1 tr2. intros tr HI.
  destruct st2; try (apply holds_ret; by rewrite app_nil_r).
  revert tr s2 HI. induction IH as [|[nm t1] cs Ht1 _ IHcs]; intros tr s2 HI.
  { apply holds_ret. by rewrite app_nil_r. }
  apply holds_bind. eapply holds_impl; [|by apply (Ht1 _ tr)].
  intros tr3 [s3 st3]. cbn [fst]. intros H3.
  destruct st3; try (apply holds_ret; by rewrite app_nil_r).
  eapply holds_impl; [|by apply (IHcs (tr ++ tr3))].
  intros tr4 a. cbn. by rewrite <-!app_assoc.
Qed.

Lemma WalkDir_ok root tr s : (∀ r, I (tr ++ [ev (CWalk root) r]) s) →
  holds (WalkDir fn root s) (λ tr' r, I (tr ++ tr') r.1).
Proof.
  intros HI. unfold WalkDir. go_prog. specialize (HI r).
  assert (holds (match r with Ok t => walk_dir fn root t s | Err e => fn root None (Some e) s end)
    (λ tr' x, I ((tr ++ [ev (CWalk root) r]) ++ tr') x.1)) as H1.
  { destruct r; [by apply walk_dir_ok|by apply fn_ok]. }
  eapply holds_impl; [|exact H1]. intros tr1 [s1 st1]. cbn [fst]. intros H.
  apply holds_ret. cbn [fst]. by rewrite app_nil_r, <-app_assoc in *.
Qed.
End walk_invariant.

(** ** The claim about scans *)

(** The entry is what an [lstat] of the trace answered about the path of its key. *)
Definition snapshotted (c : Cache) (tr : trace) (e : EntryInfo) : Prop :=
  ParseKey (Key e) = Ok (Kind e) ∧ Path e = Join [diskRoot c; Key e] ∧
  ∃ st, ev (CLstat (Path e)) (Ok st) ∈ tr ∧ mode_is S_IFREG st = true ∧
    Size e = st_size st ∧ ModTime e = st_mtim st ∧
    Device e = u64 (st_dev st) ∧ Inode e = u64 (st_ino st).

Definition reads_only (e : event) : Prop :=
  match projT1 e with CWalk _ | CReadDir _ | CLstat _ => True | _ => False end.

Definition scanned (c : Cache) (tr : trace) (entries : list EntryInfo) : Prop :=
  Forall (snapshotted c tr) entries ∧ Forall reads_only tr.

Lemma snapshotted_app c tr1 tr2 e : snapshotted c tr1 e → snapshotted c (tr1 ++ tr2) e.
Proof.
  intros (Hk & Hp & st & Hin & Hrest). split_and!; [done|done|]. exists st.
  split; [|done]. apply elem_of_app. by left.
Qed.

Lemma scanned_app c tr1 tr2 es : scanned c tr1 es → Forall reads_only tr2 →
  scanned c (tr1 ++ tr2) es.
Proof.
  intros [H1 H2] H3. split; [|by apply Forall_app].
  eapply Forall_impl; [exact H1|]. intros e. apply snapshotted_app.
Qed.

Lemma Snapshot_reads c key : holds (Snapshot c key) (λ tr _, Forall reads_only tr).
Proof.
  unfold Snapshot, fileIdentity. destruct (ParseKey key) as [kind|]; run_prog; by repeat constructor.
Qed.

Lemma entries_fn_ok getwd c path entry err tr es : (entry = None → err ≠ None) → scanned c tr es →
  holds (entries_fn getwd c path entry err es) (λ tr' r, scanned c (tr ++ tr') r.1).
Proof.
  intros Hne Hs. unfold entries_fn. destruct err as [e|].
  { destruct (e =? ENOENT); apply holds_ret; by rewrite app_nil_r. }
  destruct entry as [d|]; [|by destruct Hne].
  destruct (d_symlink d); [apply holds_ret; by rewrite app_nil_r|].
  destruct (d_isdir d); [apply holds_ret; by rewrite app_nil_r|].
  destruct (KeyForPath _ _ _) as [[key kind]|]; [|apply holds_ret; by rewrite app_nil_r].
  apply holds_bind. eapply holds_impl; [|apply holds_and; [apply Snapshot_run|apply Snapshot_reads]].
  intros tr1 res [H1 Hr]. pose proof (scanned_app c tr tr1 es Hs Hr) as Hs1.
  destruct res as [e|e].
  - apply holds_ret. rewrite app_nil_r. cbn [fst]. split; [|apply Hs1].
    apply Forall_app. split; [apply Hs1|]. constructor; [|done].
    destruct (H1 e eq_refl) as (st & -> & Hreg & Hk & He). rewrite He in *. cbn in *.
    split_and!; [done|done|]. exists st. split_and!; try done.
    apply elem_of_app. right. by left.
  - case_match; apply holds_ret; by rewrite app_nil_r.
Qed.

Lemma entries_loop_ok getwd c kinds tr es : scanned c tr es →
  holds (entries_loop getwd c kinds es) (λ tr' res,
    ∃ es', scanned c (tr ++ tr') es' ∧ match res with Ok es'' => es'' = es' | Err _ => True end).
Proof.
  revert tr es. induction kinds as [|kind kinds IH]; intros tr es Hs; cbn [entries_loop].
  { apply holds_ret. exists es. by rewrite app_nil_r. }
  apply holds_bind. eapply holds_impl; [|apply (WalkDir_ok _ (scanned c))].
  - intros tr1 [es1 err] H1. cbn [fst] in H1.
    assert (holds (entries_loop getwd c kinds es1) (λ tr' res, ∃ es',
      scanned c (tr ++ tr1 ++ tr') es' ∧ match res with Ok es'' => es'' = es' | Err _ => True end))
      as Hrest.
    { eapply holds_impl; [|by apply (IH (tr ++ tr1))]. intros tr' a (es' & ? & ?).
      exists es'. by rewrite app_assoc. }
    destruct err as [e|]; [|done]. destruct (is_not_exist e); [done|].
    apply holds_ret. exists es1. by rewrite app_nil_r.
  - intros path tr0 s H. apply scanned_app; [done|]. by repeat constructor.
  - intros. by apply entries_fn_ok.
  - intros r. apply scanned_app; [done|]. by repeat constructor.
Qed.

Lemma GetEntries_run getwd c :
  holds (GetEntries getwd c) (λ tr res,
    Forall reads_only tr ∧ ∀ entries, res = Ok entries → Forall (snapshotted c tr) entries).
Proof.
  unfold GetEntries. eapply holds_impl; [|apply (entries_loop_ok getwd c _ [] [])].
  - intros tr res (es' & [H1 H2] & Hres). split; [done|]. intros es ->. by subst.
  - by split.
Qed.

(** A scan neither panics nor changes anything (it only lists directories and
    calls [lstat]), and each entry it returns is a valid key of the store its kind
    names, with the size, time and identity that an [lstat] of the scan answered
    for the regular file at that key's path. *)
Theorem GetEntries_sound getwd c :
  holds (GetEntries getwd c) (λ tr res,
    Forall reads_only tr ∧ ∀ entries, res = Ok entries → Forall (snapshotted c tr) entries).
Proof. apply GetEntries_run. Qed.

(** [GetDiskUsage] reports free and used bytes that add up to the size of the
    file system, without wrapping at 64 bits, whenever that size is representable
    and the kernel's counts are consistent. *)
Theorem GetDiskUsage_adds_up path :
  holds (GetDiskUsage path) (λ tr res, ∀ pct free used st,
    res = Ok (pct, free, used) → omap statfs_answer tr = [st] →
    0 <= f_bavail st <= f_blocks st → 0 < f_bsize st → f_blocks st * f_bsize st < 2 ^ 64 →
    free + used = f_blocks st * f_bsize st ∧ in_u64 free ∧ in_u64 used).
Proof.
  unfold GetDiskUsage, disk_free, disk_used. run_prog; try done.
  intros pct free used st [= <- <- <-] [= ->] Hb Hs Ht.
  assert (f_blocks st < 2 ^ 64) by nia. assert (f_bsize st < 2 ^ 64) by nia.
  rewrite (u64_id (f_bsize st)), (u64_id (f_blocks st - f_bavail st)) by width.
  rewrite !u64_id by (unfold in_u64; nia). unfold in_u64. nia.
Qed.

(** A deletion keeps the locks that are held. *)
Lemma with_dir_tidy (p : prog (result errno fd)) (body : fd → prog (option CacheError)) : (∀ f, holds (body f) (λ tr _, tidy tr)) →
  (∃ path, p = do_call (COpenDir path)) ∨ (∃ d name, p = do_call (COpenDirAt d name)) →
  holds (with_dir p body) (λ tr _, tidy tr).
Proof.
  intros Hbody Hp. unfold with_dir.
  destruct Hp as [[path ->]|(d & name & ->)]; go_prog.
  all: destruct r as [f|e]; [|by apply holds_ret, tidy_neutral; repeat constructor].
  all: apply holds_bind; eapply holds_impl; [|apply Hbody]; intros tr res Htr; go_prog.
  all: by apply tidy_bracket.
Qed.

Lemma Delete_tidy c snapshot : holds (Delete c snapshot) (λ tr _, tidy tr).
Proof.
  unfold Delete, deleteSnapshot.
  destruct (String.eqb (Key snapshot) EmptyString); [apply tidy_nil|].
  destruct (ParseKey (Key snapshot)) as [kind|] eqn:Hk; [|apply tidy_nil].
  destruct (ParseKey_split _ _ Hk) as (p0 & p1 & p2 & Hs). rewrite Hs.
  destruct (negb _); [apply tidy_nil|].
  apply with_dir_tidy; [intros root|by eauto]. go_prog.
  destruct r as [rootStat|e]; [|by apply holds_ret, tidy_neutral; repeat constructor].
  destruct (_ || _); [by apply holds_ret, tidy_neutral; repeat constructor|].
  eapply holds_impl; [|apply with_dir_tidy; [intros store|by eauto]].
  { intros tr res Htr. apply (tidy_app [_]); [|exact Htr]. apply tidy_neutral. by repeat constructor. }
  apply with_dir_tidy; [intros shard|by eauto]. unfold delete_in_shard. run_prog.
  all: intros open f Hf _; by split_and!.
Qed.

Lemma Delete_unobserved c snapshot : holds (Delete c snapshot) (λ tr _, observations tr = []).
Proof.
  unfold Delete, deleteSnapshot.
  destruct (String.eqb (Key snapshot) EmptyString); [done|].
  destruct (ParseKey (Key snapshot)) as [kind|] eqn:Hk; [|done].
  destruct (ParseKey_split _ _ Hk) as (p0 & p1 & p2 & Hs). rewrite Hs.
  destruct (negb _); [done|]. unfold with_dir, delete_in_shard. run_prog; done.
Qed.

Lemma GetDiskUsage_measures c : holds (GetDiskUsage (diskRoot c)) (λ tr res,
  Forall silent tr ∧ ∀ pct free used, res = Ok (pct, free, used) → measured c tr pct).
Proof.
  unfold GetDiskUsage. run_prog; (split; [by repeat constructor|]); try done.
  intros pct free used [= <- _ _]. eexists. split; [by left|done].
Qed.

Lemma measured_app_l c tr1 tr2 pct : measured c tr1 pct → measured c (tr1 ++ tr2) pct.
Proof. intros (st & Hin & ?). exists st. split; [|done]. apply elem_of_app. by left. Qed.

Lemma measured_app_r c tr1 tr2 pct : measured c tr2 pct → measured c (tr1 ++ tr2) pct.
Proof. intros (st & Hin & ?). exists st. split; [|done]. apply elem_of_app. by right. Qed.
