(* ===== verification/Scan.v ===== *)
(** * What a scan finds (cache.go: GetEntries)

    A scan that succeeds is a function of what the system answered: the two trees it
    walked determine which keys it looks up and in which order, and the answers
    determine the entries.  So it misses nothing that the walks met. *)

From S2P Require Import Prelude Float64 Paths CacheKey System Cache.
Local Open Scope Z_scope.

Section scan.
Context (getwd : result CacheError string) (c : Cache).

(** ** Reading a trace *)

(** What [lstat] was asked, and answered *)
Definition looked_up (e : event) : option (string * result errno Stat) :=
  match e with
  | existT c r =>
      match c return answer c → option (string * result errno Stat) with
      | CLstat path => λ r, Some (path, r)
      | _ => λ _, None
      end r
  end.

(** The trees that were walked *)
Definition walked (e : event) : option (string * result errno tree) :=
  match e with
  | existT c r =>
      match c return answer c → option (string * result errno tree) with
      | CWalk root => λ r, Some (root, r)
      | _ => λ _, None
      end r
  end.

(** ** The reference *)

(** The keys of the files of a tree, in the order of the walk: links are not followed,
    and a file that is not at the path of a key is ignored. *)
Fixpoint tree_keys (path : string) (t : tree) : list string :=
  match t with
  | Tree d children _ =>
      if d_symlink d then [] else
      if d_isdir d then
        (fix go cs := match cs with
                      | [] => []
                      | (n, t1) :: cs => tree_keys (Join [path; n]) t1 ++ go cs
                      end) children
      else match KeyForPath getwd (diskRoot c) path with Ok (key, _) => [key] | Err _ => [] end
  end.

Definition children_keys (path : string) (cs : list (string * tree)) : list string :=
  concat ((λ nt, tree_keys (Join [path; nt.1]) nt.2) <$> cs).

(** What a walk met: nothing when the directory does not exist *)
Definition walk_keys (path : string) (r : result errno tree) : list string :=
  match r with Ok t => tree_keys path t | Err _ => [] end.

(** The entry that an answer of [lstat] makes of a key *)
Definition entry_of (key : string) (r : result errno Stat) : option EntryInfo :=
  match ParseKey key, r with
  | Ok kind, Ok st =>
      if mode_is S_IFREG st
      then Some (mkEntry key (Join [diskRoot c; key]) kind (st_size st) (st_mtim st)
                   (u64 (st_dev st)) (u64 (st_ino st)))
      else None
  | _, _ => None
  end.

Definition key_path (key : string) : string := Join [diskRoot c; key].

(** From [es] to [es'], the part of a scan that made the calls [tr] looked up [keys]. *)
Record scans (keys : list string) (es : list EntryInfo) (tr : trace) (es' : list EntryInfo)
    (answers : list (result errno Stat)) : Prop := {
  scans_length : length answers = length keys;
  scans_lookups : omap looked_up tr = zip (key_path <$> keys) answers;
  scans_entries : es' = (es ++ omap (λ kr, entry_of kr.1 kr.2) (zip keys answers))%list;
  scans_errors : ∀ e, Err e ∈ answers → e = ENOENT
}.

Lemma scans_nil es tr : omap looked_up tr = [] → scans [] es tr es [].
Proof. intros Htr. split; [done|done|by rewrite app_nil_r|by intros e ?%elem_of_nil]. Qed.

Lemma scans_app keys1 keys2 es es1 es2 tr1 tr2 a1 a2 :
  scans keys1 es tr1 es1 a1 → scans keys2 es1 tr2 es2 a2 →
  scans (keys1 ++ keys2) es (tr1 ++ tr2) es2 (a1 ++ a2).
Proof.
  intros [L1 T1 E1 R1] [L2 T2 E2 R2]. split.
  - by rewrite !length_app, L1, L2.
  - rewrite omap_app, fmap_app, T1, T2, zip_with_app; [done|]. by rewrite length_fmap.
  - rewrite E2, E1, zip_with_app, omap_app by done. by rewrite app_assoc.
  - intros e [?|?]%elem_of_app; [by apply R1|by apply R2].
Qed.

Lemma scans_before keys es tr0 tr es' a : omap looked_up tr0 = [] →
  scans keys es tr es' a → scans keys es (tr0 ++ tr) es' a.
Proof. intros H0 []. split; try done. by rewrite omap_app, H0. Qed.

Lemma scans_after keys es tr0 tr es' a : omap looked_up tr0 = [] →
  scans keys es tr es' a → scans keys es (tr ++ tr0) es' a.
Proof. intros H0 []. split; try done. by rewrite omap_app, H0, app_nil_r. Qed.

(** ** The lookups of a key *)

Lemma KeyForPath_parses path key kind : KeyForPath getwd (diskRoot c) path = Ok (key, kind) →
  ParseKey key = Ok kind.
Proof.
  unfold KeyForPath. intros Hk.
  repeat match type of Hk with
  | (match ?x with _ => _ end) = _ => destruct x eqn:?; try done
  | (if ?x then _ else _) = _ => destruct x eqn:?; try done
  end. by simplify_eq.
Qed.

Lemma regular_not_link st : negb (mode_is S_IFREG st) || mode_is S_IFLNK st = negb (mode_is S_IFREG st).
Proof.
  unfold mode_is, S_IFREG, S_IFLNK. destruct (Z.eqb_spec (Z.land (st_mode st) S_IFMT) 32768) as [->|]; done.
Qed.

(** What looking a key up contributes, when the scan goes on *)
Lemma Snapshot_scans key kind (es : list EntryInfo) : ParseKey key = Ok kind →
  holds (Snapshot c key) (λ tr res, omap walked tr = [] ∧ ∃ r,
    match res with
    | Ok e => scans [key] es tr (es ++ [e]) [r]
    | Err e => is_not_exist e || is_invalid e = true → scans [key] es tr es [r]
    end).
Proof.
  intros Hk. unfold Snapshot, fileIdentity. rewrite Hk. apply holds_bind, holds_call. intros r.
  apply holds_ret. cbn [app]. destruct r as [st|e].
  - rewrite regular_not_link. destruct (mode_is S_IFREG st) eqn:Hm; cbn [negb]; apply holds_ret;
      (split; [done|]); exists (Ok st); [|intros _]; split; try done;
      try (by intros e ?%list_elem_of_singleton); cbn; unfold entry_of; rewrite Hk, Hm; cbn; [done|].
    by rewrite app_nil_r.
  - apply holds_ret. split; [done|]. exists (Err e). intros He. split; try done.
    + cbn. unfold entry_of. rewrite Hk. cbn. by rewrite app_nil_r.
    + intros e' [= ->]%list_elem_of_singleton. cbn in He. rewrite orb_false_r in He. by apply Z.eqb_eq.
Qed.

(** ** The walk *)

Lemma tree_keys_eq path d cs err : tree_keys path (Tree d cs err) =
  if d_symlink d then [] else if d_isdir d then children_keys path cs
  else match KeyForPath getwd (diskRoot c) path with Ok (key, _) => [key] | Err _ => [] end.
Proof.
  cbn [tree_keys]. destruct (d_symlink d); [done|]. destruct (d_isdir d); [|done].
  unfold children_keys. induction cs as [|[n t1] cs IH]; [done|]. cbn. by rewrite IH.
Qed.

(** A part of the walk that goes on contributes [keys], and none skips its siblings. *)
Definition walk_scans (keys : list string) (es : list EntryInfo) (tr : trace)
    (r : list EntryInfo * walk_status CacheError) : Prop :=
  omap walked tr = [] ∧ (r.2 = WNil → ∃ answers, scans keys es tr r.1 answers) ∧
  (∀ e, r.2 = WErr e → is_not_exist e = false).

Lemma walk_scans_app keys1 keys2 es es1 tr1 tr2 r a1 : omap walked tr1 = [] →
  scans keys1 es tr1 es1 a1 → walk_scans keys2 es1 tr2 r → walk_scans (keys1 ++ keys2) es (tr1 ++ tr2) r.
Proof.
  intros H1 Hs (H2 & Hr & He). split; [by rewrite omap_app, H1|]. split; [|done]. intros Hn. destruct (Hr Hn) as [a2 Ha2].
  exists (a1 ++ a2)%list. by eapply scans_app.
Qed.

(** The callback on an entry that is no directory, or on a directory before its listing *)
Lemma entries_fn_scans path d es : holds (entries_fn getwd c path (Some d) None es) (λ tr r,
  walk_scans (if d_isdir d then [] else tree_keys path (Tree d [] None)) es tr r ∧
  (r.2 = WNil → d_isdir d = true → d_symlink d = false) ∧
  (r.2 = WSkipDir → d_isdir d = true ∧ d_symlink d = true ∧ r.1 = es ∧ tr = [])).
Proof.
  assert (∀ st, (∀ e, st = WErr e → is_not_exist e = false) → walk_scans [] es [] (es, st)) as Hnone.
  { intros st Hst. split; [done|]. split; [|done]. intros _. exists []. by apply scans_nil. }
  unfold entries_fn. rewrite tree_keys_eq. destruct (d_symlink d) eqn:Hl.
  { apply holds_ret. destruct (d_isdir d); split_and!; try done; by apply Hnone. }
  destruct (d_isdir d) eqn:Hd; [apply holds_ret; split_and!; try done; by apply Hnone|].
  destruct (KeyForPath getwd (diskRoot c) path) as [[key kind]|] eqn:Hk.
  - apply holds_bind. eapply holds_impl; [|apply (Snapshot_scans key kind es), (KeyForPath_parses path), Hk].
    intros tr [e|e] [Hw [r Hr]].
    + apply holds_ret. rewrite app_nil_r. split_and!; try done. split; [done|]. split; [|done]. by exists [r].
    + destruct (is_not_exist e || is_invalid e) eqn:He; apply holds_ret; rewrite app_nil_r;
        (split_and!; [|done|done]); (split; [done|]); split; try done.
      * intros _. exists [r]. by apply Hr.
      * intros ? [= <-]. by apply orb_false_iff in He as [? _].
  - apply holds_ret. split_and!; try done. by apply Hnone.
Qed.

Lemma entries_fn_error path d e es : holds (entries_fn getwd c path d (Some e) es) (λ tr r,
  tr = [] ∧ r.1 = es ∧ r.2 ≠ WSkipDir ∧ (r.2 = WNil → e = ENOENT) ∧
  (∀ e', r.2 = WErr e' → is_not_exist e' = false)).
Proof.
  unfold entries_fn. destruct (Z.eqb_spec e ENOENT) as [->|Hne]; apply holds_ret; split_and!; try done.
  intros ? [= <-]. cbn. by apply Z.eqb_neq.
Qed.

Lemma walk_dir_scans t : ∀ path es,
  holds (walk_dir (entries_fn getwd c) path t es) (λ tr r,
    walk_scans (tree_keys path t) es tr r ∧ r.2 ≠ WSkipDir).
Proof.
  induction t as [d cs err IH] using tree_rect_nested. intros path es. cbn [walk_dir].
  rewrite tree_keys_eq. apply holds_bind. eapply holds_impl; [|apply entries_fn_scans].
  intros tr1 [es1 st1] ((Hw1 & H1 & He1) & Hdir & Hskip). cbn [fst snd] in *. rewrite tree_keys_eq in H1.
  destruct st1 as [| |e1].
  - destruct (d_isdir d) eqn:Hd; last first.
    { apply holds_ret. rewrite app_nil_r. split; [|done]. by split. }
    rewrite (Hdir eq_refl eq_refl). destruct (H1 eq_refl) as [a1 Ha1].
    apply holds_bind, holds_call. intros r. apply holds_ret, holds_bind.
    apply (holds_impl _ (λ tr r, tr = [] ∧ r.1 = es1 ∧ r.2 ≠ WSkipDir ∧ ∀ e, r.2 = WErr e → is_not_exist e = false)).
    2: { destruct err as [e|]; [|by apply holds_ret]. eapply holds_impl; [|apply entries_fn_error].
         by intros tr2 r2 (? & ? & ? & _ & ?). }
    intros tr2 [es2 st2] (-> & Hes2 & Hst2 & He2). cbn [fst snd] in *. subst es2.
    destruct st2 as [| |e2]; [|done|].
    2: { apply holds_ret. split; [|done]. split; [|by split]. rewrite !omap_app. cbn. by rewrite Hw1. }
    cbn [app]. unfold children_keys.
    apply (holds_impl _ (λ tr r, walk_scans (concat ((λ nt, tree_keys (Join [path; nt.1]) nt.2) <$> cs)) es1 tr r ∧ r.2 ≠ WSkipDir)).
    { intros tr r' [Hr' ?]. split; [|done].
      assert ((tr1 ++ ev (CReadDir path) r :: tr) = ((tr1 ++ [ev (CReadDir path) r]) ++ tr))%list as ->
        by by rewrite <-app_assoc.
      apply (walk_scans_app [] _ es es1 (tr1 ++ [ev (CReadDir path) r]) tr r' a1); [|by apply scans_after|done].
      rewrite omap_app, Hw1. done. }
    clear H1 Hdir Hskip Ha1 Hw1 He1 He2 Hst2. generalize es1. clear es1.
    induction IH as [|[nm t1] cs Ht1 _ IHcs]; intros es1.
    { apply holds_ret. split; [|done]. split; [done|]. split; [|done]. intros _. exists []. by apply scans_nil. }
    apply holds_bind. eapply holds_impl; [|apply (Ht1 (Join [path; nm]) es1)].
    intros tr3 [es3 st3] [(Hw3 & H3 & He3) Hst3]. cbn [fst snd] in *. destruct st3 as [| |e3]; [|done|].
    + destruct (H3 eq_refl) as [a3 Ha3]. eapply holds_impl; [|apply IHcs]. intros tr4 r4 [H4 ?].
      split; [|done]. cbn [fmap list_fmap concat]. by eapply walk_scans_app.
    + apply holds_ret. rewrite app_nil_r. by split.
  - destruct (Hskip eq_refl) as (Hd & Hl & -> & ->). apply holds_ret. rewrite Hl. cbn. rewrite Hd.
    split; [|done]. split; [done|]. split; [|done]. intros _. exists []. by apply scans_nil.
  - apply holds_ret. rewrite app_nil_r. split; [|done]. by split.
Qed.

(** A store that was walked to its end *)
Definition store_walked (root : string) (es : list EntryInfo) (tr : trace) (es' : list EntryInfo)
    (t : result errno tree) (answers : list (result errno Stat)) : Prop :=
  (∀ e, t = Err e → e = ENOENT) ∧ scans (walk_keys root t) es tr es' answers.

Lemma WalkDir_scans root es : holds (WalkDir (entries_fn getwd c) root es) (λ tr r, ∃ t,
  omap walked tr = [(root, t)] ∧ (∀ e, r.2 = Some e → is_not_exist e = false) ∧
  (r.2 = None → ∃ answers, store_walked root es tr r.1 t answers)).
Proof.
  unfold WalkDir. apply holds_bind, holds_call. intros t. apply holds_ret, holds_bind. cbn [app].
  destruct t as [t|e].
  - eapply holds_impl; [|apply walk_dir_scans]. intros tr [es' st] [(Hw & Hr & He) Hskip]. cbn [fst snd] in *.
    apply holds_ret. exists (Ok t). rewrite app_nil_r. split; [cbn; by rewrite Hw|].
    destruct st as [| |e]; [|done|split; [|done]; intros ? [= <-]; by apply He].
    split; [done|]. intros _. destruct (Hr eq_refl) as [a Ha].
    exists a. split; [done|]. by apply (scans_before _ _ [ev (CWalk root) (Ok t)]).
  - eapply holds_impl; [|apply entries_fn_error]. intros tr [es' st] (-> & Hes & Hskip & Hnil & He).
    cbn [fst snd] in *. subst es'. apply holds_ret. exists (Err e). split; [done|].
    destruct st as [| |e']; [|done|split; [|done]; intros ? [= <-]; by apply He].
    split; [done|]. intros _. exists []. split; [|by apply scans_nil]. intros ? [= <-]. by apply Hnil.
Qed.

(** ** The claim *)

(** C18. A scan misses nothing and invents nothing.  When [GetEntries] succeeds, it has
    walked the two stores, action cache first, and a store could only be missing; the
    keys it looked up, one [lstat] each, are exactly those of the files that the walks
    met, in their order, links and foreign files left aside; and the entries are, in
    that order, exactly those whose answer was a regular file.  A file that vanished
    between the walk and the lookup is left out, and any other error fails the scan. *)
Theorem GetEntries_exact : holds (GetEntries getwd c) (λ tr res, ∀ entries, res = Ok entries →
  ∃ ac cas answers,
    let keys := (walk_keys (key_path "ac") ac ++ walk_keys (key_path "cas") cas)%list in
    omap walked tr = [(key_path "ac", ac); (key_path "cas", cas)] ∧
    (∀ e, ac = Err e ∨ cas = Err e → e = ENOENT) ∧
    length answers = length keys ∧ (∀ e, Err e ∈ answers → e = ENOENT) ∧
    omap looked_up tr = zip (key_path <$> keys) answers ∧
    entries = omap (λ kr, entry_of kr.1 kr.2) (zip keys answers)).
Proof.
  unfold GetEntries. cbn [entries_loop]. apply holds_bind. eapply holds_impl; [|apply WalkDir_scans].
  intros tr1 [es1 err1] (ac & Hw1 & He1 & H1). cbn [fst snd] in *.
  destruct err1 as [e|]; [rewrite (He1 e eq_refl); by apply holds_ret|].
  destruct (H1 eq_refl) as (a1 & Hac & Hs1).
  apply holds_bind. eapply holds_impl; [|apply WalkDir_scans].
  intros tr2 [es2 err2] (cas & Hw2 & He2 & H2). cbn [fst snd] in *.
  destruct err2 as [e|]; [rewrite (He2 e eq_refl); by apply holds_ret|].
  destruct (H2 eq_refl) as (a2 & Hcas & Hs2). apply holds_ret. intros entries [= <-].
  rewrite app_nil_r. destruct (scans_app _ _ _ _ _ _ _ _ _ Hs1 Hs2) as [Hlen Hlook Hent Herr].
  exists ac, cas, (a1 ++ a2)%list. cbv zeta. split; [by rewrite omap_app, Hw1, Hw2|].
  split; [intros e [?|?]; auto|]. by split_and!.
Qed.
End scan.
