(* ===== verification/Lease.v ===== *)
(** * The activity lease (lease.go)

    Bazel invocations hold a shared [flock] on a file; the daemon takes it
    exclusively, without waiting, for the time of a deletion cycle. *)

From S2P Require Import Prelude Paths CacheKey System.
Local Open Scope Z_scope.

(** ** Data *)

Record ActivityLease := mkLease { lease_path : string }.

Inductive LeaseError :=
| ErrEmptyLockPath
| ErrOpenLock (e : errno)
| ErrAcquireLock (e : errno).

(** The results of [TryExclusive]: the closure [release], which captures the open
    file; [acquired] is false; an error. *)
Inductive lease_result := Acquired (file : fd) | NotAcquired | LeaseErr (e : LeaseError).

(** ** Operations *)

Definition NewActivityLease (path : string) : result LeaseError ActivityLease :=
  if String.eqb path EmptyString then Err ErrEmptyLockPath else Ok (mkLease path).

Definition TryExclusive (l : ActivityLease) : prog lease_result :=
  file ← do_call (COpenLock (lease_path l));
  match file with
  | Err e => Ret (LeaseErr (ErrOpenLock e))
  | Ok file =>
      r ← do_call (CFlockExclusive file);
      match r with
      | Err e =>
          _ ← do_call (CClose file);
          if (e =? EWOULDBLOCK) || (e =? EAGAIN) then Ret NotAcquired
          else Ret (LeaseErr (ErrAcquireLock e))
      | Ok _ => Ret (Acquired file)
      end
  end.

(** [release]: unlock, then close; [errors.Join] is nil when both are. *)
Definition release (file : fd) : prog (option (list errno)) :=
  unlockErr ← do_call (CFlockUnlock file);
  closeErr ← do_call (CClose file);
  let errs := (match unlockErr with Err e => [e] | Ok _ => [] end ++
               match closeErr with Err e => [e] | Ok _ => [] end)%list in
  Ret (match errs with [] => None | _ => Some errs end).

(** ** The claim *)

(** [TryExclusive] never waits, and reports an acquired lease exactly when the
    kernel granted the exclusive lock on the file it opened; when it does not, it
    leaves no lock and no open file behind.  [release] gives the lock up even when
    unlocking fails, and reports an error exactly when a call failed. *)
Theorem TryExclusive_acquires l :
  holds (TryExclusive l) (λ tr res, unlinks tr = [] ∧
    match res with
    | Acquired f => tr = [ev (COpenLock (lease_path l)) (Ok f); ev (CFlockExclusive f) (Ok tt)]
    | _ => locks [] tr = [] ∧ closes tr = opens tr
    end) ∧
  ∀ f, holds (release f) (λ tr res, unlinks tr = [] ∧ locks [f] tr = [] ∧
    ∃ r1 r2, tr = [ev (CFlockUnlock f) r1; ev (CClose f) r2] ∧
      (res = None ↔ r1 = Ok tt ∧ r2 = Ok tt)).
Proof.
  split.
  - unfold TryExclusive. run_prog; try done.
    match goal with |- context [ev (CFlockExclusive _) (Ok ?u)] => by destruct u end.
  - intros f. unfold release. run_prog.
    match goal with r1 : answer (CFlockUnlock f), r2 : answer (CClose f) |- _ =>
      split_and!; [done| |exists r1, r2; split; [done|]];
      destruct r1 as [[]|], r2 as [[]|]; cbn; repeat case_decide; naive_solver end.
Qed.
