(* ===== verification/Checkpoint.v ===== *)
(** * The hot-set checkpoint (checkpoint.go)

    [saveCheckpoint] writes the hot keys to a temporary file, syncs it and renames it
    over the checkpoint; [loadCheckpoint] reads one back and validates it.  What the
    JSON decoder makes of a file is an answer of the system: nothing is assumed of
    the bytes that are there. *)

From S2P Require Import Prelude TopkSpec Paths CacheKey System.
Local Open Scope Z_scope.

(** ** Data *)

Definition checkpointVersion : Z := 1.
(** What [loadCheckpoint] reads of the file, [64<<20] bytes at most *)
Definition readLimit : Z := Z.shiftl 64 20.

Inductive CheckpointError :=
| ErrOpenCheckpoint (e : errno)
| ErrDecode
| ErrTrailingData
| ErrUnsupported
| ErrInvalidItem (key : string)
| ErrMkdir (e : errno)
| ErrCreateTemp (e : errno)
| ErrChmod (e : errno)
| ErrEncode (e : errno)
| ErrSync (e : errno)
| ErrClose (e : errno)
| ErrReplace (e : errno)
| ErrOpenDirectory (e : errno)
| ErrSyncDirectory (e : errno).

(** ** Operations *)

Fixpoint check_items (items : list Item) : option CheckpointError :=
  match items with
  | [] => None
  | item :: items =>
      if (match ParseKey (Item_Key item) with Err _ => true | Ok _ => false end) ||
         (Item_Count item =? 0)
      then Some (ErrInvalidItem (Item_Key item)) else check_items items
  end.

(** [Ok None]: there is no checkpoint. *)
Definition loadCheckpoint (path : string) (maxItems : Z) :
    prog (result CheckpointError (option (list Item))) :=
  file ← do_call (COpenFile path);
  match file with
  | Err e => if e =? ENOENT then Ret (Ok None) else Ret (Err (ErrOpenCheckpoint e))
  | Ok file =>
      res ←
        (stored ← do_call (CDecode file readLimit);
         match stored with
         | None => Ret (Err ErrDecode)
         | Some stored =>
             let stored := decoded_value stored in
             eof ← do_call (CDecodeEOF file);
             if negb (eof : bool) then Ret (Err ErrTrailingData) else
             if negb (Version stored =? checkpointVersion) ||
                (maxItems <? Z.of_nat (length (Items stored)))
             then Ret (Err ErrUnsupported) else
             match check_items (Items stored) with
             | Some err => Ret (Err err)
             | None => Ret (Ok (Some (Items stored)))
             end
         end);
      _ ← do_call (CClose file);
      Ret res
  end.

(** A step that closes the temporary file and gives up when it fails. *)
Definition or_close (f : fd) (wrap : errno → CheckpointError) (step : prog (result errno unit))
    (rest : prog (option CheckpointError)) : prog (option CheckpointError) :=
  r ← step;
  match r with
  | Err e => _ ← do_call (CClose f); Ret (Some (wrap e))
  | Ok _ => rest
  end.

(** The directory is opened, synced and closed. *)
Definition sync_directory (dir : string) : prog (option CheckpointError) :=
  directory ← do_call (COpenFile dir);
  match directory with
  | Err e => Ret (Some (ErrOpenDirectory e))
  | Ok directory =>
      r ← do_call (CFsync directory);
      _ ← do_call (CClose directory);
      Ret (match r with Err e => Some (ErrSyncDirectory e) | Ok _ => None end)
  end.

Definition write_checkpoint (temporary : fd) (temporaryPath path : string) (stored : checkpoint) :
    prog (option CheckpointError) :=
  or_close temporary ErrChmod (do_call (CChmod temporary)) (
  or_close temporary ErrEncode (do_call (CEncode temporary stored)) (
  or_close temporary ErrSync (do_call (CFsync temporary)) (
  closed ← do_call (CClose temporary);
  match closed with
  | Err e => Ret (Some (ErrClose e))
  | Ok _ =>
      renamed ← do_call (CRename temporaryPath path);
      match renamed with
      | Err e => Ret (Some (ErrReplace e))
      | Ok _ => sync_directory (Dir path)
      end
  end))).

Definition saveCheckpoint (path : string) (items : list Item) (now : Z) :
    prog (option CheckpointError) :=
  r ← do_call (CMkdirAll (Dir path));
  match r with
  | Err e => Ret (Some (ErrMkdir e))
  | Ok _ =>
      temporary ← do_call (CCreateTemp (Dir path));
      match temporary with
      | Err e => Ret (Some (ErrCreateTemp e))
      | Ok (temporary, temporaryPath) =>
          err ← write_checkpoint temporary temporaryPath path
            (mkCheckpoint checkpointVersion now items);
          _ ← do_call (CRemove temporaryPath);
          Ret err
      end
  end.

(** ** What is accepted *)

Definition item_ok (it : Item) : Prop :=
  (∃ kind, ParseKey (Item_Key it) = Ok kind) ∧ Item_Count it ≠ 0.

Lemma check_items_None items : check_items items = None ↔ Forall item_ok items.
Proof.
  induction items as [|it items IH]; [by split; constructor|]. cbn [check_items].
  rewrite Forall_cons. unfold item_ok at 1.
  destruct (ParseKey (Item_Key it)) as [kind|e]; cbn [orb].
  - destruct (Z.eqb_spec (Item_Count it) 0); [naive_solver|]. rewrite IH. naive_solver.
  - naive_solver.
Qed.

(** ** The files, as a crash would leave them *)

(** A file holds a checkpoint completely written, or something else; it is durable
    once synced. *)
Record file := mkFile { f_content : option checkpoint; f_durable : bool }.

(** What the open descriptors refer to, what each path names now, and what else a crash
    may bring back there: a change of a directory is only durable once the directory
    itself was synced, and until then all that the path named since may return. *)
Record files := mkFiles {
  f_fds : gmap fd string;
  f_data : gmap string file;
  f_old : gmap string (list (option file))
}.

(** All that may be found at a path after a crash; what is there now comes first. *)
Definition found (s : files) (path : string) : list (option file) :=
  f_data s !! path :: default [] (f_old s !! path).

Definition open_file (f : fd) (p : string) (s : files) : files :=
  mkFiles (<[f:=p]> (f_fds s)) (f_data s) (f_old s).
Definition relink (q : string) (x : option file) (s : files) : files :=
  mkFiles (f_fds s) (partial_alter (λ _, x) q (f_data s)) (<[q:=found s q]> (f_old s)).
Definition set_data (f : fd) (g : file → file) (s : files) : files :=
  match f_fds s !! f with
  | Some p => mkFiles (f_fds s) (alter g p (f_data s)) (f_old s)
  | None => s
  end.
(** The names in the directory that was synced are settled. *)
Definition settle (f : fd) (s : files) : files :=
  match f_fds s !! f with
  | Some dir => mkFiles (f_fds s) (f_data s) (filter (λ qx, Dir qx.1 ≠ dir) (f_old s))
  | None => s
  end.

(** The effect of a call: a write that fails may leave anything in the file, a rename
    is atomic. *)
Definition files_step (s : files) (e : event) : files :=
  match e with
  | existT c r =>
      match c return answer c → files with
      | CCreateTemp _ => λ r,
          match r with
          | Ok (f, p) => relink p (Some (mkFile None false)) (open_file f p s)
          | Err _ => s
          end
      | CEncode f c => λ r,
          set_data f (λ _, mkFile (match r with Ok _ => Some c | Err _ => None end) false) s
      | CFsync f => λ r,
          match r with Ok _ => settle f (set_data f (λ x, mkFile (f_content x) true) s) | Err _ => s end
      | CClose f => λ _, mkFiles (delete f (f_fds s)) (f_data s) (f_old s)
      | COpenFile p => λ r, match r with Ok f => open_file f p s | Err _ => s end
      | CRename p q => λ r,
          match r, f_data s !! p with
          | Ok _, Some x => relink q (Some x) (relink p None s)
          | _, _ => s
          end
      | CRemove p => λ r, match r with Ok _ => relink p None s | Err _ => s end
      | _ => λ _, s
      end r
  end.
Definition files_after (s : files) (tr : trace) : files := foldl files_step s tr.

(** [O_EXCL]: the temporary file is not the checkpoint itself. *)
Definition temp_fresh (path : string) (e : event) : Prop :=
  match e with
  | existT (CCreateTemp _) (Ok (_, p)) => p ≠ path
  | _ => True
  end.

(** [P] holds before, between and after the calls of the trace. *)
Fixpoint always (P : files → Prop) (s : files) (tr : trace) : Prop :=
  P s ∧ match tr with [] => True | e :: tr => always P (files_step s e) tr end.

Lemma always_prefix P s tr1 tr2 : always P s (tr1 ++ tr2) → P (files_after s tr1).
Proof.
  revert s. induction tr1 as [|e tr1 IH]; intros s; cbn.
  - destruct tr2; by intros [].
  - intros [_ H]. by apply IH.
Qed.

Lemma always_last P s tr : always P s tr → P (files_after s tr).
Proof. intros H. apply (always_prefix P s tr []). by rewrite app_nil_r. Qed.

Lemma files_after_app s tr1 tr2 : files_after s (tr1 ++ tr2) = files_after (files_after s tr1) tr2.
Proof. apply foldl_app. Qed.

Lemma always_app P s tr1 tr2 : always P s tr1 → always P (files_after s tr1) tr2 →
  always P s (tr1 ++ tr2).
Proof.
  revert s. induction tr1 as [|e tr1 IH]; intros s; [done|]. intros [H1 H] H2.
  split; [done|]. by apply IH.
Qed.

(** *** What a step leaves at another path, or at this one *)

Lemma found_relink_ne q x s path : q ≠ path → found (relink q x s) path = found s path.
Proof. intros Hne. unfold found. cbn. by rewrite lookup_partial_alter_ne, lookup_insert_ne. Qed.

Lemma found_relink q x s : found (relink q x s) q = x :: found s q.
Proof. unfold found. cbn. by rewrite lookup_partial_alter_eq, lookup_insert_eq. Qed.

Lemma found_set_data f g s p path : f_fds s !! f = Some p → p ≠ path → found (set_data f g s) path = found s path.
Proof. intros Hf Hne. unfold found, set_data. rewrite Hf. cbn. by rewrite lookup_alter_ne. Qed.

Lemma found_settle f s path : found (settle f s) path ⊆ found s path.
Proof.
  unfold found, settle. destruct (f_fds s !! f) as [dir|]; [|done]. cbn.
  intros x. rewrite !elem_of_cons. intros [?|Hx]; [by left|right].
  destruct (filter _ _ !! path) as [l|] eqn:Hl; [|by apply elem_of_nil in Hx].
  apply map_lookup_filter_Some in Hl as [-> _]. done.
Qed.

Lemma found_settled f s path : f_fds s !! f = Some (Dir path) → found (settle f s) path = [f_data s !! path].
Proof.
  intros Hf. unfold found, settle. rewrite Hf. cbn.
  assert (filter (λ qx : string * list (option file), Dir qx.1 ≠ Dir path) (f_old s) !! path = None) as ->; [|done].
  apply map_lookup_filter_None. right. intros l _ Hne. by apply Hne.
Qed.

Lemma settle_data f s : f_data (settle f s) = f_data s.
Proof. unfold settle. by destruct (f_fds s !! f). Qed.

(** *** Saving *)

Section saving.
Context (path : string) (old : list (option file)) (new : checkpoint).
Local Abbreviation saved := (Some (mkFile (Some new) true)).

(** What the checkpoint's path may hold: what could be found before, or the whole new
    checkpoint, on disk. *)
Definition old_or_new (s : files) : Prop := ∀ x, x ∈ found s path → x ∈ old ∨ x = saved.

(** The writer's state after the temporary file is made *)
Definition writing (f : fd) (p : string) (x : file) (s : files) : Prop :=
  f_fds s !! f = Some p ∧ f_data s !! p = Some x ∧ found s path ⊆ old.

Lemma writing_ok f p x s : writing f p x s → old_or_new s.
Proof. intros (_ & _ & Hsub) y Hy. left. by apply Hsub. Qed.

Lemma writing_set f p x s g : p ≠ path → writing f p x s → writing f p (g x) (set_data f g s).
Proof.
  intros Hne (Hf & Hp & Hpath). split_and!.
  - unfold set_data. by rewrite Hf.
  - unfold set_data. rewrite Hf. cbn. by rewrite lookup_alter_eq, Hp.
  - by rewrite (found_set_data f g s p).
Qed.

Lemma writing_settle f p x s : writing f p x s → writing f p x (settle f s).
Proof.
  intros (Hf & Hp & Hpath). split_and!.
  - unfold settle. by rewrite Hf.
  - by rewrite settle_data.
  - etrans; [apply found_settle|done].
Qed.

Lemma writing_create dir f p s : p ≠ path → found s path ⊆ old →
  writing f p (mkFile None false) (files_step s (ev (CCreateTemp dir) (Ok (f, p)))).
Proof.
  intros Hne Hs. split_and!; cbn.
  - apply lookup_insert_eq.
  - apply lookup_partial_alter_eq.
  - by rewrite found_relink_ne.
Qed.

(** After the rename the new checkpoint is there, but a crash may undo it. *)
Definition renamed (s : files) : Prop := f_data s !! path = saved ∧ old_or_new s.

Lemma renamed_new f p s r : p ≠ path → writing f p (mkFile (Some new) true) s →
  renamed (files_step (files_step s (ev (CClose f) r)) (ev (CRename p path) (Ok tt))).
Proof.
  intros Hne (_ & Hp & Hsub). cbn. rewrite Hp. split.
  - apply lookup_partial_alter_eq.
  - intros y. rewrite found_relink, found_relink_ne by done. intros [->|Hin]%elem_of_cons; [by right|].
    left. by apply Hsub.
Qed.

(** Until its directory is synced *)
Lemma sync_directory_run s : renamed s → holds (sync_directory (Dir path)) (λ tr err,
  always old_or_new s tr ∧ (err = None → found (files_after s tr) path = [saved])).
Proof.
  intros [Hnew Hok]. unfold sync_directory. go_prog. destruct r as [d|e]; go_prog; [|by repeat split].
  set (s1 := open_file d (Dir path) s). destruct r as [[]|e]; [|by repeat split].
  set (s2 := settle d (set_data d (λ x, mkFile (f_content x) true) s1)).
  assert (found s2 path = [saved]) as H2.
  { assert (f_fds s1 !! d = Some (Dir path)) as Hd by apply lookup_insert_eq.
    unfold s2. rewrite found_settled by (unfold set_data; by rewrite Hd).
    unfold set_data. rewrite Hd. cbn. destruct (decide (Dir path = path)) as [Heq|Hne].
    - by rewrite Heq, lookup_alter_eq, Hnew.
    - by rewrite lookup_alter_ne, Hnew. }
  assert (old_or_new s2) as Hok2 by (intros x; rewrite H2; intros ->%list_elem_of_singleton; by right).
  split; [by repeat split|]. intros _. exact H2.
Qed.

Lemma write_checkpoint_run f p x s : p ≠ path → writing f p x s →
  holds (write_checkpoint f p path new) (λ tr err, always old_or_new s tr ∧
    (err = None → found (files_after s tr) path = [saved])).
Proof.
  intros Hne W0. pose proof (writing_ok _ _ _ _ W0) as P0.
  unfold write_checkpoint, or_close. go_prog. destruct r as [[]|e]; [|go_prog; by repeat split].
  go_prog. pose proof (writing_set f p x s
    (λ _, mkFile (match r with Ok _ => Some new | Err _ => None end) false) Hne W0) as W1.
  pose proof (writing_ok _ _ _ _ W1) as P1.
  destruct r as [[]|e]; [|go_prog; by repeat split].
  go_prog. destruct r as [[]|e]; [|go_prog; by repeat split].
  pose proof (writing_settle _ _ _ _ (writing_set f p _ _ (λ y, mkFile (f_content y) true) Hne W1)) as W2.
  cbn [f_content] in W2. pose proof (writing_ok _ _ _ _ W2) as P2.
  go_prog. destruct r as [[]|e]; [|go_prog; by repeat split].
  go_prog. destruct r as [[]|e]; [|go_prog; by repeat split].
  pose proof (renamed_new f p _ (Ok tt) Hne W2) as Hnew.
  eapply holds_impl; [|exact (sync_directory_run _ Hnew)]. intros tr err [Hs Hend]. split; [|exact Hend].
  do 5 (split; [done|]). exact Hs.
Qed.
End saving.

(** The temporary files a trace made *)
Definition temp_made (e : event) : option (fd * string) :=
  match e with existT (CCreateTemp _) (Ok x) => Some x | _ => None end.

(** The only files that are removed or renamed by their path are temporary ones made
    before, and they are only renamed to the checkpoint [file]. *)
Definition temps_step (temps : list string) (e : event) : list string :=
  match temp_made e with Some (_, p) => p :: temps | None => temps end.
Definition own_step (file : string) (temps : list string) (e : event) : Prop :=
  match projT1 e with
  | CRemove p => p ∈ temps
  | CRename p q => p ∈ temps ∧ q = file
  | _ => True
  end.
Fixpoint own_files (file : string) (temps : list string) (tr : trace) : Prop :=
  match tr with
  | [] => True
  | e :: tr => own_step file temps e ∧ own_files file (temps_step temps e) tr
  end.

Lemma own_files_app file temps tr1 tr2 : own_files file temps (tr1 ++ tr2) ↔
  own_files file temps tr1 ∧ own_files file (foldl temps_step temps tr1) tr2.
Proof.
  revert temps. induction tr1 as [|e tr1 IH]; intros temps; cbn; [naive_solver|].
  rewrite IH. naive_solver.
Qed.

Lemma write_checkpoint_closes f p path new :
  holds (write_checkpoint f p path new) (λ tr _,
    closes tr = f :: opens tr ∧ omap temp_made tr = []).
Proof.
  unfold write_checkpoint, or_close, sync_directory. run_prog; try done.
  all: match goal with r : answer (CFsync _) |- _ => by destruct r | _ => idtac end.
Qed.

(** C7. A checkpoint is replaced atomically and durably.  Whatever fails, and wherever
    the process or the machine stops, the checkpoint's path holds afterwards something
    it could hold before, or the whole new checkpoint, synced; and when
    [saveCheckpoint] returns no error only the latter, for the directory has been
    synced and no crash can undo the rename.  Every file it opened is closed, and the
    temporary file is removed last, on every path.  (This is about a directory that is
    there to stay: one that [MkdirAll] had to make is not synced into its parent.) *)
Theorem Save_atomic path items now s :
  holds_if (temp_fresh path) (saveCheckpoint path items now) (λ tr err,
    let new := mkCheckpoint checkpointVersion now items in
    (∀ tr1 tr2 x, tr = tr1 ++ tr2 → x ∈ found (files_after s tr1) path →
       x ∈ found s path ∨ x = Some (mkFile (Some new) true)) ∧
    (err = None → found (files_after s tr) path = [Some (mkFile (Some new) true)]) ∧
    closes tr = opens tr ∧
    (∀ f p, (f, p) ∈ omap temp_made tr → ∃ r, last tr = Some (ev (CRemove p) r))).
Proof.
  set (new := mkCheckpoint checkpointVersion now items). set (P := old_or_new path (found s path) new).
  assert (P s) as Hold by (intros x Hx; by left).
  assert (∀ tr, always P s tr → ∀ tr1 tr2 x, tr = tr1 ++ tr2 → x ∈ found (files_after s tr1) path →
    x ∈ found s path ∨ x = Some (mkFile (Some new) true)) as Hpre.
  { intros tr Htr tr1 tr2 x ->. apply always_prefix in Htr. apply Htr. }
  unfold saveCheckpoint. go_if. destruct r as [[]|e]; go_if.
  2:{ split_and!; [by apply Hpre|done|done|]. by intros f p ?%elem_of_nil. }
  destruct r as [[f p]|e]; go_if.
  2:{ split_and!; [by apply Hpre|done|done|]. by intros f p ?%elem_of_nil. }
  assert (p ≠ path) as Hne by done.
  pose proof (writing_create path (found s path) (Dir path) f p s Hne ltac:(done)) as W.
  eapply holds_if_impl; [|apply holds_if_holds, holds_and;
    [exact (write_checkpoint_run path _ new f p _ _ Hne W)|apply write_checkpoint_closes]].
  intros tr err [[Htr Hnew] [Hclose Htemp]]. go_if. cbn [app].
  match goal with |- context [ev (CRemove p) ?r] => rename r into removed end.
  assert (∀ s', found (files_step s' (ev (CRemove p) removed)) path = found s' path) as Hkeep.
  { intros s'. cbn. destruct removed; [by apply found_relink_ne|done]. }
  split_and!.
  - apply Hpre. do 2 (split; [done|]). apply always_app; [exact Htr|]. apply always_last in Htr.
    split; [exact Htr|]. split; [|done]. intros x. rewrite Hkeep. apply Htr.
  - intros Herr. cbn. rewrite files_after_app. cbn [files_after foldl]. rewrite Hkeep. by apply Hnew.
  - unfold opens, closes in *. cbn. rewrite !omap_app, Hclose. cbn. by rewrite app_nil_r.
  - intros f' p'. cbn. rewrite omap_app, Htemp. intros [[= -> ->]|Hin%elem_of_nil]%elem_of_cons; [|done].
    eexists. by rewrite !last_cons, last_snoc.
Qed.

(** What [loadCheckpoint] accepts. *)
Definition checkpoint_ok (maxItems : Z) (c : checkpoint) : Prop :=
  Version c = checkpointVersion ∧ Z.of_nat (length (Items c)) <= maxItems ∧ Forall item_ok (Items c).

(** What was answered about the checkpoint file *)
Inductive file_answer :=
| FileOpened (err : option errno)
| FileDecoded (stored : option decoded)
| FileEOF (eof : bool).
Definition file_answered (e : event) : option file_answer :=
  match e with
  | existT c r =>
      match c return answer c → option file_answer with
      | COpenFile _ => λ r, Some (FileOpened (match r with Ok _ => None | Err e => Some e end))
      | CDecode _ _ => λ r, Some (FileDecoded r)
      | CDecodeEOF _ => λ r, Some (FileEOF r)
      | _ => λ _, None
      end r
  end.

Lemma loadCheckpoint_run path maxItems : holds (loadCheckpoint path maxItems) (λ tr res,
  (∀ items, res = Ok (Some items) ↔ ∃ stored,
     omap file_answered tr = [FileOpened None; FileDecoded (Some stored); FileEOF true] ∧
     checkpoint_ok maxItems (decoded_value stored) ∧ items = Items (decoded_value stored)) ∧
  (res = Ok None ↔ omap file_answered tr = [FileOpened (Some ENOENT)]) ∧
  closes tr = opens tr).
Proof.
  unfold loadCheckpoint, checkpoint_ok. run_prog; cbn.
  all: (split; [intros items; split|split; [split|done]]); try (intros H; discriminate H).
  all: try (intros (stored & H & _); discriminate H).
  - intros (stored & [= _ ->] & _). by apply negb_true_iff in Heqb.
  - intros (stored & [= <- _] & (Hv & Hl & _) & _).
    apply orb_true_iff in Heqb0 as [H%negb_true_iff%Z.eqb_neq|H%Z.ltb_lt]; [done|lia].
  - intros (stored & [= <- _] & (_ & _ & Hok) & _). apply check_items_None in Hok. congruence.
  - intros [= <-]. exists d. apply negb_false_iff in Heqb as ->.
    apply orb_false_iff in Heqb0 as [H1%negb_false_iff%Z.eqb_eq H2%Z.ltb_ge].
    apply check_items_None in Heqo. done.
  - by intros (stored & [= <- _] & _ & ->).
  - intros _. by apply Z.eqb_eq in Heqb as ->.
  - done.
  - intros [= ->]. done.
Qed.

(** C25. [loadCheckpoint] accepts exactly the valid checkpoints, whatever the file
    holds: it returns items if and only if the file opened, decoded, had nothing
    after it, has the current version, at most [maxItems] items, and every item is a
    cache key with a positive count; it reports that there is no checkpoint exactly
    when there is no file; anything else is an error, and the file is closed. *)
Theorem loadCheckpoint_accepts path maxItems : holds (loadCheckpoint path maxItems) (λ tr res,
  (∀ items, res = Ok (Some items) ↔ ∃ stored,
     omap file_answered tr = [FileOpened None; FileDecoded (Some stored); FileEOF true] ∧
     checkpoint_ok maxItems (decoded_value stored) ∧ items = Items (decoded_value stored)) ∧
  (res = Ok None ↔ omap file_answered tr = [FileOpened (Some ENOENT)]) ∧
  closes tr = opens tr).
Proof. apply loadCheckpoint_run. Qed.

(** A checkpoint of valid items decodes to a value that is accepted: what
    [saveCheckpoint] writes of a sound hot set is restored by the next start. *)
Lemma saved_checkpoint_ok items now maxItems : Forall item_ok items →
  Z.of_nat (length items) <= maxItems →
  checkpoint_ok maxItems (mkCheckpoint checkpointVersion now items).
Proof. by intros. Qed.

(** ** A concrete system: every call succeeds but the syncs, which answer [sync] *)

Definition demo_temp : string := "/state/.hot-set-1.tmp".
Definition demo_fs (sync : result errno unit) (c : call) (s : unit) : answer c * unit :=
  match c return answer c * unit with
  | CMkdirAll _ | CChmod _ | CEncode _ _ | CClose _ | CRename _ _ | CRemove _ => (Ok tt, s)
  | CFsync _ => (sync, s)
  | CCreateTemp _ => (Ok (5, demo_temp), s)
  | COpenFile _ => (Ok 6, s)
  | c => (unused_answer c, s)
  end.
Definition demo_save (sync : result errno unit) :=
  interp (demo_fs sync) (saveCheckpoint "/state/hot-set.json" [mkItem "k" 2] 7) tt.
Definition demo_before : option file := Some (mkFile (Some (mkCheckpoint 1 3 [])) true).
Definition demo_files : files :=
  mkFiles ∅ (partial_alter (λ _, demo_before) "/state/hot-set.json"%string ∅) ∅.

Lemma Save_atomic_witness : Forall (temp_fresh "/state/hot-set.json") (demo_save (Ok tt)).1.2 ∧
  (demo_save (Ok tt)).1.1 = Some None ∧
  found (files_after demo_files (demo_save (Ok tt)).1.2) "/state/hot-set.json" =
    [Some (mkFile (Some (mkCheckpoint 1 7 [mkItem "k" 2])) true)].
Proof.
  assert (Forall (temp_fresh "/state/hot-set.json") (demo_save (Ok tt)).1.2) as Hok.
  { vm_compute. repeat constructor. discriminate. }
  split; [exact Hok|]. split; [vm_compute; reflexivity|].
  refine (proj1 (proj2 (holds_if_exec _ _ _ (Save_atomic "/state/hot-set.json" [mkItem "k" 2] 7 demo_files)
    (demo_save (Ok tt)).1.2 None _ Hok)) eq_refl).
  apply (interp_exec (demo_fs (Ok tt)) _ tt _ _ tt). vm_compute. reflexivity.
Defined.

(** A failed sync leaves the old checkpoint.  Before the directory is synced a crash
    may bring it back. *)
Example failed_sync_keeps_old :
  (demo_save (Err 5)).1.1 = Some (Some (ErrSync 5)) ∧
  found (files_after demo_files (demo_save (Err 5)).1.2) "/state/hot-set.json" = [demo_before].
Proof. vm_compute. done. Qed.
Example unsynced_rename : found (files_after demo_files (take 7 (demo_save (Ok tt)).1.2)) "/state/hot-set.json" =
  [Some (mkFile (Some (mkCheckpoint 1 7 [mkItem "k" 2])) true); demo_before].
Proof. vm_compute. done. Qed.
