(* ===== verification/Cleanup.v ===== *)
(** * The eviction cycle (notify.go: Notify, cleanup, selectVictims, totalBytes,
    bytesByKind)

    One tick of the cleanup timer: measure, decide whether to evict, and either
    project what would go (shadow mode) or take the activity lease, measure again
    and delete the coldest eligible entries until both targets are met.  The heat
    model is any implementation of TopkSpec.v's interface. *)

From S2P Require Import Prelude Float64 MinHeapSpec TopkSpec Policy Paths CacheKey System Watcher Cache Lease.
Local Open Scope Z_scope.

(** ** Data *)

(** The fields of [Notify] the cycle reads and writes ([now] is an argument; the
    disk and scan functions are those of package diskutil). *)
Record Notify (T : Type) := mkNotify {
  cache : Cache;
  watcher : option Watcher;       (* nil before the first reconciliation *)
  heavykeeper : T;
  lease : ActivityLease;
  policy : EvictionPolicy;
  checkpointFile : string;
  ready : bool;
  warmUntil : Z;
  evicting : bool
}.
Arguments mkNotify {T}. Arguments cache {T}. Arguments watcher {T}. Arguments heavykeeper {T}.
Arguments lease {T}. Arguments policy {T}. Arguments checkpointFile {T}.
Arguments ready {T}. Arguments warmUntil {T}. Arguments evicting {T}.

Inductive CleanupError :=
| ErrScan (e : CacheError)
| ErrUsage (e : DiskUsageError)
| ErrLease (e : LeaseError).

(** The variables of the loop of [selectVictims]. *)
Record victims (T : Type) := mkVictims {
  v_heat : T;                     (* n.heavykeeper *)
  v_evicting : bool;              (* n.evicting *)
  v_cacheBytes : Z;
  v_actionCacheBytes : Z;
  v_projected : Z;
  v_sinceCheck : Z;
  v_deletedSince : Z;
  v_free : Z;
  v_used : Z
}.
Arguments mkVictims {T}. Arguments v_heat {T}. Arguments v_evicting {T}.
Arguments v_cacheBytes {T}. Arguments v_actionCacheBytes {T}. Arguments v_projected {T}.
Arguments v_sinceCheck {T}. Arguments v_deletedSince {T}. Arguments v_free {T}.
Arguments v_used {T}.

Inductive loop_next := Continue | Stop.

(** ** Sums *)

Fixpoint total_loop (entries : list EntryInfo) (total : Z) : Z :=
  match entries with [] => total | e :: es => total_loop es (i64 (total + Size e)) end.
Definition totalBytes (entries : list EntryInfo) : Z := total_loop entries 0.

Fixpoint kind_loop (kind : EntryKind) (entries : list EntryInfo) (total : Z) : Z :=
  match entries with
  | [] => total
  | e :: es => kind_loop kind es
      (if bool_decide (Kind e = kind) then i64 (total + Size e) else total)
  end.
Definition bytesByKind (entries : list EntryInfo) (kind : EntryKind) : Z := kind_loop kind entries 0.

Definition is_changed (e : CacheError) : bool :=
  match e with ErrEntryChanged => true | _ => false end.

Section cleanup.
Context {T : Type} `{!Topk T} `{!Sorter}.
Context (getwd : result CacheError string).
Implicit Types n : Notify T.

Definition set_heat n (hk : T) (ev : bool) : Notify T :=
  mkNotify (cache n) (watcher n) hk (lease n) (policy n) (checkpointFile n) (ready n) (warmUntil n) ev.
Definition set_evicting n (ev : bool) : Notify T := set_heat n (heavykeeper n) ev.

(** [heat[key]], zero for a key that is not hot *)
Definition heat_of (heat : gmap string Z) (e : EntryInfo) : Z := default 0 (heat !! Key e).

(** The comparison given to [sort.Slice]. *)
Definition colder (heat : gmap string Z) (a b : EntryInfo) : bool :=
  let iHeat := heat_of heat a in
  let jHeat := heat_of heat b in
  if negb (iHeat =? jHeat) then iHeat <? jHeat
  else if negb (ModTime a =? ModTime b) then ModTime a <? ModTime b
  else Size b <? Size a.

Definition heat_map (items : list Item) : gmap string Z :=
  foldl (λ m it, <[Item_Key it:=Item_Count it]> m) ∅ items.

Section loop.
Context (c : Cache) (p : EvictionPolicy) (now : Z) (deleteEntries : bool).

(** The eligibility tests at the head of the loop body. *)
Definition eligible (actionCacheBytes : Z) (e : EntryInfo) : bool :=
  negb (now - MinimumResidence p <? ModTime e) &&
  negb (bool_decide (Kind e = ActionCache) &&
        (i64 (actionCacheBytes - Size e) <? MinActionCacheBytes p)).

(** The deletion itself: [None] when the entry is skipped. *)
Definition delete_victim (e : EntryInfo) (v : victims T) : prog (option (victims T)) :=
  if deleteEntries then
    err ← Delete c e;
    match err with
    | Some err =>
        _ ← (if negb (is_not_exist err) && negb (is_changed err)
             then log_error "Skipping cache entry deletion" else Ret tt);
        Ret None
    | None =>
        hk ← lift (Topk_Remove (v_heat v) (Key e));
        _ ← observe (RecordDeleted (Kind e) (Size e));
        Ret (Some (mkVictims hk (v_evicting v) (v_cacheBytes v) (v_actionCacheBytes v)
          (v_projected v) (v_sinceCheck v) (i64 (v_deletedSince v + 1)) (v_free v) (v_used v)))
    end
  else Ret (Some v).

(** The accounting after a victim. *)
Definition account (e : EntryInfo) (v : victims T) : victims T :=
  mkVictims (v_heat v) (v_evicting v) (i64 (v_cacheBytes v - Size e))
    (if bool_decide (Kind e = ActionCache) then i64 (v_actionCacheBytes v - Size e)
     else v_actionCacheBytes v)
    (i64 (v_projected v + Size e)) (i64 (v_sinceCheck v + Size e))
    (v_deletedSince v) (v_free v) (v_used v).

Definition simulated_percent (v : victims T) : float64 :=
  let simulatedFree := u64 (v_free v + u64 (v_sinceCheck v)) in
  f_mul (f_div (f_of_Z simulatedFree) (f_of_Z (u64 (v_free v + v_used v)))) (f_of_Z 100).

Definition set_usage (v : victims T) (free used : Z) : victims T :=
  mkVictims (v_heat v) (v_evicting v) (v_cacheBytes v) (v_actionCacheBytes v) (v_projected v)
    0 0 free used.
Definition stop_evicting (v : victims T) : victims T :=
  mkVictims (v_heat v) false (v_cacheBytes v) (v_actionCacheBytes v) (v_projected v)
    (v_sinceCheck v) (v_deletedSince v) (v_free v) (v_used v).

(** The end of the loop body: does pressure remain at [percentFree]? *)
Definition check_pressure (v : victims T) (percentFree : float64) : prog (victims T * loop_next) :=
  if nextEvicting p true (mkPressure percentFree (v_cacheBytes v)) then Ret (v, Continue)
  else if deleteEntries then
    usage ← GetDiskUsage (diskRoot c);
    match usage with
    | Err _ => _ ← log_error "Stopping cleanup before final disk usage confirmation"; Ret (v, Stop)
    | Ok (actualPercent, _, _) =>
        if nextEvicting p true (mkPressure actualPercent (v_cacheBytes v)) then Ret (v, Continue)
        else Ret (stop_evicting v, Stop)
    end
  else Ret (v, Stop).

(** The loop body: the batch refresh, then the pressure check. *)
Definition visit (e : EntryInfo) (v : victims T) : prog (victims T * loop_next) :=
  if negb (eligible (v_actionCacheBytes v) e) then Ret (v, Continue) else
  d ← delete_victim e v;
  match d with
  | None => Ret (v, Continue)
  | Some v =>
      let v := account e v in
      if deleteEntries && (CleanupBatchSize p <=? v_deletedSince v) then
        usage ← GetDiskUsage (diskRoot c);
        match usage with
        | Err _ => _ ← log_error "Stopping cleanup after disk usage refresh failed"; Ret (v, Stop)
        | Ok (actualPercent, actualFree, actualUsed) =>
            check_pressure (set_usage v actualFree actualUsed) actualPercent
        end
      else check_pressure v (simulated_percent v)
  end.

Fixpoint victims_loop (entries : list EntryInfo) (v : victims T) : prog (victims T) :=
  match entries with
  | [] => Ret v
  | e :: es =>
      '(v, next) ← visit e v;
      match next with Continue => victims_loop es v | Stop => Ret v end
  end.
End loop.

Definition selectVictims n (entries : list EntryInfo) (now bytesFree bytesUsed : Z)
    (deleteEntries : bool) : prog (Z * Notify T) :=
  items ← lift (Topk_List (heavykeeper n));
  let entries := go_sort (colder (heat_map items)) entries in
  v ← victims_loop (cache n) (policy n) now deleteEntries entries
    (mkVictims (heavykeeper n) (evicting n) (totalBytes entries)
       (bytesByKind entries ActionCache) 0 0 0 bytesFree bytesUsed);
  Ret (v_projected v, set_heat n (v_heat v) (v_evicting v)).

(** The part of [cleanup] after the lease is acquired. *)
Definition cleanup_locked n (now : Z) : prog (option CleanupError * Notify T) :=
  entries ← GetEntries getwd (cache n);
  match entries with
  | Err e => Ret (Some (ErrScan e), n)
  | Ok entries =>
      usage ← GetDiskUsage (diskRoot (cache n));
      match usage with
      | Err e => Ret (Some (ErrUsage e), n)
      | Ok (percentFree, bytesFree, bytesUsed) =>
          let cacheBytes := totalBytes entries in
          let n := set_evicting n
            (nextEvicting (policy n) (evicting n) (mkPressure percentFree cacheBytes)) in
          if negb (evicting n) then Ret (None, n) else
          '(_, n) ← selectVictims n entries now bytesFree bytesUsed true;
          Ret (None, n)
      end
  end.

Definition cleanup n (now : Z) : prog (option CleanupError * Notify T) :=
  _ ← observe (RecordProjected 0);
  entries ← GetEntries getwd (cache n);
  match entries with
  | Err e => Ret (Some (ErrScan e), n)
  | Ok entries =>
  usage ← GetDiskUsage (diskRoot (cache n));
  match usage with
  | Err e => Ret (Some (ErrUsage e), n)
  | Ok (percentFree, bytesFree, bytesUsed) =>
  let cacheBytes := totalBytes entries in
  _ ← observe (SetDisk bytesFree bytesUsed);
  _ ← observe (SetCacheBytes cacheBytes);
  let n := set_evicting n
    (nextEvicting (policy n) (evicting n) (mkPressure percentFree cacheBytes)) in
  if negb (evicting n) then Ret (None, n) else
  if negb (ready n) then _ ← observe (RecordFrozen "not_ready"); Ret (None, n) else
  if now <? warmUntil n then _ ← observe (RecordFrozen "warmup"); Ret (None, n) else
  if Shadow (policy n) then
    '(projected, n) ← selectVictims n entries now bytesFree bytesUsed false;
    _ ← observe (RecordProjected projected);
    Ret (None, n)
  else
  acquired ← TryExclusive (lease n);
  match acquired with
  | LeaseErr e => Ret (Some (ErrLease e), n)
  | NotAcquired => _ ← observe RecordSkippedActive; Ret (None, n)
  | Acquired file =>
      result ← cleanup_locked n now;
      err ← release file;
      _ ← match err with Some _ => log_error "Failed to release activity lock" | None => Ret tt end;
      Ret result
  end
  end end.
End cleanup.

(** ** What a turn of the loop does *)

Lemma reads_only_silent tr : Forall reads_only tr → Forall silent tr.
Proof.
  intros H. eapply Forall_impl; [exact H|]. intros [[] r]; cbn; intros []; by repeat constructor.
Qed.

Section cycle.
Context {T : Type} `{!Topk T} `{!TopkLaws T} `{!Sorter} `{!SorterLaws}.
Context (getwd : result CacheError string).
Implicit Types n : Notify T.
Implicit Types v : victims T.

Definition logged (tr : trace) : Prop := ∃ what, ev (CLogError what) tt ∈ tr.

(** The file a deletion unlinked is the last element of the entry's key. *)
Definition unlinked_entry (e : EntryInfo) (u : fd * string) : Prop :=
  ∃ store shard, split (Key e) = [store; shard; u.2].

Section turn.
Context (c : Cache) (p : EvictionPolicy) (now : Z) (del : bool).

(** Entry [e] was a victim: how the state and the outside world changed. *)
Record taken (e : EntryInfo) v v' (tr : trace) : Prop := {
  taken_eligible : eligible p now (v_actionCacheBytes v) e = true;
  taken_cache : v_cacheBytes v' = i64 (v_cacheBytes v - Size e);
  taken_action : v_actionCacheBytes v' =
    if bool_decide (Kind e = ActionCache) then i64 (v_actionCacheBytes v - Size e)
    else v_actionCacheBytes v;
  taken_projected : v_projected v' = i64 (v_projected v + Size e);
  taken_heat : if del then topk_hot (v_heat v') = delete (Key e) (topk_hot (v_heat v))
               else v_heat v' = v_heat v;
  taken_seen : observations tr = if del then [RecordDeleted (Kind e) (Size e)] else [];
  taken_unlinked : if del then ∃ u, unlinks tr = [u] ∧ unlinked_entry e u else unlinks tr = [];
  taken_shadow : del = false → v' = account e v
}.

(** It was not: nothing changed. *)
Definition skipped v v' (tr : trace) : Prop :=
  v' = v ∧ unlinks tr = [] ∧ observations tr = [].

(** Why a turn ends the loop: both targets are met, as measured on the file system
    when deleting, or an error was logged.  It goes on after a victim only while
    there is pressure. *)
Definition seen_percent v (tr : trace) (pct : float64) : Prop :=
  if del then measured c tr pct else pct = simulated_percent v.
Definition targets_met v (tr : trace) : Prop :=
  ∃ pct, seen_percent v tr pct ∧ nextEvicting p true (mkPressure pct (v_cacheBytes v)) = false.
Definition pressure_remains v (tr : trace) : Prop :=
  ∃ pct, (pct = simulated_percent v ∨ measured c tr pct) ∧ (del = false → pct = simulated_percent v) ∧
    nextEvicting p true (mkPressure pct (v_cacheBytes v)) = true.
Definition outcome v v' (tr : trace) (next : loop_next) : Prop :=
  match next with
  | Continue => v_evicting v' = v_evicting v
  | Stop => (targets_met v' tr ∧ v_evicting v' = if del then false else v_evicting v) ∨
            (del = true ∧ logged tr ∧ v_evicting v' = v_evicting v)
  end.

Definition same_core v v' : Prop :=
  v_heat v' = v_heat v ∧ v_cacheBytes v' = v_cacheBytes v ∧
  v_actionCacheBytes v' = v_actionCacheBytes v ∧ v_projected v' = v_projected v.

Lemma check_pressure_spec v pct tr0 :
  pct = simulated_percent v ∨ (del = true ∧ measured c tr0 pct) →
  holds (check_pressure c p del v pct) (λ tr r,
    Forall silent tr ∧ (del = false → tr = [] ∧ r.1 = v) ∧ same_core v r.1 ∧
    outcome v r.1 (tr0 ++ tr) r.2 ∧ (r.2 = Continue → pressure_remains r.1 (tr0 ++ tr))).
Proof.
  intros Hpct. unfold check_pressure, same_core.
  assert (del = false → pct = simulated_percent v) as Hsim by (destruct Hpct as [|[]]; congruence).
  destruct (nextEvicting p true (mkPressure pct (v_cacheBytes v))) eqn:He.
  { apply holds_ret. rewrite app_nil_r. split_and!; try by try constructor.
    intros _. exists pct. split_and!; try done. destruct Hpct as [|[]]; auto. }
  destruct del eqn:Hdel; last first.
  { apply holds_ret. split_and!; try by try constructor.
    cbn. left. rewrite Hdel. split; [|done]. exists pct. split; [|done].
    unfold seen_percent. rewrite Hdel. by apply Hsim. }
  apply holds_bind. eapply holds_impl; [|apply GetDiskUsage_measures]. intros tr usage [Htr Hm].
  destruct usage as [[[actual free] used]|e]; [|go_prog].
  - specialize (Hm _ _ _ eq_refl). apply (measured_app_r _ tr0) in Hm.
    destruct (nextEvicting p true (mkPressure actual (v_cacheBytes v))) eqn:Ha; apply holds_ret;
      rewrite app_nil_r; split_and!; try done.
    + intros _. exists actual. split_and!; [by right|congruence|done].
    + cbn. left. rewrite Hdel. split; [|done]. exists actual. split; [|done].
      unfold seen_percent. by rewrite Hdel.
  - split_and!; try done.
    + apply Forall_app. split; [done|]. by repeat constructor.
    + cbn. right. split_and!; [done| |done]. exists "Stopping cleanup before final disk usage confirmation".
      destruct r. rewrite !elem_of_app. right. right. by left.
Qed.

Lemma delete_victim_spec e v : topk_inv (v_heat v) →
  holds (delete_victim c del e v) (λ tr d, tidy tr ∧ (del = false → tr = []) ∧
    match d with
    | None => unlinks tr = [] ∧ observations tr = []
    | Some v' => topk_inv (v_heat v') ∧
        v_cacheBytes v' = v_cacheBytes v ∧ v_actionCacheBytes v' = v_actionCacheBytes v ∧
        v_projected v' = v_projected v ∧ v_evicting v' = v_evicting v ∧
        (del = false → v' = v) ∧
        (if del then topk_hot (v_heat v') = delete (Key e) (topk_hot (v_heat v))
         else v_heat v' = v_heat v) ∧
        observations tr = (if del then [RecordDeleted (Kind e) (Size e)] else []) ∧
        (if del then ∃ u, unlinks tr = [u] ∧ unlinked_entry e u else unlinks tr = [])
    end).
Proof.
  intros Hv. unfold delete_victim. destruct del; last first.
  { apply holds_ret. by split_and!. }
  apply holds_bind. eapply holds_impl; [|apply holds_and; [apply Delete_run|
    apply holds_and; [apply Delete_tidy|apply Delete_unobserved]]].
  intros tr res ([Hres _] & Htidy & Hobs). destruct res as [err|].
  - apply holds_bind. apply (holds_impl _ (λ tr' _, Forall silent tr')).
    + intros tr' _ Htr'. destruct (silent_facts tr' Htr') as (Ht & Hu & Ho & _).
      apply holds_ret. rewrite app_nil_r, unlinks_app, observations_app, Hres, Hobs, Hu, Ho.
      split_and!; try done. by apply tidy_app.
    + destruct (negb _ && negb _); go_prog; by repeat constructor.
  - destruct (topk_remove_spec _ (Key e) Hv) as (hk & -> & Hhk & _ & Hhot). go_prog.
    rewrite unlinks_app, observations_app, Hobs. split_and!; try done.
    + apply tidy_app; [done|]. apply tidy_neutral. by repeat constructor.
    + rewrite app_nil_r. inversion Hres; subst. eexists (_, _). split; [done|]. by eexists _, _.
Qed.

(** The loop body, all branches *)
Lemma visit_spec e v : topk_inv (v_heat v) →
  holds (visit c p now del e v) (λ tr r,
    tidy tr ∧ topk_inv (v_heat r.1) ∧ (del = false → tr = []) ∧ outcome v r.1 tr r.2 ∧
    (skipped v r.1 tr ∧ r.2 = Continue ∨
     taken e v r.1 tr ∧ (r.2 = Continue → pressure_remains r.1 tr))).
Proof.
  intros Hv. unfold visit. destruct (eligible p now (v_actionCacheBytes v) e) eqn:Hel; cbn [negb]; last first.
  { apply holds_ret. split_and!; try done. by left. }
  apply holds_bind. eapply holds_impl; [|apply (delete_victim_spec e v Hv)].
  intros tr1 d (Ht1 & Hd1 & Hd). destruct d as [v1|]; last first.
  { apply holds_ret. rewrite app_nil_r. split_and!; try done. by left. }
  destruct Hd as (Hv1 & Hc & Ha & Hp & He & Hsame & Hheat & Hobs & Hunl).
  assert (∀ v' tr2, Forall silent tr2 → same_core (account e v1) v' →
    (del = false → v' = account e v1) →
    tidy (tr1 ++ tr2) ∧ topk_inv (v_heat v') ∧ taken e v v' (tr1 ++ tr2)) as Htaken.
  { intros v' tr2 H2 (Hh' & Hc' & Ha' & Hp') Hs'. cbn in Hh', Hc', Ha', Hp'.
    destruct (silent_facts tr2 H2) as (Ht2 & Hu2 & Ho2 & _). split_and!.
    - by apply tidy_app.
    - by rewrite Hh'.
    - split; rewrite ?Hh', ?Hc', ?Ha', ?Hp', ?Hc, ?Ha, ?Hp, ?unlinks_app, ?observations_app,
        ?Hu2, ?Ho2, ?app_nil_r; try done.
      intros Hdel. by rewrite (Hs' Hdel), (Hsame Hdel). }
  destruct (del && (CleanupBatchSize p <=? v_deletedSince (account e v1))) eqn:Hbatch.
  - apply andb_true_iff in Hbatch as [Hdel _].
    apply holds_bind. eapply holds_impl; [|apply GetDiskUsage_measures]. intros tr2 usage [H2 Hm].
    destruct usage as [[[pct free] used]|err].
    + specialize (Hm _ _ _ eq_refl). apply (measured_app_r _ tr1) in Hm.
      eapply holds_impl; [|apply (check_pressure_spec _ _ (tr1 ++ tr2)); by right].
      intros tr3 [v' next] (H3 & _ & Hcore & Hout & Hrem). rewrite <-app_assoc in *.
      destruct (Htaken v' (tr2 ++ tr3)) as (? & ? & ?); [by apply Forall_app|done|congruence|].
      split_and!; [done|done|by rewrite Hdel| |by right].
      cbn [fst snd] in *. unfold outcome in *. by rewrite <-He.
    + go_prog. cbn [fst snd].
      destruct (Htaken (account e v1) (tr2 ++ [ev (CLogError "Stopping cleanup after disk usage refresh failed") r]))
        as (? & ? & ?); [apply Forall_app; split; [done|by repeat constructor]|done|done|].
      split_and!; [done|done|by rewrite Hdel| |by right].
      cbn. right. split_and!; [done| |done].
      eexists. destruct r. apply elem_of_app. right. apply elem_of_app. right. by left.
  - eapply holds_impl; [|apply (check_pressure_spec _ _ tr1); by left].
    intros tr3 [v' next] (H3 & Hd3 & Hcore & Hout & Hrem). cbn [fst snd] in *.
    destruct (Htaken v' tr3) as (? & ? & ?); [done|done|intros Hdel; by destruct (Hd3 Hdel)|].
    split_and!; [done|done| | |by right].
    + intros Hdel. destruct (Hd3 Hdel) as [-> _]. by rewrite Hd1.
    + unfold outcome in *. by rewrite <-He.
Qed.

(** ** What the whole loop does *)

Definition cache_after (x : Z) (vs : list EntryInfo) : Z := foldl (λ x e, i64 (x - Size e)) x vs.
Definition action_after (x : Z) (vs : list EntryInfo) : Z :=
  foldl (λ x e, if bool_decide (Kind e = ActionCache) then i64 (x - Size e) else x) x vs.
Definition projected_after (x : Z) (vs : list EntryInfo) : Z := foldl (λ x e, i64 (x + Size e)) x vs.
Definition heat_after (m : gmap string Z) (vs : list EntryInfo) : gmap string Z :=
  foldl (λ m e, delete (Key e) m) m vs.
Definition account_all v (vs : list EntryInfo) : victims T := foldl (λ v e, account e v) v vs.

(** From [v] to [v'], having done [tr], the loop over [entries] chose [vs]. *)
Record selection (entries : list EntryInfo) v v' (tr : trace) (vs : list EntryInfo) : Prop := {
  sel_order : sublist vs entries;
  sel_eligible pre e post : vs = (pre ++ e :: post)%list →
    eligible p now (action_after (v_actionCacheBytes v) pre) e = true;
  sel_cache : v_cacheBytes v' = cache_after (v_cacheBytes v) vs;
  sel_action : v_actionCacheBytes v' = action_after (v_actionCacheBytes v) vs;
  sel_projected : v_projected v' = projected_after (v_projected v) vs;
  sel_heat : if del then topk_hot (v_heat v') = heat_after (topk_hot (v_heat v)) vs
             else v_heat v' = v_heat v;
  sel_seen : observations tr =
    if del then (λ e, RecordDeleted (Kind e) (Size e)) <$> vs else [];
  sel_unlinked : if del then Forall2 unlinked_entry vs (unlinks tr) else tr = [];
  sel_evicting : v_evicting v' = v_evicting v ∨
    (del = true ∧ v_evicting v' = false ∧ targets_met v' tr);
  sel_shadow : del = false → v' = account_all v vs;
  sel_needed pre e post : del = false → vs = (pre ++ e :: post)%list → pre ≠ [] →
    nextEvicting p true (mkPressure (simulated_percent (account_all v pre))
      (v_cacheBytes (account_all v pre))) = true
}.

Lemma targets_met_app v tr1 tr2 : targets_met v tr2 → targets_met v (tr1 ++ tr2).
Proof.
  intros (pct & Hs & Hn). exists pct. split; [|done]. unfold seen_percent in *.
  destruct del; [by apply measured_app_r|done].
Qed.

Lemma selection_nil entries v : selection entries v v [] [].
Proof.
  split; try done.
  - apply sublist_nil_l.
  - intros pre e post Heq. by destruct pre.
  - by destruct del.
  - by destruct del.
  - by destruct del.
  - by left.
  - intros pre e post _ Heq. by destruct pre.
Qed.

(** A turn that skips its entry *)
Lemma selection_skip e entries v v' tr1 tr vs : (del = false → tr1 = []) →
  unlinks tr1 = [] → observations tr1 = [] →
  selection entries v v' tr vs → selection (e :: entries) v v' (tr1 ++ tr) vs.
Proof.
  intros Hd Hu Ho []. split; try done.
  - by apply sublist_cons.
  - by rewrite observations_app, Ho.
  - destruct del; [by rewrite unlinks_app, Hu|]. by rewrite Hd.
  - destruct sel_evicting0 as [?|(?&?&?)]; [by left|right]. split_and!; try done.
    by apply targets_met_app.
Qed.

(** A turn whose entry is a victim, followed by the rest of the loop *)
Lemma selection_take e entries v v1 v' tr1 tr vs : (del = false → tr1 = []) →
  taken e v v1 tr1 → v_evicting v1 = v_evicting v → pressure_remains v1 tr1 →
  selection entries v1 v' tr vs → selection (e :: entries) v v' (tr1 ++ tr) (e :: vs).
Proof.
  intros Hd [] He1 (pct & _ & Hpct & Hnext) []. split.
  - by apply sublist_skip.
  - intros pre e0 post Heq. destruct pre as [|e1 pre]; simplify_eq/=; [done|].
    rewrite <-taken_action0. by eapply sel_eligible0.
  - cbn. by rewrite <-taken_cache0.
  - cbn. by rewrite <-taken_action0.
  - cbn. by rewrite <-taken_projected0.
  - destruct del; cbn; [by rewrite <-taken_heat0|by rewrite <-taken_heat0].
  - rewrite observations_app, taken_seen0, sel_seen0. by destruct del.
  - destruct del; [|by rewrite Hd].
    destruct taken_unlinked0 as (u & Hu & Hue). rewrite unlinks_app, Hu. by constructor.
  - rewrite <-He1. destruct sel_evicting0 as [?|(?&?&?)]; [by left|right]. split_and!; try done.
    by apply targets_met_app.
  - intros Hdel. cbn. rewrite <-(taken_shadow0 Hdel). by apply sel_shadow0.
  - intros pre e0 post Hdel Heq Hne. destruct pre as [|e1 pre]; simplify_eq/=.
    rewrite <-(taken_shadow0 Hdel). destruct pre as [|e2 pre]; [|by eapply sel_needed0].
    cbn. by rewrite <-(Hpct Hdel).
Qed.

(** A turn whose entry is the last victim *)
Lemma selection_last e entries v v1 tr1 : (del = false → tr1 = []) →
  taken e v v1 tr1 → outcome v v1 tr1 Stop → selection (e :: entries) v v1 tr1 [e].
Proof.
  intros Hd [] Hout. split; cbn; try done.
  - apply sublist_skip, sublist_nil_l.
  - intros pre e0 post Heq. destruct pre as [|e1 [|]]; by simplify_eq/=.
  - destruct del; [|by rewrite Hd].
    destruct taken_unlinked0 as (u & Hu & Hue). rewrite Hu. by repeat constructor.
  - destruct Hout as [[Hm He]|(Hdel & _ & He)]; [|by left].
    destruct del eqn:Hdel; [right; by split_and!|by left].
  - intros pre e0 post _ Heq Hne. by destruct pre as [|e1 [|]]; simplify_eq/=.
Qed.

Lemma victims_loop_spec entries v : topk_inv (v_heat v) →
  holds (victims_loop c p now del entries v) (λ tr v',
    tidy tr ∧ topk_inv (v_heat v') ∧ ∃ vs, selection entries v v' tr vs).
Proof.
  revert v. induction entries as [|e entries IH]; intros v Hv; cbn [victims_loop].
  { apply holds_ret. split_and!; [apply tidy_nil|done|]. exists []. apply selection_nil. }
  apply holds_bind. eapply holds_impl; [|apply (visit_spec e v Hv)].
  intros tr1 [v1 next] (Ht1 & Hv1 & Hd1 & Hout & Hcase). cbn [fst snd] in *.
  destruct next.
  - eapply holds_impl; [|by apply (IH v1)]. intros tr v' (Ht & Hv' & vs & Hsel).
    split_and!; [by apply tidy_app|done|].
    destruct Hcase as [[(-> & Hu & Ho) _]|[Htk Hrem]].
    + exists vs. by apply selection_skip.
    + exists (e :: vs). apply (selection_take _ _ _ v1); try done. by apply Hrem.
  - apply holds_ret. rewrite app_nil_r. split_and!; [done|done|].
    destruct Hcase as [[_ ?]|[Htk _]]; [done|]. exists [e]. by apply selection_last.
Qed.
End turn.

(** ** The order of the victims *)

Definition cold_key (heat : gmap string Z) (e : EntryInfo) : Z * Z * Z :=
  (heat_of heat e, ModTime e, - Size e).

Lemma colder_key heat a b : colder heat a b = true ↔ key_lt (cold_key heat a) (cold_key heat b).
Proof.
  unfold colder, key_lt, cold_key. cbn [fst snd]. cbv zeta.
  destruct (Z.eqb_spec (heat_of heat a) (heat_of heat b)) as [Hh|Hh]; cbn [negb].
  - destruct (Z.eqb_spec (ModTime a) (ModTime b)) as [Hm|Hm]; cbn [negb];
      rewrite Z.ltb_lt; lia.
  - rewrite Z.ltb_lt. lia.
Qed.

#[local] Instance colder_order heat : StrictWeakOrder (colder heat).
Proof.
  split.
  - intros a. apply not_true_iff_false. rewrite colder_key. unfold key_lt. lia.
  - intros a b d. rewrite !colder_key. unfold key_lt. lia.
  - intros a b d. rewrite !colder_key. unfold key_lt. lia.
Qed.

(** The order of deletion, by its three criteria: [a] may go before [b] if it has less
    heat; with the same heat, if it is older; and with the same age too, unless it is
    smaller.  An entry that is not hot has no heat. *)
Definition goes_first (heat : gmap string Z) (a b : EntryInfo) : Prop :=
  let h e := default 0 (heat !! Key e) in
  h a < h b ∨ h a = h b ∧ (ModTime a < ModTime b ∨ ModTime a = ModTime b ∧ Size b <= Size a).

Lemma not_after_goes_first heat es :
  StronglySorted (not_after (colder heat)) es → StronglySorted (goes_first heat) es.
Proof.
  induction 1 as [|a es _ IH Ha]; constructor; [done|]. eapply Forall_impl; [exact Ha|].
  intros b Hb. unfold not_after in Hb. apply not_true_iff_false in Hb. rewrite colder_key in Hb.
  unfold key_lt, cold_key, heat_of in Hb. cbn [fst snd] in Hb. unfold goes_first. cbv zeta. lia.
Qed.

Lemma heat_map_snoc l it : heat_map (l ++ [it]) = <[Item_Key it:=Item_Count it]> (heat_map l).
Proof. unfold heat_map. by rewrite foldl_app. Qed.

Lemma heat_map_hot l m : item_pair <$> l ≡ₚ map_to_list m → heat_map l = m.
Proof.
  intros Hp.
  assert (heat_map l = list_to_map (reverse (item_pair <$> l))) as ->.
  { clear Hp. induction l as [|it l IH] using rev_ind; [done|].
    rewrite heat_map_snoc, IH, fmap_app. cbn. by rewrite reverse_snoc. }
  rewrite <-(list_to_map_to_list m). apply list_to_map_proper.
  - rewrite fmap_reverse, reverse_Permutation, Hp. apply NoDup_fst_map_to_list.
  - by rewrite reverse_Permutation.
Qed.

(** ** The whole selection *)

Definition victims_start n (entries : list EntryInfo) (bytesFree bytesUsed : Z) : victims T :=
  mkVictims (heavykeeper n) (evicting n) (totalBytes entries) (bytesByKind entries ActionCache)
    0 0 0 bytesFree bytesUsed.

Lemma selectVictims_run n entries now bytesFree bytesUsed del : topk_inv (heavykeeper n) →
  holds (selectVictims n entries now bytesFree bytesUsed del) (λ tr r,
    ∃ sorted v' vs, sorted ≡ₚ entries ∧
      StronglySorted (not_after (colder (topk_hot (heavykeeper n)))) sorted ∧
      selection (cache n) (policy n) now del sorted
        (victims_start n sorted bytesFree bytesUsed) v' tr vs ∧
      r = (v_projected v', set_heat n (v_heat v') (v_evicting v')) ∧
      tidy tr ∧ topk_inv (v_heat v')).
Proof.
  intros Hn. unfold selectVictims.
  destruct (topk_list_spec _ Hn) as (items & -> & Hp & _). go_prog.
  rewrite (heat_map_hot _ _ Hp).
  eapply holds_impl; [|by apply victims_loop_spec].
  intros tr v' (Ht & Hv & vs & Hsel). apply holds_ret. rewrite app_nil_r.
  eexists _, v', vs. split_and!; [apply go_sort_perm|apply go_sort_sorted, _|exact Hsel|done..].
Qed.

(** ** Byte counts that do not wrap *)

Fixpoint sum_sizes (es : list EntryInfo) : Z :=
  match es with [] => 0 | e :: es => Size e + sum_sizes es end.
Definition of_kind (k : EntryKind) (es : list EntryInfo) : list EntryInfo :=
  filter (λ e, Kind e = k) es.
Definition sizes_ok (es : list EntryInfo) : Prop :=
  Forall (λ e, 0 <= Size e) es ∧ sum_sizes es < 2 ^ 63.

Lemma sum_sizes_perm es es' : es ≡ₚ es' → sum_sizes es = sum_sizes es'.
Proof. induction 1; cbn; lia. Qed.

Lemma sum_sizes_nonneg es : Forall (λ e, 0 <= Size e) es → 0 <= sum_sizes es.
Proof. induction 1; cbn; lia. Qed.

Lemma sum_sizes_sublist es es' : sublist es es' → Forall (λ e, 0 <= Size e) es' →
  sum_sizes es <= sum_sizes es'.
Proof.
  induction 1 as [|x l1 l2 _ IH|x l1 l2 _ IH]; intros Hall; [done| |];
    apply Forall_cons in Hall as [? Hall]; specialize (IH Hall); cbn; lia.
Qed.

Lemma sum_kind_le k es : Forall (λ e, 0 <= Size e) es →
  0 <= sum_sizes (of_kind k es) <= sum_sizes es.
Proof.
  intros Hall. split.
  - apply sum_sizes_nonneg. rewrite Forall_forall in *. intros e He.
    apply Hall. by apply list_elem_of_filter in He as [_ ?].
  - apply sum_sizes_sublist; [|done]. apply sublist_filter.
Qed.

Lemma sum_kind_sublist k es es' : sublist es es' → Forall (λ e, 0 <= Size e) es' →
  sum_sizes (of_kind k es) <= sum_sizes (of_kind k es').
Proof.
  unfold of_kind. induction 1 as [|x l1 l2 _ IH|x l1 l2 _ IH]; intros Hall; [done| |];
    apply Forall_cons in Hall as [? Hall]; specialize (IH Hall); rewrite !filter_cons;
    case_decide; cbn [sum_sizes]; lia.
Qed.

Lemma sum_kind_perm k es es' : es ≡ₚ es' → sum_sizes (of_kind k es) = sum_sizes (of_kind k es').
Proof. intros Hp. apply sum_sizes_perm. unfold of_kind. by rewrite Hp. Qed.

Lemma kind_loop_sum k es x : Forall (λ e, 0 <= Size e) es → 0 <= x →
  x + sum_sizes es < 2 ^ 63 → kind_loop k es x = x + sum_sizes (of_kind k es).
Proof.
  intros Hall. revert x. induction Hall as [|e es He Hes IH]; intros x Hx Hs; cbn [kind_loop sum_sizes] in *;
    [cbn; lia|].
  unfold of_kind. rewrite filter_cons. pose proof (sum_sizes_nonneg es Hes).
  case_bool_decide as Hk.
  - rewrite decide_True by done. rewrite i64_id by (unfold in_i64; lia). cbn [sum_sizes].
    rewrite IH by lia. unfold of_kind. lia.
  - rewrite decide_False by done. apply IH; lia.
Qed.

Lemma bytesByKind_sum k es : sizes_ok es → bytesByKind es k = sum_sizes (of_kind k es).
Proof. intros [Hall Hs]. unfold bytesByKind. by rewrite kind_loop_sum by lia || done. Qed.

Lemma action_after_sum x vs : Forall (λ e, 0 <= Size e) vs →
  sum_sizes (of_kind ActionCache vs) <= x < 2 ^ 63 →
  action_after x vs = x - sum_sizes (of_kind ActionCache vs).
Proof.
  intros Hall. revert x. induction Hall as [|e vs He Hvs IH]; intros x Hx; [cbn in *; lia|].
  change (action_after x (e :: vs)) with (action_after
    (if bool_decide (Kind e = ActionCache) then i64 (x - Size e) else x) vs).
  unfold of_kind in *. rewrite filter_cons in *.
  pose proof (sum_kind_le ActionCache vs Hvs) as Hk. unfold of_kind in Hk.
  case_bool_decide as Hkind.
  - rewrite decide_True in * by done. cbn [sum_sizes] in *. rewrite i64_id by (unfold in_i64; lia).
    rewrite IH by lia. lia.
  - rewrite decide_False in * by done. apply IH. lia.
Qed.

(** The floor under the action cache, along a run of victims *)
Lemma floor_kept p now x vs : Forall (λ e, 0 <= Size e) vs →
  (∀ pre e post, vs = (pre ++ e :: post)%list → eligible p now (action_after x pre) e = true) →
  of_kind ActionCache vs = [] ∨ MinActionCacheBytes p <= action_after x vs.
Proof.
  intros _. induction vs as [|e vs IH] using rev_ind; intros Hel; [by left|].
  pose proof (Hel vs e [] eq_refl) as He. unfold action_after. rewrite foldl_app. cbn [foldl].
  fold (action_after x vs). unfold of_kind. rewrite filter_app.
  case_bool_decide as Hk.
  - right. unfold eligible in He. rewrite bool_decide_true in He by done.
    apply andb_true_iff in He as [_ He]. cbn [andb] in He.
    apply negb_true_iff, Z.ltb_ge in He. done.
  - rewrite (filter_cons_False _ e []) by done. rewrite app_nil_r. apply IH.
    intros pre e0 post ->. apply (Hel pre e0 (post ++ [e])). by rewrite <-app_assoc.
Qed.

Lemma selected_old c p now del sorted v v' tr vs : selection c p now del sorted v v' tr vs →
  Forall (λ e, ModTime e <= now - MinimumResidence p) vs.
Proof.
  intros Hsel. apply Forall_forall. intros e Hin.
  apply list_elem_of_split in Hin as (pre & post & ->).
  pose proof (sel_eligible _ _ _ _ _ _ _ _ _ Hsel pre e post eq_refl) as He.
  apply andb_true_iff in He as [He _]. apply negb_true_iff, Z.ltb_ge in He. done.
Qed.

Lemma selectVictims_shadow n entries now bytesFree bytesUsed : topk_inv (heavykeeper n) →
  holds (selectVictims n entries now bytesFree bytesUsed false) (λ tr r,
    tr = [] ∧ r.2 = n).
Proof.
  intros Hn. eapply holds_impl; [|by apply selectVictims_run].
  intros tr r (sorted & v' & vs & _ & _ & [] & -> & _ & _). split; [done|]. cbn.
  destruct sel_evicting0 as [He|[? _]]; [|done]. cbn in *. rewrite sel_heat0, He. by destruct n.
Qed.

Lemma projected_after_sum vs x : projected_after (i64 x) vs = i64 (x + sum_sizes vs).
Proof.
  revert x. induction vs as [|e vs IH]; intros x; cbn [sum_sizes]; [by rewrite Z.add_0_r|].
  change (projected_after (i64 x) (e :: vs)) with (projected_after (i64 (i64 x + Size e)) vs).
  rewrite i64_add, IH. f_equal. lia.
Qed.

(** ** The claims about the victims *)

(** C15. [selectVictims] picks its victims among the entries it was given, each at
    most once, in order of coldness (least heat first, then oldest, then largest),
    and only entries older than the minimum residence.  When deleting, the files
    unlinked and the deletions reported are exactly the victims, in that order, and
    exactly the victims leave the heat model; when projecting, nothing is called
    and the heat model is untouched.  The number returned is the victims' total size,
    as an [int64]. *)
Theorem victims_coldest_first n entries now bytesFree bytesUsed del :
  topk_inv (heavykeeper n) →
  holds (selectVictims n entries now bytesFree bytesUsed del) (λ tr r, ∃ vs,
    vs ⊆+ entries ∧
    StronglySorted (goes_first (topk_hot (heavykeeper n))) vs ∧
    Forall (λ e, ModTime e <= now - MinimumResidence (policy n)) vs ∧
    r.1 = i64 (sum_sizes vs) ∧
    if del then
      Forall2 unlinked_entry vs (unlinks tr) ∧
      observations tr = (λ e, RecordDeleted (Kind e) (Size e)) <$> vs ∧
      topk_hot (heavykeeper r.2) = heat_after (topk_hot (heavykeeper n)) vs
    else tr = [] ∧ heavykeeper r.2 = heavykeeper n ∧ evicting r.2 = evicting n).
Proof.
  intros Hn. eapply holds_impl; [|by apply selectVictims_run].
  intros tr r (sorted & v' & vs & Hperm & Hsort & Hsel & -> & _ & _). exists vs.
  pose proof (selected_old _ _ _ _ _ _ _ _ _ Hsel) as Hold. destruct Hsel. split_and!.
  - rewrite <-Hperm. by apply sublist_submseteq.
  - by eapply StronglySorted_sublist, not_after_goes_first.
  - done.
  - cbn. rewrite sel_projected0. apply (projected_after_sum vs 0).
  - destruct del; [done|]. split_and!; [done|done|]. cbn.
    destruct sel_evicting0 as [?|[? _]]; done.
Qed.

(** C14. The protected action-cache budget is kept: whatever a deletion pass removes,
    either it removes no action-cache entry at all or the action-cache entries it
    leaves total at least [MinActionCacheBytes], as long as the sizes of the entries
    are not negative and their sum does not overflow an int64. *)
Theorem action_cache_floor n entries now bytesFree bytesUsed :
  topk_inv (heavykeeper n) → sizes_ok entries →
  holds (selectVictims n entries now bytesFree bytesUsed true) (λ tr r, ∃ vs,
    vs ⊆+ entries ∧ Forall2 unlinked_entry vs (unlinks tr) ∧
    (of_kind ActionCache vs = [] ∨
     MinActionCacheBytes (policy n) <=
       sum_sizes (of_kind ActionCache entries) - sum_sizes (of_kind ActionCache vs))).
Proof.
  intros Hn [Hpos Hsum]. eapply holds_impl; [|by apply selectVictims_run].
  intros tr r (sorted & v' & vs & Hperm & _ & Hsel & _). exists vs. destruct Hsel.
  assert (Forall (λ e, 0 <= Size e) sorted) as Hpos' by (by rewrite Hperm).
  assert (sizes_ok sorted) as Hok by (split; [done|by rewrite (sum_sizes_perm _ _ Hperm)]).
  assert (Forall (λ e, 0 <= Size e) vs) as Hvs.
  { rewrite Forall_forall in *. intros e He. apply Hpos', (elem_of_sublist vs); done. }
  split_and!; [rewrite <-Hperm; by apply sublist_submseteq|done|].
  assert (sum_sizes (of_kind ActionCache vs) <= sum_sizes (of_kind ActionCache sorted)) as Hle.
  { by apply sum_kind_sublist. }
  destruct (floor_kept (policy n) now _ vs Hvs sel_eligible0) as [?|Hfloor]; [by left|right].
  cbn in Hfloor. rewrite bytesByKind_sum in Hfloor by done.
  rewrite action_after_sum in Hfloor; [|done|].
  - by rewrite <-(sum_kind_perm _ _ _ Hperm).
  - pose proof (sum_kind_le ActionCache sorted Hpos'). destruct Hok as [_ ?]. lia.
Qed.

(** ** The gates of the cycle *)

(** A trace whose deletions happen under the lease, which is given up at its end;
    and it deletes only if [C]. *)
Definition guarded (C : Prop) (tr : trace) : Prop :=
  (fds_fresh [] tr → unlinks_locked [] tr ∧ locks [] tr = []) ∧ (unlinks tr ≠ [] → C).

Lemma neutral_facts tr : Forall neutral tr → unlinks tr = [] ∧
  ∀ held, locks held tr = held ∧ unlinks_locked held tr ∧ ∀ open, opens_after open tr = open.
Proof.
  unfold unlinks, locks, opens_after.
  induction 1 as [|e tr (Ho & Hc & Hu & Hl) _ (IH1 & IH2)]; [done|].
  cbn [omap list_omap foldl unlinks_locked]. rewrite Hu. split; [done|]. intros held.
  rewrite Hl. destruct (IH2 held) as (? & ? & ?). split_and!; try done.
  intros open. unfold open_step at 2. by rewrite Ho, Hc.
Qed.

Lemma guarded_neutral C tr : Forall neutral tr → guarded C tr.
Proof.
  intros Htr. destruct (neutral_facts tr Htr) as [Hu Hh]. destruct (Hh []) as (? & ? & _).
  split; [done|]. by rewrite Hu.
Qed.

Lemma guarded_app C tr1 tr2 : Forall neutral tr1 → guarded C tr2 → guarded C (tr1 ++ tr2).
Proof.
  intros Htr [H1 H2]. destruct (neutral_facts tr1 Htr) as [Hu Hh].
  destruct (Hh []) as (Hl & Hul & Ho). split.
  - intros [_ Hf]%fds_fresh_app. rewrite Ho in Hf. destruct (H1 Hf) as [? ?].
    rewrite unlinks_locked_app, locks_app, Hl. done.
  - by rewrite unlinks_app, Hu.
Qed.

Lemma guarded_bind {A B} (p : prog A) (f : A → prog B) C :
  holds p (λ tr _, Forall neutral tr) → (∀ a, holds (f a) (λ tr _, guarded C tr)) →
  holds (p ≫= f) (λ tr _, guarded C tr).
Proof.
  intros Hp Hf. apply holds_bind. eapply holds_impl; [|exact Hp]. intros tr a Htr.
  eapply holds_impl; [|apply Hf]. intros tr' b. by apply guarded_app.
Qed.

Lemma silent_neutral tr : Forall silent tr → Forall neutral tr.
Proof. intros Htr. eapply Forall_impl; [exact Htr|]. by intros e []. Qed.

Lemma GetEntries_neutral c : holds (GetEntries getwd c) (λ tr _, Forall neutral tr).
Proof.
  eapply holds_impl; [|apply GetEntries_run].
  intros tr res [Htr _]. by apply silent_neutral, reads_only_silent.
Qed.

Lemma GetDiskUsage_neutral c : holds (GetDiskUsage (diskRoot c)) (λ tr _, Forall neutral tr).
Proof. eapply holds_impl; [|apply GetDiskUsage_measures]. intros tr res [Htr _]. by apply silent_neutral. Qed.

Lemma observe_neutral o : holds (observe o) (λ tr _, Forall neutral tr).
Proof. unfold observe. go_prog. by repeat constructor. Qed.

Lemma log_neutral what : holds (log_error what) (λ tr _, Forall neutral tr).
Proof. unfold log_error. go_prog. by repeat constructor. Qed.

Lemma guarded_ret {A} (a : A) C : holds (Ret a) (λ tr _, guarded C tr).
Proof. apply holds_ret, guarded_neutral. constructor. Qed.

Lemma cleanup_locked_tidy n now : topk_inv (heavykeeper n) →
  holds (cleanup_locked getwd n now) (λ tr _, tidy tr).
Proof.
  intros Hn. unfold cleanup_locked. apply holds_bind.
  eapply holds_impl; [|apply GetEntries_neutral]. intros tr1 entries H1%tidy_neutral.
  destruct entries as [entries|]; [|apply holds_ret; by rewrite app_nil_r].
  apply holds_bind. eapply holds_impl; [|apply GetDiskUsage_neutral].
  intros tr2 usage H2%tidy_neutral.
  destruct usage as [[[pct free] used]|]; [|apply holds_ret; rewrite app_nil_r; by apply tidy_app].
  destruct (negb _); [apply holds_ret; rewrite app_nil_r; by apply tidy_app|].
  apply holds_bind. eapply holds_impl; [|by apply selectVictims_run].
  intros tr3 [projected n'] (_ & _ & _ & _ & _ & _ & _ & H3 & _). apply holds_ret.
  rewrite app_nil_r. by do 2 (apply tidy_app; [done|]).
Qed.

(** The leased part: the lock taken, work that keeps it, the lock released. *)
Lemma guarded_leased (C : Prop) path f tr r1 r2 tr' : tidy tr → Forall neutral tr' → C →
  guarded C ([ev (COpenLock path) (Ok f); ev (CFlockExclusive f) (Ok tt)] ++ tr ++
             [ev (CFlockUnlock f) r1; ev (CClose f) r2] ++ tr').
Proof.
  intros Htr Htr' HC. split; [|done].
  intros [_ [Hf _]%fds_fresh_app]%fds_fresh_app.
  destruct (Htr [f] f) as (Hl & Hu & _); [by left|exact Hf|].
  assert (locks [f] [ev (CFlockUnlock f) r1; ev (CClose f) r2] = []) as Hlr.
  { unfold locks. destruct r1 as [[]|]; cbn; repeat case_decide; done. }
  destruct (neutral_facts tr' Htr') as [_ Hn]. destruct (Hn []) as (Hln & Hun & _).
  rewrite !unlinks_locked_app, !locks_app.
  change (locks [] [ev (COpenLock path) (Ok f); ev (CFlockExclusive f) (Ok tt)]) with [f].
  rewrite Hl, Hlr. split; [|done].
  split; [|split; [done|split; [|done]]]; cbn; by split_and!; try by intros [].
Qed.

(** The condition under which a cycle deletes *)
Definition may_delete_now n now : Prop :=
  ready n = true ∧ warmUntil n <= now ∧ Shadow (policy n) = false.

Lemma cleanup_run n now : topk_inv (heavykeeper n) →
  holds (cleanup getwd n now) (λ tr _, guarded (may_delete_now n now) tr).
Proof.
  intros Hn. set (C := may_delete_now n now). unfold cleanup.
  apply guarded_bind; [apply observe_neutral|intros _].
  apply guarded_bind; [apply GetEntries_neutral|intros [entries|]]; [|apply guarded_ret].
  apply guarded_bind; [apply GetDiskUsage_neutral|intros [[[pct free] used]|]]; [|apply guarded_ret].
  do 2 (apply guarded_bind; [apply observe_neutral|intros _]).
  set (n1 := set_evicting n _). assert (topk_inv (heavykeeper n1)) as Hn1 by done.
  destruct (negb (evicting n1)); [apply guarded_ret|].
  destruct (ready n1) eqn:Hready; cbn [negb]; last first.
  { apply guarded_bind; [apply observe_neutral|intros _; apply guarded_ret]. }
  destruct (Z.ltb_spec now (warmUntil n1)) as [_|Hwarm].
  { apply guarded_bind; [apply observe_neutral|intros _; apply guarded_ret]. }
  destruct (Shadow (policy n1)) eqn:Hshadow.
  { apply guarded_bind.
    - eapply holds_impl; [|by apply selectVictims_shadow]. intros tr r [-> _]. constructor.
    - intros [projected n2]. apply guarded_bind; [apply observe_neutral|intros _; apply guarded_ret]. }
  unfold TryExclusive. go_prog.
  destruct r as [f|e]; [|go_prog; apply guarded_neutral; by repeat constructor].
  go_prog. destruct r as [[]|e]; last first.
  { go_prog. destruct (_ || _); go_prog; (split; [|done]); intros _; (split; [|done]);
      cbn; split_and!; by try intros []. }
  go_prog. eapply holds_impl; [|by apply cleanup_locked_tidy].
  intros tr [err n2] Htr. unfold release. go_prog.
  eapply holds_impl; [|instantiate (1 := λ tr' _, Forall neutral tr');
    destruct (match _ with [] => None | _ => _ end); [apply log_neutral|apply holds_ret; constructor]].
  intros tr' b Htr'. go_prog. rewrite (app_nil_r tr').
  by apply (guarded_leased C _ f tr r r0 tr').
Qed.

(** C3. The gates of a deletion cycle.  Whatever the system answers, a cycle deletes
    only when the watcher is ready, the warm-up is over and shadow mode is off; and
    every file it unlinks, it unlinks while it holds the exclusive activity lock,
    which it has given up when it returns, on every path, errors included. *)
Theorem cleanup_guarded n now : topk_inv (heavykeeper n) →
  holds (cleanup getwd n now) (λ tr res,
    (fds_fresh [] tr → unlinks_locked [] tr ∧ locks [] tr = []) ∧
    (unlinks tr ≠ [] → ready n = true ∧ warmUntil n <= now ∧ Shadow (policy n) = false)).
Proof. apply cleanup_run. Qed.

(** The calls of an observer: it walks and lists directories, looks at files and at the
    file system, and reports. *)
Definition observes_only (e : event) : Prop :=
  match projT1 e with
  | CWalk _ | CReadDir _ | CLstat _ | CStatfs _ | CObserve _ => True
  | _ => False
  end.

Lemma observing_bind {A B} (p : prog A) (f : A → prog B) (P : A → Prop) (Q : B → Prop) :
  holds p (λ tr a, Forall observes_only tr ∧ P a) →
  (∀ a, P a → holds (f a) (λ tr b, Forall observes_only tr ∧ Q b)) →
  holds (p ≫= f) (λ tr b, Forall observes_only tr ∧ Q b).
Proof.
  intros Hp Hf. apply holds_bind. eapply holds_impl; [|exact Hp]. intros tr a [Htr Ha].
  eapply holds_impl; [|by apply Hf]. intros tr' b [Htr' Hb]. split; [by apply Forall_app|done].
Qed.

Lemma GetEntries_observes c : holds (GetEntries getwd c) (λ tr _, Forall observes_only tr ∧ True).
Proof.
  eapply holds_impl; [|apply GetEntries_run]. intros tr res [Htr _]. split; [|done].
  eapply Forall_impl; [exact Htr|]. by intros [[] r].
Qed.

Lemma GetDiskUsage_observes path : holds (GetDiskUsage path) (λ tr _, Forall observes_only tr ∧ True).
Proof. unfold GetDiskUsage. run_prog; split; by repeat constructor. Qed.

Lemma observe_observes o : holds (observe o) (λ tr _, Forall observes_only tr ∧ True).
Proof. unfold observe. go_prog. split; by repeat constructor. Qed.

(** C13. Shadow mode never touches the cache.  All that a shadow cycle does, whatever the
    pressure, is to walk and list the directories of the cache, look at its files and
    at the file system, and report: it takes no lock, and unlinks, removes,
    renames and writes nothing; and it leaves the daemon as it was, its heat included, but for whether
    there is pressure. *)
Theorem shadow_never_deletes n now : topk_inv (heavykeeper n) → Shadow (policy n) = true →
  holds (cleanup getwd n now) (λ tr res,
    Forall observes_only tr ∧ ∃ pressure, res.2 = set_evicting n pressure).
Proof.
  intros Hn Hshadow. unfold cleanup.
  assert (∃ pressure, n = set_evicting n pressure) as Hself by (exists (evicting n); by destruct n).
  apply (observing_bind _ _ (λ _, True)); [apply observe_observes|intros _ _].
  apply (observing_bind _ _ (λ _, True)); [apply GetEntries_observes|intros [entries|] _; [|by split]].
  apply (observing_bind _ _ (λ _, True)); [apply GetDiskUsage_observes|intros [[[pct free] used]|] _; [|by split]].
  do 2 (apply (observing_bind _ _ (λ _, True)); [apply observe_observes|intros _ _]).
  set (n1 := set_evicting n _). assert (topk_inv (heavykeeper n1)) as Hn1 by done.
  assert (∃ pressure, n1 = set_evicting n pressure) as Hself1 by (by eexists).
  destruct (negb (evicting n1)); [by split|].
  destruct (negb (ready n1)).
  { apply (observing_bind _ _ (λ _, True)); [apply observe_observes|by split]. }
  destruct (now <? warmUntil n1).
  { apply (observing_bind _ _ (λ _, True)); [apply observe_observes|by split]. }
  assert (Shadow (policy n1) = true) as -> by done.
  apply (observing_bind _ _ (λ r : Z * Notify T, r.2 = n1)).
  - eapply holds_impl; [|by apply selectVictims_shadow]. intros tr r [-> Hr]. by split.
  - intros [projected n2] Hr. cbn in Hr. subst n2.
    apply (observing_bind _ _ (λ _, True)); [apply observe_observes|by split].
Qed.

Lemma total_loop_sum es x : Forall (λ e, 0 <= Size e) es → 0 <= x →
  x + sum_sizes es < 2 ^ 63 → total_loop es x = x + sum_sizes es.
Proof.
  intros Hall. revert x. induction Hall as [|e es He Hes IH]; intros x Hx Hs;
    cbn [total_loop sum_sizes] in *; [lia|].
  pose proof (sum_sizes_nonneg es Hes). rewrite i64_id by (unfold in_i64; lia).
  rewrite IH by lia. lia.
Qed.

Lemma cache_after_sum x vs : Forall (λ e, 0 <= Size e) vs → sum_sizes vs <= x < 2 ^ 63 →
  cache_after x vs = x - sum_sizes vs.
Proof.
  intros Hall. revert x. induction Hall as [|e vs He Hvs IH]; intros x Hx; [cbn in *; lia|].
  change (cache_after x (e :: vs)) with (cache_after (i64 (x - Size e)) vs).
  cbn [sum_sizes] in *. pose proof (sum_sizes_nonneg vs Hvs).
  rewrite i64_id by (unfold in_i64; lia). rewrite IH by lia. lia.
Qed.

Lemma account_all_usage vs v : v_free (account_all v vs) = v_free v ∧
  v_used (account_all v vs) = v_used v ∧ v_cacheBytes (account_all v vs) = cache_after (v_cacheBytes v) vs ∧
  v_sinceCheck (account_all v vs) = projected_after (v_sinceCheck v) vs.
Proof. revert v. induction vs as [|e vs IH]; intros v; [done|]. exact (IH (account e v)). Qed.

(** The free percentage of a file system with [free] and [used] bytes of which [freed]
    more are freed *)
Definition projected_percent (free used freed : Z) : float64 :=
  f_mul (f_div (f_of_Z (free + freed)) (f_of_Z (free + used))) (f_of_Z 100).

(** C37. A projection selects no more than it must.  After each victim but the last, the
    free percentage that the file system would have with the victims so far deleted
    was still below the target, or the entries left still totalled more than
    [TargetCacheBytes].  (The sizes are those of real files and file systems: none is
    negative, and their sums do not wrap.)  What it returns is the victims' total. *)
Theorem shadow_minimal n entries now bytesFree bytesUsed : topk_inv (heavykeeper n) →
  sizes_ok entries → 0 <= bytesFree → 0 <= bytesUsed → bytesFree + bytesUsed < 2 ^ 64 →
  bytesFree + sum_sizes entries < 2 ^ 64 →
  holds (selectVictims n entries now bytesFree bytesUsed false) (λ tr r, ∃ vs,
    vs ⊆+ entries ∧ r.1 = sum_sizes vs ∧
    ∀ pre e post, vs = (pre ++ e :: post)%list → pre ≠ [] →
      f_lt (projected_percent bytesFree bytesUsed (sum_sizes pre)) (EvictUntilPercentBlocksFree (policy n)) = true ∨
      TargetCacheBytes (policy n) < sum_sizes entries - sum_sizes pre).
Proof.
  intros Hn [Hpos Hsum] Hfree Hused Hdisk Hfreed. eapply holds_impl; [|by apply selectVictims_run].
  intros tr r (sorted & v' & vs & Hperm & _ & [] & -> & _ & _). exists vs.
  assert (Forall (λ e, 0 <= Size e) sorted) as Hpos' by (by rewrite Hperm).
  assert (∀ pre post, vs = (pre ++ post)%list →
    Forall (λ e, 0 <= Size e) pre ∧ 0 <= sum_sizes pre <= sum_sizes entries) as Hpre.
  { intros pre post ->. assert (sublist pre sorted) as Hsub by (etrans; [by apply sublist_inserts_r|done]).
    assert (Forall (λ e, 0 <= Size e) pre) as Hp.
    { rewrite Forall_forall in *. intros e He. apply Hpos', (elem_of_sublist pre); done. }
    pose proof (sum_sizes_sublist _ _ Hsub Hpos') as Hle. rewrite (sum_sizes_perm _ _ Hperm) in Hle.
    pose proof (sum_sizes_nonneg _ Hp). done. }
  split_and!; [rewrite <-Hperm; by apply sublist_submseteq| |].
  - destruct (Hpre vs [] ltac:(by rewrite app_nil_r)) as [_ Hvs]. cbn. rewrite sel_projected0.
    etrans; [apply (projected_after_sum vs 0)|]. apply i64_id. unfold in_i64. lia.
  - intros pre e post Heq Hne. destruct (Hpre pre (e :: post) Heq) as [Hp Hs].
    specialize (sel_needed0 pre e post eq_refl Heq Hne).
    unfold nextEvicting, simulated_percent in sel_needed0. cbn [negb percentBlocksFree cacheBytes] in sel_needed0.
    destruct (account_all_usage pre (victims_start n sorted bytesFree bytesUsed)) as (Hf & Hu & Hc & Hsince).
    rewrite Hf, Hu, Hc, Hsince in sel_needed0. cbn [v_free v_used v_cacheBytes v_sinceCheck victims_start] in sel_needed0.
    change (projected_after 0 pre) with (projected_after (i64 0) pre) in sel_needed0.
    rewrite projected_after_sum in sel_needed0. rewrite (i64_id (0 + _)) in sel_needed0 by (unfold in_i64; lia).
    rewrite !u64_id in sel_needed0 by (unfold in_u64; rewrite ?u64_id; unfold in_u64; lia).
    unfold totalBytes in sel_needed0.
    rewrite (total_loop_sum sorted) in sel_needed0 by (rewrite ?(sum_sizes_perm _ _ Hperm); lia || done).
    rewrite (sum_sizes_perm _ _ Hperm) in sel_needed0.
    rewrite cache_after_sum in sel_needed0 by (lia || done).
    apply orb_true_iff in sel_needed0 as [Hlt|Hlt%Z.ltb_lt]; [left; exact Hlt|right; lia].
Qed.

(** C17. A deletion pass declares the pressure over only on evidence: when it clears
    [evicting], the file system itself answered a free percentage at or above the
    target, and the entries it left total no more than [TargetCacheBytes]. *)
Theorem eviction_ends_on_measurement n entries now bytesFree bytesUsed :
  topk_inv (heavykeeper n) → sizes_ok entries → evicting n = true →
  holds (selectVictims n entries now bytesFree bytesUsed true) (λ tr r,
    evicting r.2 = false → ∃ pct vs,
      measured (cache n) tr pct ∧ f_lt pct (EvictUntilPercentBlocksFree (policy n)) = false ∧
      vs ⊆+ entries ∧ Forall2 unlinked_entry vs (unlinks tr) ∧
      sum_sizes entries - sum_sizes vs <= TargetCacheBytes (policy n)).
Proof.
  intros Hn [Hpos Hsum] Hev. eapply holds_impl; [|by apply selectVictims_run].
  intros tr r (sorted & v' & vs & Hperm & _ & [] & -> & _ & _). cbn. intros Hoff.
  destruct sel_evicting0 as [Hsame|(_ & _ & pct & Hpct & Hmet)].
  { cbn in Hsame. congruence. }
  exists pct, vs. unfold nextEvicting in Hmet. cbn in Hmet.
  apply orb_false_iff in Hmet as [Hfree Hcache%Z.ltb_ge].
  split_and!; [done|done|rewrite <-Hperm; by apply sublist_submseteq|done|].
  assert (Forall (λ e, 0 <= Size e) sorted) as Hpos' by (by rewrite Hperm).
  assert (Forall (λ e, 0 <= Size e) vs) as Hvs.
  { rewrite Forall_forall in *. intros e He. apply Hpos', (elem_of_sublist vs); done. }
  pose proof (sum_sizes_sublist _ _ sel_order0 Hpos') as Hle.
  rewrite (sum_sizes_perm _ _ Hperm) in Hle. pose proof (sum_sizes_nonneg _ Hpos).
  rewrite sel_cache0 in Hcache. cbn in Hcache. unfold totalBytes in Hcache.
  rewrite (total_loop_sum sorted) in Hcache by (rewrite ?(sum_sizes_perm _ _ Hperm); lia || done).
  rewrite (sum_sizes_perm _ _ Hperm) in Hcache.
  rewrite cache_after_sum in Hcache by (lia || done). lia.
Qed.
End cycle.
