(* ===== verification/Eviction.v ===== *)
(** * What an eviction leaves behind (notify.go: selectVictims)

    A deletion pass does not give up early.  When it ends with the pressure still on,
    and every measurement of the disk was answered, it has considered every entry, and each one that is
    still there had a reason to stay. *)

From S2P Require Import Prelude Float64 MinHeapSpec TopkSpec Policy Paths CacheKey System Cache Lease Cleanup.
Local Open Scope Z_scope.

Section eviction.
Context {T : Type} `{!Topk T} `{!TopkLaws T} `{!Sorter} `{!SorterLaws}.
Implicit Types n : Notify T.
Implicit Types v : victims T.

(** A measurement failed: the file system did not answer, or answered that it has no
    blocks. *)
Definition gave_up (tr : trace) : Prop := ∃ path r, ev (CStatfs path) r ∈ tr ∧
  match r with Err _ => True | Ok st => f_blocks st = 0 end.

Lemma GetDiskUsage_fails path : holds (GetDiskUsage path) (λ tr res, ∀ e, res = Err e → gave_up tr).
Proof.
  unfold GetDiskUsage. run_prog; intros e' He; try done; eexists path, _; (split; [by left|]); [|done].
  by apply Z.eqb_eq.
Qed.

(** The deletion of [e] was attempted, and it returned an error. *)
Definition refused (c : Cache) (e : EntryInfo) (tr : trace) : Prop := ∃ tr1 trd tr2 err,
  tr = (tr1 ++ trd ++ tr2)%list ∧ exec (Delete c e) trd (Some err).

Lemma refused_app c e tr1 tr2 : refused c e tr2 → refused c e (tr1 ++ tr2).
Proof. intros (a & d & b & err & -> & Hx). exists (tr1 ++ a)%list, d, b, err. by rewrite <-app_assoc. Qed.

Lemma refused_app_l c e tr1 tr2 : refused c e tr1 → refused c e (tr1 ++ tr2).
Proof. intros (a & d & b & err & -> & Hx). exists a, d, (b ++ tr2)%list, err. by rewrite <-!app_assoc. Qed.

Lemma gave_up_app_r tr1 tr2 : gave_up tr2 → gave_up (tr1 ++ tr2).
Proof. intros (q & r & Hin & Hr). exists q, r. rewrite elem_of_app. tauto. Qed.

Lemma gave_up_app_l tr1 tr2 : gave_up tr1 → gave_up (tr1 ++ tr2).
Proof. intros (q & r & Hin & Hr). exists q, r. rewrite elem_of_app. tauto. Qed.

Section turn.
Context (c : Cache) (p : EvictionPolicy) (now : Z).

Lemma check_pressure_stops v pct : holds (check_pressure c p true v pct) (λ tr r,
  r.2 = Stop → v_evicting r.1 = false ∨ gave_up tr).
Proof.
  unfold check_pressure. destruct (nextEvicting _ _ _); [by apply holds_ret|].
  apply holds_bind. eapply holds_impl; [|apply GetDiskUsage_fails]. intros tr usage Hfail.
  destruct usage as [[[actual free] used]|e].
  - destruct (nextEvicting _ _ _); apply holds_ret; [done|]. by left.
  - go_prog. intros _. right. by eapply gave_up_app_l, Hfail.
Qed.

(** Why a turn that unlinks nothing unlinks nothing, and why a turn ends the loop. *)
Lemma visit_reasons e v : topk_inv (v_heat v) → holds (visit c p now true e v) (λ tr r,
  (unlinks tr = [] → eligible p now (v_actionCacheBytes v) e = false ∨ refused c e tr) ∧
  (r.2 = Stop → v_evicting r.1 = false ∨ gave_up tr)).
Proof.
  intros Hv. unfold visit. destruct (eligible p now (v_actionCacheBytes v) e); cbn [negb];
    [|apply holds_ret; split; [by left|done]].
  unfold delete_victim. apply holds_bind, holds_bind.
  eapply holds_impl; [|apply holds_self, Delete_run]. intros trd [err|] [Hx [Hdel _]].
  - apply holds_bind. apply (holds_impl _ (λ _ _, True)).
    + intros tr' _ _. do 2 apply holds_ret. split; [|done]. intros _. right.
      exists [], trd, tr', err. by rewrite !app_nil_r.
    + destruct (negb _ && negb _); [|done]. unfold log_error. by go_prog.
  - assert (unlinks trd ≠ []) as Hne by by inversion Hdel; subst.
    destruct (topk_remove_spec _ (Key e) Hv) as (hk & -> & _).
    apply holds_bind, holds_ret, holds_bind. unfold observe, do_call. apply holds_call. intros r.
    apply holds_ret, holds_ret. set (w := account e _). cbn [andb]. set (tr0 := (trd ++ _)%list).
    assert (∀ tr2 (P : Prop), unlinks (tr0 ++ tr2) = [] → P) as Hcontra.
    { intros tr2 P. subst tr0. rewrite !unlinks_app. intros [[? _]%app_eq_nil _]%app_eq_nil. done. }
    destruct (CleanupBatchSize p <=? v_deletedSince w).
    + apply holds_bind. eapply holds_impl; [|apply GetDiskUsage_fails]. intros tr2 usage Hfail.
      destruct usage as [[[pct free] used]|err].
      * eapply holds_impl; [|apply check_pressure_stops]. intros tr3 [v' next] Hstop. cbn [fst snd] in *.
        split; [apply Hcontra|]. intros [?|?]%Hstop; [by left|right]. by do 2 apply gave_up_app_r.
      * go_prog. split; [apply Hcontra|]. intros _. right. by eapply gave_up_app_r, gave_up_app_l, Hfail.
    + eapply holds_impl; [|apply check_pressure_stops]. intros tr3 [v' next] Hstop. cbn [fst snd] in *.
      split; [apply Hcontra|]. intros [?|?]%Hstop; [by left|right]. by apply gave_up_app_r.
Qed.

(** ** The whole loop *)

(** Why [e] is not among the victims [vs]: it was not eligible when its turn came, or its
    deletion was refused. *)
Definition stays v (tr : trace) (vs : list EntryInfo) (e : EntryInfo) : Prop :=
  e ∈ vs ∨
  (∃ pre post, vs = (pre ++ post)%list ∧
     eligible p now (action_after (v_actionCacheBytes v) pre) e = false) ∨
  refused c e tr.

Definition covers (entries : list EntryInfo) v v' (tr : trace) (vs : list EntryInfo) : Prop :=
  v_evicting v' = true → ¬ gave_up tr → ∀ e, e ∈ entries → stays v tr vs e.

Lemma stays_skip v tr1 tr vs e : stays v tr vs e → stays v (tr1 ++ tr) vs e.
Proof. intros [?|[?|?]]; [by left|by right; left|right; right; by apply refused_app]. Qed.

Lemma stays_take e0 v v1 tr1 tr vs e : taken p now true e0 v v1 tr1 →
  stays v1 tr vs e → stays v (tr1 ++ tr) (e0 :: vs) e.
Proof.
  intros Htk [?|[(pre & post & -> & He)|?]]; [left; by right| |right; right; by apply refused_app].
  right. left. exists (e0 :: pre), post. split; [done|]. cbn. by rewrite <-(taken_action _ _ _ _ _ _ _ Htk).
Qed.

Lemma victims_loop_covers entries v : topk_inv (v_heat v) →
  holds (victims_loop c p now true entries v) (λ tr v', ∃ vs,
    selection c p now true entries v v' tr vs ∧ covers entries v v' tr vs).
Proof.
  revert v. induction entries as [|e entries IH]; intros v Hv; cbn [victims_loop].
  { apply holds_ret. exists []. split; [apply selection_nil|]. by intros _ _ e ?%elem_of_nil. }
  apply holds_bind. eapply holds_impl; [|apply holds_and; [apply (visit_spec c p now true e v Hv)|by apply visit_reasons]].
  intros tr1 [v1 next] [(_ & Hv1 & Hd1 & Hout & Hcase) [Hskip Hstop]]. cbn [fst snd] in *.
  destruct next.
  - eapply holds_impl; [|by apply (IH v1)]. intros tr v' (vs & Hsel & Hcov).
    destruct Hcase as [[(-> & Hu & Ho) _]|[Htk Hrem]].
    + exists vs. split; [by apply selection_skip|]. intros He Hg e' [->|Hin]%elem_of_cons.
      * destruct (Hskip Hu) as [Hel|Hr]; [|right; right; by apply refused_app_l].
        right. left. exists [], vs. by split.
      * apply stays_skip, Hcov; [done| |done]. intros ?. by apply Hg, gave_up_app_r.
    + exists (e :: vs). split; [apply (selection_take c p now true e entries v v1); try done; by apply Hrem|].
      intros He Hg e' [->|Hin]%elem_of_cons; [left; by left|]. apply (stays_take e v v1); [done|].
      apply Hcov; [done| |done]. intros ?. by apply Hg, gave_up_app_r.
  - apply holds_ret. rewrite app_nil_r. destruct Hcase as [[_ ?]|[Htk _]]; [done|]. exists [e].
    split; [by apply selection_last|]. intros He Hg. destruct (Hstop eq_refl) as [Hoff|?]; [congruence|done].
Qed.
End turn.

Lemma selectVictims_covers n entries now bytesFree bytesUsed : topk_inv (heavykeeper n) →
  holds (selectVictims n entries now bytesFree bytesUsed true) (λ tr r,
    ∃ sorted v' vs, sorted ≡ₚ entries ∧
      selection (cache n) (policy n) now true sorted
        (victims_start n sorted bytesFree bytesUsed) v' tr vs ∧
      covers (cache n) (policy n) now sorted (victims_start n sorted bytesFree bytesUsed) v' tr vs ∧
      evicting r.2 = v_evicting v').
Proof.
  intros Hn. unfold selectVictims. destruct (topk_list_spec _ Hn) as (items & -> & Hp & _). go_prog.
  eapply holds_impl; [|by apply victims_loop_covers].
  intros tr v' (vs & Hsel & Hcov). apply holds_ret. rewrite app_nil_r.
  eexists _, v', vs. split_and!; [apply go_sort_perm|exact Hsel|exact Hcov|done].
Qed.

(** ** The claim *)

(** What the action-cache entries that are left total *)
Definition action_left (entries vs : list EntryInfo) : Z :=
  sum_sizes (of_kind ActionCache entries) - sum_sizes (of_kind ActionCache vs).

Lemma action_after_le x pre post : Forall (λ e, 0 <= Size e) (pre ++ post) →
  sum_sizes (of_kind ActionCache (pre ++ post)) <= x < 2 ^ 63 →
  action_after x (pre ++ post) <= action_after x pre <= x ∧ 0 <= action_after x (pre ++ post).
Proof.
  intros Hall Hx. pose proof Hall as [Hpre Hpost]%Forall_app.
  assert (sum_sizes (of_kind ActionCache (pre ++ post)) =
    sum_sizes (of_kind ActionCache pre) + sum_sizes (of_kind ActionCache post)) as Hsum.
  { unfold of_kind. rewrite filter_app. clear. induction (filter _ pre) as [|e l IH]; cbn; lia. }
  pose proof (sum_kind_le ActionCache pre Hpre). pose proof (sum_kind_le ActionCache post Hpost).
  rewrite !action_after_sum by (lia || done). lia.
Qed.

Lemma elem_of_sum_kind e es : Forall (λ e, 0 <= Size e) es → e ∈ es → Kind e = ActionCache →
  Size e <= sum_sizes (of_kind ActionCache es).
Proof.
  intros Hall. induction Hall as [|e' es He' Hes IH]; [by intros ?%elem_of_nil|].
  intros [->|Hin]%elem_of_cons Hk; unfold of_kind; rewrite filter_cons;
    pose proof (sum_kind_le ActionCache es Hes) as Hs; unfold of_kind in *.
  - rewrite decide_True by done. cbn [sum_sizes]. lia.
  - specialize (IH Hin Hk). case_decide; cbn [sum_sizes]; lia.
Qed.

(** C16. An eviction takes all it can.  If a deletion pass ends while the pressure is still
    on, although the file system answered every measurement, then every entry it was
    given and did not delete is younger than the minimum residence, or is an
    action-cache entry without which the action cache would fall below its protected
    budget, or its deletion was attempted and refused. *)
Theorem eviction_exhaustive n entries now bytesFree bytesUsed :
  topk_inv (heavykeeper n) → sizes_ok entries →
  holds (selectVictims n entries now bytesFree bytesUsed true) (λ tr r,
    evicting r.2 = true → ¬ gave_up tr → ∃ vs,
      vs ⊆+ entries ∧ Forall2 unlinked_entry vs (unlinks tr) ∧
      ∀ e, e ∈ entries → e ∈ vs ∨
        now - MinimumResidence (policy n) < ModTime e ∨
        (Kind e = ActionCache ∧ action_left entries vs - Size e < MinActionCacheBytes (policy n)) ∨
        refused (cache n) e tr).
Proof.
  intros Hn [Hpos Hsum]. eapply holds_impl; [|by apply selectVictims_covers].
  intros tr r (sorted & v' & vs & Hperm & Hsel & Hcov & Hev) Hon Hgave. rewrite Hev in Hon.
  exists vs. pose proof (sel_order _ _ _ _ _ _ _ _ _ Hsel) as Hsub.
  split; [rewrite <-Hperm; by apply sublist_submseteq|]. split; [exact (sel_unlinked _ _ _ _ _ _ _ _ _ Hsel)|].
  clear Hsel.
  intros e Hin. rewrite <-Hperm in Hin.
  assert (Forall (λ e, 0 <= Size e) sorted) as Hpos' by (by rewrite Hperm).
  assert (sizes_ok sorted) as Hok by (split; [done|by rewrite (sum_sizes_perm _ _ Hperm)]).
  destruct (Hcov Hon Hgave e Hin) as [?|[(pre & post & -> & Hel)|?]]; [by left| |by right; right; right].
  right. unfold eligible in Hel. apply andb_false_iff in Hel as [Hyoung|Hfloor].
  { left. by apply negb_false_iff, Z.ltb_lt in Hyoung. }
  right. left. apply negb_false_iff, andb_true_iff in Hfloor as [Hkind%bool_decide_eq_true Hfloor%Z.ltb_lt].
  split; [done|]. cbn in Hfloor. rewrite bytesByKind_sum in Hfloor by done.
  set (x := sum_sizes (of_kind ActionCache sorted)) in *.
  assert (Forall (λ e, 0 <= Size e) (pre ++ post)) as Hvs.
  { rewrite Forall_forall in *. intros e' He'. apply Hpos', (elem_of_sublist (pre ++ post)); done. }
  pose proof (sum_kind_sublist ActionCache _ _ Hsub Hpos') as Hle.
  pose proof (sum_kind_le ActionCache sorted Hpos') as Hx. destruct Hok as [_ Hlt].
  destruct (action_after_le x pre post Hvs) as [[Hmono Hpre] Hnn]; [subst x; lia|].
  assert (0 <= Size e <= x) as Hsize.
  { rewrite Forall_forall in Hpos'. split; [by apply Hpos'|]. subst x. 
    apply (elem_of_sum_kind e sorted); [by rewrite Forall_forall|done|done]. }
  rewrite i64_id in Hfloor by (unfold in_i64; lia).
  rewrite action_after_sum in Hmono by (done || subst x; lia).
  unfold action_left. rewrite <-(sum_kind_perm _ _ _ Hperm). fold x. lia.
Qed.
End eviction.
