(* ===== verification/CleanupDemo.v ===== *)
(** * A deletion cycle on a concrete system

    The daemon with the sketch of HeavyKeeper.v on the heap of MinHeap.v, run
    against a toy system with three cached files.  The lemmas instantiate the claims
    of Cleanup.v at this state; the example runs a whole cycle. *)

From S2P Require Import Prelude Float64 MinHeapSpec TopkSpec Policy Paths CacheKey System Cache Lease Cleanup Eviction.
From S2P Require MinHeap HeavyKeeper HeavyKeeperCounts.
Local Open Scope Z_scope.
Local Open Scope string_scope.

#[local] Existing Instances merge_sorter merge_sorter_laws MinHeap.Heap_KeyedHeap
  MinHeap.Heap_KeyedHeapLaws HeavyKeeperCounts.demo_env
  HeavyKeeper.HeavyKeeper_Topk HeavyKeeper.HeavyKeeper_TopkLaws.

Definition sketch : Type := HeavyKeeper.HeavyKeeper MinHeap.Heap.

(** ** The state *)

Definition tail62 : string := "23456789abcdef0123456789abcdef0123456789abcdef0123456789abcdef".
Definition digest_a : string := "aa" ++ tail62.
Definition digest_b : string := "bb" ++ tail62.
Definition digest_c : string := "cc" ++ tail62.
Definition key_a : string := "cas/aa/" ++ digest_a.
Definition key_b : string := "cas/bb/" ++ digest_b.
Definition key_c : string := "ac/cc/" ++ digest_c.

(** [key_a] has been seen twice, [key_b] once, [key_c] never. *)
Definition new_sketch : sketch := HeavyKeeper.NewHeavyKeeper (N:=MinHeap.loc) 4 64 2 f_zero 1.
Definition demo_events : list HeavyKeeperCounts.op :=
  [HeavyKeeperCounts.OAdd key_a 2; HeavyKeeperCounts.OAdd key_b 1].
Definition demo_heat : sketch :=
  default new_sketch (HeavyKeeperCounts.run (N:=MinHeap.loc) new_sketch demo_events).

Definition delete_policy : EvictionPolicy :=
  mkPolicy 60 300 3600 50 1800 (f_of_Z 30) (f_of_Z 35) 10000 9000 10 100 100 64 2
    (f_div (f_of_Z 9) (f_of_Z 10)) 1 false.
Definition shadow_policy : EvictionPolicy :=
  mkPolicy 60 300 3600 50 1800 (f_of_Z 30) (f_of_Z 35) 10000 9000 10 100 100 64 2
    (f_div (f_of_Z 9) (f_of_Z 10)) 1 true.

Definition demo_cache : Cache := mkCache "/cache" 7 1.
Definition demo_notify (p : EvictionPolicy) : Notify sketch :=
  mkNotify demo_cache None demo_heat (mkLease "/lock") p "/state" true 0 true.

Definition demo_entries : list EntryInfo :=
  [mkEntry key_a (Join ["/cache"; key_a]) ContentCAS 100 10 7 11;
   mkEntry key_b (Join ["/cache"; key_b]) ContentCAS 300 20 7 12;
   mkEntry key_c (Join ["/cache"; key_c]) ActionCache 5 30 7 13].

Lemma demo_heat_run : HeavyKeeperCounts.sketch_of (N:=MinHeap.loc) 4 64 2 f_zero 1
  demo_events demo_heat.
Proof.
  unfold HeavyKeeperCounts.sketch_of, demo_heat. fold new_sketch.
  assert (match HeavyKeeperCounts.run (N:=MinHeap.loc) new_sketch demo_events with
          | Some _ => true | None => false end = true) as Hrun by (vm_compute; reflexivity).
  by destruct (HeavyKeeperCounts.run (N:=MinHeap.loc) new_sketch demo_events).
Qed.

Lemma demo_inv p : topk_inv (heavykeeper (demo_notify p)).
Proof.
  split; [|vm_compute; reflexivity|apply (bool_decide_unpack _); vm_compute; exact I].
  apply (HeavyKeeperCounts.sketch_wf (N:=MinHeap.loc) 4 64 2 f_zero 1 demo_events demo_heat);
    [width|lia|lia| |apply demo_heat_run].
  assert (HeavyKeeperCounts.history demo_events =
    [HeavyKeeperCounts.Seen key_a 2; HeavyKeeperCounts.Seen key_b 1]) as -> by done.
  rewrite !Forall_cons, Forall_nil. cbn [HeavyKeeperCounts.event_ok]. split_and!; done || width.
Qed.

Lemma demo_sizes : sizes_ok demo_entries.
Proof.
  split; [|cbn; lia]. unfold demo_entries. rewrite !Forall_cons, Forall_nil.
  cbn [Size]. split_and!; done || lia.
Qed.

(** ** The claims at this state *)

Lemma victims_coldest_first_witness :
  holds (selectVictims (demo_notify delete_policy) demo_entries 1000 100 900 true) (λ tr r, ∃ vs,
    vs ⊆+ demo_entries ∧
    StronglySorted (goes_first (topk_hot demo_heat)) vs ∧
    Forall (λ e, ModTime e <= 1000 - 50) vs ∧
    r.1 = i64 (sum_sizes vs) ∧
    Forall2 unlinked_entry vs (unlinks tr) ∧
    observations tr = (λ e, RecordDeleted (Kind e) (Size e)) <$> vs ∧
    topk_hot (heavykeeper r.2) = heat_after (topk_hot demo_heat) vs).
Proof.
  apply (victims_coldest_first (demo_notify delete_policy) demo_entries 1000 100 900 true).
  apply demo_inv.
Defined.

Lemma action_cache_floor_witness :
  holds (selectVictims (demo_notify delete_policy) demo_entries 1000 100 900 true) (λ tr r, ∃ vs,
    vs ⊆+ demo_entries ∧ Forall2 unlinked_entry vs (unlinks tr) ∧
    (of_kind ActionCache vs = [] ∨
     10 <= sum_sizes (of_kind ActionCache demo_entries) - sum_sizes (of_kind ActionCache vs))).
Proof.
  apply (action_cache_floor (demo_notify delete_policy) demo_entries 1000 100 900);
    [apply demo_inv|apply demo_sizes].
Defined.

Lemma cleanup_guarded_witness :
  holds (cleanup (Err ErrNotRelative) (demo_notify delete_policy) 1000) (λ tr res,
    (fds_fresh [] tr → unlinks_locked [] tr ∧ locks [] tr = []) ∧
    (unlinks tr ≠ [] → true = true ∧ 0 <= 1000 ∧ false = false)).
Proof.
  apply (cleanup_guarded (Err ErrNotRelative) (demo_notify delete_policy) 1000). apply demo_inv.
Defined.

Lemma shadow_never_deletes_witness :
  holds (cleanup (Err ErrNotRelative) (demo_notify shadow_policy) 1000) (λ tr res,
    Forall observes_only tr ∧ ∃ pressure, res.2 = set_evicting (demo_notify shadow_policy) pressure).
Proof.
  apply (shadow_never_deletes (Err ErrNotRelative) (demo_notify shadow_policy) 1000);
    [apply demo_inv|reflexivity].
Defined.

Lemma shadow_minimal_witness :
  holds (selectVictims (demo_notify shadow_policy) demo_entries 1000 100 900 false) (λ tr r, ∃ vs,
    vs ⊆+ demo_entries ∧ r.1 = sum_sizes vs ∧
    ∀ pre e post, vs = (pre ++ e :: post)%list → pre ≠ [] →
      f_lt (projected_percent 100 900 (sum_sizes pre)) (f_of_Z 35) = true ∨
      9000 < sum_sizes demo_entries - sum_sizes pre).
Proof.
  apply (shadow_minimal (demo_notify shadow_policy) demo_entries 1000 100 900);
    [apply demo_inv|apply demo_sizes|lia..|cbn; lia].
Defined.

Lemma eviction_ends_on_measurement_witness :
  holds (selectVictims (demo_notify delete_policy) demo_entries 1000 100 900 true) (λ tr r,
    evicting r.2 = false → ∃ pct vs,
      measured demo_cache tr pct ∧ f_lt pct (f_of_Z 35) = false ∧
      vs ⊆+ demo_entries ∧ Forall2 unlinked_entry vs (unlinks tr) ∧
      sum_sizes demo_entries - sum_sizes vs <= 9000).
Proof.
  apply (eviction_ends_on_measurement (demo_notify delete_policy) demo_entries 1000 100 900);
    [apply demo_inv|apply demo_sizes|reflexivity].
Defined.

Lemma eviction_exhaustive_witness :
  holds (selectVictims (demo_notify delete_policy) demo_entries 1000 100 900 true) (λ tr r,
    evicting r.2 = true → ¬ gave_up tr → ∃ vs,
      vs ⊆+ demo_entries ∧ Forall2 unlinked_entry vs (unlinks tr) ∧
      ∀ e, e ∈ demo_entries → e ∈ vs ∨ 1000 - 50 < ModTime e ∨
        (Kind e = ActionCache ∧ action_left demo_entries vs - Size e < 10) ∨ refused demo_cache e tr).
Proof.
  apply (eviction_exhaustive (demo_notify delete_policy) demo_entries 1000 100 900);
    [apply demo_inv|apply demo_sizes].
Defined.

(** ** A toy system *)

(** Files by path, descriptors by number, the next descriptor, and how many files
    were unlinked; every directory is there, and each unlinked file frees 30% of
    the blocks. *)
Record toy := mkToy {
  t_files : gmap string Stat;
  t_fds : gmap Z string;
  t_next : Z;
  t_gone : Z
}.

Definition toy_open (path : string) (s : toy) : result errno fd * toy :=
  (Ok (t_next s), mkToy (t_files s) (<[t_next s:=path]> (t_fds s)) (t_next s + 1) (t_gone s)).
Definition toy_path (dir : fd) (name : string) (s : toy) : string :=
  Join [default EmptyString (t_fds s !! dir); name].
Definition toy_stat (path : string) (s : toy) : result errno Stat :=
  match t_files s !! path with Some st => Ok st | None => Err ENOENT end.
Definition toy_unlink (path : string) (s : toy) : result errno unit * toy :=
  match t_files s !! path with
  | Some _ => (Ok tt, mkToy (delete path (t_files s)) (t_fds s) (t_next s) (t_gone s + 1))
  | None => (Err ENOENT, s)
  end.

Definition toy_file : tree := Tree (mkDirent false false) [] None.
Definition toy_dir (cs : list (string * tree)) : tree := Tree (mkDirent true false) cs None.
Definition toy_walk (root : string) : result errno tree :=
  if String.eqb root "/cache/cas" then
    Ok (toy_dir [("aa", toy_dir [(digest_a, toy_file); ("partial.tmp", toy_file)]);
                 ("bb", toy_dir [(digest_b, toy_file)])])
  else if String.eqb root "/cache/ac" then Ok (toy_dir [("cc", toy_dir [(digest_c, toy_file)])])
  else Err ENOENT.

Definition toy_os (c : call) (s : toy) : answer c * toy :=
  match c return answer c * toy with
  | CLstat path => (toy_stat path s, s)
  | COpenDir path => toy_open path s
  | COpenDirAt dir name => toy_open (toy_path dir name s) s
  | CFstat _ => (Ok (mkStat 7 1 S_IFDIR 0 0), s)
  | CFstatat dir name => (toy_stat (toy_path dir name s) s, s)
  | CUnlinkat dir name => toy_unlink (toy_path dir name s) s
  | CClose _ => (Ok tt, s)
  | CStatfs _ => (Ok (mkStatfs 1000 (100 + 300 * t_gone s) 1), s)
  | CEvalSymlinks path => (Ok path, s)
  | CWalk root => (toy_walk root, s)
  | COpenLock path => toy_open path s
  | CFlockExclusive _ => (Ok tt, s)
  | CFlockUnlock _ => (Ok tt, s)
  | CReadDir _ => (tt, s)
  | CObserve _ => (tt, s)
  | CLogError _ => (tt, s)
  | c => (unused_answer c, s)
  end.

Definition toy_start : toy :=
  mkToy (list_to_map [(Join ["/cache"; key_a], mkStat 7 11 S_IFREG 100 10);
                      (Join ["/cache"; key_b], mkStat 7 12 S_IFREG 300 20);
                      (Join ["/cache"; key_c], mkStat 7 13 S_IFREG 5 30)]) ∅ 3 0.

(** One cycle: the action-cache entry is coldest but protected, [key_b] is the
    coldest victim, and with it gone both targets are met, so [key_a] stays and
    eviction is declared over. *)
Definition toy_cycle : option (option CleanupError * Notify sketch) * trace * toy :=
  interp toy_os (cleanup (Err ErrNotRelative) (demo_notify delete_policy) 1000) toy_start.

Example toy_cycle_deletes : snd <$> unlinks toy_cycle.1.2 = [digest_b].
Proof. vm_compute. reflexivity. Qed.

Example toy_cycle_reports : observations toy_cycle.1.2 =
  [RecordProjected 0; SetDisk 100 900; SetCacheBytes 405; RecordDeleted ContentCAS 300].
Proof. vm_compute. reflexivity. Qed.

Example toy_cycle_over :
  match toy_cycle.1.1 with
  | Some (None, n) => (evicting n, bool_decide (topk_hot (heavykeeper n) = {[key_a := 2]}))
  | _ => (true, false)
  end = (false, true).
Proof. vm_compute. reflexivity. Qed.

Example toy_shadow_cycle : observations
  (interp toy_os (cleanup (Err ErrNotRelative) (demo_notify shadow_policy) 1000) toy_start).1.2 =
  [RecordProjected 0; SetDisk 100 900; SetCacheBytes 405; RecordProjected 300].
Proof. vm_compute. reflexivity. Qed.
