(* ===== verification/Watching.v ===== *)
(** * Watches and events (notify.go: addDirectoryWatches, seedExistingEntries,
    handleEvent, handleReconciliationEvent)

    A walk that watches every directory of the cache before it lists it, a walk that
    records the entries of a directory that appeared, and what one event of the
    watcher does to the heat model. *)

From S2P Require Import Prelude MinHeapSpec TopkSpec Policy Paths CacheKey Inotify System Watcher Cache Scan Lease Cleanup.
Local Open Scope Z_scope.

(** ** Data *)

Definition watchMask : Z :=
  foldr Z.lor 0 [InOpen; InClose; InCreate; InDelete; InMove; InDeleteSelf; InMoveSelf; InDontFollow].

(** Errors of the walk that adds watches *)
Inductive WalkError := WalkErrno (e : errno) | WalkAdd (e : WatchError).

Inductive NotifyError :=
| ErrCoverage (name : string)
| ErrWatchNew (e : WalkError)
| ErrSeedNew (e : errno)
| ErrEventsClosed
| ErrErrorsClosed
| ErrOverflow
| ErrWatcher (e : WatcherError)
| ErrCreateWatcher (e : errno)
| ErrRebuild (e : WalkError)
| ErrRescan (e : CacheError).

(** ** Operations *)

(** The callback of [addDirectoryWatches]; its state is the watcher. *)
Definition watch_fn (root path : string) (entry : option dirent) (err : option errno) (w : Watcher) :
    prog (Watcher * walk_status WalkError) :=
  match err with
  | Some e => Ret (w, WErr (WalkErrno e))
  | None =>
      match Rel root path with
      | None => Ret (w, WSkipDir)
      | Some relative =>
          if escapes relative then Ret (w, WSkipDir) else
          match entry with
          | None => Panic
          | Some entry =>
              if negb (String.eqb relative ".") && negb (first_allowed relative)
              then Ret (w, if d_isdir entry then WSkipDir else WNil) else
              if d_symlink entry then Ret (w, if d_isdir entry then WSkipDir else WNil) else
              if negb (d_isdir entry) then Ret (w, WNil) else
              '(err, w) ← AddWatch w path watchMask;
              Ret (w, match err with Some e => WErr (WalkAdd e) | None => WNil end)
          end
      end
  end.

Definition addDirectoryWatches (c : Cache) (w : Watcher) (start : string) :
    prog (option WalkError * Watcher) :=
  if negb (watchPathAllowed (diskRoot c) start) then Ret (None, w) else
  '(w, err) ← WalkDir (watch_fn (diskRoot c)) start w;
  Ret (err, w).

Section events.
Context {T : Type} `{!Topk T}.
Context (getwd : result CacheError string).
Implicit Types n : Notify T.

(** The callback of [seedExistingEntries]; its state is the heat model. *)
Definition seed_fn (c : Cache) (path : string) (entry : option dirent) (err : option errno) (hk : T) :
    prog (T * walk_status errno) :=
  match err with
  | Some e => Ret (hk, WErr e)
  | None =>
      match entry with
      | None => Panic
      | Some entry =>
          if d_isdir entry then Ret (hk, WNil) else
          match KeyForPath getwd (diskRoot c) path with
          | Err _ => Ret (hk, WNil)
          | Ok (key, _) =>
              snapshot ← Snapshot c key;
              match snapshot with
              | Err _ => Ret (hk, WNil)
              | Ok _ => '(_, hk) ← lift (Topk_Add hk key 1); Ret (hk, WNil)
              end
          end
      end
  end.

Definition seedExistingEntries (c : Cache) (hk : T) (root : string) : prog (option errno * T) :=
  if negb (watchPathAllowed (diskRoot c) root) then Ret (None, hk) else
  '(hk, err) ← WalkDir (seed_fn c) root hk;
  Ret (err, hk).

Definition coverage_lost (e : Event) : bool :=
  HasEvent e InUnmount || HasEvent e InIgnored || HasEvent e InDeleteSelf || HasEvent e InMoveSelf.

Definition handleReconciliationEvent (c : Cache) (w : Watcher) (event : option Event) :
    prog (option NotifyError * Watcher) :=
  match event with
  | None => Ret (None, w)
  | Some event =>
      if coverage_lost event then Ret (Some (ErrCoverage (Name event)), w) else
      if HasEvent event InIsdir && (HasEvent event InCreate || HasEvent event InMovedTo) then
        '(err, w) ← addDirectoryWatches c w (Clean (Name event));
        Ret (match err with Some e => Some (ErrWatchNew e) | None => None end, w)
      else Ret (None, w)
  end.

Definition set_watcher n (w : option Watcher) : Notify T :=
  mkNotify (cache n) w (heavykeeper n) (lease n) (policy n) (checkpointFile n) (ready n)
    (warmUntil n) (evicting n).
Definition set_topk n (hk : T) : Notify T := set_heat n hk (evicting n).

(** The event of a directory of the cache *)
Definition handle_directory n (event : Event) : prog (option NotifyError * Notify T) :=
  if HasEvent event InCreate || HasEvent event InMovedTo then
    match watcher n with
    | None => Panic
    | Some w =>
        '(err, w) ← addDirectoryWatches (cache n) w (Clean (Name event));
        let n := set_watcher n (Some w) in
        match err with
        | Some e => Ret (Some (ErrWatchNew e), n)
        | None =>
            '(err, hk) ← seedExistingEntries (cache n) (heavykeeper n) (Clean (Name event));
            Ret (match err with Some e => Some (ErrSeedNew e) | None => None end, set_topk n hk)
        end
    end
  else Ret (None, n).

(** The event of a file: its entry is removed from the heat model, or made hotter. *)
Definition handle_file n (event : Event) : prog (option NotifyError * Notify T) :=
  match KeyForPath getwd (diskRoot (cache n)) (Name event) with
  | Err _ => Ret (None, n)
  | Ok (key, kind) =>
      if HasEvent event InDelete || HasEvent event InMovedFrom then
        hk ← lift (Topk_Remove (heavykeeper n) key);
        Ret (None, set_topk n hk)
      else
      _ ← (if negb (Z.land (Mask event) InClose =? 0) then observe (RecordClose kind) else Ret tt);
      if negb (HasEvent event InOpen) && negb (HasEvent event InMovedTo) then Ret (None, n) else
      '(_, hk) ← lift (Topk_Add (heavykeeper n) key 1);
      _ ← (if HasEvent event InOpen then observe (RecordAccess kind) else Ret tt);
      Ret (None, set_topk n hk)
  end.

Definition handleEvent n (event : option Event) : prog (option NotifyError * Notify T) :=
  match event with
  | None => Ret (None, n)
  | Some event =>
      if coverage_lost event then Ret (Some (ErrCoverage (Name event)), n)
      else if HasEvent event InIsdir then handle_directory n event
      else handle_file n event
  end.
End events.

(** ** What is watched *)

(** What the daemon needs to hear of a directory: entries that are opened, closed, made,
    deleted and moved either way, and the end of the directory itself.  A link that
    took its place must not be followed. *)
Definition needed : list Z :=
  [InOpen; InCloseWrite; InCloseNowrite; InCreate; InDelete; InMovedFrom; InMovedTo;
   InDeleteSelf; InMoveSelf; InDontFollow].
Definition covers (fl : Z) : bool := forallb (λ bit, Z.land fl bit =? bit) needed.

(** Successful calls of the walk that concern watches, in order: a watch covers what is
    needed, or not. *)
Inductive watch_action := Watched (path : string) (covered : bool) | Listed (path : string).
Definition watch_acted (e : event) : option watch_action :=
  match e with
  | existT c r =>
      match c return answer c → option watch_action with
      | CInotifyAddWatch _ path fl => λ r,
          match r with Ok _ => Some (Watched path (covers fl)) | Err _ => None end
      | CReadDir path => λ _, Some (Listed path)
      | _ => λ _, None
      end r
  end.

(** The root, at no element below itself, and what is in the two stores *)
Definition in_store (rel : list string) : bool :=
  match rel with
  | [] => true
  | store :: _ => bool_decide (store ∈ ["ac"; "cas"]%string)
  end.

(** Every directory of the tree [t], found at [path] with the elements [rel] below the
    root, is watched before it is listed: the root, the stores and what is in them. *)
Fixpoint watch_plan (path : string) (rel : list string) (t : tree) : list watch_action :=
  match t with
  | Tree d cs _ =>
      if in_store rel && negb (d_symlink d) && d_isdir d then
        Watched path true :: Listed path ::
        (fix go cs := match cs with
                      | [] => []
                      | (n, t1) :: cs => watch_plan (Join [path; n]) (rel ++ [n]) t1 ++ go cs
                      end) cs
      else []
  end.

(** The entries of a directory have proper names: the contract of [readdir]. *)
Fixpoint names_ok (t : tree) : Prop :=
  match t with
  | Tree _ cs _ =>
      (fix go cs := match cs with
                    | [] => True
                    | (n, t1) :: cs => name n ∧ names_ok t1 ∧ go cs
                    end) cs
  end.

Definition watching (w : Watcher) (path : string) : Prop :=
  ∃ x, watches w !! path = Some x ∧ covers (flags x) = true.

Lemma covers_sub fl fl' : sub fl fl' → covers fl = true → covers fl' = true.
Proof.
  unfold covers. rewrite !forallb_forall. intros Hsub Hc bit Hin. specialize (Hc bit Hin).
  apply Z.eqb_eq, sub_land. apply Z.eqb_eq, sub_land in Hc. by eapply sub_trans.
Qed.

Lemma watchMask_covers : covers watchMask = true.
Proof. reflexivity. Qed.

(** The watcher only watches more. *)
Record watches_more (w w' : Watcher) : Prop := {
  more_watching path : watching w path → watching w' path;
  more_fd : w_fd w' = w_fd w;
  more_open : isClosed w' = isClosed w
}.

Lemma watches_more_refl w : watches_more w w.
Proof. by split. Qed.

Lemma watches_more_trans w1 w2 w3 : watches_more w1 w2 → watches_more w2 w3 → watches_more w1 w3.
Proof. intros [] []. split; [auto|congruence|congruence]. Qed.

(** The calls of walks, scans and watchers: they concern no descriptor, no lock, no
    observer and no clock. *)
Definition background (e : event) : Prop :=
  match projT1 e with
  | CWalk _ | CReadDir _ | CLstat _ | CInotifyAddWatch _ _ _ | CStopReader _
  | CReceive _ | CTurns | CSched | CStopped | CLogError _ | CStatfs _ => True
  | _ => False
  end.

Lemma background_silent tr : Forall background tr → Forall silent tr.
Proof.
  intros H. eapply Forall_impl; [exact H|]. intros [[] r]; cbn; intros []; by repeat constructor.
Qed.

Lemma reads_only_background tr : Forall reads_only tr → Forall background tr.
Proof. intros H. eapply Forall_impl; [exact H|]. by intros [[] r]. Qed.

Lemma add_watch_run w path : holds (AddWatch w path watchMask) (λ tr res,
  watches_more w res.2 ∧ Forall background tr ∧
  match res.1 with
  | None => omap watch_acted tr = [Watched path true] ∧ watching res.2 path
  | Some _ => True
  end).
Proof.
  eapply holds_impl; [|apply AddWatch_watches]. intros tr [[e|] w']; cbn.
  - intros (Htr & Hfd & Hcl & Hmore). split_and!; [|by destruct Htr as [->|[e' ->]]; repeat constructor|done].
    split; [|done|done]. intros q (x & Hq & Hs). destruct (Hmore q x Hq) as (x' & ? & ?).
    exists x'. split; [done|]. by eapply covers_sub.
  - intros (d & -> & (x & Hx & Hsub) & Hother & Hcl & Hfd).
    assert (watching w' path) as Hp by (exists x; split; [done|]; by eapply covers_sub, watchMask_covers).
    split_and!; [|by unfold add_call; destruct (watches w !! path); repeat constructor| |done].
    2: { unfold add_call. by destruct (watches w !! path). }
    split; [|done|done]. intros q Hq. destruct (decide (q = path)) as [->|Hne]; [done|].
    unfold watching. by rewrite Hother.
Qed.

Definition plan_children (path : string) (rel : list string) (cs : list (string * tree)) : list watch_action :=
  concat ((λ nt, watch_plan (Join [path; nt.1]) (rel ++ [nt.1]) nt.2) <$> cs).

Lemma watch_plan_eq path rel d cs err : watch_plan path rel (Tree d cs err) =
  if in_store rel && negb (d_symlink d) && d_isdir d
  then Watched path true :: Listed path :: plan_children path rel cs else [].
Proof.
  cbn [watch_plan]. destruct (_ && _); [|done]. do 2 f_equal.
  induction cs as [|[n t1] cs IH]; [done|]. by rewrite IH.
Qed.

Lemma names_ok_eq d cs err : names_ok (Tree d cs err) ↔ Forall (λ nt, name nt.1 ∧ names_ok nt.2) cs.
Proof.
  cbn [names_ok]. induction cs as [|[n t1] cs IH]; [by split; constructor|].
  rewrite Forall_cons, <-IH. cbn. tauto.
Qed.

Section watch_walk.
Context (root : string) (ws : list string) (Hroot : abs_path root ws).

(** Below the root the program's own tests are [in_store]. *)
Definition relative (rel : list string) : string := match rel with [] => "." | _ => join rel end.

Lemma relative_allowed rel : Forall name rel →
  escapes (relative rel) = false ∧ (String.eqb (relative rel) "." || first_allowed (relative rel)) = in_store rel.
Proof.
  intros Hrel. destruct rel as [|x rel]; [done|]. split; [by apply escapes_names|]. unfold relative, first_allowed.
  assert (split (join (x :: rel)) = x :: rel) as Hsplit.
  { apply split_join; [done|by apply names_no_sep]. }
  rewrite Hsplit. assert (String.eqb (join (x :: rel)) "." = false) as ->.
  { apply String.eqb_neq. intros Hj. apply (f_equal split) in Hj. rewrite Hsplit in Hj.
    injection Hj as -> ->. by apply Forall_cons in Hrel as [(_ & ? & _) _]. }
  cbn [orb]. unfold in_store. apply eq_true_iff_eq.
  rewrite orb_true_iff, !String.eqb_eq, bool_decide_eq_true. set_solver.
Qed.

Lemma Rel_relative path rel : abs_path path (ws ++ rel) → Rel root path = Some (relative rel) ∧ Forall name rel.
Proof.
  intros Hp. destruct (Rel_abs root path ws _ Hroot Hp) as [(rel' & Heq & ->)|[Hn _]]; [|destruct Hn; by exists rel].
  apply app_inv_head in Heq as <-. split; [done|]. destruct Hp as [_ Hp]. by apply Forall_app in Hp as [_ ?].
Qed.

Lemma watchPathAllowed_below path rel : abs_path path (ws ++ rel) →
  watchPathAllowed root path = in_store rel.
Proof.
  intros Hp. unfold watchPathAllowed. rewrite (Clean_abs_path _ _ Hp).
  destruct (Rel_relative _ _ Hp) as [-> Hrel]. destruct (relative_allowed rel Hrel) as [-> <-].
  by destruct (String.eqb _ _).
Qed.

(** On a path below the root the callback watches directories of the stores, and skips
    the others. *)
Lemma watch_fn_below path rel d w : abs_path path (ws ++ rel) →
  watch_fn root path (Some d) None w =
    if in_store rel && negb (d_symlink d) && d_isdir d then
      '(err, w) ← AddWatch w path watchMask;
      Ret (w, match err with Some e => WErr (WalkAdd e) | None => WNil end)
    else Ret (w, if d_isdir d then WSkipDir else WNil).
Proof.
  intros Hp. unfold watch_fn. destruct (Rel_relative _ _ Hp) as [-> Hrel].
  destruct (relative_allowed rel Hrel) as [-> <-].
  by destruct (String.eqb _ "."), (first_allowed _), (d_symlink d), (d_isdir d).
Qed.

Lemma child_path path rel n : abs_path path (ws ++ rel) → name n →
  abs_path (Join [path; n]) (ws ++ (rel ++ [n])).
Proof.
  intros Hp Hn. rewrite app_assoc. change n with (join [n]) at 1.
  apply Join_below; [done|by constructor|done].
Qed.

(** What the walk of [t] at [path] does to the watcher. *)
Definition walk_watched (path : string) (rel : list string) (t : tree) (w : Watcher) (tr : trace)
    (r : Watcher * walk_status WalkError) : Prop :=
  watches_more w r.1 ∧ Forall background tr ∧
  match r.2 with
  | WNil => omap watch_acted tr = watch_plan path rel t ∧
            ∀ p, Watched p true ∈ watch_plan path rel t → watching r.1 p
  | WSkipDir => False
  | WErr _ => True
  end.

Definition children_watched (path : string) (rel : list string) (cs : list (string * tree)) (w : Watcher) (tr : trace)
    (r : Watcher * walk_status WalkError) : Prop :=
  watches_more w r.1 ∧ Forall background tr ∧
  match r.2 with
  | WNil => omap watch_acted tr = plan_children path rel cs ∧
            ∀ p, Watched p true ∈ plan_children path rel cs → watching r.1 p
  | WSkipDir => False
  | WErr _ => True
  end.

Lemma walk_watches t : ∀ path rel w, abs_path path (ws ++ rel) → names_ok t →
  holds (walk_dir (watch_fn root) path t w) (walk_watched path rel t w).
Proof.
  induction t as [d children err IH] using tree_rect_nested. intros path rel w Hp Hnames.
  cbn [walk_dir]. rewrite (watch_fn_below path rel d w Hp).
  destruct (in_store rel && negb (d_symlink d) && d_isdir d) eqn:Hw; last first.
  { assert (watch_plan path rel (Tree d children err) = []) as Hplan by (cbn; by rewrite Hw).
    destruct (d_isdir d) eqn:Hdir; go_prog; unfold skip_in_dir; rewrite ?Hdir; go_prog;
      (split; [apply watches_more_refl|]); cbn [fst snd]; rewrite ?Hplan;
      (split; [constructor|]); (split; [done|]); by intros p ?%elem_of_nil. }
  apply andb_true_iff in Hw as Hdir. destruct Hdir as [_ Hdir].
  go_prog. eapply holds_impl; [|apply add_watch_run]. intros tr1 [aerr w1] (Hm1 & Hb1 & H1).
  cbn [fst snd] in *. go_prog. destruct aerr as [e|].
  { go_prog. rewrite !app_nil_r. split; [done|]. by split. }
  destruct H1 as [Ha1 Hw1]. rewrite Hdir. go_prog. destruct r. go_prog.
  destruct err as [e|].
  { cbn [watch_fn]. go_prog. cbn [skip_in_dir]. split; [done|]. split; [|done].
    rewrite ?app_nil_r. apply Forall_app. split; [done|]. by repeat constructor. }
  go_prog. rewrite ?app_nil_r. apply (holds_impl _ (λ tr r, children_watched path rel children w1 tr r)).
  { intros tr2 [w2 st] (Hm2 & Hb2 & H2). cbn [fst snd] in *. split; [by eapply watches_more_trans|]. split.
    { apply Forall_app. split; [done|]. by apply Forall_cons. }
    destruct st; [|done|done]. destruct H2 as [Ha2 Hw2]. cbn [snd].
    rewrite watch_plan_eq, Hw, omap_app, Ha1. cbn. rewrite Ha2. split; [done|].
    intros p [[= ->]|[[=]|Hin]%elem_of_cons]%elem_of_cons; [|by apply Hw2].
    by apply (more_watching _ _ Hm2). }
  clear -Hroot IH Hp Hnames. revert w1. rewrite names_ok_eq in Hnames.
  induction IH as [|[nm t1] cs Ht1 _ IHcs]; intros w1.
  { go_prog. split; [apply watches_more_refl|]. split; [constructor|]. split; [done|].
    by intros p ?%elem_of_nil. }
  apply Forall_cons in Hnames as [[Hnm Ht] Hnames]. go_prog. cbn [fst snd] in *.
  eapply holds_impl; [|apply (Ht1 _ (rel ++ [nm]) w1); [by apply child_path|done]].
  intros tr1 [w2 st] (Hm1 & Hb1 & H1). cbn [fst snd] in *.
  destruct st; [|done|go_prog; rewrite app_nil_r; split; [done|by split]].
  destruct H1 as [Ha1 Hw1]. eapply holds_impl; [|by apply IHcs].
  intros tr2 [w3 st] (Hm2 & Hb2 & H2). cbn [fst snd] in *.
  split; [by eapply watches_more_trans|]. split; [by apply Forall_app|].
  cbn [snd]. destruct st; [|done|done]. destruct H2 as [Ha2 Hw2].
  unfold plan_children. cbn. rewrite omap_app, Ha1, Ha2. split; [done|].
  intros p [Hin|Hin]%elem_of_app; [by apply (more_watching _ _ Hm2), Hw1|by apply Hw2].
Qed.
End watch_walk.

(** The contract of a directory listing *)
Definition walk_names_ok (e : event) : Prop :=
  match e with
  | existT c r =>
      match c return answer c → Prop with
      | CWalk _ => λ r, match r with Ok t => names_ok t | Err _ => True end
      | _ => λ _, True
      end r
  end.

(** C6. When [addDirectoryWatches] succeeds, its coverage is complete.  It did nothing if
    it was to start outside the two stores; otherwise it has walked from where it was
    to start, and every directory that the walk met, the root and what is in the two
    stores, links left aside, has been watched, before it was listed, for all the
    kinds of events that tell the daemon what is opened, closed, made, deleted or moved
    in it; and nothing else was watched or listed.  What was covered before still is. *)
Theorem watches_complete c ws rel w start :
  abs_path (diskRoot c) ws → abs_path start (ws ++ rel) →
  holds_if walk_names_ok (addDirectoryWatches c w start) (λ tr res, res.1 = None →
    if in_store rel then
      ∃ t, hd_error tr = Some (ev (CWalk start) (Ok t)) ∧
        omap watch_acted tr = watch_plan start rel t ∧
        (∀ p, Watched p true ∈ watch_plan start rel t → watching res.2 p) ∧
        (∀ p, watching w p → watching res.2 p)
    else tr = [] ∧ res.2 = w).
Proof.
  intros Hroot Hstart. unfold addDirectoryWatches.
  rewrite (watchPathAllowed_below (diskRoot c) ws Hroot start rel Hstart).
  destruct (in_store rel); cbn [negb holds_if]; [|done].
  unfold WalkDir. go_if. destruct r as [t|e]; [|cbn [watch_fn]; by go_if].
  eapply holds_if_impl; [|apply holds_if_holds, (walk_watches (diskRoot c) ws Hroot t start rel w);
    [done|done]].
  intros tr [w' st] (Hmore & Hbg & Hst). cbn [fst snd] in *. go_if. cbn [fst snd]. intros Hnone.
  destruct st; [|done|done]. destruct Hst as [Hact Hw]. exists t. rewrite !app_nil_r. cbn.
  split_and!; [done|done|done|]. apply Hmore.
Qed.

(** ** What is seeded *)

Section seeding.
Context {T : Type} `{!Topk T}.
Context (getwd : result CacheError string) (c : Cache).
Implicit Types hk : T.

(** The keys of the files that a walk meets, in its order, up to the first directory
    that could not be listed, and that error *)
Fixpoint seed_plan (path : string) (t : tree) : list string * option errno :=
  match t with
  | Tree d cs err =>
      if d_isdir d then
        match err with
        | Some e => ([], Some e)
        | None =>
            (fix go cs := match cs with
                          | [] => ([], None)
                          | (n, t1) :: cs =>
                              let '(keys, e) := seed_plan (Join [path; n]) t1 in
                              match e with
                              | Some e => (keys, Some e)
                              | None => let '(keys', e) := go cs in ((keys ++ keys')%list, e)
                              end
                          end) cs
        end
      else (match KeyForPath getwd (diskRoot c) path with Ok (key, _) => [key] | Err _ => [] end, None)
  end.
Definition children_plan (path : string) : list (string * tree) → list string * option errno :=
  fix go cs := match cs with
               | [] => ([], None)
               | (n, t1) :: cs =>
                   let '(keys, e) := seed_plan (Join [path; n]) t1 in
                   match e with
                   | Some e => (keys, Some e)
                   | None => let '(keys', e) := go cs in ((keys ++ keys')%list, e)
                   end
               end.

(** One access is counted for each key that turned out to be a regular file. *)
Fixpoint counted (lookups : list (string * result errno Stat)) hk hk' : Prop :=
  match lookups with
  | [] => hk' = hk
  | (key, r) :: lookups =>
      if match r with Ok st => mode_is S_IFREG st | Err _ => false end
      then ∃ x hk1, Topk_Add hk key 1 = Some (x, hk1) ∧ counted lookups hk1 hk'
      else counted lookups hk hk'
  end.

(** What was looked up, and what was counted *)
Definition seeds (keys : list string) (tr : trace) hk hk' : Prop := ∃ answers,
  length answers = length keys ∧
  omap looked_up tr = zip ((λ key, Join [diskRoot c; key]) <$> keys) answers ∧
  counted (zip keys answers) hk hk'.

(** What the seeding of [root] does: it walks there and looks up what it met. *)
Definition seeding (root : string) hk (tr : trace) (res : option errno * T) : Prop :=
  ∃ r, hd_error tr = Some (ev (CWalk root) r) ∧
  match r with
  | Err e => res = (Some e, hk) ∧ omap looked_up tr = []
  | Ok t => res.1 = (seed_plan root t).2 ∧ seeds (seed_plan root t).1 tr hk res.2
  end.

Lemma seeds_nil tr hk : omap looked_up tr = [] → seeds [] tr hk hk.
Proof. by exists []. Qed.

Lemma counted_app l1 l2 hk hk1 hk2 : counted l1 hk hk1 → counted l2 hk1 hk2 → counted (l1 ++ l2) hk hk2.
Proof.
  revert hk. induction l1 as [|[key r] l1 IH]; intros hk; cbn; [by intros ->|].
  destruct (match r with Ok _ => _ | Err _ => _ end); [|by apply IH].
  intros (x & hk' & Hadd & H1) H2. exists x, hk'. split; [done|]. by apply IH.
Qed.

Lemma seeds_app keys1 keys2 tr1 tr2 hk hk1 hk2 : seeds keys1 tr1 hk hk1 → seeds keys2 tr2 hk1 hk2 →
  seeds (keys1 ++ keys2) (tr1 ++ tr2) hk hk2.
Proof.
  intros (a1 & L1 & T1 & C1) (a2 & L2 & T2 & C2). exists (a1 ++ a2)%list. split_and!.
  - by rewrite !length_app, L1, L2.
  - rewrite omap_app, fmap_app, T1, T2, zip_with_app; [done|]. by rewrite length_fmap.
  - rewrite zip_with_app by done. by eapply counted_app.
Qed.

Lemma seeds_before keys tr0 tr hk hk' : omap looked_up tr0 = [] → seeds keys tr hk hk' →
  seeds keys (tr0 ++ tr) hk hk'.
Proof. intros H0 H. apply (seeds_app [] keys tr0 tr hk hk hk'); [by apply seeds_nil|done]. Qed.

Lemma seeds_after keys tr0 tr hk hk' : omap looked_up tr0 = [] → seeds keys tr hk hk' →
  seeds keys (tr ++ tr0) hk hk'.
Proof.
  intros H0 H. rewrite <-(app_nil_r keys). eapply seeds_app; [exact H|by apply seeds_nil].
Qed.

Context `{!TopkLaws T}.

Lemma seed_plan_eq path d cs err : seed_plan path (Tree d cs err) =
  if d_isdir d then match err with Some e => ([], Some e) | None => children_plan path cs end
  else (match KeyForPath getwd (diskRoot c) path with Ok (key, _) => [key] | Err _ => [] end, None).
Proof. done. Qed.

(** The callback on an entry that is no directory *)
Lemma seed_file path d hk : topk_inv hk → d_isdir d = false →
  holds (seed_fn getwd c path (Some d) None hk) (λ tr r, r.2 = WNil ∧ topk_inv r.1 ∧
    seeds (seed_plan path (Tree d [] None)).1 tr hk r.1).
Proof.
  intros Hi Hd. rewrite seed_plan_eq. unfold seed_fn. rewrite Hd. cbn [fst].
  destruct (KeyForPath getwd (diskRoot c) path) as [[key kind]|] eqn:Hk; [|by split_and!; [| |apply seeds_nil]].
  pose proof (KeyForPath_parses getwd c path key kind Hk) as Hp. unfold Snapshot, fileIdentity. rewrite Hp.
  go_prog. destruct r as [st|e]; [|go_prog; split_and!; [done|done|]; by exists [Err e]].
  rewrite regular_not_link. destruct (mode_is S_IFREG st) eqn:Hm; cbn [negb]; go_prog.
  - destruct (topk_add_spec hk key 1 Hi) as (x & hk' & Hadd & Hi' & _); [width|]. rewrite Hadd. go_prog.
    split_and!; [done|done|]. exists [Ok st]. split_and!; [done|done|]. cbn. rewrite Hm. by exists x, hk'.
  - split_and!; [done|done|]. exists [Ok st]. split_and!; [done|done|]. cbn. by rewrite Hm.
Qed.

(** The walk of [t] *)
Definition walk_seeds (plan : list string * option errno) hk (tr : trace) (r : T * walk_status errno) : Prop :=
  topk_inv r.1 ∧ r.2 = match plan.2 with Some e => WErr e | None => WNil end ∧ seeds plan.1 tr hk r.1.

Lemma walk_dir_seeds t : ∀ path hk, topk_inv hk →
  holds (walk_dir (seed_fn getwd c) path t hk) (walk_seeds (seed_plan path t) hk).
Proof.
  induction t as [d cs err IH] using tree_rect_nested. intros path hk Hi. rewrite seed_plan_eq.
  cbn [walk_dir]. destruct (d_isdir d) eqn:Hd; last first.
  { apply holds_bind. eapply holds_impl; [|by apply seed_file].
    intros tr [hk1 st] (Hst & Hi1 & Hs). cbn [fst snd] in *. subst st. go_prog. rewrite app_nil_r.
    rewrite seed_plan_eq, Hd in Hs. by split_and!. }
  apply holds_bind. unfold seed_fn at 1. rewrite Hd. go_prog. cbn [app].
  destruct err as [e|].
  { cbn [seed_fn]. go_prog. cbn [skip_in_dir]. split_and!; [done|done|]. by apply seeds_nil. }
  go_prog. apply (holds_impl _ (walk_seeds (children_plan path cs) hk)).
  { intros tr r' (? & ? & ?). split_and!; [done|done|]. by apply (seeds_before _ [_]). }
  clear Hd r. revert hk Hi. induction IH as [|[nm t1] cs Ht1 _ IHcs]; intros hk Hi.
  { go_prog. split_and!; [done|done|]. by apply seeds_nil. }
  cbn [children_plan]. apply holds_bind. eapply holds_impl; [|by apply (Ht1 (Join [path; nm]) hk)].
  intros tr1 [hk1 st] (Hi1 & Hst & Hs). cbn [fst snd] in *. fold (children_plan path).
  destruct (seed_plan (Join [path; nm]) t1) as [keys [e|]]; cbn [fst snd] in *; subst st.
  { go_prog. rewrite app_nil_r. by split_and!. }
  eapply holds_impl; [|by apply IHcs]. intros tr2 [hk2 st2] (Hi2 & Hst2 & Hs2). cbn [fst snd] in *.
  destruct (children_plan path cs) as [keys2 e2]. cbn [fst snd] in *.
  split_and!; [done|done|]. by eapply seeds_app.
Qed.

Lemma seedExistingEntries_run hk root : topk_inv hk →
  holds (seedExistingEntries getwd c hk root) (λ tr res,
    if watchPathAllowed (diskRoot c) root then seeding root hk tr res else tr = [] ∧ res = (None, hk)).
Proof.
  intros Hi. unfold seedExistingEntries. destruct (watchPathAllowed _ _); cbn [negb]; [|by split].
  unfold WalkDir. go_prog. destruct r as [t|e].
  - eapply holds_impl; [|by apply walk_dir_seeds]. intros tr [hk' st] (Hi' & Hst & Hs). cbn [fst snd] in *.
    go_prog. rewrite !app_nil_r. exists (Ok t). split; [done|]. cbn [fst snd]. subst st. split.
    + by destruct (seed_plan root t).2.
    + by apply (seeds_before _ [_]).
  - cbn [seed_fn]. go_prog. by exists (Err e).
Qed.
End seeding.

(** ** Effects on the rest of the daemon *)

Lemma addDirectoryWatches_background c w start :
  holds (addDirectoryWatches c w start) (λ tr res, Forall background tr).
Proof.
  unfold addDirectoryWatches. destruct (negb _); [apply holds_ret; constructor|].
  apply holds_bind. eapply holds_impl;
    [|refine (WalkDir_ok (watch_fn (diskRoot c)) (λ tr _, Forall background tr) _ _ start [] w _)].
  - intros tr [w' err] H. apply holds_ret. by rewrite app_nil_r.
  - intros p tr s H. apply Forall_app. split; [done|by repeat constructor].
  - intros path entry err tr s Hne H. unfold watch_fn. destruct err as [e|].
    { apply holds_ret. by rewrite app_nil_r. }
    destruct entry as [d|]; [|by destruct Hne].
    repeat match goal with
    | |- holds (match ?x with _ => _ end) _ => destruct x
    | |- holds (Ret _) _ => apply holds_ret; by rewrite app_nil_r
    end.
    apply holds_bind. eapply holds_impl; [|apply add_watch_run]. intros tr' [aerr w'] (_ & Hb & _).
    apply holds_ret. rewrite app_nil_r. by apply Forall_app.
  - intros r. by repeat constructor.
Qed.

Section heat.
Context {T : Type} `{!Topk T} `{!TopkLaws T}.
Context (getwd : result CacheError string).
Implicit Types n : Notify T.
Implicit Types hk : T.

(** The invariant of the heat model inside the daemon: the sketch is well formed, of
    the configured capacity, and tracks only keys of cache entries. *)
Record heat_ok (cap : Z) hk : Prop := {
  heat_inv : topk_inv hk;
  heat_cap : topk_cap hk = cap;
  heat_keys k : is_Some (topk_hot hk !! k) → ∃ kind, ParseKey k = Ok kind
}.

Lemma heat_add cap hk key kind : heat_ok cap hk → ParseKey key = Ok kind → ∃ r hk',
  Topk_Add hk key 1 = Some (r, hk') ∧ heat_ok cap hk' ∧
  ∀ k, is_Some (topk_hot hk' !! k) → is_Some (topk_hot hk !! k) ∨ k = key.
Proof.
  intros [Hi Hc Hk] Hkey. destruct (topk_add_spec hk key 1 Hi) as (r & hk' & Hadd & Hi' & Hc' & Hsub);
    [width|]. exists r, hk'. split; [done|]. split; [|done].
  split; [done|congruence|]. intros k Hin. destruct (Hsub k Hin) as [?| ->]; [by apply Hk|by exists kind].
Qed.

Lemma heat_remove cap hk key : heat_ok cap hk → ∃ hk', Topk_Remove hk key = Some hk' ∧
  heat_ok cap hk' ∧ topk_hot hk' = delete key (topk_hot hk).
Proof.
  intros [Hi Hc Hk]. destruct (topk_remove_spec hk key Hi) as (hk' & Hrm & Hi' & Hc' & Hhot).
  exists hk'. split; [done|]. split; [|done]. split; [done|congruence|].
  intros k. rewrite Hhot. intros [x Hx]. apply lookup_delete_Some in Hx as [_ Hx]. apply Hk. by eexists.
Qed.

Lemma KeyForPath_key root path key kind : KeyForPath getwd root path = Ok (key, kind) →
  ParseKey key = Ok kind.
Proof.
  unfold KeyForPath. destruct (Abs _ _) as [p|]; [|done]. destruct (Rel _ _) as [k|]; [|done].
  destruct (ParseKey k) eqn:E; [|done]. by intros [= <- <-].
Qed.

Lemma seed_fn_ok cap c path entry err hk : (entry = None → err ≠ None) → heat_ok cap hk →
  holds (seed_fn getwd c path entry err hk) (λ tr r, Forall background tr ∧ heat_ok cap r.1).
Proof.
  intros Hne Hok. unfold seed_fn. destruct err as [e|]; [by split|].
  destruct entry as [d|]; [|by destruct Hne]. destruct (d_isdir d); [by split|].
  destruct (KeyForPath _ _ _) as [[key kind]|] eqn:Hk; [|by split].
  go_prog. eapply holds_impl; [|apply Snapshot_reads]. intros tr [s|e] Hr%reads_only_background.
  - destruct (heat_add cap hk key kind Hok) as (r & hk' & -> & Hok' & _); [by eapply KeyForPath_key|].
    go_prog. by rewrite app_nil_r.
  - go_prog. by rewrite app_nil_r.
Qed.

Lemma seedExistingEntries_ok cap c hk root : heat_ok cap hk →
  holds (seedExistingEntries getwd c hk root) (λ tr res, Forall background tr ∧ heat_ok cap res.2).
Proof.
  intros Hok. unfold seedExistingEntries. destruct (negb _); [by split|].
  apply holds_bind. eapply holds_impl;
    [|refine (WalkDir_ok (seed_fn getwd c) (λ tr hk, Forall background tr ∧ heat_ok cap hk) _ _ root [] hk _)].
  - intros tr [hk' err] [? ?]. apply holds_ret. by rewrite app_nil_r.
  - intros p tr s [? ?]. split; [|done]. apply Forall_app. split; [done|by repeat constructor].
  - intros path entry err tr s Hne [? ?]. eapply holds_impl; [|by apply seed_fn_ok].
    intros tr' r [? ?]. split; [by apply Forall_app|done].
  - intros r. split; [by repeat constructor|done].
Qed.

Lemma handleReconciliationEvent_background c w event :
  holds (handleReconciliationEvent c w event) (λ tr _, Forall background tr).
Proof.
  unfold handleReconciliationEvent. destruct event as [e|]; [|constructor].
  destruct (coverage_lost e); [constructor|]. destruct (_ && _); [|constructor].
  apply holds_bind. eapply holds_impl; [|apply addDirectoryWatches_background].
  intros tr [err w'] H. apply holds_ret. by rewrite app_nil_r.
Qed.

(** The events that end the coverage of a watch. *)
Definition ends_coverage (e : Event) : bool :=
  existsb (HasEvent e) [InUnmount; InIgnored; InDeleteSelf; InMoveSelf].

Lemma coverage_lost_ends e : coverage_lost e = ends_coverage e.
Proof. unfold coverage_lost, ends_coverage. cbn [existsb]. by rewrite orb_false_r, !orb_assoc. Qed.

(** What an event says of its file: it is gone, it was used, or neither. *)
Definition gone (e : Event) : bool := HasEvent e InDelete || HasEvent e InMovedFrom.
Definition used (e : Event) : bool := HasEvent e InOpen || HasEvent e InMovedTo.
Definition file_reports (e : Event) (kind : EntryKind) : list observation :=
  if gone e then [] else
  (if Z.land (Mask e) InClose =? 0 then [] else [RecordClose kind]) ++
  (if HasEvent e InOpen then [RecordAccess kind] else []).

(** The heat after an event of the entry [key]. *)
Definition file_heat (e : Event) (key : string) hk hk' : Prop :=
  if gone e then topk_hot hk' = delete key (topk_hot hk)
  else if used e then ∃ r, Topk_Add hk key 1 = Some (r, hk') else hk' = hk.

Definition reports (obs : list observation) : trace := (λ o, ev (CObserve o) tt) <$> obs.

(** Everything but the heat and the watcher's tables is as before. *)
Record event_frame n n' : Prop := {
  frame_cache : cache n' = cache n;
  frame_lease : lease n' = lease n;
  frame_policy : policy n' = policy n;
  frame_file : checkpointFile n' = checkpointFile n;
  frame_ready : ready n' = ready n;
  frame_warm : warmUntil n' = warmUntil n;
  frame_evicting : evicting n' = evicting n;
  frame_watcher : is_Some (watcher n) → is_Some (watcher n')
}.

Lemma handle_file_run cap n e : heat_ok cap (heavykeeper n) →
  holds (handle_file getwd n e) (λ tr res, res.1 = None ∧ event_frame n res.2 ∧
    watcher res.2 = watcher n ∧ heat_ok cap (heavykeeper res.2) ∧
    match KeyForPath getwd (diskRoot (cache n)) (Name e) with
    | Err _ => tr = [] ∧ res.2 = n
    | Ok (key, kind) => tr = reports (file_reports e kind) ∧
        file_heat e key (heavykeeper n) (heavykeeper res.2)
    end).
Proof.
  intros Hok. unfold handle_file, file_heat, file_reports, gone, used.
  destruct (KeyForPath _ _ _) as [[key kind]|] eqn:Hk; [|by split_and!].
  apply KeyForPath_key in Hk. destruct (_ || HasEvent e InMovedFrom).
  { destruct (heat_remove cap _ key Hok) as (hk' & -> & Hok' & Hhot). go_prog. by split_and!. }
  destruct (heat_add cap _ key kind Hok Hk) as (r & hk' & Hadd & Hok' & _).
  destruct (Z.land (Mask e) InClose =? 0), (HasEvent e InOpen), (HasEvent e InMovedTo);
    cbn [negb andb orb]; rewrite ?Hadd; go_prog;
    repeat match goal with r : answer (CObserve _) |- _ => destruct r end; split_and!; eauto; by split.
Qed.

(** Whether the daemon looks into a directory below its root: only in the two stores *)
Definition within (c : Cache) (dir : string) (looks : bool) : Prop :=
  ∀ ws rel, abs_path (diskRoot c) ws → abs_path dir (ws ++ rel) → looks = in_store rel.

Lemma within_allowed c dir : within c dir (watchPathAllowed (diskRoot c) dir).
Proof. intros ws rel Hroot Hdir. by apply (watchPathAllowed_below (diskRoot c) ws Hroot). Qed.

(** What the event of a directory does.  Only one that was made or moved in matters:
    its watches are added, and when they are, its entries are counted. *)
Definition directory_effect n (e : Event) (tr : trace) (res : option NotifyError * Notify T) : Prop :=
  if HasEvent e InCreate || HasEvent e InMovedTo then
    let c := cache n in
    let dir := Clean (Name e) in
    ∃ w err w' tr1 tr2, watcher n = Some w ∧ tr = tr1 ++ tr2 ∧
      exec (addDirectoryWatches c w dir) tr1 (err, w') ∧ watcher res.2 = Some w' ∧
      match err with
      | Some why => res.1 = Some (ErrWatchNew why) ∧ tr2 = [] ∧ heavykeeper res.2 = heavykeeper n
      | None => ∃ seed_err looks, res.1 = ErrSeedNew <$> seed_err ∧ within c dir looks ∧
          if looks : bool
          then seeding getwd c dir (heavykeeper n) tr2 (seed_err, heavykeeper res.2)
          else tr2 = [] ∧ seed_err = None ∧ heavykeeper res.2 = heavykeeper n
      end
  else tr = [] ∧ res = (None, n).

Lemma handle_directory_run cap n e : heat_ok cap (heavykeeper n) → is_Some (watcher n) →
  holds (handle_directory getwd n e) (λ tr res, event_frame n res.2 ∧
    heat_ok cap (heavykeeper res.2) ∧ Forall background tr ∧ directory_effect n e tr res).
Proof.
  intros Hok [w Hw]. unfold handle_directory, directory_effect. destruct (_ || _); [|by split_and!].
  rewrite Hw. go_prog. eapply holds_impl; [|by apply holds_self, addDirectoryWatches_background].
  intros tr [err w'] [Hx Htr]. cbn [fst snd] in *. destruct err as [e'|]; go_prog.
  { rewrite app_nil_r. split_and!; [by split|done|done|]. exists w, (Some e'), w', tr, [].
    by rewrite app_nil_r. }
  eapply holds_impl; [|apply holds_and; [by apply (seedExistingEntries_ok cap)|
    apply (seedExistingEntries_run getwd (cache n)); by destruct Hok]].
  intros tr' [err hk'] [[Htr' Hok'] Hseed]. go_prog. rewrite app_nil_r.
  split_and!; [by split|done|by apply Forall_app|].
  exists w, None, w', tr, tr'. split_and!; [done..|]. cbn [fst snd] in *.
  exists err, (watchPathAllowed (diskRoot (cache n)) (Clean (Name e))).
  split; [by destruct err|]. split; [apply within_allowed|]. destruct (watchPathAllowed _ _); [done|].
  destruct Hseed as [-> [= -> ->]]. done.
Qed.

(** C22. What one event does, on every branch.  An event that ends the coverage of a
    watch is an error and changes nothing.  The event of a file outside the two
    stores is ignored; that of a cache entry makes no system call: it removes the
    key when the file is gone, counts one access when it was opened or moved in,
    and reports exactly the closes and accesses.  The event of a directory is ignored
    unless it was made or moved in; then its watches are added, and if they are, and it
    is in one of the two stores, one access is counted for each entry that a walk finds
    in it and that is a regular file; it fails when a watch cannot be added or a directory not be listed.  The
    heat model never tracks anything but valid keys, and no event touches readiness,
    the warm-up or the eviction state. *)
Theorem handleEvent_effect cap n event : heat_ok cap (heavykeeper n) → is_Some (watcher n) →
  holds (handleEvent getwd n event) (λ tr res,
    event_frame n res.2 ∧ heat_ok cap (heavykeeper res.2) ∧
    match event with
    | None => res = (None, n) ∧ tr = []
    | Some e =>
        if ends_coverage e then res = (Some (ErrCoverage (Name e)), n) ∧ tr = []
        else if HasEvent e InIsdir then directory_effect n e tr res
        else res.1 = None ∧
          match KeyForPath getwd (diskRoot (cache n)) (Name e) with
          | Err _ => tr = [] ∧ res.2 = n
          | Ok (key, kind) => tr = reports (file_reports e kind) ∧
              file_heat e key (heavykeeper n) (heavykeeper res.2)
          end
    end).
Proof.
  intros Hok Hw. unfold handleEvent. destruct event as [e|]; [|by split_and!].
  rewrite coverage_lost_ends. destruct (ends_coverage e); [by split_and!|]. destruct (HasEvent e InIsdir).
  - eapply holds_impl; [|by apply handle_directory_run]. by intros tr res (? & ? & _ & ?).
  - eapply holds_impl; [|by apply handle_file_run]. by intros tr res (? & ? & ? & ? & ?).
Qed.
End heat.
