(* ===== verification/RunLoop.v ===== *)
(** * The run loop (notify.go: New, Run, reconcile, drainReconciliationEvents,
    scanEntriesWhileDraining, recoverWatcher, restoreCheckpoint, saveCheckpoint)

    The life of the daemon: restore the checkpoint, build the watches while draining
    their events, then serve the watcher, the timers and cancellation in whatever
    order they arrive. *)

From S2P Require Import Prelude MinHeapSpec TopkSpec Policy Paths CacheKey Inotify System Watcher.
From S2P Require Import Cache Lease Checkpoint Cleanup Watching.
Local Open Scope Z_scope.

(** ** Data *)

Record Config := mkConfig {
  CacheDir : string; ActivityLock : string; CheckpointFile : string; ConfigPolicy : EvictionPolicy
}.

Inductive NewError :=
| ErrPolicy (e : PolicyError)
| ErrEmptyPath
| ErrNewCache (e : NewCacheError)
| ErrNewLease (e : LeaseError).

(** What [Run] has come to: it returned, nil or an error, or is still running. *)
Inductive run_end := Returned (err : option NotifyError) | Running.

(** The zero value of [time.Time], January 1 of the year 1, in nanoseconds. *)
Definition zero_time : Z := - 62135596800 * 10 ^ 9.

(** ** Operations *)

Section run_loop.
Context {T : Type} `{!Topk T} `{!Sorter}.
Context (getwd : result CacheError string).
Implicit Types n : Notify T.

Definition New (NewHeavyKeeper : Z → Z → Z → Float64.float64 → Z → T) (config : Config) :
    prog (result NewError (Notify T)) :=
  let policy := ConfigPolicy config in
  match Validate policy with
  | Some e => Ret (Err (ErrPolicy e))
  | None =>
      if String.eqb (CacheDir config) EmptyString || String.eqb (CheckpointFile config) EmptyString
      then Ret (Err ErrEmptyPath) else
      cache ← NewCache getwd (CacheDir config);
      match cache with
      | Err e => Ret (Err (ErrNewCache e))
      | Ok cache =>
          match NewActivityLease (ActivityLock config) with
          | Err e => Ret (Err (ErrNewLease e))
          | Ok lease =>
              Ret (Ok (mkNotify cache None
                (NewHeavyKeeper (TopKCapacity policy) (TopKWidth policy) (TopKDepth policy)
                   (TopKDecay policy) (TopKMinCount policy))
                lease policy (CheckpointFile config) false zero_time false))
          end
      end
  end.

Definition Ready n : bool := ready n.

Definition set_ready n (r : bool) : Notify T :=
  mkNotify (cache n) (watcher n) (heavykeeper n) (lease n) (policy n) (checkpointFile n) r
    (warmUntil n) (evicting n).
Definition set_warm n (t : Z) : Notify T :=
  mkNotify (cache n) (watcher n) (heavykeeper n) (lease n) (policy n) (checkpointFile n) (ready n)
    t (evicting n).

(** The items whose file still is in the cache *)
Fixpoint existing_items (c : Cache) (items : list Item) : prog (list Item) :=
  match items with
  | [] => Ret []
  | item :: items =>
      snapshot ← Snapshot c (Item_Key item);
      existing ← existing_items c items;
      Ret (match snapshot with Ok _ => item :: existing | Err _ => existing end)
  end.

Definition restoreCheckpoint n : prog (bool * Notify T) :=
  loaded ← loadCheckpoint (checkpointFile n) (TopKCapacity (policy n));
  match loaded with
  | Err _ => _ ← log_error "Ignoring invalid hot-set checkpoint"; Ret (false, n)
  | Ok None => Ret (false, n)
  | Ok (Some items) =>
      existing ← existing_items (cache n) items;
      hk ← lift (Topk_Restore (heavykeeper n) existing);
      Ret (true, set_topk n hk)
  end.

Definition save_checkpoint n : prog (option CheckpointError) :=
  items ← lift (Topk_List (heavykeeper n));
  now ← do_call CNow;
  Checkpoint.saveCheckpoint (checkpointFile n) items now.

(** The loop of [drainReconciliationEvents]: so many receptions, then the one from
    [stop], unless an error ends it. *)
Fixpoint drain_loop (c : Cache) (turns : nat) (w : Watcher) : prog (option NotifyError * Watcher) :=
  match turns with
  | O => _ ← do_call CStopped; Ret (None, w)
  | S turns =>
      m ← do_call (CReceive (w_fd w));
      match (m : watcher_message) with
      | MsgEventsClosed => Ret (Some ErrEventsClosed, w)
      | MsgErrorsClosed => Ret (Some ErrErrorsClosed, w)
      | MsgError ErrEventOverflow => Ret (Some ErrOverflow, w)
      | MsgError e => Ret (Some (ErrWatcher e), w)
      | MsgEvent event =>
          '(err, w) ← handleReconciliationEvent c w event;
          match err with
          | Some e => Ret (Some e, w)
          | None => drain_loop c turns w
          end
      end
  end.
Definition drainReconciliationEvents (c : Cache) (w : Watcher) : prog (option NotifyError * Watcher) :=
  turns ← do_call CTurns; drain_loop c turns w.

Definition scanEntriesWhileDraining (c : Cache) (w : Watcher) :
    prog (result NotifyError (list EntryInfo) * Watcher) :=
  '(entries, (drainErr, w)) ← par (GetEntries getwd c) (drainReconciliationEvents c w);
  match entries with
  | Err e => Ret (Err (ErrRescan e), w)
  | Ok entries =>
      match drainErr with Some e => Ret (Err e, w) | None => Ret (Ok entries, w) end
  end.

(** [if n.watcher != nil { _ = n.watcher.Close() }] *)
Definition close_watcher n : prog (Notify T) :=
  match watcher n with
  | None => Ret n
  | Some w => w ← Close w; Ret (set_watcher n (Some w))
  end.

(** The end of [reconcile], once the watches are built and the entries scanned *)
Definition reconciled n (watcher : Watcher) (resetHeat : bool) (entries : list EntryInfo) :
    prog (option NotifyError * Notify T) :=
  let n := set_watcher n (Some watcher) in
  n ← (if resetHeat then
         hk ← lift (Topk_Reset (heavykeeper n));
         now ← do_call CNow;
         Ret (set_warm (set_topk n hk) (now + WarmupDuration (policy n)))
       else Ret n);
  _ ← observe (SetCacheBytes (totalBytes entries));
  _ ← observe RecordReconciliation;
  _ ← store_ready true;
  let n := set_ready n true in
  _ ← observe (SetReady true);
  Ret (None, n).

Definition reconcile n (resetHeat : bool) : prog (option NotifyError * Notify T) :=
  _ ← store_ready false;
  let n := set_ready n false in
  _ ← observe (SetReady false);
  n ← close_watcher n;
  watcher ← NewWatcher;
  match watcher with
  | Err e => Ret (Some (ErrCreateWatcher e), n)
  | Ok watcher =>
  '(err, watcher) ← addDirectoryWatches (cache n) watcher (diskRoot (cache n));
  match err with
  | Some e => _ ← Close watcher; Ret (Some (ErrRebuild e), n)
  | None =>
  '(entries, watcher) ← scanEntriesWhileDraining (cache n) watcher;
  match entries with
  | Err e => _ ← Close watcher; Ret (Some e, n)
  | Ok entries => reconciled n watcher resetHeat entries
  end end end.

Definition recoverWatcher n : prog (option NotifyError * Notify T) :=
  _ ← observe (RecordFrozen "watcher_loss");
  _ ← log_error "Freezing deletion and rebuilding watcher state";
  reconcile n true.

(** One turn of the loop of [Run]: [Some err] when it returns [err]. *)
Definition recover_or_return n : prog (option (option NotifyError) * Notify T) :=
  '(err, n) ← recoverWatcher n;
  Ret (match err with Some e => Some (Some e) | None => None end, n).

Definition log_failure {E} (err : option E) (what : string) : prog unit :=
  match err with Some _ => log_error what | None => Ret tt end.

Definition serve n (choice : run_choice) : prog (option (option NotifyError) * Notify T) :=
  match choice with
  | RunDone =>
      err ← save_checkpoint n;
      _ ← log_failure err "Failed to save final hot-set checkpoint";
      Ret (Some None, n)
  | RunWatcher MsgEventsClosed | RunWatcher MsgErrorsClosed => recover_or_return n
  | RunWatcher (MsgEvent event) =>
      '(err, n) ← handleEvent getwd n event;
      match err with Some _ => recover_or_return n | None => Ret (None, n) end
  | RunWatcher (MsgError ErrEventOverflow) => recover_or_return n
  | RunWatcher (MsgError _) => _ ← log_error "Inotify watcher error"; Ret (None, n)
  | RunCleanup =>
      now ← do_call CNow;
      '(err, n) ← cleanup getwd n now;
      _ ← log_failure err "Cache cleanup failed";
      Ret (None, n)
  | RunCheckpoint =>
      err ← save_checkpoint n;
      _ ← log_failure err "Failed to save hot-set checkpoint";
      Ret (None, n)
  | RunDecay => hk ← lift (Topk_Fading (heavykeeper n)); Ret (None, set_topk n hk)
  end.

Fixpoint run_loop (turns : nat) n : prog (run_end * Notify T) :=
  match turns with
  | O => Ret (Running, n)
  | S turns =>
      match watcher n with
      | None => Panic
      | Some w =>
          choice ← do_call (CSelect (w_fd w));
          '(returned, n) ← serve n choice;
          match returned with
          | Some err => Ret (Returned err, n)
          | None => run_loop turns n
          end
      end
  end.

(** [time.NewTicker] panics unless the interval is positive. *)
Definition NewTicker (interval : Z) : prog unit := if interval <=? 0 then Panic else Ret tt.

(** The deferred function of [Run] *)
Definition stop_run n : prog (Notify T) :=
  _ ← store_ready false;
  let n := set_ready n false in
  _ ← observe (SetReady false);
  close_watcher n.

(** [Run] once it has reconciled: the tickers, the loop, and the deferred function. *)
Definition run_reconciled n : prog (run_end * Notify T) :=
  _ ← NewTicker (DiskCheckInterval (policy n));
  _ ← NewTicker (CheckpointInterval (policy n));
  _ ← NewTicker (TopKDecayInterval (policy n));
  turns ← do_call CTurns;
  '(res, n) ← run_loop turns n;
  match res with
  | Running => Ret (Running, n)
  | Returned err => n ← stop_run n; Ret (Returned err, n)
  end.

Definition Run n : prog (run_end * Notify T) :=
  '(checkpointRestored, n) ← restoreCheckpoint n;
  '(err, n) ← reconcile n false;
  match err with
  | Some e => Ret (Returned (Some e), n)
  | None =>
      n ← (if checkpointRestored : bool then Ret n
           else now ← do_call CNow; Ret (set_warm n (now + WarmupDuration (policy n))));
      run_reconciled n
  end.
End run_loop.
