(* ===== verification/Options.v ===== *)
(** * Command line options (main.go: parseOptions, evictionConfig, gibToBytes)

    What the daemon's flags become: the defaults, the checks after the flags are
    parsed, and the conversion to the configuration of package [eviction], with the
    widths of its integers.  [flag.FlagSet.Parse] is an argument. *)

From S2P Require Import Prelude Float64 Policy Paths CacheKey TopkSpec System RunLoop.
Local Open Scope Z_scope.

(** ** Data *)

Definition gibibyte : Z := 2 ^ 30.
Definition MaxInt64 : Z := 2 ^ 63 - 1.
Definition MaxUint32 : Z := 2 ^ 32 - 1.
Definition second : Z := 10 ^ 9.
Definition minute : Z := 60 * second.
Definition hour : Z := 60 * minute.

Record options := mkOptions {
  cacheDir : string; activityLock : string; checkpointFile : string; host : string;
  metricsPort : Z; pprofHost : string; pprofPort : Z; shadow : bool;
  diskCheckInterval : Z; checkpointInterval : Z; minimumResidence : Z; warmupDuration : Z;
  topKDecayInterval : Z;
  minPercentBlocksFree : float64; evictUntilPercentBlocksFree : float64;
  maxCacheGiB : Z; targetCacheGiB : Z; minActionCacheGiB : Z;
  cleanupBatchSize : Z; topKCapacity : Z; topKWidth : Z; topKDepth : Z;
  topKDecay : float64; topKMinCount : Z
}.

Inductive OptionsError E :=
| ErrParse (e : E)
| ErrPositional (args : list string)
| ErrCacheDir
| ErrPorts.
Arguments ErrParse {E}. Arguments ErrPositional {E}. Arguments ErrCacheDir {E}. Arguments ErrPorts {E}.

Inductive ConfigError := ErrGiB (value : Z) | ErrTopKValues.

(** ** Operations *)

(** What declaring the flags writes: their defaults. *)
Definition default_options : options :=
  mkOptions "" "" "" "0.0.0.0" 9092 "127.0.0.1" 0 true
    minute (5 * minute) hour (30 * minute) hour
    (f_of_Z 30) (f_of_Z 35) 400 320 4 100 100000 (Z.shiftl 1 17) 4
    (f_div (f_of_Z 9) (f_of_Z 10)) 1.

Definition set_cacheDir (o : options) (dir : string) : options :=
  mkOptions dir (activityLock o) (checkpointFile o) (host o) (metricsPort o) (pprofHost o)
    (pprofPort o) (shadow o) (diskCheckInterval o) (checkpointInterval o) (minimumResidence o)
    (warmupDuration o) (topKDecayInterval o) (minPercentBlocksFree o)
    (evictUntilPercentBlocksFree o) (maxCacheGiB o) (targetCacheGiB o) (minActionCacheGiB o)
    (cleanupBatchSize o) (topKCapacity o) (topKWidth o) (topKDepth o) (topKDecay o) (topKMinCount o).
Definition set_state_files (o : options) (lock checkpoint : string) : options :=
  mkOptions (cacheDir o) lock checkpoint (host o) (metricsPort o) (pprofHost o)
    (pprofPort o) (shadow o) (diskCheckInterval o) (checkpointInterval o) (minimumResidence o)
    (warmupDuration o) (topKDecayInterval o) (minPercentBlocksFree o)
    (evictUntilPercentBlocksFree o) (maxCacheGiB o) (targetCacheGiB o) (minActionCacheGiB o)
    (cleanupBatchSize o) (topKCapacity o) (topKWidth o) (topKDepth o) (topKDecay o) (topKMinCount o).

(** [flags_Parse] answers the options the arguments leave, and the positional ones. *)
Definition parseOptions {E} (flags_Parse : options → list string → result E (options * list string))
    (args : list string) : result (OptionsError E) options :=
  match flags_Parse default_options args with
  | Err e => Err (ErrParse e)
  | Ok (opts, rest) =>
      if negb (Nat.eqb (length rest) 0) then Err (ErrPositional rest) else
      if String.eqb (cacheDir opts) "" then Err ErrCacheDir else
      let lock := if String.eqb (activityLock opts) ""
                  then Join [Dir (cacheDir opts); "bazel-cache.activity.lock"] else activityLock opts in
      let checkpoint := if String.eqb (checkpointFile opts) ""
                        then Join [Dir (cacheDir opts); "hoshino-state"; "hot-set.json"]
                        else checkpointFile opts in
      let opts := set_state_files opts lock checkpoint in
      if (metricsPort opts <=? 0) || (65535 <? metricsPort opts) || (pprofPort opts <? 0) ||
         (65535 <? pprofPort opts)
      then Err ErrPorts else Ok opts
  end.

Definition gibToBytes (value : Z) : result ConfigError Z :=
  if MaxInt64 / gibibyte <? value then Err (ErrGiB value) else Ok (i64 (i64 value * gibibyte)).

Definition evictionConfig (o : options) : result ConfigError Config :=
  match gibToBytes (maxCacheGiB o) with
  | Err e => Err e
  | Ok maxCacheBytes =>
  match gibToBytes (targetCacheGiB o) with
  | Err e => Err e
  | Ok targetCacheBytes =>
  match gibToBytes (minActionCacheGiB o) with
  | Err e => Err e
  | Ok minActionCacheBytes =>
      if (MaxUint32 <? topKCapacity o) || (MaxUint32 <? topKWidth o) || (MaxUint32 <? topKDepth o) ||
         (MaxUint32 <? topKMinCount o)
      then Err ErrTopKValues else
      Ok (mkConfig (cacheDir o) (activityLock o) (checkpointFile o)
        (mkPolicy (diskCheckInterval o) (checkpointInterval o) (topKDecayInterval o)
          (minimumResidence o) (warmupDuration o) (minPercentBlocksFree o)
          (evictUntilPercentBlocksFree o) maxCacheBytes targetCacheBytes minActionCacheBytes
          (cleanupBatchSize o) (u32 (topKCapacity o)) (u32 (topKWidth o)) (u32 (topKDepth o))
          (topKDecay o) (u32 (topKMinCount o)) (shadow o)))
  end end end.

(** ** Widths *)

(** The Go types of the numeric options: [uint64] and [uint], which has 64 bits. *)
Record typed (o : options) : Prop := {
  typed_gib : in_u64 (maxCacheGiB o) ∧ in_u64 (targetCacheGiB o) ∧ in_u64 (minActionCacheGiB o);
  typed_topk : in_u64 (topKCapacity o) ∧ in_u64 (topKWidth o) ∧ in_u64 (topKDepth o) ∧
    in_u64 (topKMinCount o)
}.

(** What an operator asked for can be represented. *)
Definition fits (o : options) : Prop :=
  Forall (λ v, in_i64 (v * gibibyte)) [maxCacheGiB o; targetCacheGiB o; minActionCacheGiB o] ∧
  Forall in_u32 [topKCapacity o; topKWidth o; topKDepth o; topKMinCount o].

(** The configuration it means, in unbounded arithmetic *)
Definition meant (o : options) : Config :=
  mkConfig (cacheDir o) (activityLock o) (checkpointFile o)
    (mkPolicy (diskCheckInterval o) (checkpointInterval o) (topKDecayInterval o)
      (minimumResidence o) (warmupDuration o) (minPercentBlocksFree o)
      (evictUntilPercentBlocksFree o) (maxCacheGiB o * gibibyte) (targetCacheGiB o * gibibyte)
      (minActionCacheGiB o * gibibyte) (cleanupBatchSize o) (topKCapacity o) (topKWidth o)
      (topKDepth o) (topKDecay o) (topKMinCount o) (shadow o)).

Lemma gibToBytes_run v : in_u64 v →
  match gibToBytes v with
  | Ok b => b = v * gibibyte ∧ in_i64 (v * gibibyte)
  | Err e => e = ErrGiB v ∧ ¬ in_i64 (v * gibibyte)
  end.
Proof.
  unfold gibToBytes, MaxInt64, gibibyte. intros Hv.
  change ((2 ^ 63 - 1) / 2 ^ 30) with (2 ^ 33 - 1). destruct (Z.ltb_spec (2 ^ 33 - 1) v).
  - split; [done|]. unfold in_i64. lia.
  - rewrite (i64_id v) by width.
    assert (in_i64 (v * 2 ^ 30)) as Hi by width. by rewrite i64_id.
Qed.

Lemma u32_fits v : in_u64 v → (MaxUint32 <? v) = false ↔ in_u32 v.
Proof. unfold MaxUint32, in_u64, in_u32. rewrite Z.ltb_ge. lia. Qed.

Lemma fits_iff o : fits o ↔
  (in_i64 (maxCacheGiB o * gibibyte) ∧ in_i64 (targetCacheGiB o * gibibyte) ∧
   in_i64 (minActionCacheGiB o * gibibyte)) ∧
  in_u32 (topKCapacity o) ∧ in_u32 (topKWidth o) ∧ in_u32 (topKDepth o) ∧ in_u32 (topKMinCount o).
Proof. unfold fits. rewrite !Forall_cons, !Forall_nil. tauto. Qed.

Lemma evictionConfig_run o : typed o →
  match evictionConfig o with
  | Ok c => fits o ∧ c = meant o ∧ topk_u32 (ConfigPolicy c)
  | Err _ => ¬ fits o
  end.
Proof.
  intros [(H1 & H2 & H3) (T1 & T2 & T3 & T4)]. unfold evictionConfig. pose proof (fits_iff o) as Hf.
  pose proof (gibToBytes_run _ H1) as G1. destruct (gibToBytes (maxCacheGiB o)); [|tauto].
  pose proof (gibToBytes_run _ H2) as G2. destruct (gibToBytes (targetCacheGiB o)); [|tauto].
  pose proof (gibToBytes_run _ H3) as G3. destruct (gibToBytes (minActionCacheGiB o)); [|tauto].
  rewrite <-(u32_fits _ T1), <-(u32_fits _ T2), <-(u32_fits _ T3), <-(u32_fits _ T4) in Hf.
  destruct (MaxUint32 <? topKCapacity o) eqn:E1, (MaxUint32 <? topKWidth o) eqn:E2,
    (MaxUint32 <? topKDepth o) eqn:E3, (MaxUint32 <? topKMinCount o) eqn:E4; cbn [orb]; try (intuition congruence).
  apply u32_fits in E1, E2, E3, E4; [|done..]. destruct G1 as [-> G1], G2 as [-> G2], G3 as [-> G3].
  unfold meant. rewrite !u32_id by done. split; [tauto|]. split; [done|]. by split.
Qed.

(** C38. [evictionConfig] never truncates.  It succeeds exactly when the three sizes, in
    bytes, fit in an [int64] and the four dimensions of the sketch in a [uint32], and
    then the configuration is the one the options mean, in unbounded arithmetic; the
    policy has the widths that [New] relies on. *)
Theorem evictionConfig_exact o : typed o →
  match evictionConfig o with
  | Ok c => fits o ∧ c = meant o ∧ topk_u32 (ConfigPolicy c)
  | Err _ => ¬ fits o
  end.
Proof. apply evictionConfig_run. Qed.

(** ** The defaults *)

Lemma Join_three a b c : a ≠ EmptyString → b ≠ EmptyString → c ≠ EmptyString →
  Join [a; b; c] = Join [a; join [b; c]].
Proof.
  intros Ha Hb Hc. assert (join [b; c] ≠ EmptyString) as Hj by by destruct b.
  unfold Join. rewrite !filter_all by by repeat constructor. done.
Qed.

Lemma default_run {E} (flags_Parse : options → list string → result E (options * list string))
    args dir ws w :
  flags_Parse default_options args = Ok (set_cacheDir default_options dir, []) →
  abs_path dir (ws ++ [w]) → ∃ o config,
    parseOptions flags_Parse args = Ok o ∧ evictionConfig o = Ok config ∧
    Validate (ConfigPolicy config) = None ∧ Shadow (ConfigPolicy config) = true ∧
    CacheDir config = dir ∧
    abs_path (ActivityLock config) (ws ++ ["bazel-cache.activity.lock"%string]) ∧
    abs_path (CheckpointFile config) (ws ++ ["hoshino-state"; "hot-set.json"]%string).
Proof.
  intros Hparse Hdir. unfold parseOptions. rewrite Hparse. cbn [length Nat.eqb negb].
  assert (String.eqb (cacheDir (set_cacheDir default_options dir)) "" = false) as ->.
  { cbn. apply String.eqb_neq. by destruct Hdir as [-> _]. }
  cbn [activityLock checkpointFile set_cacheDir default_options String.eqb].
  do 2 eexists. split; [reflexivity|]. split; [reflexivity|].
  split; [vm_compute; reflexivity|]. split; [done|]. split; [done|].
  pose proof (Dir_abs _ _ _ Hdir) as Hp.
  assert (∀ x, x ∈ ["bazel-cache.activity.lock"; "hoshino-state"; "hot-set.json"]%string → name x) as Hn.
  { intros x Hx. repeat (apply elem_of_cons in Hx as [->|Hx]; [repeat split; discriminate|]).
    by apply elem_of_nil in Hx. }
  split.
  - change (abs_path (Join [Dir dir; join ["bazel-cache.activity.lock"%string]])
      (ws ++ ["bazel-cache.activity.lock"%string])).
    apply Join_below; [done|constructor; [apply Hn; set_solver|constructor]|done].
  - change (abs_path (Join [Dir dir; "hoshino-state"; "hot-set.json"]%string)
      (ws ++ ["hoshino-state"; "hot-set.json"]%string)).
    rewrite Join_three by (done || by destruct Hp as [-> _]).
    apply (Join_below (Dir dir) ws ["hoshino-state"; "hot-set.json"]%string);
      [done|constructor; [apply Hn; set_solver|constructor; [apply Hn; set_solver|constructor]]|done].
Qed.

(** A daemon that is given nothing but its cache directory is safe: it starts in
    shadow mode with a policy that [New] accepts, and its lock and checkpoint live
    beside the cache directory, not in it. *)
Theorem default_options_safe {E} (flags_Parse : options → list string → result E (options * list string))
    args dir ws w :
  flags_Parse default_options args = Ok (set_cacheDir default_options dir, []) →
  abs_path dir (ws ++ [w]) → ∃ o config,
    parseOptions flags_Parse args = Ok o ∧ evictionConfig o = Ok config ∧
    Validate (ConfigPolicy config) = None ∧ Shadow (ConfigPolicy config) = true ∧
    CacheDir config = dir ∧
    abs_path (ActivityLock config) (ws ++ ["bazel-cache.activity.lock"%string]) ∧
    abs_path (CheckpointFile config) (ws ++ ["hoshino-state"; "hot-set.json"]%string).
Proof. apply default_run. Qed.

(** ** Examples *)

(** A flag set that only knows [--cache-dir=]. *)
Definition demo_Parse (o : options) (args : list string) : result unit (options * list string) :=
  match args with
  | [arg] => if String.prefix "--cache-dir=" arg
             then Ok (set_cacheDir o (String.substring 12 (String.length arg - 12) arg), [])
             else Err tt
  | _ => Err tt
  end.

Lemma default_options_safe_witness : ∃ o config,
  parseOptions demo_Parse ["--cache-dir=/var/cache"%string] = Ok o ∧ evictionConfig o = Ok config ∧
  Validate (ConfigPolicy config) = None ∧ Shadow (ConfigPolicy config) = true ∧
  CacheDir config = demo_root ∧
  abs_path (ActivityLock config) ["var"; "bazel-cache.activity.lock"]%string ∧
  abs_path (CheckpointFile config) ["var"; "hoshino-state"; "hot-set.json"]%string.
Proof.
  apply (default_options_safe demo_Parse ["--cache-dir=/var/cache"%string] demo_root ["var"%string] "cache");
    [vm_compute; reflexivity|apply demo_root_abs].
Defined.

Lemma default_options_typed : typed default_options.
Proof. split; vm_compute; repeat split; discriminate. Qed.

Lemma evictionConfig_exact_witness : typed default_options ∧
  match evictionConfig default_options with
  | Ok c => fits default_options ∧ c = meant default_options ∧ topk_u32 (ConfigPolicy c)
  | Err _ => ¬ fits default_options
  end.
Proof. split; [exact default_options_typed|]. apply (evictionConfig_exact _ default_options_typed). Defined.

(** With a trailing slash the defaults move into the cache directory: [filepath.Dir]
    only drops what follows the last separator. *)
Example trailing_slash :
  match parseOptions demo_Parse ["--cache-dir=/var/cache/"%string] with
  | Ok o => activityLock o = "/var/cache/bazel-cache.activity.lock"%string
  | Err _ => False
  end.
Proof. vm_compute. reflexivity. Qed.
