(* ===== verification/RunSafety.v ===== *)
(** * What the parts of a run keep

    A monitor of what an observer of the calls knows (readiness, the clock, why
    deletions may be frozen), and the lemmas that each operation of the run loop keeps
    to it: it deletes only when the monitor allows it, under the lock, and writes only
    checkpoints that will be accepted.  Runs.v composes them. *)

From S2P Require Import Prelude Float64 MinHeapSpec TopkSpec Policy Paths CacheKey Inotify System Partial.
From S2P Require Import Watcher Cache Lease Checkpoint Cleanup Watching RunLoop.
Local Open Scope Z_scope.

(** ** Reading the programs *)

(** The calls of a cleanup cycle: the clock, the watcher, the checkpoint and readiness
    are left alone, and nothing is removed or renamed by its path. *)
Definition cycle_call (c : call) : Prop :=
  match c with
  | CNow | CEncode _ _ | CSelect _ | CInotifyInit | CRemove _ | CRename _ _ | CStoreReady _ => False
  | CObserve (SetReady _) | CObserve RecordReconciliation => False
  | CObserve (RecordFrozen reason) => reason ≠ "watcher_loss"%string
  | _ => True
  end.

Lemma Delete_calls c e : tame cycle_call (λ _, True) (Delete c e).
Proof.
  unfold Delete, deleteSnapshot, with_dir, delete_in_shard. go_tame.
Qed.

Lemma GetDiskUsage_calls path : tame cycle_call (λ _, True) (GetDiskUsage path).
Proof. unfold GetDiskUsage. go_tame. Qed.

Lemma Snapshot_calls c key : tame cycle_call (λ _, True) (Snapshot c key).
Proof. unfold Snapshot. go_tame. Qed.

Lemma WalkDir_calls {S E} P (fn : string → option dirent → option errno → S → prog (S * walk_status E))
    root s : (∀ path, P (CReadDir path)) → P (CWalk root) →
  (∀ path entry err s, tame P (λ _, True) (fn path entry err s)) →
  tame P (λ _, True) (WalkDir fn root s).
Proof.
  intros Hlist Hwalk Hfn. unfold WalkDir. go_tame.
  match goal with t : tree |- _ => clear Hwalk; revert root s; induction t as [d cs err IH] using tree_rect_nested end.
  intros root s. cbn [walk_dir].
  apply (tame_bind _ (λ _, True)); [apply Hfn|intros [s1 st1] _]. destruct st1; [|done|done].
  destruct (d_isdir d); [|done].
  apply (tame_bind _ (λ _, True)); [by split|intros ? _].
  apply (tame_bind _ (λ _, True)); [destruct err; [apply Hfn|done]|intros [s2 st2] _].
  destruct st2; [|done|done]. clear s1. revert s2.
  induction IH as [|[nm t1] cs Ht _ IHcs]; intros s2; [done|].
  apply (tame_bind _ (λ _, True)); [by apply Ht|intros [s3 st3] _]. by destruct st3.
Qed.

Lemma GetEntries_calls getwd c : tame cycle_call (λ _, True) (GetEntries getwd c).
Proof.
  unfold GetEntries. generalize ([] : list EntryInfo). induction [ActionCache; ContentCAS] as [|k ks IH]; [done|].
  intros es. cbn [entries_loop]. apply (tame_bind _ (λ _, True)).
  - apply WalkDir_calls; [done|done|]. intros path entry err s. unfold entries_fn. go_tame.
    apply Snapshot_calls.
  - intros [es' err] _. go_tame; apply IH.
Qed.

Section cycle.
Context {T : Type} `{!Topk T} `{!TopkLaws T} `{!Sorter} `{!SorterLaws}.
Context (getwd : result CacheError string) (cap : Z).
Implicit Types n : Notify T.

(** A cycle changes the heat, by removals, and [evicting]. *)
Definition cycle_of n n' : Prop :=
  ∃ hk ev, n' = set_heat n hk ev ∧ heat_ok cap hk.

Lemma cycle_of_evicting n ev : heat_ok cap (heavykeeper n) → cycle_of n (set_evicting n ev).
Proof. by exists (heavykeeper n), ev. Qed.

Lemma delete_victim_calls c del e v : heat_ok cap (v_heat v) →
  tame cycle_call (λ d : option (victims T), ∀ v', d = Some v' → heat_ok cap (v_heat v')) (delete_victim c del e v).
Proof.
  intros Hv. unfold delete_victim. destruct del; [|by intros ? [= <-]].
  apply (tame_bind _ (λ _, True)); [apply Delete_calls|intros err _]. destruct err.
  - apply (tame_bind _ (λ _, True)); [go_tame|by intros].
  - apply (tame_bind _ (heat_ok cap)).
    + apply tame_lift. intros hk Hrm. destruct (heat_remove cap _ (Key e) Hv) as (hk' & Hrm' & Hok & _).
      congruence.
    + intros hk Hok. apply (tame_bind _ (λ _, True)); [go_tame|]. by intros _ _ v' [= <-].
Qed.

Lemma check_pressure_calls c p del v pct :
  tame cycle_call (λ r : victims T * loop_next, v_heat r.1 = v_heat v) (check_pressure c p del v pct).
Proof.
  unfold check_pressure. destruct (nextEvicting _ _ _); [done|]. destruct del; [|done].
  apply (tame_bind _ (λ _, True)); [apply GetDiskUsage_calls|intros usage _].
  destruct usage as [[[? ?] ?]|]; [by destruct (nextEvicting _ _ _)|]. cbn. by split.
Qed.

Lemma visit_calls c p now del e v : heat_ok cap (v_heat v) →
  tame cycle_call (λ r : victims T * loop_next, heat_ok cap (v_heat r.1)) (visit c p now del e v).
Proof.
  intros Hv. unfold visit. destruct (negb _); [done|].
  eapply tame_bind; [by apply delete_victim_calls|]. intros [v1|] Hd; [|done].
  specialize (Hd v1 eq_refl). assert (heat_ok cap (v_heat (account e v1))) as Ha by done.
  destruct (del && _).
  - apply (tame_bind _ (λ _, True)); [apply GetDiskUsage_calls|intros usage _].
    destruct usage as [[[? ?] ?]|]; [|cbn; by split].
    eapply tame_impl; [done| |apply check_pressure_calls]. by intros r ->.
  - eapply tame_impl; [done| |apply check_pressure_calls]. by intros r ->.
Qed.

Lemma victims_loop_calls c p now del es v : heat_ok cap (v_heat v) →
  tame cycle_call (λ v', heat_ok cap (v_heat v')) (victims_loop c p now del es v).
Proof.
  revert v. induction es as [|e es IH]; intros v Hv; [done|]. cbn [victims_loop].
  eapply tame_bind; [by apply visit_calls|]. intros [v' []] Hv'; [by apply IH|done].
Qed.

Lemma selectVictims_calls n es now free used del : heat_ok cap (heavykeeper n) →
  tame cycle_call (λ r : Z * Notify T, cycle_of n r.2) (selectVictims n es now free used del).
Proof.
  intros Hn. unfold selectVictims. apply (tame_bind _ (λ _, True)); [by apply tame_lift|intros items _].
  eapply tame_bind; [by apply victims_loop_calls|]. intros v Hv. by exists (v_heat v), (v_evicting v).
Qed.

Lemma cycle_of_trans n1 n2 n3 : cycle_of n1 n2 → cycle_of n2 n3 → cycle_of n1 n3.
Proof. intros (hk & ev & -> & _) (hk' & ev' & -> & Hok). by exists hk', ev'. Qed.

Lemma cleanup_calls n now : heat_ok cap (heavykeeper n) →
  tame cycle_call (λ r : option CleanupError * Notify T, cycle_of n r.2) (cleanup getwd n now).
Proof.
  intros Hn. assert (cycle_of n n) as Hself.
  { exists (heavykeeper n), (evicting n). by destruct n. }
  unfold cleanup. apply (tame_bind _ (λ _, True)); [by split|intros _ _].
  apply (tame_bind _ (λ _, True)); [apply GetEntries_calls|intros [entries|] _]; [|done].
  apply (tame_bind _ (λ _, True)); [apply GetDiskUsage_calls|intros [[[pct free] used]|] _]; [|done].
  do 2 (apply (tame_bind _ (λ _, True)); [by split|intros _ _]).
  set (n1 := set_evicting n _). assert (cycle_of n n1) as H1 by by apply cycle_of_evicting.
  destruct (negb (evicting n1)); [done|].
  destruct (negb (ready n1)); [cbn; by split|]. destruct (now <? warmUntil n1); [cbn; by split|].
  destruct (Shadow (policy n1)).
  { eapply tame_bind; [by apply selectVictims_calls|]. intros [projected n2] H2.
    apply (tame_bind _ (λ _, True)); [by split|intros _ _]. exact (cycle_of_trans _ _ _ H1 H2). }
  apply (tame_bind _ (λ _, True)); [unfold TryExclusive; go_tame|intros [file| |e] _];
    [|cbn; by split|done].
  apply (tame_bind _ (λ r : option CleanupError * Notify T, cycle_of n r.2)).
  - unfold cleanup_locked. apply (tame_bind _ (λ _, True)); [apply GetEntries_calls|intros [es|] _]; [|done].
    apply (tame_bind _ (λ _, True)); [apply GetDiskUsage_calls|intros [[[pct' free'] used']|] _]; [|done].
    set (n2 := set_evicting n1 _). assert (cycle_of n n2) as H2 by (eapply cycle_of_trans; [exact H1|by apply cycle_of_evicting]).
    destruct (negb (evicting n2)); [done|].
    eapply tame_bind; [by apply selectVictims_calls|]. intros [projected n3] H3. exact (cycle_of_trans _ _ _ H2 H3).
  - intros result Hres. apply (tame_bind _ (λ _, True)); [unfold release; go_tame|intros err _].
    apply (tame_bind _ (λ _, True)); [destruct err; go_tame|by intros _ _].
Qed.
End cycle.

(** ** The monitor of deletions

    What an observer of the calls knows: whether readiness is announced, the last
    reading of the clock, and why deletions may be frozen.  A daemon that starts
    without a checkpoint is [Cold] until it first reads the clock.  One that lost its
    watches is [Lost] until it has made a new watcher, read the clock and reported its
    reconciliation, all of it since the loss; from then on deletions wait for the
    warm-up to pass. *)
Inductive phase := Cold | Lost (rebuilt : bool) (clock : option Z) | Warm (deadline : Z).
Record monitor := mkMonitor { m_ready : bool; m_phase : phase; m_now : Z }.

(** What the [select] received means that watches are lost: a channel was closed,
    events were dropped, or a watch has ended. *)
Definition lost_by (choice : run_choice) : bool :=
  match choice with
  | RunWatcher MsgEventsClosed | RunWatcher MsgErrorsClosed
  | RunWatcher (MsgError ErrEventOverflow) => true
  | RunWatcher (MsgEvent (Some e)) => ends_coverage e
  | _ => false
  end.

Definition set_phase (m : monitor) (ph : phase) : monitor := mkMonitor (m_ready m) ph (m_now m).

Definition observe_step (W : Z) (m : monitor) (o : observation) : monitor :=
  match o with
  | SetReady r => mkMonitor r (m_phase m) (m_now m)
  | RecordFrozen reason =>
      if String.eqb reason "watcher_loss" then set_phase m (Lost false None) else m
  | RecordReconciliation =>
      match m_phase m with
      | Lost true (Some t) => set_phase m (Warm (t + W))
      | _ => m
      end
  | _ => m
  end.

Definition clock_step (W t : Z) (ph : phase) : phase :=
  match ph with
  | Cold => Warm (t + W)
  | Lost rebuilt _ => Lost rebuilt (Some t)
  | Warm d => Warm d
  end.

Definition mon_step (W : Z) (m : monitor) (e : event) : monitor :=
  match e with
  | existT c r =>
      match c return answer c → monitor with
      | CNow => λ t, mkMonitor (m_ready m) (clock_step W t (m_phase m)) t
      | CSelect _ => λ choice, if lost_by choice then set_phase m (Lost false None) else m
      | CInotifyInit => λ r,
          match r, m_phase m with
          | Ok _, Lost _ clock => set_phase m (Lost true clock)
          | _, _ => m
          end
      | CObserve o => λ _, observe_step W m o
      | _ => λ _, m
      end r
  end.
Definition mon_after (W : Z) (m : monitor) (tr : trace) : monitor := foldl (mon_step W) m tr.

(** A deletion is due: ready, and warm. *)
Definition may_delete (m : monitor) : Prop :=
  m_ready m = true ∧ ∃ d, m_phase m = Warm d ∧ d <= m_now m.

Fixpoint paced (W : Z) (m : monitor) (tr : trace) : Prop :=
  match tr with
  | [] => True
  | e :: tr => (is_Some (unlinked e) → may_delete m) ∧ paced W (mon_step W m e) tr
  end.

(** A checkpoint that is written is one that will be accepted. *)
Definition save_ok (cap : Z) (e : event) : Prop :=
  match e with existT (CEncode _ c) _ => checkpoint_ok cap c | _ => True end.

Lemma paced_app W m tr1 tr2 : paced W m (tr1 ++ tr2) ↔ paced W m tr1 ∧ paced W (mon_after W m tr1) tr2.
Proof.
  revert m. induction tr1 as [|e tr1 IH]; intros m; cbn; [naive_solver|]. rewrite IH.
  unfold mon_after. cbn. naive_solver.
Qed.

Lemma fds_fresh_nil open tr : fds_fresh open tr → fds_fresh [] tr.
Proof.
  cut (∀ open', open' ⊆ open → fds_fresh open tr → fds_fresh open' tr).
  { intros H. apply H. intros f ?%elem_of_nil. done. }
  revert open. induction tr as [|e tr IH]; intros open open' Hsub; [done|]. intros [He Htr]. split.
  - intros f Hf Hin. apply (He f Hf). by apply Hsub.
  - eapply IH; [|exact Htr]. unfold open_step. destruct (opened e); [|destruct (closed e)]; [| |done].
    + intros g. rewrite !elem_of_cons. naive_solver.
    + intros h. rewrite !list_elem_of_filter. naive_solver.
Qed.

(** What a part of a run keeps, from the monitor [m] to [m']. *)
Record fine (p : EvictionPolicy) (file : string) (m m' : monitor) (tr : trace) : Prop := {
  fine_paced : paced (WarmupDuration p) m tr;
  fine_after : mon_after (WarmupDuration p) m tr = m';
  fine_locks open : fds_fresh open tr → unlinks_locked [] tr ∧ locks [] tr = [];
  fine_shadow : unlinks tr ≠ [] → Shadow p = false;
  fine_saves : Forall (save_ok (TopKCapacity p)) tr;
  fine_own temps : own_files file temps tr;
  fine_paired : paired tr
}.

Lemma fine_nil p file m : fine p file m m [].
Proof. split; [done|done|by split|by intros []|constructor|done|done]. Qed.

Lemma fine_app p file m1 m2 m3 tr1 tr2 : fine p file m1 m2 tr1 → fine p file m2 m3 tr2 → fine p file m1 m3 (tr1 ++ tr2).
Proof.
  intros [P1 A1 L1 S1 V1 O1 R1] [P2 A2 L2 S2 V2 O2 R2]. split.
  - rewrite paced_app, A1. done.
  - unfold mon_after in *. by rewrite foldl_app, A1.
  - intros open [H1 H2]%fds_fresh_app. destruct (L1 _ H1) as [U1 K1]. destruct (L2 _ H2) as [U2 K2].
    rewrite unlinks_locked_app, locks_app, K1. done.
  - rewrite unlinks_app. intros Hne. destruct (unlinks tr1) eqn:E; [|by apply S1].
    by apply S2.
  - by apply Forall_app.
  - intros temps. by rewrite own_files_app.
  - by apply paired_app.
Qed.

(** An event that takes no lock, deletes nothing but by its path, and leaves readiness
    alone *)
Record lockless (cap : Z) (e : event) : Prop := {
  lockless_ready : not_ready_call (projT1 e);
  lockless_unlink : unlinked e = None;
  lockless_lock : lock_step [] e = [];
  lockless_save : save_ok cap e
}.
Definition not_by_path (e : event) : Prop :=
  match projT1 e with CRemove _ | CRename _ _ => False | _ => True end.
Definition harmless (cap : Z) (e : event) : Prop := lockless cap e ∧ not_by_path e.

Lemma own_harmless file temps e : not_by_path e → own_step file temps e.
Proof. by destruct e as [[] r]. Qed.

Lemma fine_lockless p file m e : lockless (TopKCapacity p) e → (∀ temps, own_step file temps e) →
  fine p file m (mon_step (WarmupDuration p) m e) [e].
Proof.
  intros [Hn Hu Hl Hs] Ho. split; [|done| | |by constructor|by intros temps; split|by apply paired_step].
  - split; [|done]. rewrite Hu. by intros [].
  - intros open _. cbn. unfold locks. cbn. rewrite Hu, Hl. split; [|done]. split; [|done]. by intros [].
  - cbn. unfold unlinks. cbn. by rewrite Hu.
Qed.

Lemma fine_step p file m e : harmless (TopKCapacity p) e → fine p file m (mon_step (WarmupDuration p) m e) [e].
Proof. intros [He Hp]. apply fine_lockless; [done|]. intros temps. by apply own_harmless. Qed.

Lemma fine_cons p file m m' e tr : harmless (TopKCapacity p) e →
  fine p file (mon_step (WarmupDuration p) m e) m' tr → fine p file m m' (e :: tr).
Proof. intros He Htr. by apply (fine_app p file m (mon_step (WarmupDuration p) m e) m' [e]), Htr; apply fine_step. Qed.

(** A change of readiness, stored and announced *)
Lemma fine_ready p file m b r r' :
  fine p file m (mkMonitor b (m_phase m) (m_now m)) [ev (CStoreReady b) r; ev (CObserve (SetReady b)) r'].
Proof.
  split; [|done| |done|by repeat constructor|done|done].
  - by split; [intros [? [=]]|split; [intros [? [=]]|]].
  - intros open _. split; [|done]. by split; [intros [? [=]]|split; [intros [? [=]]|]].
Qed.

(** One that, moreover, says nothing to the monitor *)
Definition quiet (cap W : Z) (e : event) : Prop := lockless cap e ∧ ∀ m, mon_step W m e = m.
Definition calm (cap W : Z) (e : event) : Prop := harmless cap e ∧ ∀ m, mon_step W m e = m.

(** A quiet trace that removes and renames only files of its own *)
Lemma fine_quiet p file m tr : Forall (quiet (TopKCapacity p) (WarmupDuration p)) tr →
  (∀ temps, own_files file temps tr) → fine p file m m tr.
Proof.
  intros Htr Hown. split; [| | | | |exact Hown|]; clear Hown;
    induction Htr as [|e tr [[Hn Hu Hl Hs] Hm] _ IH]; try done.
  - split; [rewrite Hu; by intros []|]. by rewrite Hm.
  - unfold mon_after in *. cbn. by rewrite Hm.
  - intros open [_ Hf]. destruct (IH _ Hf) as [? ?]. unfold locks in *. cbn [unlinks_locked foldl].
    rewrite Hu, Hl. split; [split; [by intros []|done]|done].
  - unfold unlinks in *. cbn. by rewrite Hu.
  - by constructor.
  - apply (paired_app [e]); [by apply paired_step|done].
Qed.

Lemma fine_calm p file m tr : Forall (calm (TopKCapacity p) (WarmupDuration p)) tr → fine p file m m tr.
Proof.
  induction 1 as [|e tr [He Hm] _ IH]; [apply fine_nil|]. apply fine_cons; [done|]. by rewrite Hm.
Qed.

Lemma background_calm cap W tr : Forall background tr → Forall (calm cap W) tr.
Proof.
  intros H. eapply Forall_impl; [exact H|]. intros [c r] Hc. unfold background in Hc. cbn in Hc.
  split; [split; [split|]|intros m]; destruct c; by try destruct Hc.
Qed.

(** ** The operations of the loop *)

(** Calls on the checkpoint file *)
Lemma loadCheckpoint_calm cap W path maxItems :
  holds (loadCheckpoint path maxItems) (λ tr _, Forall (calm cap W) tr).
Proof. unfold loadCheckpoint. run_prog; by repeat constructor. Qed.

Lemma saveCheckpoint_quiet cap W path items now : checkpoint_ok cap (mkCheckpoint checkpointVersion now items) →
  holds (saveCheckpoint path items now) (λ tr _, Forall (quiet cap W) tr ∧ ∀ temps, own_files path temps tr).
Proof.
  intros Hok. unfold saveCheckpoint, write_checkpoint, or_close, sync_directory.
  run_prog; (split; [repeat (apply Forall_cons; split); try constructor; try done; by split|]);
    intros temps; cbn; set_solver.
Qed.

Lemma Validate_intervals p : Validate p = None →
  0 < DiskCheckInterval p ∧ 0 < CheckpointInterval p ∧ 0 < TopKDecayInterval p.
Proof.
  unfold Validate. destruct (Z.leb_spec (DiskCheckInterval p) 0); [done|].
  destruct (Z.leb_spec (CheckpointInterval p) 0); [done|].
  destruct (Z.leb_spec (TopKDecayInterval p) 0); [done|]. done.
Qed.

(** What the checkpoint of a sound sketch holds. *)
Lemma heat_items {T} `{!Topk T} `{!TopkLaws T} cap (hk : T) : heat_ok cap hk → ∃ items, Topk_List hk = Some items ∧
  Forall item_ok items ∧ Z.of_nat (length items) <= cap.
Proof.
  intros [Hi Hc Hk]. destruct (topk_list_spec hk Hi) as (l & Hl & Hp & _).
  exists l. split; [done|]. split.
  - apply Forall_forall. intros it Hin.
    assert (topk_hot hk !! Item_Key it = Some (Item_Count it)) as Hhot.
    { apply elem_of_map_to_list. change (Item_Key it, Item_Count it) with (item_pair it).
      rewrite <-Hp. apply list_elem_of_fmap. by exists it. }
    split; [apply Hk; by eexists|]. pose proof (topk_count hk _ _ Hi Hhot). lia.
  - rewrite <-Hc. pose proof (topk_size hk Hi). apply Permutation_length in Hp.
    rewrite length_fmap, length_map_to_list in Hp. lia.
Qed.

Section runs.
Context {T : Type} `{!Topk T} `{!TopkLaws T} `{!Sorter} `{!SorterLaws}.
Context (getwd : result CacheError string) (p : EvictionPolicy) (file : string).
Implicit Types n : Notify T.
Local Abbreviation cap := (TopKCapacity p).
Local Abbreviation W := (WarmupDuration p).

(** What holds of the state wherever the run is. *)
Record state_ok n (m : monitor) : Prop := {
  state_policy : policy n = p;
  state_file : checkpointFile n = file;
  state_heat : heat_ok cap (heavykeeper n);
  state_ready : m_ready m = ready n
}.

(** What holds at the head of the loop. *)
Record loop_ok n (m : monitor) : Prop := {
  loop_state : state_ok n m;
  loop_watcher : is_Some (watcher n);
  loop_warm : ∃ d, m_phase m = Warm d ∧ d <= warmUntil n
}.

Lemma save_checkpoint_fine n m : state_ok n m →
  holds (save_checkpoint n) (λ tr _, ∃ m', fine p file m m' tr ∧ m_ready m' = m_ready m ∧
    (∀ d, m_phase m = Warm d → m_phase m' = Warm d)).
Proof.
  intros [Hp Hfile Hh _]. unfold save_checkpoint. destruct (heat_items _ _ Hh) as (items & -> & Hok & Hlen).
  go_prog. rename r into now. eapply holds_impl; [|apply (saveCheckpoint_quiet cap W); by split].
  intros tr err [Htr Hown]. rewrite Hfile in Hown. eexists. split; [|split].
  - cbn. apply fine_cons; [by split|]. by apply fine_quiet.
  - done.
  - cbn. by intros d ->.
Qed.

Lemma cleanup_fine n m now : loop_ok n m → m_now m = now →
  holds (cleanup getwd n now) (λ tr r, fine p file m m tr ∧ cycle_of cap n r.2).
Proof.
  intros [[Hp _ Hh Hr] _ (d & Hph & Hd)] Hnow. pose proof (heat_inv _ _ Hh) as Hi.
  eapply holds_impl; [|apply holds_tame; [by apply cleanup_run|by apply (cleanup_calls getwd cap)]].
  intros tr r ([Hlock Hdel] & Hcalls & Hres). split; [|done].
  assert (Forall (λ e, (save_ok cap e ∧ not_by_path e) ∧ ∀ m, mon_step W m e = m) tr) as Hquiet.
  { eapply Forall_impl; [exact Hcalls|]. intros [c x] Hc. cbn in Hc.
    split; [|intros m']; destruct c; try done; cbn. 
    all: try (by destruct o). all: destruct o; try done. cbn. cbn in Hc.
    all: try by (destruct (String.eqb_spec reason "watcher_loss")). }
  assert (paired tr) as Hpair.
  { apply paired_Forall. eapply Forall_impl; [exact Hcalls|]. intros [c x] Hc.
    destruct c; try done. by destruct o. }
  assert (unlinks tr ≠ [] → may_delete m ∧ Shadow p = false) as Hmay.
  { intros Hne. destruct (Hdel Hne) as (Hready & Hwarm & Hsh). rewrite Hp in Hsh.
    split; [|done]. split; [congruence|]. exists d. split; [done|lia]. }
  clear Hcalls Hdel. split.
  - clear Hlock Hpair. induction Hquiet as [|e tr [_ He] _ IH]; [done|]. split.
    + intros [u Hu]. apply Hmay. unfold unlinks. cbn. by rewrite Hu.
    + rewrite He. apply IH. intros Hne. apply Hmay. unfold unlinks. cbn.
      by destruct (unlinked e).
  - clear -Hquiet. induction Hquiet as [|e tr [_ He] _ IH]; [done|].
    unfold mon_after in *. cbn. by rewrite He.
  - intros open Hf. apply Hlock. by eapply fds_fresh_nil.
  - intros Hne. by apply Hmay.
  - eapply Forall_impl; [exact Hquiet|]. by intros e [[? _] _].
  - clear -Hquiet. intros temps. revert temps. induction Hquiet as [|e tr [[_ He] _] _ IH]; intros temps; [done|].
    split; [by apply own_harmless|apply IH].
  - exact Hpair.
Qed.

(** A drain and a scan are background work. *)
Lemma drain_background c turns w : holds (drain_loop c turns w) (λ tr _, Forall background tr).
Proof.
  revert w. induction turns as [|turns IH]; intros w; cbn [drain_loop]; go_prog; [by repeat constructor|].
  destruct r as [event|[]| |]; go_prog; try by repeat constructor.
  eapply holds_impl; [|apply handleReconciliationEvent_background]. intros tr [[e|] w'] Htr; go_prog.
  - rewrite app_nil_r. by apply Forall_cons.
  - eapply holds_impl; [|apply IH]. intros tr' r Htr'. apply Forall_cons. split; [done|].
    by apply Forall_app.
Qed.

Lemma scanEntriesWhileDraining_background c w :
  holds (scanEntriesWhileDraining getwd c w) (λ tr _, Forall background tr).
Proof.
  unfold scanEntriesWhileDraining. go_prog.
  eapply holds_impl; [|apply (holds_par _ _ (λ tr _, Forall background tr) (λ tr _, Forall background tr))].
  - intros tr [entries [err w']] (tr1 & tr2 & Hint & H1 & H2).
    assert (Forall background tr) as Htr by by eapply interleaved_Forall.
    destruct entries as [es|e]; [destruct err|]; go_prog; by rewrite app_nil_r.
  - eapply holds_impl; [|apply GetEntries_run]. intros tr es [Htr _]. by apply reads_only_background.
  - unfold drainReconciliationEvents. go_prog. eapply holds_impl; [|apply drain_background].
    intros tr res Htr. by apply Forall_cons.
Qed.

Lemma close_watcher_run n : holds (close_watcher n) (λ tr n', Forall background tr ∧
  n' = set_watcher n (watcher n') ∧ (is_Some (watcher n) → is_Some (watcher n')) ∧
  ∀ w, watcher n' = Some w → isClosed w = true).
Proof.
  unfold close_watcher, Close. destruct (watcher n) as [w|] eqn:Hw.
  - destruct (isClosed w) eqn:Hc; run_prog; (split; [by repeat constructor|]); cbn;
      (split; [done|]); (split; [done|]); by intros w' [= <-].
  - apply holds_ret. rewrite Hw. split; [constructor|].
    split; [by destruct n; cbn in *; subst|]. by split.
Qed.

Lemma set_watcher_state n m w : state_ok n m → state_ok (set_watcher n w) m.
Proof. by intros []. Qed.

(** What is left of readiness when a reconciliation failed *)
Record not_ready n n' (m m' : monitor) : Prop := {
  unready_state : state_ok n' m';
  unready_ready : ready n' = false;
  unready_watcher w : watcher n' = Some w → isClosed w = true
}.

(** Where the monitor is when a reconciliation begins: watches are lost exactly when
    the heat is to be reset. *)
Definition lost_first (reset : bool) (m : monitor) : Prop :=
  if reset then m_phase m = Lost false None else ∀ rebuilt clock, m_phase m ≠ Lost rebuilt clock.

(** What a reconciliation that succeeded leaves *)
Definition reconciled_ok n (m : monitor) (reset : bool) (r : option NotifyError * Notify T) m' : Prop :=
  state_ok r.2 m' ∧ is_Some (watcher r.2) ∧ ready r.2 = true ∧
  if reset then m_phase m' = Warm (warmUntil r.2)
  else m_phase m' = m_phase m ∧ warmUntil r.2 = warmUntil n.

(** Readiness is announced; a lost watcher is forgiven. *)
Lemma announce_fine n m es : policy n = p → checkpointFile n = file → heat_ok cap (heavykeeper n) →
  is_Some (watcher n) →
  holds (observe (SetCacheBytes (totalBytes es)) ≫= λ _, observe RecordReconciliation ≫= λ _,
           store_ready true ≫= λ _, observe (SetReady true) ≫= λ _,
           Ret (None : option NotifyError, set_ready n true))
    (λ tr r, ∃ m', fine p file m m' tr ∧ r.1 = None ∧ state_ok r.2 m' ∧ is_Some (watcher r.2) ∧
       ready r.2 = true ∧ warmUntil r.2 = warmUntil n ∧
       m_phase m' = match m_phase m with Lost true (Some t) => Warm (t + W) | ph => ph end).
Proof.
  intros Hp Hfile Hh Hw. go_prog. repeat match goal with r : answer _ |- _ => destruct r end.
  eexists. split.
  - do 2 (apply fine_cons; [by split; [split|]|]). apply fine_ready.
  - cbn. destruct m as [rd [|[] []|dl] nw]; cbn; split_and!; try done; by split.
Qed.

Lemma reconciled_fine n m w (reset : bool) es : state_ok n m →
  (if reset then m_phase m = Lost true None else (∀ rebuilt clock, m_phase m ≠ Lost rebuilt clock)) →
  holds (reconciled n w reset es) (λ tr r, ∃ m', fine p file m m' tr ∧ r.1 = None ∧
    reconciled_ok n m reset r m').
Proof.
  intros [Hp Hfile Hh _] Hreset. unfold reconciled. apply holds_bind. destruct reset.
  - destruct (topk_reset_spec _ (heat_inv _ _ Hh)) as (hk & Hrun & Hi & Hc & Hhot).
    cbn [heavykeeper set_watcher]. rewrite Hrun. cbn [lift].
    apply holds_bind, holds_ret, holds_bind, holds_call. intros now. apply holds_ret, holds_ret.
    set (m1 := mkMonitor (m_ready m) (Lost true (Some now)) now).
    eapply holds_impl; [|apply (announce_fine _ m1); [done|done| |done]].
    + intros tr r (m' & Hf & Hn & Hs & Hw & Hrd & Hwarm & Hph). exists m'. split.
      { apply fine_cons; [by split; [split|]|]. cbn. rewrite Hreset. exact Hf. }
      split; [done|]. split_and!; [done|done|done|]. rewrite Hph, Hwarm. cbn. by rewrite Hp.
    + split; [done|cbn; rewrite Hc; apply Hh|]. intros k. cbn. rewrite Hhot, lookup_empty. by intros [].
  - apply holds_ret. eapply holds_impl; [|by apply (announce_fine _ m)].
    intros tr r (m' & Hf & Hn & Hs & Hw & Hrd & Hwarm & Hph). exists m'.
    split; [done|]. split; [done|]. split_and!; try done. rewrite Hph.
    destruct (m_phase m) as [|rebuilt clock|] eqn:E; try done. by destruct (Hreset rebuilt clock).
Qed.

Lemma background_observations tr : Forall background tr → observations tr = [].
Proof. intros Htr. by apply silent_facts, background_silent. Qed.

(** The monitor once readiness is withdrawn, and then once there is a new watcher *)
Definition withdrawn (m : monitor) : monitor := mkMonitor false (m_phase m) (m_now m).

Lemma withdrawn_fine m tb : Forall background tb →
  fine p file m (withdrawn m) (ev (CStoreReady false) tt :: ev (CObserve (SetReady false)) tt :: tb).
Proof.
  intros Htb. apply (fine_app p file m (withdrawn m) _ [_; _]); [apply fine_ready|]. by apply fine_calm, background_calm.
Qed.

Lemma withdrawn_last tb : Forall background tb →
  last (observations (ev (CStoreReady false) tt :: ev (CObserve (SetReady false)) tt :: tb)) = Some (SetReady false).
Proof.
  intros Htb. change (last (SetReady false :: observations tb) = Some (SetReady false)).
  by rewrite background_observations.
Qed.

Lemma inotify_init_fine m r : fine p file m (mon_step W m (ev CInotifyInit r)) [ev CInotifyInit r].
Proof. apply fine_step. by split; [split|]. Qed.

Lemma reconcile_fine n m reset : state_ok n m → lost_first reset m →
  holds (reconcile getwd n reset) (λ tr r, ∃ m', fine p file m m' tr ∧
    match r.1 with
    | Some _ => not_ready n r.2 m m' ∧ last (observations tr) = Some (SetReady false)
    | None => reconciled_ok n m reset r m'
    end).
Proof.
  intros Hok Hreset. unfold reconcile. go_prog.
  repeat match goal with r : answer _ |- _ => destruct r end.
  set (m1 := withdrawn m).
  eapply holds_impl; [|apply close_watcher_run]. intros tr1 n1 (H1 & Hn1 & _ & Hclosed).
  assert (∀ m2, m_ready m2 = false → state_ok n1 m2) as Hok1.
  { intros m2 Hm2. rewrite Hn1. by destruct Hok. }
  assert (ready n1 = false ∧ warmUntil n1 = warmUntil n) as [Hr1 Hw1] by (by rewrite Hn1).
  unfold NewWatcher. go_prog. set (m2 := mon_step W m1 (ev CInotifyInit r)).
  assert (m_ready m2 = false) as Hm2 by (unfold m2; cbn; destruct r, (m_phase m); done).
  assert (∀ tb (e : NotifyError), Forall background tb →
    let tr := ev (CStoreReady false) tt :: ev (CObserve (SetReady false)) tt :: tr1 ++ ev CInotifyInit r :: tb in
    ∃ m', fine p file m m' tr ∧ not_ready n n1 m m' ∧ last (observations tr) = Some (SetReady false)) as Hfail.
  { intros tb e Htb tr. exists m2. split_and!.
    - apply (fine_app p file m m1 m2 (_ :: _ :: tr1)); [by apply withdrawn_fine|].
      apply (fine_app p file m1 m2 m2 [_]); [apply inotify_init_fine|]. by apply fine_calm, background_calm.
    - split; [by apply Hok1|done|done].
    - subst tr. rewrite <-(withdrawn_last (tr1 ++ tb)) by by apply Forall_app.
      unfold observations. cbn. by rewrite !omap_app. }
  destruct r as [f|e]; go_prog; [|by apply (Hfail [] (ErrCreateWatcher e))].
  eapply holds_impl; [|apply addDirectoryWatches_background]. intros tr2 [[e|] w2] Hb2.
  { unfold Close. cbn in Hb2. destruct (isClosed w2); go_prog; apply (Hfail _ (ErrRebuild e));
      repeat (apply Forall_app; split); by repeat constructor. }
  go_prog. eapply holds_impl; [|apply scanEntriesWhileDraining_background].
  intros tr3 [[es|e] w3] Hb3; last first.
  { unfold Close. destruct (isClosed w3); go_prog; apply (Hfail _ e);
      repeat (apply Forall_app; split); by repeat constructor. }
  eapply holds_impl; [|apply (reconciled_fine n1 m2); [by apply Hok1|]].
  - intros tr4 r (m' & Hf & Hnone & Hend). exists m'. rewrite Hnone. split.
    + apply (fine_app p file m m1 m' (_ :: _ :: tr1)); [by apply withdrawn_fine|].
      apply (fine_app p file m1 m2 m' [_]); [apply inotify_init_fine|].
      cbn [app]. rewrite app_assoc. eapply fine_app; [|exact Hf].
      apply fine_calm, background_calm. by apply Forall_app.
    + unfold reconciled_ok in *. destruct reset; [done|]. destruct Hend as (? & ? & ? & Hph & Hw).
      rewrite <-Hw1, <-Hw, Hph. split_and!; try done. unfold m2, m1, withdrawn. cbn. unfold lost_first in Hreset.
      by destruct (m_phase m) as [|rebuilt clock|]; [|destruct (Hreset rebuilt clock)|].
  - unfold m2, m1, withdrawn. cbn. destruct reset; cbn in *; [by rewrite Hreset|]. unfold lost_first in Hreset.
    by destruct (m_phase m) as [|rebuilt clock|]; [|destruct (Hreset rebuilt clock)|].
Qed.

Lemma reports_calm e kind : Forall (calm cap W) (reports (file_reports e kind)).
Proof.
  unfold reports, file_reports. destruct (gone e); [constructor|].
  destruct (_ =? 0), (HasEvent e InOpen); repeat (apply Forall_cons; split); by repeat constructor.
Qed.

Lemma handleEvent_calm n event : heat_ok cap (heavykeeper n) → is_Some (watcher n) →
  holds (handleEvent getwd n event) (λ tr r, Forall (calm cap W) tr ∧ event_frame n r.2 ∧
    heat_ok cap (heavykeeper r.2) ∧ (lost_by (RunWatcher (MsgEvent event)) = true → r.1 ≠ None)).
Proof.
  intros Hh Hw. unfold handleEvent. destruct event as [e|]; [|by split_and!].
  cbn [lost_by]. rewrite coverage_lost_ends. destruct (ends_coverage e); [by split_and!|].
  destruct (HasEvent e InIsdir).
  - eapply holds_impl; [|by apply handle_directory_run]. intros tr r (? & ? & Htr & _).
    split_and!; [by apply background_calm|done|done|done].
  - eapply holds_impl; [|by apply handle_file_run]. intros tr r (_ & ? & _ & ? & Htr).
    split_and!; [|done|done|done]. destruct (KeyForPath _ _ _) as [[key kind]|]; destruct Htr as [-> _];
      [apply reports_calm|constructor].
Qed.

Lemma event_frame_state n n' m : event_frame n n' → heat_ok cap (heavykeeper n') →
  state_ok n m → state_ok n' m.
Proof. intros [] Hh [Hp Hfile _ Hr]. split; congruence. Qed.

Lemma event_frame_loop n n' m : event_frame n n' → heat_ok cap (heavykeeper n') →
  loop_ok n m → loop_ok n' m.
Proof.
  intros Hframe Hh [Hs Hw (d & Hd & Hle)]. split; [by eapply event_frame_state| |]; destruct Hframe.
  - auto.
  - exists d. split; [done|congruence].
Qed.

Definition served (choice : run_choice) (r : option (option NotifyError) * Notify T) (m' : monitor) : Prop :=
  match r.1 with
  | None => loop_ok r.2 m' ∧ choice ≠ RunDone
  | Some err => state_ok r.2 m' ∧ (err = None ↔ choice = RunDone)
  end.

Lemma recover_fine n m choice : choice ≠ RunDone → state_ok n m →
  holds (recover_or_return getwd n) (λ tr r, ∃ m', fine p file m m' tr ∧ served choice r m').
Proof.
  intros Hne Hok. unfold recover_or_return, recoverWatcher. go_prog.
  repeat match goal with r : answer _ |- _ => destruct r end.
  set (m1 := set_phase m (Lost false None)).
  eapply holds_impl; [|apply (reconcile_fine n m1 true); [by destruct Hok|done]].
  intros tr [err n'] (m' & Htr & Hres). cbn [fst snd] in *. go_prog. rewrite app_nil_r.
  exists m'. split.
  { do 2 (apply fine_cons; [by split; [split|]|]). exact Htr. }
  destruct err as [e|].
  - destruct Hres as [[Hs _ _] _]. split; [exact Hs|done].
  - destruct Hres as (Hs & Hw & _ & Hph). split; [|done]. split; [exact Hs|exact Hw|].
    eexists. split; [exact Hph|done].
Qed.

Lemma loop_ok_now n m t : loop_ok n m → loop_ok n (mon_step W m (ev CNow t)).
Proof.
  intros [[Hp Hfile Hh Hr] Hw (d & Hd & Hle)]. split; [by split|done|].
  exists d. cbn. by rewrite Hd.
Qed.

Lemma log_failure_calm {E} (err : option E) what :
  holds (log_failure err what) (λ tr _, Forall (calm cap W) tr).
Proof. destruct err; cbn; go_prog; by repeat constructor. Qed.

Lemma log_line_calm what : Forall (calm cap W) [ev (CLogError what) tt].
Proof. by repeat constructor. Qed.

Lemma state_ok_lost n m ph : state_ok n m → state_ok n (set_phase m ph).
Proof. by intros []. Qed.

Lemma save_served n m choice what x : loop_ok n m → (∀ m', loop_ok n m' → served choice (x, n) m') →
  holds (err ← save_checkpoint n; _ ← log_failure err what; Ret (x, n))
    (λ tr r, ∃ m', fine p file m m' tr ∧ served choice r m').
Proof.
  intros Hl Hx. apply holds_bind. eapply holds_impl; [|apply save_checkpoint_fine, Hl].
  intros tr err (m' & Htr & Hr & Hph). apply holds_bind.
  eapply holds_impl; [|apply log_failure_calm]. intros tr' u Htr'. apply holds_ret.
  rewrite app_nil_r. exists m'. split; [by eapply fine_app, fine_calm|]. apply Hx.
  destruct Hl as [[? ? ? ?] ? (d & Hd & Hle)]. split; [split; [done|done|done|congruence]|done|].
  exists d. split; [by apply Hph|done].
Qed.

(** One event: when it ended a watch the loop recovers, whatever else it does. *)
Lemma event_fine n m event : loop_ok n m →
  let choice := RunWatcher (MsgEvent event) in
  holds (serve getwd n choice)
    (λ tr r, ∃ m', fine p file (if lost_by choice then set_phase m (Lost false None) else m) m' tr ∧
       served choice r m').
Proof.
  intros Hl choice. cbn [serve]. apply holds_bind.
  set (m1 := if lost_by choice then _ else m). assert (state_ok n m1) as Hs.
  { unfold m1. pose proof (loop_state _ _ Hl). destruct (lost_by choice); [by apply state_ok_lost|done]. }
  eapply holds_impl; [|apply handleEvent_calm; [apply Hs|apply Hl]].
  intros tr [[e|] n'] (Htr & Hframe & Hh & Herr); cbn [fst snd] in *.
  - eapply holds_impl; [|apply (recover_fine n' m1 choice); [done|by eapply event_frame_state]].
    intros tr' r (m' & Htr' & Hr). exists m'. split; [by eapply fine_app; [by apply fine_calm|]|done].
  - apply holds_ret. rewrite app_nil_r. exists m1. split; [by apply fine_calm|].
    split; [|done]. unfold m1. destruct (lost_by choice) eqn:E; [|by eapply event_frame_loop].
    by destruct (Herr E).
Qed.

Lemma serve_fine n m f choice : loop_ok n m →
  holds (serve getwd n choice) (λ tr r, ∃ m',
    fine p file (mon_step W m (ev (CSelect f) choice)) m' tr ∧ served choice r m').
Proof.
  intros Hl. change (mon_step W m (ev (CSelect f) choice))
    with (if lost_by choice then set_phase m (Lost false None) else m).
  pose proof (loop_state _ _ Hl) as Hs. pose proof (state_ok_lost n m (Lost false None) Hs) as Hs1.
  assert (choice ≠ RunDone → ∀ tr, Forall (calm cap W) tr →
    ∃ m', fine p file m m' tr ∧ served choice (None, n) m') as Hcalm.
  { intros Hne tr Htr. exists m. split; [by apply fine_calm|done]. }
  destruct choice as [|[event|[]| |]| | |]; cbn [serve lost_by]; try by apply recover_fine.
  - apply save_served; [done|]. intros m' Hm'. split; [apply Hm'|done].
  - by apply event_fine.
  - go_prog. destruct r. apply Hcalm; [done|]. apply log_line_calm.
  - go_prog. destruct r. apply Hcalm; [done|]. apply log_line_calm.
  - go_prog. destruct r. apply Hcalm; [done|]. apply log_line_calm.
  - apply holds_bind, holds_call. intros now. apply holds_ret, holds_bind.
    set (m1 := mon_step W m (ev CNow now)).
    eapply holds_impl; [|apply (cleanup_fine n m1 now); [by apply loop_ok_now|by cbn]].
    intros tr [err n'] [Htr (hk & evi & Heq & Hh)]. cbn [snd] in Heq. subst n'. apply holds_bind.
    eapply holds_impl; [|apply log_failure_calm]. intros tr' u Htr'. apply holds_ret.
    rewrite app_nil_r. exists m1. split.
    + apply fine_cons; [by split; [split|]|]. by eapply fine_app, fine_calm.
    + pose proof (loop_ok_now n m now Hl) as [[? ? _ ?] ? ?]. split; [by split|done].
  - apply save_served; [done|]. by intros m' Hm'.
  - destruct Hl as [[Hp Hfile Hh Hr] Hw Hph]. pose proof Hh as [Hi Hc Hk].
    destruct (topk_fading_spec _ Hi) as (hk & -> & Hi' & Hc' & Hhot). go_prog.
    exists m. split; [apply fine_nil|]. split; [|done]. split; [split; [done|done| |done]|done|done].
    split; [done|cbn; congruence|]. intros k. cbn. rewrite Hhot. intros [c Hx].
    apply lookup_omap_Some in Hx as (c0 & _ & Hx). apply Hk. by eexists.
Qed.
End runs.
