(* ===== verification/Runs.v ===== *)
(** * Whole runs (notify.go: New and Run)

    What [New] builds is a daemon that has not started; the theorems of the second
    part are about every execution of [Run] from there: when entries are deleted, what
    is written to the checkpoint, and when and how a run ends. *)

From S2P Require Import Prelude Float64 MinHeapSpec TopkSpec Policy Paths CacheKey Inotify System Partial.
From S2P Require Import Watcher Cache Lease Checkpoint Cleanup Watching RunLoop RunSafety.
Local Open Scope Z_scope.

(** ** Where the program selects *)

(** The calls that are not the [select] of [Run]'s loop *)
Definition no_select (c : call) : Prop := match c with CSelect _ => False | _ => True end.

(** What the loop received *)
Definition selected (e : event) : option run_choice :=
  match e with
  | existT c r =>
      match c return answer c → option run_choice with
      | CSelect _ => λ r, Some r
      | _ => λ _, None
      end r
  end.
Definition selections (tr : trace) : list run_choice := omap selected tr.

Lemma selections_app tr1 tr2 : selections (tr1 ++ tr2) = selections tr1 ++ selections tr2.
Proof. apply omap_app. Qed.

Lemma selections_nil tr : Forall (λ e, no_select (projT1 e)) tr → selections tr = [].
Proof.
  induction 1 as [|[c r] tr Hc _ IH]; [done|]. unfold selections in *. cbn. rewrite IH.
  destruct c; by try destruct Hc.
Qed.

Lemma tame_par {A B} P (p : prog A) (q : prog B) : P CSched → tame P (λ _, True) p →
  tame P (λ _, True) q → tame P (λ _, True) (par p q).
Proof.
  intros HS. revert q. induction p as [a| |c k IH]; intros q Hp Hq.
  - induction q as [b| |d l IHq]; [done|done|]. destruct Hq as [Hd Hl]. split; [done|].
    intros r. by apply IHq.
  - by destruct q.
  - destruct Hp as [Hc Hk]. induction q as [b| |d l IHq]; [by split; auto|done|].
    assert (tame P (λ _, True) (Call c (λ r, par (k r) (Call d l)))) as Hleft
      by (split; [done|intros r; by apply IH]).
    destruct Hq as [Hd Hl]. cbn [par]. destruct (waits d); [exact Hleft|].
    split; [done|]. intros []; [exact Hleft|]. split; [done|]. intros r. by apply IHq.
Qed.

Lemma cycle_no_select {A} (Q : A → Prop) (p : prog A) :
  tame cycle_call Q p → tame no_select (λ _, True) p.
Proof. apply tame_impl; [|done]. by intros []. Qed.

Lemma addDirectoryWatches_calls c w start :
  tame no_select (λ _, True) (addDirectoryWatches c w start).
Proof.
  unfold addDirectoryWatches. destruct (negb _); [done|].
  apply (tame_bind _ (λ _, True)); [|by intros [] _].
  apply WalkDir_calls; [done|done|]. intros path entry err s. unfold watch_fn, AddWatch. go_tame.
Qed.

Lemma drain_loop_calls c turns w : tame no_select (λ _, True) (drain_loop c turns w).
Proof.
  revert w. induction turns as [|turns IH]; intros w; cbn [drain_loop]; [by split|].
  split; [done|]. intros m. cbn. destruct m as [e|[]| |]; try done.
  apply (tame_bind _ (λ _, True)).
  - unfold handleReconciliationEvent. go_tame. apply addDirectoryWatches_calls.
  - intros [[err|] w'] _; [done|apply IH].
Qed.

Section calls.
Context {T : Type} `{!Topk T} `{!TopkLaws T} `{!Sorter} `{!SorterLaws}.
Context (getwd : result CacheError string).
Implicit Types n : Notify T.

Lemma handleEvent_calls n event : tame no_select (λ _, True) (handleEvent getwd n event).
Proof.
  unfold handleEvent, handle_directory, handle_file. go_tame; try apply addDirectoryWatches_calls.
  unfold seedExistingEntries. destruct (negb _); [done|].
  apply (tame_bind _ (λ _, True)); [|by intros [] _].
  apply WalkDir_calls; [done|done|]. intros path entry err s. unfold seed_fn. go_tame.
  eapply cycle_no_select, Snapshot_calls.
Qed.

Lemma scan_calls c w : tame no_select (λ _, True) (scanEntriesWhileDraining getwd c w).
Proof.
  unfold scanEntriesWhileDraining. apply (tame_bind _ (λ _, True)).
  - apply tame_par; [done|eapply cycle_no_select, GetEntries_calls|].
    unfold drainReconciliationEvents. go_tame. apply drain_loop_calls.
  - intros [[es|e] [[err|] w']] _; done.
Qed.

Lemma reconcile_calls n reset : tame no_select (λ _, True) (reconcile getwd n reset).
Proof.
  unfold reconcile, reconciled, close_watcher, Close, NewWatcher. go_tame;
    first [apply addDirectoryWatches_calls|apply scan_calls].
Qed.

Lemma save_checkpoint_calls n : tame no_select (λ _, True) (save_checkpoint n).
Proof.
  unfold save_checkpoint, saveCheckpoint, write_checkpoint, or_close, sync_directory. go_tame.
Qed.

Lemma serve_calls cap n choice : heat_ok cap (heavykeeper n) →
  tame no_select (λ _, True) (serve getwd n choice).
Proof.
  intros Hh. unfold serve, recover_or_return, recoverWatcher, log_failure.
  destruct choice as [|[event|[]| |]| | |]; go_tame;
    first [apply save_checkpoint_calls|apply reconcile_calls|apply handleEvent_calls|idtac].
  by eapply cycle_no_select, cleanup_calls.
Qed.
End calls.

(** ** The loop *)

Section runs.
Context {T : Type} `{!Topk T} `{!TopkLaws T} `{!Sorter} `{!SorterLaws}.
Context (getwd : result CacheError string) (p : EvictionPolicy) (file : string).
Implicit Types n : Notify T.
Local Abbreviation cap := (TopKCapacity p).
Local Abbreviation W := (WarmupDuration p).

(** The loop makes all its turns unless it returns, and it returns nil exactly when
    it received the cancellation. *)
Lemma run_loop_fine turns n m : loop_ok p file n m →
  holds (run_loop getwd turns n) (λ tr r, ∃ m', fine p file m m' tr ∧ state_ok p file r.2 m' ∧
    (r.1 = Running → length (selections tr) = turns) ∧
    (r.1 = Returned None ↔ RunDone ∈ selections tr)).
Proof.
  revert n m. induction turns as [|turns IH]; intros n m Hl; cbn [run_loop].
  { exists m. split_and!; [apply fine_nil|apply Hl|done|]. split; [done|]. by intros ?%elem_of_nil. }
  destruct (loop_watcher _ _ _ _ Hl) as [w Hw]. rewrite Hw. go_prog. rename r into choice.
  eapply holds_impl; [|apply holds_tame;
    [by apply (serve_fine getwd p file n m (w_fd w) choice)|apply (serve_calls getwd cap), Hl]].
  intros tr [returned n'] ((m' & Htr & Hs) & Hcalls%selections_nil & _).
  unfold served in Hs. cbn [fst snd] in *.
  assert (fine p file m m' (ev (CSelect (w_fd w)) choice :: tr)) as Hfine.
  { apply fine_cons; [by split; [split|]|done]. }
  assert (∀ tr', selections (ev (CSelect (w_fd w)) choice :: tr ++ tr') = choice :: selections tr') as Hsel.
  { intros tr'. change (choice :: selections (tr ++ tr') = choice :: selections tr').
    by rewrite selections_app, Hcalls. }
  destruct returned as [err|].
  - go_prog. exists m'. destruct Hs as [Hs Herr]. cbn [app]. rewrite Hsel, app_nil_r. split_and!; [done|done|done|].
    cbn. rewrite list_elem_of_singleton. naive_solver.
  - destruct Hs as [Hs Hne]. eapply holds_impl; [|by apply (IH n' m')].
    intros tr' r (m2 & Htr' & Hs' & Hlen & Hdone). exists m2. cbn [app]. rewrite Hsel.
    split_and!; [exact (fine_app _ _ _ _ _ (_ :: _) _ Hfine Htr')|done|cbn; auto|].
    rewrite elem_of_cons, Hdone. naive_solver.
Qed.

(** ** Errors

    The only errors a run returns are those of a reconciliation. *)
Definition reconciliation_failed (reset : bool) (e : NotifyError) (tr : trace) : Prop :=
  ∃ n n', exec (reconcile getwd n reset) tr (Some e, n').

Lemma recover_or_return_error n tr e n' : exec (recover_or_return getwd n) tr (Some (Some e), n') →
  ∃ tr1 tr2, tr = tr1 ++ tr2 ∧ reconciliation_failed true e tr2.
Proof.
  unfold recover_or_return, recoverWatcher, observe, log_error, do_call. rewrite exec_bind.
  intros (tr1 & tr2 & [err n2] & -> & (? & ? & -> & ? & ? & -> & Hx) & [-> Hr]).
  destruct err as [e'|]; [|done]. injection Hr as -> ->. rewrite app_nil_r.
  eexists [_; _], _. split; [done|]. by exists n, n'.
Qed.

Lemma reconciliation_failed_suffix e tr1 tr2 :
  (∃ t1 t2, tr2 = t1 ++ t2 ∧ reconciliation_failed true e t2) →
  ∃ t1 t2, tr1 ++ tr2 = t1 ++ t2 ∧ reconciliation_failed true e t2.
Proof. intros (t1 & t2 & -> & Hx). exists (tr1 ++ t1), t2. by rewrite app_assoc. Qed.

Lemma serve_error n choice tr e n' : exec (serve getwd n choice) tr (Some (Some e), n') →
  ∃ tr1 tr2, tr = tr1 ++ tr2 ∧ reconciliation_failed true e tr2.
Proof.
  assert (∀ A (q : prog A) f tr, exec (q ≫= f) tr (Some (Some e), n') →
    (∀ a tr2, exec (f a) tr2 (Some (Some e), n') →
       ∃ t1 t2, tr2 = t1 ++ t2 ∧ reconciliation_failed true e t2) →
    ∃ t1 t2, tr = t1 ++ t2 ∧ reconciliation_failed true e t2) as Hbind.
  { intros A q f t (t1 & t2 & a & -> & _ & Ha)%exec_bind Hf.
    apply reconciliation_failed_suffix. by apply (Hf a). }
  destruct choice as [|[event|[]| |]| | |]; cbn [serve]; try apply recover_or_return_error; intros Hx;
    (eapply Hbind; [exact Hx|clear Hx; intros a t Hx]).
  all: try (eapply Hbind; [exact Hx|clear Hx; intros a2 t2 Hx]; by destruct Hx).
  all: try by destruct Hx.
  - destruct a as [[e0|] n1]; cbn in Hx; [apply (recover_or_return_error n1 t e n' Hx)|by destruct Hx].
  - eapply Hbind; [exact Hx|clear Hx; intros [err n1] t2 Hx].
    eapply Hbind; [exact Hx|clear Hx; intros a3 t3 Hx]. by destruct Hx.
Qed.

Lemma run_loop_error turns n tr e n' : exec (run_loop getwd turns n) tr (Returned (Some e), n') →
  ∃ tr1 tr2, tr = tr1 ++ tr2 ∧ reconciliation_failed true e tr2.
Proof.
  revert n tr. induction turns as [|turns IH]; intros n tr; cbn [run_loop]; [by intros [_ [=]]|].
  destruct (watcher n) as [w|]; [|done]. intros (choice & tr1 & -> & Hx).
  apply (reconciliation_failed_suffix e [_]).
  apply exec_bind in Hx as (t0 & tr2 & choice' & -> & [-> <-] & Hx). cbn [app].
  apply exec_bind in Hx as (t1 & t2 & [[err|] n1] & -> & H1 & H2); cbn in H2.
  - destruct H2 as [-> [= -> ->]]. rewrite app_nil_r. by eapply serve_error.
  - apply reconciliation_failed_suffix. by eapply IH.
Qed.

(** What a trace owes the error it returned: a reconciliation that failed, the first
    one or that of a lost watcher, after which the loop received nothing more. *)
Definition error_of (tr : trace) (e : NotifyError) : Prop := ∃ reset tr1 tr2 tr3,
  tr = tr1 ++ tr2 ++ tr3 ∧ reconciliation_failed reset e tr2 ∧ selections (tr2 ++ tr3) = [] ∧
  (reset = false → selections tr1 = []).

Lemma tame_exec {A} P Q (q : prog A) tr a : tame P Q q → exec q tr a → Forall (λ e, P (projT1 e)) tr.
Proof.
  revert tr. induction q as [b| |c k IH]; intros tr; cbn; [by intros _ [-> _]|done|].
  intros [Hc Hk] (r & tr' & -> & Hx). constructor; [done|]. by apply (IH r).
Qed.

Lemma failed_selections reset e tr : reconciliation_failed reset e tr → selections tr = [].
Proof.
  intros (n & n' & Hx). by eapply selections_nil, tame_exec; [apply reconcile_calls|].
Qed.

Lemma stop_run_selections n tr n' : exec (stop_run n) tr n' → selections tr = [].
Proof.
  intros Hx. eapply selections_nil, tame_exec; [|exact Hx].
  instantiate (1 := λ _, True). unfold stop_run, close_watcher, Close. go_tame.
Qed.

Lemma exec_NewTicker {A} i (f : unit → prog A) tr a : exec (NewTicker i ≫= f) tr a → exec (f tt) tr a.
Proof.
  intros (? & ? & [] & -> & Hi & Hx)%exec_bind. unfold NewTicker in Hi.
  destruct (i <=? 0); [by destruct Hi|]. by destruct Hi as [-> _].
Qed.

Lemma run_reconciled_error n tr e n' :
  exec (run_reconciled getwd n) tr (Returned (Some e), n') → error_of tr e.
Proof.
  intros Hx%exec_NewTicker%exec_NewTicker%exec_NewTicker.
  apply exec_bind in Hx as (? & ? & turns & -> & (? & ? & -> & [-> <-]) & Hx). cbn [app].
  apply exec_bind in Hx as (t1 & t2 & [res n1] & -> & H1 & H2).
  destruct res as [err|]; [|by destruct H2].
  apply exec_bind in H2 as (t3 & t4 & n2 & -> & H3 & [-> [= -> ->]]).
  apply run_loop_error in H1 as (t1' & t2' & -> & Hf).
  eexists true, (_ :: t1'), t2', t3. rewrite app_nil_r, selections_app.
  rewrite (failed_selections _ _ _ Hf), (stop_run_selections _ _ _ H3). split_and!; [|done|done|done].
  cbn. by rewrite <-app_assoc.
Qed.

Lemma error_of_prefix tr1 tr e : error_of tr e → selections tr1 = [] → error_of (tr1 ++ tr) e.
Proof.
  intros (reset & t1 & t2 & t3 & -> & Hf & Hs & H1) Hsel. exists reset, (tr1 ++ t1), t2, t3.
  rewrite !app_assoc. split_and!; [done|done|done|]. intros Hr. by rewrite selections_app, Hsel, H1.
Qed.

(** ** Restoring the heat *)

(** A checkpoint was read whole, and it is valid. *)
Definition accepted (maxItems : Z) (tr : trace) : Prop := ∃ stored rest,
  omap file_answered tr = FileOpened None :: FileDecoded (Some stored) :: FileEOF true :: rest ∧
  checkpoint_ok maxItems (decoded_value stored).

Lemma accepted_app maxItems tr tr' : accepted maxItems tr → accepted maxItems (tr ++ tr').
Proof.
  intros (stored & rest & Htr & Hok). exists stored, (rest ++ omap file_answered tr').
  by rewrite omap_app, Htr.
Qed.

Lemma existing_items_run c items : holds (existing_items c items) (λ tr r,
  Forall background tr ∧ r ⊆ items).
Proof.
  induction items as [|item items IH]; cbn [existing_items]; [by go_prog|]. go_prog.
  eapply holds_impl; [|apply Snapshot_reads]. intros tr s Htr%reads_only_background. go_prog.
  eapply holds_impl; [|exact IH]. intros tr' r [Htr' Hr]. go_prog. rewrite app_nil_r. split.
  - by apply Forall_app.
  - destruct s; set_solver.
Qed.

Lemma restored_heat hk items stored : heat_ok cap hk → checkpoint_ok cap (decoded_value stored) →
  items ⊆ Items (decoded_value stored) →
  ∃ hk', Topk_Restore hk items = Some hk' ∧ heat_ok cap hk' ∧
    ∀ k, is_Some (topk_hot hk' !! k) → k ∈ Item_Key <$> items.
Proof.
  intros [Hi Hc Hk] (_ & _ & Hok) Hsub.
  destruct (topk_restore_spec hk items Hi) as (hk' & -> & Hi' & Hc' & Hhot).
  { apply Forall_forall. intros it Hin%Hsub. pose proof (decoded_ok stored) as Hv.
    unfold counts_u32 in Hv. rewrite forallb_forall in Hv. apply list_elem_of_In, Hv, andb_prop in Hin.
    unfold in_u32. lia. }
  exists hk'. split; [done|]. split; [|done]. split; [done|congruence|].
  intros k Hin. apply Hhot, list_elem_of_fmap in Hin as (it & -> & Hin%Hsub).
  rewrite Forall_forall in Hok. apply Hok, Hin.
Qed.

Lemma restoreCheckpoint_run n : policy n = p → heat_ok cap (heavykeeper n) →
  holds (restoreCheckpoint n) (λ tr r, Forall (calm cap W) tr ∧
    (∃ hk, r.2 = set_topk n hk ∧ heat_ok cap hk) ∧ (r.1 = true → accepted cap tr)).
Proof.
  intros Hp Hh. unfold restoreCheckpoint. rewrite Hp. apply holds_bind.
  eapply holds_impl; [|apply holds_and; [apply (loadCheckpoint_calm cap W)|apply loadCheckpoint_run]].
  assert (∃ hk, n = set_topk n hk ∧ heat_ok cap hk) as Hself.
  { exists (heavykeeper n). by destruct n. }
  intros tr [[items|]|e] (Hcalm & Hload & _).
  - destruct (proj1 (Hload items) eq_refl) as (stored & Htr & Hok & ->). go_prog.
    eapply holds_impl; [|apply existing_items_run]. intros tr' items [Htr' Hsub].
    destruct (restored_heat _ items stored Hh Hok Hsub) as (hk & -> & Hhk & _). go_prog.
    rewrite app_nil_r. split_and!.
    + apply Forall_app. split; [done|]. by apply background_calm.
    + by exists hk.
    + intros _. apply accepted_app. exists stored, []. done.
  - go_prog. rewrite app_nil_r. by split_and!.
  - go_prog. split_and!; [|done|done]. apply Forall_app. split; [done|]. by repeat constructor.
Qed.

Lemma existing_items_calls c items : tame no_select (λ _, True) (existing_items c items).
Proof.
  induction items as [|it items IH]; [done|]. cbn [existing_items].
  apply (tame_bind _ (λ _, True)); [eapply cycle_no_select, Snapshot_calls|intros s _].
  apply (tame_bind _ (λ _, True)); [exact IH|by intros].
Qed.

Lemma restoreCheckpoint_calls n : tame no_select (λ _, True) (restoreCheckpoint n).
Proof. unfold restoreCheckpoint, loadCheckpoint. go_tame; apply existing_items_calls. Qed.

(** ** A run *)

(** A daemon as [New] builds it *)
Record fresh n : Prop := {
  fresh_policy : policy n = p;
  fresh_valid : Validate p = None;
  fresh_watcher : watcher n = None;
  fresh_ready : ready n = false;
  fresh_file : checkpointFile n = file;
  fresh_heat : heat_ok cap (heavykeeper n)
}.

(** Where the monitor of its run starts: without a restored checkpoint there will be
    a warm-up.  The clock stands at the epoch until it is read; every deletion of the
    run follows a reading. *)
Definition run_start (restored : bool) n : monitor :=
  mkMonitor false (if restored then Warm (warmUntil n) else Cold) 0.

(** How a run that returned left the daemon *)
Record stopped n (tr : trace) : Prop := {
  stopped_ready : ready n = false;
  stopped_announced : last (observations tr) = Some (SetReady false);
  stopped_watcher w : watcher n = Some w → isClosed w = true
}.

Lemma last_observation_app tr1 tr2 o : last (observations tr2) = Some o →
  last (observations (tr1 ++ tr2)) = Some o.
Proof. intros Hlast. rewrite observations_app, last_app. by rewrite Hlast. Qed.

Lemma stop_run_fine n m : holds (stop_run n) (λ tr n', (∃ m', fine p file m m' tr ∧ m_ready m' = ready n') ∧ stopped n' tr ∧
  selections tr = []).
Proof.
  unfold stop_run. go_prog. eapply holds_impl; [|apply close_watcher_run].
  intros tr n' (Htr & Hn & _ & Hclosed). repeat match goal with r : answer _ |- _ => destruct r end.
  split; [|split].
  - exists (withdrawn m). split; [by apply withdrawn_fine|]. by rewrite Hn.
  - split; [by rewrite Hn|by apply withdrawn_last|done].
  - apply selections_nil. do 2 (constructor; [done|]). eapply Forall_impl; [exact Htr|]. by intros [[] r].
Qed.

Lemma NewTickers_ok : Validate p = None →
  NewTicker (DiskCheckInterval p) = Ret tt ∧ NewTicker (CheckpointInterval p) = Ret tt ∧
  NewTicker (TopKDecayInterval p) = Ret tt.
Proof.
  intros (H1 & H2 & H3)%Validate_intervals. unfold NewTicker.
  by rewrite !(proj2 (Z.leb_gt _ _)) by done.
Qed.

(** The loop made every turn that it was granted. *)
Definition all_turns (tr : trace) : Prop := ∃ turns tr1 tr2,
  tr = tr1 ++ ev CTurns turns :: tr2 ∧ selections tr1 = [] ∧ length (selections tr2) = turns.

(** What every part of a run keeps *)
Definition run_part (m : monitor) (tr : trace) (r : run_end * Notify T) : Prop :=
  ∃ m', fine p file m m' tr ∧ m_ready m' = ready r.2 ∧
    (r.1 = Returned None ↔ RunDone ∈ selections tr) ∧ (r.1 ≠ Running → stopped r.2 tr) ∧
    (r.1 = Running → all_turns tr).

Lemma run_part_app m1 m2 tr1 tr2 r : fine p file m1 m2 tr1 → selections tr1 = [] →
  run_part m2 tr2 r → run_part m1 (tr1 ++ tr2) r.
Proof.
  intros Hfine Hsel (m' & Hf & Hr & Hdone & Hstop & Hturns). exists m'.
  split; [by eapply fine_app|]. split; [done|]. split.
  - by rewrite selections_app, Hsel.
  - split.
    + intros Hrun. destruct (Hstop Hrun). split; [done|by apply last_observation_app|done].
    + intros Hrun. destruct (Hturns Hrun) as (turns & t1 & t2 & -> & Ht1 & Ht2).
      exists turns, (tr1 ++ t1), t2. by rewrite selections_app, Hsel, <-app_assoc.
Qed.

Lemma run_reconciled_fine n m : Validate p = None → loop_ok p file n m →
  holds (run_reconciled getwd n) (run_part m).
Proof.
  intros Hvalid Hl. unfold run_reconciled. rewrite (state_policy _ _ _ _ (loop_state _ _ _ _ Hl)).
  destruct (NewTickers_ok Hvalid) as (-> & -> & ->). go_prog. rename r into turns.
  eapply holds_impl; [|by apply (run_loop_fine turns n m)].
  intros tr [res n'] (m1 & Hf & Hs & Hlen & Hdone). cbn [fst snd] in *.
  assert (fine p file m m1 (ev CTurns turns :: tr)) as Hf'.
  { apply fine_cons; [by split; [split|]|done]. }
  destruct res as [err|]; go_prog.
  - eapply holds_impl; [|apply (stop_run_fine n' m1)].
    intros tr2 n2 ((m2 & Hf2 & Hr2) & Hstop & Hsel2). go_prog. exists m2. rewrite app_nil_r. split_and!.
    + exact (fine_app _ _ _ _ _ (_ :: _) _ Hf' Hf2).
    + done.
    + change (selections _) with (selections (tr ++ tr2)). by rewrite selections_app, Hsel2, app_nil_r.
    + intros _. destruct Hstop as [? Hlast ?]. split; [done| |done].
      exact (last_observation_app (_ :: _) _ _ Hlast).
    + done.
  - rewrite app_nil_r. exists m1. split_and!; [done|apply Hs|done|done|].
    intros _. exists turns, [], tr. by rewrite Hlen.
Qed.

Lemma Run_fine n : fresh n → holds (Run getwd n) (λ tr r, ∃ restored,
  (restored = true → accepted cap tr) ∧ run_part (run_start restored n) tr r).
Proof.
  intros [Hp Hvalid Hw Hr Hfile Hh]. unfold Run. apply holds_bind.
  eapply holds_impl; [|apply holds_tame; [by apply restoreCheckpoint_run|apply restoreCheckpoint_calls]].
  intros tr1 [restored n1] ((Hcalm & (hk & Hn1 & Hhk) & Hacc) & Hsel1%selections_nil & _).
  cbn [fst snd] in *. set (m0 := run_start restored n).
  assert (state_ok p file n1 m0) as Hs1 by (subst n1; by split).
  apply (holds_impl _ (λ tr2 r, run_part m0 tr2 r)).
  { intros tr2 r Hpart. exists restored. split; [intros; by apply accepted_app, Hacc|].
    by eapply run_part_app; [apply fine_calm| |]. }
  apply holds_bind. eapply holds_impl; [|apply holds_tame;
    [apply (reconcile_fine getwd p file n1 m0 false Hs1); by destruct restored|apply reconcile_calls]].
  intros tr2 [err n2] ((m2 & Hfine2 & Hend) & Hsel2%selections_nil & _). cbn [fst snd] in *.
  destruct err as [e|].
  { apply holds_ret. rewrite app_nil_r. exists m2. split; [done|]. split; [apply Hend|]. split.
    - rewrite Hsel2. split; [done|]. by intros ?%elem_of_nil.
    - split; [|done]. intros _. destruct Hend as [[] Hlast]. by split. }
  destruct Hend as (Hs2 & Hwatch & _ & Hph & Hwarm). cbn [snd] in *.
  apply (holds_impl _ (λ tr3 r, run_part m2 tr3 r)); [intros tr3 r; by apply run_part_app|].
  destruct restored.
  - apply holds_bind, holds_ret, run_reconciled_fine; [done|]. split; [done|done|].
    exists (warmUntil n). rewrite Hph, Hwarm. by subst n1.
  - apply holds_bind, holds_bind, holds_call. intros now. apply holds_ret, holds_ret.
    eapply holds_impl; [|apply (run_reconciled_fine _ (mon_step W m2 (ev CNow now)) Hvalid)].
    + intros tr3 r. apply (run_part_app _ _ [ev CNow now]); [apply fine_step; by split; [split|]|done].
    + destruct Hs2 as [Hp2 Hf2 Hh2 Hr2]. split; [by split|done|].
      exists (now + W). cbn. by rewrite Hph, Hp2.
Qed.

Lemma run_error n tr e n' : exec (Run getwd n) tr (Returned (Some e), n') → error_of tr e.
Proof.
  unfold Run. intros (tr1 & tr2 & [restored n1] & -> & Hx1 & Hx)%exec_bind.
  assert (selections tr1 = []) as Hsel1.
  { by eapply selections_nil, tame_exec; [apply restoreCheckpoint_calls|]. }
  apply error_of_prefix; [|done]. clear Hx1 Hsel1.
  apply exec_bind in Hx as (t1 & t2 & [[e1|] n2] & -> & Hx1 & Hx).
  { destruct Hx as [-> [= -> ->]]. assert (reconciliation_failed false e t1) as Hf by by exists n1, n'.
    exists false, [], t1, []. rewrite !app_nil_r. split_and!; [done|done| |done]. by eapply failed_selections. }
  apply error_of_prefix; [|by eapply selections_nil, tame_exec; [apply reconcile_calls|]].
  apply exec_bind in Hx as (t3 & t4 & n3 & -> & Hx3 & Hx).
  apply error_of_prefix; [by eapply run_reconciled_error|]. destruct restored; [by destruct Hx3 as [-> _]|].
  eapply selections_nil, (tame_exec _ (λ _, True)); [|exact Hx3]. go_tame.
Qed.

(** ** The claims *)

(** C1. Deletion is guarded in every run, whatever the file system, the watcher, the
    timers and the clock do.  A file is unlinked only while readiness is announced,
    only under an exclusive activity lock, never by a daemon in shadow mode, and only
    once the warm-up has passed: after a start without a restored checkpoint no file
    is unlinked before the first reading of the clock plus [WarmupDuration].  When the
    loop receives that watches are lost (a channel closed, events dropped, a watch
    ended), or reports the loss, no file is unlinked until, all of it since then, the
    daemon has made a new watcher, read the clock and reported its reconciliation,
    and [WarmupDuration] has passed since that reading.  A checkpoint waives the first
    warm-up only if it was read whole and is valid.  By their paths the run removes
    only temporary files it made itself, and renames them only to its checkpoint.
    No execution panics. *)
Theorem Run_guards_deletion n : fresh n → holds (Run getwd n) (λ tr r,
  (∃ restored, (restored = true → accepted cap tr) ∧ paced W (run_start restored n) tr) ∧
  (fds_fresh [] tr → unlinks_locked [] tr ∧ locks [] tr = []) ∧
  (unlinks tr ≠ [] → Shadow p = false) ∧
  own_files file [] tr).
Proof.
  intros Hn. eapply holds_impl; [|by apply Run_fine].
  intros tr r (restored & Hacc & m' & Hfine & _). destruct Hfine as [Hpaced _ Hlock Hshadow _ Hown].
  split; [by exists restored|]. split; [apply Hlock|done].
Qed.

(** C5. Every checkpoint a run writes, periodic or final, is one that the next start
    accepts once it has decoded it: the current version, at most [TopKCapacity] items,
    each a cache key with a positive count. *)
Theorem Run_saves_loadable n : fresh n →
  holds (Run getwd n) (λ tr r, Forall (save_ok cap) tr).
Proof.
  intros Hn. eapply holds_impl; [|by apply Run_fine]. intros tr r (restored & _ & m' & Hfine & _).
  apply Hfine.
Qed.

(** C10. A run ends exactly when it should.  It returns nil if and only if its loop
    received the cancellation.  It returns an error only if a reconciliation failed
    with that very error (the first one, or that of a watcher it recovered), after
    which its loop received nothing more; any other error is survived.  Otherwise it
    has gone on for all the turns it was granted.  However it returns, the daemon is
    not ready, the last thing the observer was told is that it is not, and its
    watcher is closed. *)
Theorem Run_ends n : fresh n → holds (Run getwd n) (λ tr r,
  (r.1 = Returned None ↔ RunDone ∈ selections tr) ∧
  (∀ e, r.1 = Returned (Some e) → ∃ reset tr1 tr2 tr3 n0 n1, tr = tr1 ++ tr2 ++ tr3 ∧
     exec (reconcile getwd n0 reset) tr2 (Some e, n1) ∧ selections (tr2 ++ tr3) = [] ∧
     (reset = false → selections tr1 = [])) ∧
  (r.1 = Running → ∃ turns tr1 tr2, tr = tr1 ++ ev CTurns turns :: tr2 ∧
     selections tr1 = [] ∧ length (selections tr2) = turns) ∧
  (r.1 ≠ Running → ready r.2 = false ∧ last (observations tr) = Some (SetReady false) ∧
     ∀ w, watcher r.2 = Some w → isClosed w = true)).
Proof.
  intros Hn. eapply holds_impl; [|by apply holds_self, Run_fine].
  intros tr [res n'] (Hx & _ & _ & m' & _ & _ & Hdone & Hstop & Hturns). split; [done|]. split.
  { intros e He. cbn in He. subst res.
    destruct (run_error _ _ _ _ Hx) as (reset & t1 & t2 & t3 & Htr & (n0 & n1 & Hf) & H1 & H2).
    by exists reset, t1, t2, t3, n0, n1. }
  split; [exact Hturns|]. intros Hrun. by destruct (Hstop Hrun).
Qed.
End runs.
