(* ===== verification/Metrics.v ===== *)
(** * Metrics (prometheus.go: newMetrics and the observer; observer.go)

    The collectors the daemon exports, their registration, and what each method of
    [Observer] does to them.  The client library is a parameter: a class of operations
    on collectors and registries with the laws its documentation gives. *)

From stdpp Require Import fin_sets.
From S2P Require Import Prelude Float64 MinHeapSpec TopkSpec Policy Paths CacheKey System.
From S2P Require Import Cleanup RunLoop RunSafety Runs.
Local Open Scope Z_scope.

(** ** The client library *)

(** [GaugeOpts] and [CounterOpts] *)
Record Opts := mkOpts { OptsName : string; OptsHelp : string }.

(** A value of interface [Collector], by what it was made of *)
Inductive collector (G C V : Type) := OfGauge (g : G) | OfCounter (c : C) | OfVec (v : V).
Arguments OfGauge {G C V}. Arguments OfCounter {G C V}. Arguments OfVec {G C V}.

Class Prometheus := {
  Gauge : Type;
  Counter : Type;
  CounterVec : Type;
  Registerer : Type;
  NewGauge : Opts → Gauge;
  NewCounter : Opts → Counter;
  NewCounterVec : Opts → list string → CounterVec;        (* with its labels *)
  Gauge_Set : Gauge → float64 → Gauge;
  Counter_Inc : Counter → Counter;
  With_Inc : CounterVec → string → CounterVec;            (* WithLabelValues(v).Inc() *)
  With_Add : CounterVec → string → float64 → CounterVec;  (* WithLabelValues(v).Add(x) *)
  gauge_value : Gauge → float64;                          (* what is exported *)
  describe : collector Gauge Counter CounterVec → Opts * list string;
  registered : Registerer → gset string;                  (* names taken *)
  MustRegister : Registerer → list (collector Gauge Counter CounterVec) → option Registerer
}.

(** The names and labels that the exposition format admits: a letter or underscore,
    then letters, digits and underscores; [:] in names; no label begins with [__]. *)
Definition name_start (c : Ascii.ascii) : bool :=
  let n := Z.of_N (Ascii.N_of_ascii c) in
  ((97 <=? n) && (n <=? 122)) || ((65 <=? n) && (n <=? 90)) || (n =? 95).
Definition name_char (c : Ascii.ascii) : bool :=
  let n := Z.of_N (Ascii.N_of_ascii c) in name_start c || ((48 <=? n) && (n <=? 57)).
Definition colon (c : Ascii.ascii) : bool := Z.of_N (Ascii.N_of_ascii c) =? 58.
Definition valid_metric_name (s : string) : bool :=
  match String.list_ascii_of_string s with
  | [] => false
  | c :: cs => (name_start c || colon c) && forallb (λ c, name_char c || colon c) cs
  end.
Definition valid_label (s : string) : bool :=
  match String.list_ascii_of_string s with
  | [] => false
  | c :: cs => name_start c && forallb name_char cs && negb (String.prefix "__" s)
  end.
Definition valid_desc (d : Opts * list string) : bool :=
  valid_metric_name (OptsName d.1) && forallb valid_label d.2.

(** A gauge is zero until it is set, and then exports what it was last set to.  A
    registry takes valid descriptions of names it does not have yet, all at once, and
    [MustRegister] panics when it meets a name that is taken. *)
Class PrometheusLaws `{Prometheus} : Prop := {
  gauge_new o : gauge_value (NewGauge o) = f_zero;
  gauge_set g x : gauge_value (Gauge_Set g x) = x;
  describe_gauge o : describe (OfGauge (NewGauge o)) = (o, []);
  describe_counter o : describe (OfCounter (NewCounter o)) = (o, []);
  describe_vec o labels : describe (OfVec (NewCounterVec o labels)) = (o, labels);
  register_fresh r cs :
    forallb (λ c, valid_desc (describe c)) cs = true →
    NoDup ((λ c, OptsName (describe c).1) <$> cs) →
    (∀ c, c ∈ cs → OptsName (describe c).1 ∉ registered r) →
    ∃ r', MustRegister r cs = Some r' ∧
      registered r' = registered r ∪ list_to_set ((λ c, OptsName (describe c).1) <$> cs);
  register_taken r cs c : c ∈ cs → OptsName (describe c).1 ∈ registered r → MustRegister r cs = None
}.

(** ** Data and operations *)

Section metrics.
Context `{Prometheus}.

Record metrics := mkMetrics {
  diskFreeBytes : Gauge;
  diskUsedBytes : Gauge;
  cacheBytes : Gauge;
  readyGauge : Gauge;
  projectedBytes : Gauge;
  accesses : CounterVec;
  closes_ : CounterVec;
  deletedBytes : CounterVec;
  deletedFiles : CounterVec;
  skippedActive : Counter;
  frozen : CounterVec;
  reconciliations : Counter
}.

(** The composite literal of [newMetrics] *)
Definition new_collectors : metrics :=
  mkMetrics
    (NewGauge (mkOpts "hoshino_nodefs_free_bytes"
       "Free bytes on the filesystem containing the Bazel disk cache."))
    (NewGauge (mkOpts "hoshino_nodefs_used_bytes"
       "Used bytes on the filesystem containing the Bazel disk cache."))
    (NewGauge (mkOpts "hoshino_cache_bytes" "Bytes in validated Bazel action-cache and CAS entries."))
    (NewGauge (mkOpts "hoshino_ready" "Whether Hoshino has complete watcher coverage."))
    (NewGauge (mkOpts "hoshino_projected_eviction_bytes"
       "Bytes selected by the latest shadow eviction cycle."))
    (NewCounterVec (mkOpts "hoshino_cache_accesses_total"
       "Observed opens of completed Bazel disk-cache entries.") ["store"])
    (NewCounterVec (mkOpts "hoshino_cache_closes_total"
       "Observed closes of completed Bazel disk-cache entries.") ["store"])
    (NewCounterVec (mkOpts "hoshino_evicted_bytes_total"
       "Bytes deleted from validated Bazel disk-cache entries.") ["store"])
    (NewCounterVec (mkOpts "hoshino_evicted_files_total"
       "Validated Bazel disk-cache entries deleted.") ["store"])
    (NewCounter (mkOpts "hoshino_eviction_skipped_active_total"
       "Eviction cycles skipped because a Bazel invocation held the shared lease."))
    (NewCounterVec (mkOpts "hoshino_eviction_frozen_total"
       "Eviction cycles frozen by a safety gate.") ["reason"])
    (NewCounter (mkOpts "hoshino_watcher_reconciliations_total"
       "Successful full watcher and cache-tree reconciliations."))%string.

(** The arguments of [MustRegister] *)
Definition collectors (m : metrics) : list (collector Gauge Counter CounterVec) :=
  [OfGauge (diskFreeBytes m); OfGauge (diskUsedBytes m); OfGauge (cacheBytes m);
   OfGauge (readyGauge m); OfGauge (projectedBytes m); OfVec (accesses m); OfVec (closes_ m);
   OfVec (deletedBytes m); OfVec (deletedFiles m); OfCounter (skippedActive m);
   OfVec (frozen m); OfCounter (reconciliations m)].

(** [None] is a panic of [MustRegister]. *)
Definition newMetrics (registerer : Registerer) : option (metrics * Registerer) :=
  let result := new_collectors in
  registerer ← MustRegister registerer (collectors result);
  Some (result, registerer).

(** The methods of [metrics], as the interface [Observer] names them. *)
Definition record (m : metrics) (o : observation) : metrics :=
  let 'mkMetrics free used cache rdy projected acc clo dbytes dfiles skipped frz rec := m in
  match o with
  | SetDisk bytesFree bytesUsed =>
      mkMetrics (Gauge_Set free (f_of_Z bytesFree)) (Gauge_Set used (f_of_Z bytesUsed)) cache rdy
        projected acc clo dbytes dfiles skipped frz rec
  | SetCacheBytes bytes =>
      mkMetrics free used (Gauge_Set cache (f_of_Z bytes)) rdy projected acc clo dbytes dfiles
        skipped frz rec
  | SetReady r =>
      mkMetrics free used cache (Gauge_Set rdy (if r then f_of_Z 1 else f_of_Z 0)) projected acc clo
        dbytes dfiles skipped frz rec
  | RecordAccess kind =>
      mkMetrics free used cache rdy projected (With_Inc acc (kind_string kind)) clo dbytes dfiles
        skipped frz rec
  | RecordClose kind =>
      mkMetrics free used cache rdy projected acc (With_Inc clo (kind_string kind)) dbytes dfiles
        skipped frz rec
  | RecordProjected bytes =>
      mkMetrics free used cache rdy (Gauge_Set projected (f_of_Z bytes)) acc clo dbytes dfiles
        skipped frz rec
  | RecordDeleted kind bytes =>
      mkMetrics free used cache rdy projected acc clo
        (With_Add dbytes (kind_string kind) (f_of_Z bytes)) (With_Inc dfiles (kind_string kind))
        skipped frz rec
  | RecordSkippedActive =>
      mkMetrics free used cache rdy projected acc clo dbytes dfiles (Counter_Inc skipped) frz rec
  | RecordFrozen reason =>
      mkMetrics free used cache rdy projected acc clo dbytes dfiles skipped (With_Inc frz reason) rec
  | RecordReconciliation =>
      mkMetrics free used cache rdy projected acc clo dbytes dfiles skipped frz (Counter_Inc rec)
  end.

(** ** Observers *)

(** A value of interface [Observer]: what a call of one of its methods leaves of it *)
Class Observer (S : Type) := observer_method : S → observation → S.
#[local] Instance metrics_Observer : Observer metrics := record.
(** It has no state. *)
#[local] Instance noopObserver : Observer unit := λ s _, s.

Definition told {S} `{!Observer S} (s : S) (obs : list observation) : S := foldl observer_method s obs.
Definition recorded (m : metrics) (obs : list observation) : metrics := told m obs.

Lemma recorded_snoc m tr e : recorded m (observations (tr ++ [e])) =
  match observed e with
  | Some o => record (recorded m (observations tr)) o
  | None => recorded m (observations tr)
  end.
Proof.
  rewrite observations_app. unfold recorded, told. rewrite foldl_app.
  change (observations [e]) with (match observed e with Some o => [o] | None => [] end).
  by destruct (observed e).
Qed.

(** ** The readiness gauge *)

Context `{!PrometheusLaws}.

Definition metric_names : gset string := list_to_set
  ["hoshino_nodefs_free_bytes"; "hoshino_nodefs_used_bytes"; "hoshino_cache_bytes"; "hoshino_ready";
   "hoshino_projected_eviction_bytes"; "hoshino_cache_accesses_total"; "hoshino_cache_closes_total";
   "hoshino_evicted_bytes_total"; "hoshino_evicted_files_total";
   "hoshino_eviction_skipped_active_total"; "hoshino_eviction_frozen_total";
   "hoshino_watcher_reconciliations_total"]%string.

Lemma collectors_described :
  (λ c, OptsName (describe c).1) <$> collectors new_collectors =
    ["hoshino_nodefs_free_bytes"; "hoshino_nodefs_used_bytes"; "hoshino_cache_bytes"; "hoshino_ready";
     "hoshino_projected_eviction_bytes"; "hoshino_cache_accesses_total"; "hoshino_cache_closes_total";
     "hoshino_evicted_bytes_total"; "hoshino_evicted_files_total";
     "hoshino_eviction_skipped_active_total"; "hoshino_eviction_frozen_total";
     "hoshino_watcher_reconciliations_total"]%string.
Proof.
  unfold collectors, new_collectors. cbn [fmap list_fmap diskFreeBytes diskUsedBytes cacheBytes readyGauge
    projectedBytes accesses closes_ deletedBytes deletedFiles skippedActive frozen reconciliations].
  by rewrite !describe_gauge, !describe_vec, !describe_counter.
Qed.

Lemma collectors_valid : forallb (λ c, valid_desc (describe c)) (collectors new_collectors) = true.
Proof.
  unfold collectors, new_collectors. cbn [forallb diskFreeBytes diskUsedBytes cacheBytes readyGauge
    projectedBytes accesses closes_ deletedBytes deletedFiles skippedActive frozen reconciliations].
  rewrite !describe_gauge, !describe_vec, !describe_counter. vm_compute. reflexivity.
Qed.

Lemma newMetrics_run r :
  match newMetrics r with
  | Some (m, r') => m = new_collectors ∧ registered r ## metric_names ∧
      registered r' = registered r ∪ metric_names
  | None => ¬ registered r ## metric_names
  end.
Proof.
  unfold newMetrics.
  destruct (decide (registered r ## metric_names)) as [Hfree|Htaken].
  - destruct (register_fresh r (collectors new_collectors)) as (r' & -> & Hr').
    + exact collectors_valid.
    + rewrite collectors_described. apply (bool_decide_unpack _). vm_compute. exact I.
    + intros c Hc Hin. apply (Hfree _ Hin). unfold metric_names.
      rewrite <-collectors_described, elem_of_list_to_set. by apply list_elem_of_fmap_2 with (f := λ c, OptsName (describe c).1).
    + cbn. split; [done|]. split; [done|]. by rewrite Hr', collectors_described.
  - destruct (MustRegister r (collectors new_collectors)) as [r'|] eqn:Hr; [|done].
    exfalso. apply Htaken. intros name Hin Hname. unfold metric_names in Hname.
    rewrite <-collectors_described, elem_of_list_to_set in Hname.
    apply list_elem_of_fmap in Hname as (c & -> & Hc). by rewrite (register_taken r _ c) in Hr.
Qed.

(** [newMetrics] registers its twelve collectors, under valid and pairwise different
    names, in a registry that has none of these names; on any other registry, and so
    when it is called a second time, it panics. *)
Theorem newMetrics_registers r :
  match newMetrics r with
  | Some (m, r') => m = new_collectors ∧ registered r ## metric_names ∧
      registered r' = registered r ∪ metric_names ∧ newMetrics r' = None
  | None => ¬ registered r ## metric_names
  end.
Proof.
  pose proof (newMetrics_run r) as Hr. destruct (newMetrics r) as [[m r']|]; [|done].
  destruct Hr as (Hm & Hfree & Hr'). split_and!; [done..|].
  pose proof (newMetrics_run r') as H'. destruct (newMetrics r') as [[m' r2]|]; [|done].
  destruct H' as (_ & Hbad & _). exfalso.
  apply (Hbad "hoshino_ready"%string); rewrite ?Hr'; [apply elem_of_union_r|];
    unfold metric_names; rewrite elem_of_list_to_set; by repeat (left; done) || right.
Qed.

Definition gauge_of (b : bool) : float64 := if b then f_of_Z 1 else f_of_Z 0.

(** The gauge follows the monitor of RunSafety.v. *)
Lemma recorded_ready W ms m tr : gauge_value (readyGauge ms) = gauge_of (m_ready m) →
  gauge_value (readyGauge (recorded ms (observations tr))) = gauge_of (m_ready (mon_after W m tr)).
Proof.
  revert ms m. induction tr as [|[c r] tr IH]; intros ms m Hg; [done|].
  change (mon_after W m (existT c r :: tr)) with (mon_after W (mon_step W m (existT c r)) tr).
  destruct (observed (existT c r)) as [o|] eqn:Ho.
  - destruct c; try discriminate Ho. injection Ho as ->.
    change (observations _) with (o :: observations tr). apply (IH (record ms o)). destruct ms.
    destruct o; try exact Hg; cbn in *.
    + apply gauge_set.
    + by destruct (String.eqb reason "watcher_loss").
    + by destruct (m_phase m) as [|[] []|].
  - assert (m_ready (mon_step W m (existT c r)) = m_ready m) as Hm.
    { destruct c; try done; cbn; [by destruct r, (m_phase m)|by destruct (lost_by r)]. }
    rewrite <-Hm in Hg. destruct c; try discriminate Ho; exact (IH ms _ Hg).
Qed.
End metrics.

Section runs.
Context {T : Type} `{!Topk T} `{!TopkLaws T} `{!Sorter} `{!SorterLaws} `{!Prometheus} `{!PrometheusLaws}.
Context (getwd : result CacheError string) (p : EvictionPolicy) (file : string).

(** The exported readiness is the truth: whatever a run has done, returned or still
    going on, the gauge [hoshino_ready] of the collectors that [newMetrics] registered
    is 1 when [Ready] answers true, and 0 when it answers false. *)
Theorem ready_gauge_truthful (n : Notify T) r0 m r1 : fresh p file n → newMetrics r0 = Some (m, r1) →
  holds (Run getwd n) (λ tr r,
    gauge_value (readyGauge (recorded m (observations tr))) = gauge_of (Ready r.2)).
Proof.
  intros Hn Hnew. pose proof (newMetrics_run r0) as Hm. rewrite Hnew in Hm. destruct Hm as [-> _].
  eapply holds_impl; [|by apply (Run_fine getwd p file)].
  intros tr r (restored & _ & m' & Hfine & Hready & _). unfold Ready. rewrite <-Hready.
  rewrite <-(fine_after _ _ _ _ _ Hfine). apply recorded_ready.
  unfold new_collectors. cbn. apply gauge_new.
Qed.
End runs.
