(* ===== verification/Logging.v ===== *)
(** * Log formatting (prometheus.go: DefaultFieldsFormatter)

    The formatter that adds the daemon's default fields to every log entry before it
    hands it to another formatter.  A map of fields is a finite map; Go ranges over it
    in an order it does not specify, so the order of each loop is an argument. *)

From S2P Require Import Prelude Paths.

Section formatter.
(** logrus' types: loggers, values of fields, levels, frames, buffers and contexts *)
Context {Logger Value Level Frame Buffer Context_ Error : Type}.

Definition Fields : Type := gmap string Value.

(** [logrus.Entry] *)
Record LogEntry := mkLogEntry {
  EntryLogger : Logger;
  EntryData : Fields;
  EntryTime : Z;
  EntryLevel : Level;
  EntryCaller : option Frame;
  EntryMessage : string;
  EntryBuffer : option Buffer;
  EntryContext : option Context_
}.

(** The interface [logrus.Formatter] *)
Definition Formatter : Type := LogEntry → result Error string.

Record DefaultFieldsFormatter := mkFormatter {
  WrappedFormatter : Formatter;
  DefaultFields : Fields
}.

(** [JSONFormatter] is logrus', the one that is wrapped when none is given. *)
Definition NewDefaultFieldsFormatter (JSONFormatter : Formatter) (wrappedFormatter : option Formatter)
    (defaultFields : Fields) : DefaultFieldsFormatter :=
  mkFormatter (match wrappedFormatter with None => JSONFormatter | Some f => f end) defaultFields.

(** [for key, value := range m { data[key] = value }], in the order [range] *)
Definition copy_fields (data : Fields) (range : list (string * Value)) : Fields :=
  foldl (λ data kv, <[kv.1 := kv.2]> data) data range.

Definition Format (range1 range2 : Fields → list (string * Value)) (d : DefaultFieldsFormatter)
    (entry : LogEntry) : result Error string :=
  let data := copy_fields (copy_fields ∅ (range1 (DefaultFields d))) (range2 (EntryData entry)) in
  WrappedFormatter d (mkLogEntry (EntryLogger entry) data (EntryTime entry) (EntryLevel entry) None
    (EntryMessage entry) None None).

(** An order of ranging over a map: each pair once *)
Definition ranges (range : Fields → list (string * Value)) : Prop := ∀ m, range m ≡ₚ map_to_list m.

Lemma copy_fields_union data m l : l ≡ₚ map_to_list m → copy_fields data l = m ∪ data.
Proof.
  intros Hl. assert (m = list_to_map (reverse l)) as ->.
  { rewrite <-(list_to_map_to_list m). apply list_to_map_proper.
    - apply NoDup_fst_map_to_list.
    - by rewrite reverse_Permutation. }
  clear Hl. unfold copy_fields, Fields in *. induction l as [|[k v] l IH] using rev_ind.
  - cbn. by rewrite (left_id_L ∅ (∪)).
  - rewrite foldl_app, reverse_snoc, IH. apply insert_union_l.
Qed.

(** C39. Every entry is formatted with the default fields, and its own fields win: whatever
    the order in which the maps are ranged over, the wrapped formatter is given the
    entry's logger, time, level and message, and the union of the two maps in which
    the entry's value of a key hides the default one. *)
Theorem Format_merges range1 range2 d entry : ranges range1 → ranges range2 →
  Format range1 range2 d entry =
    WrappedFormatter d (mkLogEntry (EntryLogger entry) (EntryData entry ∪ DefaultFields d)
      (EntryTime entry) (EntryLevel entry) None (EntryMessage entry) None None).
Proof.
  intros H1 H2. unfold Format. rewrite (copy_fields_union ∅ (DefaultFields d)) by apply H1.
  rewrite (copy_fields_union _ (EntryData entry)) by apply H2. by rewrite (right_id_L ∅ (∪)).
Qed.
End formatter.
Arguments LogEntry : clear implicits.
Arguments DefaultFieldsFormatter : clear implicits.

(** ** The formatter of main.go *)

(** A formatter that prints the component and the message, and the two orders of a
    map and its reverse. *)
Definition demo_format (e : LogEntry unit string unit unit unit unit) : result unit string :=
  Ok (default "?" (EntryData e !! "component") +:+ ": " +:+ EntryMessage e)%string.
Definition main_formatter : DefaultFieldsFormatter unit string unit unit unit unit unit :=
  NewDefaultFieldsFormatter demo_format None {["component" := "hoshino"]}%string.
Definition demo_entry (fields : gmap string string) : LogEntry unit string unit unit unit unit :=
  mkLogEntry tt fields 0 tt None "ready"%string None None.
Definition backwards (m : gmap string string) : list (string * string) := reverse (map_to_list m).

Lemma Format_merges_witness :
  Format map_to_list backwards main_formatter (demo_entry {["reason" := "warmup"]}%string) =
  demo_format (demo_entry ({["reason" := "warmup"]} ∪ {["component" := "hoshino"]})%string).
Proof.
  refine (Format_merges map_to_list backwards main_formatter
    (demo_entry {["reason" := "warmup"]}%string) _ _).
  - by intros m.
  - intros m. apply reverse_Permutation.
Defined.

Example format_default : Format map_to_list backwards main_formatter (demo_entry ∅) =
  Ok "hoshino: ready"%string.
Proof. vm_compute. reflexivity. Qed.

Example format_own : Format map_to_list backwards main_formatter
    (demo_entry {["component" := "test"]}%string) = Ok "test: ready"%string.
Proof. vm_compute. reflexivity. Qed.
