(* ===== verification/Process.v ===== *)
(** * The process (main.go: run and main)

    What surrounds the manager: the options, the registration of the collectors, the
    HTTP servers with their probes, the signals, and the exit status.  The manager is
    used through an interface, so that what is shown here holds of the Linux build and
    of the stub that other systems get.

    A process is a state, and its life a sequence of [step]s: the goroutine of [run]
    starts the manager and waits in its [select]; the manager makes its calls one by
    one; servers fail, signals arrive and probes are answered at any time.  When [main]
    returns, nothing more happens: the manager is cut off wherever it was. *)

From stdpp Require Import pretty.
From S2P Require Import Prelude Float64 MinHeapSpec TopkSpec Policy Paths CacheKey System Partial.
From S2P Require Import RunLoop Options RunSafety Runs Metrics.
Local Open Scope Z_scope.

(** ** The manager *)

(** What main.go uses of package [eviction].  [manager_Run] returns nil or an error, or
    has not returned ([None]); [manager_Ready] may be called at any time. *)
Class Manager (M NewE RunE : Type) := {
  manager_New : Config → prog (result NewE M);
  manager_Run : M → prog (option (option RunE) * M);
  manager_Ready : M → bool
}.

(** What package [eviction] promises: [New] deletes nothing, and what it makes is not
    ready; [Run] returns nil only when it received the cancellation; it announces the
    readiness it stores, and it is not ready once it has returned. *)
Class ManagerLaws (M NewE RunE : Type) `{Manager M NewE RunE} := {
  manager_valid : Config → M → Prop;
  manager_New_ok c : topk_u32 (ConfigPolicy c) →
    holds (manager_New c) (λ tr r, unlinks tr = [] ∧ Forall not_by_path tr ∧
      ∀ m, r = Ok m → manager_valid c m ∧ manager_Ready m = false);
  manager_Run_ok c m : manager_valid c m →
    holds (manager_Run m) (λ tr r, paired tr ∧
      (r.1 = Some None → RunDone ∈ selections tr) ∧
      (r.1 ≠ None → announced tr = false ∧ manager_Ready r.2 = false))
}.

(** ** The servers *)

(** The functions that answer a request: those of main.go, and those of libraries. *)
Inductive handler := Healthz | Readyz | Library (symbol : string).
Record server := mkServer { Addr : string; routes : list (string * handler); ReadHeaderTimeout : Z }.
Record response := mkResponse { status : Z; body : string }.

Definition newline : string := String (Ascii.ascii_of_nat 10) EmptyString.
Definition StatusOK : Z := 200.
Definition StatusServiceUnavailable : Z := 503.

(** [http.Error] ends the text with a newline. *)
Definition respond (ready : bool) (h : handler) : option response :=
  match h with
  | Healthz => Some (mkResponse StatusOK ("ok" +:+ newline))
  | Readyz =>
      if negb ready then Some (mkResponse StatusServiceUnavailable ("not ready" +:+ newline))
      else Some (mkResponse StatusOK ("ready" +:+ newline))
  | Library _ => None
  end.

(** [host + ":" + strconv.Itoa(port)] *)
Definition address (host : string) (port : Z) : string := host +:+ ":" +:+ pretty port.

Definition metricsServer (opts : options) : server :=
  mkServer (address (host opts) (metricsPort opts))
    [("/metrics", Library "promhttp.Handler"); ("/prometheus", Library "promhttp.Handler");
     ("/healthz", Healthz); ("/readyz", Readyz)]%string (5 * second).

Definition pprofServer (opts : options) : option server :=
  if negb (pprofPort opts =? 0) then
    Some (mkServer (address (pprofHost opts) (pprofPort opts))
      [("/debug/pprof/", Library "pprof.Index"); ("/debug/pprof/cmdline", Library "pprof.Cmdline");
       ("/debug/pprof/profile", Library "pprof.Profile"); ("/debug/pprof/symbol", Library "pprof.Symbol");
       ("/debug/pprof/trace", Library "pprof.Trace")]%string (5 * second))
  else None.

(** [errors.Join(err, ...)]: nil when all are *)
Definition joined {E} (errs : list E) (err : option E) : list E :=
  (errs ++ match err with Some e => [e] | None => [] end)%list.

(** ** The state of a process *)

Inductive RunError (NewE RunE : Type) :=
| ErrConfig (e : ConfigError)
| ErrNew (e : NewE)
| ErrManager (e : RunE)
| ErrServe (e : errno)
| ErrShutdown (e : errno).
Arguments ErrConfig {NewE RunE}. Arguments ErrNew {NewE RunE}. Arguments ErrManager {NewE RunE}.
Arguments ErrServe {NewE RunE}. Arguments ErrShutdown {NewE RunE}.

Section process.
Context {M NewE RunE : Type} `{!Manager M NewE RunE} `{!Prometheus}.
Local Abbreviation error := (RunError NewE RunE).

(** The goroutine of [main]: in [New], at the [select], shutting the servers down with the
    errors joined so far, or gone with an exit status. *)
Inductive main_point :=
| Starting (rest : prog (result error M))
| Selecting
| StopsMetrics (runErr : list error)
| StopsPprof (runErr : list error)
| Exited (code : Z).

(** The goroutine of the manager: what it has left to do; or it has sent its result. *)
Inductive manager_point :=
| NotStarted
| Runs (rest : prog (option (option RunE) * M))
| Sent.

Inductive server_point := NoServer | Serving | Ended.

Record process := mkProcess {
  run_options : options;
  main_at : main_point;
  manager_at : manager_point;
  managerErrors : option (option RunE);   (* a channel of capacity one *)
  metrics_at : server_point;
  pprof_at : server_point;
  serverErrors : list errno;              (* a channel of capacity two *)
  signalled : bool;                       (* [ctx] is done *)
  cancelled : bool;                       (* [cancel] was called *)
  managerReady : bool;                    (* what the manager would answer now *)
  exported : option metrics               (* the collectors, once registered *)
}.

Definition at_main (s : process) (m : main_point) : process :=
  mkProcess (run_options s) m (manager_at s) (managerErrors s) (metrics_at s) (pprof_at s) (serverErrors s)
    (signalled s) (cancelled s) (managerReady s) (exported s).

(** ** What happens to it *)

Inductive goroutine := Main | TheManager.
Inductive server_name := MetricsServer | PprofServer.
Inductive selected_case := CaseSignal | CaseManager (err : option RunE) | CaseServer (e : errno).

Inductive action :=
| Calls (g : goroutine) (e : event)
| Starts
| Fails (e : error)                       (* [run] returns before its [select] *)
| Crashes                                 (* a panic, in any goroutine *)
| Signal                                  (* SIGINT or SIGTERM *)
| Returns (err : option RunE)             (* the manager *)
| Serves (srv : server_name) (err : option errno)  (* ListenAndServe returns; nil: ErrServerClosed *)
| Probed (srv : server_name) (path : string) (r : response)
| Selects (c : selected_case)
| ShutsDown (srv : server_name) (err : option errno).

(** [run] up to the servers; the panic of [newMetrics] is that of [launch]. *)
Definition setup (opts : options) : prog (result error M) :=
  match evictionConfig opts with
  | Err e => Ret (Err (ErrConfig e))
  | Ok config =>
      manager ← manager_New config;
      match manager with
      | Err e => Ret (Err (ErrNew e))
      | Ok manager => Ret (Ok manager)
      end
  end.

(** The two or three goroutines of [run] *)
Definition started (m : M) (s : process) : process :=
  mkProcess (run_options s) Selecting (Runs (manager_Run m)) (managerErrors s) Serving
    (match pprofServer (run_options s) with Some _ => Serving | None => NoServer end)
    (serverErrors s) (signalled s) (cancelled s) (manager_Ready m) (exported s).

(** A call of the manager: what it stores is what [Ready] reads from then on, and what
    it reports is exported. *)
Definition manager_called (e : event) (rest : prog (option (option RunE) * M)) (s : process) : process :=
  mkProcess (run_options s) (main_at s) (Runs rest) (managerErrors s) (metrics_at s) (pprof_at s) (serverErrors s)
    (signalled s) (cancelled s)
    (readiness (managerReady s) e)
    (match observed e with Some o => (λ m, record m o) <$> exported s | None => exported s end).

Definition manager_sent (err : option RunE) (s : process) : process :=
  mkProcess (run_options s) (main_at s) Sent (Some err) (metrics_at s) (pprof_at s) (serverErrors s)
    (signalled s) (cancelled s) (managerReady s) (exported s).

Definition server_at (s : process) (srv : server_name) : server_point :=
  match srv with MetricsServer => metrics_at s | PprofServer => pprof_at s end.
Definition server_of (opts : options) (srv : server_name) : option server :=
  match srv with MetricsServer => Some (metricsServer opts) | PprofServer => pprofServer opts end.

(** Its goroutine sends the error unless it is [ErrServerClosed], and ends. *)
Definition server_ended (srv : server_name) (err : option errno) (s : process) : process :=
  mkProcess (run_options s) (main_at s) (manager_at s) (managerErrors s)
    (match srv with MetricsServer => Ended | PprofServer => metrics_at s end)
    (match srv with PprofServer => Ended | MetricsServer => pprof_at s end)
    (serverErrors s ++ match err with Some e => [e] | None => [] end)%list
    (signalled s) (cancelled s) (managerReady s) (exported s).

(** After the [select]: [cancel], then the first [Shutdown] *)
Definition selects (errs : list error) (managerErrs : option (option RunE)) (serverErrs : list errno)
    (s : process) : process :=
  mkProcess (run_options s) (StopsMetrics errs) (manager_at s) managerErrs (metrics_at s) (pprof_at s) serverErrs
    (signalled s) true (managerReady s) (exported s).

(** [main]: [Fatal] exits with status 1. *)
Definition exits (errs : list error) : main_point :=
  Exited (match errs with [] => 0 | _ => 1 end).

Definition alive (s : process) : Prop := ∀ code, main_at s ≠ Exited code.

Inductive step (s : process) : action → process → Prop :=
| main_calls c k r : main_at s = Starting (Call c k) →
    step s (Calls Main (ev c r)) (at_main s (Starting (k r)))
| main_fails e : main_at s = Starting (Ret (Err e)) → step s (Fails e) (at_main s (exits [e]))
| main_starts m : main_at s = Starting (Ret (Ok m)) → step s Starts (started m s)
| main_panics : main_at s = Starting Panic → step s Crashes (at_main s (Exited 2))
| manager_calls c k r : alive s → manager_at s = Runs (Call c k) →
    (selected (ev c r) = Some RunDone → signalled s || cancelled s = true) →
    step s (Calls TheManager (ev c r)) (manager_called (ev c r) (k r) s)
| manager_panics : alive s → manager_at s = Runs Panic → step s Crashes (at_main s (Exited 2))
| manager_returns err m : alive s → manager_at s = Runs (Ret (Some err, m)) →
    step s (Returns err) (manager_sent err s)
| server_returns srv err : alive s → server_at s srv = Serving →
    step s (Serves srv err) (server_ended srv err s)
| server_answers srv server path h r : alive s → server_at s srv = Serving →
    server_of (run_options s) srv = Some server → (path, h) ∈ routes server → respond (managerReady s) h = Some r →
    step s (Probed srv path r) s
| signal_arrives : alive s → step s Signal
    (mkProcess (run_options s) (main_at s) (manager_at s) (managerErrors s) (metrics_at s) (pprof_at s)
       (serverErrors s) true (cancelled s) (managerReady s) (exported s))
| select_signal : main_at s = Selecting → signalled s = true →
    step s (Selects CaseSignal) (selects [] (managerErrors s) (serverErrors s) s)
| select_manager err : main_at s = Selecting → managerErrors s = Some err →
    step s (Selects (CaseManager err)) (selects (joined [] (ErrManager <$> err)) None (serverErrors s) s)
| select_server e errs : main_at s = Selecting → serverErrors s = e :: errs →
    step s (Selects (CaseServer e)) (selects [ErrServe e] (managerErrors s) errs s)
| shutdown_metrics errs err : main_at s = StopsMetrics errs →
    step s (ShutsDown MetricsServer err)
      (at_main s (match pprof_at s with
                  | NoServer => exits (joined errs (ErrShutdown <$> err))
                  | _ => StopsPprof (joined errs (ErrShutdown <$> err))
                  end))
| shutdown_pprof errs err : main_at s = StopsPprof errs →
    step s (ShutsDown PprofServer err) (at_main s (exits (joined errs (ErrShutdown <$> err)))).

Inductive reaches (s0 : process) : list action → process → Prop :=
| reaches_nil : reaches s0 [] s0
| reaches_step acts a s s' : reaches s0 acts s → step s a s' → reaches s0 (acts ++ [a]) s'.

(** The calls of a goroutine *)
Definition call_of (g : goroutine) (a : action) : option event :=
  match a, g with
  | Calls Main e, Main => Some e
  | Calls TheManager e, TheManager => Some e
  | _, _ => None
  end.
Definition trace_of (g : goroutine) (acts : list action) : trace := omap (call_of g) acts.

(** [main] and the beginning of [run]: a bad command line exits with status 1, a
    registration that panics with status 2. *)
Definition exited (code : Z) : process :=
  mkProcess default_options (Exited code) NotStarted None NoServer NoServer [] false false false None.
Definition launch {E} (flags_Parse : options → list string → result E (options * list string))
    (registerer : Registerer) (args : list string) : process :=
  match parseOptions flags_Parse args with
  | Err _ => exited 1
  | Ok opts =>
      match newMetrics registerer with
      | None => exited 2
      | Some (m, _) =>
          mkProcess opts (Starting (setup opts)) NotStarted None NoServer NoServer [] false false
            false (Some m)
      end
  end.

Lemma trace_of_snoc g acts a : trace_of g (acts ++ [a]) =
  (trace_of g acts ++ match call_of g a with Some e => [e] | None => [] end)%list.
Proof. unfold trace_of. rewrite omap_app. cbn. by destruct (call_of g a). Qed.

(** The errors that [run] joins, or returns *)
Definition action_error (a : action) : option error :=
  match a with
  | Fails e => Some e
  | Selects (CaseManager err) => ErrManager <$> err
  | Selects (CaseServer e) => Some (ErrServe e)
  | ShutsDown _ err => ErrShutdown <$> err
  | _ => None
  end.
Definition run_errors (acts : list action) : list error := omap action_error acts.

Lemma joined_nil (errs : list error) : joined errs None = errs.
Proof. apply app_nil_r. Qed.

Lemma run_errors_snoc acts a : run_errors (acts ++ [a]) = joined (run_errors acts) (action_error a).
Proof. unfold run_errors, joined. rewrite omap_app. cbn. by destruct (action_error a). Qed.
End process.
Arguments process : clear implicits. Arguments process M NewE RunE {_}.
Arguments action : clear implicits.

(** ** What holds at every moment of its life *)

Section life.
Context {M NewE RunE : Type} `{!Manager M NewE RunE} `{!ManagerLaws M NewE RunE}.
Context `{!Prometheus} `{!PrometheusLaws}.
Context {E : Type} (flags_Parse : options → list string → result E (options * list string)).
Context (registerer : Registerer) (args : list string).
(** The flags leave values of the Go types, and the registry does not have the names. *)
Context (Htyped : ∀ opts rest, flags_Parse default_options args = Ok (opts, rest) → typed opts).
Context (Hfree : registered registerer ## metric_names).
Implicit Types (s : process M NewE RunE) (acts : list (action NewE RunE)).

Local Abbreviation mtrace := (trace_of TheManager).

(** Where the manager is, once [m] was started *)
Definition managed (m : M) acts s : Prop :=
  match manager_at s with
  | NotStarted => False
  | Runs p => ran (manager_Run m) (mtrace acts) p ∧ managerErrors s = None ∧
      announces None (mtrace acts) ∧ managerReady s = ready_stored (mtrace acts)
  | Sent => ∃ err m', ran (manager_Run m) (mtrace acts) (Ret (Some err, m')) ∧
      announces None (mtrace acts) ∧ managerReady s = ready_stored (mtrace acts) ∧
      ready_stored (mtrace acts) = false ∧ announced (mtrace acts) = false ∧
      (managerErrors s = None ∨ managerErrors s = Some err)
  end.

Definition begun acts s : Prop := ∃ config m,
  evictionConfig (run_options s) = Ok config ∧ manager_valid config m ∧ managed m acts s.
Definition unbegun acts s : Prop :=
  manager_at s = NotStarted ∧ mtrace acts = [] ∧ managerErrors s = None ∧
  managerReady s = false.

Definition main_life acts s : Prop :=
  match main_at s with
  | Starting p => unbegun acts s ∧ cancelled s = false ∧ run_errors acts = [] ∧
      ran (setup (run_options s)) (trace_of Main acts) p
  | Selecting => begun acts s ∧ cancelled s = false ∧ run_errors acts = []
  | StopsMetrics errs | StopsPprof errs =>
      begun acts s ∧ errs = run_errors acts ∧ (errs = [] → signalled s = true)
  | Exited code =>
      (code = 0 ∧ begun acts s ∧ run_errors acts = [] ∧ signalled s = true) ∨
      (code = 1 ∧ (begun acts s ∨ unbegun acts s) ∧ run_errors acts ≠ [])
  end.

Record life acts s : Prop := {
  life_options : parseOptions flags_Parse args = Ok (run_options s);
  life_signal : signalled s = true → Signal ∈ acts;
  life_setup : unlinks (trace_of Main acts) = [] ∧ Forall not_by_path (trace_of Main acts);
  life_done : RunDone ∈ selections (mtrace acts) → signalled s || cancelled s = true;
  life_exported : exported s = Some (recorded new_collectors (observations (mtrace acts)));
  life_main : main_life acts s
}.

Lemma parseOptions_typed opts : parseOptions flags_Parse args = Ok opts → typed opts.
Proof.
  unfold parseOptions. destruct (flags_Parse _ _) as [[o rest]|e] eqn:Hf; [|done].
  specialize (Htyped o rest eq_refl). destruct (negb _); [done|]. destruct (String.eqb _ _); [done|].
  destruct (_ || _); [done|]. intros [= <-]. by destruct Htyped.
Qed.

Lemma setup_holds opts : parseOptions flags_Parse args = Ok opts →
  holds (setup opts) (λ tr r, unlinks tr = [] ∧ Forall not_by_path tr ∧ ∀ m, r = Ok m → ∃ config,
    evictionConfig opts = Ok config ∧ manager_valid config m ∧ manager_Ready m = false).
Proof.
  intros Hopts%parseOptions_typed. unfold setup. pose proof (evictionConfig_run opts Hopts) as Hc.
  destruct (evictionConfig opts) as [config|]; [|apply holds_ret; by split_and!]. destruct Hc as (_ & _ & Hu32).
  apply holds_bind. eapply holds_impl; [|by apply manager_New_ok].
  intros tr [m|e] (Hu & Hp & Hm); apply holds_ret; rewrite app_nil_r; (split; [done|]);
    (split; [done|]); [|done].
  intros m' [= <-]. destruct (Hm m eq_refl). by exists config.
Qed.

(** ** Every step keeps it *)

Lemma begun_frame acts acts' s s' : run_options s' = run_options s → manager_at s' = manager_at s →
  managerReady s' = managerReady s →
  (managerErrors s' = managerErrors s ∨ managerErrors s' = None) →
  mtrace acts' = mtrace acts → begun acts s → begun acts' s'.
Proof.
  intros Ho Hm Hr He Ht (config & m & Hc & Hv & Hman). exists config, m.
  rewrite Ho. split_and!; [done..|]. unfold managed in *. rewrite Hm, Hr, Ht.
  destruct (manager_at s) as [|p|]; [done| |].
  - destruct Hman as (? & ? & ? & ?). split_and!; [done| |done|done]. by destruct He as [->|].
  - destruct Hman as (err & m' & ? & ? & ? & ? & ? & Herr). exists err, m'. split_and!; [done..|].
    destruct He as [->| ->]; [done|by left].
Qed.

Lemma unbegun_frame acts acts' s s' : manager_at s' = manager_at s → managerReady s' = managerReady s →
  managerErrors s' = managerErrors s → mtrace acts' = mtrace acts → unbegun acts s → unbegun acts' s'.
Proof. intros Hm Hr He Ht (? & ? & ? & ?). unfold unbegun. by rewrite Hm, Hr, He, Ht. Qed.

Lemma main_frame acts acts' s s' : main_at s' = main_at s → run_options s' = run_options s →
  cancelled s' = cancelled s → (signalled s = true → signalled s' = true) →
  run_errors acts' = run_errors acts → trace_of Main acts' = trace_of Main acts →
  (begun acts s → begun acts' s') → (unbegun acts s → unbegun acts' s') →
  main_life acts s → main_life acts' s'.
Proof.
  intros Hm Ho Hc Hsig He Ht Hb Hu. unfold main_life. rewrite Hm, Ho, Hc, He, Ht.
  destruct (main_at s); [naive_solver..|].
  intros [(?&?&?&?)|(?&[?|?]&?)]; [left|right|right]; split_and!; auto.
Qed.

(** A step of the manager means that it was started. *)
Lemma life_begun acts s : life acts s → manager_at s ≠ NotStarted → alive s → begun acts s.
Proof.
  intros [_ _ _ _ _ Hmain] Hm Hal. unfold main_life in Hmain. unfold alive in Hal.
  destruct (main_at s) as [p| | | |code] eqn:Hp; try by destruct Hmain; try done.
  - destruct Hmain as [[? _] _]. done.
  - by destruct (Hal code).
Qed.

Lemma life_starting acts s p : life acts s → main_at s = Starting p →
  unbegun acts s ∧ cancelled s = false ∧ run_errors acts = [] ∧
  ran (setup (run_options s)) (trace_of Main acts) p.
Proof. intros [_ _ _ _ _ Hmain] Hp. unfold main_life in Hmain. by rewrite Hp in Hmain. Qed.

Lemma setup_unlinks opts tr p : parseOptions flags_Parse args = Ok opts →
  ran (setup opts) tr p → unlinks tr = [] ∧ Forall not_by_path tr.
Proof.
  intros Ho Hr. pose proof (setup_holds _ Ho) as Hs.
  apply (ran_keeps (setup opts) (λ tr, unlinks tr = [] ∧ Forall not_by_path tr) tr p); [| |exact Hr].
  - intros tr1 tr2 _. rewrite unlinks_app, Forall_app. by intros [[? _]%app_eq_nil [? _]].
  - eapply holds_impl; [|exact Hs]. by intros ? ? (? & ? & ?).
Qed.

(** The traces after one more action *)
Ltac step_traces :=
  rewrite ?trace_of_snoc, ?run_errors_snoc; cbn [call_of action_error fmap option_fmap option_map];
  rewrite ?app_nil_r, ?joined_nil.

Lemma elem_of_snoc {A} (x : A) l y : x ∈ l → x ∈ (l ++ [y])%list.
Proof. intros. apply elem_of_app. by left. Qed.

(** The steps of the main goroutine before its [select] *)
Lemma life_main_calls acts s c k r : life acts s → main_at s = Starting (Call c k) →
  life (acts ++ [Calls Main (ev c r)]) (at_main s (Starting (k r))).
Proof.
  intros Hl Hp. destruct (life_starting _ _ _ Hl Hp) as (Hu & Hc & He & Hr).
  destruct Hl as [Ho Hsig _ Hdone Hex _].
  assert (ran (setup (run_options s)) (trace_of Main acts ++ [ev c r]) (k r)) as Hr' by by constructor.
  split; cbn [at_main run_options signalled cancelled exported]; step_traces; try done.
  - intros ?%Hsig. by apply elem_of_snoc.
  - by eapply setup_unlinks.
  - unfold main_life. cbn [at_main main_at cancelled run_options]. step_traces.
    split_and!; [|done..]. eapply unbegun_frame; [..|exact Hu]; try done. by step_traces.
Qed.

Lemma life_main_fails acts s e : life acts s → main_at s = Starting (Ret (Err e)) →
  life (acts ++ [Fails e]) (at_main s (exits [e])).
Proof.
  intros Hl Hp. destruct (life_starting _ _ _ Hl Hp) as (Hu & Hc & He & Hr).
  destruct Hl as [Ho Hsig Hset Hdone Hex _].
  split; cbn [at_main run_options signalled cancelled exported]; step_traces; try done.
  - intros ?%Hsig. by apply elem_of_snoc.
  - unfold main_life. cbn [at_main main_at exits]. step_traces. right. rewrite He.
    split_and!; [done| |done]. right. eapply unbegun_frame; [..|exact Hu]; try done. by step_traces.
Qed.

Lemma life_main_starts acts s m : life acts s → main_at s = Starting (Ret (Ok m)) →
  life (acts ++ [Starts]) (started m s).
Proof.
  intros Hl Hp. destruct (life_starting _ _ _ Hl Hp) as (Hu & Hc & He & Hr).
  destruct Hl as [Ho Hsig Hset Hdone Hex _].
  destruct (ran_returned _ _ _ _ (setup_holds _ Ho) Hr) as (_ & _ & Hm).
  destruct (Hm m eq_refl) as (config & Hconfig & Hvalid & Hready).
  split; cbn [started run_options signalled cancelled exported]; step_traces; try done.
  - intros ?%Hsig. by apply elem_of_snoc.
  - unfold main_life. cbn [started main_at cancelled]. step_traces. split_and!; [|done..].
    destruct Hu as (_ & Ht & Herr & _). exists config, m. cbn [started run_options]. split_and!; [done..|].
    unfold managed. cbn [started manager_at managerErrors managerReady]. step_traces. rewrite Ht.
    split_and!; [constructor|done|done|by rewrite Hready].
Qed.

Lemma life_no_panic acts s : life acts s → main_at s ≠ Starting Panic.
Proof.
  intros Hl Hp. destruct (life_starting _ _ _ Hl Hp) as (_ & _ & _ & Hr).
  by apply (ran_no_panic _ _ _ (setup_holds _ (life_options _ _ Hl))) in Hr.
Qed.

Lemma begun_runs acts s p : begun acts s → manager_at s = Runs p → ∃ config m,
  evictionConfig (run_options s) = Ok config ∧ manager_valid config m ∧
  ran (manager_Run m) (mtrace acts) p ∧ managerErrors s = None ∧
  announces None (mtrace acts) ∧ managerReady s = ready_stored (mtrace acts).
Proof.
  intros (config & m & Hc & Hv & Hman) Hp. exists config, m. split_and!; [done..| | | |];
    unfold managed in Hman; rewrite Hp in Hman; by destruct Hman as (? & ? & ? & ?).
Qed.

(** The steps of the manager *)
Lemma life_manager_calls acts s c k r : life acts s → alive s → manager_at s = Runs (Call c k) →
  (selected (ev c r) = Some RunDone → signalled s || cancelled s = true) →
  life (acts ++ [Calls TheManager (ev c r)]) (manager_called (ev c r) (k r) s).
Proof.
  intros Hl Hal Hp Hdone'. assert (begun acts s) as Hb by (apply life_begun; [done|congruence|done]).
  destruct (begun_runs _ _ _ Hb Hp) as (config & m & Hconfig & Hvalid & Hr & Herr & Hann & Hready).
  destruct Hl as [Ho Hsig Hset Hdone Hex Hmain].
  assert (begun (acts ++ [Calls TheManager (ev c r)]) (manager_called (ev c r) (k r) s)) as Hb'.
  { exists config, m. cbn [manager_called run_options]. split_and!; [done..|]. unfold managed.
    cbn [manager_called manager_at managerErrors managerReady]. step_traces.
    assert (ran (manager_Run m) (mtrace acts ++ [ev c r]) (k r)) as Hr' by by constructor.
    split_and!; [done|done| |by rewrite ready_stored_snoc, Hready].
    apply (ran_keeps _ _ _ _ cuttable_announces) in Hr'; [done|].
    eapply holds_impl; [|apply (manager_Run_ok config m Hvalid)]. by intros tr a [[? _] _]. }
  split; cbn [manager_called run_options signalled cancelled exported]; step_traces; try done.
  - intros ?%Hsig. by apply elem_of_snoc.
  - rewrite selections_app, elem_of_app. intros [?|Hin]; [by apply Hdone|]. apply Hdone'.
    unfold selections in Hin. cbn [omap list_omap] in Hin. destruct (selected (ev c r)); [|by apply elem_of_nil in Hin].
    by apply list_elem_of_singleton in Hin as ->.
  - rewrite Hex, recorded_snoc. by destruct (observed (ev c r)).
  - eapply main_frame; [..|exact Hmain]; try done; try by step_traces.
    intros (Hno & _). congruence.
Qed.

Lemma life_manager_no_panic acts s : life acts s → alive s → manager_at s ≠ Runs Panic.
Proof.
  intros Hl Hal Hp. assert (begun acts s) as Hb by (apply life_begun; [done|congruence|done]).
  destruct (begun_runs _ _ _ Hb Hp) as (config & m & _ & Hvalid & Hr & _).
  by apply (ran_no_panic _ _ _ (manager_Run_ok config m Hvalid)) in Hr.
Qed.

Lemma life_manager_returns acts s err m' : life acts s → alive s →
  manager_at s = Runs (Ret (Some err, m')) → life (acts ++ [Returns err]) (manager_sent err s).
Proof.
  intros Hl Hal Hp. assert (begun acts s) as Hb by (apply life_begun; [done|congruence|done]).
  destruct (begun_runs _ _ _ Hb Hp) as (config & m & Hconfig & Hvalid & Hr & Herr & Hann & Hready).
  destruct (ran_returned _ _ _ _ (manager_Run_ok config m Hvalid) Hr) as ([_ Hpend] & _ & [Hsaid Hm']); [done|].
  pose proof (announces_agree _ Hann) as Hagree. rewrite Hpend, Hsaid in Hagree.
  destruct Hl as [Ho Hsig Hset Hdone Hex Hmain].
  split; cbn [manager_sent run_options signalled cancelled exported]; step_traces; try done.
  - intros ?%Hsig. by apply elem_of_snoc.
  - eapply main_frame; [..|exact Hmain]; try done; try by step_traces.
    + intros _. exists config, m. cbn [manager_sent run_options]. split_and!; [done..|]. unfold managed.
      cbn [manager_sent manager_at managerErrors managerReady]. step_traces. exists err, m'.
      split_and!; [done..|by right].
    + intros (Hno & _). congruence.
Qed.

(** The steps that concern neither goroutine *)
Lemma life_frame acts s a s' : life acts s → (∀ g, call_of g a = None) → action_error a = None →
  run_options s' = run_options s → main_at s' = main_at s → manager_at s' = manager_at s →
  managerErrors s' = managerErrors s → managerReady s' = managerReady s → cancelled s' = cancelled s →
  exported s' = exported s → (signalled s = true → signalled s' = true) →
  (signalled s' = true → signalled s = true ∨ a = Signal) →
  life (acts ++ [a]) s'.
Proof.
  intros [Ho Hsig Hset Hdone Hex Hmain] Hcall Herr Hro Hma Hmg Hme Hmr Hc He Hs Hs'.
  assert (∀ g, trace_of g (acts ++ [a]) = trace_of g acts) as Htr.
  { intros g. by rewrite trace_of_snoc, Hcall, app_nil_r. }
  split; rewrite ?Htr, ?Hro, ?Hc, ?He; try done.
  - intros [Hb| ->]%Hs'; [by apply elem_of_snoc, Hsig|]. apply elem_of_app. right. by left.
  - intros Hin%Hdone. apply orb_true_iff in Hin as [?|?]; apply orb_true_iff; auto.
  - eapply main_frame; [..|exact Hmain]; try done.
    + by rewrite run_errors_snoc, Herr, joined_nil.
    + eapply begun_frame; try done. by left.
    + by eapply unbegun_frame.
Qed.

(** The [select] of [run] *)
Lemma life_selects acts s c errs me se : life acts s → main_at s = Selecting →
  errs = joined [] (action_error (Selects c)) → (me = managerErrors s ∨ me = None) →
  (errs = [] → signalled s = true) → life (acts ++ [Selects c]) (selects errs me se s).
Proof.
  intros [Ho Hsig Hset Hdone Hex Hmain] Hp Herrs Hme Hs. unfold main_life in Hmain. rewrite Hp in Hmain.
  destruct Hmain as (Hb & Hc & He).
  split; cbn [selects run_options signalled cancelled exported]; rewrite ?trace_of_snoc; cbn [call_of];
    rewrite ?app_nil_r; try done.
  - intros ?%Hsig. by apply elem_of_snoc.
  - intros _. apply orb_true_r.
  - unfold main_life. cbn [selects main_at signalled]. rewrite run_errors_snoc, He. split_and!; [|done..].
    eapply begun_frame; [..|exact Hb]; try done. by rewrite trace_of_snoc, app_nil_r.
Qed.

Lemma nil_needs_signal acts s : life acts s → main_at s = Selecting → managerErrors s = Some None →
  signalled s = true.
Proof.
  intros [_ _ _ Hdone _ Hmain] Hp Herr. unfold main_life in Hmain. rewrite Hp in Hmain.
  destruct Hmain as ((config & m & _ & Hvalid & Hman) & Hc & _). rewrite Hc, orb_false_r in Hdone.
  apply Hdone. unfold managed in Hman. destruct (manager_at s) as [|p|]; [done|by destruct Hman as (_ & ? & _); congruence|].
  destruct Hman as (err & m' & Hr & _ & _ & _ & _ & [?|Heq]); [congruence|]. rewrite Herr in Heq. simplify_eq.
  destruct (ran_returned _ _ _ _ (manager_Run_ok config m Hvalid) Hr) as (_ & Hnil & _). by apply Hnil.
Qed.

(** The shutdown of a server: what [main_at] becomes *)
Lemma life_shuts_down acts s srv err errs next : life acts s →
  main_at s = StopsMetrics errs ∨ main_at s = StopsPprof errs →
  next = exits (joined errs (ErrShutdown <$> err)) ∨ next = StopsPprof (joined errs (ErrShutdown <$> err)) →
  life (acts ++ [ShutsDown srv err]) (at_main s next).
Proof.
  intros [Ho Hsig Hset Hdone Hex Hmain] Hp Hnext.
  assert (begun acts s ∧ errs = run_errors acts ∧ (errs = [] → signalled s = true)) as (Hb & -> & Hs).
  { unfold main_life in Hmain. by destruct Hp as [Hp|Hp]; rewrite Hp in Hmain. }
  assert (∀ x, joined (run_errors acts) (ErrShutdown <$> err) = x → x = [] → signalled s = true) as Hs'.
  { intros x <- [? _]%app_eq_nil. by apply Hs. }
  assert (begun (acts ++ [ShutsDown srv err]) (at_main s next)) as Hb'.
  { eapply begun_frame; [..|exact Hb]; try done; [by left|]. by rewrite trace_of_snoc, app_nil_r. }
  split; cbn [at_main run_options signalled cancelled exported]; rewrite ?trace_of_snoc; cbn [call_of];
    rewrite ?app_nil_r; try done.
  - intros ?%Hsig. by apply elem_of_snoc.
  - unfold main_life. cbn [at_main main_at]. rewrite run_errors_snoc. cbn [action_error].
    destruct (joined (run_errors acts) (ErrShutdown <$> err)) as [|e es] eqn:Hj;
      specialize (Hs' _ eq_refl); destruct Hnext as [->| ->]; cbn [exits]; rewrite ?Hj.
    + left. auto.
    + auto.
    + right. split_and!; [done|by left|done].
    + auto.
Qed.

Lemma life_step acts s a s' : life acts s → step s a s' → life (acts ++ [a]) s'.
Proof.
  intros Hl Hs. destruct Hs as [c k r Hp|e Hp|m Hp|Hp|c k r Hal Hp Hd|Hal Hp|err m Hal Hp|srv err Hal Hp
    |srv server path h r Hal|Hal|Hp Hs|err Hp Herr|e errs Hp Herr|errs err Hp|errs err Hp].
  - by apply life_main_calls.
  - by apply life_main_fails.
  - by apply life_main_starts.
  - by destruct (life_no_panic _ _ Hl).
  - by apply life_manager_calls.
  - by destruct (life_manager_no_panic _ _ Hl Hal).
  - by eapply life_manager_returns.
  - apply (life_frame acts s); try done. intros ?. by left.
  - apply (life_frame acts s); try done. intros ?. by left.
  - apply (life_frame acts s); try done. intros ?. by right.
  - apply life_selects; try done. by left.
  - apply life_selects; try done; [by right|]. destruct err; [done|]. intros _. by eapply nil_needs_signal.
  - apply life_selects; try done. by left.
  - apply (life_shuts_down _ _ _ _ errs); [done|by left|]. destruct (pprof_at s); auto.
  - apply (life_shuts_down _ _ _ _ errs); [done|by right|]. by left.
Qed.

Local Abbreviation start := (launch flags_Parse registerer args : process M NewE RunE).

Lemma life_start opts : parseOptions flags_Parse args = Ok opts → life [] start.
Proof.
  intros Ho. unfold launch. rewrite Ho. pose proof (newMetrics_run registerer) as Hm.
  destruct (newMetrics registerer) as [[m r]|]; [|done].
  destruct Hm as [-> _]. split; try done; [by intros ?%elem_of_nil|]. unfold main_life. cbn.
  split; [by repeat split|]. split; [done|]. split; [done|constructor].
Qed.

Lemma exited_stays code acts s : reaches (exited code : process M NewE RunE) acts s →
  acts = [] ∧ s = exited code.
Proof.
  induction 1 as [|acts a s s' _ [-> ->] Hs]; [done|]. exfalso.
  inversion Hs; try discriminate; match goal with H : alive _ |- _ => by destruct (H code) end.
Qed.

Lemma reaches_life acts s : reaches start acts s →
  life acts s ∨ acts = [] ∧ s = exited 1 ∧ ∃ e, parseOptions flags_Parse args = Err e.
Proof.
  intros Hr. destruct (parseOptions flags_Parse args) as [opts|e] eqn:Ho.
  - left. induction Hr as [|acts a s s' _ IH Hs]; [by eapply life_start|]. by apply (life_step acts s).
  - right. unfold launch in Hr. rewrite Ho in Hr. apply exited_stays in Hr as [-> ->]. eauto.
Qed.

(** ** The claims *)

(** What every run of a manager keeps, cut anywhere, the calls of the process keep. *)
Lemma manager_keeps (P : trace → Prop) acts s : cuttable P → P [] →
  (∀ opts config m, parseOptions flags_Parse args = Ok opts → evictionConfig opts = Ok config →
     manager_valid config m → holds (manager_Run m) (λ tr _, P tr)) →
  reaches start acts s → P (mtrace acts).
Proof.
  intros Hcut Hnil Hrun [Hl|(-> & _)]%reaches_life; [|done].
  assert (begun acts s ∨ mtrace acts = []) as [(config & m & Hc & Hv & Hman)|Ht]; [| |by rewrite Ht].
  - pose proof (life_main _ _ Hl) as Hmain. unfold main_life in Hmain.
    destruct (main_at s); [right; by destruct Hmain as [(_ & ? & _) _]|left; apply Hmain..|].
    destruct Hmain as [(_ & ? & _)|(_ & [?|(_ & ? & _)] & _)]; auto.
  - pose proof (Hrun _ _ _ (life_options _ _ Hl) Hc Hv) as Hholds. unfold managed in Hman.
    destruct (manager_at s) as [|p|]; [done| |].
    + destruct Hman as [Hr _]. by apply (ran_keeps _ P _ _ Hcut Hholds Hr).
    + destruct Hman as (err & m' & Hr & _). by apply (ran_keeps _ P _ _ Hcut Hholds Hr).
Qed.

(** C12. The exit status tells how the process ended.  It is zero exactly when [run]
    received no error, and this only happens after SIGINT or SIGTERM; it is 1 when the
    command line is refused, [New] fails, the [select] of [run] received an error of
    the manager or of a server, or a server failed to shut down.  Nothing panics, so no
    other status is possible.  An error that is sent only after the [select] has taken
    another case, such as the signal, is not received and does not count. *)
Theorem process_exit_status acts s code : reaches start acts s → main_at s = Exited code →
  (code = 0 ∧ run_errors acts = [] ∧ Signal ∈ acts ∧
     ∃ opts, parseOptions flags_Parse args = Ok opts) ∨
  (code = 1 ∧ (run_errors acts ≠ [] ∨ ∃ e, parseOptions flags_Parse args = Err e)).
Proof.
  intros [Hl|(-> & -> & He)]%reaches_life Hcode.
  - pose proof (life_main _ _ Hl) as Hmain. unfold main_life in Hmain. rewrite Hcode in Hmain.
    destruct Hmain as [(-> & _ & He & Hs)|(-> & _ & He)]; [left|right; by auto].
    split_and!; [done|done|by eapply life_signal|]. eexists. by eapply life_options.
  - injection Hcode as <-. right. by auto.
Qed.

Lemma pprof_exits acts s : reaches start acts s → main_at s = StopsPprof [] →
  reaches start (acts ++ [ShutsDown PprofServer None]) (at_main s (Exited 0)).
Proof.
  intros Hr Hm. eapply reaches_step; [exact Hr|].
  exact (shutdown_pprof s [] None Hm).
Qed.

Lemma metrics_exits acts s : reaches start acts s → main_at s = StopsMetrics [] →
  ∃ next s', reaches start (acts ++ next) s' ∧ main_at s' = Exited 0 ∧
    trace_of TheManager next = [] ∧ (length next <= 2)%nat.
Proof.
  intros Hr Hm. pose proof (reaches_step _ _ _ _ _ Hr (shutdown_metrics s [] None Hm)) as H1.
  destruct (pprof_at s); cbn in H1.
  - eexists _, _. split; [exact H1|]. split; [done|]. split; [done|cbn; lia].
  - pose proof (pprof_exits _ _ H1 eq_refl) as H2. rewrite <-app_assoc in H2.
    eexists _, _. split; [exact H2|]. split; [done|]. split; [done|cbn; lia].
  - pose proof (pprof_exits _ _ H1 eq_refl) as H2. rewrite <-app_assoc in H2.
    eexists _, _. split; [exact H2|]. split; [done|]. split; [done|cbn; lia].
Qed.

(** C24. After a signal the process does not wait for the manager: from any state in
    which the main goroutine waits in its [select] and a signal has come, it can go
    through the [select] and the shutdown of the servers and exit with status 0, and
    the manager makes no further call.  So the process always can stop; but the
    checkpoint that [Run] saves when it is cancelled may never be written. *)
Theorem process_stops_on_signal acts s : reaches start acts s → main_at s = Selecting →
  signalled s = true → ∃ next s',
    reaches start (acts ++ next) s' ∧ main_at s' = Exited 0 ∧
    trace_of TheManager next = [] ∧ (length next <= 3)%nat.
Proof.
  intros Hr Hm Hs.
  pose proof (reaches_step _ _ _ _ _ Hr (select_signal s Hm Hs)) as H1.
  destruct (metrics_exits _ _ H1 eq_refl) as (next & s' & H2 & Hexit & Ht & Hlen).
  rewrite <-app_assoc in H2. exists (Selects CaseSignal :: next), s'.
  split; [exact H2|]. split; [done|]. split; [exact Ht|cbn; lia].
Qed.



End life.
