(* ===== verification/Daemon.v ===== *)
(** * The daemon assembled, and its runs on a concrete system

    [New] over the sketch of HeavyKeeper.v builds the fresh daemon that the claims of
    Runs.v start from.  The second part instantiates those claims, and runs the whole
    daemon against a toy system. *)

From S2P Require Import Prelude Float64 MinHeapSpec TopkSpec Policy Paths CacheKey Inotify System.
From S2P Require Import Watcher Cache Lease Checkpoint Cleanup CleanupDemo Watching RunLoop RunSafety Runs Metrics.
From S2P Require MinHeap HeavyKeeper HeavyKeeperCounts.
Local Open Scope Z_scope.

#[local] Existing Instances HeavyKeeper.HeavyKeeper_Topk HeavyKeeper.HeavyKeeper_TopkLaws.

(** ** New *)

(** The configured path resolved to a real directory, and the cache is bound to its
    device and inode: what the kernel answered. *)
Definition real_directory (st : Stat) : Prop := Z.land (st_mode st) 0xf000 = 0x4000.
Definition resolved_cache (getwd : result CacheError string) (dir : string) (tr : trace) (c : Cache) : Prop :=
  ∃ path st, Abs getwd (Clean dir) = Ok path ∧
    tr = [ev (CEvalSymlinks path) (Ok (diskRoot c)); ev (CLstat (diskRoot c)) (Ok st)] ∧
    real_directory st ∧ rootDevice c = u64 (st_dev st) ∧ rootInode c = u64 (st_ino st).

(** Or what failed: the working directory was needed and is unknown, a link could not
    be resolved, the result not be inspected, or it is no directory. *)
Definition unresolved_cache (getwd : result CacheError string) (dir : string) (tr : trace)
    (e : NewCacheError) : Prop :=
  match e with
  | ErrResolveRoot why => Abs getwd (Clean dir) = Err why ∧ tr = []
  | ErrResolveSymlinks why => ∃ path, Abs getwd (Clean dir) = Ok path ∧
      tr = [ev (CEvalSymlinks path) (Err why)]
  | ErrInspectRoot why => ∃ path root, Abs getwd (Clean dir) = Ok path ∧
      tr = [ev (CEvalSymlinks path) (Ok root); ev (CLstat root) (Err why)]
  | ErrRootNotDirectory root => ∃ path st, Abs getwd (Clean dir) = Ok path ∧
      tr = [ev (CEvalSymlinks path) (Ok root); ev (CLstat root) (Ok st)] ∧ ¬ real_directory st
  | ErrRootIdentity _ => False
  end.

(** What the kernel answered of a path *)
Definition inspected (e : event) : option Stat :=
  match e with
  | existT c r =>
      match c return answer c → option Stat with
      | CLstat _ => λ r, match r with Ok st => Some st | Err _ => None end
      | _ => λ _, None
      end r
  end.

(** A directory cannot be both. *)
Lemma resolved_not_unresolved getwd dir tr c e :
  resolved_cache getwd dir tr c → ¬ unresolved_cache getwd dir tr e.
Proof.
  intros (path & st & Hp & Htr & Hreal & _) Hu.
  assert (omap inspected tr = [st]) as Hin by by rewrite Htr.
  destruct e; cbn in Hu.
  - destruct Hu. congruence.
  - destruct Hu as (? & _ & ->). discriminate.
  - destruct Hu as (? & ? & _ & ->). discriminate.
  - destruct Hu as (? & st' & _ & -> & Hno). by injection Hin as ->.
  - done.
Qed.

Lemma real_directory_mode st :
  negb (mode_is S_IFDIR st) || mode_is S_IFLNK st = false ↔ real_directory st.
Proof.
  unfold real_directory, mode_is, S_IFMT, S_IFDIR, S_IFLNK. rewrite orb_false_iff, negb_false_iff, Z.eqb_eq, Z.eqb_neq.
  split; [by intros []|]. intros H. split; [exact H|]. intros H'. rewrite H in H'. discriminate H'.
Qed.

Lemma NewCache_resolved getwd dir : holds (NewCache getwd dir) (λ tr r,
  match r with
  | Ok c => resolved_cache getwd dir tr c
  | Err e => unresolved_cache getwd dir tr e
  end).
Proof.
  unfold NewCache. destruct (Abs _ _) as [path|why] eqn:Hpath; [|by split].
  go_prog. destruct r as [root|why]; go_prog; [|by exists path].
  destruct r as [st|why]; go_prog; [|by exists path, root].
  pose proof (real_directory_mode st) as Hreal. destruct (_ || _).
  - go_prog. exists path, st. split_and!; [done|done|]. intros H%Hreal. done.
  - go_prog. exists path, st. split_and!; [done|done|by apply Hreal|done|done].
Qed.

Lemma Validate_sizes p : Validate p = None →
  TopKCapacity p ≠ 0 ∧ TopKWidth p ≠ 0 ∧ TopKDepth p ≠ 0 ∧ TopKMinCount p ≠ 0.
Proof.
  unfold Validate.
  repeat match goal with
  | |- context [validatePercent ?name ?x] => destruct (validatePercent name x); [done|]
  | |- (if ?b then _ else _) = None → _ => destruct b eqn:?; [done|]
  end.
  intros _. lia.
Qed.

Section new.
Context {T N : Type} `{!KeyedHeap T N} `{!KeyedHeapLaws T N} `{!HeavyKeeper.Env}.
Context (getwd : result CacheError string).

(** What [New] owes to each of its results *)
Definition New_result (config : Config) (tr : trace)
    (r : result NewError (Notify (HeavyKeeper.HeavyKeeper T))) : Prop :=
  match r with
  | Ok n => fresh (ConfigPolicy config) (CheckpointFile config) n ∧ topk_hot (heavykeeper n) = ∅ ∧
      CacheDir config ≠ EmptyString ∧ CheckpointFile config ≠ EmptyString ∧
      ActivityLock config ≠ EmptyString ∧ resolved_cache getwd (CacheDir config) tr (cache n) ∧
      lease_path (lease n) = ActivityLock config ∧ warmUntil n = zero_time ∧ evicting n = false
  | Err (ErrPolicy e) => Validate (ConfigPolicy config) = Some e ∧ tr = []
  | Err ErrEmptyPath => Validate (ConfigPolicy config) = None ∧
      (CacheDir config = EmptyString ∨ CheckpointFile config = EmptyString) ∧ tr = []
  | Err (ErrNewCache e) => Validate (ConfigPolicy config) = None ∧
      CacheDir config ≠ EmptyString ∧ CheckpointFile config ≠ EmptyString ∧
      unresolved_cache getwd (CacheDir config) tr e
  | Err (ErrNewLease e) => Validate (ConfigPolicy config) = None ∧
      CacheDir config ≠ EmptyString ∧ CheckpointFile config ≠ EmptyString ∧
      ActivityLock config = EmptyString ∧ e = ErrEmptyLockPath ∧
      ∃ c, resolved_cache getwd (CacheDir config) tr c
  end.

Lemma New_run config : topk_u32 (ConfigPolicy config) →
  holds (New getwd (HeavyKeeper.NewHeavyKeeper (T:=T) (N:=N)) config) (New_result config).
Proof.
  intros Hu32. unfold New, New_result. destruct (Validate (ConfigPolicy config)) as [e|] eqn:Hv; [done|].
  destruct (String.eqb_spec (CacheDir config) EmptyString); [by split_and!; [|left|]|].
  destruct (String.eqb_spec (CheckpointFile config) EmptyString); [by split_and!; [|right|]|]. cbn [orb].
  apply holds_bind. eapply holds_impl; [|apply NewCache_resolved].
  intros tr [c|e] Hc; [|apply holds_ret; by rewrite app_nil_r]. unfold NewActivityLease.
  destruct (String.eqb_spec (ActivityLock config) EmptyString);
    apply holds_ret; rewrite app_nil_r; [split_and!; [done..|by exists c]|].
  destruct (Validate_sizes _ Hv) as (Hk & Hw & Hd & Hm). destruct Hu32.
  destruct (HeavyKeeper.NewHeavyKeeper_wf (T:=T) (N:=N) (TopKCapacity (ConfigPolicy config))
    (TopKWidth (ConfigPolicy config)) (TopKDepth (ConfigPolicy config))
    (TopKDecay (ConfigPolicy config)) (TopKMinCount (ConfigPolicy config))) as [_ Hhot]; [done|width|width|].
  split_and!; try done. split; try done. split.
  - apply HeavyKeeper.NewHeavyKeeper_sound; [done|width..].
  - done.
  - intros key. cbn. rewrite Hhot, lookup_empty. by intros [].
Qed.

(** It only resolves and inspects the path of the cache. *)
Lemma New_calls config : holds (New getwd (HeavyKeeper.NewHeavyKeeper (T:=T) (N:=N)) config)
  (λ tr _, unlinks tr = [] ∧ Forall not_by_path tr).
Proof.
  unfold New, NewCache. destruct (Validate _); [by split_and!|]. destruct (_ || _); [by split_and!|].
  destruct (Abs _ _); run_prog; try destruct (NewActivityLease _); go_prog;
    (split; [done|by repeat constructor]).
Qed.

(** C30. [New] accepts a configuration exactly when its policy is valid, none of its three
    paths is empty and its directory resolves to a real one; otherwise its error says
    which of them failed, and for the directory how.  What it returns has not started:
    it is not ready, has no watcher, and its heat is an empty, well-formed sketch of
    the configured capacity; its cache is bound to the device and inode of the
    directory that the configured path resolved to. *)
Theorem New_fresh config : topk_u32 (ConfigPolicy config) →
  holds (New getwd (HeavyKeeper.NewHeavyKeeper (T:=T) (N:=N)) config) (λ tr r,
    ((∃ n, r = Ok n) ↔ Validate (ConfigPolicy config) = None ∧ CacheDir config ≠ EmptyString ∧
       CheckpointFile config ≠ EmptyString ∧ ActivityLock config ≠ EmptyString ∧
       ∃ c, resolved_cache getwd (CacheDir config) tr c) ∧
    match r with
    | Ok n => fresh (ConfigPolicy config) (CheckpointFile config) n ∧ topk_hot (heavykeeper n) = ∅ ∧
        CacheDir config ≠ EmptyString ∧ CheckpointFile config ≠ EmptyString ∧
        ActivityLock config ≠ EmptyString ∧ resolved_cache getwd (CacheDir config) tr (cache n) ∧
        lease_path (lease n) = ActivityLock config ∧ warmUntil n = zero_time ∧ evicting n = false
    | Err (ErrPolicy e) => Validate (ConfigPolicy config) = Some e ∧ tr = []
    | Err ErrEmptyPath => Validate (ConfigPolicy config) = None ∧
        (CacheDir config = EmptyString ∨ CheckpointFile config = EmptyString) ∧ tr = []
    | Err (ErrNewCache e) => Validate (ConfigPolicy config) = None ∧
        CacheDir config ≠ EmptyString ∧ CheckpointFile config ≠ EmptyString ∧
        unresolved_cache getwd (CacheDir config) tr e
    | Err (ErrNewLease e) => Validate (ConfigPolicy config) = None ∧
        CacheDir config ≠ EmptyString ∧ CheckpointFile config ≠ EmptyString ∧
        ActivityLock config = EmptyString ∧ e = ErrEmptyLockPath ∧
        ∃ c, resolved_cache getwd (CacheDir config) tr c
    end).
Proof.
  intros Hu32. eapply holds_impl; [|by apply New_run]. intros tr r Hr. split; [|exact Hr]. split.
  - intros [n ->]. destruct Hr as (Hf & _ & ? & ? & ? & ? & _).
    split_and!; [apply Hf|done..|by exists (cache n)].
  - intros (Hv & Hd & Hc & Hl & c & Hres). destruct r as [n|[e| |e|e]]; cbn in Hr |- *; [by exists n|exfalso..].
    + destruct Hr. congruence.
    + by destruct Hr as (_ & [?|?] & _).
    + destruct Hr as (_ & _ & _ & Hu). by eapply resolved_not_unresolved.
    + by destruct Hr as (_ & _ & _ & ? & _).
Qed.
End new.

(** ** The claims at a concrete daemon *)

#[local] Existing Instances merge_sorter merge_sorter_laws MinHeap.Heap_KeyedHeap
  MinHeap.Heap_KeyedHeapLaws HeavyKeeperCounts.demo_env.

Local Abbreviation no_wd := (Err ErrNotRelative : result CacheError string).

Definition run_policy : EvictionPolicy :=
  mkPolicy 60 300 3600 50 1800 (f_of_Z 30) (f_of_Z 35) 10000 9000 10 100 4 64 2 
    (f_div (f_of_Z 9) (f_of_Z 10)) 1 false.
Definition demo_config : Config := mkConfig "/cache" "/lock" "/state/hot-set.json" run_policy.
Definition run_sketch : sketch :=
  HeavyKeeper.NewHeavyKeeper (N:=MinHeap.loc) 4 64 2 (f_div (f_of_Z 9) (f_of_Z 10)) 1.
Definition demo_fresh : Notify sketch :=
  mkNotify demo_cache None run_sketch (mkLease "/lock") run_policy "/state/hot-set.json" false
    zero_time false.

Lemma run_sketch_ok : heat_ok 4 run_sketch.
Proof.
  split; [|done|].
  - apply (HeavyKeeper.NewHeavyKeeper_sound (N:=MinHeap.loc)); [width|lia|lia|lia].
  - intros k [c Hk]. vm_compute in Hk. discriminate.
Qed.

Lemma demo_fresh_ok : fresh run_policy "/state/hot-set.json" demo_fresh.
Proof. split; try done. apply run_sketch_ok. Qed.

Lemma New_fresh_witness : topk_u32 run_policy ∧
  holds (New no_wd (HeavyKeeper.NewHeavyKeeper (T:=MinHeap.Heap) (N:=MinHeap.loc)) demo_config)
    (λ tr r, ((∃ n, r = Ok n) ↔ Validate run_policy = None ∧ "/cache" ≠ "" ∧ "/state/hot-set.json" ≠ "" ∧
        "/lock" ≠ "" ∧ ∃ c, resolved_cache no_wd "/cache" tr c)%string ∧
      New_result no_wd demo_config tr r).
Proof.
  assert (topk_u32 run_policy) as Hu32 by (split; vm_compute; split; done).
  split; [exact Hu32|]. exact (New_fresh (T:=MinHeap.Heap) (N:=MinHeap.loc) no_wd demo_config Hu32).
Defined.

Lemma Run_guards_deletion_witness : fresh run_policy "/state/hot-set.json" demo_fresh ∧
  holds (Run no_wd demo_fresh) (λ tr r,
    (∃ restored, (restored = true → accepted 4 tr) ∧
       paced 1800 (run_start restored demo_fresh) tr) ∧
    (fds_fresh [] tr → unlinks_locked [] tr ∧ locks [] tr = []) ∧
    (unlinks tr ≠ [] → Shadow run_policy = false) ∧
    own_files "/state/hot-set.json" [] tr).
Proof. split; [exact demo_fresh_ok|]. apply (Run_guards_deletion no_wd _ _ _ demo_fresh_ok). Defined.

Lemma Run_saves_loadable_witness : fresh run_policy "/state/hot-set.json" demo_fresh ∧
  holds (Run no_wd demo_fresh) (λ tr r, Forall (save_ok 4) tr).
Proof. split; [exact demo_fresh_ok|]. apply (Run_saves_loadable no_wd _ _ _ demo_fresh_ok). Defined.

Lemma Run_ends_witness : fresh run_policy "/state/hot-set.json" demo_fresh ∧
  holds (Run no_wd demo_fresh) (λ tr r,
    (r.1 = Returned None ↔ RunDone ∈ selections tr) ∧
    (∀ e, r.1 = Returned (Some e) → ∃ reset tr1 tr2 tr3 n0 n1, tr = tr1 ++ tr2 ++ tr3 ∧
       exec (reconcile (T:=sketch) no_wd n0 reset) tr2 (Some e, n1) ∧ selections (tr2 ++ tr3) = [] ∧
       (reset = false → selections tr1 = [])) ∧
    (r.1 = Running → ∃ turns tr1 tr2, tr = tr1 ++ ev CTurns turns :: tr2 ∧
       selections tr1 = [] ∧ length (selections tr2) = turns) ∧
    (r.1 ≠ Running → ready r.2 = false ∧ last (observations tr) = Some (SetReady false) ∧
       ∀ w, watcher r.2 = Some w → isClosed w = true)).
Proof. split; [exact demo_fresh_ok|]. apply (Run_ends no_wd _ _ _ demo_fresh_ok). Defined.

(** A client library whose gauges are what they export, whose counters count their
    increments, and whose registry is the set of names taken. *)
Definition demo_describe (c : collector (Opts * float64) (Opts * nat) (Opts * list string * list string)) :
    Opts * list string :=
  match c with OfGauge g => (g.1, []) | OfCounter g => (g.1, []) | OfVec v => v.1 end.
Definition demo_names (cs : list (collector (Opts * float64) (Opts * nat) (Opts * list string * list string))) :
    list string := (λ c, OptsName (demo_describe c).1) <$> cs.
#[local] Instance demo_prometheus : Prometheus := {
  Gauge := Opts * float64; Counter := Opts * nat; CounterVec := Opts * list string * list string;
  Registerer := gset string;
  NewGauge o := (o, f_zero); NewCounter o := (o, O); NewCounterVec o ls := (o, ls, []);
  Gauge_Set g x := (g.1, x); Counter_Inc c := (c.1, S c.2); With_Inc v l := (v.1, l :: v.2);
  With_Add v l _ := (v.1, l :: v.2);
  gauge_value g := g.2;
  describe := demo_describe;
  registered r := r;
  MustRegister r cs :=
    if forallb (λ c, valid_desc (demo_describe c)) cs && bool_decide (NoDup (demo_names cs)) &&
       forallb (λ name, negb (bool_decide (name ∈ r))) (demo_names cs)
    then Some (r ∪ list_to_set (demo_names cs)) else None
}.
#[local] Instance demo_prometheus_laws : PrometheusLaws.
Proof.
  split; try done.
  - intros r cs Hv Hn Hfree. cbn in *. rewrite Hv, bool_decide_true by exact Hn. cbn [andb].
    eexists. split; [|done]. rewrite (proj2 (forallb_forall _ _)); [done|].
    intros name Hin%list_elem_of_In. apply negb_true_iff, bool_decide_eq_false.
    apply list_elem_of_fmap in Hin as (c & -> & Hc). by apply Hfree.
  - intros r cs c Hc Hin. cbn in *. destruct (_ && _) eqn:Hb; [|done].
    apply andb_true_iff in Hb as [_ Hb]. rewrite forallb_forall in Hb.
    specialize (Hb (OptsName (demo_describe c).1)). rewrite bool_decide_true in Hb by done.
    discriminate Hb. apply list_elem_of_In. by apply (list_elem_of_fmap_2 (λ c, OptsName (demo_describe c).1)).
Qed.

Definition empty_registry : Registerer := (∅ : gset string).
Definition demo_registry : Registerer := (∅ : gset string) ∪ metric_names.
Lemma newMetrics_registers_witness :
  match newMetrics empty_registry with
  | Some (m, r') => m = new_collectors ∧ (∅ : gset string) ## metric_names ∧
      r' = demo_registry ∧ newMetrics r' = None
  | None => ¬ (∅ : gset string) ## metric_names
  end.
Proof. exact (newMetrics_registers empty_registry). Defined.

Lemma demo_registered : newMetrics empty_registry = Some (new_collectors, demo_registry).
Proof.
  pose proof (newMetrics_run empty_registry) as Hr.
  destruct (newMetrics empty_registry) as [[m r]|].
  - destruct Hr as (-> & _ & Hr). change (r = demo_registry) in Hr. by rewrite Hr.
  - destruct Hr. apply disjoint_empty_l.
Qed.

Lemma ready_gauge_truthful_witness : fresh run_policy "/state/hot-set.json" demo_fresh ∧
  newMetrics empty_registry = Some (new_collectors, demo_registry) ∧
  holds (Run no_wd demo_fresh) (λ tr r,
    gauge_value (readyGauge (recorded new_collectors (observations tr))) = gauge_of (Ready r.2)).
Proof.
  split; [exact demo_fresh_ok|]. split; [exact demo_registered|].
  apply (ready_gauge_truthful no_wd _ _ _ _ _ _ demo_fresh_ok demo_registered).
Defined.

(** [demo_fresh] with a watcher *)
Definition demo_watching : Notify sketch := set_watcher demo_fresh (Some (mkWatcher 3 ∅ ∅ false)).
Definition opened_a : Event := mkEvent InOpen 0 (Join ["/cache"; key_a])%string.

Lemma handleEvent_effect_witness : heat_ok 4 (heavykeeper demo_watching) ∧
  holds (handleEvent no_wd demo_watching (Some opened_a)) (λ tr res,
    event_frame demo_watching res.2 ∧ heat_ok 4 (heavykeeper res.2) ∧ res.1 = None ∧
    tr = reports [RecordAccess ContentCAS] ∧
    file_heat opened_a key_a run_sketch (heavykeeper res.2)).
Proof.
  split; [apply run_sketch_ok|].
  refine (holds_impl _ _ _ _ (handleEvent_effect no_wd 4 demo_watching (Some opened_a) run_sketch_ok _)).
  - intros tr res (Hframe & Hok & Hev). split; [exact Hframe|]. split; [exact Hok|].
    assert (ends_coverage opened_a = false) as Hc by (vm_compute; reflexivity).
    assert (HasEvent opened_a InIsdir = false) as Hd by (vm_compute; reflexivity).
    assert (KeyForPath no_wd "/cache" (Name opened_a) = Ok (key_a, ContentCAS)) as Hk
      by (vm_compute; reflexivity).
    rewrite Hc, Hd in Hev. cbn [cache demo_watching set_watcher demo_fresh diskRoot demo_cache] in Hev.
    rewrite Hk in Hev. exact Hev.
  - eexists. reflexivity.
Defined.

(** A tree with a store, a directory that is none of the cache's, and a file. *)
Definition demo_tree : tree :=
  toy_dir [("cas", toy_dir [("aa", toy_dir [(digest_a, toy_file)])]); ("gc", toy_dir [])]%string.
Definition demo_watch_os (c : call) (d : Z) : answer c * Z :=
  match c return answer c * Z with
  | CWalk _ => (Ok demo_tree, d)
  | CInotifyAddWatch _ _ _ => (Ok d, d + 1)
  | c => (unused_answer c, d)
  end.
Definition demo_watch := interp demo_watch_os
  (addDirectoryWatches demo_cache (mkWatcher 3 ∅ ∅ false) "/cache") 1.

Example demo_watch_plan : omap watch_acted demo_watch.1.2 =
  [Watched "/cache" true; Listed "/cache"; Watched "/cache/cas" true; Listed "/cache/cas";
   Watched "/cache/cas/aa" true; Listed "/cache/cas/aa"]%string.
Proof. vm_compute. reflexivity. Qed.

(** A directory that appeared in a store is watched, and what is in it is counted. *)
Definition demo_seed_os (c : call) (d : Z) : answer c * Z :=
  match c return answer c * Z with
  | CWalk _ => (Ok (toy_dir [(digest_a, toy_file); ("tmp", toy_file)])%string, d)
  | CLstat _ => (Ok (mkStat 7 9 S_IFREG 10 20), d)
  | CInotifyAddWatch _ _ _ => (Ok d, d + 1)
  | c => (unused_answer c, d)
  end.
Definition made_aa : Event := mkEvent (Z.lor InCreate InIsdir) 0 "/cache/cas/aa".
Example demo_seeding : let '(r, tr, _) := interp demo_seed_os (handleEvent no_wd demo_watching (Some made_aa)) 1 in
  match r with
  | Some (None, n) => Topk_List (heavykeeper n) = Some [mkItem key_a 1]
  | _ => False
  end ∧ omap watch_acted tr = [Watched "/cache/cas/aa" true; Listed "/cache/cas/aa"; Listed "/cache/cas/aa"]%string.
Proof. vm_compute. split; reflexivity. Qed.

Lemma demo_tree_names : names_ok demo_tree.
Proof. cbn. repeat split; discriminate. Qed.

Lemma demo_watch_ok : Forall walk_names_ok demo_watch.1.2.
Proof.
  assert (∃ w1 w2 w3 l1 l2 l3, demo_watch.1.2 = [ev (CWalk "/cache") (Ok demo_tree); w1; l1; w2; l2; w3; l3] ∧
    Forall walk_names_ok [w1; l1; w2; l2; w3; l3]) as (w1 & w2 & w3 & l1 & l2 & l3 & -> & Hrest).
  { vm_compute. do 6 eexists. split; [reflexivity|]. by repeat constructor. }
  constructor; [exact demo_tree_names|exact Hrest].
Qed.

Lemma watches_complete_witness : Forall walk_names_ok demo_watch.1.2 ∧
  ∃ t w', hd_error demo_watch.1.2 = Some (ev (CWalk "/cache") (Ok t)) ∧
    demo_watch.1.1 = Some (None, w') ∧
    omap watch_acted demo_watch.1.2 = watch_plan "/cache" [] t ∧
    ∀ p, Watched p true ∈ watch_plan "/cache" [] t → watching w' p.
Proof.
  split; [exact demo_watch_ok|].
  assert (abs_path "/cache" ["cache"]%string) as Hroot.
  { split; [done|]. constructor; [|constructor]. repeat split; discriminate. }
  destruct demo_watch.1.1 as [[err w']|] eqn:Hrun; [|vm_compute in Hrun; discriminate].
  assert (err = None) as ->.
  { vm_compute in Hrun. by injection Hrun. }
  destruct (holds_if_exec _ _ _ (watches_complete demo_cache ["cache"]%string [] (mkWatcher 3 ∅ ∅ false)
    "/cache" Hroot Hroot) demo_watch.1.2 (None, w')) as (t & Hhd & Hact & Hw & _).
  - apply (interp_exec demo_watch_os _ 1 _ _ demo_watch.2). unfold demo_watch in *.
    destruct (interp _ _ _) as [[a tr] s]. cbn in *. by subst.
  - exact demo_watch_ok.
  - reflexivity.
  - exists t, w'. split; [exact Hhd|]. split; [reflexivity|]. split; [exact Hact|exact Hw].
Defined.

(** ** Whole runs on a toy system *)

(** The toy file system of CleanupDemo.v with a clock that advances by 100 at each
    reading, what the loop will receive, and what the checkpoint file holds. *)
Record world := mkWorld {
  o_files : toy; o_now : Z; o_choices : list run_choice; o_checkpoint : option decoded
}.
Definition set_files (s : world) (f : toy) : world :=
  mkWorld f (o_now s) (o_choices s) (o_checkpoint s).

Definition world_os (c : call) (s : world) : answer c * world :=
  match c return answer c * world with
  | CNow => (o_now s, mkWorld (o_files s) (o_now s + 100) (o_choices s) (o_checkpoint s))
  | CTurns => (length (o_choices s), s)
  | CSelect _ =>
      (default RunDone (head (o_choices s)),
       mkWorld (o_files s) (o_now s) (tail (o_choices s)) (o_checkpoint s))
  | CReceive _ => (MsgEvent None, s)
  | CInotifyInit => (Ok 100, s)
  | CInotifyAddWatch _ _ _ => (Ok 1, s)
  | COpenFile path =>
      match o_checkpoint s with
      | Some _ => let '(r, f) := toy_open path (o_files s) in (r, set_files s f)
      | None => (Err ENOENT, s)
      end
  | CDecode _ _ => (o_checkpoint s, s)
  | CDecodeEOF _ => (true, s)
  | CMkdirAll _ | CChmod _ | CEncode _ _ | CFsync _ | CRename _ _ | CRemove _ => (Ok tt, s)
  | CCreateTemp _ => (Ok (50, demo_temp), s)
  | CWalk root => ((if String.eqb root "/cache" then Ok (toy_dir [("ac", toy_dir []); ("cas", toy_dir [])])%string
                    else toy_walk root), s)
  | CLstat path =>
      if String.eqb path "/cache" then (Ok (mkStat 7 1 S_IFDIR 0 0), s)
      else (toy_stat path (o_files s), s)
  | c => let '(r, f) := toy_os c (o_files s) in (r, set_files s f)
  end.

Definition hoshino : prog (result NewError (run_end * Notify sketch)) :=
  n ← New no_wd (HeavyKeeper.NewHeavyKeeper (T:=MinHeap.Heap) (N:=MinHeap.loc)) demo_config;
  match n with
  | Err e => Ret (Err e)
  | Ok n => r ← Run no_wd n; Ret (Ok r)
  end.

Definition saved_heat : decoded :=
  mkDecoded (mkCheckpoint 1 5 [mkItem key_a 2; mkItem key_b 1]) eq_refl.
(** The checkpoints a trace wrote *)
Definition encoded (e : event) : option checkpoint :=
  match e with existT (CEncode _ c) _ => Some c | _ => None end.
Definition world_run (choices : list run_choice) (saved : option decoded) :=
  interp world_os hoshino (mkWorld toy_start 5000 choices saved).

(** A daemon with a checkpoint deletes the coldest entry that is old enough in its
    first cycle, forgets it, and saves what is left when it is cancelled. *)
Example warm_run : let '(r, tr, _) := world_run [RunCleanup; RunDone] (Some saved_heat) in
  match r with Some (Ok (Returned None, _)) => True | _ => False end ∧
  snd <$> unlinks tr = [digest_b] ∧ omap encoded tr = [mkCheckpoint 1 5100 [mkItem key_a 2]].
Proof. vm_compute. done. Qed.

(** One without a checkpoint deletes nothing until it is warm, 1800 after it started;
    what was opened in between is what it keeps. *)
Example cold_run : let '(r, tr, _) := world_run
    [RunCleanup; RunWatcher (MsgEvent (Some opened_a)); RunCheckpoint] None in
  match r with Some (Ok (Running, _)) => True | _ => False end ∧
  unlinks tr = [] ∧ omap encoded tr = [mkCheckpoint 1 5200 [mkItem key_a 1]] ∧
  RecordFrozen "warmup" ∈ observations tr.
Proof. vm_compute. split_and!; try done. repeat first [left; done|right]. Qed.

(** A lost watcher freezes deletion again. *)
Example lost_run : let '(r, tr, _) := world_run
    [RunWatcher (MsgError ErrEventOverflow); RunCleanup] (Some saved_heat) in
  match r with Some (Ok (Running, n)) => warmUntil n = 6800 | _ => False end ∧ unlinks tr = [].
Proof. vm_compute. done. Qed.
