(* ===== verification/Restart.v ===== *)
(** * Heat across a restart (notify.go with checkpoint.go and heavykeeper.go)

    The checkpoint from end to end: what one process saves of its sketch, and what the
    next one restores from the file that is there, wherever the first was cut off.
    Save_atomic (Checkpoint.v) gives the file, loadCheckpoint reads it, and
    Restore_exact (HeavyKeeperCounts.v) rebuilds the list. *)

From S2P Require Import Prelude MinHeapSpec TopkSpec Float64 Policy Paths CacheKey System Cache Checkpoint.
From S2P Require Import Cleanup CleanupDemo Watching RunLoop RunSafety Daemon.
From S2P Require MinHeap HeavyKeeper HeavyKeeperCounts.
Local Open Scope Z_scope.

#[local] Existing Instances HeavyKeeper.HeavyKeeper_Topk HeavyKeeper.HeavyKeeper_TopkLaws.

(** ** The files the next process finds *)

(** Its answers agree with [x], what is found at the checkpoint's path, and with [lstat].
    A file that is there opens.  A checkpoint that takes up to 64 MiB once encoded
    decodes to what was encoded, with nothing after it, as encoding/json promises;
    nothing is said of a longer one, which the decoder meets cut off.  This file is the
    only one that [restoreCheckpoint] decodes. *)
Definition as_stored (encoded_size : checkpoint → Z) (x : option file) (path : string)
    (lstat : string → result errno Stat) (e : event) : Prop :=
  match e with
  | existT c r =>
      match c return answer c → Prop with
      | COpenFile p => λ r, p = path → is_Some x → ∃ f, r = Ok f
      | CDecode _ limit => λ r, ∀ stored, (x ≫= f_content) = Some stored →
          encoded_size stored <= limit → ∃ d, r = Some d ∧ decoded_value d = stored
      | CDecodeEOF _ => λ r, ∀ stored, (x ≫= f_content) = Some stored → r = true
      | CLstat p => λ r, r = lstat p
      | _ => λ _, True
      end r
  end.

(** The item's file still is in the cache. *)
Definition kept (lstat : string → result errno Stat) (c : Cache) (it : Item) : bool :=
  match lstat (Join [diskRoot c; Item_Key it]) with
  | Ok info => mode_is S_IFREG info && negb (mode_is S_IFLNK info)
  | Err _ => false
  end.

(** What is found is the hot set [l], saved at some time and written to the disk. *)
Definition holds_items (l : list Item) (x : option file) : Prop :=
  ∃ time, x = Some (mkFile (Some (mkCheckpoint checkpointVersion time l)) true).

Section stored.
Context (encoded_size : checkpoint → Z).

(** At most 64 MiB, whenever it is saved *)
Definition fits (l : list Item) : Prop :=
  ∀ time, encoded_size (mkCheckpoint checkpointVersion time l) <= 64 * 2 ^ 20.

Lemma Snapshot_kept x path lstat c it : item_ok it →
  holds_if (as_stored encoded_size x path lstat) (Snapshot c (Item_Key it)) (λ _ r,
    match r with Ok _ => kept lstat c it = true | Err _ => kept lstat c it = false end).
Proof.
  intros [[kind Hkey] _]. unfold Snapshot, kept. rewrite Hkey. go_if.
  match goal with H : as_stored _ _ _ _ _ |- _ => cbn in H; rewrite <-H end.
  destruct r as [info|e]; [|done].
  by destruct (mode_is S_IFREG info), (mode_is S_IFLNK info).
Qed.

Lemma existing_items_kept x path lstat c items : Forall item_ok items →
  holds_if (as_stored encoded_size x path lstat) (existing_items c items)
    (λ _ r, r = filter (λ it, kept lstat c it = true) items).
Proof.
  induction 1 as [|it items Hit _ IH]; [done|]. cbn [existing_items]. go_if.
  eapply holds_if_impl; [|by apply Snapshot_kept]. intros tr res Hres. go_if.
  eapply holds_if_impl; [|exact IH]. intros tr' items' ->. go_if.
  rewrite filter_cons. by destruct res; case_decide; congruence.
Qed.

Lemma loadCheckpoint_reads path lstat maxItems stored : encoded_size stored <= 64 * 2 ^ 20 →
  checkpoint_ok maxItems stored →
  holds_if (as_stored encoded_size (Some (mkFile (Some stored) true)) path lstat) (loadCheckpoint path maxItems)
    (λ _ r, r = Ok (Some (Items stored)) ∧ counts_u32 stored = true).
Proof.
  intros Hsize (Hv & Hlen & Hok). unfold loadCheckpoint. go_if. cbn in H.
  destruct (H eq_refl) as [f ->]; [done|]. go_if. cbn in H0.
  destruct (H0 _ eq_refl) as (d & -> & <-); [exact Hsize|]. go_if. cbn in H1. rewrite (H1 _ eq_refl). cbn [negb].
  rewrite Hv, Z.eqb_refl. destruct (Z.ltb_spec maxItems (Z.of_nat (length (Items (decoded_value d))))); [lia|].
  cbn [negb orb]. rewrite (proj2 (check_items_None _) Hok). go_if. split; [done|apply decoded_ok].
Qed.
End stored.

(** ** The claim *)

Section restart.
Context {H N : Type} `{!MinHeapSpec.KeyedHeap H N} `{!MinHeapSpec.KeyedHeapLaws H N} `{!HeavyKeeper.Env}.
Abbreviation sketch := (HeavyKeeper.HeavyKeeper H).
Context (encoded_size : checkpoint → Z) (cap w : Z) (j : nat).

(** [l] is the hot set of the sketch [hk] of a daemon, and row [j] of a sketch of
    width [w] keeps its keys apart. *)
Record hot_set (hk : sketch) (l : list Item) : Prop := {
  hot_heat : heat_ok cap hk;
  hot_list : Topk_List hk = Some l;
  hot_weight : HeavyKeeperCounts.weight (HeavyKeeperCounts.seen_item <$> l) < 2 ^ 32;
  hot_separated : HeavyKeeperCounts.separated w j (Item_Key <$> l)
}.

(** [n] is a daemon of the next process, of the same parameters, whatever its sketch
    went through. *)
Record next_start (path : string) (n : Notify sketch) : Prop := {
  next_heat : heat_ok cap (heavykeeper n);
  next_width : HeavyKeeper.width (heavykeeper n) = w;
  next_depth : Z.of_nat j < HeavyKeeper.depth (heavykeeper n);
  next_min : HeavyKeeper.minCount (heavykeeper n) <= 1;
  next_capacity : TopKCapacity (policy n) = cap;
  next_file : checkpointFile n = path
}.

(** Started where [x] is found at its checkpoint's path, the daemon [n] has the hot set
    [l], less the keys whose file has gone from the cache: the same counts, in the same
    order. *)
Definition restarts lstat (x : option file) (n : Notify sketch) (l : list Item) : Prop :=
  holds_if (as_stored encoded_size x (checkpointFile n) lstat) (restoreCheckpoint n) (λ _ r,
    r.1 = true ∧ Topk_List (heavykeeper r.2) = Some (filter (λ it, kept lstat (cache n) it = true) l)).

Lemma weight_filter (P : Item → Prop) `{!∀ it, Decision (P it)} l :
  Forall (λ it, in_u32 (Item_Count it)) l →
  HeavyKeeperCounts.weight (HeavyKeeperCounts.seen_item <$> filter P l) <=
  HeavyKeeperCounts.weight (HeavyKeeperCounts.seen_item <$> l).
Proof.
  induction 1 as [|it l Hit _ IH]; [done|]. rewrite filter_cons. case_decide; cbn; width.
Qed.

Lemma hot_set_restorable hk l : hot_set hk l →
  Forall item_ok l ∧ Z.of_nat (length l) <= cap ∧ StronglySorted hotter l ∧
  NoDup (Item_Key <$> l) ∧ Forall (λ it, HeavyKeeper.restorable it = true ∧ in_u32 (Item_Count it)) l.
Proof.
  intros [Hheat Hl _ _]. destruct (heat_items cap hk Hheat) as (l' & Hl' & Hok & Hlen).
  assert (l' = l) as -> by congruence.
  pose proof (HeavyKeeper.sound_wf _ (heat_inv _ _ Hheat)) as Hwf.
  destruct (HeavyKeeperCounts.List_sound hk l Hwf Hl) as (Hs & Hnd & _ & Hu32).
  split_and!; try done. apply Forall_and. split; [|done].
  eapply Forall_impl; [exact Hok|]. intros [key c] [[kind Hkey] Hc]. cbn in *.
  unfold HeavyKeeper.restorable. cbn. destruct key; [done|]. by apply Z.eqb_neq in Hc as ->.
Qed.

Lemma restoreCheckpoint_restores lstat path x n hk l : next_start path n → hot_set hk l →
  fits encoded_size l → holds_items l x → restarts lstat x n l.
Proof.
  intros [Hheat Hw Hd Hm Hcap Hf] Hset Hfits [time ->].
  destruct (hot_set_restorable hk l Hset) as (Hok & Hlen & Hsort & Hnd & Hres).
  unfold restarts, restoreCheckpoint. rewrite Hf, Hcap. go_if.
  eapply holds_if_impl; [|by apply (loadCheckpoint_reads encoded_size path lstat cap)].
  intros tr loaded [-> _]. go_if. eapply holds_if_impl; [|by apply existing_items_kept].
  intros tr' existing ->. set (P := λ it, kept lstat (cache n) it = true).
  pose proof (sublist_filter P l) as Hsub.
  destruct (HeavyKeeperCounts.Restore_exact (heavykeeper n) (filter P l) j) as (hk' & Hrun & Hl'); try done.
  - apply HeavyKeeper.sound_wf, (heat_inv _ _ Hheat).
  - by eapply StronglySorted_sublist.
  - by apply (sublist_NoDup _ _ Hnd), sublist_fmap.
  - pose proof (heat_cap _ _ Hheat) as Hk. cbn in Hk. rewrite Hk.
    apply sublist_length in Hsub. lia.
  - apply Forall_forall. intros it Hin. rewrite Forall_forall in Hres. by apply Hres, (elem_of_sublist (filter P l)).
  - apply Forall_and in Hres as [_ Hu]. pose proof (weight_filter P l Hu).
    pose proof (hot_weight _ _ Hset). lia.
  - pose proof (sublist_fmap Item_Key _ _ Hsub) as Hkeys. rewrite Hw. intros key1 key2 Hin1 Hin2.
    by apply (hot_separated _ _ Hset); eapply elem_of_sublist.
  - change (Topk_Restore (heavykeeper n) (filter P l) = Some hk') in Hrun. cbn [Items].
    rewrite Hrun. by go_if.
Qed.

(** C8. The heat survives a restart, and a crash.  Let whatever may be found at the
    checkpoint's path hold a hot set [l0] when a daemon whose hot set is [l] saves its
    checkpoint.  Wherever the save is cut off, whatever a crash leaves there, the next
    process restores a whole hot set, [l0] or [l], and it is [l] when the save
    succeeded: it tracks exactly the keys whose file still is in the cache, with the
    counts they had, in the same order.  For this each checkpoint must fit the 64 MiB
    that are read of the file, the least count of the next process be at most 1, the
    default, and the keys be kept apart by one row of the sketch and their counts add
    up below 2^32. *)
Theorem heat_survives_restart lstat s n1 n2 hk0 l0 l :
  hot_set hk0 l0 → hot_set (heavykeeper n1) l → next_start (checkpointFile n1) n2 →
  fits encoded_size l0 → fits encoded_size l →
  (∀ x, x ∈ found s (checkpointFile n1) → holds_items l0 x) →
  holds_if (temp_fresh (checkpointFile n1)) (save_checkpoint n1) (λ tr err,
    (∀ tr1 tr2 x, tr = tr1 ++ tr2 → x ∈ found (files_after s tr1) (checkpointFile n1) →
       restarts lstat x n2 l0 ∨ restarts lstat x n2 l) ∧
    (err = None → ∀ x, x ∈ found (files_after s tr) (checkpointFile n1) → restarts lstat x n2 l)).
Proof.
  intros Hold Hnew Hn Hfit0 Hfit Hs. unfold save_checkpoint. rewrite (hot_list _ _ Hnew). go_if.
  rename r into now. eapply holds_if_impl; [|apply Save_atomic].
  intros tr err (Hpre & Hend & _). cbn [app].
  assert (∀ x, holds_items l0 x → restarts lstat x n2 l0) as Hrest0.
  { intros x. by apply (restoreCheckpoint_restores lstat (checkpointFile n1) x n2 hk0). }
  assert (∀ x, holds_items l x → restarts lstat x n2 l) as Hrest.
  { intros x. by apply (restoreCheckpoint_restores lstat (checkpointFile n1) x n2 (heavykeeper n1)). }
  split.
  - intros [|e tr1] tr2 x Heq Hx; [by left; apply Hrest0, Hs|]. injection Heq as <- ->.
    destruct (Hpre tr1 tr2 x eq_refl Hx) as [Hkept| ->]; [left; by apply Hrest0, Hs|right; apply Hrest; by eexists].
  - intros Herr x Hx. specialize (Hend Herr).
    change (found (files_after s tr) (checkpointFile n1) = [Some (mkFile (Some (mkCheckpoint checkpointVersion now l)) true)]) in Hend.
    change (x ∈ found (files_after s tr) (checkpointFile n1)) in Hx. rewrite Hend in Hx. apply list_elem_of_singleton in Hx as ->. apply Hrest. by eexists.
Qed.
End restart.

(** ** The claim at a concrete restart *)

#[local] Existing Instances merge_sorter merge_sorter_laws MinHeap.Heap_KeyedHeap
  MinHeap.Heap_KeyedHeapLaws HeavyKeeperCounts.demo_env.

Definition earlier_heat : sketch :=
  default new_sketch (HeavyKeeperCounts.run (N:=MinHeap.loc) new_sketch [HeavyKeeperCounts.OAdd key_a 1]).
Definition later_events : list HeavyKeeperCounts.op :=
  [HeavyKeeperCounts.OAdd key_a 2; HeavyKeeperCounts.OAdd key_c 1].
Definition later_heat : sketch :=
  default new_sketch (HeavyKeeperCounts.run (N:=MinHeap.loc) new_sketch later_events).
Definition earlier_items : list Item := [mkItem key_a 1].
Definition demo_items : list Item := [mkItem key_a 2; mkItem key_c 1].
Definition demo_saving : Notify sketch := set_topk demo_fresh later_heat.
Definition demo_state : files :=
  mkFiles ∅ {["/state/hot-set.json" := mkFile (Some (mkCheckpoint 1 3 earlier_items)) true]}%string ∅.
(** A bound on the length of what encoding/json makes of a checkpoint with short keys *)
Definition demo_size (c : checkpoint) : Z := 100 + 200 * Z.of_nat (length (Items c)).
(** [key_c] has been deleted in the meantime. *)
Definition demo_lstat (path : string) : result errno Stat :=
  if String.eqb path (Join ["/cache"%string; key_a]) then Ok (mkStat 7 11 S_IFREG 100 10) else Err ENOENT.

Lemma demo_apart : HeavyKeeper.slot 64 0 key_a ≠ HeavyKeeper.slot 64 0 key_c ∧
  HeavyKeeper.murmur3_Sum32 key_a ≠ HeavyKeeper.murmur3_Sum32 key_c.
Proof. split; apply (bool_decide_unpack _); vm_compute; exact I. Qed.

Lemma demo_hot_set ops hk l : HeavyKeeperCounts.run (N:=MinHeap.loc) new_sketch ops = Some hk →
  Forall HeavyKeeperCounts.event_ok (HeavyKeeperCounts.history ops) →
  Topk_List hk = Some l → Forall item_ok l → Item_Key <$> l ⊆ [key_a; key_c] →
  HeavyKeeperCounts.weight (HeavyKeeperCounts.seen_item <$> l) < 2 ^ 32 → hot_set 4 64 0 hk l.
Proof.
  intros Hrun Hok Hl Hitems Hsub Hweight.
  destruct (HeavyKeeperCounts.sketch_wf (N:=MinHeap.loc) 4 64 2 f_zero 1 ops hk) as [Hwf (Hk & _ & _ & _ & Hm)];
    [width|lia|lia|done|exact Hrun|]. cbn in Hk, Hm.
  assert (∀ key c, HeavyKeeper.hot (N:=MinHeap.loc) hk !! key = Some c → item_ok (mkItem key c)) as Hhot.
  { intros key c Hc. rewrite Forall_forall in Hitems. apply Hitems.
    by apply (HeavyKeeperCounts.List_elem hk l (mkItem key c)). }
  split; [split|done|done|].
  - split; [done|by rewrite Hm|]. intros key c Hc. destruct (Hhot key c Hc) as [_ Hne]. cbn in Hne.
    pose proof (HeavyKeeper.wf_hot_count hk key c Hwf Hc). width.
  - exact Hk.
  - intros key [c Hc]. by destruct (Hhot key c Hc).
  - intros key1 key2 Hin1%Hsub Hin2%Hsub. destruct demo_apart as [Hslot Hprint].
    revert Hin1 Hin2. rewrite !elem_of_cons, !elem_of_nil.
    intros [->|[->|[]]] [->|[->|[]]]; [reflexivity| | |reflexivity]; intros [Heq|Heq]; congruence.
Qed.

Lemma heat_survives_restart_witness :
  (hot_set 4 64 0 earlier_heat earlier_items ∧ hot_set 4 64 0 later_heat demo_items ∧
   fits demo_size earlier_items ∧ fits demo_size demo_items ∧
   ∀ x, x ∈ found demo_state "/state/hot-set.json" → holds_items earlier_items x) ∧
  holds_if (temp_fresh "/state/hot-set.json") (save_checkpoint demo_saving) (λ tr err,
    (∀ tr1 tr2 x, tr = tr1 ++ tr2 → x ∈ found (files_after demo_state tr1) "/state/hot-set.json" →
       restarts demo_size demo_lstat x demo_fresh earlier_items ∨
       restarts demo_size demo_lstat x demo_fresh demo_items) ∧
    (err = None → ∀ x, x ∈ found (files_after demo_state tr) "/state/hot-set.json" →
       restarts demo_size demo_lstat x demo_fresh demo_items)) ∧
  filter (λ it, kept demo_lstat (cache demo_fresh) it = true) demo_items = [mkItem key_a 2].
Proof.
  assert (∀ key n, key ∈ [key_a; key_c] → n ≠ 0 → item_ok (mkItem key n)) as Hitem.
  { intros key n Hin Hn. split; [|done]. revert Hin. cbn [Item_Key].
    rewrite !elem_of_cons, !elem_of_nil. intros [->|[->|[]]]; by eexists. }
  assert (hot_set 4 64 0 earlier_heat earlier_items) as H0.
  { apply (demo_hot_set [HeavyKeeperCounts.OAdd key_a 1]).
    - vm_compute. reflexivity.
    - change (Forall HeavyKeeperCounts.event_ok [HeavyKeeperCounts.Seen key_a 1]).
      rewrite Forall_cons, Forall_nil. cbn [HeavyKeeperCounts.event_ok]. split; [width|done].
    - vm_compute. reflexivity.
    - constructor; [|constructor]. apply Hitem; [set_solver|done].
    - set_solver.
    - done. }
  assert (hot_set 4 64 0 later_heat demo_items) as H1.
  { apply (demo_hot_set later_events).
    - vm_compute. reflexivity.
    - change (Forall HeavyKeeperCounts.event_ok
        [HeavyKeeperCounts.Seen key_a 2; HeavyKeeperCounts.Seen key_c 1]).
      rewrite !Forall_cons, Forall_nil. cbn [HeavyKeeperCounts.event_ok]. split_and!; done || width.
    - vm_compute. reflexivity.
    - repeat (constructor; [apply Hitem; [set_solver|done]|]). constructor.
    - set_solver.
    - done. }
  assert (∀ x, x ∈ found demo_state "/state/hot-set.json" → holds_items earlier_items x) as Hs.
  { intros x ->%list_elem_of_singleton. by exists 3. }
  assert (∀ l, (length l <= 2)%nat → fits demo_size l) as Hfit.
  { intros l Hl time. unfold demo_size. cbn [Items]. lia. }
  pose proof (Hfit earlier_items ltac:(cbn; lia)) as Hfit0. specialize (Hfit demo_items ltac:(cbn; lia)).
  split; [done|]. split; [|vm_compute; reflexivity].
  apply (heat_survives_restart demo_size 4 64 0 demo_lstat demo_state demo_saving demo_fresh earlier_heat); try done.
  split; try done. apply run_sketch_ok.
Defined.
