(* ===== verification/Fallbacks.v ===== *)
(** * Other systems (notify_other.go, delete_other.go, identity_other.go)

    What is built in place of the manager where there is no inotify: [New] refuses, and
    so does everything else.  [fileIdentity] has no answer on systems that are neither
    Linux nor Darwin. *)

From S2P Require Import Prelude MinHeapSpec TopkSpec Policy Paths CacheKey System Partial Cache RunLoop Options Runs Metrics.
From S2P Require Import Process.

(** ** The stubs *)

Inductive FallbackError := ErrDeletionOnlyOnLinux (key : string) | ErrRequiresLinux.

Definition deleteSnapshot (c : Cache) (snapshot : EntryInfo) : prog (option FallbackError) :=
  Ret (Some (ErrDeletionOnlyOnLinux (Key snapshot))).

Definition fileIdentity (info : Stat) : option (Z * Z) := None.

(** An empty struct *)
Definition Notify : Type := unit.

Definition New (config : Config) : prog (result FallbackError Notify) := Ret (Err ErrRequiresLinux).

Definition Ready (n : Notify) : bool := false.

Definition Run (n : Notify) : prog (option FallbackError) := Ret (Some ErrRequiresLinux).

(** ** They are a manager *)

#[export] Instance other_Manager : Manager Notify FallbackError FallbackError := {
  manager_New := New;
  manager_Run n := err ← Run n; Ret (Some err, n);
  manager_Ready := Ready
}.

#[export] Program Instance other_ManagerLaws : ManagerLaws Notify FallbackError FallbackError := {
  manager_valid _ _ := True
}.
Next Obligation. intros c _. by split_and!. Qed.
Next Obligation. intros c m _. apply holds_bind, holds_ret, holds_ret. by split_and!. Qed.

(** ** The claim *)

Section other.
Context `{!Prometheus} `{!PrometheusLaws}.
Context {E : Type} (flags_Parse : options → list string → result E (options * list string)).
Context (registerer : Registerer) (args : list string).
Local Abbreviation state := (process Notify FallbackError FallbackError).
Local Abbreviation start := (launch flags_Parse registerer args : state).

(** The process before it has refused, and after *)
Definition refusing (s : state) : Prop :=
  manager_at s = NotStarted ∧ metrics_at s = NoServer ∧ pprof_at s = NoServer ∧
  ((∃ e, main_at s = Starting (Ret (Err e))) ∨ ∃ code, main_at s = Exited code ∧ code ≠ 0%Z).
Definition quiet (a : action FallbackError FallbackError) : Prop :=
  match a with Signal | Fails _ => True | _ => False end.

Lemma refusing_start : refusing start.
Proof.
  unfold launch. destruct (parseOptions flags_Parse args) as [opts|];
    [|split; [done|]; split; [done|]; split; [done|]; right; by exists 1%Z].
  destruct (newMetrics registerer) as [[m r]|];
    (split; [done|]; split; [done|]; split; [done|]); [left|right; by exists 2%Z].
  unfold setup. destruct (evictionConfig opts) as [c|e]; cbn; by eexists.
Qed.

Lemma refusing_step s a s' : refusing s → step s a s' → refusing s' ∧ quiet a.
Proof.
  intros (Hm & Hs & Hp & Hmain) Hstep.
  inversion Hstep as [c k r Hx|e Hx|m Hx|Hx|c k r _ Hx|_ Hx|err m _ Hx|srv err _ Hx|srv ? ? ? ? _ Hx|Hal|Hx|err Hx|? ? Hx|? ? Hx|? ? Hx];
    subst; try (destruct Hmain as [[e' He]|(code & He & _)]; congruence); try congruence.
  - split; [|done]. split; [done|]. split; [done|]. split; [done|]. right. by exists 1%Z.
  - destruct srv; cbn in Hx; congruence.
  - destruct srv; cbn in Hx; congruence.
  - split; [|done]. by split.
Qed.

(** C40. On a system that is not Linux the daemon does nothing: whatever its arguments, it
    makes no system call, starts no server and never exits with status 0. *)
Theorem other_system_refuses acts s : reaches start acts s →
  trace_of Main acts = [] ∧ trace_of TheManager acts = [] ∧
  metrics_at s = NoServer ∧ pprof_at s = NoServer ∧ main_at s ≠ Exited 0 ∧ main_at s ≠ Selecting.
Proof.
  intros Hr. assert (refusing s ∧ Forall quiet acts) as [(_ & Hs & Hp & Hmain) Hq].
  { induction Hr as [|acts a s s' _ [IH IHq] Hstep]; [split; [apply refusing_start|constructor]|].
    destruct (refusing_step _ _ _ IH Hstep). split; [done|]. apply Forall_app. by repeat constructor. }
  assert (∀ g, trace_of g acts = []) as Ht.
  { intros g. clear Hr. unfold trace_of. induction Hq as [|[] acts Ha _ IH]; cbn; by try destruct Ha. }
  split_and!; [apply Ht|apply Ht|done|done| |]; intros He;
    destruct Hmain as [[e' He']|(code & He' & Hne)]; congruence.
Qed.
End other.
