(* ===== verification/Launch.v ===== *)
(** * The daemon as a process

    The manager of notify.go, over the sketch of HeavyKeeper.v, is the one Process.v was
    written for; so what Runs.v shows of its runs holds of the process, wherever it is
    stopped.  The second part runs the process on concrete systems. *)

From S2P Require Import Prelude Float64 MinHeapSpec TopkSpec Policy Paths CacheKey Inotify System Partial.
From S2P Require Import Watcher Cache Lease Checkpoint Cleanup CleanupDemo Watching RunLoop Options.
From S2P Require Import RunSafety Runs Metrics Process Daemon Fallbacks.
From S2P Require MinHeap HeavyKeeper HeavyKeeperCounts.
Local Open Scope Z_scope.

#[local] Existing Instances HeavyKeeper.HeavyKeeper_Topk HeavyKeeper.HeavyKeeper_TopkLaws.

(** ** The manager of the Linux build *)

Lemma announced_last tr r : last (observations tr) = Some (SetReady r) → announced tr = r.
Proof.
  unfold announced. destruct (observations tr) as [|o obs _] using rev_ind; [done|].
  rewrite last_snoc, foldl_app. by intros [= ->].
Qed.

(** A checkpoint cannot become accepted by an execution that is only completed. *)
Lemma accepted_cut maxItems tr tr' : Forall idle tr' → accepted maxItems (tr ++ tr') → accepted maxItems tr.
Proof.
  intros Hidle (stored & rest & Htr & Hok). rewrite omap_app in Htr.
  assert (∀ f, f ∈ omap file_answered tr' → f ≠ FileEOF true) as Hno.
  { intros f (e & He & Hf)%list_elem_of_omap. rewrite Forall_forall in Hidle.
    destruct (Hidle e He) as [c ->]. destruct c; cbn in Hf; by simplify_eq. }
  destruct (omap file_answered tr) as [|a1 [|a2 [|a3 l]]] eqn:Hl; cbn in Htr.
  - destruct (Hno (FileEOF true)); [rewrite Htr; set_solver|done].
  - injection Htr as -> Htr. destruct (Hno (FileEOF true)); [rewrite Htr; set_solver|done].
  - injection Htr as -> -> Htr. destruct (Hno (FileEOF true)); [rewrite Htr; set_solver|done].
  - injection Htr as -> -> -> _. exists stored, l. by rewrite Hl.
Qed.

(** How a run is paced, from the state [New] leaves *)
Definition paced_run (p : EvictionPolicy) (tr : trace) : Prop := ∃ restored,
  (restored = true → accepted (TopKCapacity p) tr) ∧
  paced (WarmupDuration p) (mkMonitor false (if restored then Warm zero_time else Cold) 0) tr.

Lemma cuttable_paced p : cuttable (paced_run p).
Proof.
  intros tr tr' Hidle (restored & Hacc & Hp). exists restored. split.
  - intros Hres. by apply (accepted_cut _ tr tr' Hidle), Hacc.
  - by apply paced_app in Hp as [? _].
Qed.
Lemma cuttable_own file : cuttable (own_files file []).
Proof. intros tr tr' _. by intros [? _]%own_files_app. Qed.
#[local] Hint Resolve cuttable_paced cuttable_own : hoshino.

Section linux.
Context {T N : Type} `{!KeyedHeap T N} `{!KeyedHeapLaws T N} `{!HeavyKeeper.Env} `{!Sorter} `{!SorterLaws}.
Context (getwd : result CacheError string).
Local Abbreviation notify := (Cleanup.Notify (HeavyKeeper.HeavyKeeper T)).

#[local] Instance linux_Manager : Manager notify NewError NotifyError := {
  manager_New := RunLoop.New getwd (HeavyKeeper.NewHeavyKeeper (T:=T) (N:=N));
  manager_Run n :=
    '(res, n) ← RunLoop.Run getwd n;
    Ret (match res with Returned err => Some err | Running => None end, n);
  manager_Ready := RunLoop.Ready
}.

Lemma linux_New c : topk_u32 (ConfigPolicy c) →
  holds (manager_New c) (λ tr r, unlinks tr = [] ∧ Forall not_by_path tr ∧
    ∀ n : notify, r = Ok n →
      (fresh (ConfigPolicy c) (CheckpointFile c) n ∧ warmUntil n = zero_time) ∧ manager_Ready n = false).
Proof.
  intros Hu32. eapply holds_impl; [|apply holds_and; [apply New_calls|by apply New_run]].
  intros tr r [[Hu Hp] Hr]. split; [done|]. split; [done|]. intros n ->.
  destruct Hr as (Hf & _ & _ & _ & _ & _ & _ & Hw & _). split; [done|]. by destruct Hf.
Qed.

(** What every run keeps, of a daemon with the policy [p] and the checkpoint [file] *)
Definition run_kept (p : EvictionPolicy) (file : string) (tr : trace) : Prop :=
  paced_run p tr ∧ (fds_fresh [] tr → unlinks_locked [] tr) ∧ (unlinks tr ≠ [] → Shadow p = false) ∧
  Forall (save_ok (TopKCapacity p)) tr ∧ own_files file [] tr.

Lemma cuttable_kept p file : cuttable (run_kept p file).
Proof. unfold run_kept. auto 10 with hoshino. Qed.

Lemma linux_Run p file (n : notify) : fresh p file n → warmUntil n = zero_time →
  holds (manager_Run n) (λ tr r,
    (paired tr ∧ (r.1 = Some None → RunDone ∈ selections tr) ∧
     (r.1 ≠ None → announced tr = false ∧ manager_Ready r.2 = false)) ∧ run_kept p file tr).
Proof.
  intros Hn Hw. apply holds_bind. eapply holds_impl; [|by apply Run_fine].
  intros tr [res n'] (restored & Hacc & m' & [Hpaced _ Hlock Hshadow Hsave Hown Hpair] & _ & Hdone & Hstop & _).
  apply holds_ret. rewrite app_nil_r. cbn [fst snd] in *. split; [split; [done|split]|].
  - destruct res as [err|]; [|done]. intros [= ->]. by apply Hdone.
  - intros Hne. destruct Hstop as [Hr Hann _]; [by intros ->|]. split; [|done].
    by apply announced_last.
  - split; [|split; [|done]].
    + exists restored. split; [done|]. unfold run_start in Hpaced. by rewrite Hw in Hpaced.
    + intros Hf. by apply (Hlock []).
Qed.

#[local] Program Instance linux_ManagerLaws : ManagerLaws notify NewError NotifyError := {
  manager_valid c n := fresh (ConfigPolicy c) (CheckpointFile c) n ∧ warmUntil n = zero_time
}.
Next Obligation. apply linux_New. Qed.
Next Obligation.
  intros c n [Hn Hw]. eapply holds_impl; [|by apply (linux_Run (ConfigPolicy c) (CheckpointFile c))]. by intros tr r [? _].
Qed.

(** ** The process *)

Context `{!Prometheus} `{!PrometheusLaws}.
Context {E : Type} (flags_Parse : options → list string → result E (options * list string)).
Context (registerer : Registerer) (args : list string).
Local Abbreviation start := (launch flags_Parse registerer args : process notify NewError NotifyError).

Lemma main_calls_harmless acts s :
  (∀ o rest, flags_Parse default_options args = Ok (o, rest) → typed o) →
  registered registerer ## metric_names → reaches start acts s →
  unlinks (trace_of Main acts) = [] ∧ Forall not_by_path (trace_of Main acts).
Proof.
  intros Htyped Hfree Hr.
  destruct (reaches_life flags_Parse registerer args Htyped Hfree _ _ Hr) as [Hl|(-> & _)].
  - apply (life_setup _ _ _ _ Hl).
  - split; [done|constructor].
Qed.

Lemma manager_kept opts config acts s :
  (∀ o rest, flags_Parse default_options args = Ok (o, rest) → typed o) →
  registered registerer ## metric_names →
  parseOptions flags_Parse args = Ok opts → evictionConfig opts = Ok config → reaches start acts s →
  run_kept (ConfigPolicy config) (CheckpointFile config) (trace_of TheManager acts).
Proof.
  intros Htyped Hfree Hopts Hconfig Hr.
  apply (manager_keeps flags_Parse registerer args Htyped Hfree
    (run_kept (ConfigPolicy config) (CheckpointFile config)) acts s); [apply cuttable_kept| | |exact Hr].
  - split; [exists false; by split|]. split; [done|]. split; [done|]. split; [constructor|done].
  - intros opts' config' n Ho Hc [Hn Hw]. assert (config' = config) as -> by congruence.
    eapply holds_impl; [|exact (linux_Run _ _ n Hn Hw)]. by intros tr' r [_ ?].
Qed.

(** C2. Deletion is guarded in the whole process, at every moment of its life, and however
    it ends, cut off by the exit of [main] included.  With the policy and the paths
    that the command line means: the manager unlinks entries only while it has
    announced that it is ready, after the warm-up, under the exclusive lock, and not in
    shadow mode; by their paths it removes only temporary files that it made itself,
    and renames them only to its checkpoint; each checkpoint it writes has the current
    version, at most [TopKCapacity] items and only cache keys with positive counts;
    and starting up unlinks, removes and renames nothing. *)
Theorem process_guards_deletion opts config acts s :
  (∀ o rest, flags_Parse default_options args = Ok (o, rest) → typed o) →
  registered registerer ## metric_names →
  parseOptions flags_Parse args = Ok opts → evictionConfig opts = Ok config →
  reaches start acts s →
  let p := ConfigPolicy config in
  let tr := trace_of TheManager acts in
  (unlinks (trace_of Main acts) = [] ∧ Forall not_by_path (trace_of Main acts)) ∧
  paced_run p tr ∧ (fds_fresh [] tr → unlinks_locked [] tr) ∧
  (unlinks tr ≠ [] → Shadow p = false) ∧ Forall (save_ok (TopKCapacity p)) tr ∧
  own_files (CheckpointFile config) [] tr.
Proof.
  intros Htyped Hfree Hopts Hconfig Hr p tr. split; [by eapply main_calls_harmless|].
  by eapply manager_kept.
Qed.

End linux.

(** ** A process on the toy system *)

#[local] Existing Instances merge_sorter merge_sorter_laws MinHeap.Heap_KeyedHeap
  MinHeap.Heap_KeyedHeapLaws HeavyKeeperCounts.demo_env demo_prometheus demo_prometheus_laws.

Local Abbreviation no_wd := (Err ErrNotRelative : result CacheError string).
#[local] Instance demo_Manager : Manager (Cleanup.Notify sketch) NewError NotifyError :=
  linux_Manager (T:=MinHeap.Heap) (N:=MinHeap.loc) no_wd.
#[local] Instance demo_ManagerLaws : ManagerLaws (Cleanup.Notify sketch) NewError NotifyError :=
  linux_ManagerLaws (T:=MinHeap.Heap) (N:=MinHeap.loc) no_wd.
Local Abbreviation demo_process := (process (Cleanup.Notify sketch) NewError NotifyError).

(** A goroutine that makes the calls of [tr] in the process *)
Lemma main_runs {M NewE RunE} `{!Manager M NewE RunE} `{!Prometheus} (s0 : process M NewE RunE) acts s p tr q :
  reaches s0 acts s → main_at s = Starting p → ran p tr q →
  reaches s0 (acts ++ (Calls Main <$> tr)) (at_main s (Starting q)).
Proof.
  intros Hr Hp Hran. induction Hran as [|tr c k r _ IH].
  - rewrite app_nil_r. assert (at_main s (Starting p) = s) as -> by (rewrite <-Hp; by destruct s). done.
  - rewrite fmap_app, app_assoc. eapply reaches_step; [exact IH|].
    exact (main_calls (at_main s (Starting (Call c k))) c k r eq_refl).
Qed.

Lemma manager_runs {M NewE RunE} `{!Manager M NewE RunE} `{!Prometheus} (s0 : process M NewE RunE) acts s p tr q :
  reaches s0 acts s → main_at s = Selecting → manager_at s = Runs p → ran p tr q →
  Forall (λ e, selected e ≠ Some RunDone) tr →
  ∃ s', reaches s0 (acts ++ (Calls TheManager <$> tr)) s' ∧ main_at s' = Selecting ∧
    manager_at s' = Runs q ∧ metrics_at s' = metrics_at s ∧ run_options s' = run_options s.
Proof.
  intros Hr Hm Hp Hran. induction Hran as [|tr c k r _ IH]; intros Hsel.
  - exists s. by rewrite app_nil_r.
  - apply Forall_app in Hsel as [Hsel Hlast]. rewrite Forall_singleton in Hlast.
    destruct (IH Hsel) as (s' & Hr' & Hm' & Hp' & Hup & Ho).
    exists (manager_called (ev c r) (k r) s'). split_and!; [|done..].
    rewrite fmap_app, app_assoc. eapply reaches_step; [exact Hr'|].
    apply manager_calls; [intros code; congruence|done|]. intros Hd. by destruct (Hlast Hd).
Qed.

Lemma not_done tr : RunDone ∉ selections tr → Forall (λ e, selected e ≠ Some RunDone) tr.
Proof.
  intros Hno. apply Forall_forall. intros e He Hsel. apply Hno. unfold selections.
  apply list_elem_of_omap. by exists e.
Qed.

(** Flags for the toy system: deletion enabled, small sizes *)
Definition toy_options : options :=
  mkOptions "/cache" "/lock" "/state/hot-set.json" "127.0.0.1" 9092 "127.0.0.1" 6060 false
    60 300 50 1800 3600 (f_of_Z 30) (f_of_Z 35) 2 1 0 100 4 64 2 (f_div (f_of_Z 9) (f_of_Z 10)) 1.
Definition toy_Parse (o : options) (args : list string) : result unit (options * list string) :=
  match args with [] => Ok (toy_options, []) | _ => Err tt end.
Definition toy_launch : demo_process := launch toy_Parse empty_registry [].
Definition toy_config : Config :=
  match evictionConfig toy_options with Ok c => c | Err _ => demo_config end.

Lemma toy_typed o rest : toy_Parse default_options [] = Ok (o, rest) → typed o.
Proof. intros [= <- _]. split; vm_compute; repeat split; discriminate. Qed.

Lemma toy_free : registered empty_registry ## metric_names.
Proof. apply disjoint_empty_l. Qed.

Lemma toy_parsed : parseOptions toy_Parse [] = Ok toy_options.
Proof. vm_compute. reflexivity. Qed.

Lemma toy_launched : main_at toy_launch = Starting (setup toy_options) ∧ pprof_at toy_launch = NoServer ∧
  run_options toy_launch = toy_options.
Proof.
  unfold toy_launch, launch. rewrite toy_parsed. by rewrite demo_registered.
Qed.

(** Starting up, then one turn of the manager's loop: a cleanup cycle *)
Definition toy_world : world := mkWorld toy_start 5000 [RunCleanup] (Some saved_heat).
Definition toy_setup := interp world_os (setup toy_options) toy_world.
Definition toy_notify : Cleanup.Notify sketch :=
  match toy_setup.1.1 with Some (Ok n) => n | _ => demo_fresh end.
Definition toy_turn := interp world_os (manager_Run toy_notify) toy_setup.2.
Definition toy_acts : list (action NewError NotifyError) :=
  ((Calls Main <$> toy_setup.1.2) ++ [Starts] ++ (Calls TheManager <$> toy_turn.1.2) ++ [Signal])%list.

Lemma toy_reaches : ∃ s, reaches toy_launch toy_acts s ∧ main_at s = Selecting ∧
  signalled s = true ∧ metrics_at s = Serving.
Proof.
  destruct toy_launched as (Hm & _ & _).
  assert (exec (setup toy_options) toy_setup.1.2 (Ok toy_notify)) as Hsetup.
  { apply (interp_exec world_os _ toy_world _ _ toy_setup.2). unfold toy_notify.
    assert (match toy_setup.1.1 with Some (Ok _) => true | _ => false end = true) as Hok
      by (vm_compute; reflexivity).
    unfold toy_setup in *. destruct (interp _ _ _) as [[[[n|e]|] tr] w]; by cbn in *. }
  pose proof (main_runs toy_launch [] toy_launch _ _ _ (reaches_nil _) Hm (exec_ran _ _ _ Hsetup)) as H1.
  pose proof (reaches_step _ _ _ _ _ H1 (main_starts
    (at_main toy_launch (Starting (Ret (Ok toy_notify)))) toy_notify eq_refl)) as H2.
  destruct toy_turn.1.1 as [r|] eqn:Hr; [|vm_compute in Hr; discriminate].
  assert (exec (manager_Run toy_notify) toy_turn.1.2 r) as Hturn.
  { apply (interp_exec world_os _ toy_setup.2 _ _ toy_turn.2). unfold toy_turn in *.
    destruct (interp _ _ _) as [[a tr] w]. cbn in *. by subst. }
  destruct (manager_runs toy_launch _ (started toy_notify _) _ _ _ H2 eq_refl eq_refl (exec_ran _ _ _ Hturn)) as (s & H3 & Hs & Hp & Hup & _).
  { apply not_done. assert (selections toy_turn.1.2 = [RunCleanup]) as -> by (vm_compute; reflexivity).
    by intros ?%list_elem_of_singleton. }
  eexists. split.
  - unfold toy_acts. rewrite !app_assoc. eapply reaches_step; [exact H3|].
    apply signal_arrives. intros code. congruence.
  - by split_and!.
Qed.

Lemma toy_unlinks : snd <$> unlinks (trace_of TheManager toy_acts) = [digest_b].
Proof. vm_compute. reflexivity. Qed.

Lemma toy_saves : omap encoded (trace_of TheManager toy_acts) = [].
Proof. vm_compute. reflexivity. Qed.

Lemma toy_evicts : evictionConfig toy_options = Ok toy_config.
Proof. vm_compute. reflexivity. Qed.

(** The process has deleted an entry, a signal arrives, and it is gone with status 0
    without having saved its heat. *)
Lemma toy_gone : ∃ acts s, reaches toy_launch acts s ∧ main_at s = Exited 0 ∧
  trace_of TheManager acts = trace_of TheManager toy_acts.
Proof.
  destruct toy_reaches as (s & Hr & Hm & Hs & _).
  pose proof (reaches_step _ _ _ _ _ Hr (select_signal s Hm Hs)) as H1.
  destruct (metrics_exits _ _ _ _ _ H1 eq_refl) as (next & s' & H2 & Hexit & Ht & _).
  exists ((toy_acts ++ [Selects CaseSignal]) ++ next)%list, s'. split; [exact H2|]. split; [done|].
  unfold trace_of in *. rewrite !omap_app. cbn [omap list_omap call_of]. by rewrite Ht, !app_nil_r.
Qed.

Example lost_checkpoint : ∃ acts s, reaches toy_launch acts s ∧ main_at s = Exited 0 ∧
  snd <$> unlinks (trace_of TheManager acts) = [digest_b] ∧ omap encoded (trace_of TheManager acts) = [].
Proof.
  destruct toy_gone as (acts & s & Hr & Hexit & Ht). exists acts, s. rewrite Ht.
  split_and!; [done|done|exact toy_unlinks|exact toy_saves].
Qed.

(** An error that loses the race with the signal is dropped: a server fails, but the
    [select] takes the signal. *)
Example dropped_error : ∃ acts s, reaches toy_launch acts s ∧ main_at s = Exited 0 ∧
  Serves MetricsServer (Some 98) ∈ acts.
Proof.
  destruct toy_reaches as (s & Hr & Hm & Hs & Hup).
  assert (alive s) as Hal by (intros code; congruence).
  pose proof (reaches_step _ _ _ _ _ Hr (server_returns s MetricsServer (Some 98) Hal Hup)) as H1.
  pose proof (reaches_step _ _ _ _ _ H1 (select_signal (server_ended MetricsServer (Some 98) s) Hm Hs)) as H2.
  destruct (metrics_exits _ _ _ _ _ H2 eq_refl) as (next & s' & H3 & Hexit & _).
  eexists _, s'. split; [exact H3|]. split; [done|].
  apply elem_of_app; left. apply elem_of_app; left. apply elem_of_app; right. by left.
Qed.

(** ** The claims at this process *)

Lemma process_guards_deletion_witness : ∃ acts s, reaches toy_launch acts s ∧
  snd <$> unlinks (trace_of TheManager acts) = [digest_b] ∧
  let p := ConfigPolicy toy_config in let tr := trace_of TheManager acts in
  (unlinks (trace_of Main acts) = [] ∧ Forall not_by_path (trace_of Main acts)) ∧
  paced_run p tr ∧ (fds_fresh [] tr → unlinks_locked [] tr) ∧
  (unlinks tr ≠ [] → Shadow p = false) ∧ Forall (save_ok (TopKCapacity p)) tr ∧
  own_files (CheckpointFile toy_config) [] tr.
Proof.
  destruct toy_reaches as (s & Hr & _). exists toy_acts, s. split; [exact Hr|]. split; [exact toy_unlinks|].
  exact (process_guards_deletion no_wd toy_Parse empty_registry [] toy_options toy_config toy_acts s
    toy_typed toy_free toy_parsed toy_evicts Hr).
Defined.

Lemma process_exit_status_witness : ∃ acts s, reaches toy_launch acts s ∧ main_at s = Exited 0 ∧
  ((0 = 0 ∧ run_errors acts = [] ∧ Signal ∈ acts ∧ ∃ opts, parseOptions toy_Parse [] = Ok opts) ∨
   (0 = 1 ∧ (run_errors acts ≠ [] ∨ ∃ e, parseOptions toy_Parse [] = Err e))).
Proof.
  destruct toy_gone as (acts & s & Hr & Hexit & _). exists acts, s. split; [exact Hr|]. split; [exact Hexit|].
  exact (process_exit_status toy_Parse empty_registry [] toy_typed toy_free acts s 0 Hr Hexit).
Defined.

Lemma process_stops_on_signal_witness : ∃ s, reaches toy_launch toy_acts s ∧ ∃ next s',
  reaches toy_launch (toy_acts ++ next) s' ∧ main_at s' = Exited 0 ∧
  trace_of TheManager next = [] ∧ (length next <= 3)%nat.
Proof.
  destruct toy_reaches as (s & Hr & Hm & Hs & _). exists s. split; [exact Hr|].
  exact (process_stops_on_signal toy_Parse empty_registry [] toy_acts s Hr Hm Hs).
Defined.


Local Abbreviation default_args := ["--cache-dir=/var/cache"%string].
Local Abbreviation default_launch := (launch demo_Parse empty_registry default_args : demo_process).


Lemma other_system_refuses_witness :
  let start := (launch toy_Parse empty_registry [] :
    process Fallbacks.Notify Fallbacks.FallbackError Fallbacks.FallbackError) in
  ∃ s, reaches start [Fails (ErrNew ErrRequiresLinux)] s ∧ main_at s = Exited 1 ∧
    trace_of Main [Fails (RunE:=Fallbacks.FallbackError) (ErrNew ErrRequiresLinux)] = [] ∧
    trace_of TheManager [Fails (RunE:=Fallbacks.FallbackError) (ErrNew ErrRequiresLinux)] = [] ∧
    metrics_at s = NoServer ∧ pprof_at s = NoServer ∧ main_at s ≠ Exited 0 ∧ main_at s ≠ Selecting.
Proof.
  intros start. assert (∃ s, reaches start [Fails (ErrNew ErrRequiresLinux)] s ∧ main_at s = Exited 1) as (s & Hr & Hs).
  { eexists. split; [|shelve]. eapply (reaches_step _ [] _ _ _ (reaches_nil _)). apply main_fails.
    unfold start, launch. rewrite toy_parsed, demo_registered. reflexivity.
    Unshelve. reflexivity. }
  exists s. split; [exact Hr|]. split; [exact Hs|].
  exact (other_system_refuses toy_Parse empty_registry [] _ s Hr).
Defined.
